(* ===== verification/_CoqProject ===== *)
-Q . S2P
Prelude.v
Crates.v
Messages.v
Disk.v
Toy.v
StateDb.v
Config.v
F64.v
UsedSpace.v
ChunkStore.v
Network.v
Messaging.v
Capacity.v
Chunks.v
AdultLiveness.v
BlobRecords.v
ElderData.v
StoreFrame.v
RewardCalc.v
RewardStage.v
RewardProcess.v
Signing.v
SectionFunds.v
TransferStore.v
Replicas.v
Transfers.v
Payments.v
EventMapping.v
Ledger.v
PayoutProtocol.v
Payout.v
Metadata.v
ElderDb.v
DataFlow.v
BlobService.v
ChunkChurn.v
Node.v
NodeRun.v
Start.v
Launch.v
NodeSync.v
SyncRace.v
PaidWrite.v
