(* ===== verification/Prelude.v ===== *)
(** * Verification of sn_node (the Safe Network vault)

    ** The program

    [src/] is a node of the Safe Network.  A node is an adult, which stores
    blobs ("chunks") on its disk, or an elder, which with the other elders of
    its section decides where blobs go, stores the other data types (maps,
    sequences, registers), keeps a replica of the section's wallets, takes
    payments for writes, and pays rewards when the members of the section
    change.  The network layer ([sn_routing]) delivers events;
    [event_mapping] maps an event to a [NodeDuty]; [node/handle.rs] runs a duty
    on the state of the node's role and yields further duties, the last of
    which send messages.  The definitions below are translated from that code;
    everything that is code of another crate is a class (types, functions) with
    its documented behaviour as a separate class of laws ([Crates],
    [Messages], [Network.RoutingLaws], [TransferStore.PickleLaws],
    [Replicas.TransfersLaws]).  [Toy] and the [Witness] modules instantiate
    all of them by concrete functions, prove the laws, and run the model.

    ** Conventions

    Stateful fallible code is in the monad [M E S A := S -> result E A * S]:
    the state comes back on the error path too, because a mutation before an
    early return ([?]) stays.  Integers of width w are [Z] with their checked,
    saturating or wrapping operations written out; [f64] is the Standard
    Library's [SpecFloat].  A [BTreeMap], [BTreeSet] or [HashMap] is a [gmap]
    or [gset]; where an iteration order matters it is that of the code for the
    ordered collections (sorted by the key) and that of [map_to_list] for the
    unordered ones.  Random ids, network answers and the log level (where the
    code depends on it) are arguments.  The disk ([Disk]) has a schedule of
    faults, so "for every disk" means for every pattern of I/O errors.  Locks:
    each method holds its lock for its whole body, so a method is one step;
    theorems about runs quantify over all sequences of steps.  The node itself
    ([Node]) is a step relation over its state and the pool of its tasks: an
    event is mapped and handled, or one of the running tasks ends, in any
    order; the body of a task is one step, but for [SyncRace] and [ChunkChurn],
    where the parts of [synch_state] and [reorganize_chunks] between their locks
    are the steps.  Roles are in a heap because a task
    keeps the role it was spawned for after the node took another one.

    ** Files

    - [Prelude]: results and the state monad, with its Hoare triples and with
      relations kept by an operation; u64 arithmetic, sorting by a comparison,
      tactics and hints.
    - [Crates], [Messages]: third-party types, functions and laws; the
      node's errors and duties ([error.rs], [node_ops.rs]).
    - [Disk], [F64], [Toy]: the file system, floats, concrete crates.
    - [StateDb], [Config]: [state_db.rs], [config_handler.rs]: what a start
      finds on disk and in its arguments.
    - [UsedSpace], [ChunkStore], [StoreFrame]: [chunk_store/], the accounting
      of used space, the disk store of one kind of data, and the files such a
      store leaves alone.
    - [Network], [Messaging]: [network.rs] and [node/messaging.rs], what the
      node reads from the network layer and what it asks of it.
    - [Capacity]: [capacity/], [metadata/adult_reader.rs]: full adults, chunk
      holders, the cost of a write.
    - [Chunks]: [chunks/], [node/role/adult_role.rs]: an adult's blobs.
    - [AdultLiveness], [BlobRecords]: [metadata/adult_liveness.rs],
      [metadata/blob_records.rs]: an elder's side of blobs.
    - [ElderData], [Metadata], [ElderDb]: [metadata/{map,sequence,
      register}_storage.rs], [metadata/{mod,elder_stores}.rs], and the abstract
      database these implement together.
    - [RewardCalc], [RewardStage], [RewardProcess], [Signing], [SectionFunds]:
      [section_funds/], the payout of rewards; [PayoutProtocol], [Payout]: the
      protocol the elders of a section pay rewards by, and a section of elders
      that run the code.
    - [TransferStore], [Replicas], [Transfers]: [transfers/], wallets;
      [Payments]: sequences of payments and other commands on them; [Ledger]:
      transfers between the sections of a network.
    - [EventMapping]: [event_mapping/].
    - [Start]: [bin/sn_node.rs], from the configuration to a node that runs;
      [Launch]: [bin/launch_network.rs].
    - [DataFlow]: the duties of [node/handle.rs] on data; [BlobService]: an elder
      and adults that run them, with clients and the messages in between.
    - [ChunkChurn]: the adults of a section that move their chunks when others
      come and go, with the task of each cut at its locks.
    - [Node], [NodeRun], [NodeSync], [SyncRace], [PaidWrite]: [node/{mod,handle,
      split,member_churn,interaction}.rs], [node/role/]: the whole node, its
      runs, the exchange of state between elders, several exchanges at once
      (with [synch_state] cut at its locks), and a paid write across two nodes.

    ** Theorems

    - Storage.  The chunk store refines a map from addresses to chunks
      ([chunk_store_refines_kv]) with [keys] its domain ([keys_spec]); the used
      space never exceeds the capacity ([us_reachable_within_capacity]) and is
      exactly the bytes of the chunk files ([accounting_exact]); [increase] and
      interleaved updates ([increase_spec], [multiwriter_restores]).  Two
      theorems state where the code falls short:
      [put_that_does_not_fit_loses_chunk], [reopened_store_not_in_total].
    - Adults.  Writes on every branch ([chunks_write_spec]), replication
      ([replication_idempotent]) and the move of chunks on churn
      ([reorganize_chunks_spec]).  When up to three adults leave and any number
      join, every chunk gets to exactly its new holders and is never lost on the
      way ([chunks_survive_churn]); but the elders' and the adults' holders
      differ when adults are full ([substitute_holder_drops_chunk]).
    - Elders and blobs.  Holders are the closest adults with room
      ([chunk_holders_closest], [full_adults_writers]), stores go to all of them
      ([store_blob_spec]); the bookkeeping of reads is an invariant
      ([liveness_reachable_inv]), a read gets at most one success
      ([at_most_one_success_per_read]) and the first success is forwarded
      ([first_success_reaches_client]) unless the holder is the only one
      ([sole_holder_read_unanswered]).  [blob_read_end_to_end] follows a read
      through the messages between the nodes.  In a section with any number of
      clients and adults, whatever messages do and whoever joins or leaves, a
      read that is answered with a blob is answered with the blob of the address
      that was asked for, as an entitled client wrote it
      ([blob_reads_are_genuine]).
    - Elders' own data.  The stores of maps, sequences and registers together
      refine one database with the permission checks of the code, for any
      sequence of requests ([elder_stores_refine], from [map_write_refines],
      [seq_write_refines], [reg_write_refines], [map_read_answers],
      [seq_read_answers], [reg_read_answers] and the frame lemmas of [StoreFrame]); data sent to another elder is what
      that elder then holds ([elder_exchange_roundtrip]).
    - Wallets.  The store of a wallet is an append-only log
      ([store_refines_log]); a wallet's log holds only its own events
      ([wallet_logs_are_own]), a command appends the event it returns
      ([replica_command_appends]), a known credit is not added again
      ([known_credit_not_added]), a split keeps the wallets of the prefix
      ([keep_keys_of_spec]) and a new elder can rebuild them
      ([wallets_sync_roundtrip]).  A write is passed on only when paid
      ([process_payment_spec]), and a payment buys one write
      ([payment_buys_one_write]).  Between sections, every credit is of a debit
      and no debit is credited twice ([no_credit_without_debit]).
    - Prices and rewards.  [store_cost_from_spec], [max_section_nanos_exact],
      [store_cost_256_adults_network_full]; [reward_and_mint_bounds],
      [distribute_rewards_conserves]; a payout is made of credits that enough
      elders signed and moves through its stages in order
      ([payout_agreements_are_signed], [payout_moves_forward]);
      [section_funds_wallets].  If the elders of a section kept their processes
      from one message to the next, the payout would take the steps of a small
      protocol ([kept_payout_refines_protocol]) and complete at all of them with
      the same proofs; with the copies of [node/handle.rs] none does
      ([payout_needs_kept_process]), and in the node no payout gets past its first
      stage ([rewards_never_paid]).
    - Events and messages.  [event_mapping_returns]: which events are mapped in
      bounded time; [send_to_nodes_spec]: who gets a message to several nodes.
    - Start.  A node tries to join under one reward key
      ([start_under_one_reward_key]), and its keys survive a restart
      ([stored_keys_survive]); [truncated_reward_key_blocks_start],
      [config_new_addresses], [config_file_roundtrip],
      [clear_data_misses_relative_root].
    - The node.  The handling of a duty ends ([handling_ends]), errors of wrong
      roles are reported ([role_errors_reported]), and no reward is ever paid
      ([rewards_never_paid]).  A promoted node is ready for the state of its
      section ([promoted_elder_ready]) and gets it ([elder_sync_end_to_end]), also
      when several elders push it at once ([concurrent_syncs_agree]); a split
      divides it ([section_split_spec]), and a paid write gets from the client to
      the data ([paid_write_end_to_end]).

    ** Fuel

    [RewardCalc.digits] has fuel 20, the digits of a [u64].
    [RewardCalc.distribute]'s [while] has as fuel one more than the number of
    full rounds the amount lasts; [distribute_rewards_conserves] shows that it
    never runs out.  The two polling loops of [EventMapping] have their fuel as
    an argument; [event_mapping_returns] says how much is enough (242) and when
    none is.  [Node.handle_and_get_threads] is given depth 2;
    [handling_ends] shows that this is enough and that more gives the same.

    ** Not modelled

    [lib.rs] lists the modules and [chaos.rs] disturbs a node for tests; of
    [bin/sn_node.rs] the text for the user, shell completions and the calls of
    [self_update] are left out; logging ([init_logging], [Debug] of the duties) is
    left out but for one place where the log level changes what the code does
    ([Transfers.process_payment]).  Joining the network is a parameter of
    [Node.node_new].  Of [network.rs] the accessors that only pass on an answer of
    the routing layer are arguments where they are used.  The blob cache of
    [republish_and_cache] is not observable.  Tasks but those of [SyncRace] and
    [ChunkChurn] do not interleave within their bodies.  [Ledger] and
    [BlobService] have one elder stand for the elders of a section; how elders
    come to agree is treated for payouts ([Payout]) and for the state of a new
    elder ([NodeSync]). *)

From Stdlib Require Export ZArith Lia.
From Stdlib Require Export Init.Byte.
From stdpp Require Export sorting.
From stdpp Require Export base option list fin_maps gmap strings.

#[global] Open Scope Z_scope.

Declare Scope node_scope.
Delimit Scope node_scope with node.

(** * Results and the state monad *)

(** Rust's [Result<A, E>]. *)
Inductive result (E A : Type) : Type :=
| Ok (a : A)
| Err (e : E).

Arguments Ok {E A} a.
Arguments Err {E A} e.

(** [Result::map_err] and [Option::ok_or]. *)
Definition map_err {E F A} (f : E → F) (r : result E A) : result F A :=
  match r with Ok a => Ok a | Err e => Err (f e) end.

Definition ok_or {E A} (o : option A) (e : E) : result E A :=
  match o with Some a => Ok a | None => Err e end.

(** [Result::ok]. *)
Definition res_ok {E A} (r : result E A) : option A :=
  match r with Ok a => Some a | Err _ => None end.

Definition is_ok {E A} (r : result E A) : bool :=
  match r with Ok _ => true | Err _ => false end.

Definition res_bind {E A B} (r : result E A) (f : A → result E B) : result E B :=
  match r with Ok a => f a | Err e => Err e end.

(** A fallible operation on a mutable state.  An early return by [?] keeps
    the mutations already made, so the state is returned on the error path
    too. *)
Definition M (E S A : Type) : Type := S → result E A * S.

Definition ret {E S A} (a : A) : M E S A := λ s, (Ok a, s).
Definition throw {E S A} (e : E) : M E S A := λ s, (Err e, s).
Definition bind {E S A B} (m : M E S A) (f : A → M E S B) : M E S B :=
  λ s, match m s with
       | (Ok a, s') => f a s'
       | (Err e, s') => (Err e, s')
       end.
Definition get {E S} : M E S S := λ s, (Ok s, s).
Definition put_st {E S} (s : S) : M E S unit := λ _, (Ok tt, s).
Definition modify {E S} (f : S → S) : M E S unit := λ s, (Ok tt, f s).
(** Lift a pure fallible computation: Rust's [expr?]. *)
Definition lift {E S A} (r : result E A) : M E S A := λ s, (r, s).
(** Run [m] and hand its [Result] to the continuation: a call without [?]. *)
Definition try {E S A} (m : M E S A) : M E S (result E A) :=
  λ s, let '(r, s') := m s in (Ok r, s').

(** Run an operation of a component on the part [T] of a bigger state [S]. *)
Definition zoom {E S T A} (g : S → T) (p : T → S → S) (m : M E T A) : M E S A :=
  λ s, let '(r, t) := m (g s) in (r, p t s).

Notation "'let!' x := m 'in' k" := (bind m (λ x, k))
  (at level 10, x pattern, m at level 100, k at level 200,
   format "'[v' 'let!'  x  :=  m  'in' '/' k ']'") : node_scope.
Notation "m ';;;' k" := (bind m (λ _, k))
  (at level 100, right associativity) : node_scope.
#[global] Open Scope node_scope.

(** A [for] loop whose body may return early with an error. *)
Fixpoint for_each {E S A} (l : list A) (body : A → M E S unit) : M E S unit :=
  match l with
  | [] => ret tt
  | x :: l' => body x ;;; for_each l' body
  end.

(** A [for] loop that threads an accumulator. *)
Fixpoint fold_m {E S A B} (f : B → A → M E S B) (l : list A) (b : B) : M E S B :=
  match l with
  | [] => ret b
  | x :: l' => let! b' := f b x in fold_m f l' b'
  end.

(** * Machine integers *)

Definition u64_max : Z := 18446744073709551615.
Definition in_u64 (z : Z) : Prop := 0 ≤ z ≤ u64_max.

(** [u64::checked_add]; also the value of [a + b] when it does not panic. *)
Definition checked_add (a b : Z) : option Z :=
  if a + b <=? u64_max then Some (a + b) else None.
Definition checked_sub (a b : Z) : option Z :=
  if b <=? a then Some (a - b) else None.
Definition checked_mul (a b : Z) : option Z :=
  if a * b <=? u64_max then Some (a * b) else None.
(** [2_u64.pow(n)]. *)
Definition checked_pow2 (n : Z) : option Z :=
  if n <? 64 then Some (2 ^ n) else None.
Definition saturating_sub (a b : Z) : Z := Z.max 0 (a - b).
(** [n as u8]. *)
Definition as_u8 (n : Z) : Z := n mod 256.

Lemma checked_add_Some a b c :
  checked_add a b = Some c ↔ c = a + b ∧ a + b ≤ u64_max.
Proof. unfold checked_add. destruct (Z.leb_spec (a + b) u64_max); intuition (congruence || lia). Qed.

Lemma checked_sub_Some a b c :
  checked_sub a b = Some c ↔ c = a - b ∧ b ≤ a.
Proof. unfold checked_sub. destruct (Z.leb_spec b a); intuition (congruence || lia). Qed.

Lemma checked_mul_Some a b c :
  checked_mul a b = Some c ↔ c = a * b ∧ a * b ≤ u64_max.
Proof. unfold checked_mul. destruct (Z.leb_spec (a * b) u64_max); intuition (congruence || lia). Qed.

Lemma checked_pow2_Some n c :
  checked_pow2 n = Some c ↔ c = 2 ^ n ∧ n < 64.
Proof. unfold checked_pow2. destruct (Z.ltb_spec n 64); intuition (congruence || lia). Qed.

(** * Decisions on comparisons *)

Definition cmp_leb (c : comparison) : bool :=
  match c with Gt => false | _ => true end.

(** * Stable insertion sort by a comparison function: [sorted_by] *)

Section sort_by.
Context {A : Type} (cmp : A → A → comparison).

Fixpoint sort_insert (x : A) (l : list A) : list A :=
  match l with
  | [] => [x]
  | y :: l' => if cmp_leb (cmp x y) then x :: l else y :: sort_insert x l'
  end.

Definition sort_by (l : list A) : list A := foldr sort_insert [] l.

Lemma sort_insert_Permutation x l : sort_insert x l ≡ₚ x :: l.
Proof.
  induction l as [|y l IH]; simpl; [done|].
  destruct (cmp_leb (cmp x y)); [done|]. rewrite IH. apply perm_swap.
Qed.

Lemma sort_by_Permutation l : sort_by l ≡ₚ l.
Proof.
  induction l as [|x l IH]; simpl; [done|].
  by rewrite sort_insert_Permutation, IH.
Qed.

Lemma length_sort_by l : length (sort_by l) = length l.
Proof. by rewrite sort_by_Permutation. Qed.

Lemma elem_of_sort_by x l : x ∈ sort_by l ↔ x ∈ l.
Proof. by rewrite sort_by_Permutation. Qed.

Lemma NoDup_sort_by l : NoDup (sort_by l) ↔ NoDup l.
Proof. by rewrite sort_by_Permutation. Qed.

(** The laws of a total order given by [cmp]. *)
Class TotalCmp : Prop := {
  cmp_refl : ∀ x, cmp x x = Eq;
  cmp_total : ∀ x y, cmp_leb (cmp x y) = true ∨ cmp_leb (cmp y x) = true;
  cmp_trans : ∀ x y z, cmp_leb (cmp x y) = true → cmp_leb (cmp y z) = true →
                       cmp_leb (cmp x z) = true;
}.

Definition cle (x y : A) : Prop := cmp_leb (cmp x y) = true.

Context `{!TotalCmp}.

Lemma sort_insert_sorted x l :
  StronglySorted cle l → StronglySorted cle (sort_insert x l).
Proof.
  induction 1 as [|y l Hl IH Hy]; simpl; [by repeat constructor|].
  destruct (cmp_leb (cmp x y)) eqn:E.
  - constructor; [by constructor|].
    constructor; [done|]. eapply Forall_impl; [exact Hy|].
    intros z Hz. by eapply cmp_trans.
  - constructor; [done|]. rewrite Forall_forall. intros z Hz.
    rewrite sort_insert_Permutation in Hz.
    apply elem_of_cons in Hz as [->|Hz].
    + destruct (cmp_total y x) as [Hle|Hle]; [done|congruence].
    + by rewrite Forall_forall in Hy; apply Hy.
Qed.

Lemma sort_by_sorted l : StronglySorted cle (sort_by l).
Proof.
  induction l as [|x l IH]; simpl; [constructor|]. by apply sort_insert_sorted.
Qed.

Lemma sort_by_id l : StronglySorted cle l → sort_by l = l.
Proof.
  induction 1 as [|x l Hl IH Hx]; simpl; [done|]. rewrite IH.
  destruct l as [|y l]; simpl; [done|]. inversion Hx as [|? ? Hxy]; subst.
  unfold cle in Hxy. by rewrite Hxy.
Qed.
End sort_by.

Arguments TotalCmp {A} cmp.

Lemma StronglySorted_filter {A} (R : relation A) (P : A → Prop) `{!∀ x, Decision (P x)} l :
  StronglySorted R l → StronglySorted R (filter P l).
Proof.
  induction 1 as [|x l Hl IH Hx]; [constructor|]. rewrite filter_cons. case_decide; [|done]. constructor; [done|].
  rewrite Forall_forall in *. intros y [_ Hy]%list_elem_of_filter. by apply Hx.
Qed.

(** The first elements of a list are those of the part that has them all. *)
Lemma take_filter_all {A} (P : A → Prop) `{!∀ x, Decision (P x)} n (l : list A) :
  Forall P (take n l) → take n (filter P l) = take n l.
Proof.
  revert n. induction l as [|x l IH]; intros [|n] HP; cbn [take] in *; try done.
  apply Forall_cons in HP as [Hx HP]. rewrite filter_cons_True by done. cbn [take]. by rewrite IH.
Qed.

(** Compare by a key. *)
Definition cmp_on {A B} (f : A → B) (cmp : B → B → comparison) (x y : A) : comparison :=
  cmp (f x) (f y).

#[export] Instance cmp_on_total {A B} (f : A → B) cmp `{!TotalCmp cmp} :
  TotalCmp (cmp_on f cmp).
Proof.
  split; unfold cmp_on; intros.
  - by apply (cmp_refl cmp).
  - by apply (cmp_total cmp).
  - by eapply (cmp_trans cmp).
Qed.

#[export] Instance Z_compare_total : TotalCmp Z.compare.
Proof.
  split.
  - apply Z.compare_refl.
  - intros x y. destruct (Z.compare_spec x y), (Z.compare_spec y x); simpl; auto; lia.
  - intros x y z. destruct (Z.compare_spec x y), (Z.compare_spec y z), (Z.compare_spec x z);
      simpl; auto; lia.
Qed.

(** * Iteration over ordered maps *)

(** The entries of a [BTreeMap] in key order. *)
Definition btree_entries {K V} `{Countable K} (cmp : K → K → comparison)
    (m : gmap K V) : list (K * V) :=
  sort_by (cmp_on fst cmp) (map_to_list m).

Lemma btree_entries_Permutation {K V} `{Countable K} cmp (m : gmap K V) :
  btree_entries cmp m ≡ₚ map_to_list m.
Proof. apply sort_by_Permutation. Qed.

Lemma elem_of_btree_entries {K V} `{Countable K} cmp (m : gmap K V) k v :
  (k, v) ∈ btree_entries cmp m ↔ m !! k = Some v.
Proof. by rewrite btree_entries_Permutation, elem_of_map_to_list. Qed.

Lemma NoDup_btree_keys {K V} `{Countable K} cmp (m : gmap K V) :
  NoDup (btree_entries cmp m).*1.
Proof. rewrite btree_entries_Permutation. apply NoDup_fst_map_to_list. Qed.

(** * Sums *)

Definition sum_Z (l : list Z) : Z := foldr Z.add 0 l.

Lemma sum_Z_app l k : sum_Z (l ++ k) = sum_Z l + sum_Z k.
Proof. induction l as [|x l IH]; simpl; lia. Qed.

Lemma sum_Z_nonneg l : Forall (λ z, 0 ≤ z) l → 0 ≤ sum_Z l.
Proof. induction 1; simpl; lia. Qed.

#[export] Instance sum_Z_Proper : Proper ((≡ₚ) ==> (=)) sum_Z.
Proof. induction 1; simpl; lia. Qed.

Lemma sum_Z_replicate n z : sum_Z (replicate n z) = Z.of_nat n * z.
Proof. induction n as [|n IH]; simpl replicate; simpl sum_Z; lia. Qed.

(** Sum of a weight over the entries of a map. *)
Definition map_sum {K V} `{Countable K} (f : K → V → Z) (m : gmap K V) : Z :=
  map_fold (λ k v acc, f k v + acc) 0 m.

Section map_sum.
Context {K V : Type} `{Countable K}.
Implicit Types (f : K → V → Z) (m : gmap K V).

Lemma map_sum_empty f : map_sum f (∅ : gmap K V) = 0.
Proof. apply map_fold_empty. Qed.

Lemma map_sum_insert f m k v :
  m !! k = None → map_sum f (<[k:=v]> m) = f k v + map_sum f m.
Proof.
  intros Hk. unfold map_sum. rewrite map_fold_insert_L; [done| |done].
  intros. lia.
Qed.

Lemma map_sum_delete f m k v :
  m !! k = Some v → map_sum f m = f k v + map_sum f (delete k m).
Proof.
  intros Hk. rewrite <- (insert_delete_id m k v Hk) at 1.
  by rewrite map_sum_insert by apply lookup_delete_eq.
Qed.

Lemma map_sum_update f m k v w :
  m !! k = Some v → map_sum f (<[k:=w]> m) = map_sum f m - f k v + f k w.
Proof.
  intros Hk. rewrite (map_sum_delete f m k v Hk).
  rewrite <- insert_delete_eq, map_sum_insert by apply lookup_delete_eq. lia.
Qed.

Lemma map_sum_set f m k v :
  map_sum f (<[k:=v]> m) =
  map_sum f m - match m !! k with Some w => f k w | None => 0 end + f k v.
Proof.
  destruct (m !! k) as [w|] eqn:Hk.
  - by apply map_sum_update.
  - rewrite map_sum_insert by done. lia.
Qed.

Lemma map_sum_delete_weight f m k :
  map_sum f (delete k m) =
  map_sum f m - match m !! k with Some v => f k v | None => 0 end.
Proof.
  destruct (m !! k) as [v|] eqn:Hk.
  - rewrite (map_sum_delete f m k v Hk). lia.
  - rewrite delete_id by done. lia.
Qed.

Lemma map_sum_nonneg f m :
  (∀ k v, m !! k = Some v → 0 ≤ f k v) → 0 ≤ map_sum f m.
Proof.
  induction m as [|k v m Hk IH] using map_ind; intros Hm.
  - rewrite map_sum_empty. lia.
  - rewrite map_sum_insert by done.
    assert (0 ≤ f k v) by (apply Hm; apply lookup_insert_eq).
    assert (0 ≤ map_sum f m); [|lia]. apply IH. intros k' v' Hk'.
    apply Hm. rewrite lookup_insert_ne; [done|]. intros ->. congruence.
Qed.

Lemma map_sum_ext f g m :
  (∀ k v, m !! k = Some v → f k v = g k v) → map_sum f m = map_sum g m.
Proof.
  induction m as [|k v m Hk IH] using map_ind; intros Hm.
  - by rewrite !map_sum_empty.
  - rewrite !map_sum_insert by done. f_equal.
    + apply Hm. apply lookup_insert_eq.
    + apply IH. intros k' v' Hk'. apply Hm.
      rewrite lookup_insert_ne; [done|]. intros ->. congruence.
Qed.

Lemma map_sum_zero f m : (∀ k v, m !! k = Some v → f k v = 0) → map_sum f m = 0.
Proof.
  intros Hm. rewrite (map_sum_ext f (λ _ _, 0)) by done. clear Hm.
  induction m as [|k v m Hk IH] using map_ind.
  - apply map_sum_empty.
  - by rewrite map_sum_insert, IH by done.
Qed.

(** Only the keys that count matter. *)
Lemma map_sum_filter f m (P : K * V → Prop) `{!∀ x, Decision (P x)} :
  (∀ k v, ¬ P (k, v) → f k v = 0) → map_sum f m = map_sum f (filter P m).
Proof.
  intros Hf. induction m as [|k v m Hk IH] using map_ind; [by rewrite map_filter_empty|].
  rewrite map_sum_insert by done. destruct (decide (P (k, v))) as [HP|HP].
  - rewrite map_filter_insert_True by done. rewrite map_sum_insert; [by rewrite IH|].
    apply map_lookup_filter_None. by left.
  - rewrite map_filter_insert_False by done. rewrite Hf by done. by rewrite delete_id.
Qed.

Lemma map_sum_lookup_le f m k v :
  (∀ k v, m !! k = Some v → 0 ≤ f k v) → m !! k = Some v → f k v ≤ map_sum f m.
Proof.
  intros Hm Hk. rewrite (map_sum_delete f m k v Hk).
  assert (0 ≤ map_sum f (delete k m)); [|lia]. apply map_sum_nonneg.
  intros k' v' Hk'. apply Hm. apply lookup_delete_Some in Hk'. tauto.
Qed.

Lemma map_sum_list f m : map_sum f m = sum_Z ((λ kv, f kv.1 kv.2) <$> map_to_list m).
Proof.
  unfold map_sum. rewrite map_fold_foldr. generalize (map_to_list m) as l.
  induction l as [|[k v] l IH]; simpl; [done|]. by rewrite IH.
Qed.
End map_sum.

(** Entries that count have their counterparts, each its own. *)
Lemma map_sum_embed {K V L W} `{Countable K, Countable L} (f : K → V → Z) (g : L → W → Z) (R : K → L → Prop)
    (m : gmap K V) (n : gmap L W) :
  (∀ k k' l, R k l → R k' l → k = k') → (∀ l w, 0 ≤ g l w) →
  (∀ k v, m !! k = Some v → f k v = 0 ∨ ∃ l w, R k l ∧ n !! l = Some w ∧ f k v ≤ g l w) →
  map_sum f m ≤ map_sum g n.
Proof.
  intros HR Hg. revert n. induction m as [|k v m Hk IH] using map_ind; intros n Hm.
  - rewrite map_sum_empty. by apply map_sum_nonneg.
  - rewrite map_sum_insert by done.
    assert (∀ k' v', m !! k' = Some v' → k' ≠ k ∧ (<[k:=v]> m) !! k' = Some v') as Hm'.
    { intros k' v' Hk'. assert (k' ≠ k) by congruence. by rewrite lookup_insert_ne. }
    destruct (Hm k v (lookup_insert_eq _ _ _)) as [->|(l & w & Hl & Hn & Hle)].
    + apply (IH n). intros k' v' [_ Hk']%Hm'. by apply Hm.
    + rewrite (map_sum_delete g n l w Hn). apply Z.add_le_mono; [done|]. apply IH. intros k' v' [Hne Hk']%Hm'.
      destruct (Hm k' v' Hk') as [?|(l' & w' & Hl' & Hn' & Hle')]; [by left|right].
      exists l', w'. split; [done|]. split; [|done]. rewrite lookup_delete_ne; [done|]. intros ->. by apply Hne, (HR k' k l').
Qed.

Lemma NoDup_omap_inj {A B} (f : A → option B) (l : list A) :
  (∀ x y z, x ∈ l → y ∈ l → f x = Some z → f y = Some z → x = y) →
  NoDup l → NoDup (omap f l).
Proof.
  intros Hf Hl. induction Hl as [|x l Hx Hl IH]; [constructor|]. csimpl.
  assert (NoDup (omap f l)) by (apply IH; intros; eapply Hf; eauto; by right).
  destruct (f x) as [z|] eqn:Hz; [|done]. constructor; [|done].
  rewrite list_elem_of_omap. intros (y & Hy & Hyz). apply Hx.
  by rewrite (Hf x y z) by (done || by left || by right).
Qed.

(** * Tactics *)

(** Case analysis on the scrutinee of a match or of an [if]. *)
Ltac case_head :=
  match goal with
  | |- context [match ?x with _ => _ end] =>
      lazymatch x with context [match _ with _ => _ end] => fail | _ => destruct x eqn:? end
  end.

Ltac case_hyp H :=
  match type of H with
  | context [match ?x with _ => _ end] =>
      lazymatch x with context [match _ with _ => _ end] => fail | _ => destruct x eqn:? end
  end.

(** Unfold the monad. *)
Ltac unfold_m :=
  unfold bind, ret, throw, get, put_st, modify, lift, try, zoom in *; simpl in *.

Create HintDb node discriminated.
#[export] Hint Resolve cmp_on_total Z_compare_total : node.
Create Rewrite HintDb node_arith.
#[export] Hint Rewrite checked_add_Some checked_sub_Some checked_mul_Some checked_pow2_Some
  : node_arith.

(** A monadic computation that fails leaves the state in [Q]. *)
Lemma bind_Ok {E S A B} (m : M E S A) (f : A → M E S B) s b s' :
  bind m f s = (Ok b, s') →
  ∃ a s1, m s = (Ok a, s1) ∧ f a s1 = (Ok b, s').
Proof.
  unfold bind. destruct (m s) as [[a|e] s1]; intros Hf; [eauto|]. done.
Qed.

Lemma bind_assoc {E S A B C} (m : M E S A) (f : A → M E S B) (g : B → M E S C) s :
  bind m (λ x, bind (f x) g) s = bind (bind m f) g s.
Proof. unfold bind. by destruct (m s) as [[a|e] s1]. Qed.

(** Loops over lists that are built from others. *)
Lemma for_each_ext_in {E S A} (l : list A) (f g : A → M E S unit) s :
  (∀ a s, a ∈ l → f a s = g a s) → for_each l f s = for_each l g s.
Proof.
  revert s. induction l as [|a l IH]; intros s Hfg; [done|]. cbn [for_each]. unfold bind. rewrite Hfg by (by left).
  destruct (g a s) as [[[]|] s']; [|done]. apply IH. intros b s1 Hb. apply Hfg. by right.
Qed.

Lemma for_each_ext {E S A} (l : list A) (f g : A → M E S unit) s :
  (∀ a s, f a s = g a s) → for_each l f s = for_each l g s.
Proof. intros Hfg. by apply for_each_ext_in. Qed.

Lemma for_each_app {E S A} (l1 l2 : list A) (f : A → M E S unit) s :
  for_each (l1 ++ l2) f s = bind (for_each l1 f) (λ _, for_each l2 f) s.
Proof.
  revert s. induction l1 as [|a l1 IH]; intros s; [done|]. cbn [for_each app]. unfold bind in *.
  destruct (f a s) as [[[]|] s1]; [apply IH|done].
Qed.

Lemma for_each_fmap {E S A B} (g : A → B) (l : list A) (f : B → M E S unit) s :
  for_each (g <$> l) f s = for_each l (λ a, f (g a)) s.
Proof.
  revert s. induction l as [|a l IH]; intros s; [done|]. cbn [for_each fmap list_fmap]. unfold bind.
  destruct (f (g a) s) as [[[]|] s1]; [apply IH|done].
Qed.

Lemma for_each_inv {E S A} (I : S → Prop) (l : list A) (body : A → M E S unit) s r s' :
  (∀ x s r s', x ∈ l → I s → body x s = (r, s') → I s') →
  I s → for_each l body s = (r, s') → I s'.
Proof.
  revert s. induction l as [|x l IH]; intros s Hbody HI; simpl.
  - by intros [= _ <-].
  - unfold bind. destruct (body x s) as [[[]|e] s1] eqn:Hx; intros Hl.
    + eapply IH; [|by eapply Hbody, Hx; [apply elem_of_cons; left|]|exact Hl].
      intros y t r' t' Hy. apply Hbody. apply elem_of_cons. by right.
    + simplify_eq. eapply Hbody; [apply elem_of_cons; by left|exact HI|exact Hx].
Qed.

(** * Triples

    From a state in [P], [m] returns [a] in a state in [Q a], or stops with an
    error in a state in [X]. *)
Definition hoare {E S A} (P : S → Prop) (m : M E S A) (Q : A → S → Prop) (X : S → Prop) : Prop :=
  ∀ s, P s → match m s with (Ok a, s') => Q a s' | (Err _, s') => X s' end.

Section hoare.
Context {E S : Type}.
Implicit Types (P X : S → Prop).

Lemma hoare_ret {A} P (a : A) (Q : A → S → Prop) X : (∀ s, P s → Q a s) → hoare P (ret (E := E) a) Q X.
Proof. intros H s Hs. by apply H. Qed.

Lemma hoare_throw {A} P (e : E) (Q : A → S → Prop) X : (∀ s, P s → X s) → hoare P (throw e) Q X.
Proof. intros H s Hs. by apply H. Qed.

Lemma hoare_lift {A} P (r : result E A) (Q : A → S → Prop) X :
  (∀ a s, r = Ok a → P s → Q a s) → (∀ s, P s → X s) → hoare P (lift r) Q X.
Proof. intros Hok Herr s Hs. unfold lift. destruct r; eauto. Qed.

Lemma hoare_bind {A B} P (m : M E S A) (f : A → M E S B) Q (R : B → S → Prop) X :
  hoare P m Q X → (∀ a, hoare (Q a) (f a) R X) → hoare P (bind m f) R X.
Proof.
  intros Hm Hf s Hs. specialize (Hm s Hs). unfold bind. destruct (m s) as [[a|e] s1]; [|done].
  by apply Hf.
Qed.

(** Reading the state fixes it. *)
Lemma hoare_bind_get {B} P (f : S → M E S B) R X :
  (∀ s0, P s0 → hoare (λ s, s = s0) (f s0) R X) → hoare P (bind get f) R X.
Proof. intros Hf s Hs. by apply (Hf s Hs s). Qed.

Lemma hoare_bind_lift {A B} P (r : result E A) (f : A → M E S B) R X :
  (∀ a, r = Ok a → hoare P (f a) R X) → (∀ s, P s → X s) → hoare P (bind (lift r) f) R X.
Proof. intros Hf HX s Hs. unfold bind, lift. destruct r as [a|e]; [by apply Hf|by apply HX]. Qed.

Lemma hoare_weaken {A} P P' (m : M E S A) Q (Q' : A → S → Prop) X :
  hoare P' m Q' X → (∀ s, P s → P' s) → (∀ a s, Q' a s → Q a s) → hoare P m Q X.
Proof. intros Hm HP HQ s Hs. specialize (Hm s (HP s Hs)). destruct (m s) as [[a|e] s1]; auto. Qed.

Lemma hoare_for_each {A} P (l : list A) (body : A → M E S unit) X :
  (∀ x, x ∈ l → hoare P (body x) (λ _, P) X) → hoare P (for_each l body) (λ _, P) X.
Proof.
  induction l as [|x l IH]; intros Hbody; simpl; [by apply hoare_ret|].
  eapply hoare_bind; [apply Hbody; by left|]. intros []. apply IH. intros y Hy. apply Hbody. by right.
Qed.

(** Use a triple on a run. *)
Lemma hoare_run {A} P (m : M E S A) Q X s r s' :
  hoare P m Q X → P s → m s = (r, s') → match r with Ok a => Q a s' | Err _ => X s' end.
Proof. intros Hm Hs Hrun. specialize (Hm s Hs). rewrite Hrun in Hm. by destruct r. Qed.
End hoare.

(** * Operations that keep a relation between the state before and after *)

Section keeps.
Context {E S : Type} (R : S → S → Prop) `{HR : !PreOrder R}.

Definition keeps {A} (m : M E S A) : Prop := ∀ s, R s (m s).2.

Lemma keeps_same {A} (m : M E S A) : (∀ s, (m s).2 = s) → keeps m.
Proof. intros Hm s. by rewrite Hm. Qed.

Lemma keeps_ret {A} (a : A) : keeps (ret a).
Proof. by apply keeps_same. Qed.
Lemma keeps_throw {A} (err : E) : keeps (A := A) (throw err).
Proof. by apply keeps_same. Qed.
Lemma keeps_lift {A} (r : result E A) : keeps (lift r).
Proof. by apply keeps_same. Qed.
Lemma keeps_get : keeps get.
Proof. by apply keeps_same. Qed.

Lemma keeps_bind {A B} (m : M E S A) (f : A → M E S B) : keeps m → (∀ a, keeps (f a)) → keeps (bind m f).
Proof.
  intros Hm Hf s. unfold bind. specialize (Hm s). destruct (m s) as [[a|e] s1]; [|done].
  etrans; [exact Hm|apply Hf].
Qed.

Lemma keeps_try {A} (m : M E S A) : keeps m → keeps (try m).
Proof. intros Hm s. specialize (Hm s). unfold try. by destruct (m s). Qed.

Lemma keeps_fold_m {A B} (f : B → A → M E S B) l b : (∀ b x, keeps (f b x)) → keeps (fold_m f l b).
Proof. intros Hf. revert b. induction l as [|x l IH]; intros b; simpl; [apply keeps_ret|]. by apply keeps_bind. Qed.

Lemma keeps_for_each {A} (l : list A) (body : A → M E S unit) : (∀ x, keeps (body x)) → keeps (for_each l body).
Proof. intros Hb. induction l as [|x l IH]; simpl; [apply keeps_ret|]. by apply keeps_bind. Qed.
End keeps.

Create HintDb node_keeps.
#[export] Hint Resolve keeps_ret keeps_throw keeps_lift keeps_get keeps_try : node_keeps.


(** One step of a proof that an operation keeps a relation. *)
Ltac keep_step := first
  [ progress intros
  | solve [eauto 4 with node_keeps]
  | apply keeps_bind; [exact _| |]
  | apply keeps_for_each; [exact _|]
  | apply keeps_fold_m; [exact _|]
  | apply keeps_try
  | match goal with |- keeps _ (if ?b then _ else _) => destruct b end
  | match goal with |- keeps _ (match ?x with _ => _ end) => destruct x end ].
