(* ===== verification/Crates.v ===== *)
(** The third-party crates the node is written against, as parameters.

    None of this code is part of the repository: [xor_name], [bls]
    (threshold_crypto), [sn_data_types], [sn_messaging], [sn_transfers],
    [bincode], [hex] and [pickledb] are classes whose fields are the types and
    functions the node uses.  What the development relies on about them is
    collected in the [...Laws] classes, so every theorem that needs a law says
    so.  Structs whose fields the node reads or builds by name are records,
    over the opaque types of the classes. *)

From S2P Require Import Prelude.

(** * xor_name: names, distances and section prefixes *)

Class XorNameCrate := {
  XorName : Type;
  XorName_eq_dec :: EqDecision XorName;
  XorName_countable :: Countable XorName;
  (** [Ord for XorName] *)
  name_cmp : XorName → XorName → comparison;
  (** [target.cmp_distance(lhs, rhs)] *)
  cmp_distance : XorName → XorName → XorName → comparison;
  Prefix : Type;
  Prefix_eq_dec :: EqDecision Prefix;
  prefix_matches : Prefix → XorName → bool;
  prefix_bit_count : Prefix → nat;
  prefix_name : Prefix → XorName;
  prefix_sibling : Prefix → Prefix;
  prefix_is_empty : Prefix → bool;
}.

(** Names are totally ordered, and so is the distance to a fixed target; two
    names at equal distance of a target are equal (xor is injective). *)
Class XorNameLaws `{XorNameCrate} : Prop := {
  name_cmp_total :: TotalCmp name_cmp;
  name_cmp_eq : ∀ a b, name_cmp a b = Eq → a = b;
  cmp_distance_total t :: TotalCmp (cmp_distance t);
  cmp_distance_eq : ∀ t a b, cmp_distance t a b = Eq → a = b;
  cmp_distance_flip : ∀ t a b, cmp_distance t b a = CompOpp (cmp_distance t a b);
}.

(** The elements of a [BTreeSet] of names, in order. *)
Definition names_of `{XorNameCrate} (s : gset XorName) : list XorName :=
  sort_by name_cmp (elements s).

Lemma elem_of_names_of `{XorNameCrate} n (s : gset XorName) : n ∈ names_of s ↔ n ∈ s.
Proof. unfold names_of. by rewrite elem_of_sort_by, elem_of_elements. Qed.

Lemma NoDup_names_of `{XorNameCrate} (s : gset XorName) : NoDup (names_of s).
Proof. unfold names_of. apply NoDup_sort_by, NoDup_elements. Qed.

(** * bincode and hex *)

Class EncodingCrate := {
  BincodeError : Type;
  (** [bincode::serialize::<u64>] and [bincode::deserialize::<u64>] *)
  u64_ser : Z → list byte;
  u64_de : list byte → result BincodeError Z;
  hex_encode : list byte → string;
  hex_decode : string → option (list byte);
}.

Class EncodingLaws `{EncodingCrate} : Prop := {
  u64_ser_de : ∀ z, in_u64 z → u64_de (u64_ser z) = Ok z;
  u64_ser_nonempty : ∀ z, u64_ser z ≠ [];
  u64_de_range : ∀ b z, u64_de b = Ok z → in_u64 z;
  hex_roundtrip : ∀ b, hex_decode (hex_encode b) = Some b;
  (** "used_space" has characters that are not hexadecimal digits. *)
  hex_decode_used_space : hex_decode "used_space" = None;
  hex_decode_empty : hex_decode "" = Some [];
}.

(** [Serialize + DeserializeOwned] through bincode. *)
Class Serde `{EC : EncodingCrate} (T : Type) := {
  ser : T → result BincodeError (list byte);
  de : list byte → result BincodeError T;
}.
Class SerdeLaws `{EC : EncodingCrate} (T : Type) `{!Serde T} : Prop :=
  ser_de : ∀ (x : T) b, ser x = Ok b → de b = Ok x.

(** * bls and sn_data_types *)

Class DataTypesCrate `{XorNameCrate} := {
  (** keys and signatures *)
  PublicKey : Type;
  PublicKey_eq_dec :: EqDecision PublicKey;
  PublicKey_countable :: Countable PublicKey;
  pk_cmp : PublicKey → PublicKey → comparison;
  name_of_pk : PublicKey → XorName;
  BlsPublicKey : Type;
  BlsPublicKey_eq_dec :: EqDecision BlsPublicKey;
  BlsPublicKeyShare : Type;
  (** [PublicKey::Bls(..)], [PublicKey::from(share)], [.bls()], [.bls_share()] *)
  pk_of_bls : BlsPublicKey → PublicKey;
  pk_of_bls_share : BlsPublicKeyShare → PublicKey;
  pk_bls : PublicKey → option BlsPublicKey;
  pk_bls_share : PublicKey → option BlsPublicKeyShare;
  PublicKeySet : Type;
  pks_public_key : PublicKeySet → BlsPublicKey;
  pks_threshold : PublicKeySet → nat;
  pks_public_key_share : PublicKeySet → nat → BlsPublicKeyShare;
  BlsSignatureShare : Type;
  BlsSignatureShare_eq_dec :: EqDecision BlsSignatureShare;
  BlsSignature : Type;
  Ed25519Signature : Type;
  (** [PublicKeySet::combine_signatures], [None] on its error *)
  combine_signatures : PublicKeySet → gmap nat BlsSignatureShare → option BlsSignature;

  (** blobs *)
  BlobAddress : Type;
  BlobAddress_eq_dec :: EqDecision BlobAddress;
  blob_address_name : BlobAddress → XorName;
  PublicBlob : Type;
  PrivateBlob : Type;
  pub_blob_address : PublicBlob → BlobAddress;
  priv_blob_address : PrivateBlob → BlobAddress;
  priv_blob_owner : PrivateBlob → PublicKey;

  (** maps *)
  MapAddress : Type;
  MapAddress_eq_dec :: EqDecision MapAddress;
  MapAddress_countable :: Countable MapAddress;
  map_address_cmp : MapAddress → MapAddress → comparison;
  map_address_name : MapAddress → XorName;
  SeqMap : Type;
  UnseqMap : Type;
  seq_map_address : SeqMap → MapAddress;
  unseq_map_address : UnseqMap → MapAddress;
  MapPermissionSet : Type;
  MapEntryActions : Type;
  MapValue : Type;
  MapValues : Type;
  MapEntries : Type;
  MapKeys : Type;
  MapPermissions : Type;
  (** [map.get(key).cloned().map(MapValue::from)], [map.values().into()] and
      [map.entries().clone().into()] of either kind of map *)
  seq_map_get : SeqMap → list byte → option MapValue;
  unseq_map_get : UnseqMap → list byte → option MapValue;
  seq_map_values : SeqMap → MapValues;
  unseq_map_values : UnseqMap → MapValues;
  seq_map_entries : SeqMap → MapEntries;
  unseq_map_entries : UnseqMap → MapEntries;

  (** sequences *)
  SequenceAddress : Type;
  SequenceAddress_eq_dec :: EqDecision SequenceAddress;
  SequenceAddress_countable :: Countable SequenceAddress;
  sequence_address_cmp : SequenceAddress → SequenceAddress → comparison;
  sequence_address_name : SequenceAddress → XorName;
  sequence_address_is_public : SequenceAddress → bool;
  Sequence : Type;
  sequence_address : Sequence → SequenceAddress;
  SequenceOp : Type;
  sequence_op_address : SequenceOp → SequenceAddress;
  SequenceIndex : Type;
  SequenceUser : Type;
  SequenceEntries : Type;
  SequencePermissions : Type;
  SequencePublicPolicy : Type;
  SequencePrivatePolicy : Type;
  private_policy_owner : SequencePrivatePolicy → PublicKey;

  (** registers *)
  RegisterAddress : Type;
  RegisterAddress_eq_dec :: EqDecision RegisterAddress;
  register_address_is_public : RegisterAddress → bool;
  register_address_name : RegisterAddress → XorName;
  Register : Type;
  register_address : Register → RegisterAddress;
  register_owner : Register → PublicKey;
  RegisterOp : Type;
  register_op_address : RegisterOp → RegisterAddress;
  RegisterUser : Type;
  RegisterEntries : Type;
  RegisterPermissions : Type;
  RegisterPolicy : Type;

  (** transfers *)
  CreditId : Type;
  CreditId_eq_dec :: EqDecision CreditId;
  CreditId_countable :: Countable CreditId;
  credit_id_cmp : CreditId → CreditId → comparison;
  DebitId : Type;
  DebitId_eq_dec :: EqDecision DebitId;
  debit_id_counter : DebitId → Z;
  Debit : Type;
  debit_id : Debit → DebitId;
  debit_sender : Debit → PublicKey;
  debit_amount : Debit → Z;
  Transfer : Type;
  transfer_to : Transfer → PublicKey;
  transfer_debit : Transfer → Debit;
  DtErrorOther : Type;
}.

Section data_types.
Context `{XN : XorNameCrate} `{DT : !DataTypesCrate}.

(** [Token]: an amount in nanos, a [u64]. *)
Definition Token : Type := Z.

Inductive DtError : Type :=
| DtInvalidOperation
| DtNoSuchEntry
| DtAccessDenied (pk : PublicKey)
| DtCrdtUnexpectedState
| DtOther (e : DtErrorOther).

Inductive DataAddress : Type :=
| BlobAddr (a : BlobAddress)
| MapAddr (a : MapAddress)
| SequenceAddr (a : SequenceAddress)
| RegisterAddr (a : RegisterAddress).

Inductive Blob : Type :=
| Public (b : PublicBlob)
| Private (b : PrivateBlob).

Inductive Map : Type :=
| Seq (m : SeqMap)
| Unseq (m : UnseqMap).

Inductive MapAction : Type := MapRead_ | MapInsert | MapUpdate | MapDelete | ManagePermissions.
Inductive SequenceAction : Type := SequenceRead_ | SequenceAppend | SequenceAdmin.
Inductive RegisterAction : Type := RegisterRead_ | RegisterWrite_.

Record SignatureShare : Type := mkSignatureShare {
  share : BlsSignatureShare;
  index : nat;
}.

Inductive Signature : Type :=
| Ed25519Sig (s : Ed25519Signature)
| BlsSig (s : BlsSignature)
| BlsShareSig (s : SignatureShare).

(** Who owns a wallet: a single key or a key set. *)
Inductive OwnerType : Type :=
| Single (pk : PublicKey)
| Multi (set : PublicKeySet).

Record Credit : Type := mkCredit {
  credit_id : CreditId;
  credit_amount : Token;
  credit_recipient : PublicKey;
  credit_msg : string;
}.

Record SignedCredit : Type := mkSignedCredit {
  sc_credit : Credit;
  sc_actor_signature : Signature;
}.
(** [SignedCredit::id] *)
Definition sc_id (c : SignedCredit) : CreditId := credit_id (sc_credit c).

Record SignedDebit : Type := mkSignedDebit {
  sd_debit : Debit;
  sd_actor_signature : Signature;
}.

Record SignedCreditShare : Type := mkSignedCreditShare {
  scs_credit : Credit;
  scs_actor_signature : SignatureShare;
}.
Definition scs_id (c : SignedCreditShare) : CreditId := credit_id (scs_credit c).

Record CreditAgreementProof : Type := mkCreditAgreementProof {
  cap_signed_credit : SignedCredit;
  cap_debiting_replicas_sig : Signature;
  cap_debiting_replicas_keys : PublicKeySet;
}.
(** [CreditAgreementProof::{id, amount, recipient}] *)
Definition cap_id (p : CreditAgreementProof) : CreditId := sc_id (cap_signed_credit p).
Definition cap_amount (p : CreditAgreementProof) : Token :=
  credit_amount (sc_credit (cap_signed_credit p)).
Definition cap_recipient (p : CreditAgreementProof) : PublicKey :=
  credit_recipient (sc_credit (cap_signed_credit p)).

Record TransferAgreementProof : Type := mkTransferAgreementProof {
  tap_signed_credit : SignedCredit;
  tap_signed_debit : SignedDebit;
  tap_debit_sig : Signature;
  tap_credit_sig : Signature;
  tap_debiting_replicas_keys : PublicKeySet;
}.
(** [TransferAgreementProof::{id, sender, recipient, amount, replica_keys,
    credit_proof}] *)
Definition tap_id (p : TransferAgreementProof) : DebitId := debit_id (sd_debit (tap_signed_debit p)).
Definition tap_sender (p : TransferAgreementProof) : PublicKey :=
  debit_sender (sd_debit (tap_signed_debit p)).
Definition tap_recipient (p : TransferAgreementProof) : PublicKey :=
  credit_recipient (sc_credit (tap_signed_credit p)).
Definition tap_amount (p : TransferAgreementProof) : Token :=
  debit_amount (sd_debit (tap_signed_debit p)).
Definition tap_credit_proof (p : TransferAgreementProof) : CreditAgreementProof :=
  mkCreditAgreementProof (tap_signed_credit p) (tap_credit_sig p) (tap_debiting_replicas_keys p).

Record SignedTransfer : Type := mkSignedTransfer {
  st_debit : SignedDebit;
  st_credit : SignedCredit;
}.
Definition st_sender (t : SignedTransfer) : PublicKey := debit_sender (sd_debit (st_debit t)).

Record TransferValidated : Type := mkTransferValidated {
  tv_signed_credit : SignedCredit;
  tv_signed_debit : SignedDebit;
  tv_replica_debit_sig : SignatureShare;
  tv_replica_credit_sig : SignatureShare;
  tv_replicas : PublicKeySet;
}.
Record TransferRegistered : Type := mkTransferRegistered { tr_transfer_proof : TransferAgreementProof }.
Record TransferPropagated : Type := mkTransferPropagated { tp_credit_proof : CreditAgreementProof }.

Inductive ReplicaEvent : Type :=
| EvTransferValidated (e : TransferValidated)
| EvTransferRegistered (e : TransferRegistered)
| EvTransferPropagated (e : TransferPropagated).

Record ActorHistory : Type := mkActorHistory {
  ah_credits : list CreditAgreementProof;
  ah_debits : list TransferAgreementProof;
}.
Definition ActorHistory_empty : ActorHistory := mkActorHistory [] [].

Record RewardProposal : Type := mkRewardProposal {
  rp_section_key : PublicKey;
  rp_rewards : list SignedCreditShare;
}.
Record AccumulatingReward : Type := mkAccumulatingReward {
  ar_signed_credit : SignedCredit;
  ar_sig : SignatureShare;
}.
Definition ar_id (r : AccumulatingReward) : CreditId := sc_id (ar_signed_credit r).
Record RewardAccumulation : Type := mkRewardAccumulation {
  ra_section_key : PublicKey;
  ra_rewards : list AccumulatingReward;
}.
Record SectionElders : Type := mkSectionElders {
  se_prefix : Prefix;
  se_names : gset XorName;
  se_key_set : PublicKeySet;
}.
End data_types.

(** * Operations of sn_data_types on the structures above *)

Class DataOpsCrate `{DT : DataTypesCrate} := {
  Blob_eq_dec :: EqDecision Blob;
  Blob_countable :: Countable Blob;
  blob_cmp : Blob → Blob → comparison;
  (** [Blob::{address, name, owner, is_private}] *)
  blob_address : Blob → BlobAddress;
  blob_name : Blob → XorName;
  blob_owner : Blob → option PublicKey;
  blob_is_private : Blob → bool;

  map_address : Map → MapAddress;
  map_check_permissions : Map → MapAction → PublicKey → result DtError unit;
  map_check_is_owner : Map → PublicKey → result DtError unit;
  map_set_user_permissions : Map → PublicKey → MapPermissionSet → Z → result DtError Map;
  map_del_user_permissions : Map → PublicKey → Z → result DtError Map;
  map_mutate_entries : Map → MapEntryActions → PublicKey → result DtError Map;
  map_shell : Map → Map;
  map_version : Map → Z;
  map_keys : Map → MapKeys;
  map_permissions : Map → MapPermissions;
  map_user_permissions : Map → PublicKey → result DtError MapPermissionSet;

  sequence_check_permission : Sequence → SequenceAction → option PublicKey → result DtError unit;
  sequence_is_public : Sequence → bool;
  sequence_in_range :
    Sequence → SequenceIndex → SequenceIndex → option PublicKey →
    result DtError (option SequenceEntries);
  sequence_last_entry : Sequence → option PublicKey → result DtError (option (list byte));
  sequence_len : Sequence → option PublicKey → result DtError Z;
  sequence_permissions :
    Sequence → SequenceUser → option PublicKey → result DtError SequencePermissions;
  sequence_public_policy : Sequence → result DtError SequencePublicPolicy;
  sequence_private_policy : Sequence → option PublicKey → result DtError SequencePrivatePolicy;
  sequence_apply_op : Sequence → SequenceOp → result DtError Sequence;

  register_check_permission : Register → RegisterAction → option PublicKey → result DtError unit;
  register_read : Register → option PublicKey → result DtError RegisterEntries;
  register_permissions :
    Register → RegisterUser → option PublicKey → result DtError RegisterPermissions;
  register_policy : Register → option PublicKey → result DtError RegisterPolicy;
  register_apply_op : Register → RegisterOp → result DtError Register;

  (** [Transfer::credit] *)
  transfer_credit : Transfer → result DtError Credit;
}.

(** The methods of the [Blob] and [Map] enums dispatch to the variant. *)
Class DataOpsLaws `{DO : DataOpsCrate} : Prop := {
  blob_address_public : ∀ b, blob_address (Public b) = pub_blob_address b;
  blob_address_private : ∀ b, blob_address (Private b) = priv_blob_address b;
  blob_owner_private : ∀ b, blob_owner (Private b) = Some (priv_blob_owner b);
  blob_is_private_public : ∀ b, blob_is_private (Public b) = false;
  blob_is_private_private : ∀ b, blob_is_private (Private b) = true;
  blob_name_address : ∀ b, blob_name b = blob_address_name (blob_address b);
  map_address_seq : ∀ m, map_address (Seq m) = seq_map_address m;
  map_address_unseq : ∀ m, map_address (Unseq m) = unseq_map_address m;
  (** an edited structure keeps its address *)
  map_set_user_permissions_address : ∀ m u p v m',
    map_set_user_permissions m u p v = Ok m' → map_address m' = map_address m;
  map_del_user_permissions_address : ∀ m u v m',
    map_del_user_permissions m u v = Ok m' → map_address m' = map_address m;
  map_mutate_entries_address : ∀ m a u m',
    map_mutate_entries m a u = Ok m' → map_address m' = map_address m;
  sequence_apply_op_address : ∀ s o s',
    sequence_apply_op s o = Ok s' → sequence_address s' = sequence_address s;
  register_apply_op_address : ∀ r o r',
    register_apply_op r o = Ok r' → register_address r' = register_address r;
}.
