(* ===== verification/Messages.v ===== *)
(** The messages a node exchanges (the variants of [sn_messaging] that the
    node builds or matches), the node's own errors ([src/error.rs]) and its
    internal messages, the duties ([src/node_ops.rs]), with the conversion of
    node errors to messages.  A variant of a third-party enum that no code of
    the node names is covered by the [...Other] constructor of its type. *)

From S2P Require Import Prelude Crates.

(** * sn_messaging: opaque types *)

Class MessagingCrate `{DT : DataTypesCrate} := {
  MessageId : Type;
  MessageId_eq_dec :: EqDecision MessageId;
  MessageId_countable :: Countable MessageId;
  in_response_to : MessageId → MessageId;
  (** [MessageId::combine(&[a.0, b.0])] *)
  message_id_combine : XorName → XorName → MessageId;
  (** [*MessageId::combine(..).as_ref()] used as a [CreditId] *)
  credit_id_of_message_id : MessageId → CreditId;
  EndUser : Type;
  EndUser_eq_dec :: EqDecision EndUser;
  ClientSigned : Type;
  client_signed_public_key : ClientSigned → PublicKey;
  ProcessingError : Type;
  SupportingInfo : Type;
  (** variants no code of the node names *)
  ErrorMessageOther : Type;
  CmdOther : Type;
  TransferCmdOther : Type;
  TransferQueryOther : Type;
  ProcessMsgOther : Type;
  NodeCmdOther : Type;
  NodeSystemCmdOther : Type;
  NodeQueryOther : Type;
  NodeQueryResponseOther : Type;
  NodeMsgOther : Type;
  QueryResponseOther : Type;
  (** error types of other crates *)
  JsonError : Type;
  MessagingError : Type;
  PickleDbError : Type;
  RoutingError : Type;
  TransferErrOther : Type;
}.

Section messages.
Context `{XN : XorNameCrate} `{DT : !DataTypesCrate} `{MC : !MessagingCrate}.

(** ** Locations *)

Inductive Aggregation : Type := AggNone | AtDestination.

Inductive SrcLocation : Type :=
| SrcEndUser (u : EndUser)
| SrcNode (n : XorName)
| SrcSection (n : XorName).

Inductive DstLocation : Type :=
| DstEndUser (u : EndUser)
| DstNode (n : XorName)
| DstSection (n : XorName)
| DstDirect.

(** ** Client messages *)

Inductive ErrorMessage : Type :=
| EmInvalidOperation (msg : string)
| EmInvalidOwners (pk : PublicKey)
| EmInvalidSignature
| EmTransactionIdExists
| EmDataNotFound (a : DataAddress)
| EmNotEnoughSpace
| EmFailedToWriteFile
| EmDataExists
| EmNoSuchEntry
| EmAccessDenied (pk : PublicKey)
| EmNoSuchRecipient
| EmInsufficientPayment
| EmPaymentFailed
| EmNoHistoryForPublicKey (pk : PublicKey)
| EmNoSuchKey
| EmFailedToDelete
| EmSerialization (msg : string)
| EmOther (e : ErrorMessageOther).

Inductive BlobRead : Type := BlobGet (a : BlobAddress).
Inductive BlobWrite : Type :=
| BlobNew (b : Blob)
| BlobDeletePrivate (a : BlobAddress).

Inductive MapRead : Type :=
| MapGet (a : MapAddress)
| MapGetValue (a : MapAddress) (key : list byte)
| MapGetShell (a : MapAddress)
| MapGetVersion (a : MapAddress)
| MapListEntries (a : MapAddress)
| MapListKeys (a : MapAddress)
| MapListValues (a : MapAddress)
| MapListPermissions (a : MapAddress)
| MapListUserPermissions (a : MapAddress) (user : PublicKey).
Inductive MapWrite : Type :=
| MapNew (m : Map)
| MapDeleteCmd (a : MapAddress)
| MapSetUserPermissions (a : MapAddress) (user : PublicKey) (p : MapPermissionSet) (version : Z)
| MapDelUserPermissions (a : MapAddress) (user : PublicKey) (version : Z)
| MapEdit (a : MapAddress) (changes : MapEntryActions).

Inductive SequenceRead : Type :=
| SequenceGet (a : SequenceAddress)
| SequenceGetRange (a : SequenceAddress) (range : SequenceIndex * SequenceIndex)
| SequenceGetLastEntry (a : SequenceAddress)
| SequenceGetUserPermissions (a : SequenceAddress) (user : SequenceUser)
| SequenceGetPublicPolicy (a : SequenceAddress)
| SequenceGetPrivatePolicy (a : SequenceAddress).
Inductive SequenceWrite : Type :=
| SequenceNew (s : Sequence)
| SequenceEdit (op : SequenceOp)
| SequenceDelete (a : SequenceAddress).

Inductive RegisterRead : Type :=
| RegisterGet (a : RegisterAddress)
| RegisterReadEntries (a : RegisterAddress)
| RegisterGetOwner (a : RegisterAddress)
| RegisterGetUserPermissions (a : RegisterAddress) (user : RegisterUser)
| RegisterGetPolicy (a : RegisterAddress).
Inductive RegisterWrite : Type :=
| RegisterNew (r : Register)
| RegisterEdit (op : RegisterOp)
| RegisterDelete (a : RegisterAddress).

Inductive DataCmd : Type :=
| DataCmdBlob (w : BlobWrite)
| DataCmdMap (w : MapWrite)
| DataCmdSequence (w : SequenceWrite)
| DataCmdRegister (w : RegisterWrite).
Inductive DataQuery : Type :=
| DataQueryBlob (r : BlobRead)
| DataQueryMap (r : MapRead)
| DataQuerySequence (r : SequenceRead)
| DataQueryRegister (r : RegisterRead).

Definition EmResult (A : Type) : Type := result ErrorMessage A.

Inductive QueryResponse : Type :=
| GetBlob (r : EmResult Blob)
| GetMap (r : EmResult Map)
| GetMapShell (r : EmResult Map)
| GetMapVersion (r : EmResult Z)
| GetMapValue (r : EmResult MapValue)
| ListMapKeys (r : EmResult MapKeys)
| ListMapValues (r : EmResult MapValues)
| ListMapEntries (r : EmResult MapEntries)
| ListMapPermissions (r : EmResult MapPermissions)
| ListMapUserPermissions (r : EmResult MapPermissionSet)
| GetSequence (r : EmResult Sequence)
| GetSequenceRange (r : EmResult SequenceEntries)
| GetSequenceLastEntry (r : EmResult (Z * list byte))
| GetSequenceUserPermissions (r : EmResult SequencePermissions)
| GetSequencePublicPolicy (r : EmResult SequencePublicPolicy)
| GetSequencePrivatePolicy (r : EmResult SequencePrivatePolicy)
| GetRegister (r : EmResult Register)
| ReadRegister (r : EmResult RegisterEntries)
| GetRegisterOwner (r : EmResult PublicKey)
| GetRegisterUserPermissions (r : EmResult RegisterPermissions)
| GetRegisterPolicy (r : EmResult RegisterPolicy)
| GetStoreCostResp (r : EmResult (Z * Token * PublicKey))
| GetBalanceResp (r : EmResult Token)
| GetHistoryResp (r : EmResult ActorHistory)
| QrOther (r : QueryResponseOther).

Inductive ClientTransferError : Type :=
| TransferRegistrationErr (e : ErrorMessage)
| TransferValidationErr (e : ErrorMessage).
Inductive CmdError : Type :=
| CmdErrorData (e : ErrorMessage)
| CmdErrorTransfer (e : ClientTransferError).
Inductive Event : Type := EventTransferValidated (event : TransferValidated).

Inductive TransferCmd : Type :=
| ValidateTransferCmd (t : SignedTransfer)
| SimulatePayoutCmd (t : Transfer)
| RegisterTransferCmd (p : TransferAgreementProof)
| TransferCmdOther_ (c : TransferCmdOther).
Inductive Cmd : Type :=
| CmdData (payment : TransferAgreementProof) (cmd : DataCmd)
| CmdTransfer (c : TransferCmd)
| CmdOther_ (c : CmdOther).
Inductive TransferQuery : Type :=
| GetHistoryQuery (at_ : PublicKey) (since_version : nat)
| GetBalanceQuery (at_ : PublicKey)
| GetStoreCostQuery (bytes : Z)
| TransferQueryOther_ (q : TransferQueryOther).
Inductive Query : Type :=
| QueryData (q : DataQuery)
| QueryTransfer (q : TransferQuery).

Inductive ProcessMsg : Type :=
| PmCmd (id : MessageId) (cmd : Cmd) (client_signed : ClientSigned)
| PmQuery (id : MessageId) (query : Query) (client_signed : ClientSigned)
| PmQueryResponse (id : MessageId) (response : QueryResponse) (correlation_id : MessageId)
| PmCmdError (id : MessageId) (error : CmdError) (correlation_id : MessageId)
| PmEvent (id : MessageId) (event : Event) (correlation_id : MessageId)
| PmOther (id : MessageId) (m : ProcessMsgOther).
(** [ProcessMsg::id] *)
Definition process_msg_id (m : ProcessMsg) : MessageId :=
  match m with
  | PmCmd id _ _ | PmQuery id _ _ | PmQueryResponse id _ _ | PmCmdError id _ _
  | PmEvent id _ _ | PmOther id _ => id
  end.

Inductive ClientMsg : Type :=
| CmProcess (m : ProcessMsg)
| CmProcessingError (e : ProcessingError)
| CmSupportingInfo (i : SupportingInfo).

Record BlobDataExchange : Type := mkBlobDataExchange { full_adults_x : gset XorName }.
Record DataExchange : Type := mkDataExchange {
  blob_data : BlobDataExchange;
  map_data : gmap MapAddress Map;
  seq_data : gmap SequenceAddress Sequence;
}.

(** ** Node messages *)

Inductive NodeTransferCmd : Type := PropagateTransferCmd (p : CreditAgreementProof).
Inductive NodeSystemCmd : Type :=
| RegisterWallet (wallet : PublicKey)
| ReceiveExistingData (node_rewards : gmap XorName (Z * PublicKey))
    (user_wallets : gmap PublicKey ActorHistory) (metadata : DataExchange)
| ProposeRewardPayout (p : RewardProposal)
| AccumulateRewardPayout (a : RewardAccumulation)
| ReplicateChunkCmd (data : Blob)
| RepublishChunkCmd (data : Blob)
| StorageFull (section : XorName) (node_id : PublicKey)
| NodeSystemCmdOther_ (c : NodeSystemCmdOther).
Inductive NodeCmd : Type :=
| NcMetadata (cmd : DataCmd) (client_signed : ClientSigned) (origin : EndUser)
| NcChunks (cmd : BlobWrite) (client_signed : ClientSigned) (origin : EndUser)
| NcTransfers (cmd : NodeTransferCmd)
| NcSystem (cmd : NodeSystemCmd)
| NodeCmdOther_ (c : NodeCmdOther).
Inductive NodeQuery : Type :=
| NqMetadata (query : DataQuery) (client_signed : ClientSigned) (origin : EndUser)
| NqChunks (query : BlobRead) (origin : EndUser)
| NqGetNodeWalletKey (node_name : XorName)
| NqGetReplicaEvents
| NqGetSectionElders
| NodeQueryOther_ (q : NodeQueryOther).
Inductive NodeQueryResponse : Type :=
| NqrGetChunk (r : EmResult Blob)
| NqrGetReplicaEvents (r : EmResult (list ReplicaEvent))
| NqrGetSectionElders (e : SectionElders)
| NodeQueryResponseOther_ (r : NodeQueryResponseOther).
(** [NodeCmdError::Transfers(NodeTransferError::TransferPropagation(..))] *)
Inductive NodeCmdError : Type := TransferPropagationErr (e : ErrorMessage).
Inductive NodeMsg : Type :=
| NmNodeCmd (cmd : NodeCmd) (id : MessageId)
| NmNodeQuery (query : NodeQuery) (id : MessageId)
| NmNodeQueryResponse (response : NodeQueryResponse) (id correlation_id : MessageId)
| NmNodeCmdError (error : NodeCmdError) (id correlation_id : MessageId)
| NmNodeMsgError (error : ErrorMessage) (id correlation_id : MessageId)
| NmOther (id : MessageId) (m : NodeMsgOther).
(** [NodeMsg::id] *)
Definition node_msg_id (m : NodeMsg) : MessageId :=
  match m with
  | NmNodeCmd _ id | NmNodeQuery _ id | NmNodeQueryResponse _ id _
  | NmNodeCmdError _ id _ | NmNodeMsgError _ id _ | NmOther id _ => id
  end.

(** ** Outgoing messages: src/node_ops.rs *)

Inductive MsgType : Type :=
| MtNode (m : NodeMsg)
| MtClient (m : ClientMsg).

Record OutgoingMsg : Type := mkOutgoingMsg {
  msg : MsgType;
  dst : DstLocation;
  section_source : bool;
  aggregation : Aggregation;
}.
Record OutgoingLazyError : Type := mkOutgoingLazyError {
  ole_msg : ProcessingError;
  ole_dst : DstLocation;
}.
Record OutgoingSupportingInfo : Type := mkOutgoingSupportingInfo {
  osi_msg : SupportingInfo;
  osi_dst : DstLocation;
}.

(** ** Node duties: src/node_ops.rs *)

Inductive NodeDuty : Type :=
| GetNodeWalletKey (node_name : XorName) (msg_id : MessageId) (origin : SrcLocation)
| PropagateTransfer (proof : CreditAgreementProof) (msg_id : MessageId) (origin : SrcLocation)
| SetNodeWallet (wallet_id : PublicKey) (node_id : XorName)
| GetTransferReplicaEvents (msg_id : MessageId) (origin : SrcLocation)
| ValidateClientTransfer (signed_transfer : SignedTransfer) (msg_id : MessageId) (origin : SrcLocation)
| RegisterTransfer (proof : TransferAgreementProof) (msg_id : MessageId) (origin : SrcLocation)
| SimulatePayout (transfer : Transfer) (msg_id : MessageId) (origin : SrcLocation)
| ReadChunk (read : BlobRead) (msg_id : MessageId)
| WriteChunk (write : BlobWrite) (msg_id : MessageId) (client_signed : ClientSigned)
| ProcessRepublish (chunk : Blob) (msg_id : MessageId)
| RecordAdultReadLiveness (response : QueryResponse) (correlation_id : MessageId) (src : XorName)
| GetSectionElders (msg_id : MessageId) (origin : SrcLocation)
| GetTransfersHistory (at_ : PublicKey) (since_version : nat) (msg_id : MessageId) (origin : SrcLocation)
| GetBalance (at_ : PublicKey) (msg_id : MessageId) (origin : SrcLocation)
| GetStoreCost (bytes : Z) (msg_id : MessageId) (origin : SrcLocation)
| ReceiveRewardProposal (p : RewardProposal)
| ReceiveRewardAccumulation (a : RewardAccumulation)
| Genesis
| EldersChanged (our_prefix : Prefix) (our_key : PublicKey) (new_elders : gset XorName) (newbie : bool)
| AdultsChanged (remaining added removed : gset XorName)
| SectionSplit (our_prefix : Prefix) (our_key : PublicKey) (our_new_elders their_new_elders : gset XorName)
    (sibling_key : PublicKey) (newbie : bool)
| LevelDown
| SynchState (node_rewards : gmap XorName (Z * PublicKey)) (user_wallets : gmap PublicKey ActorHistory)
    (metadata : DataExchange)
| ProcessLostMember (name : XorName) (age : Z)
| ReachingMaxCapacity
| IncrementFullNodeCount (node_id : PublicKey)
| SetNodeJoinsAllowed (b : bool)
| Send (m : OutgoingMsg)
| SendError (m : OutgoingLazyError)
| SendSupport (m : OutgoingSupportingInfo)
| SendToNodes (m : NodeMsg) (targets : gset XorName) (aggregation : Aggregation)
| ProcessRead (query : DataQuery) (msg_id : MessageId) (client_signed : ClientSigned) (origin : EndUser)
| ProcessWrite (cmd : DataCmd) (msg_id : MessageId) (client_signed : ClientSigned) (origin : EndUser)
| ProcessDataPayment (m : ProcessMsg) (origin : EndUser)
| ReplicateChunk (data : Blob) (msg_id : MessageId)
| ProposeOffline (names : list XorName)
| NoOp.

Definition NodeDuties : Type := list NodeDuty.

(** [impl From<NodeDuty> for NodeDuties] *)
Definition duties_from (duty : NodeDuty) : NodeDuties :=
  match duty with NoOp => [] | _ => [duty] end.

(** ** Node errors: src/error.rs *)

(** [std::io::Error], by kind. *)
Inductive IoError : Type := IoNotFound | IoOther.

(** [sn_transfers::Error] *)
Inductive TransferErr : Type :=
| TeNoSuchSender
| TeSectionKeyNeverExisted
| TeInvalidOwner
| TeOther (e : TransferErrOther).

Inductive Error `{!EncodingCrate} : Type :=
| NotAnAdult
| NotAnElder
| NoAdults (p : Prefix)
| NotEnoughSpace
| NetworkFull
| NoSourceMessageForProcessingError
| UnexpectedProcessMsg
| NoSectionFunds
| NoSectionMetaData
| NoImmutableChunks
| NodeChurningFunds
| ChurnSignError
| NotInGenesis
| NoDestinationName
| NodeAlreadyActive
| NoSectionPublicKey
| UnknownSectionKey (pk : PublicKey)
| CannotDirectMessage
| CannotUpdateProcessErrorNode
| ProvidedPkIsNotBlsShare
| ProvidedPkIsNotBls
| NoSectionPublicKeySet
| NoSectionPublicKeyKnown (n : XorName)
| InvalidRewardStage
| NodeNotFoundForReward
| NoSuchChunk (a : DataAddress)
| NotChurningFunds
| TempDirCreationFailed (s : string)
| NoStoreId
| CouldNotCombineSignatures
| DataExists
| Io (e : IoError)
| JsonSerialisation (e : JsonError)
| Bincode (e : BincodeError)
| ClientMsgErr (e : ErrorMessage)
| ProcessingErrorErr (e : ProcessingError)
| Message (e : MessagingError)
| PickleDb (e : PickleDbError)
| NetworkData (e : DtError)
| TransferE (e : TransferErr)
| RoutingE (e : RoutingError)
| TransferAlreadyRegistered
| InvalidSignedTransfer (id : DebitId)
| InvalidPropagatedTransfer (p : CreditAgreementProof)
| InvalidMessage (id : MessageId) (s : string)
| InvalidOwner (pk : PublicKey)
| InvalidOperation (s : string)
| NoErrorMapping (s : string)
| Logic (s : string)
| JoinTimeout
| Configuration (s : string)
| UnableToSend (m : MsgType).
End messages.

(** * Operations of sn_messaging and of formatting on these types *)

Class MessagingOps `{MC : MessagingCrate} `{EC : !EncodingCrate} := {
  (** [SrcLocation::to_dst], [SrcLocation::name], [DstLocation::name] *)
  src_to_dst : SrcLocation → DstLocation;
  src_name : SrcLocation → XorName;
  dst_name : DstLocation → option XorName;
  (** [QueryResponse::is_success] *)
  query_response_is_success : QueryResponse → bool;
  (** [DataCmd::dst_address], [DataQuery::dst_address] *)
  data_cmd_dst_address : DataCmd → XorName;
  data_query_dst_address : DataQuery → XorName;
  (** [MessageId::from_content], [None] on its error *)
  message_id_from_republish : XorName * option PublicKey * gset XorName → result MessagingError MessageId;
  message_id_from_signature : Signature → result MessagingError MessageId;
  (** [ProcessingError::new] and [ProcessMsg::create_processing_error] *)
  processing_error_new : option ErrorMessage → option ProcessMsg → MessageId → ProcessingError;
  create_processing_error : ProcessMsg → option ErrorMessage → ProcessingError;
  (** [format!("{:?}", x)] and [x.to_string()] *)
  debug_error : Error → string;
  display_error : Error → string;
  debug_dt_error : DtError → string;
  debug_message_id : MessageId → string;
  debug_node_msg : NodeMsg → string;
  debug_process_msg : ProcessMsg → string;
  debug_query_response : QueryResponse → string;
  debug_messaging_error : MessagingError → string;
  display_pk : PublicKey → string;
}.

Class MessagingLaws `{MO : MessagingOps} : Prop := {
  is_success_get_blob : ∀ r, query_response_is_success (GetBlob r) = is_ok r;
  src_name_node : ∀ n, src_name (SrcNode n) = n;
}.

Section errors.
Context `{MO : MessagingOps}.

(** [error::convert_dt_error_to_error_message] *)
Definition convert_dt_error_to_error_message (error : DtError) : ErrorMessage :=
  match error with
  | DtInvalidOperation => EmInvalidOperation "DtError::InvalidOperation"
  | DtNoSuchEntry => EmNoSuchEntry
  | DtAccessDenied pk => EmAccessDenied pk
  | other => EmInvalidOperation ("DtError: " +:+ debug_dt_error other)
  end.

(** [error::convert_to_error_message] *)
Definition convert_to_error_message (error : Error) : ErrorMessage :=
  match error with
  | InvalidOperation msg => EmInvalidOperation msg
  | InvalidMessage _ msg => EmInvalidOperation msg
  | InvalidOwner key => EmInvalidOwners key
  | InvalidSignedTransfer _ => EmInvalidSignature
  | TransferAlreadyRegistered => EmTransactionIdExists
  | NoSuchChunk address => EmDataNotFound address
  | NotEnoughSpace => EmNotEnoughSpace
  | TempDirCreationFailed _ => EmFailedToWriteFile
  | DataExists => EmDataExists
  | NetworkData error => convert_dt_error_to_error_message error
  | other => EmInvalidOperation ("Failed to perform operation: " +:+ debug_error other)
  end.
End errors.

Abbreviation Result A := (result Error A).
