(* ===== verification/Disk.v ===== *)
(** The part of the file system the node uses ([std::fs], [tokio::fs]): flat
    files by path, the existing directories, and a schedule of I/O faults.

    Every system call takes the next entry of [faults]: [Some k] makes it fail
    (a write or a read has then moved [k] bytes), [None] or the end of the
    schedule lets it run.  Theorems quantified over the schedule cover every
    pattern of I/O errors; [faults fs = []] is a disk that never fails. *)

From S2P Require Import Prelude Crates Messages.

Definition path : Type := list string.
(** [dir.join(name)] *)
Definition join (dir : path) (name : string) : path := dir ++ [name].

(** [path.parent()] *)
Definition parent (p : path) : path := take (length p - 1) p.

Record Fs : Type := mkFs {
  files : gmap path (list byte);
  dirs : gset path;
  faults : list (option nat);
}.

Definition set_files (f : gmap path (list byte)) (fs : Fs) : Fs :=
  mkFs f (dirs fs) (faults fs).
Definition set_dirs (d : gset path) (fs : Fs) : Fs := mkFs (files fs) d (faults fs).

(** Take the outcome of the next system call from the schedule. *)
Definition next_fault (fs : Fs) : option nat * Fs :=
  match faults fs with
  | [] => (None, fs)
  | f :: l => (f, mkFs (files fs) (dirs fs) l)
  end.

(** A call that either fails by the schedule or runs [k]. *)
Definition syscall {A} (k : M IoError Fs A) : M IoError Fs A :=
  λ fs, match next_fault fs with
        | (Some _, fs') => (Err IoOther, fs')
        | (None, fs') => k fs'
        end.

(** Overwrite [old] from offset [pos] with [data]. *)
Definition write_at (old : list byte) (pos : nat) (data : list byte) : list byte :=
  take pos (old ++ replicate (pos - length old) x00) ++ data ++ drop (pos + length data) old.

(** A directory and its ancestors. *)
Definition dir_prefixes (p : path) : gset path :=
  list_to_set ((λ n, take n p) <$> seq 0 (S (length p))).

(** [std::fs::create_dir_all] *)
Definition fs_create_dir_all (p : path) : M IoError Fs unit :=
  syscall (modify (λ fs, set_dirs (dir_prefixes p ∪ dirs fs) fs)).

(** [File::create]: truncates; the parent directory must exist. *)
Definition fs_create (p : path) : M IoError Fs unit :=
  syscall (λ fs, if decide (parent p ∈ dirs fs)
                 then (Ok tt, set_files (<[p := []]> (files fs)) fs)
                 else (Err IoNotFound, fs)).

(** [OpenOptions::new().read(true).write(true).create(true).open(..)] *)
Definition fs_open_rw (p : path) : M IoError Fs unit :=
  syscall (λ fs, if decide (parent p ∈ dirs fs) then
                   (Ok tt, match files fs !! p with
                           | Some _ => fs
                           | None => set_files (<[p := []]> (files fs)) fs
                           end)
                 else (Err IoNotFound, fs)).

(** [File::open]: an existing file, for reading. *)
Definition fs_open (p : path) : M IoError Fs unit :=
  syscall (λ fs, (match files fs !! p with Some _ => Ok tt | None => Err IoNotFound end, fs)).

(** [write_all] on an open file at offset [pos]. *)
Definition fs_write_all (p : path) (pos : nat) (data : list byte) : M IoError Fs unit :=
  λ fs, let upd d fs := set_files (alter (λ old, write_at old pos d) p (files fs)) fs in
        match next_fault fs with
        | (Some k, fs') => (Err IoOther, upd (take k data) fs')
        | (None, fs') => (Ok tt, upd data fs')
        end.

(** [File::set_len(0)] *)
Definition fs_truncate (p : path) : M IoError Fs unit :=
  syscall (modify (λ fs, set_files (alter (λ _, []) p (files fs)) fs)).

(** [seek(SeekFrom::Start(0))] and [sync_all] change no content. *)
Definition fs_seek_start (p : path) : M IoError Fs unit := syscall (ret tt).
Definition fs_sync_all (p : path) : M IoError Fs unit := syscall (ret tt).

(** [read_to_end] from the start: whether it succeeded, and the buffer. *)
Definition fs_read_to_end (p : path) (fs : Fs) : (bool * list byte) * Fs :=
  let content := default [] (files fs !! p) in
  match next_fault fs with
  | (Some k, fs') => ((false, take k content), fs')
  | (None, fs') => ((true, content), fs')
  end.

(** [fs::remove_file] *)
Definition fs_remove_file (p : path) : M IoError Fs unit :=
  syscall (λ fs, match files fs !! p with
                 | Some _ => (Ok tt, set_files (delete p (files fs)) fs)
                 | None => (Err IoNotFound, fs)
                 end).

(** [fs::metadata]: the length of a regular file. *)
Definition fs_metadata (p : path) : M IoError Fs Z :=
  syscall (λ fs, (match files fs !! p with
                  | Some c => Ok (Z.of_nat (length c))
                  | None => Err IoNotFound
                  end, fs)).

(** [fs::read] of a path: an error when it is not a regular file. *)
Definition fs_read (p : path) : M IoError Fs (list byte) :=
  syscall (λ fs, (match files fs !! p with Some c => Ok c | None => Err IoNotFound end, fs)).

(** The name of a path directly below [dir]. *)
Definition child_name (dir p : path) : option string :=
  match last p with
  | Some n => if decide (p = join dir n) then Some n else None
  | None => None
  end.

(** [fs::read_dir]: the names in a directory, in an unspecified order. *)
Definition fs_read_dir (dir : path) : M IoError Fs (list string) :=
  syscall (λ fs, if decide (dir ∈ dirs fs)
                 then (Ok (omap (child_name dir) (map_to_list (files fs)).*1), fs)
                 else (Err IoNotFound, fs)).

(** The entries of the iterator may fail one by one: [entry.ok()?]. *)
Fixpoint fs_entries (names : list string) (fs : Fs) : list string * Fs :=
  match names with
  | [] => ([], fs)
  | n :: l =>
      let '(f, fs1) := next_fault fs in
      let '(r, fs2) := fs_entries l fs1 in
      (match f with None => n :: r | Some _ => r end, fs2)
  end.

(** [?] on an I/O call in the node: [Error::Io]. *)
Definition io `{MO : MessagingOps} {A} (m : M IoError Fs A) : M Error Fs A :=
  λ fs, let '(r, fs') := m fs in (map_err Io r, fs').

(** * Facts *)

Lemma join_inj dir dir' n n' : join dir n = join dir' n' → dir = dir' ∧ n = n'.
Proof. unfold join. intros [? [=]]%app_inj_tail. auto. Qed.

Lemma parent_join dir n : parent (join dir n) = dir.
Proof.
  unfold parent, join. rewrite length_app. simpl.
  replace (length dir + 1 - 1)%nat with (length dir) by lia. by rewrite take_app_length.
Qed.

Lemma child_name_Some dir p n : child_name dir p = Some n ↔ p = join dir n.
Proof.
  unfold child_name. split.
  - destruct (last p); [|done]. case_decide; congruence.
  - intros ->. unfold join. rewrite last_snoc. by rewrite decide_True.
Qed.

Lemma elem_of_dir_prefixes p : p ∈ dir_prefixes p.
Proof.
  apply elem_of_list_to_set, list_elem_of_fmap. exists (length p).
  split; [by rewrite take_ge|]. apply list_elem_of_In, in_seq. lia.
Qed.

Lemma next_fault_files fs : files (next_fault fs).2 = files fs.
Proof. unfold next_fault. by destruct (faults fs). Qed.

Lemma next_fault_dirs fs : dirs (next_fault fs).2 = dirs fs.
Proof. unfold next_fault. by destruct (faults fs). Qed.

Lemma next_fault_none fs : faults fs = [] → next_fault fs = (None, fs).
Proof. unfold next_fault. by intros ->. Qed.

Lemma write_at_whole old data : write_at old 0 data = data ++ drop (length data) old.
Proof. unfold write_at. by rewrite take_0. Qed.

(** Without faults a system call is its body. *)
Lemma syscall_none {A} (k : M IoError Fs A) fs : faults fs = [] → syscall k fs = k fs.
Proof. intros H. unfold syscall. by rewrite next_fault_none. Qed.

Lemma fs_entries_none names fs : faults fs = [] → fs_entries names fs = (names, fs).
Proof.
  intros H. induction names as [|n l IH]; simpl; [done|].
  by rewrite next_fault_none, IH by done.
Qed.

(** A file system call that may fail by the schedule but changes no file. *)
Lemma syscall_frame {A} (k : M IoError Fs A) fs r fs' :
  (∀ fs r fs', k fs = (r, fs') → files fs' = files fs) →
  syscall k fs = (r, fs') → files fs' = files fs.
Proof.
  intros Hk. unfold syscall. pose proof (next_fault_files fs) as Hf.
  destruct (next_fault fs) as [[n|] fs1]; simpl in Hf.
  - by intros [= _ <-].
  - intros ?%Hk. congruence.
Qed.

Create Rewrite HintDb node_disk.
#[export] Hint Rewrite next_fault_files next_fault_dirs : node_disk.
