(* ===== verification/Toy.v ===== *)
(** A concrete, executable instance of every third-party crate, with proofs of
    the laws.  It is used only by witnesses: it shows that the laws the
    theorems assume can hold together, and it makes the model run on concrete
    inputs.  Names are numbers with the xor metric, [hex] and the bincode
    encoding of a [u64] are the real encodings, keys are numbers. *)

From S2P Require Import Prelude Crates Messages.

Module ToyCrates.

(** * xor_name *)

Definition name_bits (n : N) : list bool := (λ i, N.testbit n (N.of_nat i)) <$> rev (seq 0 8).

#[export] Instance xor_name : XorNameCrate := {|
  XorName := N;
  name_cmp := N.compare;
  cmp_distance t a b := N.compare (N.lxor t a) (N.lxor t b);
  Prefix := list bool;
  prefix_matches p n := bool_decide (p = take (length p) (name_bits n));
  prefix_bit_count p := length p;
  prefix_name p := N.of_nat (length p);
  prefix_sibling p := match rev p with [] => [] | b :: l => rev (negb b :: l) end;
  prefix_is_empty p := match p with [] => true | _ => false end;
|}.

Definition root_prefix : @Prefix xor_name := [].

(** The name with a given number. *)
Definition nm (n : N) : @XorName xor_name := n.

#[export] Instance N_compare_total : TotalCmp N.compare.
Proof.
  split.
  - apply N.compare_refl.
  - intros x y. destruct (N.compare_spec x y), (N.compare_spec y x); simpl; auto; lia.
  - intros x y z. destruct (N.compare_spec x y), (N.compare_spec y z), (N.compare_spec x z);
      simpl; auto; lia.
Qed.

#[export] Instance xor_name_laws : XorNameLaws.
Proof.
  split; simpl.
  - apply _.
  - apply N.compare_eq.
  - intros t. apply (cmp_on_total (N.lxor t) N.compare).
  - intros t a b H%N.compare_eq.
    apply (f_equal (N.lxor t)) in H.
    by rewrite <- !N.lxor_assoc, N.lxor_nilpotent, !N.lxor_0_l in H.
  - intros t a b. apply N.compare_antisym.
Qed.

(** * bincode and hex *)

Definition byte_of_N (n : N) : byte := default x00 (Byte.of_N (n mod 256)).
Definition u64_bytes (z : Z) : list byte :=
  (λ i, byte_of_N (Z.to_N (z / 256 ^ Z.of_nat i))) <$> seq 0 8.
Definition bytes_value (l : list byte) : Z :=
  foldr (λ b acc, Z.of_N (Byte.to_N b) + 256 * acc) 0 l.

Lemma byte_of_N_value n : Byte.to_N (byte_of_N n) = (n mod 256)%N.
Proof.
  unfold byte_of_N. assert (n mod 256 < 256)%N by (apply N.mod_lt; lia).
  destruct (Byte.of_N (n mod 256)) as [b|] eqn:E; simpl.
  - by apply Byte.to_of_N.
  - apply Byte.of_N_None_iff in E. lia.
Qed.

Definition hex_digit (n : N) : Ascii.ascii :=
  Ascii.ascii_of_N (if n <? 10 then n + 48 else n + 87)%N.
Definition hex_value (c : Ascii.ascii) : option N :=
  let n := Ascii.N_of_ascii c in
  (if (48 <=? n) && (n <? 58) then Some (n - 48)
   else if (97 <=? n) && (n <? 103) then Some (n - 87)
   else if (65 <=? n) && (n <? 71) then Some (n - 55) else None)%N.
Fixpoint hex_enc (l : list byte) : string :=
  match l with
  | [] => ""
  | b :: l =>
      String (hex_digit (Byte.to_N b / 16)) (String (hex_digit (Byte.to_N b mod 16)) (hex_enc l))
  end.
Fixpoint hex_dec (s : string) : option (list byte) :=
  match s with
  | EmptyString => Some []
  | String c1 (String c2 s) =>
      match hex_value c1, hex_value c2, hex_dec s with
      | Some h, Some l, Some r => Some (byte_of_N (16 * h + l) :: r)
      | _, _, _ => None
      end
  | String _ EmptyString => None
  end.

#[export] Instance encoding : EncodingCrate := {|
  BincodeError := unit;
  u64_ser := u64_bytes;
  u64_de l := if (8 <=? length l)%nat then Ok (bytes_value (take 8 l)) else Err tt;
  hex_encode := hex_enc;
  hex_decode := hex_dec;
|}.

Lemma hex_dec_enc l : hex_dec (hex_enc l) = Some l.
Proof. induction l as [|b l IH]; [done|]. simpl hex_enc. simpl hex_dec. rewrite IH. by destruct b. Qed.

Lemma u64_bytes_value z : in_u64 z → bytes_value (u64_bytes z) = z.
Proof.
  intros [Hz1 Hz2]. unfold u64_max in Hz2. unfold u64_bytes, bytes_value. simpl.
  rewrite !byte_of_N_value, !N2Z.inj_mod, !Z2N.id by (apply Z.div_pos; lia).
  change (Z.of_N 256) with 256.
  change (256 ^ Z.of_nat 0) with 1. change (256 ^ Z.of_nat 1) with 256.
  change (256 ^ Z.of_nat 2) with (256 * 256).
  change (256 ^ Z.of_nat 3) with (256 * 256 * 256).
  change (256 ^ Z.of_nat 4) with (256 * 256 * 256 * 256).
  change (256 ^ Z.of_nat 5) with (256 * 256 * 256 * 256 * 256).
  change (256 ^ Z.of_nat 6) with (256 * 256 * 256 * 256 * 256 * 256).
  change (256 ^ Z.of_nat 7) with (256 * 256 * 256 * 256 * 256 * 256 * 256).
  rewrite <- !Z.div_div by lia. rewrite Z.div_1_r.
  repeat match goal with
  | |- context [?x mod 256] =>
      let q := fresh "q" in let r := fresh "r" in
      pose proof (Z.div_mod x 256 ltac:(lia)); pose proof (Z.mod_pos_bound x 256 ltac:(lia));
      set (r := x mod 256) in *; set (q := x / 256) in *; clearbody r q
  end.
  lia.
Qed.

Lemma bytes_value_range l : 0 ≤ bytes_value l < 256 ^ Z.of_nat (length l).
Proof.
  induction l as [|b l IH]; simpl; [lia|].
  assert (Byte.to_N b < 256)%N by (destruct b; done).
  rewrite Nat2Z.inj_succ, Z.pow_succ_r by lia. fold bytes_value. lia.
Qed.

#[export] Instance encoding_laws : EncodingLaws.
Proof.
  split.
  - intros z Hz. change (u64_de (u64_ser z)) with (Ok (E := unit) (bytes_value (u64_bytes z))).
    by rewrite u64_bytes_value.
  - done.
  - intros b z. unfold u64_de, encoding. case_match eqn:E; [|done]. intros [= <-].
    apply Nat.leb_le in E. pose proof (bytes_value_range (take 8 b)) as Hb.
    rewrite length_take_le in Hb by lia. unfold in_u64, u64_max. simpl Z.of_nat in Hb. lia.
  - apply hex_dec_enc.
  - done.
  - done.
Qed.

(** * sn_data_types *)

#[export] Instance data_types : DataTypesCrate := {|
  PublicKey := N; pk_cmp := N.compare; name_of_pk := λ pk : N, pk : XorName;
  BlsPublicKey := N; BlsPublicKeyShare := N;
  pk_of_bls := λ k : N, k; pk_of_bls_share := λ k : N, k;
  pk_bls := λ k : N, Some k; pk_bls_share := λ k : N, Some k;
  PublicKeySet := N * nat;
  pks_public_key := fst; pks_threshold := snd; pks_public_key_share s i := N.of_nat i;
  BlsSignatureShare := N; BlsSignature := N; Ed25519Signature := unit;
  combine_signatures s m := if (snd s <? size m)%nat then snd <$> head (map_to_list m) else None;
  BlobAddress := N; blob_address_name := λ a : N, a : XorName;
  PublicBlob := N; PrivateBlob := N * N;
  pub_blob_address := λ b : N, b; priv_blob_address := fst; priv_blob_owner := snd;
  MapAddress := unit * N; map_address_cmp a b := N.compare (snd a) (snd b); map_address_name a := snd a : XorName;
  SeqMap := N * N; UnseqMap := N * N;
  seq_map_address m := (tt, fst m); unseq_map_address m := (tt, fst m);
  MapPermissionSet := unit; MapEntryActions := N; MapValue := N; MapValues := N; MapEntries := N;
  MapKeys := N; MapPermissions := unit;
  seq_map_get m k := Some 0%N; unseq_map_get m k := None;
  seq_map_values := fst; unseq_map_values := fst; seq_map_entries := fst; unseq_map_entries := fst;
  SequenceAddress := N * bool; sequence_address_cmp a b := N.compare (fst a) (fst b);
  sequence_address_name a := fst a : XorName; sequence_address_is_public := snd;
  Sequence := (N * bool) * N * list (list byte); sequence_address s := s.1.1;
  SequenceOp := (N * bool) * list byte; sequence_op_address := fst;
  SequenceIndex := N; SequenceUser := N; SequenceEntries := list (list byte);
  SequencePermissions := unit; SequencePublicPolicy := N; SequencePrivatePolicy := N;
  private_policy_owner := λ p : N, p;
  RegisterAddress := bool * N; register_address_is_public := fst;
  register_address_name a := snd a : XorName;
  Register := (bool * N) * N; register_address := fst; register_owner := snd;
  RegisterOp := bool * N; register_op_address := λ o, o;
  RegisterUser := N; RegisterEntries := unit; RegisterPermissions := unit; RegisterPolicy := unit;
  CreditId := N; credit_id_cmp := N.compare;
  DebitId := N * Z; debit_id_counter := snd;
  Debit := N * Z * Z; debit_id d := (d.1.1, d.1.2); debit_sender d := d.1.1; debit_amount := snd;
  Transfer := N * Z; transfer_to := fst; transfer_debit t := (0%N, 0, snd t);
  DtErrorOther := unit;
|}.

#[export] Instance Map_eq_dec : EqDecision Map.
Proof. solve_decision. Defined.
#[export] Instance Blob_eq_dec' : EqDecision Blob.
Proof. solve_decision. Defined.
#[export] Program Instance Blob_countable' : Countable Blob := {|
  encode b := encode (match b with Public p => inl p | Private p => inr p end : N + (N * N));
  decode p := match decode p : option (N + (N * N)) with
              | Some (inl b) => Some (Public b)
              | Some (inr b) => Some (Private b)
              | None => None
              end;
|}.
Next Obligation. intros [b|b]; simpl; rewrite decode_encode; done. Qed.

#[export] Instance data_ops : DataOpsCrate := {|
  Blob_countable := Blob_countable';
  blob_cmp a b := match a, b with
                  | Public x, Public y => N.compare x y
                  | Public _, Private _ => Lt
                  | Private _, Public _ => Gt
                  | Private x, Private y => N.compare (fst x) (fst y)
                  end;
  blob_address b := match b with Public x => x | Private x => fst x end;
  blob_name b := match b with Public x => x | Private x => fst x end : XorName;
  blob_owner b := match b with Public _ => None | Private x => Some (snd x) end;
  blob_is_private b := match b with Public _ => false | Private _ => true end;
  map_address m := match m with Seq m => (tt, fst m) | Unseq m => (tt, fst m) end;
  map_check_permissions m _ pk :=
    if bool_decide (pk = match m with Seq m => snd m | Unseq m => snd m end)
    then Ok tt else Err (DtAccessDenied pk);
  map_check_is_owner m pk :=
    if bool_decide (pk = match m with Seq m => snd m | Unseq m => snd m end)
    then Ok tt else Err (DtAccessDenied pk);
  map_set_user_permissions m _ _ _ := Ok m;
  map_del_user_permissions m _ _ := Ok m;
  map_mutate_entries m _ _ := Ok m;
  map_shell m := m; map_version _ := 0; map_keys _ := 0%N; map_permissions _ := tt;
  map_user_permissions _ _ := Ok tt;
  sequence_check_permission s _ _ := Ok tt;
  sequence_is_public s := snd s.1.1;
  sequence_in_range s _ _ _ := Ok (Some s.2);
  sequence_last_entry s _ := Ok (last s.2);
  sequence_len s _ := Ok (Z.of_nat (length s.2));
  sequence_permissions _ _ _ := Ok tt;
  sequence_public_policy s := Ok s.1.2; sequence_private_policy s _ := Ok s.1.2;
  sequence_apply_op s o := Ok (s.1, s.2 ++ [snd o]);
  register_check_permission _ _ _ := Ok tt; register_read _ _ := Ok tt;
  register_permissions _ _ _ := Ok tt; register_policy _ _ := Ok tt;
  register_apply_op r _ := Ok r;
  transfer_credit t := Ok (mkCredit 0%N (snd t) (fst t) "");
|}.

#[export] Instance data_ops_laws : DataOpsLaws.
Proof. split; try done; simpl; try naive_solver; by intros [|]. Qed.

(** * sn_messaging *)

#[export] Instance messaging : MessagingCrate := {|
  MessageId := N; in_response_to n := (n + 1000)%N; message_id_combine a b := (a + 256 * b)%N;
  credit_id_of_message_id := λ i : N, i;
  EndUser := N; ClientSigned := N; client_signed_public_key := λ k : N, k;
  ProcessingError := option N; SupportingInfo := unit;
  ErrorMessageOther := unit; CmdOther := unit; TransferCmdOther := unit; TransferQueryOther := unit;
  ProcessMsgOther := unit; NodeCmdOther := unit; NodeSystemCmdOther := unit; NodeQueryOther := unit;
  NodeQueryResponseOther := unit; NodeMsgOther := unit; QueryResponseOther := unit;
  JsonError := unit; MessagingError := unit; PickleDbError := unit; RoutingError := unit;
  TransferErrOther := unit;
|}.

(** Ids, users, keys and addresses by number. *)
Definition mid (n : N) : MessageId := n.
Definition usr (n : N) : EndUser := n.
Definition key (n : N) : PublicKey := n.
Definition baddr (n : N) : BlobAddress := n.

#[export] Instance messaging_ops : MessagingOps := {|
  src_to_dst s := match s with
                  | SrcEndUser u => DstEndUser u | SrcNode n => DstNode n | SrcSection n => DstSection n
                  end;
  src_name s := match s with SrcEndUser u => u | SrcNode n => n | SrcSection n => n end : XorName;
  dst_name d := match d with
                | DstEndUser u => Some (u : XorName) | DstNode n => Some n | DstSection n => Some n
                | DstDirect => None
                end;
  query_response_is_success r := match r with GetBlob r => is_ok r | _ => true end;
  data_cmd_dst_address _ := 0%N : XorName; data_query_dst_address _ := 0%N : XorName;
  message_id_from_republish c := Ok (c.1.1 : MessageId);
  message_id_from_signature _ := Ok (7%N : MessageId);
  processing_error_new _ _ i := Some (i : N);
  create_processing_error m _ := Some (process_msg_id m : N);
  debug_error _ := "error"; display_error _ := "error"; debug_dt_error _ := "dt error";
  debug_message_id _ := "id"; debug_node_msg _ := "node msg"; debug_process_msg _ := "process msg";
  debug_query_response _ := "response"; debug_messaging_error _ := "messaging error";
  display_pk _ := "pk";
|}.

#[export] Instance messaging_laws : MessagingLaws.
Proof. by split. Qed.

(** An encoding of any countable type. *)

Fixpoint pos_bytes (p : positive) : list byte :=
  match p with
  | xH => []
  | xO p => x00 :: pos_bytes p
  | xI p => x01 :: pos_bytes p
  end.
Fixpoint bytes_pos (l : list byte) : positive :=
  match l with
  | [] => xH
  | x00 :: l => xO (bytes_pos l)
  | _ :: l => xI (bytes_pos l)
  end.

Lemma bytes_pos_bytes p : bytes_pos (pos_bytes p) = p.
Proof. induction p as [p IH|p IH|]; simpl; by rewrite ?IH. Qed.

Definition countable_serde A `{Countable A} : Serde A := {|
  ser x := Ok (pos_bytes (encode x));
  de l := match decode (bytes_pos l) with Some x => Ok x | None => Err tt end;
|}.

Lemma countable_serde_laws A `{Countable A} : SerdeLaws A (Serde0 := countable_serde A).
Proof. intros x b [= <-]. simpl. by rewrite bytes_pos_bytes, decode_encode. Qed.

End ToyCrates.
