(* ===== verification/StateDb.v ===== *)
(** [src/state_db.rs]: the files under the root directory that hold the key
    pair of the network layer and the key pair that earns rewards.

    [ed25519_dalek] is the parameter [Ed25519Crate]; [hex::decode] works on the
    bytes of the file, and the text of its error is a parameter too. *)

From Stdlib Require Import Strings.String.
From S2P Require Import Prelude Crates Messages Disk Toy.

(** * ed25519_dalek *)

Class Ed25519Crate := {
  EdKeypair : Type;
  EdPublicKey : Type;
  ed_public : EdKeypair → EdPublicKey;
  (** [Keypair::{to_bytes, from_bytes}], [PublicKey::{to_bytes, from_bytes}],
      [SecretKey::to_bytes]; [None] on an error *)
  keypair_bytes : EdKeypair → list byte;
  keypair_from_bytes : list byte → option EdKeypair;
  public_bytes : EdPublicKey → list byte;
  public_from_bytes : list byte → option EdPublicKey;
  secret_bytes : EdKeypair → list byte;
  (** the text of the error of [hex::decode] on the given characters *)
  hex_error : string → string;
}.

Class Ed25519Laws `{Ed25519Crate} : Prop := {
  keypair_roundtrip : ∀ k, keypair_from_bytes (keypair_bytes k) = Some k;
  public_roundtrip : ∀ k, public_from_bytes (public_bytes k) = Some k;
  (** a public key has 32 bytes *)
  public_from_empty : public_from_bytes [] = None;
}.

Section state_db.
Context `{MO : MessagingOps} `{ED : !Ed25519Crate}.

Definition REWARD_PUBLIC_KEY_FILENAME : string := "reward_public_key".
Definition REWARD_SECRET_KEY_FILENAME : string := "reward_secret_key".
Definition NETWORK_KEYPAIR_FILENAME : string := "network_keypair".

(** [fs::write(path, encode(bytes))]: create, then write. *)
Definition write_hex (p : path) (bytes : list byte) : M Error Fs unit :=
  io (fs_create p ;;; fs_write_all p 0 (list_byte_of_string (hex_encode bytes))).

(** [decode(fs::read(path)?)] with the error of the caller. *)
Definition read_hex (what : string) (p : path) : M Error Fs (list byte) :=
  let! content := io (fs_read p) in
  let hex := string_of_list_byte content in
  lift (ok_or (hex_decode hex) (Logic ("Couldn't hex-decode " +:+ what +:+ " bytes: " +:+ hex_error hex))).

(** [path.is_file()] *)
Definition is_file (p : path) : M Error Fs bool :=
  let! fs := get in ret (bool_decide (is_Some (files fs !! p))).

Definition store_network_keypair (root_dir : path) (keypair_as_bytes : list byte) : M Error Fs unit :=
  write_hex (join root_dir NETWORK_KEYPAIR_FILENAME) keypair_as_bytes.

Definition get_network_keypair (root_dir : path) : M Error Fs (option EdKeypair) :=
  let p := join root_dir NETWORK_KEYPAIR_FILENAME in
  let! exists_ := is_file p in
  if negb exists_ then ret None else
  let! keypair_bytes := read_hex "network keypair" p in
  let! keypair := lift (ok_or (keypair_from_bytes keypair_bytes)
                          (Logic "Config error: Invalid network keypair bytes")) in
  ret (Some keypair).

Definition store_new_reward_keypair (root_dir : path) (keypair : EdKeypair) : M Error Fs unit :=
  write_hex (join root_dir REWARD_SECRET_KEY_FILENAME) (secret_bytes keypair) ;;;
  write_hex (join root_dir REWARD_PUBLIC_KEY_FILENAME) (public_bytes (ed_public keypair)).

Definition get_reward_pk (root_dir : path) : M Error Fs (option EdPublicKey) :=
  let p := join root_dir REWARD_PUBLIC_KEY_FILENAME in
  let! exists_ := is_file p in
  if negb exists_ then ret None else
  let! pk_bytes := read_hex "Ed25519 public key" p in
  let! pk := lift (ok_or (public_from_bytes pk_bytes)
                     (Logic "Config error: Invalid Ed25519 public key bytes")) in
  ret (Some pk).

(** [Node::new], up to the join: the reward key of the node, a new one ([gen])
    when none is stored. *)
Definition reward_key (root_dir : path) (gen : EdKeypair) : M Error Fs EdPublicKey :=
  io (fs_create_dir_all root_dir) ;;;
  let! stored := get_reward_pk root_dir in
  match stored with
  | Some public_key => ret public_key
  | None => store_new_reward_keypair root_dir gen ;;; ret (ed_public gen)
  end.

(** * Facts *)

Context `{EL : !EncodingLaws} `{EDL : !Ed25519Laws}.

Lemma write_hex_none p bytes fs :
  faults fs = [] → parent p ∈ dirs fs →
  write_hex p bytes fs =
    (Ok tt, set_files (<[p := list_byte_of_string (hex_encode bytes)]> (files fs)) fs).
Proof.
  intros Hf Hd. unfold write_hex, io, bind, fs_create. rewrite syscall_none by done.
  rewrite decide_True by done. unfold fs_write_all. rewrite next_fault_none by done.
  unfold set_files. simpl. do 2 f_equal. rewrite alter_insert_eq, write_at_whole, drop_nil, app_nil_r. done.
Qed.

Lemma read_hex_none what p bytes fs :
  faults fs = [] → files fs !! p = Some (list_byte_of_string (hex_encode bytes)) →
  read_hex what p fs = (Ok bytes, fs).
Proof.
  intros Hf Hp. unfold read_hex, bind, io, fs_read. rewrite syscall_none by done. rewrite Hp.
  simpl. by rewrite string_of_list_byte_of_string, hex_roundtrip.
Qed.

Lemma is_file_run p fs : is_file p fs = (Ok (bool_decide (is_Some (files fs !! p))), fs).
Proof. done. Qed.

Lemma store_reward_none root_dir k fs :
  faults fs = [] → root_dir ∈ dirs fs →
  ∃ fs', store_new_reward_keypair root_dir k fs = (Ok tt, fs') ∧ faults fs' = [] ∧ dirs fs' = dirs fs ∧
    ∀ p, files fs' !! p =
      if decide (p = join root_dir REWARD_PUBLIC_KEY_FILENAME)
      then Some (list_byte_of_string (hex_encode (public_bytes (ed_public k))))
      else if decide (p = join root_dir REWARD_SECRET_KEY_FILENAME)
      then Some (list_byte_of_string (hex_encode (secret_bytes k))) else files fs !! p.
Proof.
  intros Hf Hd. unfold store_new_reward_keypair, bind.
  rewrite write_hex_none by (done || by rewrite parent_join).
  rewrite write_hex_none by (done || by rewrite parent_join).
  eexists. split; [done|]. do 2 (split; [done|]). intros p. simpl.
  destruct (decide (p = _)) as [->|Hne]; [by rewrite lookup_insert_eq|]. rewrite lookup_insert_ne by done.
  destruct (decide (p = _)) as [->|Hne']; [by rewrite lookup_insert_eq|]. by rewrite lookup_insert_ne.
Qed.

Lemma get_reward_pk_none root_dir pk fs :
  faults fs = [] →
  files fs !! join root_dir REWARD_PUBLIC_KEY_FILENAME = Some (list_byte_of_string (hex_encode (public_bytes pk))) →
  get_reward_pk root_dir fs = (Ok (Some pk), fs).
Proof.
  intros Hf Hp. unfold get_reward_pk, bind at 1. rewrite is_file_run, Hp. simpl.
  unfold bind. rewrite (read_hex_none _ _ (public_bytes pk)) by done. simpl. by rewrite public_roundtrip.
Qed.

(** * Properties *)

(** Keys survive a restart: on a disk that does not fail, the network key
    pair that is stored is the one read back, and a node that starts for the
    second time in a directory gets the reward key of the first start, whatever
    key it generated anew. *)
Theorem stored_keys_survive root_dir k gen1 gen2 fs :
  faults fs = [] → root_dir ∈ dirs fs → files fs !! join root_dir REWARD_PUBLIC_KEY_FILENAME = None →
  (∃ fs', store_network_keypair root_dir (keypair_bytes k) fs = (Ok tt, fs') ∧
          get_network_keypair root_dir fs' = (Ok (Some k), fs')) ∧
  ∃ fs1 fs2, reward_key root_dir gen1 fs = (Ok (ed_public gen1), fs1) ∧
             reward_key root_dir gen2 fs1 = (Ok (ed_public gen1), fs2) ∧ files fs2 = files fs1.
Proof.
  intros Hf Hd Hnone. split.
  - unfold store_network_keypair. rewrite write_hex_none by (done || by rewrite parent_join).
    eexists. split; [done|]. unfold get_network_keypair, bind at 1. rewrite is_file_run. cbn [files set_files].
    rewrite lookup_insert_eq. simpl. unfold bind.
    rewrite (read_hex_none _ _ (keypair_bytes k)) by (done || apply lookup_insert_eq).
    simpl. by rewrite keypair_roundtrip.
  - unfold reward_key, bind, io, fs_create_dir_all. rewrite syscall_none by done. simpl.
    set (fs0 := set_dirs _ fs). unfold get_reward_pk at 1, bind at 1. rewrite is_file_run. simpl. rewrite Hnone. simpl.
    destruct (store_reward_none root_dir gen1 fs0) as (fs1 & -> & Hf1 & Hd1 & Hp1); [done|simpl; set_solver|].
    eexists fs1, _. split; [done|]. rewrite syscall_none by done. simpl.
    rewrite (get_reward_pk_none _ (ed_public gen1)); [done|done|].
    simpl. rewrite Hp1. by rewrite decide_True.
Qed.

(** C40: a start that is interrupted while it writes the public reward key
    (the file is there and empty) makes every later start fail: no key is read
    and no new one is generated. *)
Theorem truncated_reward_key_blocks_start root_dir gen fs :
  faults fs = [] → files fs !! join root_dir REWARD_PUBLIC_KEY_FILENAME = Some [] →
  ∃ fs', reward_key root_dir gen fs = (Err (Logic "Config error: Invalid Ed25519 public key bytes"), fs') ∧
         files fs' = files fs.
Proof.
  intros Hf Hp. unfold reward_key, bind, io, fs_create_dir_all. rewrite syscall_none by done. simpl.
  unfold get_reward_pk, bind, is_file, get, ret. simpl. rewrite Hp. simpl.
  unfold read_hex, bind, io, fs_read. rewrite syscall_none by done. simpl. rewrite Hp. cbn [map_err].
  change (string_of_list_byte []) with EmptyString. rewrite hex_decode_empty. simpl.
  rewrite public_from_empty. simpl. eauto.
Qed.
End state_db.

(** A key pair is a byte. *)
Module ToyEd.
Import ToyCrates.

#[export] Instance toy_ed : Ed25519Crate := {|
  EdKeypair := byte; EdPublicKey := byte; ed_public k := k;
  keypair_bytes k := [k; k]; keypair_from_bytes l := match l with [k; _] => Some k | _ => None end;
  public_bytes k := [k]; public_from_bytes l := match l with [k] => Some k | _ => None end;
  secret_bytes k := [k]; hex_error _ := "odd number of digits";
|}.
#[export] Instance toy_ed_laws : Ed25519Laws.
Proof. by split. Qed.
End ToyEd.

Module Witness.
Import ToyCrates ToyEd.

(** The key pair and the public key with a given byte. *)
Definition kp (b : byte) : EdKeypair := b.
Definition pk (b : byte) : EdPublicKey := b.

Definition root : path := ["root"].
Definition fs0 : Fs := mkFs ∅ {[root]} [].

Lemma stored_keys_survive_witness :
  (∃ fs', store_network_keypair root (keypair_bytes (kp x03)) fs0 = (Ok tt, fs') ∧
          get_network_keypair root fs' = (Ok (Some (kp x03)), fs')) ∧
  ∃ fs1 fs2, reward_key root (kp x01) fs0 = (Ok (pk x01), fs1) ∧ reward_key root (kp x02) fs1 = (Ok (pk x01), fs2) ∧ files fs2 = files fs1.
Proof. apply (stored_keys_survive root (kp x03) (kp x01) (kp x02) fs0); [reflexivity|simpl; set_solver|reflexivity]. Defined.

(** The disk after a start that failed at the write of the public key. *)
Definition interrupted : Fs :=
  (store_new_reward_keypair root (kp x01) (mkFs ∅ {[root]} [None; None; None; Some 0%nat])).2.
Lemma truncated_reward_key_blocks_start_witness :
  ∃ fs', reward_key root (kp x02) interrupted = (Err (Logic "Config error: Invalid Ed25519 public key bytes"), fs') ∧
         files fs' = files interrupted.
Proof. apply (truncated_reward_key_blocks_start root (kp x02) interrupted); vm_compute; reflexivity. Defined.
End Witness.
