(* ===== verification/Config.v ===== *)
(** [src/config_handler.rs]: the configuration of a node, from its file and the
    command line, and the files with connection info.

    The command line as [structopt] parses it is the argument [args], the home
    directory an argument [home]; [serde_json] is the class [Json].  A [PathBuf]
    is absolute or relative; a relative one is resolved against the working
    directory [cwd] when a file is touched. *)

From S2P Require Import Prelude Crates Messages Disk Toy.

(** * Paths and addresses of the standard library *)

Record PathBuf : Type := mkPathBuf {
  is_absolute : bool;
  components : path;
}.
(** [Path::join]: an absolute argument replaces the path. *)
Definition path_join (p q : PathBuf) : PathBuf :=
  if is_absolute q then q else mkPathBuf (is_absolute p) (components p ++ components q).
Definition path_resolve (cwd : path) (p : PathBuf) : path :=
  if is_absolute p then components p else cwd ++ components p.
(** A relative path of one component. *)
Definition file_name (s : string) : PathBuf := mkPathBuf false [s].

(** An IPv4 or IPv6 address by its value; [SocketAddr] with its port. *)
Definition IpAddr : Type := Z + Z.
Definition LOCALHOST : IpAddr := inl 2130706433.
Definition SocketAddr : Type := IpAddr * Z.
Definition addr_ip (a : SocketAddr) : IpAddr := a.1.
Definition addr_port (a : SocketAddr) : Z := a.2.

(** [first.or(second)], what [if let Some(x) = first { second = Some(x) }] leaves. *)
Definition opt_or {A} (first second : option A) : option A :=
  match first with Some x => Some x | None => second end.

(** * serde_json *)

Class Json `{MC : MessagingCrate} (T : Type) := {
  json_ser : T → result JsonError (list byte);
  json_de : list byte → result JsonError T;
}.
Class JsonIo `{MC : MessagingCrate} := {
  (** the error of [from_reader] and [to_writer] when the file fails *)
  json_io_error : JsonError;
}.

Section config.
Context `{MO : MessagingOps}.

(** [sn_routing::TransportConfig]: the fields the node sets; [nc_rest] are the others. *)
Context {TransportRest : Type}.

Record NetworkConfig : Type := mkNetworkConfig {
  local_port : option Z;
  local_ip : option IpAddr;
  external_port : option Z;
  external_ip : option IpAddr;
  forward_port : bool;
  nc_hard_coded_contacts : gset SocketAddr;
  nc_max_msg_size_allowed : option Z;
  nc_idle_timeout_msec : option Z;
  nc_keep_alive_interval_msec : option Z;
  nc_bootstrap_cache_dir : option string;
  nc_upnp_lease_duration : option Z;
  nc_rest : TransportRest;
}.

Definition CONFIG_FILE : string := "node.config".
Definition CONNECTION_INFO_FILE : string := "node_connection_info.config".
Definition DEFAULT_ROOT_DIR_NAME : string := "root_dir".
Definition DEFAULT_MAX_CAPACITY : Z := 2 * 1024 * 1024 * 1024.

Record Config : Type := mkConfig {
  wallet_id : option string;
  cfg_max_capacity : option Z;
  cfg_root_dir : option PathBuf;
  cfg_verbose : Z;
  completions : option string;
  log_dir : option PathBuf;
  update : bool;
  update_only : bool;
  clear_data : bool;
  first : option SocketAddr;
  local_addr : option SocketAddr;
  public_addr : option SocketAddr;
  skip_igd : bool;
  hard_coded_contacts : gset SocketAddr;
  max_msg_size_allowed : option Z;
  idle_timeout_msec : option Z;
  keep_alive_interval_msec : option Z;
  bootstrap_cache_dir : option string;
  upnp_lease_duration : option Z;
  network_config : NetworkConfig;
}.

Definition set_addrs (l p : option SocketAddr) (c : Config) : Config :=
  mkConfig (wallet_id c) (cfg_max_capacity c) (cfg_root_dir c) (cfg_verbose c) (completions c) (log_dir c)
    (update c) (update_only c) (clear_data c) (first c) l p (skip_igd c) (hard_coded_contacts c)
    (max_msg_size_allowed c) (idle_timeout_msec c) (keep_alive_interval_msec c) (bootstrap_cache_dir c)
    (upnp_lease_duration c) (network_config c).

(** * Validation and merging *)

(** [Config::validate] *)
Definition config_validate (c : Config) : Result Config :=
  if bool_decide (is_Some (public_addr c)) && (bool_decide (first c = None) && bool_decide (local_addr c = None)) then
    Err (Configuration
      "--public-addr passed without specifing local address using --first or --local-addr")
  else if bool_decide (public_addr c = None) && bool_decide (is_Some (local_addr c)) then
    if skip_igd c then Ok (set_addrs (local_addr c) (local_addr c) c)
    else Ok (set_addrs None (public_addr c) c)
  else Ok c.

(** [Config::merge] on its network configuration. *)
Definition merge_network (self : NetworkConfig) (config : Config) : NetworkConfig :=
  mkNetworkConfig
    (opt_or (addr_port <$> local_addr config) (local_port self))
    (opt_or (addr_ip <$> local_addr config) (local_ip self))
    (opt_or (addr_port <$> public_addr config) (external_port self))
    (opt_or (addr_ip <$> public_addr config) (external_ip self))
    (negb (skip_igd config))
    (if bool_decide (hard_coded_contacts config = ∅) then nc_hard_coded_contacts self else hard_coded_contacts config)
    (opt_or (max_msg_size_allowed config) (nc_max_msg_size_allowed self))
    (opt_or (idle_timeout_msec config) (nc_idle_timeout_msec self))
    (opt_or (keep_alive_interval_msec config) (nc_keep_alive_interval_msec self))
    (opt_or (bootstrap_cache_dir config) (nc_bootstrap_cache_dir self))
    (opt_or (upnp_lease_duration config) (nc_upnp_lease_duration self))
    (nc_rest self).

(** [Config::merge] *)
Definition config_merge (self config : Config) : Config :=
  mkConfig
    (opt_or (wallet_id config) (wallet_id self))
    (opt_or (cfg_max_capacity config) (cfg_max_capacity self))
    (opt_or (cfg_root_dir config) (cfg_root_dir self))
    (if 0 <? cfg_verbose config then cfg_verbose config else cfg_verbose self)
    (opt_or (completions config) (completions self))
    (opt_or (log_dir config) (log_dir self))
    (update config || update self)
    (update_only config || update_only self)
    (clear_data config || clear_data self)
    (opt_or (first config) (first self))
    (opt_or (local_addr config) (opt_or (first config) (local_addr self)))
    (opt_or (public_addr config) (public_addr self))
    (skip_igd self)
    (hard_coded_contacts self)
    (max_msg_size_allowed self)
    (idle_timeout_msec self)
    (keep_alive_interval_msec self)
    (bootstrap_cache_dir self)
    (upnp_lease_duration self)
    (merge_network (network_config self) config).

(** * Accessors *)

Definition is_first (c : Config) : bool := bool_decide (is_Some (first c)).
Definition max_capacity_of (c : Config) : Z := default DEFAULT_MAX_CAPACITY (cfg_max_capacity c).
Inductive Level : Type := LevelError | LevelWarn | LevelInfo | LevelDebug | LevelTrace.
(** [Config::verbose], a [u64] *)
Definition verbose (c : Config) : Level :=
  match cfg_verbose c with 0 => LevelError | 1 => LevelWarn | 2 => LevelInfo | 3 => LevelDebug | _ => LevelTrace end.

Definition set_network_config (n : NetworkConfig) (c : Config) : Config :=
  mkConfig (wallet_id c) (cfg_max_capacity c) (cfg_root_dir c) (cfg_verbose c) (completions c) (log_dir c)
    (update c) (update_only c) (clear_data c) (first c) (local_addr c) (public_addr c) (skip_igd c)
    (hard_coded_contacts c) (max_msg_size_allowed c) (idle_timeout_msec c) (keep_alive_interval_msec c)
    (bootstrap_cache_dir c) (upnp_lease_duration c) n.
Definition set_root_dir (p : PathBuf) (c : Config) : Config :=
  mkConfig (wallet_id c) (cfg_max_capacity c) (Some p) (cfg_verbose c) (completions c) (log_dir c)
    (update c) (update_only c) (clear_data c) (first c) (local_addr c) (public_addr c) (skip_igd c)
    (hard_coded_contacts c) (max_msg_size_allowed c) (idle_timeout_msec c) (keep_alive_interval_msec c)
    (bootstrap_cache_dir c) (upnp_lease_duration c) (network_config c).
Definition set_log_dir (p : PathBuf) (c : Config) : Config :=
  mkConfig (wallet_id c) (cfg_max_capacity c) (cfg_root_dir c) (cfg_verbose c) (completions c) (Some p)
    (update c) (update_only c) (clear_data c) (first c) (local_addr c) (public_addr c) (skip_igd c)
    (hard_coded_contacts c) (max_msg_size_allowed c) (idle_timeout_msec c) (keep_alive_interval_msec c)
    (bootstrap_cache_dir c) (upnp_lease_duration c) (network_config c).
Definition set_forward (b : bool) (n : NetworkConfig) : NetworkConfig :=
  mkNetworkConfig (local_port n) (local_ip n) (external_port n) (external_ip n) b (nc_hard_coded_contacts n)
    (nc_max_msg_size_allowed n) (nc_idle_timeout_msec n) (nc_keep_alive_interval_msec n) (nc_bootstrap_cache_dir n)
    (nc_upnp_lease_duration n) (nc_rest n).
Definition listen_on_loopback (c : Config) : Config :=
  let n := network_config c in
  set_network_config
    (mkNetworkConfig (local_port n) (Some LOCALHOST) (external_port n) (external_ip n) (forward_port n)
       (nc_hard_coded_contacts n) (nc_max_msg_size_allowed n) (nc_idle_timeout_msec n)
       (nc_keep_alive_interval_msec n) (nc_bootstrap_cache_dir n) (nc_upnp_lease_duration n) (nc_rest n)) c.

(** * Files *)

Section files.
Context (home : option PathBuf) (cwd : path).
Context `{JC : !Json Config} `{JOC : !Json (option Config)} `{JS : !Json (gset SocketAddr)} `{JL : !Json (list SocketAddr)}
        `{JI : !JsonIo}.

Definition project_dirs : Result PathBuf :=
  match home with
  | None => Err (Io IoNotFound)
  | Some home_dir => Ok (path_join (path_join home_dir (file_name ".safe")) (file_name "node"))
  end.

Definition root_dir (c : Config) : Result PathBuf :=
  match cfg_root_dir c with
  | Some root_dir => Ok root_dir
  | None => res_bind project_dirs (λ d, Ok (path_join d (file_name DEFAULT_ROOT_DIR_NAME)))
  end.

(** [serde_json::from_reader] on an open file. *)
Definition json_from_reader {T} `{!Json T} (p : path) : M Error Fs T :=
  λ fs, match fs_read_to_end p fs with
        | ((true, content), fs') => (map_err JsonSerialisation (json_de content), fs')
        | ((false, _), fs') => (Err (JsonSerialisation json_io_error), fs')
        end.

Definition write_file {T} `{!Json T} (file : string) (config : T) : M Error Fs unit :=
  let! dir := lift project_dirs in
  io (fs_create_dir_all (path_resolve cwd dir)) ;;;
  let p := path_resolve cwd (path_join dir (file_name file)) in
  io (fs_create p) ;;;
  let! bytes := lift (map_err JsonSerialisation (json_ser config)) in
  let! written := try (io (fs_write_all p 0 bytes)) in
  match written with
  | Ok _ => io (fs_sync_all p)
  | Err _ => throw (JsonSerialisation json_io_error)
  end.

Definition write_to_disk (c : Config) : M Error Fs unit := write_file CONFIG_FILE c.

Definition read_from_file : M Error Fs (option Config) :=
  let! dir := lift project_dirs in
  let p := path_resolve cwd (path_join dir (file_name CONFIG_FILE)) in
  let! opened := try (io (fs_open p)) in
  match opened with
  | Ok _ => json_from_reader p
  | Err (Io IoNotFound) => ret None
  | Err e => throw e
  end.

Definition read_conn_info_from_file : M Error Fs (gset SocketAddr) :=
  let! dir := lift project_dirs in
  let p := path_resolve cwd (path_join dir (file_name CONNECTION_INFO_FILE)) in
  io (fs_open p) ;;;
  json_from_reader p.

Definition set_connection_info (contact : SocketAddr) : M Error Fs unit :=
  write_file CONNECTION_INFO_FILE [contact].

Definition add_connection_info (contact : SocketAddr) : M Error Fs unit :=
  let! known := try read_conn_info_from_file in
  let contacts : gset SocketAddr :=
    match known with Ok contacts => {[contact]} ∪ contacts | Err _ => {[contact]} end in
  write_file CONNECTION_INFO_FILE contacts.

(** [std::fs::remove_dir_all]: a failure may leave any of the files removed;
    here the first [k]. *)
Definition below (d p : path) : bool := bool_decide (take (length d) p = d).
Definition fs_remove_dir_all (d : path) : M IoError Fs unit :=
  λ fs, match next_fault fs with
        | (Some k, fs') =>
            let gone := take k (filter (λ p, below d p = true) (map_to_list (files fs')).*1) in
            (Err IoOther, set_files (foldr delete (files fs') gone) fs')
        | (None, fs') =>
            (Ok tt, mkFs (filter (λ f, below d f.1 = false) (files fs'))
                      (filter (λ p, below d p = false) (dirs fs')) (faults fs'))
        end.
(** [path.exists()] *)
Definition path_exists (p : path) (fs : Fs) : bool :=
  bool_decide (is_Some (files fs !! p)) || bool_decide (p ∈ dirs fs).

Definition clear_data_from_disk (c : Config) : M Error Fs unit :=
  if clear_data c then
    let! dir := lift project_dirs in
    let! root := lift (root_dir c) in
    let p := path_resolve cwd (path_join dir root) in
    let! fs := get in
    if path_exists p fs then io (fs_remove_dir_all p) else ret tt
  else ret tt.

(** [Config::new]; [default] is the derived default. *)
Definition config_new (default args : Config) : M Error Fs Config :=
  let! from_file := try read_from_file in
  let config := match from_file with Ok (Some config) => config | _ => default end in
  let! command_line_args := lift (config_validate args) in
  let command_line_args :=
    match first command_line_args with
    | Some socket_addr => set_addrs (Some socket_addr) (public_addr command_line_args) command_line_args
    | None => command_line_args
    end in
  let config := config_merge config command_line_args in
  let! _ := try (clear_data_from_disk config) in
  ret config.

(** * Facts *)

(** A command line without arguments. *)
Definition no_args (c : Config) : Prop :=
  wallet_id c = None ∧ cfg_max_capacity c = None ∧ cfg_root_dir c = None ∧ cfg_verbose c = 0 ∧ completions c = None ∧
  log_dir c = None ∧ update c = false ∧ update_only c = false ∧ clear_data c = false ∧ first c = None ∧
  local_addr c = None ∧ public_addr c = None ∧ skip_igd c = false ∧ hard_coded_contacts c = ∅ ∧
  max_msg_size_allowed c = None ∧ idle_timeout_msec c = None ∧ keep_alive_interval_msec c = None ∧
  bootstrap_cache_dir c = None ∧ upnp_lease_duration c = None.

Lemma opt_or_assoc {A} (a b c : option A) : opt_or (opt_or a b) c = opt_or a (opt_or b c).
Proof. by destruct a. Qed.
Lemma opt_or_idem {A} (a b : option A) : opt_or a (opt_or a b) = opt_or a b.
Proof. by destruct a. Qed.

Lemma merge_no_args self args :
  no_args args → config_merge self args = set_network_config (set_forward true (network_config self)) self.
Proof.
  intros (H1 & H2 & H3 & H4 & H5 & H6 & H7 & H8 & H9 & H10 & H11 & H12 & H13 & H14 & H15 & H16 & H17 & H18 & H19).
  destruct self as [? ? ? ? ? ? ? ? ? ? ? ? ? ? ? ? ? ? ? []]. unfold config_merge, merge_network, set_network_config, set_forward.
  rewrite H1, H2, H3, H4, H5, H6, H7, H8, H9, H10, H11, H12, H13, H14, H15, H16, H17, H18, H19. done.
Qed.

Lemma validate_cases c :
  match config_validate c with
  | Err e => is_Some (public_addr c) ∧ first c = None ∧ local_addr c = None
  | Ok c' => first c' = first c ∧ (is_Some (public_addr c') → is_Some (opt_or (first c') (local_addr c'))) ∧
             (is_Some (local_addr c') → is_Some (public_addr c'))
  end.
Proof.
  unfold config_validate. destruct (public_addr c) as [p|] eqn:Hp; simpl.
  - destruct (first c) eqn:Hf; simpl; [rewrite Hf, Hp; eauto|].
    destruct (local_addr c) eqn:Hl; simpl; [|eauto]. rewrite Hf, Hp, Hl. eauto.
  - destruct (local_addr c) as [l|] eqn:Hl; simpl; [|rewrite Hp, Hl].
    + destruct (skip_igd c); simpl; rewrite ?Hl, ?Hp; split; try done; split; try (by intros [? [=]]); try by eauto.
      intros _. destruct (first c); eauto.
    + repeat split; intros [? [=]].
Qed.

Lemma merge_idem self args : config_merge (config_merge self args) args = config_merge self args.
Proof.
  unfold config_merge, merge_network. cbn. f_equal; try (by rewrite ?opt_or_idem; try destruct (0 <? _); try destruct (_ args)).
  - destruct (local_addr args), (first args); done.
  - f_equal; try (by rewrite ?opt_or_idem). by case_bool_decide.
Qed.

(** The file a configuration is written to. *)
Definition config_path (dir : PathBuf) : path := path_resolve cwd (path_join dir (file_name CONFIG_FILE)).

Lemma resolve_join dir n : path_resolve cwd (path_join dir (file_name n)) = join (path_resolve cwd dir) n.
Proof. unfold path_resolve, path_join, join, file_name. simpl. destruct (is_absolute dir); simpl; by rewrite ?app_assoc. Qed.

Lemma write_to_disk_none c dir b fs :
  faults fs = [] → project_dirs = Ok dir → json_ser c = Ok b →
  ∃ fs', write_to_disk c fs = (Ok tt, fs') ∧ faults fs' = [] ∧ files fs' = <[config_path dir := b]> (files fs).
Proof.
  intros Hf Hdir Hb. unfold write_to_disk, write_file, config_path. rewrite resolve_join.
  unfold bind at 1, lift. rewrite Hdir. unfold bind, io, fs_create_dir_all. rewrite syscall_none by done. cbn [modify].
  rewrite resolve_join. unfold fs_create. rewrite syscall_none by done. rewrite decide_True.
  2: { rewrite parent_join. simpl. apply elem_of_union_l, elem_of_dir_prefixes. }
  cbn [map_err]. rewrite Hb. cbn [map_err]. unfold try, fs_write_all. rewrite next_fault_none by done. cbn [map_err].
  unfold fs_sync_all. rewrite syscall_none by done. eexists. split; [reflexivity|]. split; [done|].
  simpl. by rewrite alter_insert_eq, write_at_whole, drop_nil, app_nil_r.
Qed.

Lemma read_from_file_none dir b o fs :
  faults fs = [] → project_dirs = Ok dir → files fs !! config_path dir = Some b → json_de b = Ok o →
  read_from_file fs = (Ok o, fs).
Proof.
  intros Hf Hdir Hp Hb. unfold read_from_file, bind at 1, lift. rewrite Hdir. fold (config_path dir).
  unfold bind, try, io, fs_open. rewrite syscall_none by done. rewrite Hp. cbn [map_err].
  unfold json_from_reader, fs_read_to_end. rewrite next_fault_none by done. rewrite Hp. simpl. by rewrite Hb.
Qed.

Lemma read_from_file_files fs : files (read_from_file fs).2 = files fs.
Proof.
  unfold read_from_file, bind at 1, lift. destruct project_dirs as [dir|]; [|done].
  unfold bind, try, io, fs_open. destruct (syscall _ fs) as [r fs1] eqn:Hs.
  assert (files fs1 = files fs) as <-.
  { eapply syscall_frame; [|exact Hs]. intros ? ? ?. by intros [= _ <-]. }
  destruct r as [[]|[]]; cbn [map_err]; [|done|done]. unfold json_from_reader, fs_read_to_end.
  pose proof (next_fault_files fs1). by destruct (next_fault fs1) as [[?|] ?].
Qed.

Lemma remove_dir_all_spares d q fs : below d q = false → files (fs_remove_dir_all d fs).2 !! q = files fs !! q.
Proof.
  intros Hq. unfold fs_remove_dir_all. rewrite <- (next_fault_files fs).
  destruct (next_fault fs) as [[k|] fs1]; cbn [snd files set_files].
  - set (l := take k _). assert (q ∉ l) as Hl.
    { intros Hin. apply (subseteq_take k), list_elem_of_filter in Hin as [Hin _]. congruence. }
    clearbody l. induction l as [|p l IH]; simpl; [done|].
    apply not_elem_of_cons in Hl as [Hne Hl]. by rewrite lookup_delete_ne, IH.
  - destruct (files fs1 !! q) as [b|] eqn:Hb; [by apply map_lookup_filter_Some|].
    apply map_lookup_filter_None. by left.
Qed.

Lemma clear_data_spares c dir root q fs :
  project_dirs = Ok dir → root_dir c = Ok root → below (path_resolve cwd (path_join dir root)) q = false →
  files (clear_data_from_disk c fs).2 !! q = files fs !! q.
Proof.
  intros Hdir Hroot Hq. unfold clear_data_from_disk. destruct (clear_data c); [|done].
  unfold bind, lift. rewrite Hdir, Hroot. unfold get. destruct (path_exists _ _); [|done]. unfold io.
  pose proof (remove_dir_all_spares _ q fs Hq) as Hf. by destruct (fs_remove_dir_all _ fs).
Qed.

(** * Properties *)

(** What [Config::new] makes of addresses.  It fails exactly when
    [--public-addr] is given alone, and then no file has changed.  Otherwise the
    node listens where [--first] says, at an address and port that agree, and a
    [--public-addr] is what it announces. *)
Theorem config_new_addresses default args fs :
  match config_new default args fs with
  | (Err e, fs') => is_Some (public_addr args) ∧ first args = None ∧ local_addr args = None ∧ files fs' = files fs
  | (Ok c, fs') =>
      (is_Some (public_addr args) → is_Some (opt_or (first args) (local_addr args))) ∧
      (∀ a, first args = Some a → is_first c = true ∧ local_addr c = Some a ∧
         local_ip (network_config c) = Some (addr_ip a) ∧ local_port (network_config c) = Some (addr_port a)) ∧
      (∀ a, public_addr args = Some a → public_addr c = Some a ∧
         external_ip (network_config c) = Some (addr_ip a) ∧ external_port (network_config c) = Some (addr_port a))
  end.
Proof.
  unfold config_new, bind at 1, try. pose proof (read_from_file_files fs) as Hf.
  destruct (read_from_file fs) as [rd fs1]. cbn [snd] in Hf. unfold bind at 1, lift.
  unfold config_validate. destruct (public_addr args) as [p|] eqn:Hp; simpl.
  - destruct (first args) as [a|] eqn:Hfst; simpl.
    + rewrite Hfst. unfold bind, try. destruct (clear_data_from_disk _ _). simpl. rewrite Hp.
      repeat split; intros; simplify_eq; eauto; by (unfold is_first; simpl; rewrite ?Hfst).
    + destruct (local_addr args) as [l|] eqn:Hl; simpl; [|by rewrite Hf; eauto].
      rewrite Hfst. unfold bind, try. destruct (clear_data_from_disk _ _). simpl. rewrite Hp.
      repeat split; intros; simplify_eq; eauto; by (unfold is_first; simpl; rewrite ?Hfst).
  - destruct (local_addr args) as [l|] eqn:Hl; simpl; [destruct (skip_igd args)|];
      (destruct (first args) as [a|] eqn:Hfst; simpl; rewrite ?Hfst; unfold bind, try;
       destruct (clear_data_from_disk _ _); simpl; repeat split; intros; simplify_eq; eauto; by (unfold is_first; simpl; rewrite ?Hfst)).
Qed.

(** C30: a configuration written to disk is the one a start without arguments
    uses, but for port forwarding: whatever the file says, it is switched on. *)
Theorem config_file_roundtrip default args c dir b fs :
  faults fs = [] → project_dirs = Ok dir → json_ser c = Ok b → json_de b = Ok (Some c) → clear_data c = false →
  no_args args →
  ∃ fs' fs'', write_to_disk c fs = (Ok tt, fs') ∧
    config_new default args fs' = (Ok (set_network_config (set_forward true (network_config c)) c), fs'').
Proof.
  intros Hf Hdir Hb Hde Hclear Hargs. destruct (write_to_disk_none c dir b fs Hf Hdir Hb) as (fs' & Hw & Hf' & Hfiles).
  exists fs'. unfold config_new, bind, try.
  rewrite (read_from_file_none dir b (Some c)); [|done|done|rewrite Hfiles; apply lookup_insert_eq|done].
  pose proof Hargs as (_ & _ & _ & _ & _ & _ & _ & _ & _ & Hfst & Hl & Hp & _).
  assert (config_validate args = Ok args) as -> by (unfold config_validate; by rewrite Hp, Hl).
  cbn [lift]. rewrite Hfst, merge_no_args by done. unfold clear_data_from_disk. cbn. rewrite Hclear. eauto.
Qed.

(** C39: [--clear-data] does not clear the data of a node whose root directory
    is a relative path: it is looked up below the project directory, while the
    node works below its working directory. *)
Theorem clear_data_misses_relative_root default args dir p q fs :
  project_dirs = Ok dir → cfg_root_dir args = Some (mkPathBuf false p) →
  below (cwd ++ p) q = true → below (path_resolve cwd (path_join dir (mkPathBuf false p))) q = false →
  files (config_new default args fs).2 !! q = files fs !! q ∧
  match (config_new default args fs).1 with
  | Ok c => path_resolve cwd <$> res_ok (root_dir c) = Some (cwd ++ p)
  | Err _ => True
  end.
Proof.
  intros Hdir Hroot _ Hq. destruct (config_new default args fs) as [r fs'] eqn:Hnew. revert Hnew. cbn [fst snd].
  unfold config_new, bind at 1, try at 1. rewrite <- (read_from_file_files fs).
  destruct (read_from_file fs) as [rd fs1]. cbn [snd]. unfold bind, lift.
  assert (∀ a, config_validate args = Ok a → cfg_root_dir a = Some (mkPathBuf false p)) as Hval.
  { unfold config_validate. intros a. destruct (_ && _); [done|]. destruct (_ && _); [|by intros [= <-]].
    destruct (skip_igd args); by intros [= <-]. }
  destruct (config_validate args) as [a|e]; [|by intros [= <- <-]]. specialize (Hval a eq_refl).
  set (a' := match first a with Some _ => _ | None => _ end).
  assert (cfg_root_dir a' = Some (mkPathBuf false p)) as Ha' by (subst a'; by destruct (first a)).
  set (c := config_merge _ a'). assert (root_dir c = Ok (mkPathBuf false p)) as Hc.
  { unfold root_dir, c. simpl. by rewrite Ha'. }
  pose proof (clear_data_spares c dir _ q fs1 Hdir Hc Hq) as Hspare. unfold try.
  destruct (clear_data_from_disk c fs1) as [rc fs2]. intros [= <- <-]. cbn [fst snd ret] in *. split; [done|].
  by rewrite Hc.
Qed.
End files.
End config.

Module Witness.
Import ToyCrates.

(** A configuration that switches port forwarding off. *)
Definition net0 (forward : bool) : NetworkConfig :=
  mkNetworkConfig None None None None forward ∅ None None None None None tt.
Definition cfg0 (forward : bool) (root : option PathBuf) : Config :=
  mkConfig None None root 0 None None false false false None None None false ∅ None None None None None (net0 forward).
Definition lan : Config := cfg0 false None.
Definition home0 : option PathBuf := Some (mkPathBuf true ["home"]).

(** The JSON of [lan], and of nothing else. *)
#[local] Instance json_cfg : Json (Config (TransportRest := unit)) := {| json_ser _ := Ok [x01]; json_de _ := Ok lan |}.
#[local] Instance json_opt : Json (option (Config (TransportRest := unit))) :=
  {| json_ser _ := Ok [x01]; json_de _ := Ok (Some lan) |}.
#[local] Instance json_io : JsonIo := {| json_io_error := tt |}.

Lemma config_file_roundtrip_witness :
  ∃ fs' fs'', write_to_disk home0 ["work"] lan (mkFs ∅ ∅ []) = (Ok tt, fs') ∧
    config_new home0 ["work"] lan (cfg0 true None) fs' = (Ok (cfg0 true None), fs'').
Proof.
  apply (config_file_roundtrip home0 ["work"] lan (cfg0 true None) lan (mkPathBuf true ["home"; ".safe"; "node"])
           [x01] (mkFs ∅ ∅ [])); try reflexivity. repeat split.
Defined.

(** [--clear-data --root-dir data] in the directory [work]. *)
Definition relative_args : Config :=
  mkConfig None None (Some (file_name "data")) 0 None None false false true None None None false ∅ None None None None
    None (net0 true).
Definition fs1 : Fs := mkFs {[ ["work"; "data"; "chunk"] := [x05] ]} {[ ["work"; "data"] ]} [].
Lemma clear_data_misses_relative_root_witness :
  files (config_new home0 ["work"] lan relative_args fs1).2 !! ["work"; "data"; "chunk"] = Some [x05].
Proof.
  refine (proj1 (clear_data_misses_relative_root home0 ["work"] lan relative_args
                   (mkPathBuf true ["home"; ".safe"; "node"]) ["data"] ["work"; "data"; "chunk"] fs1 _ _ _ _));
    reflexivity.
Defined.
End Witness.
