(* ===== verification/F64.v ===== *)
(** Binary64 arithmetic as the Standard Library specifies it ([SpecFloat],
    precision 53, emax 1024): the [f64] expressions of the node, with the
    integer casts of Rust.  [powf] is a function of the platform's math
    library and stays a parameter of the code that calls it. *)

From Stdlib Require Import Floats.SpecFloat.
From S2P Require Import Prelude.

Definition f64 : Type := spec_float.

(** [n as f64], rounding to nearest even. *)
Definition f64_of_Z (n : Z) : f64 := binary_normalize 53 1024 n 0 false.
Definition f64_add (x y : f64) : f64 := SFadd 53 1024 x y.
Definition f64_mul (x y : f64) : f64 := SFmul 53 1024 x y.
Definition f64_div (x y : f64) : f64 := SFdiv 53 1024 x y.
Definition f64_sqrt (x : f64) : f64 := SFsqrt 53 1024 x.
Definition f64_ltb (x y : f64) : bool := SFltb x y.

(** A decimal literal [n / d], correctly rounded when [n] and [d] are exact. *)
Definition f64_ratio (n d : Z) : f64 := f64_div (f64_of_Z n) (f64_of_Z d).

(** [|x|] times [2^k], halves rounded up when [half] is set: the magnitude of
    [x.floor()] (of a non-negative [x]) or of [x.round()]. *)
Definition magnitude (half : bool) (m : positive) (e : Z) : Z :=
  if 0 <=? e then Zpos m * 2 ^ e
  else (Zpos m + if half then 2 ^ (- e - 1) else 0) / 2 ^ (- e).

(** The saturating cast [as u64] of an integral value. *)
Definition to_u64 (half : bool) (x : f64) : Z :=
  match x with
  | S754_zero _ | S754_nan => 0
  | S754_infinity s => if s then 0 else u64_max
  | S754_finite s m e => if s then 0 else Z.min u64_max (magnitude half m e)
  end.
(** [x.round() as u64] and [x.floor() as u64]. *)
Definition f64_round_as_u64 (x : f64) : Z := to_u64 true x.
Definition f64_floor_as_u64 (x : f64) : Z := to_u64 false x.

Lemma to_u64_range half x : in_u64 (to_u64 half x).
Proof.
  unfold to_u64, in_u64.
  assert (0 ≤ u64_max) by (unfold u64_max; lia).
  destruct x as [s|s| |s m e]; try lia; destruct s; try lia.
  assert (0 ≤ magnitude half m e); [|lia].
  unfold magnitude. destruct (Z.leb_spec 0 e).
  - assert (0 < 2 ^ e) by (apply Z.pow_pos_nonneg; lia). lia.
  - assert (0 < 2 ^ (- e)) by (apply Z.pow_pos_nonneg; lia).
    assert (0 ≤ 2 ^ (- e - 1)) by (apply Z.pow_nonneg; lia).
    apply Z.div_pos; [destruct half; lia|done].
Qed.
