(* ===== verification/UsedSpace.v ===== *)
(** [src/chunk_store/used_space.rs]: the record of the space used by the chunk
    stores, in memory and in one [used_space] file per store.

    The outer [UsedSpace] is a mutex around [inner::UsedSpace]; every method
    locks it for its whole body, so an operation is one atomic step on the
    inner state and the disk.  [HashMap] iteration order is unspecified; the
    model iterates in the order of [map_to_list]. *)

From S2P Require Import Prelude Crates Messages Disk Toy.

Section used_space.
Context `{MO : MessagingOps}.

Definition USED_SPACE_FILENAME : string := "used_space".

Record LocalUsedSpace : Type := mkLocal {
  local_value : Z;
  (** the open file, by its path *)
  local_record : path;
}.

Record UsedSpace : Type := mkUsedSpace {
  max_capacity : Z;
  total_value : Z;
  local_stores : gmap Z LocalUsedSpace;
  next_id : Z;
}.

Definition set_total (t : Z) (u : UsedSpace) : UsedSpace :=
  mkUsedSpace (max_capacity u) t (local_stores u) (next_id u).
Definition set_locals (l : gmap Z LocalUsedSpace) (u : UsedSpace) : UsedSpace :=
  mkUsedSpace (max_capacity u) (total_value u) l (next_id u).
Definition set_local_value (v : Z) (l : LocalUsedSpace) : LocalUsedSpace :=
  mkLocal v (local_record l).

Definition us_new (max_capacity : Z) : UsedSpace := mkUsedSpace max_capacity 0 ∅ 0.

Definition US : Type := UsedSpace * Fs.
Definition on_fs {A} (m : M Error Fs A) : M Error US A :=
  zoom snd (λ fs s, (s.1, fs)) m.
Definition on_us (f : UsedSpace → UsedSpace) : M Error US unit :=
  modify (λ s, (f s.1, s.2)).

(** [write_local_to_file] *)
Definition write_local_to_file (record : path) (v : Z) : M Error Fs unit :=
  io (fs_truncate record) ;;;
  io (fs_seek_start record) ;;;
  io (fs_write_all record 0 (u64_ser v)) ;;;
  io (fs_sync_all record).

(** [reset] *)
Definition reset : M Error US unit :=
  on_us (set_total 0) ;;;
  let! s := get in
  for_each (map_to_list (local_stores s.1)) (λ entry,
    on_us (λ u, set_locals (alter (set_local_value 0) entry.1 (local_stores u)) u) ;;;
    on_fs (write_local_to_file (local_record entry.2) 0)).

Definition total (u : UsedSpace) : Z := total_value u.

Definition local (u : UsedSpace) (id : Z) : Z :=
  match local_stores u !! id with Some l => local_value l | None => 0 end.

(** The value read from the record, or a fresh record holding 0. *)
Definition read_or_init_record (record : path) : M Error Fs Z :=
  λ fs,
    let '((could_read, buffer), fs1) := fs_read_to_end record fs in
    if could_read && negb (bool_decide (buffer = [])) then
      (map_err Bincode (u64_de buffer), fs1)
    else
      (io (fs_write_all record (length buffer) (u64_ser 0)) ;;; ret 0) fs1.

(** [add_local_store] *)
Definition add_local_store (dir : path) : M Error US Z :=
  on_fs (io (fs_open_rw (join dir USED_SPACE_FILENAME))) ;;;
  let! local_value := on_fs (read_or_init_record (join dir USED_SPACE_FILENAME)) in
  let! s := get in
  let id := next_id s.1 in
  on_us (λ u, mkUsedSpace (max_capacity u) (total_value u)
                (<[id := mkLocal local_value (join dir USED_SPACE_FILENAME)]> (local_stores u))
                (id + 1)) ;;;
  ret id.

(** [increase] *)
Definition increase (id consumed : Z) : M Error US unit :=
  let! s := get in
  let u := s.1 in
  let! new_total := lift (ok_or (checked_add (total_value u) consumed) NotEnoughSpace) in
  if bool_decide (max_capacity u < new_total) then throw NotEnoughSpace else
  let! l := lift (ok_or (local_stores u !! id) NoStoreId) in
  let! new_local := lift (ok_or (checked_add (local_value l) consumed) NotEnoughSpace) in
  on_fs (write_local_to_file (local_record l) new_local) ;;;
  on_us (λ u, set_locals (<[id := set_local_value new_local l]> (local_stores u)) (set_total new_total u)).

(** [decrease] *)
Definition decrease (id released : Z) : M Error US unit :=
  let! s := get in
  let u := s.1 in
  let! l := lift (ok_or (local_stores u !! id) NoStoreId) in
  let new_local := saturating_sub (local_value l) released in
  let new_total := saturating_sub (total_value u) released in
  on_fs (write_local_to_file (local_record l) new_local) ;;;
  on_us (λ u, set_locals (<[id := set_local_value new_local l]> (local_stores u)) (set_total new_total u)).

(** * Lemmas *)

(** The disk effect of writing a record: only the record changes, and on
    success it holds exactly the encoding. *)
Lemma write_local_frame record v fs r fs' p :
  write_local_to_file record v fs = (r, fs') → p ≠ record →
  files fs' !! p = files fs !! p.
Proof.
  intros Hw Hp. unfold write_local_to_file, io, fs_truncate, fs_seek_start, fs_sync_all,
    fs_write_all, syscall, next_fault in Hw. unfold_m.
  repeat (case_match; simplify_eq/=; try done);
    repeat match goal with |- context [alter ?f ?i _ !! ?j] => rewrite lookup_alter_ne by done end;
    done.
Qed.

Lemma write_local_keys record v fs r fs' p :
  write_local_to_file record v fs = (r, fs') →
  is_Some (files fs' !! p) ↔ is_Some (files fs !! p).
Proof.
  intros Hw. destruct (decide (p = record)) as [->|Hp];
    [|rewrite (write_local_frame _ _ _ _ _ _ Hw Hp); reflexivity].
  unfold write_local_to_file, io, fs_truncate, fs_seek_start, fs_sync_all,
    fs_write_all, syscall, next_fault in Hw. unfold_m.
  repeat (case_match; simplify_eq/=; try done);
    rewrite ?lookup_alter_eq, ?fmap_is_Some; reflexivity.
Qed.

Lemma write_local_dirs record v fs r fs' :
  write_local_to_file record v fs = (r, fs') → dirs fs' = dirs fs.
Proof.
  intros Hw. unfold write_local_to_file, io, fs_truncate, fs_seek_start, fs_sync_all,
    fs_write_all, syscall, next_fault in Hw. unfold_m.
  by repeat (case_match; simplify_eq/=; try done).
Qed.

Lemma write_local_ok record v fs fs' :
  write_local_to_file record v fs = (Ok tt, fs') → is_Some (files fs !! record) →
  files fs' !! record = Some (u64_ser v).
Proof.
  intros Hw [c Hc]. unfold write_local_to_file, io, fs_truncate, fs_seek_start, fs_sync_all,
    fs_write_all, syscall, next_fault in Hw. unfold_m.
  repeat (case_match; simplify_eq/=; try done);
    rewrite !lookup_alter_eq, Hc; simpl; by rewrite write_at_whole, drop_nil, app_nil_r.
Qed.

(** The whole effect of a successful write of an existing record. *)
Lemma write_local_files record v fs fs' :
  write_local_to_file record v fs = (Ok tt, fs') → is_Some (files fs !! record) →
  files fs' = <[record := u64_ser v]> (files fs) ∧ dirs fs' = dirs fs.
Proof.
  intros Hw Hr. split; [|by eapply write_local_dirs]. apply map_eq. intros p.
  rewrite lookup_insert. case_decide; subst.
  - by eapply write_local_ok.
  - by eapply write_local_frame.
Qed.

Lemma write_local_none record v fs :
  faults fs = [] →
  ∃ fs', write_local_to_file record v fs = (Ok tt, fs') ∧ faults fs' = [].
Proof.
  intros Hf. unfold write_local_to_file, io, fs_truncate, fs_seek_start, fs_sync_all,
    fs_write_all, syscall, next_fault. unfold_m. rewrite Hf. simpl. rewrite Hf. simpl.
  rewrite Hf. simpl. rewrite Hf. eauto.
Qed.

(** Sum of what the stores record. *)
Definition sum_locals (u : UsedSpace) : Z :=
  map_sum (λ _ l, local_value l) (local_stores u).

Definition us_inv (u : UsedSpace) : Prop :=
  0 ≤ total_value u ≤ max_capacity u ∧
  total_value u ≤ sum_locals u ∧
  (∀ id l, local_stores u !! id = Some l → 0 ≤ local_value l ∧ id < next_id u).

(** The two outcomes of [increase]. *)
Lemma increase_cases id n u fs r u' fs' :
  increase id n (u, fs) = (r, (u', fs')) →
  (∃ l, r = Ok tt ∧ local_stores u !! id = Some l ∧
     total_value u + n ≤ max_capacity u ∧ total_value u + n ≤ u64_max ∧
     local_value l + n ≤ u64_max ∧
     u' = set_locals (<[id := set_local_value (local_value l + n) l]> (local_stores u))
            (set_total (total_value u + n) u) ∧
     write_local_to_file (local_record l) (local_value l + n) fs = (Ok tt, fs')) ∨
  (∃ e, r = Err e ∧ u' = u ∧
     (fs' = fs ∨ ∃ l v, local_stores u !! id = Some l ∧
        write_local_to_file (local_record l) v fs = (Err e, fs'))).
Proof.
  unfold increase, on_fs, on_us. unfold_m.
  destruct (checked_add (total_value u) n) as [t|] eqn:Ht; simpl;
    [|intros; simplify_eq; right; eauto].
  apply checked_add_Some in Ht as [-> Hmax].
  case_bool_decide; simpl; [intros; simplify_eq; right; eauto|].
  destruct (local_stores u !! id) as [l|] eqn:Hl; simpl; [|intros; simplify_eq; right; eauto].
  destruct (checked_add (local_value l) n) as [t|] eqn:Hn; simpl;
    [|intros; simplify_eq; right; eauto].
  apply checked_add_Some in Hn as [-> Hmax'].
  destruct (write_local_to_file _ _ fs) as [[[]|e] fs1] eqn:Hw; simpl; intros; simplify_eq.
  - left. exists l. repeat split; try done; lia.
  - right. eauto 10.
Qed.

(** The two outcomes of [decrease]. *)
Lemma decrease_cases id n u fs r u' fs' :
  decrease id n (u, fs) = (r, (u', fs')) →
  (∃ l, r = Ok tt ∧ local_stores u !! id = Some l ∧
     u' = set_locals (<[id := set_local_value (saturating_sub (local_value l) n) l]> (local_stores u))
            (set_total (saturating_sub (total_value u) n) u) ∧
     write_local_to_file (local_record l) (saturating_sub (local_value l) n) fs = (Ok tt, fs')) ∨
  (∃ e, r = Err e ∧ u' = u ∧
     (fs' = fs ∨ ∃ l v, local_stores u !! id = Some l ∧
        write_local_to_file (local_record l) v fs = (Err e, fs'))).
Proof.
  unfold decrease, on_fs, on_us. unfold_m.
  destruct (local_stores u !! id) as [l|] eqn:Hl; simpl; [|intros; simplify_eq; right; eauto].
  destruct (write_local_to_file _ _ fs) as [[[]|e] fs1] eqn:Hw; simpl; intros; simplify_eq.
  - left. exists l. auto.
  - right. eauto 10.
Qed.

(** The invariant is preserved by a change of one store's record and the
    total that keeps the total below the sum. *)
Lemma us_inv_update u id l t v :
  us_inv u → local_stores u !! id = Some l → 0 ≤ t ≤ max_capacity u → 0 ≤ v →
  t - total_value u ≤ v - local_value l →
  us_inv (set_locals (<[id := set_local_value v l]> (local_stores u)) (set_total t u)).
Proof.
  intros (Ht & Hs & Hl) Hid Htot Hv Hd. unfold us_inv, sum_locals in *. simpl.
  split; [done|]. split.
  - erewrite map_sum_update by done. simpl. lia.
  - intros id' l'. rewrite lookup_insert. case_decide; subst; [|apply Hl].
    intros [= <-]. simpl. split; [done|]. by apply (Hl _ l).
Qed.

Lemma reset_loop_inv l s r s' :
  for_each l (λ entry : Z * LocalUsedSpace,
    on_us (λ u, set_locals (alter (set_local_value 0) entry.1 (local_stores u)) u) ;;;
    on_fs (write_local_to_file (local_record entry.2) 0)) s = (r, s') →
  us_inv s.1 ∧ total_value s.1 = 0 → us_inv s'.1 ∧ total_value s'.1 = 0.
Proof.
  intros Hl Hs. eapply (for_each_inv (λ s : US, us_inv s.1 ∧ total_value s.1 = 0));
    [|exact Hs|exact Hl].
  intros [k x] [u fs] r1 [u1 fs1] _ [Hinv H0]. unfold on_us, on_fs. unfold_m.
  destruct (write_local_to_file _ _ fs) as [? ?]. intros [= _ <- _]. simpl. split; [|done].
  destruct Hinv as (Ht & Hsum & Hloc).
  assert (∀ id l', alter (set_local_value 0) k (local_stores u) !! id = Some l' →
                   0 ≤ local_value l' ∧ id < next_id u) as Hloc'.
  { intros id l'. rewrite lookup_alter_Some. intros [(<- & y & Hy & ->)|[? Hy]]; [|by apply Hloc].
    split; [done|]. by apply (Hloc _ y). }
  repeat split; simpl; try lia.
  - rewrite H0. apply map_sum_nonneg. intros. by eapply Hloc'.
  - by eapply Hloc'.
  - by eapply Hloc'.
Qed.

(** * Histories *)

(** One call on the tracker, with any outcome of its disk accesses. *)
Inductive us_step : US → US → Prop :=
| step_add dir s r s' : add_local_store dir s = (r, s') → us_step s s'
| step_increase id n s r s' : 0 ≤ n → increase id n s = (r, s') → us_step s s'
| step_decrease id n s r s' : 0 ≤ n → decrease id n s = (r, s') → us_step s s'
| step_reset s r s' : reset s = (r, s') → us_step s s'.

Lemma add_local_store_cases `{!EncodingLaws} dir u fs r u' fs' :
  add_local_store dir (u, fs) = (r, (u', fs')) →
  (∃ v, r = Ok (next_id u) ∧ in_u64 v ∧
     u' = mkUsedSpace (max_capacity u) (total_value u)
            (<[next_id u := mkLocal v (join dir USED_SPACE_FILENAME)]> (local_stores u))
            (next_id u + 1)) ∨
  (∃ e, r = Err e ∧ u' = u).
Proof.
  unfold add_local_store, on_fs, on_us, read_or_init_record. unfold_m.
  destruct (io _ fs) as [[[]|e] fs1]; simpl; [|intros; simplify_eq; right; eauto].
  destruct (fs_read_to_end _ fs1) as [[ok buf] fs2].
  destruct (ok && _).
  - destruct (u64_de buf) as [v|e] eqn:Hde; simpl; intros; simplify_eq; [|right; eauto].
    left. exists v. split; [done|]. split; [|done]. by eapply u64_de_range.
  - destruct (io _ fs2) as [[[]|e] fs3]; simpl; intros; simplify_eq; [|right; eauto].
    left. exists 0. split; [done|]. split; [|done]. unfold in_u64, u64_max. lia.
Qed.

(** Registering a store whose directory has no record yet. *)
Lemma add_local_store_fresh dir u fs :
  faults fs = [] → dir ∈ dirs fs → files fs !! join dir USED_SPACE_FILENAME = None →
  add_local_store dir (u, fs) =
    (Ok (next_id u),
     (mkUsedSpace (max_capacity u) (total_value u)
        (<[next_id u := mkLocal 0 (join dir USED_SPACE_FILENAME)]> (local_stores u)) (next_id u + 1),
      set_files (<[join dir USED_SPACE_FILENAME := u64_ser 0]> (files fs)) fs)).
Proof.
  intros Hf Hdir Hnone. unfold add_local_store, read_or_init_record, on_fs, on_us, io. unfold_m.
  unfold fs_open_rw. rewrite syscall_none by done. rewrite parent_join, decide_True by done.
  rewrite Hnone. simpl. unfold fs_read_to_end. rewrite next_fault_none by done. simpl.
  rewrite lookup_insert_eq. simpl. unfold fs_write_all. rewrite next_fault_none by done. simpl.
  unfold set_files. simpl. do 4 f_equal. apply map_eq. intros q.
  rewrite lookup_alter, !lookup_insert. case_decide; [|done]. subst. rewrite decide_True by done.
  simpl. by rewrite write_at_whole, drop_nil, app_nil_r.
Qed.

Lemma us_step_inv `{!EncodingLaws} s s' : us_step s s' → us_inv s.1 → us_inv s'.1.
Proof.
  intros Hstep Hinv. destruct Hstep as [dir [u fs] r [u' fs'] Hop|id n [u fs] r [u' fs'] Hn Hop
    |id n [u fs] r [u' fs'] Hn Hop|[u fs] r s' Hop]; simpl in *.
  - apply add_local_store_cases in Hop as [(v & _ & Hv & ->)|(e & _ & ->)]; [|done].
    destruct Hinv as (Ht & Hs & Hl). unfold in_u64 in Hv.
    assert (local_stores u !! next_id u = None) as Hfresh.
    { destruct (local_stores u !! next_id u) as [l|] eqn:E; [|done]. apply Hl in E. lia. }
    unfold us_inv, sum_locals in *. simpl. rewrite map_sum_insert by done. simpl.
    split; [done|]. split; [lia|]. intros id l. rewrite lookup_insert.
    case_decide; subst; [intros [= <-]; simpl; lia|]. intros Hid%Hl. lia.
  - apply increase_cases in Hop as [(l & _ & Hl & Hmax & _ & _ & -> & _)|(e & _ & -> & _)]; [|done].
    pose proof Hinv as (Ht & _ & Hloc). apply Hloc in Hl as Hl'.
    eapply us_inv_update; eauto; lia.
  - apply decrease_cases in Hop as [(l & _ & Hl & -> & _)|(e & _ & -> & _)]; [|done].
    pose proof Hinv as (Ht & Hs & Hloc). pose proof (Hloc _ _ Hl) as [Hl0 _].
    pose proof (map_sum_delete (λ _ l, local_value l) (local_stores u) id l Hl) as Hdel.
    assert (0 ≤ map_sum (λ _ l, local_value l) (delete id (local_stores u))).
    { apply map_sum_nonneg. intros k v Hk. apply lookup_delete_Some in Hk as [_ Hk%Hloc]. lia. }
    unfold us_inv, sum_locals, saturating_sub in *. simpl. split; [lia|]. split.
    + rewrite (map_sum_update _ _ id l) by done. simpl. lia.
    + intros id' l'. rewrite lookup_insert. case_decide; subst; [|apply Hloc].
      intros [= <-]. simpl. split; [lia|]. by apply (Hloc _ l).
  - unfold reset in Hop. unfold on_us in Hop at 1. unfold_m.
    apply reset_loop_inv in Hop as [? _]; [done|]. simpl. split; [|done].
    destruct Hinv as (Ht & Hs & Hl). unfold us_inv in *. simpl. split; [lia|].
    split; [|done]. change (sum_locals (set_total 0 u)) with (sum_locals u). lia.
Qed.

Lemma us_step_max `{!EncodingLaws} s s' : us_step s s' → max_capacity s'.1 = max_capacity s.1.
Proof.
  intros Hstep. destruct Hstep as [dir [u fs] r [u' fs'] Hop|id n [u fs] r [u' fs'] Hn Hop
    |id n [u fs] r [u' fs'] Hn Hop|[u fs] r s' Hop]; simpl.
  - by apply add_local_store_cases in Hop as [(v & _ & Hv & ->)|(e & _ & ->)].
  - by apply increase_cases in Hop as [(l & _ & Hl & Hmax & _ & _ & -> & _)|(e & _ & -> & _)].
  - by apply decrease_cases in Hop as [(l & _ & Hl & -> & _)|(e & _ & -> & _)].
  - unfold reset in Hop. unfold on_us in Hop at 1. unfold_m.
    eapply (for_each_inv (λ s : US, max_capacity s.1 = max_capacity u)); [| |exact Hop]; [|reflexivity].
    intros [k x] [u1 fs1] r1 [u2 fs2] _ Hmax. unfold on_us, on_fs. unfold_m.
    destruct (write_local_to_file _ _ fs1). by intros [= _ <- _].
Qed.

(** One call that fits, on a disk without faults. *)
Lemma increase_fits id n u fs l :
  faults fs = [] → local_stores u !! id = Some l →
  total_value u + n ≤ max_capacity u → total_value u + n ≤ u64_max → local_value l + n ≤ u64_max →
  ∃ fs', faults fs' = [] ∧
    write_local_to_file (local_record l) (local_value l + n) fs = (Ok tt, fs') ∧
    increase id n (u, fs) =
    (Ok tt, (set_locals (<[id := set_local_value (local_value l + n) l]> (local_stores u))
               (set_total (total_value u + n) u), fs')).
Proof.
  intros Hf Hl Hmax Hcap Hloc. unfold increase, on_fs, on_us. unfold_m. unfold checked_add.
  rewrite (proj2 (Z.leb_le _ _)) by lia. simpl. rewrite bool_decide_false by lia. simpl.
  rewrite Hl. simpl. rewrite (proj2 (Z.leb_le _ _)) by lia. simpl.
  destruct (write_local_none (local_record l) (local_value l + n) fs Hf) as (fs1 & -> & Hf1).
  simpl. exists fs1. auto.
Qed.

Lemma decrease_fits id n u fs l :
  faults fs = [] → local_stores u !! id = Some l → n ≤ total_value u → n ≤ local_value l →
  ∃ fs', faults fs' = [] ∧
    write_local_to_file (local_record l) (local_value l - n) fs = (Ok tt, fs') ∧
    decrease id n (u, fs) =
    (Ok tt, (set_locals (<[id := set_local_value (local_value l - n) l]> (local_stores u))
               (set_total (total_value u - n) u), fs')).
Proof.
  intros Hf Hl Ht Hloc. unfold decrease, on_fs, on_us. unfold_m. rewrite Hl. simpl.
  unfold saturating_sub. rewrite !Z.max_r by lia.
  destruct (write_local_none (local_record l) (local_value l - n) fs Hf) as (fs1 & -> & Hf1).
  simpl. exists fs1. auto.
Qed.

(** Runs of increases and of decreases on a disk without faults. *)
Lemma increase_run id u fs l ns :
  faults fs = [] → local_stores u !! id = Some l → Forall (λ n, 0 ≤ n) ns →
  total_value u + sum_Z ns ≤ max_capacity u → max_capacity u ≤ u64_max →
  local_value l + sum_Z ns ≤ u64_max →
  ∃ fs', faults fs' = [] ∧ for_each ns (increase id) (u, fs) =
    (Ok tt, (set_locals (<[id := set_local_value (local_value l + sum_Z ns) l]> (local_stores u))
               (set_total (total_value u + sum_Z ns) u), fs')).
Proof.
  intros Hf Hl Hns. revert u fs l Hf Hl.
  induction Hns as [|n ns Hn Hns IH]; intros u fs l Hf Hl Hmax Hcap Hloc; simpl in *.
  - exists fs. split; [done|]. rewrite !Z.add_0_r. unfold ret, set_locals, set_total, set_local_value.
    destruct u, l. simpl in *. by rewrite insert_id.
  - pose proof (sum_Z_nonneg ns Hns).
    destruct (increase_fits id n u fs l) as (fs1 & Hf1 & _ & Hstep); [done..|lia|lia|lia|].
    unfold bind at 1. rewrite Hstep.
    destruct (IH (set_locals (<[id := set_local_value (local_value l + n) l]> (local_stores u))
      (set_total (total_value u + n) u)) fs1 (set_local_value (local_value l + n) l) Hf1)
      as (fs2 & Hf2 & Hrun); simpl; [apply lookup_insert_eq|lia..|].
    exists fs2. split; [done|]. rewrite Hrun.
    simpl. unfold set_locals, set_total, set_local_value. simpl.
    by rewrite insert_insert_eq, !Z.add_assoc.
Qed.

Lemma decrease_run id u fs l ns :
  faults fs = [] → local_stores u !! id = Some l → Forall (λ n, 0 ≤ n) ns →
  sum_Z ns ≤ total_value u → sum_Z ns ≤ local_value l →
  ∃ fs', faults fs' = [] ∧ for_each ns (decrease id) (u, fs) =
    (Ok tt, (set_locals (<[id := set_local_value (local_value l - sum_Z ns) l]> (local_stores u))
               (set_total (total_value u - sum_Z ns) u), fs')).
Proof.
  intros Hf Hl Hns. revert u fs l Hf Hl.
  induction Hns as [|n ns Hn Hns IH]; intros u fs l Hf Hl Htot Hloc; simpl in *.
  - exists fs. split; [done|]. rewrite !Z.sub_0_r. unfold ret, set_locals, set_total, set_local_value.
    destruct u, l. simpl in *. by rewrite insert_id.
  - pose proof (sum_Z_nonneg ns Hns).
    destruct (decrease_fits id n u fs l) as (fs1 & Hf1 & _ & Hstep); [done..|lia|lia|].
    unfold bind at 1. rewrite Hstep.
    destruct (IH (set_locals (<[id := set_local_value (local_value l - n) l]> (local_stores u))
      (set_total (total_value u - n) u)) fs1 (set_local_value (local_value l - n) l) Hf1)
      as (fs2 & Hf2 & Hrun); simpl; [apply lookup_insert_eq|lia..|].
    exists fs2. split; [done|]. rewrite Hrun.
    simpl. unfold set_locals, set_total, set_local_value. simpl.
    by rewrite insert_insert_eq, !Z.sub_add_distr.
Qed.

(** * Properties *)

(** C2: whatever calls are made on a fresh tracker, in any order and with any
    disk faults, the total never exceeds the capacity, is never negative,
    and never exceeds the sum of what the stores record. *)
Theorem us_reachable_within_capacity `{!EncodingLaws} cap fs s :
  0 ≤ cap → rtc us_step (us_new cap, fs) s →
  0 ≤ total_value s.1 ≤ cap ∧ total_value s.1 ≤ sum_locals s.1.
Proof.
  intros Hcap Hsteps.
  enough (us_inv s.1 ∧ max_capacity s.1 = cap) as [(Ht & Hs & _) Hmax] by (rewrite <- Hmax; auto).
  eapply (rtc_ind_r (λ s, us_inv s.1 ∧ max_capacity s.1 = cap)); [| |exact Hsteps].
  - split; [|done]. split; [simpl; lia|]. unfold sum_locals. simpl.
    rewrite map_sum_empty. split; [lia|]. intros id l. by rewrite lookup_empty.
  - intros s1 s2 _ Hstep [Hinv Hmax]. split; [by eapply us_step_inv|].
    by rewrite (us_step_max _ _ Hstep).
Qed.

(** The outcome of [increase] on every branch, when the disk does not
    fail: the error returned and that nothing changes, or exactly the two
    counters of that store grow and its file records the new value. *)
Theorem increase_spec id n u fs :
  faults fs = [] →
  (∀ l, local_stores u !! id = Some l → is_Some (files fs !! local_record l)) →
  let '(r, (u', fs')) := increase id n (u, fs) in
  match local_stores u !! id with
  | Some l =>
      if bool_decide (total_value u + n ≤ Z.min u64_max (max_capacity u) ∧
                      local_value l + n ≤ u64_max)
      then r = Ok tt ∧ total u' = total u + n ∧
           (∀ id', local u' id' = local u id' + if decide (id' = id) then n else 0) ∧
           files fs' !! local_record l = Some (u64_ser (local_value l + n))
      else r = Err NotEnoughSpace ∧ u' = u ∧ fs' = fs
  | None =>
      r = Err (if bool_decide (total_value u + n ≤ Z.min u64_max (max_capacity u))
               then NoStoreId else NotEnoughSpace) ∧ u' = u ∧ fs' = fs
  end.
Proof.
  intros Hf Hfile. destruct (increase id n (u, fs)) as [r [u' fs']] eqn:Hi.
  revert Hi. unfold increase, on_fs, on_us. unfold_m. unfold checked_add.
  destruct (Z.leb_spec (total_value u + n) u64_max) as [Ht|Ht]; simpl.
  2:{ intros; simplify_eq. destruct (local_stores u' !! id); rewrite bool_decide_false by lia; auto. }
  case_bool_decide as Hcap; simpl.
  { intros; simplify_eq. destruct (local_stores u' !! id); rewrite bool_decide_false by lia; auto. }
  destruct (local_stores u !! id) as [l|] eqn:Hl; simpl.
  2:{ intros; simplify_eq. rewrite bool_decide_true by lia. auto. }
  destruct (Z.leb_spec (local_value l + n) u64_max) as [Hln|Hln]; simpl.
  2:{ intros; simplify_eq. rewrite bool_decide_false by lia. auto. }
  destruct (write_local_none (local_record l) (local_value l + n) fs Hf) as (fs1 & Hw & _).
  rewrite Hw. simpl. intros; simplify_eq. rewrite bool_decide_true by lia.
  split; [done|]. split; [done|]. split.
  - intros id'. unfold local. simpl. rewrite lookup_insert.
    case_decide; case_decide; subst; rewrite ?Hl; simpl; try congruence; lia.
  - by eapply write_local_ok, Hfile.
Qed.

(** Writers may interleave: a batch of increases of one store followed by
    the same amounts released in any other order restores the tracker. *)
Theorem multiwriter_restores id u fs l ns ns' :
  faults fs = [] → local_stores u !! id = Some l → Forall (λ n, 0 ≤ n) ns → ns' ≡ₚ ns →
  0 ≤ total_value u → 0 ≤ local_value l →
  total_value u + sum_Z ns ≤ max_capacity u → max_capacity u ≤ u64_max →
  local_value l + sum_Z ns ≤ u64_max →
  ∃ fs', (for_each ns (increase id) ;;; for_each ns' (decrease id)) (u, fs) = (Ok tt, (u, fs')).
Proof.
  intros Hf Hl Hns Hp Ht Hv Hmax Hcap Hloc.
  destruct (increase_run id u fs l ns) as (fs1 & Hf1 & Hinc); [done..|].
  unfold bind. rewrite Hinc.
  destruct (decrease_run id (set_locals (<[id := set_local_value (local_value l + sum_Z ns) l]>
    (local_stores u)) (set_total (total_value u + sum_Z ns) u)) fs1
    (set_local_value (local_value l + sum_Z ns) l) ns') as (fs2 & _ & Hdec).
  - done.
  - apply lookup_insert_eq.
  - by rewrite Hp.
  - simpl. rewrite Hp. lia.
  - simpl. rewrite Hp. lia.
  - rewrite Hdec. exists fs2. rewrite Hp. simpl. unfold set_locals, set_total, set_local_value. simpl.
    rewrite insert_insert_eq. destruct u, l. simpl in *.
    by rewrite !Z.add_simpl_r, insert_id.
Qed.

(** C36: reopening a store restores its own counter from the file but leaves
    the total at zero, so the tracker then accepts any amount up to the full
    capacity although [v] bytes are already used: the sum of the stores can
    exceed the capacity. *)
Theorem reopened_store_not_in_total `{!EncodingLaws} cap dir fs v n :
  faults fs = [] → dir ∈ dirs fs →
  files fs !! join dir USED_SPACE_FILENAME = Some (u64_ser v) → in_u64 v →
  0 ≤ n ≤ cap → cap ≤ u64_max → v + n ≤ u64_max →
  ∃ u fs1 u' fs2,
    add_local_store dir (us_new cap, fs) = (Ok 0, (u, fs1)) ∧
    local u 0 = v ∧ total u = 0 ∧
    increase 0 n (u, fs1) = (Ok tt, (u', fs2)) ∧ sum_locals u' = v + n.
Proof.
  intros Hf Hdir Hfile Hv Hn Hcap Hvn.
  unfold add_local_store, read_or_init_record, fs_open_rw, fs_read_to_end, on_fs, on_us.
  unfold_m. unfold io, syscall. rewrite next_fault_none by done. rewrite decide_True by (by rewrite parent_join).
  rewrite Hfile. simpl. rewrite next_fault_none by done. rewrite Hfile. simpl.
  rewrite bool_decide_false by apply u64_ser_nonempty. simpl. rewrite u64_ser_de by done. simpl.
  eexists _, fs. set (u := mkUsedSpace _ _ _ _).
  destruct (increase_run 0 u fs (mkLocal v (join dir USED_SPACE_FILENAME)) [n]) as (fs2 & _ & Hrun);
    simpl; rewrite ?Z.add_0_r; try done; [by repeat constructor; lia|lia|].
  simpl in Hrun. unfold bind in Hrun.
  destruct (increase 0 n (u, fs)) as [[[]|e] [u' fs']] eqn:Hinc; simplify_eq/=.
  eexists _, fs2. split; [done|]. split; [done|]. split; [done|]. split.
  - unfold ret in Hrun. by simplify_eq.
  - unfold sum_locals. simpl. rewrite insert_insert_eq, map_sum_insert by done. simpl.
    rewrite map_sum_empty. lia.
Qed.
End used_space.

Module Witness.
Import ToyCrates.

(** A directory ["d"], empty. *)
Definition fs0 : Fs := mkFs ∅ {[ ["d"] ]} [].
(** The same with a record of 70 bytes used. *)
Definition fs70 : Fs := mkFs {[ ["d"; "used_space"] := u64_ser 70 ]} {[ ["d"] ]} [].
Definition opened : US := (add_local_store ["d"] (us_new 100, fs0)).2.
(** The disk fails on the second system call of the increase. *)
Definition opened_faulty : US := (opened.1, mkFs (files opened.2) (dirs opened.2) [None; Some 0%nat]).

Lemma us_reachable_within_capacity_witness :
  let s := (increase 0 60 (increase 0 50 opened).2).2 in
  rtc us_step (us_new 100, fs0) s ∧ 0 ≤ total_value s.1 ≤ 100 ∧ total_value s.1 ≤ sum_locals s.1.
Proof.
  intros s.
  assert (rtc us_step (us_new 100, fs0) s) as Hs.
  { eapply rtc_l; [exact (step_add ["d"] _ _ _ (surjective_pairing _))|].
    eapply rtc_l; [refine (step_increase 0 50 _ _ _ _ (surjective_pairing _)); lia|].
    apply rtc_once. refine (step_increase 0 60 _ _ _ _ (surjective_pairing _)). lia. }
  split; [exact Hs|]. apply (us_reachable_within_capacity 100 fs0 s); [lia|exact Hs].
Defined.

Lemma opened_local : local_stores opened.1 !! 0 = Some (mkLocal 0 ["d"; "used_space"]).
Proof. vm_compute. reflexivity. Qed.

Lemma increase_spec_witness :
  let '(r, (u', _)) := increase 0 60 (opened.1, opened.2) in r = Ok tt ∧ total u' = total opened.1 + 60.
Proof.
  assert (∀ l, local_stores opened.1 !! 0 = Some l → is_Some (files opened.2 !! local_record l)) as Hl.
  { intros l. rewrite opened_local. intros [= <-]. vm_compute. eauto. }
  pose proof (increase_spec 0 60 opened.1 opened.2 eq_refl Hl) as Hspec.
  rewrite opened_local in Hspec. rewrite bool_decide_true in Hspec by (vm_compute; split; congruence).
  destruct (increase 0 60 (opened.1, opened.2)) as [r [u' fs']]. tauto.
Defined.

Lemma multiwriter_restores_witness :
  ∃ fs', (for_each [10; 20; 30] (increase 0) ;;; for_each [30; 10; 20] (decrease 0)) opened
         = (Ok tt, (opened.1, fs')).
Proof.
  apply (multiwriter_restores 0 opened.1 opened.2 (mkLocal 0 ["d"; "used_space"]) [10; 20; 30] [30; 10; 20]);
    try reflexivity; try (vm_compute; congruence).
  - by repeat constructor.
  - change [30; 10; 20] with ([30] ++ [10; 20]). apply (Permutation_app_comm [30] [10; 20]).
Defined.

Lemma reopened_store_not_in_total_witness :
  ∃ u fs1 u' fs2,
    add_local_store ["d"] (us_new 100, fs70) = (Ok 0, (u, fs1)) ∧
    local u 0 = 70 ∧ total u = 0 ∧
    increase 0 90 (u, fs1) = (Ok tt, (u', fs2)) ∧ sum_locals u' = 160.
Proof.
  apply (reopened_store_not_in_total 100 ["d"] fs70 70 90);
    try reflexivity; try (unfold in_u64, u64_max; lia).
Defined.
End Witness.
