(* ===== verification/ChunkStore.v ===== *)
(** [src/chunk_store]: a disk-based store of chunks, one file per chunk named
    by the hex of its serialised id, beside the [used_space] record.

    The traits [Chunk], [ChunkId] and [Subdir] are classes, with the
    repository's four instances.  [serde] and [bincode] are the parameter
    [Serde]. *)

From S2P Require Import Prelude Crates Messages Disk Toy F64 UsedSpace.

(** Where the files of a type of chunk are: trait [Subdir]. *)
Class Subdir (T : Type) := subdir : string.

Section traits.
Context `{MO : MessagingOps}.

(** trait [ChunkId]; its bound [Serialize + DeserializeOwned] is a separate
    argument of the code that needs it. *)
Class ChunkId (Id : Type) := {
  chunk_id_eq_dec :: EqDecision Id;
  to_data_address : Id → DataAddress;
}.

(** trait [Chunk] *)
Class Chunk (T Id : Type) := chunk_id : T → Id.

(** ** The instances: immutable.rs, mutable.rs, sequence.rs, register.rs *)

#[export] Instance BlobAddress_chunk_id : ChunkId BlobAddress :=
  {| to_data_address := BlobAddr |}.
Definition blob_id (b : Blob) : BlobAddress :=
  match b with
  | Public chunk => pub_blob_address chunk
  | Private chunk => priv_blob_address chunk
  end.
#[export] Instance Blob_chunk : Chunk Blob BlobAddress := blob_id.

#[export] Instance MapAddress_chunk_id : ChunkId MapAddress :=
  {| to_data_address := MapAddr |}.
Definition map_id (m : Map) : MapAddress :=
  match m with
  | Seq chunk => seq_map_address chunk
  | Unseq chunk => unseq_map_address chunk
  end.
#[export] Instance Map_chunk : Chunk Map MapAddress := map_id.

#[export] Instance SequenceAddress_chunk_id : ChunkId SequenceAddress :=
  {| to_data_address := SequenceAddr |}.
#[export] Instance Sequence_chunk : Chunk Sequence SequenceAddress := sequence_address.

#[export] Instance RegisterAddress_chunk_id : ChunkId RegisterAddress :=
  {| to_data_address := RegisterAddr |}.
#[export] Instance Register_chunk : Chunk Register RegisterAddress := register_address.

Definition blob_subdir : Subdir Blob := "immutable".
Definition map_subdir : Subdir Map := "mutable".
Definition sequence_subdir : Subdir Sequence := "sequence".
Definition register_subdir : Subdir Register := "register".
#[export] Existing Instances blob_subdir map_subdir sequence_subdir register_subdir.
End traits.

Section chunk_store.
Context `{MO : MessagingOps}.
Context {T Id : Type} `{CI : !ChunkId Id} `{SId : !Serde Id} `{CH : !Chunk T Id} `{ST : !Serde T}.

Definition CHUNK_STORE_DIR : string := "chunks".
Definition MAX_CHUNK_FILE_NAME_LENGTH : nat := 104.

Record ChunkStore : Type := mkChunkStore {
  cs_dir : path;
  cs_used_space : UsedSpace;
  cs_id : Z;
}.
Definition CS : Type := ChunkStore * Fs.

Definition on_used {A} (m : M Error US A) : M Error CS A :=
  zoom (λ s, (cs_used_space s.1, s.2))
       (λ t s, (mkChunkStore (cs_dir s.1) t.1 (cs_id s.1), t.2)) m.
Definition on_disk {A} (m : M Error Fs A) : M Error CS A :=
  zoom snd (λ fs s, (s.1, fs)) m.

(** ["0".repeat(n)] *)
Fixpoint zeros (n : nat) : string :=
  match n with O => "" | S n => String (Ascii.ascii_of_nat 48) (zeros n) end.

(** [create_new_root] *)
Definition create_new_root (root : path) : M Error Fs unit :=
  io (fs_create_dir_all root) ;;;
  io (fs_create (join root (zeros MAX_CHUNK_FILE_NAME_LENGTH))) ;;;
  io (fs_remove_file (join root (zeros MAX_CHUNK_FILE_NAME_LENGTH))).

(** [ChunkStore::new] *)
Definition cs_new `{!Subdir T} (root : path) (max_capacity : Z) : M Error Fs ChunkStore :=
  let dir := join (join root CHUNK_STORE_DIR) subdir in
  let! r := try (io (fs_read dir)) in
  (if is_ok r then ret tt else create_new_root dir) ;;;
  λ fs, match add_local_store dir (us_new max_capacity, fs) with
        | (Ok id, (used_space, fs')) => (Ok (mkChunkStore dir used_space id), fs')
        | (Err e, (_, fs')) => (Err e, fs')
        end.

(** [file_path] *)
Definition file_path (st : ChunkStore) (id : Id) : Result path :=
  res_bind (map_err Bincode (ser id)) (λ bytes, Ok (join (cs_dir st) (hex_encode bytes))).

(** [do_delete] *)
Definition do_delete (p : path) : M Error CS unit :=
  let! metadata := try (on_disk (io (fs_metadata p))) in
  match metadata with
  | Ok len =>
      let! s := get in
      on_used (decrease (cs_id s.1) len) ;;;
      on_disk (io (fs_remove_file p))
  | Err _ => ret tt
  end.

(** [File::create(..).and_then(|mut file| { file.write_all(..)?; file.sync_all() })] *)
Definition write_chunk_file (p : path) (data : list byte) : M IoError Fs unit :=
  fs_create p ;;;
  fs_write_all p 0 data ;;;
  fs_sync_all p.

(** [put] *)
Definition put (chunk : T) : M Error CS unit :=
  let! serialised_chunk := lift (map_err Bincode (ser chunk)) in
  let consumed_space := Z.of_nat (length serialised_chunk) in
  let! s := get in
  let! p := lift (file_path s.1 (chunk_id chunk)) in
  do_delete p ;;;
  on_used (increase (cs_id s.1) consumed_space) ;;;
  let! res := try (on_disk (io (write_chunk_file p serialised_chunk))) in
  match res with
  | Ok _ => ret tt
  | Err e => on_used (decrease (cs_id s.1) consumed_space) ;;; throw e
  end.

(** [delete] *)
Definition delete (id : Id) : M Error CS unit :=
  let! s := get in
  let! p := lift (file_path s.1 id) in
  do_delete p.

(** [total_used_space], [used_space_ratio] *)
Definition total_used_space (st : ChunkStore) : Z := total (cs_used_space st).
Definition used_space_ratio (st : ChunkStore) : f64 :=
  let used := total_used_space st in
  let total := max_capacity (cs_used_space st) in
  f64_div (f64_of_Z used) (f64_of_Z total).

(** [get] *)
Definition get_chunk (id : Id) : M Error CS T :=
  let! s := get in
  let! p := lift (file_path s.1 id) in
  let! opened := try (on_disk (io (fs_open p))) in
  match opened with
  | Err _ => throw (NoSuchChunk (to_data_address id))
  | Ok _ =>
      let! contents := on_disk (λ fs, let '((could_read, buf), fs') := fs_read_to_end p fs in
                                      (if could_read then Ok buf else Err (Io IoOther), fs')) in
      let! chunk := lift (map_err Bincode (de contents)) in
      if bool_decide (chunk_id chunk = id) then ret chunk
      else throw (NoSuchChunk (to_data_address id))
  end.

(** [has] *)
Definition has (id : Id) : M Error CS bool :=
  let! s := get in
  match file_path s.1 id with
  | Ok p => let! m := try (on_disk (io (fs_metadata p))) in ret (is_ok m)
  | Err _ => ret false
  end.

(** [to_chunk_id] *)
Definition to_chunk_id (file_name : string) : option Id :=
  match hex_decode file_name with
  | Some bytes => res_ok (de bytes)
  | None => None
  end.

(** [keys] *)
Definition keys : M Error CS (list Id) :=
  λ s, match fs_read_dir (cs_dir s.1) s.2 with
       | (Ok names, fs1) =>
           let '(names, fs2) := fs_entries names fs1 in
           (Ok (omap to_chunk_id names), (s.1, fs2))
       | (Err _, fs1) => (Ok [], (s.1, fs1))
       end.

(** * The invariant: the tracker counts the bytes of the chunk files *)

(** What a file counts for: the chunks of [dir] by their length, the record
    and the files elsewhere for nothing. *)
Definition chunk_weight (dir p : path) (c : list byte) : Z :=
  match child_name dir p with
  | Some n => if decide (n = USED_SPACE_FILENAME) then 0 else Z.of_nat (length c)
  | None => 0
  end.
Definition chunk_bytes (dir : path) (fs : Fs) : Z := map_sum (chunk_weight dir) (files fs).
Definition size_at (fs : Fs) (p : path) : Z :=
  match files fs !! p with Some c => Z.of_nat (length c) | None => 0 end.
Definition record_path (s : CS) : path := join (cs_dir s.1) USED_SPACE_FILENAME.
Definition capacity (s : CS) : Z := max_capacity (cs_used_space s.1).

Record store_inv (s : CS) : Prop := mkStoreInv {
  inv_dir : cs_dir s.1 ∈ dirs s.2;
  inv_record : is_Some (files s.2 !! record_path s);
  inv_local : local_stores (cs_used_space s.1) !! cs_id s.1 =
              Some (mkLocal (chunk_bytes (cs_dir s.1) s.2) (record_path s));
  inv_total : total_value (cs_used_space s.1) = chunk_bytes (cs_dir s.1) s.2;
  inv_max : chunk_bytes (cs_dir s.1) s.2 ≤ capacity s ≤ u64_max;
}.

(** Two states of the same store. *)
Definition same_store (s s' : CS) : Prop :=
  cs_dir s'.1 = cs_dir s.1 ∧ cs_id s'.1 = cs_id s.1 ∧ capacity s' = capacity s.

Lemma chunk_weight_join dir n c :
  n ≠ USED_SPACE_FILENAME → chunk_weight dir (join dir n) c = Z.of_nat (length c).
Proof.
  intros Hn. unfold chunk_weight. rewrite (proj2 (child_name_Some dir _ n) eq_refl).
  by rewrite decide_False.
Qed.

Lemma chunk_weight_record dir c : chunk_weight dir (join dir USED_SPACE_FILENAME) c = 0.
Proof.
  unfold chunk_weight.
  rewrite (proj2 (child_name_Some dir _ USED_SPACE_FILENAME) eq_refl). by rewrite decide_True.
Qed.

Lemma chunk_weight_nonneg dir p c : 0 ≤ chunk_weight dir p c.
Proof. unfold chunk_weight. repeat case_match; lia. Qed.

Lemma chunk_bytes_nonneg dir fs : 0 ≤ chunk_bytes dir fs.
Proof. apply map_sum_nonneg. intros. apply chunk_weight_nonneg. Qed.

Lemma chunk_bytes_set_record dir c fs fs' :
  files fs' = <[join dir USED_SPACE_FILENAME := c]> (files fs) →
  chunk_bytes dir fs' = chunk_bytes dir fs.
Proof.
  intros Hf. unfold chunk_bytes. rewrite Hf, map_sum_set.
  destruct (files fs !! _); rewrite ?chunk_weight_record; lia.
Qed.

Lemma chunk_bytes_set dir n c fs fs' :
  n ≠ USED_SPACE_FILENAME → files fs' = <[join dir n := c]> (files fs) →
  chunk_bytes dir fs' = chunk_bytes dir fs - size_at fs (join dir n) + Z.of_nat (length c).
Proof.
  intros Hn Hf. unfold chunk_bytes, size_at. rewrite Hf, map_sum_set.
  rewrite chunk_weight_join by done. case_match; rewrite ?chunk_weight_join; done.
Qed.

Lemma chunk_bytes_delete dir n fs fs' :
  n ≠ USED_SPACE_FILENAME → files fs' = base.delete (join dir n) (files fs) →
  chunk_bytes dir fs' = chunk_bytes dir fs - size_at fs (join dir n).
Proof.
  intros Hn Hf. unfold chunk_bytes, size_at. rewrite Hf, map_sum_delete_weight.
  case_match; rewrite ?chunk_weight_join; done.
Qed.

Lemma size_at_le dir n fs :
  n ≠ USED_SPACE_FILENAME → 0 ≤ size_at fs (join dir n) ≤ chunk_bytes dir fs.
Proof.
  intros Hn. unfold size_at. destruct (files fs !! join dir n) as [c|] eqn:Hc.
  - split; [lia|]. rewrite <- (chunk_weight_join dir n c Hn).
    apply (map_sum_lookup_le (chunk_weight dir)); [|done]. intros. apply chunk_weight_nonneg.
  - split; [lia|]. apply chunk_bytes_nonneg.
Qed.

Lemma record_ne_chunk dir n :
  n ≠ USED_SPACE_FILENAME → join dir n ≠ join dir USED_SPACE_FILENAME.
Proof. intros Hn [_ ?]%join_inj. done. Qed.

(** Releasing and reserving space on a disk without faults. *)
Lemma on_used_decrease s n :
  store_inv s → faults s.2 = [] → 0 ≤ n ≤ chunk_bytes (cs_dir s.1) s.2 →
  ∃ s', on_used (decrease (cs_id s.1) n) s = (Ok tt, s') ∧ faults s'.2 = [] ∧ same_store s s' ∧
    dirs s'.2 = dirs s.2 ∧
    files s'.2 = <[record_path s := u64_ser (chunk_bytes (cs_dir s.1) s.2 - n)]> (files s.2) ∧
    local_stores (cs_used_space s'.1) !! cs_id s.1 =
      Some (mkLocal (chunk_bytes (cs_dir s.1) s.2 - n) (record_path s)) ∧
    total_value (cs_used_space s'.1) = chunk_bytes (cs_dir s.1) s.2 - n.
Proof.
  intros Hs Hf Hn. destruct s as [st fs]. destruct Hs as [Hd Hr Hl Ht Hm]. simpl in *.
  edestruct (decrease_fits (cs_id st) n (cs_used_space st) fs) as (fs' & Hf' & Hw & Hdec);
    [done|exact Hl|simpl; lia..|].
  unfold on_used, zoom. simpl. rewrite Hdec. simpl.
  apply write_local_files in Hw as [Hfiles Hdirs]; [|done].
  eexists. split; [done|]. simpl. repeat split; try done.
  - by rewrite lookup_insert_eq.
  - lia.
Qed.

Lemma on_used_increase s n :
  store_inv s → faults s.2 = [] → 0 ≤ n → chunk_bytes (cs_dir s.1) s.2 + n ≤ capacity s →
  ∃ s', on_used (increase (cs_id s.1) n) s = (Ok tt, s') ∧ faults s'.2 = [] ∧ same_store s s' ∧
    dirs s'.2 = dirs s.2 ∧
    files s'.2 = <[record_path s := u64_ser (chunk_bytes (cs_dir s.1) s.2 + n)]> (files s.2) ∧
    local_stores (cs_used_space s'.1) !! cs_id s.1 =
      Some (mkLocal (chunk_bytes (cs_dir s.1) s.2 + n) (record_path s)) ∧
    total_value (cs_used_space s'.1) = chunk_bytes (cs_dir s.1) s.2 + n.
Proof.
  intros Hs Hf Hn Hcap. destruct s as [st fs]. destruct Hs as [Hd Hr Hl Ht Hm].
  unfold capacity in *. simpl in *.
  edestruct (increase_fits (cs_id st) n (cs_used_space st) fs) as (fs' & Hf' & Hw & Hinc);
    [done|exact Hl|simpl; lia..|].
  unfold on_used, zoom. simpl. rewrite Hinc. simpl.
  apply write_local_files in Hw as [Hfiles Hdirs]; [|done].
  eexists. split; [done|]. simpl. repeat split; try done.
  - by rewrite lookup_insert_eq.
  - lia.
Qed.

(** Too much to reserve: nothing changes. *)
Lemma on_used_increase_full s n :
  store_inv s → capacity s < chunk_bytes (cs_dir s.1) s.2 + n →
  on_used (increase (cs_id s.1) n) s = (Err NotEnoughSpace, s).
Proof.
  intros Hs Hcap. destruct s as [[d u i] fs]. destruct Hs as [Hd Hr Hl Ht Hm].
  unfold capacity in *. simpl in *. unfold on_used, increase. unfold_m.
  unfold checked_add, ok_or. rewrite Ht. destruct (_ <=? _); simpl; [|done].
  by rewrite bool_decide_true by lia.
Qed.

(** [do_delete] of a chunk file: the file is gone and its bytes released. *)
Lemma do_delete_none s n :
  store_inv s → faults s.2 = [] → n ≠ USED_SPACE_FILENAME →
  ∃ s', do_delete (join (cs_dir s.1) n) s = (Ok tt, s') ∧
    store_inv s' ∧ faults s'.2 = [] ∧ same_store s s' ∧
    chunk_bytes (cs_dir s.1) s'.2 =
      chunk_bytes (cs_dir s.1) s.2 - size_at s.2 (join (cs_dir s.1) n) ∧
    files s'.2 !! join (cs_dir s.1) n = None ∧
    (∀ q, q ≠ join (cs_dir s.1) n → q ≠ record_path s → files s'.2 !! q = files s.2 !! q).
Proof.
  intros Hs Hf Hn. set (p := join (cs_dir s.1) n).
  assert (p ≠ record_path s) as Hpr by by apply record_ne_chunk.
  unfold do_delete, fs_metadata, on_disk, io. unfold bind at 1. unfold try, zoom.
  rewrite syscall_none by done. unfold size_at.
  destruct (files s.2 !! p) as [c|] eqn:Hc; simpl; rewrite <- surjective_pairing.
  2:{ exists s. unfold ret. repeat split; try done; try apply Hs. lia. }
  unfold bind at 1, get.
  pose proof (size_at_le (cs_dir s.1) n s.2 Hn) as Hle. fold p in Hle. unfold size_at in Hle.
  rewrite Hc in Hle.
  destruct (on_used_decrease s (Z.of_nat (length c)) Hs Hf Hle)
    as (s1 & Hdec & Hf1 & (Hd & Hi & Hcap) & Hdirs & Hfiles & Hloc & Htot).
  assert (files s1.2 !! p = Some c) as Hc1 by (by rewrite Hfiles, lookup_insert_ne).
  unfold bind. rewrite Hdec. unfold fs_remove_file. rewrite syscall_none by done.
  rewrite Hc1. simpl.
  eexists. split; [done|].
  assert (chunk_bytes (cs_dir s.1) (set_files (base.delete p (files s1.2)) s1.2) =
          chunk_bytes (cs_dir s.1) s.2 - Z.of_nat (length c)) as Hb.
  { rewrite (chunk_bytes_delete (cs_dir s.1) n s1.2) by done. fold p.
    rewrite (chunk_bytes_set_record (cs_dir s.1) _ s.2 s1.2) by (rewrite Hfiles; done).
    unfold size_at. rewrite Hfiles, lookup_insert_ne by done. by rewrite Hc. }
  repeat split; simpl; try done.
  - rewrite Hd, Hdirs. apply Hs.
  - unfold record_path in *. simpl. rewrite Hd, lookup_delete_ne, Hfiles, lookup_insert_eq by done. eauto.
  - unfold record_path. simpl. rewrite Hi, Hd, Hb. exact Hloc.
  - by rewrite Hd, Hb.
  - rewrite Hd, Hb. unfold capacity in *. simpl. rewrite Hcap.
    pose proof (inv_max _ Hs) as Hm. unfold capacity in Hm. lia.
  - unfold capacity in *. simpl. rewrite Hcap. by apply (inv_max _ Hs).
  - by rewrite lookup_delete_eq.
  - intros q Hq Hqr. by rewrite lookup_delete_ne, Hfiles, lookup_insert_ne by done.
Qed.

Lemma write_chunk_file_none s n data :
  faults s.2 = [] → cs_dir s.1 ∈ dirs s.2 →
  on_disk (io (write_chunk_file (join (cs_dir s.1) n) data)) s =
  (Ok tt, (s.1, set_files (<[join (cs_dir s.1) n := data]> (files s.2)) s.2)).
Proof.
  destruct s as [st fs]. simpl. intros Hf Hd.
  unfold on_disk, write_chunk_file, fs_create, fs_sync_all, fs_write_all, io, zoom, bind. simpl.
  rewrite syscall_none by done. rewrite parent_join, decide_True by done.
  rewrite next_fault_none by done. rewrite syscall_none by done. simpl.
  unfold set_files. simpl. do 3 f_equal. apply map_eq. intros q.
  rewrite lookup_alter, !lookup_insert. case_decide; [|by repeat case_decide].
  subst. rewrite decide_True by done. simpl. by rewrite write_at_whole, drop_nil, app_nil_r.
Qed.

Context `{EL : !EncodingLaws} `{SIL : !SerdeLaws Id} `{STL : !SerdeLaws T}.

Lemma hex_name_ne b : hex_encode b ≠ USED_SPACE_FILENAME.
Proof.
  intros Heq. pose proof (hex_roundtrip b) as Hr. rewrite Heq in Hr.
  unfold USED_SPACE_FILENAME in Hr. by rewrite hex_decode_used_space in Hr.
Qed.

Lemma hex_encode_inj b b' : hex_encode b = hex_encode b' → b = b'.
Proof.
  intros Heq. apply (f_equal hex_decode) in Heq. rewrite !hex_roundtrip in Heq. by simplify_eq.
Qed.

Lemma ser_inj (id id' : Id) b : ser id = Ok b → ser id' = Ok b → id = id'.
Proof. intros H1%ser_de H2%ser_de. congruence. Qed.

Lemma file_path_inj st id id' p : file_path st id = Ok p → file_path st id' = Ok p → id = id'.
Proof.
  unfold file_path. destruct (ser id) as [b|] eqn:Hb, (ser id') as [b'|] eqn:Hb'; simpl; try done.
  intros [= <-] [= [_ ->%hex_encode_inj]%join_inj]. by eapply ser_inj.
Qed.

Lemma file_path_Ok st id p :
  file_path st id = Ok p → ∃ n, p = join (cs_dir st) n ∧ n ≠ USED_SPACE_FILENAME.
Proof.
  unfold file_path. destruct (ser id) as [b|]; simpl; [|done].
  intros [= <-]. exists (hex_encode b). split; [done|]. apply hex_name_ne.
Qed.

Lemma same_store_file_path s s' id : same_store s s' → file_path s'.1 id = file_path s.1 id.
Proof. intros (Hd & _ & _). unfold file_path. by rewrite Hd. Qed.

(** [put] on a disk without faults, on every branch. *)
Lemma put_none s c b p :
  store_inv s → faults s.2 = [] → ser c = Ok b → file_path s.1 (chunk_id c) = Ok p →
  ∃ r s', put c s = (r, s') ∧ store_inv s' ∧ faults s'.2 = [] ∧ same_store s s' ∧
    (∀ q, q ≠ p → q ≠ record_path s → files s'.2 !! q = files s.2 !! q) ∧
    if bool_decide (chunk_bytes (cs_dir s.1) s.2 - size_at s.2 p + Z.of_nat (length b) ≤ capacity s)
    then r = Ok tt ∧ files s'.2 !! p = Some b
    else r = Err NotEnoughSpace ∧ files s'.2 !! p = None.
Proof.
  intros Hs Hf Hser Hp. unfold put. unfold bind at 1, lift at 1. rewrite Hser. simpl.
  unfold bind at 1, get. unfold bind at 1, lift at 1. rewrite Hp.
  destruct (file_path_Ok _ _ _ Hp) as (n & -> & Hn). set (p := join (cs_dir s.1) n) in *.
  destruct (do_delete_none s n Hs Hf Hn) as (s1 & Hdel & Hs1 & Hf1 & Hsame & Hb1 & Hgone & Hother).
  fold p in Hdel, Hb1, Hgone, Hother. pose proof Hsame as (Hd & Hi & Hcap).
  unfold bind at 1. rewrite Hdel. unfold bind at 1. rewrite <- Hi.
  case_bool_decide as Hfit.
  - destruct (on_used_increase s1 (Z.of_nat (length b))) as
      (s2 & Hinc & Hf2 & (Hd2 & Hi2 & Hcap2) & Hdirs & Hfiles & Hloc & Htot);
      [done|done|lia|rewrite Hd, Hcap, Hb1; lia|].
    rewrite Hinc. unfold bind, try.
    assert (p = join (cs_dir s2.1) n) as Hp2 by (unfold p; by rewrite Hd2, Hd).
    rewrite Hp2, write_chunk_file_none by (try done; rewrite Hd2, Hdirs; apply Hs1).
    rewrite <- Hp2. unfold ret. eexists _, _. split; [done|]. simpl.
    assert (record_path s1 = record_path s) as Hrec by (unfold record_path; by rewrite Hd).
    assert (p ≠ record_path s) as Hpr by by apply record_ne_chunk.
    assert (chunk_bytes (cs_dir s.1) (set_files (<[p := b]> (files s2.2)) s2.2) =
            chunk_bytes (cs_dir s.1) s1.2 + Z.of_nat (length b)) as Hbytes.
    { rewrite (chunk_bytes_set (cs_dir s.1) n b s2.2) by done. fold p.
      rewrite (chunk_bytes_set_record (cs_dir s.1) (u64_ser (chunk_bytes (cs_dir s1.1) s1.2 + Z.of_nat (length b))) s1.2 s2.2).
      2:{ rewrite Hfiles. unfold record_path. by rewrite Hd. }
      unfold size_at. rewrite Hfiles, Hrec, lookup_insert_ne by done. rewrite Hgone. lia. }
    assert (cs_dir s2.1 = cs_dir s.1) as Hds by by rewrite Hd2, Hd.
    split_and!; simpl; try done.
    + split; simpl.
      * rewrite Hds, Hdirs. rewrite <- Hd. apply Hs1.
      * unfold record_path in *. simpl. rewrite Hds, lookup_insert_ne, Hfiles, Hd by done.
        rewrite lookup_insert_eq. eauto.
      * unfold record_path in *. simpl. rewrite Hds, Hbytes, Hi2, Hloc, Hd. done.
      * rewrite Hds, Hbytes, Htot. by rewrite Hd.
      * unfold capacity in *. simpl. rewrite Hds, Hbytes, Hcap2, Hcap.
        pose proof (inv_max _ Hs) as Hm. unfold capacity in Hm. lia.
    + unfold same_store. unfold capacity in *. simpl. split_and!; congruence.
    + intros q Hq Hqr. rewrite lookup_insert_ne, Hfiles, Hrec, lookup_insert_ne by done.
      by apply Hother.
    + by rewrite lookup_insert_eq.
  - rewrite on_used_increase_full by (try done; rewrite Hcap, Hd, Hb1; lia).
    eexists _, s1. split; [done|]. split_and!; try done.
Qed.

Lemma get_chunk_none s id p :
  faults s.2 = [] → file_path s.1 id = Ok p →
  get_chunk id s =
    (match files s.2 !! p with
     | None => Err (NoSuchChunk (to_data_address id))
     | Some b => match de b with
                 | Ok c => if bool_decide (chunk_id c = id) then Ok c
                           else Err (NoSuchChunk (to_data_address id))
                 | Err e => Err (Bincode e)
                 end
     end, s).
Proof.
  intros Hf Hp. destruct s as [st fs]. simpl in *.
  unfold get_chunk, on_disk, fs_open, fs_read_to_end, io. unfold_m. rewrite Hp.
  rewrite syscall_none by done. destruct (files fs !! p) as [b|] eqn:Hb; simpl; [|done].
  rewrite next_fault_none by done. rewrite Hb. simpl.
  destruct (de b) as [c|e]; simpl; [|done]. by case_bool_decide.
Qed.

Lemma has_none s id p :
  faults s.2 = [] → file_path s.1 id = Ok p →
  has id s = (Ok (bool_decide (is_Some (files s.2 !! p))), s).
Proof.
  intros Hf Hp. destruct s as [st fs]. simpl in *.
  unfold has, on_disk, fs_metadata, io. unfold_m. rewrite Hp.
  rewrite syscall_none by done. simpl. by destruct (files fs !! p).
Qed.

Lemma delete_none s id p :
  store_inv s → faults s.2 = [] → file_path s.1 id = Ok p →
  ∃ s', delete id s = (Ok tt, s') ∧ store_inv s' ∧ faults s'.2 = [] ∧ same_store s s' ∧
    files s'.2 !! p = None ∧
    (∀ q, q ≠ p → q ≠ record_path s → files s'.2 !! q = files s.2 !! q).
Proof.
  intros Hs Hf Hp. unfold delete, bind, get, lift. rewrite Hp.
  destruct (file_path_Ok _ _ _ Hp) as (n & -> & Hn).
  destruct (do_delete_none s n Hs Hf Hn) as (s1 & Hdel & Hs1 & Hf1 & Hsame & _ & Hgone & Hother).
  rewrite Hdel. eauto 10.
Qed.

(** * The abstract store: a partial map from ids to chunks *)

Definition kv : Type := Id → option T.
Definition kv_set (id : Id) (v : option T) (m : kv) : kv :=
  λ id', if decide (id' = id) then v else m id'.

(** The disk content represents [m]. *)
Definition represents (s : CS) (m : kv) : Prop :=
  ∀ id p, file_path s.1 id = Ok p →
    match m id with
    | Some c => chunk_id c = id ∧ ∃ b, ser c = Ok b ∧ files s.2 !! p = Some b
    | None => files s.2 !! p = None
    end.

Inductive kv_op : Type := KPut (c : T) | KDelete (id : Id) | KGet (id : Id) | KHas (id : Id).
Inductive kv_reply : Type := RUnit (r : Result unit) | RChunk (r : Result T) | RBool (r : Result bool).

(** What each operation promises.  An update that does not fit drops the
    previous version of the chunk. *)
Inductive kv_step : kv_op → kv → kv_reply → kv → Prop :=
| kv_put_ok c m : kv_step (KPut c) m (RUnit (Ok tt)) (kv_set (chunk_id c) (Some c) m)
| kv_put_full c m : kv_step (KPut c) m (RUnit (Err NotEnoughSpace)) (kv_set (chunk_id c) None m)
| kv_delete id m : kv_step (KDelete id) m (RUnit (Ok tt)) (kv_set id None m)
| kv_get id m :
    kv_step (KGet id) m
      (RChunk (match m id with Some c => Ok c | None => Err (NoSuchChunk (to_data_address id)) end)) m
| kv_has id m : kv_step (KHas id) m (RBool (Ok (bool_decide (is_Some (m id))))) m.

Definition run_op (o : kv_op) (s : CS) : kv_reply * CS :=
  match o with
  | KPut c => let '(r, s') := put c s in (RUnit r, s')
  | KDelete id => let '(r, s') := delete id s in (RUnit r, s')
  | KGet id => let '(r, s') := get_chunk id s in (RChunk r, s')
  | KHas id => let '(r, s') := has id s in (RBool r, s')
  end.

(** Only chunk files beside the record. *)
Definition no_stray (s : CS) : Prop :=
  ∀ n, is_Some (files s.2 !! join (cs_dir s.1) n) → n ≠ USED_SPACE_FILENAME →
       ∃ (id : Id) b, ser id = Ok b ∧ n = hex_encode b.

(** Ids and chunks that bincode can encode. *)
Definition encodable (o : kv_op) : Prop :=
  match o with
  | KPut c => is_ok (ser c) = true ∧ is_ok (ser (chunk_id c)) = true
  | KDelete id | KGet id | KHas id => is_ok (ser id) = true
  end.

Lemma encodable_path st (id : Id) : is_ok (ser id) = true → ∃ p, file_path st id = Ok p.
Proof. unfold file_path. destruct (ser id); simpl; [eauto|done]. Qed.

Lemma represents_update s s' m id v p :
  represents s m → same_store s s' → file_path s.1 id = Ok p →
  (∀ q, q ≠ p → q ≠ record_path s → files s'.2 !! q = files s.2 !! q) →
  match v with
  | Some c => chunk_id c = id ∧ ∃ b, ser c = Ok b ∧ files s'.2 !! p = Some b
  | None => files s'.2 !! p = None
  end →
  represents s' (kv_set id v m).
Proof.
  intros Hrep Hsame Hp Hother Hv id' p' Hp'. rewrite (same_store_file_path _ _ _ Hsame) in Hp'.
  unfold kv_set. case_decide as Hid; subst.
  - rewrite Hp in Hp'. by injection Hp' as <-.
  - assert (p' ≠ p) by (intros ->; apply Hid; by eapply file_path_inj).
    assert (p' ≠ record_path s).
    { destruct (file_path_Ok _ _ _ Hp') as (n & -> & Hn). by apply record_ne_chunk. }
    rewrite Hother by done. by apply Hrep.
Qed.

Lemma run_op_refines s m o :
  store_inv s → faults s.2 = [] → represents s m → encodable o →
  ∃ m', kv_step o m (run_op o s).1 m' ∧
    represents (run_op o s).2 m' ∧ store_inv (run_op o s).2 ∧ faults (run_op o s).2.2 = [].
Proof.
  intros Hs Hf Hrep Henc. destruct o as [c|id|id|id]; simpl in Henc |- *.
  - destruct Henc as [Hc Hid]. destruct (ser c) as [b|] eqn:Hb; [|done].
    destruct (encodable_path s.1 _ Hid) as [p Hp].
    destruct (put_none s c b p Hs Hf Hb Hp) as (r & s' & Hput & Hs' & Hf' & Hsame & Hother & Hres).
    rewrite Hput. simpl. case_bool_decide; destruct Hres as [-> Hfile].
    + eexists. split; [constructor|]. split; [|done]. eapply represents_update; eauto.
    + eexists. split; [constructor|]. split; [|done]. by eapply represents_update.
  - destruct (encodable_path s.1 _ Henc) as [p Hp].
    destruct (delete_none s id p Hs Hf Hp) as (s' & Hdel & Hs' & Hf' & Hsame & Hgone & Hother).
    rewrite Hdel. simpl. eexists. split; [constructor|]. split; [|done].
    by eapply represents_update.
  - destruct (encodable_path s.1 _ Henc) as [p Hp]. rewrite (get_chunk_none s id p Hf Hp). simpl.
    exists m. split; [|done]. pose proof (Hrep id p Hp) as Hm.
    assert (kv_step (KGet id) m (RChunk (match m id with Some c => Ok c | None =>
      Err (NoSuchChunk (to_data_address id)) end)) m) as Hstep by constructor.
    destruct (m id) as [c|].
    + destruct Hm as (Hcid & b & Hb & Hfile). rewrite Hfile, (ser_de _ _ Hb).
      by rewrite bool_decide_true.
    + by rewrite Hm.
  - destruct (encodable_path s.1 _ Henc) as [p Hp]. rewrite (has_none s id p Hf Hp). simpl.
    exists m. split; [|done]. pose proof (Hrep id p Hp) as Hm.
    assert (kv_step (KHas id) m (RBool (Ok (bool_decide (is_Some (m id))))) m) as Hstep by constructor.
    destruct (m id) as [c|].
    + destruct Hm as (_ & b & _ & Hfile). by rewrite Hfile.
    + by rewrite Hm.
Qed.

(** Runs of operations, concrete and abstract. *)
Fixpoint run_ops (ops : list kv_op) (s : CS) : list kv_reply * CS :=
  match ops with
  | [] => ([], s)
  | o :: ops =>
      let '(r, s1) := run_op o s in
      let '(rs, s2) := run_ops ops s1 in (r :: rs, s2)
  end.

Inductive kv_run : list kv_op → kv → list kv_reply → kv → Prop :=
| kv_run_nil m : kv_run [] m [] m
| kv_run_cons o ops m r m1 rs m2 :
    kv_step o m r m1 → kv_run ops m1 rs m2 → kv_run (o :: ops) m (r :: rs) m2.

Lemma create_new_root_fresh dir fs :
  faults fs = [] → files fs !! join dir (zeros MAX_CHUNK_FILE_NAME_LENGTH) = None →
  create_new_root dir fs = (Ok tt, set_dirs (dir_prefixes dir ∪ dirs fs) fs).
Proof.
  intros Hf Hnone. unfold create_new_root, io, bind. unfold fs_create_dir_all at 1.
  rewrite syscall_none by done. set (fs1 := set_dirs _ fs). simpl.
  unfold fs_create. rewrite syscall_none by done.
  rewrite parent_join, decide_True by (simpl; apply elem_of_union_l, elem_of_dir_prefixes).
  unfold fs_remove_file. rewrite syscall_none by done. simpl.
  rewrite lookup_insert_eq. unfold set_files. simpl. by rewrite delete_insert_id.
Qed.

(** Opening a store on a directory that holds nothing yet. *)
Lemma cs_new_fresh `{!Subdir T} root cap fs :
  faults fs = [] → 0 ≤ cap ≤ u64_max →
  (∀ p, take (length root + 2) p = join (join root CHUNK_STORE_DIR) subdir → files fs !! p = None) →
  ∃ st fs', cs_new root cap fs = (Ok st, fs') ∧ faults fs' = [] ∧
    store_inv (st, fs') ∧ represents (st, fs') (λ _, None) ∧ capacity (st, fs') = cap.
Proof.
  intros Hf Hcap Hempty. unfold cs_new. set (dir := join (join root CHUNK_STORE_DIR) subdir) in *.
  assert (length dir = length root + 2)%nat as Hlen by (unfold dir, join; rewrite !length_app; simpl; lia).
  assert (∀ n, files fs !! join dir n = None) as Hno.
  { intros n. apply Hempty. unfold join at 1. rewrite take_app_le, take_ge by lia. done. }
  assert (files fs !! dir = None) as Hdirfile by (apply Hempty; rewrite take_ge by lia; done).
  unfold bind at 1, try, io at 1, fs_read. rewrite syscall_none by done. rewrite Hdirfile. simpl.
  unfold bind. rewrite create_new_root_fresh by done.
  rewrite add_local_store_fresh by (simpl; try done; apply elem_of_union_l, elem_of_dir_prefixes).
  eexists _, _. split; [done|]. split; [done|].
  set (fs4 := set_files _ _).
  assert (∀ n, n ≠ USED_SPACE_FILENAME → files fs4 !! join dir n = None) as Hnone.
  { intros n Hn. simpl. rewrite lookup_insert_ne by (apply not_eq_sym, record_ne_chunk; done). apply Hno. }
  assert (chunk_bytes dir fs4 = 0) as Hbytes.
  { unfold chunk_bytes. apply map_sum_zero.
    intros p c Hp. unfold chunk_weight. destruct (child_name dir p) as [n|] eqn:Hn; [|done].
    apply child_name_Some in Hn as ->. case_decide as Hn; [done|]. by rewrite Hnone in Hp. }
  split; [|split; [|done]].
  - split; unfold record_path, capacity; simpl cs_dir; simpl cs_used_space; simpl snd; rewrite ?Hbytes; try done.
    + simpl. apply elem_of_union_l, elem_of_dir_prefixes.
    + simpl. rewrite lookup_insert_eq. eauto.
  - intros id p Hp. destruct (file_path_Ok _ _ _ Hp) as (n & -> & Hn). by apply Hnone.
Qed.

Lemma run_op_capacity s o :
  store_inv s → faults s.2 = [] → encodable o → capacity (run_op o s).2 = capacity s.
Proof.
  intros Hs Hf Ho. destruct o as [c|id|id|id]; simpl in Ho |- *.
  - destruct Ho as [Hser Hid]. destruct (ser c) as [b|] eqn:Hb; [|done].
    destruct (encodable_path s.1 _ Hid) as [p Hp].
    destruct (put_none s c b p Hs Hf Hb Hp) as (r & s' & -> & _ & _ & (_ & _ & Hc) & _). done.
  - destruct (encodable_path s.1 _ Ho) as [p Hp].
    destruct (delete_none s id p Hs Hf Hp) as (s' & -> & _ & _ & (_ & _ & Hc) & _). done.
  - destruct (encodable_path s.1 _ Ho) as [p Hp]. by rewrite (get_chunk_none s id p Hf Hp).
  - destruct (encodable_path s.1 _ Ho) as [p Hp]. by rewrite (has_none s id p Hf Hp).
Qed.

Lemma run_ops_inv ops s m :
  Forall encodable ops → store_inv s → faults s.2 = [] → represents s m →
  store_inv (run_ops ops s).2 ∧ capacity (run_ops ops s).2 = capacity s.
Proof.
  intros Henc. revert s m. induction Henc as [|o ops Ho Hops IH]; intros s m Hs Hf Hrep; simpl; [done|].
  destruct (run_op_refines s m o Hs Hf Hrep Ho) as (m1 & _ & Hrep1 & Hs1 & Hf1).
  pose proof (run_op_capacity s o Hs Hf Ho) as Hc.
  destruct (run_op o s) as [r s1]. simpl in *.
  specialize (IH s1 m1 Hs1 Hf1 Hrep1). destruct (run_ops ops s1). simpl in *. by rewrite <- Hc.
Qed.

(** [keys] on a disk without faults and without stray files. *)
Lemma keys_none s m :
  store_inv s → faults s.2 = [] → represents s m →
  no_stray s →
  (∀ id : Id, is_Some (m id) → is_ok (ser id) = true) →
  ∃ l, keys s = (Ok l, s) ∧ NoDup l ∧ ∀ id : Id, id ∈ l ↔ is_Some (m id).
Proof.
  intros Hs Hf Hrep Hstray Hencm. unfold keys, fs_read_dir. rewrite syscall_none by done.
  rewrite decide_True by apply Hs. rewrite fs_entries_none by done.
  set (names := omap (child_name (cs_dir s.1)) (map_to_list (files s.2)).*1).
  rewrite <- surjective_pairing. eexists. split; [done|].
  assert (∀ n, n ∈ names ↔ is_Some (files s.2 !! join (cs_dir s.1) n)) as Hnames.
  { intros n. unfold names. rewrite list_elem_of_omap. split.
    - intros (p & Hp & ->%child_name_Some). apply list_elem_of_fmap in Hp as ([q c] & -> & Hq).
      apply elem_of_map_to_list in Hq. eauto.
    - intros [c Hc]. exists (join (cs_dir s.1) n). split; [|by apply child_name_Some].
      apply list_elem_of_fmap. exists (join (cs_dir s.1) n, c).
      split; [done|by apply elem_of_map_to_list]. }
  assert (∀ n id, n ∈ names → to_chunk_id n = Some id → ∃ b, ser id = Ok b ∧ n = hex_encode b) as Hid.
  { intros n id Hn%Hnames Hto. destruct (decide (n = USED_SPACE_FILENAME)) as [->|Hne].
    - unfold to_chunk_id, USED_SPACE_FILENAME in Hto. by rewrite hex_decode_used_space in Hto.
    - destruct (Hstray n Hn Hne) as (id' & b & Hser & ->). exists b. split; [|done].
      unfold to_chunk_id in Hto. rewrite hex_roundtrip, (ser_de _ _ Hser) in Hto.
      by simplify_eq/=. }
  split.
  - apply NoDup_omap_inj.
    + intros n n' id Hn Hn' Hto Hto'.
      destruct (Hid n id Hn Hto) as (b & Hb & ->), (Hid n' id Hn' Hto') as (b' & Hb' & ->). congruence.
    + apply NoDup_omap_inj; [|apply NoDup_fst_map_to_list].
      intros p q n _ _ ->%child_name_Some ->%child_name_Some. done.
  - intros id. rewrite list_elem_of_omap. split.
    + intros (n & Hn & Hto). destruct (Hid n id Hn Hto) as (b & Hb & ->).
      apply Hnames in Hn. assert (file_path s.1 id = Ok (join (cs_dir s.1) (hex_encode b))) as Hp.
      { unfold file_path. by rewrite Hb. }
      pose proof (Hrep _ _ Hp) as Hm. destruct (m id); [eauto|]. rewrite Hm in Hn. by destruct Hn.
    + intros Hm. pose proof (Hencm id Hm) as Hok. destruct (ser id) as [b|] eqn:Hb; [|done].
      assert (file_path s.1 id = Ok (join (cs_dir s.1) (hex_encode b))) as Hp.
      { unfold file_path. by rewrite Hb. }
      exists (hex_encode b). split.
      * apply Hnames. pose proof (Hrep _ _ Hp) as Hrm. destruct Hm as [c Hm]. rewrite Hm in Hrm.
        destruct Hrm as (_ & b' & _ & ->). eauto.
      * unfold to_chunk_id. by rewrite hex_roundtrip, (ser_de _ _ Hb).
Qed.

(** * The store on a sound disk, against the abstract map *)

(** A sound store on a disk without faults, holding the chunks of [m]. *)
Record holds (s : CS) (m : kv) : Prop := {
  holds_inv : store_inv s;
  holds_faults : faults s.2 = [];
  holds_rep : represents s m;
}.

Lemma has_holds s m (id : Id) :
  holds s m → is_ok (ser id) = true → has id s = (Ok (bool_decide (is_Some (m id))), s).
Proof.
  intros [Hi Hf Hr] Ha. destruct (encodable_path s.1 id Ha) as [p Hp].
  rewrite (has_none s id p Hf Hp). pose proof (Hr id p Hp) as Hm. do 2 f_equal.
  destruct (m id) as [c|]; [destruct Hm as (_ & b & _ & ->)|rewrite Hm]; done.
Qed.

Lemma get_holds s m (id : Id) :
  holds s m → is_ok (ser id) = true →
  get_chunk id s = (match m id with Some c => Ok c | None => Err (NoSuchChunk (to_data_address id)) end, s).
Proof.
  intros [Hi Hf Hr] Ha. destruct (encodable_path s.1 id Ha) as [p Hp].
  rewrite (get_chunk_none s id p Hf Hp). pose proof (Hr id p Hp) as Hm.
  destruct (m id) as [c|]; [|by rewrite Hm].
  destruct Hm as (Hid & b & Hb & ->). by rewrite (ser_de _ _ Hb), bool_decide_true.
Qed.

Lemma put_holds s m (c : T) :
  holds s m → is_ok (ser (chunk_id c)) = true → is_ok (ser c) = true →
  ∃ r s', put c s = (r, s') ∧
    ((r = Ok tt ∧ holds s' (kv_set (chunk_id c) (Some c) m)) ∨
     (r = Err NotEnoughSpace ∧ holds s' (kv_set (chunk_id c) None m))).
Proof.
  intros [Hi Hf Hr] Ha Hb.
  destruct (run_op_refines s m (KPut c) Hi Hf Hr) as (m' & Hstep & Hr' & Hi' & Hf'); [done|].
  simpl in *. destruct (put c s) as [r s'] eqn:Hput. exists r, s'. split; [done|].
  inversion Hstep; subst; [left|right]; done.
Qed.

Lemma delete_holds s m (id : Id) :
  holds s m → is_ok (ser id) = true → ∃ s', delete id s = (Ok tt, s') ∧ holds s' (kv_set id None m).
Proof.
  intros [Hi Hf Hr] Ha.
  destruct (run_op_refines s m (KDelete id) Hi Hf Hr) as (m' & Hstep & Hr' & Hi' & Hf'); [done|].
  simpl in *. destruct (delete id s) as [r s'] eqn:Hdel. exists s'.
  inversion Hstep; subst. done.
Qed.

Lemma holds_ext s m m' : (∀ id, m id = m' id) → holds s m → holds s m'.
Proof.
  intros Heq [Hi Hf Hr]. split; [done..|]. intros id p Hp. rewrite <- Heq. by apply Hr.
Qed.

Lemma holds_id s m id c : holds s m → is_ok (ser id) = true → m id = Some c → chunk_id c = id.
Proof.
  intros [_ _ Hr] Ha Hm. destruct (encodable_path s.1 id Ha) as [p Hp].
  pose proof (Hr id p Hp) as Hrep. rewrite Hm in Hrep. by destruct Hrep as [? _].
Qed.

(** * Properties *)

(** C1: the chunk store implements a map from ids to chunks: on a disk that
    does not fail, every run of put, delete, get and has answers as some run
    of the abstract map does, from any represented state. *)
Theorem chunk_store_refines_kv s m ops :
  store_inv s → faults s.2 = [] → represents s m → Forall encodable ops →
  ∃ m', kv_run ops m (run_ops ops s).1 m' ∧ represents (run_ops ops s).2 m'.
Proof.
  intros Hs Hf Hrep Henc. revert s m Hs Hf Hrep.
  induction Henc as [|o ops Ho Hops IH]; intros s m Hs Hf Hrep; simpl.
  - exists m. split; [constructor|done].
  - destruct (run_op_refines s m o Hs Hf Hrep Ho) as (m1 & Hstep & Hrep1 & Hs1 & Hf1).
    destruct (run_op o s) as [r s1]. simpl in *.
    destruct (IH s1 m1 Hs1 Hf1 Hrep1) as (m2 & Hrun & Hrep2).
    destruct (run_ops ops s1) as [rs s2]. simpl in *. exists m2. split; [|done].
    by econstructor.
Qed.

(** C3: on a disk that does not fail, from a fresh directory and after any run of
    operations on chunks and ids that can be encoded, the space the store
    reports is exactly the number of bytes in its chunk files, and it is within
    the capacity.  (After a write that fails it is not: see
    [failed_write_leaves_partial_file].) *)
Theorem accounting_exact `{!Subdir T} root cap fs ops :
  faults fs = [] → 0 ≤ cap ≤ u64_max → Forall encodable ops →
  (∀ p, take (length root + 2) p = join (join root CHUNK_STORE_DIR) subdir → files fs !! p = None) →
  ∃ st fs', cs_new root cap fs = (Ok st, fs') ∧
    let s := (run_ops ops (st, fs')).2 in
    total_used_space s.1 = chunk_bytes (cs_dir s.1) s.2 ∧ total_used_space s.1 ≤ cap.
Proof.
  intros Hf Hcap Henc Hempty.
  destruct (cs_new_fresh root cap fs Hf Hcap Hempty) as (st & fs' & Hnew & Hf' & Hs & Hrep & Hc).
  exists st, fs'. split; [done|].
  destruct (run_ops_inv ops (st, fs') _ Henc Hs Hf' Hrep) as [Hinv Hcap'].
  rewrite Hc in Hcap'. simpl. unfold total_used_space, total.
  rewrite (inv_total _ Hinv). split; [done|]. rewrite <- Hcap'. apply (inv_max _ Hinv).
Qed.

(** C34: an update that does not fit loses the stored version: [put] reports
    [NotEnoughSpace] and the previously stored chunk can no longer be read. *)
Theorem put_that_does_not_fit_loses_chunk s m c old b p :
  store_inv s → faults s.2 = [] → represents s m → m (chunk_id c) = Some old →
  ser c = Ok b → file_path s.1 (chunk_id c) = Ok p →
  capacity s < chunk_bytes (cs_dir s.1) s.2 - size_at s.2 p + Z.of_nat (length b) →
  (get_chunk (chunk_id c) s).1 = Ok old ∧
  ∃ s', put c s = (Err NotEnoughSpace, s') ∧
    (get_chunk (chunk_id c) s').1 = Err (NoSuchChunk (to_data_address (chunk_id c))).
Proof.
  intros Hs Hf Hrep Hold Hb Hp Hbig. split.
  - pose proof (Hrep _ _ Hp) as Hm. rewrite Hold in Hm. destruct Hm as (Hid & b' & Hb' & Hfile).
    rewrite (get_chunk_none _ _ _ Hf Hp), Hfile, (ser_de _ _ Hb'). simpl.
    by rewrite bool_decide_true.
  - destruct (put_none s c b p Hs Hf Hb Hp) as (r & s' & Hput & Hs' & Hf' & Hsame & _ & Hres).
    rewrite bool_decide_false in Hres by lia. destruct Hres as [-> Hgone].
    exists s'. split; [done|].
    by rewrite (get_chunk_none s' _ p Hf'), Hgone by (by rewrite (same_store_file_path s)).
Qed.

(** [keys] lists exactly the ids of the stored chunks, once each; the
    [used_space] record in the same directory is not taken for a chunk. *)
Theorem keys_spec s m :
  store_inv s → faults s.2 = [] → represents s m →
  no_stray s →
  (∀ id : Id, is_Some (m id) → is_ok (ser id) = true) →
  ∃ l, keys s = (Ok l, s) ∧ NoDup l ∧ ∀ id : Id, id ∈ l ↔ is_Some (m id).
Proof. apply keys_none. Qed.
End chunk_store.

(** A concrete [Serde] for every countable type: the bits of its code. *)
Module ToySerde.
Import ToyCrates.

#[export] Instance blob_address_serde : Serde BlobAddress := countable_serde N.
#[export] Instance blob_serde : Serde Blob := countable_serde Blob.
#[export] Instance blob_address_id : ChunkId BlobAddress | 0 := BlobAddress_chunk_id.
#[export] Instance blob_chunk : Chunk Blob BlobAddress | 0 := Blob_chunk.
#[export] Instance blob_address_serde_laws : SerdeLaws BlobAddress := countable_serde_laws N.
#[export] Instance blob_serde_laws : SerdeLaws Blob := countable_serde_laws Blob.
End ToySerde.

Module Witness.
Import ToyCrates ToySerde.

Definition fs0 : Fs := mkFs ∅ ∅ [].
Definition root : path := ["root"].
Definition blob (n : N) : Blob := Private (n, 1%N).

(** A store of blobs with room for 20 bytes. *)
Definition opened : CS :=
  match cs_new (T := Blob) root 20 fs0 with
  | (Ok st, fs) => (st, fs)
  | (Err _, fs) => (mkChunkStore [] (us_new 0) 0, fs)
  end.
Definition ops : list (kv_op (T := Blob) (Id := BlobAddress)) :=
  [KPut (blob 5%N); KHas 5%N; KGet 5%N; KDelete 5%N; KGet 5%N; KPut (blob 7%N)].
(** The store after it took one blob. *)
Definition filled : CS := (run_ops (T := Blob) (Id := BlobAddress) [KPut (blob 5%N)] opened).2.

Example ops_replies :
  (run_ops ops opened).1 =
  [RUnit (Ok tt); RBool (Ok true); RChunk (Ok (blob 5%N)); RUnit (Ok tt);
   RChunk (Err (NoSuchChunk (BlobAddr 5%N))); RUnit (Ok tt)].
Proof. vm_cast_no_check (eq_refl ((run_ops ops opened).1)). Qed.

Lemma opened_fresh :
  store_inv opened ∧ faults opened.2 = [] ∧ represents (T := Blob) opened (λ _, None).
Proof.
  destruct (cs_new_fresh (T := Blob) root 20 fs0) as (st & fs & Hnew & Hf & Hinv & Hrep & _);
    [done|by unfold u64_max|by intros; apply lookup_empty|].
  unfold opened. rewrite Hnew. auto.
Qed.

Lemma ops_encodable : Forall encodable ops.
Proof. repeat constructor. Qed.

Lemma chunk_store_refines_kv_witness :
  ∃ m', kv_run ops (λ _, None) (run_ops ops opened).1 m' ∧ represents (run_ops ops opened).2 m'.
Proof.
  apply (chunk_store_refines_kv opened (λ _, None) ops); try apply opened_fresh. apply ops_encodable.
Defined.

Lemma accounting_exact_witness :
  ∃ st fs', cs_new (T := Blob) root 20 fs0 = (Ok st, fs') ∧
    let s := (run_ops ops (st, fs')).2 in
    total_used_space s.1 = chunk_bytes (cs_dir s.1) s.2 ∧ total_used_space s.1 ≤ 20.
Proof.
  apply (accounting_exact root 20 fs0 ops); [done|by unfold u64_max|apply ops_encodable|].
  intros. apply lookup_empty.
Defined.

Lemma filled_ok :
  store_inv filled ∧ faults filled.2 = [] ∧
  represents (T := Blob) filled (kv_set (5%N : BlobAddress) (Some (blob 5%N)) (λ _, None)).
Proof.
  destruct opened_fresh as (Hs & Hf & Hrep).
  destruct (run_op_refines opened (λ _, None) (KPut (blob 5%N)) Hs Hf Hrep) as (m' & Hstep & Hr & Hi & Hf');
    [split; reflexivity|].
  assert ((run_op (KPut (blob 5%N)) opened).1 = RUnit (Ok tt)) as Hreply.
  { vm_cast_no_check (eq_refl ((run_op (KPut (blob 5%N)) opened).1)). }
  assert (filled = (run_op (KPut (blob 5%N)) opened).2) as ->.
  { unfold filled. simpl. by destruct (put _ opened). }
  rewrite Hreply in Hstep. inversion Hstep. subst. auto.
Qed.

(** A version of the same chunk that needs more than the capacity. *)
Definition big : Blob := Private (5%N, 1048576%N).

Lemma put_that_does_not_fit_loses_chunk_witness :
  (get_chunk (5%N : BlobAddress) filled).1 = Ok (blob 5%N) ∧
  ∃ s', put big filled = (Err NotEnoughSpace, s') ∧
    (get_chunk (5%N : BlobAddress) s').1 = Err (NoSuchChunk (BlobAddr 5%N)).
Proof.
  destruct filled_ok as (Hs & Hf & Hrep).
  refine (put_that_does_not_fit_loses_chunk filled _ big (blob 5%N) (pos_bytes (encode big))
            (join (cs_dir filled.1) (hex_encode (pos_bytes (encode (5%N : N))))) Hs Hf Hrep _ _ _ _);
    [reflexivity..|]. vm_compute. reflexivity.
Defined.

(** The files of the store: the chunk and the record. *)
Lemma filled_names n :
  is_Some (files filled.2 !! join (cs_dir filled.1) n) →
  n = hex_encode (pos_bytes (encode (5%N : N))) ∨ n = USED_SPACE_FILENAME.
Proof.
  intros [c Hc]. apply elem_of_map_to_list, (list_elem_of_fmap_2 fst) in Hc. simpl in Hc.
  set (l := (map_to_list (files filled.2)).*1) in Hc. set (d := cs_dir filled.1) in *.
  assert (Forall (λ p, p = join d (hex_encode (pos_bytes (encode (5%N : N)))) ∨
                       p = join d USED_SPACE_FILENAME) l) as Hl.
  { apply (bool_decide_unpack _). vm_compute. exact I. }
  clearbody l d. rewrite Forall_forall in Hl.
  destruct (Hl _ Hc) as [[_ Hn]%join_inj|[_ Hn]%join_inj]; auto.
Qed.

Lemma filled_no_stray : no_stray (Id := BlobAddress) filled.
Proof.
  intros n Hc Hn. exists 5%N, (pos_bytes (encode (5%N : N))). split; [reflexivity|].
  destruct (filled_names n Hc) as [Hn'|Hn']; [exact Hn'|by destruct (Hn Hn')].
Qed.

Lemma keys_spec_witness :
  ∃ l, keys (Id := BlobAddress) filled = (Ok l, filled) ∧ NoDup l ∧
    ∀ id : BlobAddress, id ∈ l ↔
      is_Some (kv_set (T := Blob) (5%N : BlobAddress) (Some (blob 5%N)) (λ _, None) id).
Proof.
  destruct filled_ok as (Hs & Hf & Hrep).
  apply (keys_spec filled _ Hs Hf Hrep); [exact filled_no_stray|done].
Defined.

(** A write that fails half way leaves a partial chunk file that no tracker
    counts: here the third system call of [put] moves 2 bytes and fails. *)
Definition faulty : CS := (opened.1, mkFs (files opened.2) (dirs opened.2) (replicate 6 None ++ [Some 2%nat])).
Lemma failed_write_leaves_partial_file :
  let '(r, s) := put (blob 5%N) faulty in
  r = Err (Io IoOther) ∧ total_used_space s.1 = 0 ∧ chunk_bytes (cs_dir s.1) s.2 = 2.
Proof.
  destruct (put (blob 5%N) faulty) as [r s] eqn:Hput.
  assert (r = (put (blob 5%N) faulty).1) as -> by (by rewrite Hput).
  assert (s = (put (blob 5%N) faulty).2) as -> by (by rewrite Hput).
  split; [vm_cast_no_check (eq_refl ((put (blob 5%N) faulty).1))|].
  split; vm_compute; reflexivity.
Qed.
End Witness.
