(* ===== verification/Network.v ===== *)
(** [src/network.rs]: the node's view of the routing layer.

    [sn_routing] is a parameter: what the node reads from it at one moment is
    the record [Routing], and [RoutingLaws] is what its documentation says of
    the two sorted listings.  The pseudo-random shuffle of [rand] is a
    parameter too. *)

From S2P Require Import Prelude Crates Messages Toy.

Section network.
Context `{MO : MessagingOps}.

Record Peer : Type := mkPeer {
  peer_name : XorName;
  peer_age : Z;
}.

(** A section authority provider: its key and the names of its elders. *)
Record SectionAuth : Type := mkSectionAuth {
  sap_section_key : BlsPublicKey;
  sap_names : gset XorName;
}.

(** What [Routing] answers. *)
Record Routing : Type := mkRouting {
  r_name : XorName;
  r_age : Z;
  r_our_prefix : Prefix;
  r_is_elder : bool;
  r_public_key_set : result RoutingError PublicKeySet;
  r_our_index : result RoutingError nat;
  r_our_elders : list Peer;
  r_our_adults : list Peer;
  r_our_adults_sorted_by_distance_to : XorName → list Peer;
  r_our_elders_sorted_by_distance_to : XorName → list Peer;
  r_section_key : Prefix → option BlsPublicKey;
  r_matching_section : XorName → result RoutingError SectionAuth;
  r_sign_as_elder : list byte → BlsPublicKey → result RoutingError BlsSignatureShare;
}.

(** [targets.shuffle(&mut ChaChaRng::from_seed(msg_id))] *)
Class ShuffleCrate := shuffle : MessageId → list XorName → list XorName.
Class ShuffleLaws `{ShuffleCrate} : Prop := shuffle_perm : ∀ i l, shuffle i l ≡ₚ l.

(** The sorted listings hold the members, each once, closest first. *)
Record RoutingLaws (r : Routing) : Prop := {
  adults_nodup : NoDup (peer_name <$> r_our_adults r);
  adults_sorted_perm : ∀ n, r_our_adults_sorted_by_distance_to r n ≡ₚ r_our_adults r;
  adults_sorted_sorted : ∀ n,
    StronglySorted (cle (cmp_distance n)) (peer_name <$> r_our_adults_sorted_by_distance_to r n);
  elders_sorted_perm : ∀ n, r_our_elders_sorted_by_distance_to r n ≡ₚ r_our_elders r;
}.

(** * Operations *)

Definition no_key {A} (r : result RoutingError A) : Result A := map_err (λ _, NoSectionPublicKey) r.

(** [utils::serialise] *)
Definition serialise `{!Serde T} (data : T) : Result (list byte) := map_err Bincode (ser data).

(** [utils::deserialise] *)
Definition deserialise `{!Serde T} (bytes : list byte) : Result T := map_err Bincode (de bytes).

(** [sign_as_elder] *)
Definition sign_as_elder `{!Serde T} (r : Routing) (data : T) : Result SignatureShare :=
  res_bind (no_key (r_public_key_set r)) (λ set,
  res_bind (serialise data) (λ bytes,
  res_bind (map_err RoutingE (r_sign_as_elder r bytes (pks_public_key set))) (λ share,
  res_bind (no_key (r_our_index r)) (λ index,
  Ok (mkSignatureShare share index))))).

(** [sign_as_elder_raw] *)
Definition sign_as_elder_raw `{!Serde T} (r : Routing) (data : T) : Result BlsSignatureShare :=
  res_bind (no_key (r_public_key_set r)) (λ set,
  res_bind (serialise data) (λ bytes,
  map_err RoutingE (r_sign_as_elder r bytes (pks_public_key set)))).

(** [sign_as_node]; the routing layer signs with the key of the node. *)
Definition sign_as_node `{!Serde T} (routing_sign_as_node : list byte → Ed25519Signature) (data : T) : Result Signature :=
  res_bind (serialise data) (λ data,
  let sig := routing_sign_as_node data in
  Ok (Ed25519Sig sig)).

Definition age (r : Routing) : Z := r_age r.
Definition our_age (r : Routing) : Z := r_age r.

Definition section_public_key (r : Routing) : Result PublicKey :=
  res_bind (no_key (r_public_key_set r)) (λ set, Ok (pk_of_bls (pks_public_key set))).

Definition our_prefix (r : Routing) : Prefix := r_our_prefix r.
Definition our_name (r : Routing) : XorName := r_name r.

Definition sibling_public_key (r : Routing) : option PublicKey :=
  let sibling_prefix := prefix_sibling (our_prefix r) in
  pk_of_bls <$> r_section_key r sibling_prefix.

Definition matching_section (r : Routing) (name : XorName) : Result BlsPublicKey :=
  res_bind (map_err RoutingE (r_matching_section r name)) (λ provider, Ok (sap_section_key provider)).

Definition get_closest_elders_to `{!ShuffleCrate} (r : Routing) (name : XorName) (msg_id : MessageId)
    (count : nat) : Result (gset XorName) :=
  res_bind (map_err RoutingE (r_matching_section r name)) (λ auth_provider,
  let targets := names_of (sap_names auth_provider) in
  Ok (list_to_set (take count (shuffle msg_id targets)))).

Definition our_public_key_set (r : Routing) : Result PublicKeySet :=
  map_err RoutingE (r_public_key_set r).

Definition get_section_pk_by_name (r : Routing) (name : XorName) : Result PublicKey :=
  res_bind (map_err RoutingE (r_matching_section r name)) (λ provider,
  Ok (pk_of_bls (sap_section_key provider))).

Definition is_elder (r : Routing) : bool := r_is_elder r.

Definition our_index (r : Routing) : Result nat := map_err RoutingE (r_our_index r).

Definition our_public_key_share (r : Routing) : Result PublicKey :=
  res_bind (our_index r) (λ index,
  res_bind (our_public_key_set r) (λ set,
  Ok (pk_of_bls_share (pks_public_key_share set index)))).

Definition our_elder_names (r : Routing) : gset XorName :=
  list_to_set (peer_name <$> r_our_elders r).

Definition our_elder_names_sorted_by_distance_to (r : Routing) (name : XorName) (count : nat) : list XorName :=
  peer_name <$> take count (r_our_elders_sorted_by_distance_to r name).

(** The elders with the addresses [addr] the routing layer has for them. *)
Definition our_elder_addresses {SocketAddr} (addr : Peer → SocketAddr) (r : Routing) : list (XorName * SocketAddr) :=
  (λ p2p_node, (peer_name p2p_node, addr p2p_node)) <$> r_our_elders r.
Definition our_elder_addresses_sorted_by_distance_to {SocketAddr} (addr : Peer → SocketAddr) (r : Routing)
    (name : XorName) : list (XorName * SocketAddr) :=
  (λ p2p_node, (peer_name p2p_node, addr p2p_node)) <$> r_our_elders_sorted_by_distance_to r name.

(** The [BTreeMap] of collected pairs: a later pair overwrites. *)
Definition our_members (r : Routing) : gmap XorName Z :=
  foldl (λ m p, <[peer_name p := peer_age p]> m) ∅ (r_our_elders r ++ r_our_adults r).

Definition our_adults (r : Routing) : gset XorName :=
  list_to_set (peer_name <$> r_our_adults r).

Definition our_adults_sorted_by_distance_to (r : Routing) (name : XorName) : list XorName :=
  peer_name <$> r_our_adults_sorted_by_distance_to r name.

(** * Facts *)

Lemma elder_addresses_sorted_perm {SocketAddr} (addr : Peer → SocketAddr) r name :
  RoutingLaws r → our_elder_addresses_sorted_by_distance_to addr r name ≡ₚ our_elder_addresses addr r.
Proof. intros HR. by apply fmap_Permutation, elders_sorted_perm. Qed.

Lemma our_adults_sorted_elem r name n :
  RoutingLaws r → n ∈ our_adults_sorted_by_distance_to r name ↔ n ∈ our_adults r.
Proof.
  intros HR. unfold our_adults_sorted_by_distance_to, our_adults.
  by rewrite (adults_sorted_perm r HR name), elem_of_list_to_set.
Qed.

Lemma our_adults_sorted_NoDup r name :
  RoutingLaws r → NoDup (our_adults_sorted_by_distance_to r name).
Proof.
  intros HR. unfold our_adults_sorted_by_distance_to.
  rewrite (adults_sorted_perm r HR name). apply HR.
Qed.

Lemma our_adults_size r : RoutingLaws r → size (our_adults r) = length (r_our_adults r).
Proof.
  intros HR. unfold our_adults. rewrite size_list_to_set by apply HR. apply length_fmap.
Qed.
End network.

(** A routing node with given adults, sorted as the laws ask. *)
Module ToyRouting.
Import ToyCrates.

Definition toy_sorted (l : list Peer) (n : XorName) : list Peer :=
  sort_by (cmp_on peer_name (cmp_distance n)) l.
Definition toy_routing (elders adults : list Peer) (p : Prefix) : Routing := {|
  r_name := 0%N : XorName; r_age := 5; r_our_prefix := p; r_is_elder := true;
  r_public_key_set := Ok (9%N, 1%nat); r_our_index := Ok 0%nat;
  r_our_elders := elders; r_our_adults := adults;
  r_our_adults_sorted_by_distance_to := toy_sorted adults;
  r_our_elders_sorted_by_distance_to := toy_sorted elders;
  r_section_key := λ _, Some 8%N;
  r_matching_section := λ _, Ok (mkSectionAuth 9%N (list_to_set (peer_name <$> elders)));
  r_sign_as_elder := λ _ _, Ok 4%N;
|}.
#[export] Instance toy_shuffle : ShuffleCrate := λ _ l, l.
#[export] Instance toy_shuffle_laws : ShuffleLaws.
Proof. intros i l. reflexivity. Qed.

Lemma toy_routing_laws elders adults p :
  NoDup (peer_name <$> adults) → RoutingLaws (toy_routing elders adults p).
Proof.
  intros Hnd. split; simpl; [done|intros; apply sort_by_Permutation| |intros; apply sort_by_Permutation].
  intros n. pose proof (sort_by_sorted (cmp_on peer_name (cmp_distance n)) adults) as Hs.
  unfold toy_sorted. induction Hs as [|x l Hl IH Hx]; csimpl; constructor; [done|].
  rewrite Forall_fmap. exact Hx.
Qed.
End ToyRouting.
