(* ===== verification/Messaging.v ===== *)
(** [src/node/messaging.rs] and the calls of [src/network.rs] that act on the
    network: sending messages, proposing members offline, allowing joins.

    The state is the list of the requests made to [sn_routing], latest last;
    what it answers to each is the argument [a].  Serialisation of messages is
    the parameter [WireCrate]. *)

From S2P Require Import Prelude Crates Messages Toy Network.

Section wire.
Context `{MO : MessagingOps}.

(** [sn_messaging::Itinerary] *)
Record Itinerary : Type := mkItinerary {
  it_src : SrcLocation;
  it_dst : DstLocation;
  it_aggregation : Aggregation;
}.

Class WireCrate := {
  (** [ClientMsg::serialize], [NodeMsg::serialize], [Itinerary::aggregate_at_dst] *)
  client_msg_serialize : ClientMsg → XorName → BlsPublicKey → result MessagingError (list byte);
  node_msg_serialize :
    NodeMsg → XorName → BlsPublicKey → option BlsPublicKey → result MessagingError (list byte);
  aggregate_at_dst : Itinerary → bool;
}.

(** A request to the routing layer. *)
Inductive NetRequest : Type :=
| ReqSendMessage (itinerary : Itinerary) (content : list byte)
| ReqSetJoinsAllowed (joins_allowed : bool)
| ReqConnectivityTest (name : XorName)
| ReqProposeOffline (name : XorName).

(** Its answers. *)
Definition Answers : Type := NetRequest → result RoutingError unit.

Definition request (a : Answers) (q : NetRequest) : M RoutingError (list NetRequest) unit :=
  λ log, (a q, log ++ [q]).
End wire.

Section messaging.
Context `{MO : MessagingOps} `{WC : !WireCrate}.
Context (r : Routing) (a : Answers).

(** An operation of the node on the network. *)
Abbreviation NM A := (M Error (list NetRequest) A).

(** * network.rs *)

Definition send_message (itinerary : Itinerary) (content : list byte) : M RoutingError (list NetRequest) unit :=
  request a (ReqSendMessage itinerary content).

(** [.map_err(f)?] *)
Definition or_err {A} (f : RoutingError → Error) (m : M RoutingError (list NetRequest) A) : NM A :=
  λ log, let '(res, log') := m log in (map_err f res, log').

Definition set_joins_allowed (joins_allowed : bool) : NM unit :=
  or_err RoutingE (request a (ReqSetJoinsAllowed joins_allowed)).

Definition propose_offline (name : XorName) : NM unit :=
  or_err RoutingE (request a (ReqConnectivityTest name)) ;;;
  or_err (λ _, NotAnElder) (request a (ReqProposeOffline name)).

(** * messaging.rs *)

(** The section key of a destination. *)
Definition section_pk_of (name : XorName) : Result BlsPublicKey :=
  res_bind (get_section_pk_by_name r name) (λ pk, ok_or (pk_bls pk) (NoSectionPublicKeyKnown name)).

Definition send (m : OutgoingMsg) : NM unit :=
  let our_prefix := our_prefix r in
  let src := if section_source m then SrcSection (prefix_name our_prefix) else SrcNode (our_name r) in
  let itinerary := mkItinerary src (dst m) (aggregation m) in
  let! name := lift (ok_or (dst_name (dst m)) NoDestinationName) in
  let! dest_section_pk := lift (section_pk_of name) in
  let! content :=
    match msg m with
    | MtClient msg => lift (map_err Message (client_msg_serialize msg name dest_section_pk))
    | MtNode msg =>
        let! src_section_pk :=
          if aggregate_at_dst itinerary then
            let! pk := lift (section_public_key r) in
            let! bls := lift (ok_or (pk_bls pk) NoSectionPublicKey) in
            ret (Some bls)
          else ret None in
        lift (map_err Message (node_msg_serialize msg name dest_section_pk src_section_pk))
    end in
  or_err (λ _, UnableToSend (msg m)) (send_message itinerary content).

(** What [send_error] and [send_support] share. *)
Definition send_client_msg (message : ClientMsg) (dst : DstLocation) : NM unit :=
  let itinerary := mkItinerary (SrcNode (our_name r)) dst AggNone in
  let! name := lift (ok_or (dst_name dst) NoDestinationName) in
  let! target_section_pk := lift (section_pk_of name) in
  let! content := lift (map_err Message (client_msg_serialize message name target_section_pk)) in
  or_err (λ _, UnableToSend (MtClient message)) (send_message itinerary content).

Definition send_error (m : OutgoingLazyError) : NM unit := send_client_msg (CmProcessingError (ole_msg m)) (ole_dst m).
Definition send_support (m : OutgoingSupportingInfo) : NM unit :=
  send_client_msg (CmSupportingInfo (osi_msg m)) (osi_dst m).

(** The body of the loop of [send_to_nodes]; a failure to send is only logged. *)
Definition send_to_node (m : NodeMsg) (agg : Aggregation) (name : XorName) (src_section_pk : BlsPublicKey)
    (target : XorName) : NM unit :=
  let! target_section_pk := lift (section_pk_of target) in
  let! bytes := lift (map_err Message (node_msg_serialize m target target_section_pk (Some src_section_pk))) in
  let! _ := try (or_err RoutingE (send_message (mkItinerary (SrcNode name) (DstNode target) agg) bytes)) in
  ret tt.

Definition send_to_nodes (m : NodeMsg) (targets : gset XorName) (agg : Aggregation) : NM unit :=
  let name := our_name r in
  let! src_section_pk := lift (matching_section r name) in
  for_each (names_of targets) (send_to_node m agg name src_section_pk).

(** * Properties *)

(** The message for one target, when its section is known and it serialises. *)
Definition request_for (m : NodeMsg) (agg : Aggregation) (target : XorName) : option NetRequest :=
  match matching_section r (our_name r), section_pk_of target with
  | Ok src_pk, Ok pk =>
      match node_msg_serialize m target pk (Some src_pk) with
      | Ok bytes => Some (ReqSendMessage (mkItinerary (SrcNode (our_name r)) (DstNode target) agg) bytes)
      | Err _ => None
      end
  | _, _ => None
  end.

(** The longest prefix of the targets with a message. *)
Fixpoint requests_until (f : XorName → option NetRequest) (l : list XorName) : list NetRequest :=
  match l with
  | [] => []
  | t :: l => match f t with Some q => q :: requests_until f l | None => [] end
  end.

Lemma send_to_node_spec m agg pk t log :
  matching_section r (our_name r) = Ok pk →
  send_to_node m agg (our_name r) pk t log =
    match request_for m agg t with
    | Some q => (Ok tt, log ++ [q])
    | None => (Err (match section_pk_of t with
                    | Ok tpk => match node_msg_serialize m t tpk (Some pk) with
                                | Err e => Message e | Ok _ => NotAnElder end
                    | Err e => e
                    end), log)
    end.
Proof.
  intros Hpk. unfold request_for, send_to_node, bind, lift. rewrite Hpk. destruct (section_pk_of t) as [tpk|]; [|done].
  destruct (node_msg_serialize _ _ _ _); simpl; [|done]. unfold try, or_err, send_message, request. done.
Qed.

Lemma send_all m agg pk l log :
  matching_section r (our_name r) = Ok pk →
  (for_each l (send_to_node m agg (our_name r) pk) log).2 = log ++ requests_until (request_for m agg) l ∧
  (is_ok (for_each l (send_to_node m agg (our_name r) pk) log).1 = true ↔
   Forall (λ t, is_Some (request_for m agg t)) l).
Proof.
  intros Hpk. revert log. induction l as [|t l IH]; intros log; simpl.
  { by rewrite app_nil_r. }
  unfold bind at 1 2. rewrite send_to_node_spec by done. rewrite Forall_cons.
  destruct (request_for m agg t) as [q|]; simpl.
  - destruct (IH (log ++ [q])) as [-> ->]. rewrite <- app_assoc. split; [done|]. naive_solver.
  - rewrite app_nil_r. split; [done|]. split; [done|]. intros [[? [=]] _].
Qed.

(** A message to several nodes goes to each of them, once and in the order
    of their names, also after one of them could not be reached; only a target
    whose section is unknown, or for which the message does not serialise, stops
    the sending, and then it is the only error the caller sees. *)
Theorem send_to_nodes_spec m targets agg log :
  is_ok (matching_section r (our_name r)) = true →
  let '(res, log') := send_to_nodes m targets agg log in
  log' = log ++ requests_until (request_for m agg) (names_of targets) ∧
  (res = Ok tt ↔ ∀ t, t ∈ targets → is_Some (request_for m agg t)) ∧
  (res = Ok tt → length log' = (length log + size targets)%nat ∧
     ∀ t, t ∈ targets → ∃ b, ReqSendMessage (mkItinerary (SrcNode (our_name r)) (DstNode t) agg) b ∈ log').
Proof.
  destruct (matching_section r (our_name r)) as [pk|] eqn:Hpk; [|done]. intros _. unfold send_to_nodes, bind, lift.
  rewrite Hpk. destruct (send_all m agg pk (names_of targets) log Hpk) as [Hlog Hok].
  destruct (for_each _ _ log) as [res log']. cbn [fst snd] in *. subst log'.
  assert (res = Ok tt ↔ Forall (λ t, is_Some (request_for m agg t)) (names_of targets)) as Hres.
  { rewrite <- Hok. destruct res as [[]|]; simpl; intuition congruence. }
  rewrite Hres, Forall_forall. split; [done|].
  assert ((∀ t, t ∈ names_of targets → is_Some (request_for m agg t)) ↔ ∀ t, t ∈ targets → is_Some (request_for m agg t))
    as Hall by (by setoid_rewrite elem_of_names_of).
  split; [done|]. intros Hsent. split.
  - rewrite length_app. f_equal. transitivity (length (names_of targets)).
    + clear -Hsent. induction (names_of targets) as [|t l IH]; simpl; [done|].
      destruct (Hsent t) as [q ->]; [set_solver|]. simpl. f_equal. apply IH. set_solver.
    + unfold names_of. by rewrite length_sort_by.
  - intros t Ht%elem_of_names_of. clear Hall Hres Hok. induction (names_of targets) as [|u l IH]; simpl; [set_solver|].
    destruct (Hsent u) as [q Hq]; [set_solver|]. rewrite Hq. apply elem_of_cons in Ht as [->|Ht].
    + revert Hq. unfold request_for at 1. rewrite Hpk. destruct (section_pk_of u); [|done].
      destruct (node_msg_serialize _ _ _ _) as [b|]; [|done]. intros [= <-]. exists b. set_solver.
    + destruct (IH) as [b Hb]; [set_solver|done|]. exists b. set_solver.
Qed.
End messaging.

Module ToyWire.
Import ToyCrates.
#[export] Instance toy_wire : WireCrate := {|
  client_msg_serialize _ n _ := Ok [byte_of_N n];
  node_msg_serialize m n _ _ := Ok [byte_of_N (node_msg_id m); byte_of_N n];
  aggregate_at_dst i := match it_aggregation i with AtDestination => true | AggNone => false end;
|}.
End ToyWire.

Module Witness.
Import ToyCrates ToyRouting ToyWire.

Definition net : Routing := toy_routing [mkPeer (nm 0) 5] [] root_prefix.
Definition query0 : NodeMsg := NmNodeQuery NqGetSectionElders (mid 1).
(** Nothing can be delivered. *)
Definition down : Answers := λ _, Err tt.

Lemma send_to_nodes_spec_witness :
  let '(res, log') := send_to_nodes net down query0 {[nm 4; nm 3]} AggNone [] in
  res = Ok tt ∧ length log' = 2%nat.
Proof.
  pose proof (send_to_nodes_spec net down query0 {[nm 4; nm 3]} AggNone [] eq_refl) as Hspec.
  destruct (send_to_nodes net down query0 {[nm 4; nm 3]} AggNone []) as [res log']. destruct Hspec as (_ & Hres & Hsent).
  assert (res = Ok tt) as Hok.
  { apply Hres. intros t Ht. exists (ReqSendMessage (mkItinerary (SrcNode (nm 0)) (DstNode t) AggNone)
                                     [byte_of_N (mid 1); byte_of_N t]). reflexivity. }
  split; [exact Hok|]. apply Hsent, Hok.
Defined.
End Witness.
