(* ===== verification/Capacity.v ===== *)
(** [src/capacity] and [src/metadata/adult_reader.rs]: which adults hold a
    chunk, which are full, and what a write costs.

    [AdultsStorageInfo] is an [Arc<RwLock<BTreeSet>>] shared by the readers and
    the writer; every method takes the lock once, so the state is the set and
    each method is one atomic step on it.  [f64::powf] is the parameter
    [powf]. *)

From S2P Require Import Prelude Crates Messages Toy F64 Network.

Section capacity.
Context `{MO : MessagingOps}.

(** [u32::MAX as u64 * 1_000_000_000_u64] *)
Definition MAX_SUPPLY : Z := 4294967295 * 1000000000.
Definition CHUNK_COPY_COUNT : nat := 4.
Definition MAX_CHUNK_SIZE : Z := 1000000.

(** [AdultsStorageInfo]: the full adults. *)
Definition AdultsStorageInfo : Type := gset XorName.
Definition adults_storage_info_new : AdultsStorageInfo := ∅.

(** [AdultReader::non_full_adults_closest_to] *)
Definition non_full_adults_closest_to (r : Routing) (name : XorName)
    (full_adults : gset XorName) (count : nat) : gset XorName :=
  list_to_set (take count
    (filter (λ name, name ∉ full_adults) (our_adults_sorted_by_distance_to r name))).

(** * CapacityReader *)

Definition is_full (full_adults : AdultsStorageInfo) (adult : XorName) : bool :=
  bool_decide (adult ∈ full_adults).
Definition full_adults_count (full_adults : AdultsStorageInfo) : Z :=
  as_u8 (Z.of_nat (size full_adults)).
Definition full_adults_matching (full_adults : AdultsStorageInfo) (prefix : Prefix) : gset XorName :=
  list_to_set (filter (λ name, prefix_matches prefix name = true) (names_of full_adults)).
Definition get_chunk_holder_adults (r : Routing) (full_adults : AdultsStorageInfo)
    (target : XorName) : gset XorName :=
  non_full_adults_closest_to r target full_adults CHUNK_COPY_COUNT.

(** * CapacityWriter *)

Definition insert_full_adults (orig full_adults : AdultsStorageInfo) : AdultsStorageInfo :=
  foldl (λ acc adult, {[adult]} ∪ acc) orig (names_of full_adults).
Definition remove_full_adults (orig full_adults : AdultsStorageInfo) : AdultsStorageInfo :=
  foldl (λ acc adult, acc ∖ {[adult]}) orig (names_of full_adults).
Definition cap_retain_members_only (full_adults : AdultsStorageInfo) (members : gset XorName) :
    AdultsStorageInfo :=
  let absent_adults := filter (λ key, key ∉ members) (names_of full_adults) in
  foldl (λ acc adult, acc ∖ {[adult]}) full_adults absent_adults.

(** * StoreCost *)

Section store_cost.
Context (powf : f64 → f64 → f64).

Definition f64_lit (n : Z) : f64 := f64_of_Z n.

Definition max_section_nanos (prefix_len : nat) : Z :=
  f64_floor_as_u64 (f64_div (f64_of_Z MAX_SUPPLY) (powf (f64_lit 2) (f64_of_Z (Z.of_nat prefix_len)))).

(** [StoreCost::store_cost]; the [u8] subtraction is guarded by [from]. *)
Definition store_cost (bytes full_adults all_adults : Z) (prefix_len : nat) : Token :=
  let available_nodes := f64_of_Z (all_adults - full_adults) in
  let supply_demand_factor :=
    f64_add
      (f64_add (f64_ratio 1 1000)
         (powf (f64_div (f64_lit 1) (f64_mul (f64_lit 20) available_nodes)) (f64_lit 8)))
      (powf (f64_div (f64_of_Z full_adults) (f64_of_Z all_adults)) (f64_lit 3)) in
  let data_size_factor :=
    f64_add (powf (f64_div (f64_of_Z bytes) (f64_of_Z MAX_CHUNK_SIZE)) (f64_lit 2))
      (f64_div (f64_of_Z bytes) (f64_of_Z MAX_CHUNK_SIZE)) in
  let steepness_reductor := f64_add (f64_of_Z (Z.of_nat prefix_len)) (f64_lit 1) in
  let section_supply_share := f64_of_Z (max_section_nanos prefix_len) in
  let token_source := f64_mul steepness_reductor (powf section_supply_share (f64_ratio 1 2)) in
  let store_cost :=
    f64_round_as_u64 (f64_mul (f64_mul token_source data_size_factor) supply_demand_factor) in
  Z.max 1 store_cost.

(** [StoreCost::from] *)
Definition store_cost_from (r : Routing) (full : AdultsStorageInfo) (bytes : Z) : Result Token :=
  let prefix := our_prefix r in
  let prefix_len := prefix_bit_count prefix in
  let full_adults := full_adults_count full in
  let all_adults := as_u8 (Z.of_nat (size (our_adults r))) in
  if (all_adults <? full_adults) || (all_adults =? 0) ||
     (all_adults - full_adults <? as_u8 (Z.of_nat CHUNK_COPY_COUNT))
  then Err NetworkFull
  else Ok (store_cost bytes full_adults all_adults prefix_len).
End store_cost.

(** * Lemmas *)

Lemma foldl_insert_spec (l : list XorName) (s : gset XorName) :
  foldl (λ acc adult, {[adult]} ∪ acc) s l = s ∪ list_to_set l.
Proof. revert s. induction l as [|x l IH]; intros s; simpl; [set_solver|]. rewrite IH. set_solver. Qed.

Lemma foldl_remove_spec (l : list XorName) (s : gset XorName) :
  foldl (λ acc adult, acc ∖ {[adult]}) s l = s ∖ list_to_set l.
Proof. revert s. induction l as [|x l IH]; intros s; simpl; [set_solver|]. rewrite IH. set_solver. Qed.

Lemma names_of_list_to_set (s : gset XorName) : list_to_set (names_of s) = s.
Proof. apply set_eq. intros x. by rewrite elem_of_list_to_set, elem_of_names_of. Qed.

(** Taking the first [k] of a sorted list keeps the [k] smallest. *)
Lemma take_sorted_closest {A} (R : A → A → Prop) (k : nat) (l : list A) x y :
  StronglySorted R l → x ∈ take k l → y ∈ l → y ∉ take k l → R x y.
Proof.
  intros Hs. revert k. induction Hs as [|z l Hs IH Hz]; intros k; [by rewrite take_nil; intros ?%elem_of_nil|].
  destruct k as [|k]; simpl; [by intros ?%elem_of_nil|].
  rewrite !elem_of_cons. intros [->|Hx] [->|Hy] Hny; try tauto.
  - rewrite Forall_forall in Hz. auto.
  - eapply IH; eauto.
Qed.

(** The candidates of a chunk, closest first. *)
Definition candidates (r : Routing) (full : gset XorName) (target : XorName) : list XorName :=
  filter (λ n, n ∉ full) (our_adults_sorted_by_distance_to r target).

Lemma candidates_elem r full target n :
  RoutingLaws r → n ∈ candidates r full target ↔ n ∈ our_adults r ∖ full.
Proof.
  intros HR. unfold candidates. rewrite list_elem_of_filter, (our_adults_sorted_elem r target n HR).
  set_solver.
Qed.

Lemma candidates_length r full target :
  RoutingLaws r → length (candidates r full target) = size (our_adults r ∖ full).
Proof.
  intros HR. rewrite <- (size_list_to_set (C := gset XorName)).
  - f_equal. apply set_eq. intros x. by rewrite elem_of_list_to_set, candidates_elem.
  - apply NoDup_filter. by apply our_adults_sorted_NoDup.
Qed.

Lemma get_chunk_holders_size r full target :
  RoutingLaws r →
  size (get_chunk_holder_adults r full target) = (CHUNK_COPY_COUNT `min` size (our_adults r ∖ full))%nat.
Proof.
  intros HR. unfold get_chunk_holder_adults, non_full_adults_closest_to. fold (candidates r full target).
  rewrite size_list_to_set, length_take; [by rewrite candidates_length|].
  eapply sublist_NoDup; [|apply sublist_take]. apply NoDup_filter. by apply our_adults_sorted_NoDup.
Qed.

Lemma get_chunk_holders_adults r full target n :
  RoutingLaws r → n ∈ get_chunk_holder_adults r full target → n ∈ our_adults r ∧ n ∉ full.
Proof.
  intros HR. unfold get_chunk_holder_adults, non_full_adults_closest_to.
  rewrite elem_of_list_to_set. intros Hn. apply elem_of_take in Hn as (i & Hi & _).
  apply list_elem_of_lookup_2 in Hi. fold (candidates r full target) in Hi.
  apply candidates_elem in Hi; [|done]. set_solver.
Qed.

(** * Properties *)

(** The holders of a chunk are adults of the section that are not full,
    as many as there are up to four, and no adult that was left out is
    closer to the chunk than a chosen one. *)
Theorem chunk_holders_closest r full target :
  RoutingLaws r →
  let holders := get_chunk_holder_adults r full target in
  holders ⊆ our_adults r ∖ full ∧
  size holders = (4 `min` size (our_adults r ∖ full))%nat ∧
  ∀ n m, n ∈ holders → m ∈ our_adults r ∖ full → m ∉ holders →
         cmp_leb (cmp_distance target n m) = true.
Proof.
  intros HR holders. split; [|split].
  - intros n [? ?]%get_chunk_holders_adults; set_solver.
  - by apply get_chunk_holders_size.
  - intros n m. unfold holders, get_chunk_holder_adults, non_full_adults_closest_to.
    fold (candidates r full target). rewrite !elem_of_list_to_set.
    rewrite <- (candidates_elem r full target m HR). intros Hn Hm Hnm.
    refine (take_sorted_closest (cle (cmp_distance target)) _ _ n m _ Hn Hm Hnm).
    apply StronglySorted_filter, (adults_sorted_sorted r HR).
Qed.

(** The three writers of the set of full adults do what their loops are
    for: union, difference, and keeping the members only. *)
Lemma full_adults_writers full s :
  insert_full_adults full s = full ∪ s ∧
  remove_full_adults full s = full ∖ s ∧
  cap_retain_members_only full s = full ∩ s ∧
  ∀ p, full_adults_matching (insert_full_adults full s) p =
       full_adults_matching full p ∪ full_adults_matching s p.
Proof.
  assert (insert_full_adults full s = full ∪ s) as Hins.
  { unfold insert_full_adults. by rewrite foldl_insert_spec, names_of_list_to_set. }
  split; [done|]. split; [|split].
  - unfold remove_full_adults. by rewrite foldl_remove_spec, names_of_list_to_set.
  - unfold cap_retain_members_only. rewrite foldl_remove_spec. apply set_eq. intros x.
    rewrite elem_of_difference, elem_of_list_to_set, list_elem_of_filter, elem_of_names_of, elem_of_intersection.
    destruct (decide (x ∈ s)); tauto.
  - intros p. rewrite Hins. unfold full_adults_matching. apply set_eq. intros x.
    rewrite elem_of_union, !elem_of_list_to_set, !list_elem_of_filter, !elem_of_names_of, elem_of_union. tauto.
Qed.

(** In a section of fewer than 256 adults, a write is priced exactly
    when at least four adults are not full, the price is a positive [u64],
    and otherwise the answer is [NetworkFull]. *)
Theorem store_cost_from_spec powf r full bytes :
  full ⊆ our_adults r → (size (our_adults r) < 256)%nat →
  if bool_decide (CHUNK_COPY_COUNT ≤ size (our_adults r ∖ full))%nat
  then ∃ cost, store_cost_from powf r full bytes = Ok cost ∧ 1 ≤ cost ≤ u64_max
  else store_cost_from powf r full bytes = Err NetworkFull.
Proof.
  intros Hsub Hsize. unfold store_cost_from, full_adults_count, as_u8.
  unfold AdultsStorageInfo in *.
  pose proof (subseteq_size _ _ Hsub) as Hle. rewrite size_difference by done.
  rewrite !Z.mod_small by (unfold CHUNK_COPY_COUNT; lia). unfold CHUNK_COPY_COUNT.
  case_bool_decide as Hn.
  - destruct (Z.ltb_spec (Z.of_nat (size (our_adults r))) (Z.of_nat (size full))); [lia|].
    destruct (Z.eqb_spec (Z.of_nat (size (our_adults r))) 0); [lia|].
    destruct (Z.ltb_spec (Z.of_nat (size (our_adults r)) - Z.of_nat (size full)) (Z.of_nat 4)); [lia|].
    eexists. split; [reflexivity|]. unfold store_cost.
    pose proof (to_u64_range true) as Hr. unfold f64_round_as_u64, in_u64 in *.
    match goal with |- context [to_u64 true ?x] => specialize (Hr x) end. unfold u64_max in *. lia.
  - destruct (Z.ltb_spec (Z.of_nat (size (our_adults r)) - Z.of_nat (size full)) (Z.of_nat 4)); [|lia].
    by rewrite !orb_true_r.
Qed.

(** The count of adults is cut to a byte, so a section with 256 adults
    (or any multiple) is taken for a full network whatever its free space. *)
Theorem store_cost_256_adults_network_full powf r full bytes :
  (Z.of_nat (size (our_adults r)) mod 256 = 0) → store_cost_from powf r full bytes = Err NetworkFull.
Proof.
  intros Hmod. unfold store_cost_from.
  assert (as_u8 (Z.of_nat (size (our_adults r))) = 0) as -> by exact Hmod.
  by rewrite Z.eqb_refl, orb_true_r.
Qed.

(** C33: when [powf] is exact on powers of two, a section's share of the
    supply is the supply divided by the number of sections, rounded down,
    for every prefix length up to 64. *)
Theorem max_section_nanos_exact powf n :
  (∀ k, (k ≤ 64)%nat → powf (f64_of_Z 2) (f64_of_Z (Z.of_nat k)) = f64_of_Z (2 ^ Z.of_nat k)) →
  (n ≤ 64)%nat → max_section_nanos powf n = MAX_SUPPLY / 2 ^ Z.of_nat n.
Proof.
  intros Hpow Hn. unfold max_section_nanos, f64_lit. rewrite Hpow by done.
  assert (Forall (λ k, f64_floor_as_u64 (f64_div (f64_of_Z MAX_SUPPLY) (f64_of_Z (2 ^ Z.of_nat k)))
                       = MAX_SUPPLY / 2 ^ Z.of_nat k) (seq 0 65)) as Hall.
  { apply (bool_decide_unpack _). vm_compute. exact I. }
  rewrite Forall_forall in Hall. apply Hall. apply elem_of_seq. lia.
Qed.
End capacity.

Module Witness.
Import ToyCrates ToyRouting.

Definition peer (n : N) : Peer := mkPeer (nm n) 5.
Definition adults : list Peer := peer <$> [3; 9; 12; 20; 33; 40; 51]%N.
Definition r0 : Routing := toy_routing [] adults [].
Definition full0 : gset XorName := {[ nm 9 ]}.

Lemma r0_laws : RoutingLaws r0.
Proof. apply toy_routing_laws. apply (bool_decide_unpack _). vm_compute. exact I. Qed.

Lemma chunk_holders_closest_witness :
  let holders := get_chunk_holder_adults r0 full0 (nm 8) in
  holders ⊆ our_adults r0 ∖ full0 ∧ size holders = (4 `min` size (our_adults r0 ∖ full0))%nat ∧
  ∀ n m, n ∈ holders → m ∈ our_adults r0 ∖ full0 → m ∉ holders →
         cmp_leb (cmp_distance (nm 8) n m) = true.
Proof. apply (chunk_holders_closest r0 full0 (nm 8)), r0_laws. Defined.

Example holders_of_8 :
  bool_decide (get_chunk_holder_adults r0 full0 (nm 8) = {[nm 3; nm 12; nm 20; nm 40]}) = true.
Proof. vm_compute. reflexivity. Qed.

(** A [powf] that is right for the exponents the code uses: repeated
    products and the square root. *)
Fixpoint f64_pow (x : f64) (n : nat) : f64 :=
  match n with O => f64_of_Z 1 | S n => f64_mul x (f64_pow x n) end.
Definition toy_powf (x y : f64) : f64 :=
  if SpecFloat.SFeqb y (f64_ratio 1 2) then f64_sqrt x else f64_pow x (Z.to_nat (f64_floor_as_u64 y)).

(** The value of the repository's unit test. *)
Example calculates_store_cost : store_cost toy_powf 1000000 3 24 4 = 15300364.
Proof. vm_compute. reflexivity. Qed.

Lemma store_cost_from_spec_witness :
  ∃ cost, store_cost_from toy_powf r0 full0 1000000 = Ok cost ∧ 1 ≤ cost ≤ u64_max.
Proof.
  assert (bool_decide (CHUNK_COPY_COUNT ≤ size (our_adults r0 ∖ full0))%nat = true) as Hn
    by (vm_compute; reflexivity).
  pose proof (store_cost_from_spec toy_powf r0 full0 1000000) as Hspec. rewrite Hn in Hspec.
  apply Hspec; [apply (bool_decide_unpack _); vm_compute; exact I|vm_compute; lia].
Defined.

Definition many : Routing :=
  toy_routing [] ((λ n, peer (N.of_nat n)) <$> seq 0 256) [].
Lemma store_cost_256_adults_network_full_witness :
  store_cost_from toy_powf many ∅ 1 = Err NetworkFull.
Proof.
  apply (store_cost_256_adults_network_full toy_powf many ∅ 1). vm_compute. reflexivity.
Defined.

Lemma max_section_nanos_exact_witness :
  max_section_nanos toy_powf 61 = MAX_SUPPLY / 2 ^ Z.of_nat 61.
Proof.
  apply (max_section_nanos_exact toy_powf 61); [|lia]. intros k Hk.
  assert (Forall (λ k, toy_powf (f64_of_Z 2) (f64_of_Z (Z.of_nat k)) = f64_of_Z (2 ^ Z.of_nat k))
            (seq 0 65)) as Hall.
  { repeat (apply Forall_cons; split; [vm_compute; reflexivity|]). apply Forall_nil. done. }
  rewrite Forall_forall in Hall. apply Hall. apply elem_of_seq. lia.
Defined.
End Witness.
