(* ===== verification/Chunks.v ===== *)
(** [src/chunks] and [src/node/role/adult_role.rs]: what an adult does with the
    blobs it holds: reads, writes, replication, and the move of chunks when
    the adults of the section change.

    [AdultRole] shares its [Chunks] behind one [RwLock]; each call below takes
    the lock for one store operation at a time, in program order. *)

From S2P Require Import Prelude Crates Messages Disk Toy F64 UsedSpace ChunkStore Network Capacity.

Section chunks.
Context `{MO : MessagingOps} `{DO : !DataOpsCrate}.
Context `{SA : !Serde BlobAddress} `{SB : !Serde Blob}.

(** [Chunks] holds a [ChunkStorage], which holds a [BlobChunkStore]. *)
Definition Chunks : Type := CS.

(** * chunk_storage.rs *)

Definition storage_new (root : path) (max_capacity : Z) : M Error Fs ChunkStore :=
  cs_new (T := Blob) root max_capacity.

Definition storage_keys : M Error Chunks (list BlobAddress) := keys.

Definition try_store (data : Blob) : M Error Chunks unit :=
  let! exists_ := has (blob_address data) in
  if (exists_ : bool) then throw DataExists else put data.

Definition store (data : Blob) : M Error Chunks NodeDuty :=
  try_store data ;;; ret NoOp.

Definition storage_get_chunk (address : BlobAddress) : M Error Chunks Blob := get_chunk address.
Definition delete_chunk (address : BlobAddress) : M Error Chunks unit := delete address.

(** [ChunkStorage::get] *)
Definition storage_get (address : BlobAddress) (msg_id : MessageId) : M Error Chunks NodeDuty :=
  let! r := try (storage_get_chunk address) in
  let result := map_err (λ _, EmDataNotFound (BlobAddr address)) r in
  ret (Send (mkOutgoingMsg
    (MtNode (NmNodeQueryResponse (NqrGetChunk result) (in_response_to msg_id) msg_id))
    (DstSection (blob_address_name address)) false AggNone)).

Definition storage_store_for_replication (blob : Blob) : M Error Chunks unit :=
  let! exists_ := has (blob_address blob) in
  if (exists_ : bool) then ret tt else put blob.

Definition storage_used_space_ratio (st : ChunkStore) : f64 := used_space_ratio st.

Definition invalid_delete (msg_id : MessageId) : string :=
  "ChunkStorage: Invalid DeletePrivate(Blob::Public) encountered: " +:+ debug_message_id msg_id.

(** [ChunkStorage::delete] *)
Definition storage_delete (address : BlobAddress) (msg_id : MessageId) (requester : PublicKey) :
    M Error Chunks NodeDuty :=
  let! exists_ := has address in
  if negb exists_ then ret NoOp else
  let! found := try (storage_get_chunk address) in
  let! res := (match found with
               | Ok (Private data) =>
                   if bool_decide (priv_blob_owner data = requester) then
                     let! r := try (delete_chunk address) in
                     ret (map_err (λ _, EmFailedToDelete) r)
                   else ret (Err (EmInvalidOwners requester))
               | Ok (Public _) => ret (Err (EmInvalidOperation (invalid_delete msg_id)))
               | Err _ => ret (Err EmNoSuchKey)
               end) in
  lift (map_err ClientMsgErr res) ;;; ret NoOp.

(** * mod.rs *)

Definition MAX_STORAGE_USAGE_RATIO : f64 := f64_ratio 1 2.

Definition chunks_new (root : path) (max_capacity : Z) : M Error Fs ChunkStore :=
  storage_new root max_capacity.
Definition chunks_keys : M Error Chunks (list BlobAddress) := storage_keys.
Definition remove_chunk (address : BlobAddress) : M Error Chunks unit := delete_chunk address.
Definition chunks_get_chunk (address : BlobAddress) : M Error Chunks Blob := storage_get_chunk address.

Definition chunks_read (read : BlobRead) (msg_id : MessageId) : M Error Chunks NodeDuty :=
  match read with BlobGet address => storage_get address msg_id end.

Definition chunks_write (write : BlobWrite) (msg_id : MessageId) (requester : PublicKey) :
    M Error Chunks NodeDuty :=
  match write with
  | BlobNew data => store data
  | BlobDeletePrivate address => storage_delete address msg_id requester
  end.

Definition check_storage (st : ChunkStore) : Result NodeDuties :=
  if f64_ltb MAX_STORAGE_USAGE_RATIO (storage_used_space_ratio st)
  then Ok (duties_from ReachingMaxCapacity) else Ok [].

Definition chunks_store_for_replication (blob : Blob) : M Error Chunks NodeDuty :=
  storage_store_for_replication blob ;;; ret NoOp.

(** * adult_role.rs *)

Definition compute_holders (addr : BlobAddress) (adult_list : gset XorName) : gset XorName :=
  list_to_set (take CHUNK_COPY_COUNT
    (sort_by (cmp_distance (blob_address_name addr)) (names_of adult_list))).

Section reorganize.
Context (our_name : XorName) (new_adults lost_adults remaining : gset XorName).

Definition new_holders (addr : BlobAddress) : gset XorName :=
  compute_holders addr (remaining ∪ new_adults).
Definition old_holders (addr : BlobAddress) : gset XorName :=
  compute_holders addr (remaining ∪ lost_adults).
Definition we_are_not_holder_anymore (addr : BlobAddress) : bool :=
  negb (bool_decide (our_name ∈ new_holders addr)).
Definition new_adult_is_holder (addr : BlobAddress) : bool :=
  negb (bool_decide (new_holders addr ## new_adults)).
Definition lost_old_holder (addr : BlobAddress) : bool :=
  negb (bool_decide (old_holders addr ## lost_adults)).
Definition must_republish (addr : BlobAddress) : bool :=
  we_are_not_holder_anymore addr || new_adult_is_holder addr || lost_old_holder addr.

(** [AdultRole::republish_and_cache] *)
Definition republish_and_cache (addr : BlobAddress) : M Error Chunks (option (Blob * gset XorName)) :=
  if must_republish addr then
    let! r := try (chunks_get_chunk addr) in
    match r with
    | Err _ => ret None
    | Ok chunk =>
        (if we_are_not_holder_anymore addr then try (remove_chunk addr) ;;; ret tt else ret tt) ;;;
        ret (Some (chunk, new_holders addr))
    end
  else ret None.

Definition reorganize_step (data_for_replication : gmap Blob (gset XorName)) (addr : BlobAddress) :
    M Error Chunks (gmap Blob (gset XorName)) :=
  let! r := republish_and_cache addr in
  match r with
  | Some (data, holders) => ret (<[data := holders]> data_for_replication)
  | None => ret data_for_replication
  end.

(** The messages at the end; [fresh] is the stream of random ids of
    [MessageId::new]. *)
Definition replication_duties (fresh : nat → MessageId) (data_for_replication : gmap Blob (gset XorName)) : NodeDuties :=
  imap (λ i '(data, targets),
         SendToNodes (NmNodeCmd (NcSystem (ReplicateChunkCmd data)) (fresh i)) targets AggNone)
       (btree_entries blob_cmp data_for_replication).

(** [AdultRole::reorganize_chunks] *)
Definition reorganize_chunks (fresh : nat → MessageId) : M Error Chunks NodeDuties :=
  let! keys := chunks_keys in
  let! data_for_replication := fold_m reorganize_step keys ∅ in
  ret (replication_duties fresh data_for_replication).
End reorganize.

(** * Lemmas *)

Context `{DL : !DataOpsLaws} `{EL : !EncodingLaws} `{SAL : !SerdeLaws BlobAddress} `{SBL : !SerdeLaws Blob}.

Lemma blob_address_id b : blob_address b = blob_id b.
Proof. destruct b; simpl; [apply blob_address_public|apply blob_address_private]. Qed.

Definition addr_encodable (a : BlobAddress) : Prop := is_ok (ser a) = true.

(** [put_holds] with the id of a blob spelled out. *)
Lemma put_blob_holds s m (b : Blob) :
  holds s m → addr_encodable (blob_id b) → is_ok (ser b) = true →
  ∃ r s', put b s = (r, s') ∧
    ((r = Ok tt ∧ holds s' (kv_set (blob_id b) (Some b) m)) ∨
     (r = Err NotEnoughSpace ∧ holds s' (kv_set (blob_id b) None m))).
Proof. exact (put_holds s m b). Qed.

Lemma elem_of_replication_duties fresh data c holders :
  (∃ id, SendToNodes (NmNodeCmd (NcSystem (ReplicateChunkCmd c)) id) holders AggNone ∈ replication_duties fresh data) ↔
  data !! c = Some holders.
Proof.
  rewrite <- (elem_of_btree_entries blob_cmp). unfold replication_duties. split.
  - intros (id & (i & Hi)%list_elem_of_lookup). rewrite list_lookup_imap in Hi.
    apply fmap_Some in Hi as ([c' h] & Hi & Hd). simplify_eq/=. by apply list_elem_of_lookup_2 in Hi.
  - intros [i Hi]%list_elem_of_lookup. exists (fresh i). apply list_elem_of_lookup. exists i.
    by rewrite list_lookup_imap, Hi.
Qed.

(** What moving the chunks of [l] leaves in the store. *)
Definition after_reorganize (our_name : XorName) (new_adults remaining : gset XorName)
    (l : list BlobAddress) (m : kv (T := Blob) (Id := BlobAddress)) : kv (T := Blob) (Id := BlobAddress) :=
  λ a, if decide (a ∈ l ∧ we_are_not_holder_anymore our_name new_adults remaining a = true)
       then None else m a.

Section reorganize_lemmas.
Context (our_name : XorName) (new_adults lost_adults remaining : gset XorName).
Implicit Types (m : kv (T := Blob) (Id := BlobAddress)).
Let must := must_republish our_name new_adults lost_adults remaining.
Let gone := we_are_not_holder_anymore our_name new_adults remaining.
Let targets := new_holders new_adults remaining.
Let step := reorganize_step our_name new_adults lost_adults remaining.

(** One turn of the loop: the chunk is recorded with its new holders when
    it must be, and dropped when we no longer hold it. *)
Lemma reorganize_step_holds s m acc a :
  holds s m → addr_encodable a →
  ∃ s', step acc a s =
    (Ok (match m a with
         | Some c => if must a then <[c := targets a]> acc else acc
         | None => acc
         end), s') ∧
    holds s' (if gone a then kv_set a None m else m).
Proof.
  intros Hs Ha. unfold step, reorganize_step, republish_and_cache.
  change (must_republish _ _ _ _ a) with (must a). change (we_are_not_holder_anymore _ _ _ a) with (gone a).
  change (new_holders _ _ a) with (targets a).
  unfold chunks_get_chunk, storage_get_chunk, remove_chunk, delete_chunk.
  unfold bind at 1. destruct (must a) eqn:Hmust.
  - unfold bind at 1. unfold try at 1. rewrite (get_holds s m a Hs Ha).
    destruct (m a) as [c|] eqn:Hm.
    + destruct (gone a).
      * destruct (delete_holds s m a Hs Ha) as (s' & Hdel & Hs'). unfold_m. rewrite Hdel.
        exists s'. done.
      * exists s. done.
    + exists s. split; [done|]. destruct (gone a); [|done]. eapply holds_ext; [|exact Hs].
      intros a'. unfold kv_set. case_decide; congruence.
  - assert (gone a = false) as ->.
    { unfold must, must_republish in Hmust. fold gone in Hmust. by destruct (gone a). }
    exists s. split; [|done]. by destruct (m a).
Qed.

Lemma reorganize_loop_holds l s m acc :
  NoDup l → holds s m → Forall addr_encodable l → (∀ a c, m a = Some c → blob_id c = a) →
  ∃ acc' s', fold_m step l acc s = (Ok acc', s') ∧
    holds s' (after_reorganize our_name new_adults remaining l m) ∧
    ∀ c h, acc' !! c = Some h ↔
      if decide (blob_id c ∈ l ∧ m (blob_id c) = Some c ∧ must (blob_id c) = true)
      then h = targets (blob_id c) else acc !! c = Some h.
Proof.
  intros Hnd. revert s m acc. induction Hnd as [|a l Ha Hnd IH]; intros s m acc Hs Henc Hid.
  - exists acc, s. split; [done|]. split.
    + eapply holds_ext; [|exact Hs]. intros a. unfold after_reorganize.
      rewrite decide_False; [done|]. by intros [?%elem_of_nil _].
    + intros c h. rewrite decide_False; [reflexivity|]. by intros [?%elem_of_nil _].
  - inversion Henc as [|? ? Henca Hencl]; subst. cbn [fold_m]. unfold bind.
    destruct (reorganize_step_holds s m acc a Hs Henca) as (s1 & Hstep & Hs1).
    rewrite Hstep. set (m1 := if gone a then kv_set a None m else m) in *.
    assert (∀ a', a' ≠ a → m1 a' = m a') as Hm1.
    { intros a' Hne. unfold m1. destruct (gone a); [|done]. unfold kv_set. by rewrite decide_False. }
    assert (∀ a' c, m1 a' = Some c → blob_id c = a') as Hid1.
    { intros a' c. unfold m1. destruct (gone a); [|apply Hid]. unfold kv_set.
      case_decide; [done|]. apply Hid. }
    destruct (IH s1 m1 (match m a with
         | Some c => if must a then <[c := targets a]> acc else acc
         | None => acc end) Hs1 Hencl Hid1) as (acc' & s' & Hloop & Hs' & Hacc).
    exists acc', s'. split; [done|]. split.
    + eapply holds_ext; [|exact Hs']. intros a'. unfold after_reorganize. fold (gone a').
      destruct (decide (a' = a)) as [->|Hne].
      * rewrite decide_False by tauto. unfold m1. destruct (gone a) eqn:Hg.
        -- rewrite decide_True by (split; [by left|done]). unfold kv_set. by rewrite decide_True.
        -- by rewrite decide_False by (intros [_ ?]; congruence).
      * rewrite Hm1 by done. apply decide_ext. rewrite elem_of_cons. tauto.
    + intros c h. rewrite Hacc. destruct (decide (blob_id c = a)) as [<-|Hne].
      * rewrite decide_False by tauto. destruct (m (blob_id c)) as [c'|] eqn:Hmc.
        -- destruct (must (blob_id c)) eqn:Hmu.
           ++ destruct (decide (c' = c)) as [->|Hc].
              ** rewrite decide_True by (split; [by left|done]). rewrite lookup_insert_eq.
                 split; congruence.
              ** rewrite decide_False by (intros (_ & ? & _); congruence).
                 by rewrite lookup_insert_ne.
           ++ by rewrite decide_False by (intros (_ & _ & ?); congruence).
        -- by rewrite decide_False by (intros (_ & ? & _); congruence).
      * rewrite Hm1 by done.
        assert ((match m a with Some c0 => if must a then <[c0 := targets a]> acc else acc
                 | None => acc end) !! c = acc !! c) as ->.
        { destruct (m a) as [c'|] eqn:Hma; [|done]. destruct (must a); [|done].
          rewrite lookup_insert_ne; [done|]. intros ->. by apply Hne, Hid. }
        repeat case_decide; rewrite ?elem_of_cons in *; tauto.
Qed.
End reorganize_lemmas.

(** * Properties *)

(** What a write does on every branch.  A new blob is refused with
    [DataExists] when its address is taken, so a stored blob is never
    replaced; a blob is deleted only when it is private and the requester is
    its owner; every refusal leaves the stored blobs as they were. *)
Theorem chunks_write_spec s m w msg_id requester :
  holds s m →
  match w with
  | BlobNew b => addr_encodable (blob_id b) ∧ is_ok (ser b) = true
  | BlobDeletePrivate a => addr_encodable a
  end →
  ∃ r s', chunks_write w msg_id requester s = (r, s') ∧
  match w with
  | BlobNew b =>
      match m (blob_id b) with
      | Some _ => r = Err DataExists ∧ s' = s
      | None => (r = Ok NoOp ∧ holds s' (kv_set (blob_id b) (Some b) m)) ∨
                (r = Err NotEnoughSpace ∧ holds s' m)
      end
  | BlobDeletePrivate a =>
      match m a with
      | None => r = Ok NoOp ∧ s' = s
      | Some (Public _) => r = Err (ClientMsgErr (EmInvalidOperation (invalid_delete msg_id))) ∧ s' = s
      | Some (Private d) =>
          if decide (priv_blob_owner d = requester)
          then r = Ok NoOp ∧ holds s' (kv_set a None m)
          else r = Err (ClientMsgErr (EmInvalidOwners requester)) ∧ s' = s
      end
  end.
Proof.
  intros Hs Henc. destruct w as [b|a]; simpl.
  - destruct Henc as [Ha Hb]. unfold store, try_store. rewrite blob_address_id.
    unfold bind at 1 2. rewrite (has_holds s m _ Hs Ha). unfold throw, ret.
    destruct (m (blob_id b)) as [c|] eqn:Hm; simpl; [by eexists _, _|].
    destruct (put_blob_holds s m b Hs Ha Hb) as (r & s' & -> & [[-> Hs']|[-> Hs']]);
      eexists _, _; (split; [done|]); [by left|right]. split; [done|].
    eapply holds_ext; [|exact Hs']. intros a. unfold kv_set. case_decide; congruence.
  - unfold storage_delete, storage_get_chunk, delete_chunk.
    unfold bind at 1. rewrite (has_holds s m a Hs Henc). unfold ret.
    destruct (m a) as [[p|d]|] eqn:Hm; simpl; [..|by eexists _, _];
      unfold bind at 1, try; rewrite (get_holds s m a Hs Henc), Hm; unfold_m; [by eexists _, _|].
    destruct (delete_holds s m a Hs Henc) as (s' & Hdel & Hs').
    case_bool_decide as Ho; [rewrite Hdel|]; simpl; eexists _, _; (split; [done|]);
      [by rewrite decide_True|by rewrite decide_False].
Qed.

(** Taking a chunk for replication twice is the same as once: the first
    call stores it (or reports that there is no room), a chunk that is
    already held is left alone and the call succeeds. *)
Theorem replication_idempotent s m b :
  holds s m → addr_encodable (blob_id b) → is_ok (ser b) = true →
  ∃ r s1, chunks_store_for_replication b s = (r, s1) ∧
    ((r = Err NotEnoughSpace ∧ holds s1 m) ∨
     (r = Ok NoOp ∧ chunks_store_for_replication b s1 = (Ok NoOp, s1) ∧
      holds s1 (match m (blob_id b) with Some _ => m | None => kv_set (blob_id b) (Some b) m end))).
Proof.
  intros Hs Ha Hb.
  assert (∀ s m, holds s m → is_Some (m (blob_id b)) →
    chunks_store_for_replication b s = (Ok NoOp, s)) as Hagain.
  { intros s' m' Hs' Hm. unfold chunks_store_for_replication, storage_store_for_replication.
    unfold bind at 1 2. rewrite blob_address_id, (has_holds s' m' _ Hs' Ha).
    by rewrite bool_decide_true. }
  destruct (m (blob_id b)) as [c|] eqn:Hm.
  - assert (is_Some (m (blob_id b))) as HS by (rewrite Hm; eauto).
    eexists _, s. split; [by apply Hagain with m|]. right. eauto using Hagain.
  - unfold chunks_store_for_replication at 1, storage_store_for_replication.
    unfold bind at 1 2. rewrite blob_address_id, (has_holds s m _ Hs Ha), Hm. simpl.
    destruct (put_blob_holds s m b Hs Ha Hb) as (r & s' & -> & [[-> Hs']|[-> Hs']]);
      eexists _, s'; (split; [done|]); [right|left]; (split; [done|]).
    + split; [|done]. eapply Hagain; [exact Hs'|]. unfold kv_set. rewrite decide_True by done. eauto.
    + eapply holds_ext; [|exact Hs']. intros a. unfold kv_set. case_decide; congruence.
Qed.

(** After a change of the adults no chunk is lost: exactly the chunks
    whose holders changed are sent, each to its four new holders, and the
    chunks that leave this node's store are exactly those this node no
    longer holds, all of which were sent. *)
Theorem reorganize_chunks_spec our_name new_adults lost_adults remaining fresh s m :
  holds s m → no_stray (Id := BlobAddress) s → (∀ a, is_Some (m a) → addr_encodable a) →
  ∃ duties s',
    reorganize_chunks our_name new_adults lost_adults remaining fresh s = (Ok duties, s') ∧
    (∀ c holders,
      (∃ id, SendToNodes (NmNodeCmd (NcSystem (ReplicateChunkCmd c)) id) holders AggNone ∈ duties) ↔
      m (blob_id c) = Some c ∧ holders = new_holders new_adults remaining (blob_id c) ∧
      must_republish our_name new_adults lost_adults remaining (blob_id c) = true) ∧
    holds s' (λ a, if decide (our_name ∈ new_holders new_adults remaining a) then m a else None).
Proof.
  intros Hs Hstray Henc. unfold reorganize_chunks, chunks_keys, storage_keys.
  destruct (keys_none s m (holds_inv _ _ Hs) (holds_faults _ _ Hs) (holds_rep _ _ Hs) Hstray Henc)
    as (l & Hkeys & Hnd & Hl). unfold bind at 1. rewrite Hkeys.
  destruct (reorganize_loop_holds our_name new_adults lost_adults remaining l s m ∅)
    as (acc & s' & Hloop & Hs' & Hacc); [done|done| | |].
  { rewrite Forall_forall. intros a Ha%Hl. by apply Henc. }
  { intros a c Hm. refine (holds_id s m a c Hs _ Hm). apply Henc. eauto. }
  unfold bind at 1. rewrite Hloop. unfold ret. eexists _, _. split; [done|]. split.
  - intros c holders. specialize (Hacc c holders).
    rewrite lookup_empty in Hacc.
    assert (blob_id c ∈ l ↔ is_Some (m (blob_id c))) as Hlc by apply Hl.
    rewrite elem_of_replication_duties, Hacc. case_decide as Hd; [tauto|]. split; [done|].
    intros (Hm & _ & Hmust). destruct Hd. split; [apply Hlc; eauto|done].
  - eapply holds_ext; [|exact Hs']. intros a.
    unfold after_reorganize, we_are_not_holder_anymore.
    destruct (decide (our_name ∈ new_holders new_adults remaining a)) as [Hin|Hin].
    + rewrite decide_False; [done|]. rewrite bool_decide_true by done. by intros [_ ?].
    + rewrite (bool_decide_false (our_name ∈ _)) by done.
      case_decide as Hd; [done|]. destruct (m a) as [c|] eqn:Hm; [|done].
      destruct Hd. split; [|done]. apply Hl. eauto.
Qed.
End chunks.

Module Witness.
Import ToyCrates ToySerde.

(** The store that holds the private blob 5 of owner 1. *)
Definition s0 : CS := ChunkStore.Witness.filled.
Definition m0 : kv (T := Blob) (Id := BlobAddress) :=
  kv_set (5%N : BlobAddress) (Some (ChunkStore.Witness.blob 5%N)) (λ _, None).

Lemma s0_holds : holds s0 m0.
Proof. destruct ChunkStore.Witness.filled_ok as (Hi & Hf & Hr). split; [exact Hi|exact Hf|exact Hr]. Qed.

(** Key 2 is not the owner. *)
Lemma chunks_write_spec_witness :
  ∃ r s', chunks_write (BlobDeletePrivate (5%N : BlobAddress)) 77%N 2%N s0 = (r, s') ∧
    r = Err (ClientMsgErr (EmInvalidOwners 2%N)) ∧ s' = s0.
Proof.
  exact (chunks_write_spec s0 m0 (BlobDeletePrivate (5%N : BlobAddress)) 77%N 2%N s0_holds eq_refl).
Defined.

Lemma replication_idempotent_witness :
  ∃ r s1, chunks_store_for_replication (ChunkStore.Witness.blob 5%N) s0 = (r, s1) ∧
    ((r = Err NotEnoughSpace ∧ holds s1 m0) ∨
     (r = Ok NoOp ∧ chunks_store_for_replication (ChunkStore.Witness.blob 5%N) s1 = (Ok NoOp, s1) ∧
      holds s1 m0)).
Proof.
  exact (replication_idempotent s0 m0 (ChunkStore.Witness.blob 5%N) s0_holds eq_refl eq_refl).
Defined.

(** Node 40 held blob 5 with 1, 4 and 6; node 7, which is closer, joins. *)
Definition remaining0 : gset XorName := {[ nm 1; nm 4; nm 6; nm 40 ]}.
Lemma reorganize_chunks_spec_witness :
  ∃ duties s',
    reorganize_chunks (nm 40) {[nm 7]} ∅ remaining0 (λ i, N.of_nat i) s0 = (Ok duties, s') ∧
    (∀ c holders,
      (∃ id, SendToNodes (NmNodeCmd (NcSystem (ReplicateChunkCmd c)) id) holders AggNone ∈ duties) ↔
      m0 (blob_id c) = Some c ∧ holders = new_holders {[nm 7]} remaining0 (blob_id c) ∧
      must_republish (nm 40) {[nm 7]} ∅ remaining0 (blob_id c) = true) ∧
    holds s' (λ a, if decide (nm 40 ∈ new_holders {[nm 7]} remaining0 a) then m0 a else None).
Proof.
  refine (reorganize_chunks_spec (nm 40) {[nm 7]} ∅ remaining0 (λ i, N.of_nat i) s0 m0 s0_holds
            ChunkStore.Witness.filled_no_stray _).
  intros a _. reflexivity.
Defined.

Example reorganize_moves_5 :
  must_republish (nm 40) {[nm 7]} ∅ remaining0 (5%N : BlobAddress) = true ∧
  we_are_not_holder_anymore (nm 40) {[nm 7]} remaining0 (5%N : BlobAddress) = true.
Proof. split; vm_compute; reflexivity. Qed.
End Witness.
