(* ===== verification/AdultLiveness.v ===== *)
(** [src/metadata/adult_liveness.rs]: the reads of blobs that are under way,
    how many answers each adult owes, and which adults look unresponsive.

    A [HashMap] is iterated in an unspecified order; the model uses the order
    of [map_to_list]. *)

From S2P Require Import Prelude Crates Messages Toy F64 Network Capacity.

Section adult_liveness.
Context `{MO : MessagingOps}.

Definition NEIGHBOUR_COUNT : nat := 2.
Definition MIN_PENDING_OPS : Z := 10.
Definition PENDING_OP_TOLERANCE_RATIO : f64 := f64_ratio 1 10.

Record ReadOperation : Type := mkReadOperation {
  op_address : BlobAddress;
  op_origin : EndUser;
  op_targets : gset XorName;
  responded_with_success : bool;
}.
Definition set_targets (t : gset XorName) (op : ReadOperation) : ReadOperation :=
  mkReadOperation (op_address op) (op_origin op) t (responded_with_success op).
Definition set_responded (b : bool) (op : ReadOperation) : ReadOperation :=
  mkReadOperation (op_address op) (op_origin op) (op_targets op) b.

Record AdultLiveness : Type := mkAdultLiveness {
  ops : gmap MessageId ReadOperation;
  pending_ops : gmap XorName Z;
  closest_adults : gmap XorName (list XorName);
}.
Definition set_ops (o : gmap MessageId ReadOperation) (s : AdultLiveness) : AdultLiveness :=
  mkAdultLiveness o (pending_ops s) (closest_adults s).
Definition set_pending (p : gmap XorName Z) (s : AdultLiveness) : AdultLiveness :=
  mkAdultLiveness (ops s) p (closest_adults s).
Definition set_closest (c : gmap XorName (list XorName)) (s : AdultLiveness) : AdultLiveness :=
  mkAdultLiveness (ops s) (pending_ops s) c.

Definition liveness_new : AdultLiveness := mkAdultLiveness ∅ ∅ ∅.

(** The keys of [closest_adults]. *)
Definition tracked (s : AdultLiveness) : list XorName := (map_to_list (closest_adults s)).*1.

Definition closest_of (s : AdultLiveness) (key : XorName) : list XorName :=
  take NEIGHBOUR_COUNT (sort_by (cmp_distance key) (filter (λ name, key ≠ name) (tracked s))).

Definition recompute_closest_adults (s : AdultLiveness) : AdultLiveness :=
  let closest_adults_collection := (λ key, (key, closest_of s key)) <$> tracked s in
  set_closest (list_to_map closest_adults_collection ∪ closest_adults s) s.

(** One turn of the loop of [increment_pending_op]. *)
Definition increment_one (s : AdultLiveness) (node : XorName) : AdultLiveness :=
  let s := set_pending (<[node := default 0 (pending_ops s !! node) + 1]> (pending_ops s)) s in
  match closest_adults s !! node with
  | Some _ => s
  | None => recompute_closest_adults (set_closest (<[node := []]> (closest_adults s)) s)
  end.
Definition increment_pending_op (targets : gset XorName) (s : AdultLiveness) : AdultLiveness :=
  foldl increment_one s (names_of targets).

Definition new_read (msg_id : MessageId) (address : BlobAddress) (origin : EndUser)
    (targets : gset XorName) (s : AdultLiveness) : bool * AdultLiveness :=
  match ops s !! msg_id with
  | Some _ => (false, s)
  | None =>
      let s := set_ops (<[msg_id := mkReadOperation address origin targets false]> (ops s)) s in
      (true, increment_pending_op targets s)
  end.

Definition remove_target (msg_id : MessageId) (name : XorName) (s : AdultLiveness) : AdultLiveness :=
  let s := match pending_ops s !! name with
           | Some count => if 0 <? count then set_pending (<[name := count - 1]> (pending_ops s)) s else s
           | None => s
           end in
  let '(complete, s) :=
    match ops s !! msg_id with
    | Some operation =>
        let operation := set_targets (op_targets operation ∖ {[name]}) operation in
        (bool_decide (op_targets operation = ∅), set_ops (<[msg_id := operation]> (ops s)) s)
    | None => (true, s)
    end in
  if (complete : bool) then set_ops (delete msg_id (ops s)) s else s.

(** One turn of the loop of [retain_members_only]. *)
Definition drop_member (current_members : gset XorName) (s : AdultLiveness) (name : XorName) : AdultLiveness :=
  if bool_decide (name ∈ current_members) then s else
  let s := set_closest (delete name (closest_adults s))
             (set_pending (delete name (pending_ops s)) s) in
  let message_ids := (map_to_list (ops s)).*1 in
  foldl (λ s msg_id, remove_target msg_id name s) s message_ids.

Definition retain_members_only (current_members : gset XorName) (s : AdultLiveness) : AdultLiveness :=
  let old_members := tracked s in
  recompute_closest_adults (foldl (drop_member current_members) s old_members).

Definition record_adult_read_liveness (correlation_id : MessageId) (src : XorName) (success : bool)
    (s : AdultLiveness) : option (BlobAddress * EndUser) * AdultLiveness :=
  let s := remove_target correlation_id src s in
  match ops s !! correlation_id with
  | None => (None, s)
  | Some op =>
      if (bool_decide (size (op_targets op) < CHUNK_COPY_COUNT)%nat) && responded_with_success op
      then (None, s)
      else (Some (op_address op, op_origin op),
            set_ops (<[correlation_id := set_responded success op]> (ops s)) s)
  end.

(** [iter().max()] *)
Definition max_of (l : list Z) : option Z :=
  match l with [] => None | x :: l => Some (foldl Z.max x l) end.

Definition pending_of (s : AdultLiveness) (n : XorName) : Z := default 0 (pending_ops s !! n).

Definition find_unresponsive_adults (s : AdultLiveness) : list (XorName * Z) :=
  omap (λ '(adult, neighbours),
    match max_of (pending_of s <$> neighbours) with
    | Some max_pending_by_neighbours =>
        let adult_pending_ops := pending_of s adult in
        if (MIN_PENDING_OPS <? adult_pending_ops) && (MIN_PENDING_OPS <? max_pending_by_neighbours) &&
           f64_ltb (f64_of_Z max_pending_by_neighbours)
             (f64_mul (f64_of_Z adult_pending_ops) PENDING_OP_TOLERANCE_RATIO)
        then Some (adult, adult_pending_ops) else None
    | None => None
    end) (map_to_list (closest_adults s)).

(** * Lemmas *)

(** Recomputing keeps the keys and gives every key its closest neighbours. *)
Lemma recompute_lookup s k :
  closest_adults (recompute_closest_adults s) !! k =
  (λ _, closest_of s k) <$> closest_adults s !! k.
Proof.
  unfold recompute_closest_adults. simpl. rewrite lookup_union.
  destruct (closest_adults s !! k) as [l|] eqn:Hk; simpl.
  - erewrite (elem_of_list_to_map_1 _ k (closest_of s k)); [by rewrite union_Some_l| |].
    + rewrite <- list_fmap_compose. simpl.
      change (fst ∘ _) with (λ key : XorName, key). rewrite list_fmap_id. apply NoDup_fst_map_to_list.
    + apply list_elem_of_fmap. exists k. split; [done|]. apply list_elem_of_fmap. exists (k, l).
      split; [done|]. by apply elem_of_map_to_list.
  - rewrite not_elem_of_list_to_map_1; [done|]. rewrite <- list_fmap_compose.
    intros (k' & -> & Hk')%list_elem_of_fmap. simpl in Hk.
    apply list_elem_of_fmap in Hk' as ([k2 l] & -> & Hl). apply elem_of_map_to_list in Hl.
    simpl in Hk. congruence.
Qed.

Lemma elem_of_tracked s k : k ∈ tracked s ↔ is_Some (closest_adults s !! k).
Proof.
  unfold tracked. rewrite list_elem_of_fmap. split.
  - intros ([k' l] & -> & Hl%elem_of_map_to_list). eauto.
  - intros [l Hl]. exists (k, l). split; [done|]. by apply elem_of_map_to_list.
Qed.

(** The effect of [remove_target] on the reads. *)
Lemma remove_target_ops id n s :
  ops (remove_target id n s) =
  match ops s !! id with
  | Some op => if bool_decide (op_targets op ∖ {[n]} = ∅) then delete id (ops s)
               else <[id := set_targets (op_targets op ∖ {[n]}) op]> (ops s)
  | None => ops s
  end.
Proof.
  unfold remove_target.
  assert (∀ p : gmap XorName Z, ops (set_pending p s) = ops s) as Hp by done.
  set (s1 := match pending_ops s !! n with Some _ => _ | None => _ end).
  assert (ops s1 = ops s) as Hs1.
  { unfold s1. destruct (pending_ops s !! n) as [c|]; [|done]. by destruct (0 <? c). }
  rewrite Hs1. destruct (ops s !! id) as [op|] eqn:Hop; simpl.
  - case_bool_decide; simpl; rewrite ?Hs1; [|done]. by rewrite delete_insert_eq.
  - rewrite ?Hs1. by rewrite delete_id.
Qed.

Lemma remove_target_closest id n s : closest_adults (remove_target id n s) = closest_adults s.
Proof. unfold remove_target. repeat case_match; simplify_eq/=; done. Qed.

Lemma remove_targets_ops l n s id :
  NoDup l →
  ops (foldl (λ s msg_id, remove_target msg_id n s) s l) !! id =
  match ops s !! id with
  | Some op => if decide (id ∈ l) then
                 if bool_decide (op_targets op ∖ {[n]} = ∅) then None
                 else Some (set_targets (op_targets op ∖ {[n]}) op)
               else Some op
  | None => None
  end.
Proof.
  intros Hnd. revert s. induction Hnd as [|i l Hi Hnd IH]; intros s; cbn [foldl].
  - destruct (ops s !! id); [|done]. rewrite decide_False; [done|]. apply not_elem_of_nil.
  - rewrite IH, remove_target_ops. destruct (decide (i = id)) as [->|Hne].
    + destruct (ops s !! id) as [op|] eqn:Hop; [|by rewrite Hop].
      rewrite (decide_True _ _ (list_elem_of_here id l)). case_bool_decide.
      * by rewrite lookup_delete_eq.
      * rewrite lookup_insert_eq. by rewrite decide_False.
    + assert (match ops s !! i with
        | Some op => if bool_decide (op_targets op ∖ {[n]} = ∅) then delete i (ops s)
                     else <[i := set_targets (op_targets op ∖ {[n]}) op]> (ops s)
        | None => ops s end !! id = ops s !! id) as ->.
      { destruct (ops s !! i); [|done]. case_bool_decide;
          [by rewrite lookup_delete_ne|by rewrite lookup_insert_ne]. }
      destruct (ops s !! id); [|done]. repeat case_decide; rewrite ?elem_of_cons in *; naive_solver.
Qed.

Lemma recompute_ops s : ops (recompute_closest_adults s) = ops s.
Proof. done. Qed.

Lemma increment_ops targets s : ops (increment_pending_op targets s) = ops s.
Proof.
  unfold increment_pending_op. generalize (names_of targets) as l. intros l. revert s.
  induction l as [|n l IH]; intros s; simpl; [done|]. rewrite IH. unfold increment_one.
  simpl. by destruct (closest_adults s !! n).
Qed.

Lemma new_read_ops id a o t s :
  ops (new_read id a o t s).2 =
  match ops s !! id with Some _ => ops s | None => <[id := mkReadOperation a o t false]> (ops s) end.
Proof. unfold new_read. destruct (ops s !! id); simpl; [done|]. by rewrite increment_ops. Qed.

(** What a membership change leaves of a read: fewer targets, the rest as it
    was, and only targets that are still members or were never tracked. *)
Definition shrinks (op op' : ReadOperation) : Prop :=
  op_targets op' ⊆ op_targets op ∧ op_targets op' ≠ ∅ ∧
  responded_with_success op' = responded_with_success op.

Lemma drop_member_ops members s name id op' :
  (∀ id op, ops s !! id = Some op → op_targets op ≠ ∅) →
  ops (drop_member members s name) !! id = Some op' →
  ∃ op, ops s !! id = Some op ∧ shrinks op op' ∧ (name ∉ members → name ∉ op_targets op').
Proof.
  intros Hne. unfold drop_member. case_bool_decide as Hm.
  - intros Hop. exists op'. split; [done|]. split; [|done]. split; [done|]. split; [eauto|done].
  - simpl. rewrite remove_targets_ops by apply NoDup_fst_map_to_list. simpl.
    destruct (ops s !! id) as [op|] eqn:Hop; [|done].
    rewrite decide_True.
    + case_bool_decide as Hempty; [done|]. intros [= <-]. exists op. split; [done|].
      unfold shrinks. simpl. split; [split; [set_solver|done]|set_solver].
    + apply list_elem_of_fmap. exists (id, op). split; [done|]. by apply elem_of_map_to_list.
Qed.

Lemma drop_members_ops members l s id op' :
  (∀ id op, ops s !! id = Some op → op_targets op ≠ ∅) →
  ops (foldl (drop_member members) s l) !! id = Some op' →
  ∃ op, ops s !! id = Some op ∧ shrinks op op' ∧
        (∀ n, n ∈ l → n ∉ members → n ∉ op_targets op').
Proof.
  revert s. induction l as [|n l IH]; intros s Hne; cbn [foldl].
  - intros Hop. exists op'. split; [done|]. split.
    + split; [done|]. split; [eauto|done].
    + intros n ?%elem_of_nil. done.
  - intros Hop. apply IH in Hop as (op1 & Hop1 & (Hsub & Hne1 & Hr) & Hgone).
    2:{ intros i o Ho. apply drop_member_ops in Ho as (? & _ & (_ & ? & _) & _); done. }
    apply drop_member_ops in Hop1 as (op & Hop & (Hsub2 & _ & Hr2) & Hn); [|done].
    exists op. split; [done|]. split; [split; [set_solver|split; [done|congruence]]|].
    intros m [->|Hm]%elem_of_cons Hmem; [|by apply Hgone]. specialize (Hn Hmem). set_solver.
Qed.

Lemma drop_member_closest members s name :
  closest_adults (drop_member members s name) =
  if bool_decide (name ∈ members) then closest_adults s else delete name (closest_adults s).
Proof.
  unfold drop_member. case_bool_decide; [done|]. simpl.
  generalize ((map_to_list (ops s)).*1) as l. intros l.
  set (s1 := set_closest _ _). change (delete name (closest_adults s)) with (closest_adults s1).
  clearbody s1. revert s1. induction l as [|i l IH]; intros s1; simpl; [done|].
  by rewrite IH, remove_target_closest.
Qed.

Lemma drop_members_closest members l s k :
  is_Some (closest_adults (foldl (drop_member members) s l) !! k) ↔
  is_Some (closest_adults s !! k) ∧ (k ∈ l → k ∈ members).
Proof.
  revert s. induction l as [|n l IH]; intros s; cbn [foldl].
  - split; [|tauto]. intros ?. split; [done|]. by intros ?%elem_of_nil.
  - rewrite IH, drop_member_closest. rewrite elem_of_cons. case_bool_decide as Hn.
    + naive_solver.
    + rewrite lookup_delete_is_Some. naive_solver.
Qed.

(** * The invariant *)

(** The neighbours of [k]: the (at most two) closest other tracked adults. *)
Record neighbours_ok (s : AdultLiveness) (k : XorName) (l : list XorName) : Prop := {
  nb_count : length l = (NEIGHBOUR_COUNT `min` length (filter (λ n, k ≠ n) (tracked s)))%nat;
  nb_nodup : NoDup l;
  nb_tracked : ∀ n, n ∈ l → n ≠ k ∧ is_Some (closest_adults s !! n);
  nb_closest : ∀ n m, n ∈ l → is_Some (closest_adults s !! m) → m ≠ k → m ∉ l →
                      cmp_leb (cmp_distance k n m) = true;
}.

Record liveness_inv (s : AdultLiveness) : Prop := {
  live_targets : ∀ id op, ops s !! id = Some op → op_targets op ≠ ∅;
  live_tracked : ∀ id op n, ops s !! id = Some op → n ∈ op_targets op → is_Some (closest_adults s !! n);
  live_closest : ∀ k l, closest_adults s !! k = Some l → neighbours_ok s k l;
}.

Lemma neighbours_ok_eq s s' k l :
  closest_adults s' = closest_adults s → neighbours_ok s k l → neighbours_ok s' k l.
Proof.
  intros Heq [Hc Hnd Ht Hcl]. split; unfold tracked in *; rewrite ?Heq; done.
Qed.

Lemma tracked_perm s s' :
  (∀ k, is_Some (closest_adults s' !! k) ↔ is_Some (closest_adults s !! k)) → tracked s' ≡ₚ tracked s.
Proof.
  intros Hk. apply NoDup_Permutation; [apply NoDup_fst_map_to_list..|].
  intros k. by rewrite !elem_of_tracked.
Qed.

#[local] Opaque recompute_closest_adults.

Section with_laws.
Context `{XL : !XorNameLaws}.

Lemma recompute_neighbours s k l :
  closest_adults (recompute_closest_adults s) !! k = Some l →
  neighbours_ok (recompute_closest_adults s) k l.
Proof.
  rewrite recompute_lookup. intros (l0 & _ & ->)%fmap_Some.
  assert (∀ n, is_Some (closest_adults (recompute_closest_adults s) !! n) ↔
               is_Some (closest_adults s !! n)) as Hkeys
    by (intros n; rewrite recompute_lookup; apply fmap_is_Some).
  pose proof (tracked_perm s (recompute_closest_adults s) Hkeys) as Hperm.
  set (others := filter (λ n, k ≠ n) (tracked s)).
  assert (∀ n, n ∈ others ↔ k ≠ n ∧ is_Some (closest_adults s !! n)) as Hothers
    by (intros n; unfold others; by rewrite list_elem_of_filter, elem_of_tracked).
  split; unfold closest_of; fold others.
  - rewrite length_take, length_sort_by. unfold others. by rewrite Hperm.
  - eapply sublist_NoDup; [|apply sublist_take].
    apply NoDup_sort_by, NoDup_filter, NoDup_fst_map_to_list.
  - intros n (i & Hi%list_elem_of_lookup_2 & _)%elem_of_take. apply elem_of_sort_by, Hothers in Hi.
    rewrite Hkeys. naive_solver.
  - intros n m Hn Hm%Hkeys Hmk Hml.
    refine (take_sorted_closest (cle (cmp_distance k)) _ _ n m (sort_by_sorted (cmp_distance k) _) Hn _ Hml).
    apply elem_of_sort_by, Hothers. by split.
Qed.

Lemma increment_one_tracked s n k :
  is_Some (closest_adults (increment_one s n) !! k) ↔ k = n ∨ is_Some (closest_adults s !! k).
Proof.
  unfold increment_one. simpl. destruct (closest_adults s !! n) as [l|] eqn:Hn; simpl.
  - split; [by right|]. intros [->|]; [rewrite Hn; eauto|done].
  - rewrite recompute_lookup, fmap_is_Some. simpl. rewrite lookup_insert_is_Some'.
    split; (intros [?|?]; [by left|by right]).
Qed.

Lemma increment_one_closest s n :
  (∀ k l, closest_adults s !! k = Some l → neighbours_ok s k l) →
  ∀ k l, closest_adults (increment_one s n) !! k = Some l → neighbours_ok (increment_one s n) k l.
Proof.
  intros Hs k l. unfold increment_one. simpl. destruct (closest_adults s !! n) as [l'|] eqn:Hn; simpl.
  - intros Hk%Hs. eapply neighbours_ok_eq; [|exact Hk]. done.
  - apply recompute_neighbours.
Qed.

Lemma increment_tracked targets s :
  (∀ k l, closest_adults s !! k = Some l → neighbours_ok s k l) →
  (∀ k l, closest_adults (increment_pending_op targets s) !! k = Some l →
          neighbours_ok (increment_pending_op targets s) k l) ∧
  ∀ k, is_Some (closest_adults (increment_pending_op targets s) !! k) ↔
       k ∈ targets ∨ is_Some (closest_adults s !! k).
Proof.
  intros Hs. unfold increment_pending_op.
  enough (∀ l s, (∀ k l, closest_adults s !! k = Some l → neighbours_ok s k l) →
    (∀ k l', closest_adults (foldl increment_one s l) !! k = Some l' →
             neighbours_ok (foldl increment_one s l) k l') ∧
    ∀ k, is_Some (closest_adults (foldl increment_one s l) !! k) ↔ k ∈ l ∨ is_Some (closest_adults s !! k))
    as Hgen.
  { destruct (Hgen (names_of targets) s Hs) as [H1 H2]. split; [done|].
    intros k. by rewrite H2, elem_of_names_of. }
  clear s Hs. intros l. induction l as [|n l IH]; intros s Hs; simpl.
  - split; [done|]. intros k. rewrite elem_of_nil. tauto.
  - destruct (IH (increment_one s n)) as [H1 H2]; [by apply increment_one_closest|].
    split; [done|]. intros k. rewrite H2, increment_one_tracked, elem_of_cons. tauto.
Qed.

(** One call on the tracker; the caller never starts a read without
    targets. *)
Inductive lv_event : Type :=
| LvRead (id : MessageId) (a : BlobAddress) (o : EndUser) (t : gset XorName)
| LvResponse (id : MessageId) (src : XorName) (success : bool)
| LvRetain (members : gset XorName).

Definition lv_apply (e : lv_event) (s : AdultLiveness) : option (BlobAddress * EndUser) * AdultLiveness :=
  match e with
  | LvRead id a o t => (None, (new_read id a o t s).2)
  | LvResponse id src success => record_adult_read_liveness id src success s
  | LvRetain members => (None, retain_members_only members s)
  end.
Definition lv_ok (e : lv_event) : Prop :=
  match e with LvRead _ _ _ t => t ≠ ∅ | _ => True end.

Fixpoint lv_run (es : list lv_event) (s : AdultLiveness) : list (option (BlobAddress * EndUser)) * AdultLiveness :=
  match es with
  | [] => ([], s)
  | e :: es =>
      let '(r, s1) := lv_apply e s in
      let '(rs, s2) := lv_run es s1 in (r :: rs, s2)
  end.

Lemma remove_target_inv id n s : liveness_inv s → liveness_inv (remove_target id n s).
Proof.
  intros [Ht Htr Hc].
  assert (∀ id' op, ops (remove_target id n s) !! id' = Some op →
    op_targets op ≠ ∅ ∧ ∃ op0, ops s !! id' = Some op0 ∧ op_targets op ⊆ op_targets op0) as Hops.
  { intros id' op. rewrite remove_target_ops. destruct (ops s !! id) as [op1|] eqn:Hop1; [|by eauto].
    case_bool_decide; [rewrite lookup_delete_Some; intros [_ ?]; eauto|].
    rewrite lookup_insert_Some. intros [[<- <-]|[_ ?]]; [|by eauto]. simpl.
    split; [done|]. exists op1. split; [done|]. set_solver. }
  split.
  - intros id' op Hop. by apply Hops in Hop as [? _].
  - intros id' op m Hop Hm. rewrite remove_target_closest. apply Hops in Hop as (_ & op0 & Hop & Hsub).
    apply (Htr id' op0); [done|set_solver].
  - intros k l. rewrite remove_target_closest. intros Hk%Hc.
    eapply neighbours_ok_eq; [|exact Hk]. apply remove_target_closest.
Qed.

Lemma lv_apply_inv e s : lv_ok e → liveness_inv s → liveness_inv (lv_apply e s).2.
Proof.
  intros He Hs. destruct e as [id a o t|id src success|members]; simpl in *.
  - unfold new_read. destruct (ops s !! id) eqn:Hid; simpl; [done|]. destruct Hs as [Ht Htr Hc].
    set (s1 := set_ops _ s).
    assert (∀ k l, closest_adults s1 !! k = Some l → neighbours_ok s1 k l) as Hc1
      by (intros k l Hk%Hc; eapply neighbours_ok_eq; [|exact Hk]; done).
    destruct (increment_tracked t s1 Hc1) as [H1 H2].
    split; [| |exact H1]; rewrite increment_ops; simpl.
    + intros id' op. rewrite lookup_insert_Some. intros [[_ <-]|[_ ?]]; eauto.
    + intros id' op n. rewrite lookup_insert_Some, H2. intros [[_ <-]|[_ ?]]; simpl; eauto.
  - unfold record_adult_read_liveness. pose proof (remove_target_inv id src s Hs) as [Ht Htr Hc].
    set (s1 := remove_target id src s) in *. destruct (ops s1 !! id) as [op|] eqn:Hop; [|done].
    destruct (_ && _); simpl; [done|]. split; simpl.
    + intros id' op'. rewrite lookup_insert_Some. intros [[<- <-]|[_ ?]]; simpl; eauto.
    + intros id' op' n. rewrite lookup_insert_Some. intros [[<- <-]|[_ ?]]; simpl; eauto.
    + intros k l Hk%Hc. eapply neighbours_ok_eq; [|exact Hk]. done.
  - unfold retain_members_only. destruct Hs as [Ht Htr Hc]. split.
    + intros id op. rewrite recompute_ops.
      intros (? & _ & (_ & ? & _) & _)%drop_members_ops; done.
    + intros id op n. rewrite recompute_ops. intros (op0 & Hop & (Hsub & _ & _) & Hgone)%drop_members_ops Hn; [|done].
      rewrite recompute_lookup, fmap_is_Some. apply drop_members_closest. split.
      * apply (Htr id op0); [done|set_solver].
      * intros Hin. destruct (decide (n ∈ members)); [done|]. by destruct (Hgone n).
    + apply recompute_neighbours.
Qed.

Lemma lv_run_inv es s : Forall lv_ok es → liveness_inv s → liveness_inv (lv_run es s).2.
Proof.
  intros Hes. revert s. induction Hes as [|e es He Hes IH]; intros s Hs; simpl; [done|].
  pose proof (lv_apply_inv e s He Hs) as Hs1. destruct (lv_apply e s) as [r s1]. simpl in Hs1.
  specialize (IH s1 Hs1). by destruct (lv_run es s1).
Qed.

Lemma liveness_new_inv : liveness_inv liveness_new.
Proof. split; simpl; intros *; by rewrite lookup_empty. Qed.

(** Whether this event made a success of the read [id] go to the client. *)
Definition success_forwarded (id : MessageId) (er : lv_event * option (BlobAddress * EndUser)) : bool :=
  match er with
  | (LvResponse id' _ true, Some _) => bool_decide (id' = id)
  | _ => false
  end.

(** The events that may follow a read of [id] sent to [t]: no other read
    with the same message id, and answers by the nodes that were asked. *)
Definition follows (id : MessageId) (t : gset XorName) (e : lv_event) : Prop :=
  match e with
  | LvRead id' _ _ t' => id' ≠ id ∧ t' ≠ ∅
  | LvResponse id' src _ => id' = id → src ∈ t
  | LvRetain _ => True
  end.

(** The read is still waiting, and has been answered with success iff [b]. *)
Definition answered (id : MessageId) (t : gset XorName) (b : bool) (s : AdultLiveness) : Prop :=
  ∀ op, ops s !! id = Some op → op_targets op ⊆ t ∧ (b = true → responded_with_success op = true).

Lemma remove_target_answered id t b src s op :
  answered id t b s → ops (remove_target id src s) !! id = Some op →
  op_targets op ⊆ t ∖ {[src]} ∧ (b = true → responded_with_success op = true).
Proof.
  intros Ha. rewrite remove_target_ops. destruct (ops s !! id) as [op0|] eqn:Hop; [|by rewrite Hop].
  destruct (Ha op0 Hop) as [Hsub Hb]. case_bool_decide; [by rewrite lookup_delete_eq|].
  rewrite lookup_insert_eq. intros [= <-]. simpl. split; [set_solver|done].
Qed.

Lemma lv_apply_answered id t b e s :
  (size t ≤ CHUNK_COPY_COUNT)%nat → liveness_inv s → follows id t e → answered id t b s →
  let r := (lv_apply e s).1 in
  (b = true → success_forwarded id (e, r) = false) ∧
  answered id t (b || success_forwarded id (e, r)) (lv_apply e s).2.
Proof.
  intros Hsize Hs Hf Ha. destruct e as [id' a o t'|id' src success|members];
    cbn [lv_apply follows fst snd] in *.
  - split; [done|]. cbn [success_forwarded]. rewrite orb_false_r. intros op. rewrite new_read_ops.
    destruct (ops s !! id'); [apply Ha|]. rewrite lookup_insert_ne by tauto. apply Ha.
  - destruct (decide (id' = id)) as [->|Hne].
    + unfold record_adult_read_liveness. specialize (Hf eq_refl). pose proof (remove_target_answered id t b src s) as Hrem.
      set (s1 := remove_target id src s) in *. destruct (ops s1 !! id) as [op|] eqn:Hop.
      2:{ simpl. split; [by destruct success|]. intros op. by rewrite Hop. }
      destruct (Hrem op Ha eq_refl) as [Hsub Hb].
      assert (size (op_targets op) < CHUNK_COPY_COUNT)%nat as Hlt.
      { pose proof (subseteq_size _ _ Hsub) as Hle. rewrite size_difference in Hle by set_solver.
        rewrite size_singleton in Hle. assert (size t ≠ 0)%nat; [|lia].
        apply size_non_empty_iff. set_solver. }
      rewrite bool_decide_true by done. simpl. destruct (responded_with_success op) eqn:Hr; simpl.
      * split; [by destruct success|]. intros op'. rewrite Hop. intros [= <-].
        split; [set_solver|done].
      * split; [intros ->; by discriminate (Hb eq_refl)|].
        intros op'. simpl. rewrite lookup_insert_eq. intros [= <-]. simpl. split; [set_solver|].
        destruct success; simpl; [done|]. rewrite orb_false_r. exact Hb.
    + assert (ops (remove_target id' src s) !! id = ops s !! id) as Hsame.
      { rewrite remove_target_ops. destruct (ops s !! id'); [|done].
        case_bool_decide; [by rewrite lookup_delete_ne|by rewrite lookup_insert_ne]. }
      assert (success_forwarded id (LvResponse id' src success,
        (record_adult_read_liveness id' src success s).1) = false) as Hsf.
      { simpl. destruct success; [|done]. case_match; [|done]. by apply bool_decide_eq_false. }
      rewrite Hsf. split; [done|]. rewrite orb_false_r. clear Hsf.
      unfold record_adult_read_liveness. destruct (ops (remove_target id' src s) !! id') as [op'|]; simpl.
      * destruct (_ && _); intros op; simpl; rewrite ?lookup_insert_ne by done; rewrite Hsame; apply Ha.
      * intros op. rewrite Hsame. apply Ha.
  - split; [done|]. cbn [success_forwarded]. rewrite orb_false_r. intros op. unfold retain_members_only. rewrite recompute_ops.
    intros (op0 & Hop & (Hsub & _ & Hr) & _)%drop_members_ops; [|apply Hs].
    destruct (Ha op0 Hop) as [Hsub0 Hb]. split; [set_solver|]. rewrite Hr. exact Hb.
Qed.

Lemma lv_run_answered id t es s b :
  (size t ≤ CHUNK_COPY_COUNT)%nat → liveness_inv s → Forall (follows id t) es → answered id t b s →
  (length (filter (λ er, success_forwarded id er = true) (zip es (lv_run es s).1)) ≤
   if b then 0 else 1)%nat.
Proof.
  intros Hsize Hs Hes. revert s b Hs. induction Hes as [|e es He Hes IH]; intros s b Hs Ha; simpl.
  { destruct b; lia. }
  assert (lv_ok e) as Hok by (destruct e; simpl in *; tauto).
  pose proof (lv_apply_inv e s Hok Hs) as Hs1.
  destruct (lv_apply_answered id t b e s Hsize Hs He Ha) as [Hno Ha1].
  destruct (lv_apply e s) as [r s1]. cbn [fst snd] in *. specialize (IH s1 _ Hs1 Ha1).
  destruct (lv_run es s1) as [rs s2]. cbn [fst snd zip_with] in *. rewrite filter_cons.
  case_decide as Hf; [|apply not_true_is_false in Hf; by rewrite Hf, orb_false_r in IH].
  rewrite Hf, orb_true_r in IH. simpl. destruct b; [by rewrite Hno in Hf|lia].
Qed.

(** * Properties *)

(** C25: in every state the tracker can reach, a read under way waits for
    at least one answer and all its targets are tracked, and each tracked
    adult is compared with the closest (at most two) other tracked ones. *)
Theorem liveness_reachable_inv es :
  Forall lv_ok es → liveness_inv (lv_run es liveness_new).2.
Proof. intros Hes. apply lv_run_inv; [done|]. apply liveness_new_inv. Qed.

(** C26: a read sent to at most four holders yields at most one successful
    reply to the client, however the answers of the holders interleave with
    other reads, other answers and changes of membership. *)
Theorem at_most_one_success_per_read id a o t s es :
  liveness_inv s → ops s !! id = None → t ≠ ∅ → (size t ≤ CHUNK_COPY_COUNT)%nat →
  Forall (follows id t) es →
  (length (filter (λ er, success_forwarded id er = true)
     (zip es (lv_run es (new_read id a o t s).2).1)) ≤ 1)%nat.
Proof.
  intros Hs Hid Ht Hsize Hes. apply (lv_run_answered id t es (new_read id a o t s).2 false); try done.
  - by apply (lv_apply_inv (LvRead id a o t)).
  - intros op. rewrite new_read_ops, Hid, lookup_insert_eq. intros [= <-]. done.
Qed.
End with_laws.
End adult_liveness.

Module Witness.
Import ToyCrates.

Definition t0 : gset XorName := {[ nm 1; nm 2; nm 3; nm 4 ]}.
(** Two reads interleaved with the answers of their holders and a loss. *)
Definition es0 : list lv_event :=
  [LvResponse (mid 7) (nm 1) false; LvRead (mid 8) (baddr 6) (usr 2) {[ nm 2 ]}; LvResponse (mid 7) (nm 2) true;
   LvRetain {[ nm 2; nm 3 ]}; LvResponse (mid 7) (nm 3) true].

Lemma es0_follows : Forall (follows (mid 7) t0) es0.
Proof.
  repeat (apply Forall_cons; split); try apply Forall_nil; try done; simpl;
    try (intros _; apply (bool_decide_unpack _); vm_compute; exact I).
Qed.

Lemma liveness_reachable_inv_witness :
  liveness_inv (lv_run (LvRead (mid 7) (baddr 5) (usr 1) t0 :: es0) liveness_new).2.
Proof.
  apply (liveness_reachable_inv (LvRead (mid 7) (baddr 5) (usr 1) t0 :: es0)).
  repeat (apply Forall_cons; split); try apply Forall_nil; try done.
Defined.

Lemma at_most_one_success_per_read_witness :
  (length (filter (λ er, success_forwarded (mid 7) er = true)
     (zip es0 (lv_run es0 (new_read (mid 7) (baddr 5) (usr 1) t0 liveness_new).2).1)) ≤ 1)%nat.
Proof.
  apply (at_most_one_success_per_read (mid 7) (baddr 5) (usr 1) t0 liveness_new es0).
  - apply liveness_new_inv.
  - reflexivity.
  - done.
  - vm_compute. lia.
  - apply es0_follows.
Defined.

(** The first failure and the first success go to the client. *)
Example es0_replies :
  bool_decide ((lv_run es0 (new_read (mid 7) (baddr 5) (usr 1) t0 liveness_new).2).1 =
  [Some (baddr 5, usr 1); None; Some (baddr 5, usr 1); None; None]) = true.
Proof. vm_compute. reflexivity. Qed.
End Witness.
