(* ===== verification/BlobRecords.v ===== *)
(** [src/metadata/blob_records.rs], with the two message builders of
    [src/metadata/mod.rs]: what the elders do with requests on blobs, which
    the adults store. *)

From S2P Require Import Prelude Crates Messages Toy F64 Network Capacity AdultLiveness.

Section blob_records.
Context `{MO : MessagingOps} `{DO : !DataOpsCrate}.

(** * metadata/mod.rs: replies to the client *)

Definition build_client_query_response (response : QueryResponse) (msg_id : MessageId) (origin : EndUser) :
    OutgoingMsg :=
  mkOutgoingMsg (MtClient (CmProcess (PmQueryResponse (in_response_to msg_id) response msg_id)))
    (DstEndUser origin) false AggNone.

Definition build_client_error_response (error : CmdError) (msg_id : MessageId) (origin : EndUser) :
    OutgoingMsg :=
  mkOutgoingMsg (MtClient (CmProcess (PmCmdError (in_response_to msg_id) error msg_id)))
    (DstEndUser origin) false AggNone.

(** * blob_records.rs *)

(** [capacity] is the shared set of full adults; the network is the argument
    [r] of the operations that ask it. *)
Record BlobRecords : Type := mkBlobRecords {
  br_capacity : AdultsStorageInfo;
  br_liveness : AdultLiveness;
}.
Definition set_capacity (c : AdultsStorageInfo) (s : BlobRecords) : BlobRecords :=
  mkBlobRecords c (br_liveness s).
Definition set_liveness (l : AdultLiveness) (s : BlobRecords) : BlobRecords :=
  mkBlobRecords (br_capacity s) l.

Definition blob_records_new (capacity : AdultsStorageInfo) : BlobRecords :=
  mkBlobRecords capacity liveness_new.

Definition blob_get_data_of (prefix : Prefix) (s : BlobRecords) : BlobDataExchange :=
  mkBlobDataExchange (full_adults_matching (br_capacity s) prefix).

Definition blob_update (blob_data : BlobDataExchange) (s : BlobRecords) : BlobRecords :=
  set_capacity (insert_full_adults (br_capacity s) (full_adults_x blob_data)) s.

Definition br_retain_members_only (members : gset XorName) : M Error BlobRecords unit :=
  modify (λ s, set_capacity (cap_retain_members_only (br_capacity s) members) s) ;;;
  modify (λ s, set_liveness (retain_members_only members (br_liveness s)) s).

Definition increase_full_node_count (node_id : PublicKey) (s : BlobRecords) : BlobRecords :=
  set_capacity (insert_full_adults (br_capacity s) {[ name_of_pk node_id ]}) s.

Definition decrease_full_adults_count_if_present (node_name : XorName) (s : BlobRecords) : BlobRecords :=
  set_capacity (remove_full_adults (br_capacity s) {[ node_name ]}) s.

Definition send_error (error : Error) (msg_id : MessageId) (origin : EndUser) : M Error BlobRecords NodeDuty :=
  let error := convert_to_error_message error in
  ret (Send (build_client_error_response (CmdErrorData error) msg_id origin)).

(** [validate_data_owner] *)
Definition validate_data_owner (data : Blob) (requester : PublicKey) : Result unit :=
  if blob_is_private data then
    res_bind (ok_or (blob_owner data) (InvalidOwner requester)) (λ data_owner,
    if bool_decide (data_owner ≠ requester) then Err (InvalidOwner requester) else Ok tt)
  else Ok tt.

Section with_network.
Context (r : Routing).

Definition send_chunks_to_adults (data : Blob) (msg_id : MessageId) (client_signed : ClientSigned)
    (origin : EndUser) : M Error BlobRecords NodeDuty :=
  let! s := get in
  let target_holders := get_chunk_holder_adults r (br_capacity s) (blob_name data) in
  if bool_decide (size target_holders < CHUNK_COPY_COUNT)%nat
  then send_error (NoAdults (our_prefix r)) msg_id origin
  else
    let blob_write := BlobNew data in
    ret (SendToNodes (NmNodeCmd (NcChunks blob_write client_signed origin) msg_id)
           target_holders AtDestination).

Definition br_store (data : Blob) (msg_id : MessageId) (client_signed : ClientSigned) (origin : EndUser) :
    M Error BlobRecords NodeDuty :=
  match validate_data_owner data (client_signed_public_key client_signed) with
  | Err error => send_error error msg_id origin
  | Ok _ => send_chunks_to_adults data msg_id client_signed origin
  end.

Definition br_delete (address : BlobAddress) (msg_id : MessageId) (client_signed : ClientSigned)
    (origin : EndUser) : M Error BlobRecords NodeDuty :=
  let! s := get in
  let targets := get_chunk_holder_adults r (br_capacity s) (blob_address_name address) in
  let msg := NmNodeCmd (NcChunks (BlobDeletePrivate address) client_signed origin) msg_id in
  ret (SendToNodes msg targets AtDestination).

Definition br_write (write : BlobWrite) (msg_id : MessageId) (client_signed : ClientSigned)
    (origin : EndUser) : M Error BlobRecords NodeDuty :=
  match write with
  | BlobNew data => br_store data msg_id client_signed origin
  | BlobDeletePrivate address => br_delete address msg_id client_signed origin
  end.

Definition not_get_blob (response : QueryResponse) : Error :=
  Logic ("Got " +:+ debug_query_response response +:+
         ", but only `GetBlob` query responses are supposed to exist in this flow.").

Definition br_record_adult_read_liveness (correlation_id : MessageId) (response : QueryResponse)
    (src : XorName) : M Error BlobRecords NodeDuties :=
  if negb (match response with GetBlob _ => true | _ => false end)
  then throw (not_get_blob response) else
  let! s := get in
  let '(recorded, liveness) :=
    record_adult_read_liveness correlation_id src (query_response_is_success response) (br_liveness s) in
  modify (set_liveness liveness) ;;;
  let duties :=
    match recorded with
    | Some (_, end_user) =>
        if negb (query_response_is_success response) && is_full (br_capacity s) src then []
        else [Send (build_client_query_response response correlation_id end_user)]
    | None => []
    end in
  let unresponsive_adults := (find_unresponsive_adults liveness).*1 in
  ret (duties ++ (if bool_decide (unresponsive_adults = []) then [] else [ProposeOffline unresponsive_adults])).

Definition republish_chunk (data : Blob) : M Error BlobRecords NodeDuty :=
  let owner := blob_owner data in
  let! s := get in
  let target_holders := get_chunk_holder_adults r (br_capacity s) (blob_name data) in
  let! msg_id := lift (map_err Message (message_id_from_republish (blob_name data, owner, target_holders))) in
  ret (SendToNodes (NmNodeCmd (NcSystem (ReplicateChunkCmd data)) msg_id) target_holders AggNone).

Definition br_get (address : BlobAddress) (msg_id : MessageId) (origin : EndUser) :
    M Error BlobRecords NodeDuty :=
  let! s := get in
  let targets := get_chunk_holder_adults r (br_capacity s) (blob_address_name address) in
  if bool_decide (targets = ∅) then send_error (NoAdults (our_prefix r)) msg_id origin else
  let '(is_new, liveness) := new_read msg_id address origin targets (br_liveness s) in
  modify (set_liveness liveness) ;;;
  if (is_new : bool) then
    ret (SendToNodes (NmNodeQuery (NqChunks (BlobGet address) origin) msg_id) targets AggNone)
  else ret NoOp.

Definition br_read (read : BlobRead) (msg_id : MessageId) (origin : EndUser) : M Error BlobRecords NodeDuty :=
  match read with BlobGet address => br_get address msg_id origin end.
End with_network.

(** * Lemmas *)

Context `{DL : !DataOpsLaws}.

(** Anyone may store a public blob, only its owner a private one. *)
Definition may_store (data : Blob) (requester : PublicKey) : bool :=
  match data with Public _ => true | Private d => bool_decide (priv_blob_owner d = requester) end.

Lemma validate_data_owner_spec data requester :
  validate_data_owner data requester =
  if may_store data requester then Ok tt else Err (InvalidOwner requester).
Proof.
  unfold validate_data_owner. destruct data as [d|d]; simpl.
  - by rewrite blob_is_private_public.
  - rewrite blob_is_private_private, blob_owner_private. simpl. by repeat case_bool_decide.
Qed.

(** * Properties *)

(** C22: a new blob is sent to be stored only when it is public or its owner
    asked for it, and then to exactly four adults that are not full; with
    fewer such adults, or for another requester, the client gets the error
    and nothing is sent. *)
Theorem store_blob_spec r data msg_id cs origin s :
  RoutingLaws r →
  let requester := client_signed_public_key cs in
  let reply e := Send (build_client_error_response (CmdErrorData e) msg_id origin) in
  br_write r (BlobNew data) msg_id cs origin s =
    (Ok (if may_store data requester
         then if decide (CHUNK_COPY_COUNT ≤ size (our_adults r ∖ br_capacity s))%nat
              then SendToNodes (NmNodeCmd (NcChunks (BlobNew data) cs origin) msg_id)
                     (get_chunk_holder_adults r (br_capacity s) (blob_name data)) AtDestination
              else reply (convert_to_error_message (NoAdults (our_prefix r)))
         else reply (EmInvalidOwners requester)), s) ∧
  (CHUNK_COPY_COUNT ≤ size (our_adults r ∖ br_capacity s) →
   size (get_chunk_holder_adults r (br_capacity s) (blob_name data)) = 4)%nat.
Proof.
  intros HR requester reply.
  pose proof (get_chunk_holders_size r (br_capacity s) (blob_name data) HR) as Hsize. split.
  - unfold br_write, br_store. fold requester. rewrite validate_data_owner_spec.
    destruct (may_store data requester); [|done].
    unfold send_chunks_to_adults, send_error, reply. unfold bind, get. rewrite Hsize. unfold CHUNK_COPY_COUNT.
    case_bool_decide; case_decide; (lia || done).
  - rewrite Hsize. unfold CHUNK_COPY_COUNT. lia.
Qed.

(** A response for the read [id] of the tracker [s] with flag [success]. *)
Lemma record_waiting id op src success s :
  ops s !! id = Some op → responded_with_success op = false →
  (record_adult_read_liveness id src success s).1 =
  if bool_decide (op_targets op ∖ {[src]} = ∅) then None else Some (op_address op, op_origin op).
Proof.
  intros Hop Hr. unfold record_adult_read_liveness. rewrite remove_target_ops, Hop.
  case_bool_decide; [by rewrite lookup_delete_eq|]. rewrite lookup_insert_eq. simpl.
  by rewrite Hr, andb_false_r.
Qed.

(** The duties that go to a client. *)
Definition replies (duties : NodeDuties) : list OutgoingMsg :=
  omap (λ d, match d with Send m => Some m | _ => None end) duties.

Lemma record_blob_replies id b src s op :
  ops (br_liveness s) !! id = Some op → responded_with_success op = false →
  query_response_is_success (GetBlob (Ok b)) = true →
  ∃ duties s', br_record_adult_read_liveness id (GetBlob (Ok b)) src s = (Ok duties, s') ∧
    replies duties =
    if bool_decide (op_targets op ∖ {[src]} = ∅) then []
    else [build_client_query_response (GetBlob (Ok b)) id (op_origin op)].
Proof.
  intros Hop Hr Hsucc. unfold br_record_adult_read_liveness. cbn [negb]. unfold bind at 1, get.
  pose proof (record_waiting id op src true (br_liveness s) Hop Hr) as Hrec. rewrite Hsucc.
  destruct (record_adult_read_liveness id src true (br_liveness s)) as [rec l]. simpl in Hrec. subst rec.
  unfold_m. eexists _, _. split; [done|]. unfold replies. rewrite omap_app.
  assert (∀ l : list XorName, omap (λ d, match d with Send m => Some m | _ => None end)
    (if bool_decide (l = []) then [] else [ProposeOffline l]) = []) as Hoff.
  { intros l'. by case_bool_decide. }
  rewrite Hoff, app_nil_r. by case_bool_decide.
Qed.

(** A new read is recorded with its holders. *)
Lemma read_records_op r address id origin s t :
  ops (br_liveness s) !! id = None →
  get_chunk_holder_adults r (br_capacity s) (blob_address_name address) = t → t ≠ ∅ →
  ops (br_liveness (br_read r (BlobGet address) id origin s).2) !! id =
  Some (mkReadOperation address origin t false).
Proof.
  intros Hnew Ht Hne. simpl. unfold br_get, bind at 1, get. rewrite Ht, bool_decide_false by done.
  pose proof (new_read_ops id address origin t (br_liveness s)) as Hops. rewrite Hnew in Hops.
  destruct (new_read id address origin t (br_liveness s)) as [b1 l1]. simpl in Hops.
  unfold_m. destruct b1; simpl; by rewrite Hops, lookup_insert_eq.
Qed.

(** The first successful answer to a read goes to the client that asked,
    when at least one other holder has still to answer. *)
Theorem first_success_reaches_client `{ML : !MessagingLaws} r address id origin b src n s s1 :
  ops (br_liveness s) !! id = None →
  src ∈ get_chunk_holder_adults r (br_capacity s) (blob_address_name address) →
  n ∈ get_chunk_holder_adults r (br_capacity s) (blob_address_name address) → n ≠ src →
  (br_read r (BlobGet address) id origin s).2 = s1 →
  ∃ duties s', br_record_adult_read_liveness id (GetBlob (Ok b)) src s1 = (Ok duties, s') ∧
    replies duties = [build_client_query_response (GetBlob (Ok b)) id origin].
Proof.
  intros Hnew Hsrc Hn Hne Hs1.
  subst s1. pose proof (read_records_op r address id origin s _ Hnew eq_refl) as Hop.
  specialize (Hop ltac:(set_solver)). set (s1 := (br_read _ _ _ _ s).2) in *.
  destruct (record_blob_replies id b src s1 _ Hop) as (duties & s' & Hrec & Hrep);
    [done|by rewrite is_success_get_blob|].
  exists duties, s'. split; [done|]. rewrite Hrep. simpl. rewrite bool_decide_false; [done|]. set_solver.
Qed.

(** C37: a blob with a single holder cannot be read, although its holder has it:
    the answer of the holder removes the read before the tracker looks for it, so
    no reply is sent to the client, and the read is no longer waited for. *)
Theorem sole_holder_read_unanswered `{ML : !MessagingLaws} r address id origin b src s s1 :
  ops (br_liveness s) !! id = None →
  get_chunk_holder_adults r (br_capacity s) (blob_address_name address) = {[ src ]} →
  (br_read r (BlobGet address) id origin s).2 = s1 →
  ∃ duties s', br_record_adult_read_liveness id (GetBlob (Ok b)) src s1 = (Ok duties, s') ∧
    replies duties = [] ∧ ops (br_liveness s') !! id = None.
Proof.
  intros Hnew Ht Hs1.
  subst s1. pose proof (read_records_op r address id origin s _ Hnew Ht ltac:(set_solver)) as Hop.
  set (s1 := (br_read _ _ _ _ s).2) in *.
  destruct (record_blob_replies id b src s1 _ Hop) as (duties & s' & Hrec & Hrep);
    [done|by rewrite is_success_get_blob|].
  exists duties, s'. split; [done|]. simpl in Hrep. rewrite difference_diag_L in Hrep. split; [done|].
  revert Hrec. unfold br_record_adult_read_liveness, record_adult_read_liveness. cbn [negb].
  unfold bind at 1, get. rewrite remove_target_ops, Hop. simpl.
  rewrite difference_diag_L, bool_decide_true, lookup_delete_eq by done. unfold_m.
  intros [= _ <-]. simpl. rewrite remove_target_ops, Hop. simpl.
  by rewrite difference_diag_L, bool_decide_true, lookup_delete_eq by done.
Qed.
End blob_records.

Module Witness.
Import ToyCrates ToyRouting.

Definition r0 : Routing := Capacity.Witness.r0.
Definition s0 : BlobRecords := blob_records_new ∅.
Definition priv : Blob := Private (8%N, 1%N).

(** Key 1 owns the blob, key 2 does not. *)
Lemma store_blob_spec_witness :
  br_write r0 (BlobNew priv) (mid 3) 2%N (usr 6) s0 =
    (Ok (Send (build_client_error_response (CmdErrorData (EmInvalidOwners 2%N)) (mid 3) (usr 6))), s0) ∧
  br_write r0 (BlobNew priv) (mid 3) 1%N (usr 6) s0 =
    (Ok (SendToNodes (NmNodeCmd (NcChunks (BlobNew priv) 1%N (usr 6)) (mid 3))
           (get_chunk_holder_adults r0 ∅ (blob_name priv)) AtDestination), s0) ∧
  size (get_chunk_holder_adults r0 ∅ (blob_name priv)) = 4%nat.
Proof.
  split.
  - destruct (store_blob_spec r0 priv (mid 3) 2%N (usr 6) s0 Capacity.Witness.r0_laws) as [Hw _]. exact Hw.
  - destruct (store_blob_spec r0 priv (mid 3) 1%N (usr 6) s0 Capacity.Witness.r0_laws) as [Hw Hsize].
    split; [exact Hw|]. apply Hsize. apply (bool_decide_unpack _). vm_compute. exact I.
Defined.

Lemma first_success_reaches_client_witness :
  ∃ duties s', br_record_adult_read_liveness (mid 3) (GetBlob (Ok priv)) (nm 12)
      (br_read r0 (BlobGet (baddr 8)) (mid 3) (usr 6) s0).2 = (Ok duties, s') ∧
    replies duties = [build_client_query_response (GetBlob (Ok priv)) (mid 3) (usr 6)].
Proof.
  apply (first_success_reaches_client r0 (baddr 8) (mid 3) (usr 6) priv (nm 12) (nm 3) s0 _);
    [reflexivity|apply (bool_decide_unpack _); vm_compute; exact I..|done|reflexivity].
Defined.

(** A section with a single adult. *)
Definition r1 : Routing := toy_routing [] [mkPeer (nm 3) 5] [].
Lemma sole_holder_read_unanswered_witness :
  ∃ duties s', br_record_adult_read_liveness (mid 3) (GetBlob (Ok priv)) (nm 3)
      (br_read r1 (BlobGet (baddr 8)) (mid 3) (usr 6) s0).2 = (Ok duties, s') ∧
    replies duties = [] ∧ ops (br_liveness s') !! mid 3 = None.
Proof.
  apply (sole_holder_read_unanswered r1 (baddr 8) (mid 3) (usr 6) priv (nm 3) s0 _);
    [reflexivity|apply (bool_decide_unpack _); vm_compute; exact I|reflexivity].
Defined.
End Witness.
