(* ===== verification/ElderData.v ===== *)
(** [src/metadata/{map_storage,sequence_storage,register_storage}.rs]: the
    three data types that the elders store themselves, each in its own chunk
    store.  What the structures do inside (permissions, edits, CRDT
    operations) is [sn_data_types], a parameter. *)

From S2P Require Import Prelude Crates Messages Disk Toy F64 UsedSpace ChunkStore Network Capacity AdultLiveness BlobRecords.

Section common.
Context `{MO : MessagingOps}.

(** [ok_or_error], the same in the three files: errors go to the client. *)
Definition ok_or_error {A} (result : Result A) (msg_id : MessageId) (origin : EndUser) : NodeDuty :=
  match result with
  | Ok _ => NoOp
  | Err error =>
      Send (build_client_error_response (CmdErrorData (convert_to_error_message error)) msg_id origin)
  end.

(** [match .. { Ok(res) => Ok(res), Err(error) => Err(convert_to_error_message(error)) }] *)
Definition to_message {A} (r : Result A) : EmResult A := map_err convert_to_error_message r.

Definition reply (response : QueryResponse) (msg_id : MessageId) (origin : EndUser) : NodeDuty :=
  Send (build_client_query_response response msg_id origin).

(** [?] on a result of [sn_data_types] *)
Definition dt {A} (r : result DtError A) : Result A := map_err NetworkData r.
End common.

(** * Data exchange between elders, the same code for maps and sequences *)

Section exchange.
Context `{MO : MessagingOps}.
Context {T Id : Type} `{CI : !ChunkId Id} `{SId : !Serde Id} `{CH : !Chunk T Id} `{ST : !Serde T}.
Context `{CId : !Countable Id} (id_cmp : Id → Id → comparison) (id_name : Id → XorName) (address_of : T → Id).

(** [filter_map(|key| store.get(&key).ok())] *)
Fixpoint get_all (ids : list Id) : M Error CS (list T) :=
  match ids with
  | [] => ret []
  | id :: ids =>
      let! r := try (get_chunk id) in
      let! rest := get_all ids in
      ret (match r with Ok c => c :: rest | Err _ => rest end)
  end.

Definition exchange_get_data_of (prefix : Prefix) : M Error CS (gmap Id T) :=
  let! ids := keys in
  let! data := get_all (filter (λ id, prefix_matches prefix (id_name id) = true) ids) in
  ret (foldl (λ m c, <[address_of c := c]> m) ∅ data).

Definition exchange_update (data : gmap Id T) : M Error CS unit :=
  for_each (btree_entries id_cmp data) (λ kv, put kv.2).
End exchange.

(** * MapStorage *)

Module MapStorage.
Section map_storage.
Context `{MO : MessagingOps} `{DO : !DataOpsCrate}.
Context `{SA : !Serde MapAddress} `{SB : !Serde Map}.

Definition map_new (root : path) (max_capacity : Z) : M Error Fs ChunkStore := cs_new (T := Map) root max_capacity.

Definition map_get_data_of (prefix : Prefix) : M Error CS (gmap MapAddress Map) :=
  exchange_get_data_of map_address_name map_address prefix.
Definition map_update (map_data : gmap MapAddress Map) : M Error CS unit :=
  exchange_update map_address_cmp map_data.

(** [get_chunk]: read and check the permission. *)
Definition map_get_chunk (address : MapAddress) (requester : PublicKey) (action : MapAction) : M Error CS Map :=
  let! map := get_chunk address in
  lift (dt (map_check_permissions map action requester)) ;;; ret map.

Definition map_edit_chunk (address : MapAddress) (origin : EndUser) (msg_id : MessageId)
    (mutation_fn : Map → result DtError Map) : M Error CS NodeDuty :=
  let! result := try (let! data := get_chunk address in
                      let! map := lift (dt (mutation_fn data)) in
                      put map) in
  ret (ok_or_error result msg_id origin).

Definition map_create (data : Map) (msg_id : MessageId) (origin : EndUser) : M Error CS NodeDuty :=
  let! exists_ := has (map_address data) in
  let! result := (if (exists_ : bool) then ret (Err DataExists) else try (put data)) in
  ret (ok_or_error result msg_id origin).

Definition map_delete (address : MapAddress) (msg_id : MessageId) (requester : PublicKey) (origin : EndUser) :
    M Error CS NodeDuty :=
  let! found := try (get_chunk address) in
  let! result := (match found with
                  | Ok map => match map_check_is_owner map requester with
                              | Ok _ => try (delete address)
                              | Err _ => ret (Err (NetworkData (DtAccessDenied requester)))
                              end
                  | Err error => ret (Err error)
                  end) in
  ret (ok_or_error result msg_id origin).

Definition map_delete_user_permissions (address : MapAddress) (user : PublicKey) (version : Z)
    (msg_id : MessageId) (requester : PublicKey) (origin : EndUser) : M Error CS NodeDuty :=
  map_edit_chunk address origin msg_id (λ data,
    res_bind (map_check_permissions data ManagePermissions requester) (λ _,
    map_del_user_permissions data user version)).

Definition map_edit_entries (address : MapAddress) (actions : MapEntryActions) (msg_id : MessageId)
    (requester : PublicKey) (origin : EndUser) : M Error CS NodeDuty :=
  map_edit_chunk address origin msg_id (λ data, map_mutate_entries data actions requester).

Definition map_write (write : MapWrite) (msg_id : MessageId) (requester : PublicKey) (origin : EndUser) :
    M Error CS NodeDuty :=
  match write with
  | MapNew data => map_create data msg_id origin
  | MapDeleteCmd address => map_delete address msg_id requester origin
  | MapSetUserPermissions address user permissions version =>
      map_edit_chunk address origin msg_id (λ data,
        res_bind (map_check_permissions data ManagePermissions requester) (λ _,
        map_set_user_permissions data user permissions version))
  | MapDelUserPermissions address user version =>
      map_delete_user_permissions address user version msg_id requester origin
  | MapEdit address changes => map_edit_entries address changes msg_id requester origin
  end.

(** ** Reads *)

(** Read the map with [Read] permission and answer with [f]. *)
Definition map_query {A} (f : Map → Result A) (wrap : EmResult A → QueryResponse)
    (address : MapAddress) (msg_id : MessageId) (requester : PublicKey) (origin : EndUser) : M Error CS NodeDuty :=
  let! res := try (map_get_chunk address requester MapRead_) in
  ret (reply (wrap (to_message (res_bind res f))) msg_id origin).

Definition map_get := map_query (λ map, Ok map) GetMap.
Definition map_get_shell := map_query (λ data, Ok (map_shell data)) GetMapShell.
Definition map_get_version := map_query (λ data, Ok (map_version data)) GetMapVersion.
Definition map_value (key : list byte) (data : Map) : Result MapValue :=
  match data with
  | Seq map => ok_or (seq_map_get map key) (NetworkData DtNoSuchEntry)
  | Unseq map => ok_or (unseq_map_get map key) (NetworkData DtNoSuchEntry)
  end.
Definition map_get_value (address : MapAddress) (key : list byte) := map_query (map_value key) GetMapValue address.
Definition map_list_keys := map_query (λ data, Ok (map_keys data)) ListMapKeys.
Definition map_list_values :=
  map_query (λ data, Ok (match data with Seq map => seq_map_values map | Unseq map => unseq_map_values map end))
    ListMapValues.
Definition map_list_entries :=
  map_query (λ data, Ok (match data with Seq map => seq_map_entries map | Unseq map => unseq_map_entries map end))
    ListMapEntries.
Definition map_list_permissions := map_query (λ data, Ok (map_permissions data)) ListMapPermissions.
Definition map_list_user_permissions (address : MapAddress) (user : PublicKey) :=
  map_query (λ data, dt (map_user_permissions data user)) ListMapUserPermissions address.

Definition map_read (read : MapRead) (msg_id : MessageId) (requester : PublicKey) (origin : EndUser) :
    M Error CS NodeDuty :=
  match read with
  | MapGet address => map_get address msg_id requester origin
  | MapGetValue address key => map_get_value address key msg_id requester origin
  | MapGetShell address => map_get_shell address msg_id requester origin
  | MapGetVersion address => map_get_version address msg_id requester origin
  | MapListEntries address => map_list_entries address msg_id requester origin
  | MapListKeys address => map_list_keys address msg_id requester origin
  | MapListValues address => map_list_values address msg_id requester origin
  | MapListPermissions address => map_list_permissions address msg_id requester origin
  | MapListUserPermissions address user => map_list_user_permissions address user msg_id requester origin
  end.
End map_storage.
End MapStorage.

(** * SequenceStorage *)

Module SequenceStorage.
Section sequence_storage.
Context `{MO : MessagingOps} `{DO : !DataOpsCrate}.
Context `{SA : !Serde SequenceAddress} `{SB : !Serde Sequence}.

Definition seq_new (root : path) (max_capacity : Z) : M Error Fs ChunkStore := cs_new (T := Sequence) root max_capacity.

Definition seq_get_data_of (prefix : Prefix) : M Error CS (gmap SequenceAddress Sequence) :=
  exchange_get_data_of sequence_address_name sequence_address prefix.
Definition seq_update (seq_data : gmap SequenceAddress Sequence) : M Error CS unit :=
  exchange_update sequence_address_cmp seq_data.

Definition seq_store (data : Sequence) (msg_id : MessageId) (origin : EndUser) : M Error CS NodeDuty :=
  let! exists_ := has (sequence_address data) in
  let! result := (if (exists_ : bool) then ret (Err DataExists) else try (put data)) in
  ret (ok_or_error result msg_id origin).

Definition seq_get_chunk (address : SequenceAddress) (action : SequenceAction) (requester : PublicKey) :
    M Error CS Sequence :=
  let! data := get_chunk address in
  lift (dt (sequence_check_permission data action (Some requester))) ;;; ret data.

(** The check of [delete]. *)
Definition seq_may_delete (msg_id : MessageId) (requester : PublicKey) (sequence : Sequence) : Result unit :=
  if sequence_address_is_public (sequence_address sequence) then
    Err (InvalidMessage msg_id "Sequence::check_permission() doesn't support Delete yet in safe-nd")
  else
    res_bind (dt (sequence_private_policy sequence (Some requester))) (λ policy,
    if bool_decide (requester ≠ private_policy_owner policy) then Err (InvalidOwner requester) else Ok tt).

Definition seq_delete (address : SequenceAddress) (msg_id : MessageId) (requester : PublicKey) (origin : EndUser) :
    M Error CS NodeDuty :=
  let! found := try (get_chunk address) in
  let! result := (match res_bind found (seq_may_delete msg_id requester) with
                  | Ok _ => try (delete address)
                  | Err error => ret (Err error)
                  end) in
  ret (ok_or_error result msg_id origin).

Definition seq_edit_chunk (address : SequenceAddress) (action : SequenceAction) (requester : PublicKey)
    (write_fn : Sequence → Result Sequence) : M Error CS unit :=
  let! result := seq_get_chunk address action requester in
  let! sequence := lift (write_fn result) in
  put sequence.

Definition seq_edit (write_op : SequenceOp) (msg_id : MessageId) (requester : PublicKey) (origin : EndUser) :
    M Error CS NodeDuty :=
  let address := sequence_op_address write_op in
  let! result := try (seq_edit_chunk address SequenceAppend requester
                        (λ sequence, dt (sequence_apply_op sequence write_op))) in
  ret (ok_or_error result msg_id origin).

Definition seq_write (write : SequenceWrite) (msg_id : MessageId) (requester : PublicKey) (origin : EndUser) :
    M Error CS NodeDuty :=
  match write with
  | SequenceNew data => seq_store data msg_id origin
  | SequenceEdit operation => seq_edit operation msg_id requester origin
  | SequenceDelete address => seq_delete address msg_id requester origin
  end.

(** ** Reads *)

Definition seq_query {A} (f : Sequence → PublicKey → Result A) (wrap : EmResult A → QueryResponse)
    (address : SequenceAddress) (msg_id : MessageId) (requester : PublicKey) (origin : EndUser) : M Error CS NodeDuty :=
  let! res := try (seq_get_chunk address SequenceRead_ requester) in
  ret (reply (wrap (to_message (res_bind res (λ s, f s requester)))) msg_id origin).

Definition seq_get := seq_query (λ sequence _, Ok sequence) GetSequence.
Definition seq_get_range (address : SequenceAddress) (range : SequenceIndex * SequenceIndex) :=
  seq_query (λ sequence requester,
    res_bind (dt (sequence_in_range sequence range.1 range.2 (Some requester))) (λ entries,
    ok_or entries (NetworkData DtNoSuchEntry))) GetSequenceRange address.
Definition seq_get_last_entry :=
  seq_query (λ sequence requester,
    res_bind (dt (sequence_last_entry sequence (Some requester))) (λ entry,
    match entry with
    | Some entry =>
        res_bind (dt (sequence_len sequence (Some requester))) (λ len, Ok (len - 1, entry))
    | None => Err (NetworkData DtNoSuchEntry)
    end)) GetSequenceLastEntry.
Definition seq_get_user_permissions (address : SequenceAddress) (user : SequenceUser) :=
  seq_query (λ sequence requester, dt (sequence_permissions sequence user (Some requester)))
    GetSequenceUserPermissions address.
Definition seq_get_public_policy :=
  seq_query (λ sequence _,
    if sequence_is_public sequence then dt (sequence_public_policy sequence)
    else Err (NetworkData DtCrdtUnexpectedState)) GetSequencePublicPolicy.
Definition seq_get_private_policy :=
  seq_query (λ sequence requester,
    if negb (sequence_is_public sequence) then dt (sequence_private_policy sequence (Some requester))
    else Err (NetworkData DtCrdtUnexpectedState)) GetSequencePrivatePolicy.

Definition seq_read (read : SequenceRead) (msg_id : MessageId) (requester : PublicKey) (origin : EndUser) :
    M Error CS NodeDuty :=
  match read with
  | SequenceGet address => seq_get address msg_id requester origin
  | SequenceGetRange address range => seq_get_range address range msg_id requester origin
  | SequenceGetLastEntry address => seq_get_last_entry address msg_id requester origin
  | SequenceGetUserPermissions address user => seq_get_user_permissions address user msg_id requester origin
  | SequenceGetPublicPolicy address => seq_get_public_policy address msg_id requester origin
  | SequenceGetPrivatePolicy address => seq_get_private_policy address msg_id requester origin
  end.
End sequence_storage.
End SequenceStorage.

(** * RegisterStorage *)

Module RegisterStorage.
Section register_storage.
Context `{MO : MessagingOps} `{DO : !DataOpsCrate}.
Context `{SA : !Serde RegisterAddress} `{SB : !Serde Register}.

Definition reg_new (root : path) (max_capacity : Z) : M Error Fs ChunkStore := cs_new (T := Register) root max_capacity.

Definition reg_store (data : Register) (msg_id : MessageId) (origin : EndUser) : M Error CS NodeDuty :=
  let! exists_ := has (register_address data) in
  let! result := (if (exists_ : bool) then ret (Err DataExists) else try (put data)) in
  ret (ok_or_error result msg_id origin).

Definition reg_get_chunk (address : RegisterAddress) (action : RegisterAction) (requester : PublicKey) :
    M Error CS Register :=
  let! data := get_chunk address in
  lift (dt (register_check_permission data action (Some requester))) ;;; ret data.

Definition reg_may_delete (msg_id : MessageId) (requester : PublicKey) (register : Register) : Result unit :=
  if register_address_is_public (register_address register) then
    Err (InvalidMessage msg_id "Cannot delete public Register")
  else if bool_decide (requester ≠ register_owner register) then Err (InvalidOwner requester) else Ok tt.

Definition reg_delete (address : RegisterAddress) (msg_id : MessageId) (requester : PublicKey) (origin : EndUser) :
    M Error CS NodeDuty :=
  let! found := try (get_chunk address) in
  let! result := (match res_bind found (reg_may_delete msg_id requester) with
                  | Ok _ => try (delete address)
                  | Err error => ret (Err error)
                  end) in
  ret (ok_or_error result msg_id origin).

Definition reg_edit_chunk (address : RegisterAddress) (action : RegisterAction) (requester : PublicKey)
    (write_fn : Register → Result Register) : M Error CS unit :=
  let! result := reg_get_chunk address action requester in
  let! register := lift (write_fn result) in
  put register.

Definition reg_edit (write_op : RegisterOp) (msg_id : MessageId) (requester : PublicKey) (origin : EndUser) :
    M Error CS NodeDuty :=
  let address := register_op_address write_op in
  let! result := try (reg_edit_chunk address RegisterWrite_ requester
                        (λ register, dt (register_apply_op register write_op))) in
  ret (ok_or_error result msg_id origin).

Definition reg_write (write : RegisterWrite) (msg_id : MessageId) (requester : PublicKey) (origin : EndUser) :
    M Error CS NodeDuty :=
  match write with
  | RegisterNew data => reg_store data msg_id origin
  | RegisterEdit operation => reg_edit operation msg_id requester origin
  | RegisterDelete address => reg_delete address msg_id requester origin
  end.

(** ** Reads *)

Definition reg_query {A} (f : Register → PublicKey → Result A) (wrap : EmResult A → QueryResponse)
    (address : RegisterAddress) (msg_id : MessageId) (requester : PublicKey) (origin : EndUser) : M Error CS NodeDuty :=
  let! res := try (reg_get_chunk address RegisterRead_ requester) in
  ret (reply (wrap (to_message (res_bind res (λ s, f s requester)))) msg_id origin).

Definition reg_get := reg_query (λ register _, Ok register) GetRegister.
Definition reg_read_register :=
  reg_query (λ register requester, dt (register_read register (Some requester))) ReadRegister.
Definition reg_get_owner := reg_query (λ register _, Ok (register_owner register)) GetRegisterOwner.
Definition reg_get_user_permissions (address : RegisterAddress) (user : RegisterUser) :=
  reg_query (λ register requester, dt (register_permissions register user (Some requester)))
    GetRegisterUserPermissions address.
Definition reg_get_policy :=
  reg_query (λ register requester, dt (register_policy register (Some requester))) GetRegisterPolicy.

Definition reg_read (read : RegisterRead) (msg_id : MessageId) (requester : PublicKey) (origin : EndUser) :
    M Error CS NodeDuty :=
  match read with
  | RegisterGet address => reg_get address msg_id requester origin
  | RegisterReadEntries address => reg_read_register address msg_id requester origin
  | RegisterGetOwner address => reg_get_owner address msg_id requester origin
  | RegisterGetUserPermissions address user => reg_get_user_permissions address user msg_id requester origin
  | RegisterGetPolicy address => reg_get_policy address msg_id requester origin
  end.
End register_storage.
End RegisterStorage.

(** * The writes against the abstract store *)

(** Encoding never fails. *)
Class SerdeTotal `{EC : EncodingCrate} (T : Type) `{!Serde T} : Prop :=
  ser_total : ∀ x : T, is_ok (ser x) = true.

Section guarded.
Context `{MO : MessagingOps}.
Context {T Id : Type} `{CI : !ChunkId Id} `{SId : !Serde Id} `{CH : !Chunk T Id} `{ST : !Serde T}.

(** What a write asks of the store once its checks have passed. *)
Inductive effect : Type :=
| EffWrite (c : T)
| EffRemove (id : Id).

(** The outcomes of an accepted or refused write on the abstract map.  A
    write that does not fit drops the previous version ([put]). *)
Inductive guarded (m : kv (T := T) (Id := Id)) : Result effect → Result unit → kv (T := T) (Id := Id) → Prop :=
| guarded_err e : guarded m (Err e) (Err e) m
| guarded_write c : guarded m (Ok (EffWrite c)) (Ok tt) (kv_set (chunk_id c) (Some c) m)
| guarded_full c : guarded m (Ok (EffWrite c)) (Err NotEnoughSpace) (kv_set (chunk_id c) None m)
| guarded_remove id : guarded m (Ok (EffRemove id)) (Ok tt) (kv_set id None m).

Definition effect_id (e : effect) : Id := match e with EffWrite c => chunk_id c | EffRemove id => id end.

Lemma guarded_frame m spec r m' id :
  guarded m spec r m' → (∀ e, spec = Ok e → effect_id e ≠ id) → m' id = m id.
Proof.
  destruct 1 as [e|c|c|id0]; intros He; unfold kv_set; try done;
    (rewrite decide_False; [done|]; intros ->; by eapply He).
Qed.

Context `{EL : !EncodingLaws} `{SIL : !SerdeLaws Id} `{STL : !SerdeLaws T}.
Context `{SIT : !SerdeTotal Id} `{STT : !SerdeTotal T}.

(** The three ways a write is made: by a check of absence, by an edit of the
    stored chunk, by a checked removal. *)
Lemma create_guarded s m (c : T) (id : Id) :
  holds s m → chunk_id c = id →
  ∃ r m' s', (let! exists_ := has id in
              if (exists_ : bool) then ret (Err DataExists) else try (put c)) s = (Ok r, s') ∧
    holds s' m' ∧ guarded m (match m id with Some _ => Err DataExists | None => Ok (EffWrite c) end) r m'.
Proof.
  intros Hs Hid. unfold bind at 1. rewrite (has_holds s m id Hs) by apply ser_total.
  destruct (m id) as [c0|] eqn:Hm; simpl.
  - eexists _, m, s. split; [done|]. split; [done|]. constructor.
  - destruct (put_holds s m c Hs) as (r & s' & Hput & [[-> Hs']|[-> Hs']]); [apply ser_total|apply ser_total|..];
      unfold try; rewrite Hput; eexists _, _, s'; (split; [done|]); (split; [exact Hs'|]); constructor.
Qed.

Lemma edit_guarded s m (id : Id) (f : T → Result T) :
  holds s m → 
  ∃ r m' s', (let! data := get_chunk id in let! c := lift (f data) in put c) s = (r, s') ∧
    holds s' m' ∧
    guarded m (match m id with
               | Some c => res_bind (f c) (λ c', Ok (EffWrite c'))
               | None => Err (NoSuchChunk (to_data_address id))
               end) r m'.
Proof.
  intros Hs. unfold bind at 1. rewrite (get_holds s m id Hs) by apply ser_total.
  destruct (m id) as [c|] eqn:Hm; [|eexists _, m, s; split; [done|]; split; [done|]; constructor].
  unfold bind, lift. destruct (f c) as [c'|e]; simpl; [|eexists _, m, s; split; [done|]; split; [done|]; constructor].
  destruct (put_holds s m c' Hs) as (r & s' & -> & [[-> Hs']|[-> Hs']]); [apply ser_total|apply ser_total|..];
    eexists _, _, s'; (split; [done|]); (split; [exact Hs'|]); constructor.
Qed.

Lemma remove_guarded s m (id : Id) (check : T → Result unit) :
  holds s m →
  ∃ r m' s', (let! found := try (get_chunk id) in
              match res_bind found check with
              | Ok _ => try (delete id)
              | Err error => ret (Err error)
              end) s = (Ok r, s') ∧
    holds s' m' ∧
    guarded m (match m id with
               | Some c => res_bind (check c) (λ _, Ok (EffRemove id))
               | None => Err (NoSuchChunk (to_data_address id))
               end) r m'.
Proof.
  intros Hs. unfold bind, try. rewrite (get_holds s m id Hs) by apply ser_total.
  destruct (m id) as [c|] eqn:Hm; simpl; [|eexists _, m, s; split; [done|]; split; [done|]; constructor].
  destruct (check c) as [[]|e]; simpl; [|eexists _, m, s; split; [done|]; split; [done|]; constructor].
  destruct (delete_holds s m id Hs) as (s' & -> & Hs'); [apply ser_total|].
  eexists _, _, s'. split; [done|]. split; [exact Hs'|]. constructor.
Qed.
End guarded.

Section write_properties.
Context `{MO : MessagingOps} `{DO : !DataOpsCrate} `{DL : !DataOpsLaws} `{EL : !EncodingLaws}.

(** The command as the code checks it, on the abstract store. *)
Section specs.
Context `{SMA : !Serde MapAddress} `{SM : !Serde Map}.
Context `{SSA : !Serde SequenceAddress} `{SS : !Serde Sequence}.
Context `{SRA : !Serde RegisterAddress} `{SR : !Serde Register}.

Definition map_edit_of (requester : PublicKey) (w : MapWrite) (map : Map) : result DtError Map :=
  match w with
  | MapSetUserPermissions _ user permissions version =>
      res_bind (map_check_permissions map ManagePermissions requester) (λ _,
      map_set_user_permissions map user permissions version)
  | MapDelUserPermissions _ user version =>
      res_bind (map_check_permissions map ManagePermissions requester) (λ _,
      map_del_user_permissions map user version)
  | MapEdit _ changes => map_mutate_entries map changes requester
  | MapNew _ | MapDeleteCmd _ => Ok map
  end.
Definition map_target (w : MapWrite) : MapAddress :=
  match w with
  | MapNew map => map_address map
  | MapDeleteCmd a | MapSetUserPermissions a _ _ _ | MapDelUserPermissions a _ _ | MapEdit a _ => a
  end.
Definition map_spec (requester : PublicKey) (w : MapWrite) (m : kv (T := Map) (Id := MapAddress)) :
    Result (effect (T := Map) (Id := MapAddress)) :=
  match w, m (map_target w) with
  | MapNew map, None => Ok (EffWrite map)
  | MapNew _, Some _ => Err DataExists
  | _, None => Err (NoSuchChunk (MapAddr (map_target w)))
  | MapDeleteCmd a, Some map =>
      match map_check_is_owner map requester with
      | Ok _ => Ok (EffRemove a)
      | Err _ => Err (NetworkData (DtAccessDenied requester))
      end
  | _, Some map => res_bind (dt (map_edit_of requester w map)) (λ map', Ok (EffWrite map'))
  end.

Definition seq_target (w : SequenceWrite) : SequenceAddress :=
  match w with
  | SequenceNew s => sequence_address s
  | SequenceEdit op => sequence_op_address op
  | SequenceDelete a => a
  end.
Definition seq_spec (msg_id : MessageId) (requester : PublicKey) (w : SequenceWrite)
    (m : kv (T := Sequence) (Id := SequenceAddress)) : Result (effect (T := Sequence) (Id := SequenceAddress)) :=
  match w, m (seq_target w) with
  | SequenceNew s, None => Ok (EffWrite s)
  | SequenceNew _, Some _ => Err DataExists
  | _, None => Err (NoSuchChunk (SequenceAddr (seq_target w)))
  | SequenceEdit op, Some s =>
      res_bind (dt (sequence_check_permission s SequenceAppend (Some requester))) (λ _,
      res_bind (dt (sequence_apply_op s op)) (λ s', Ok (EffWrite s')))
  | SequenceDelete a, Some s =>
      res_bind (SequenceStorage.seq_may_delete msg_id requester s) (λ _, Ok (EffRemove a))
  end.

Definition reg_target (w : RegisterWrite) : RegisterAddress :=
  match w with
  | RegisterNew r => register_address r
  | RegisterEdit op => register_op_address op
  | RegisterDelete a => a
  end.
Definition reg_spec (msg_id : MessageId) (requester : PublicKey) (w : RegisterWrite)
    (m : kv (T := Register) (Id := RegisterAddress)) : Result (effect (T := Register) (Id := RegisterAddress)) :=
  match w, m (reg_target w) with
  | RegisterNew r, None => Ok (EffWrite r)
  | RegisterNew _, Some _ => Err DataExists
  | _, None => Err (NoSuchChunk (RegisterAddr (reg_target w)))
  | RegisterEdit op, Some r =>
      res_bind (dt (register_check_permission r RegisterWrite_ (Some requester))) (λ _,
      res_bind (dt (register_apply_op r op)) (λ r', Ok (EffWrite r')))
  | RegisterDelete a, Some r =>
      res_bind (RegisterStorage.reg_may_delete msg_id requester r) (λ _, Ok (EffRemove a))
  end.
End specs.

Section maps.
Context `{SMA : !Serde MapAddress} `{SM : !Serde Map}.
Context `{SMAL : !SerdeLaws MapAddress} `{SML : !SerdeLaws Map}.
Context `{SMAT : !SerdeTotal MapAddress} `{SMT : !SerdeTotal Map}.
Implicit Types (m : kv (T := Map) (Id := MapAddress)).

Lemma map_address_id map : map_address map = map_id map.
Proof. destruct map; simpl; [apply map_address_seq|apply map_address_unseq]. Qed.

Lemma map_edit_of_address requester w map map' :
  map_edit_of requester w map = Ok map' → map_address map' = map_address map.
Proof.
  destruct w; simpl; try congruence.
  - destruct (map_check_permissions _ _ _); simpl; [|done]. apply map_set_user_permissions_address.
  - destruct (map_check_permissions _ _ _); simpl; [|done]. apply map_del_user_permissions_address.
  - apply map_mutate_entries_address.
Qed.

(** A write reaches only the map at its own address. *)
Lemma map_spec_target requester w m s e :
  holds s m → map_spec requester w m = Ok e → effect_id e = map_target w.
Proof.
  intros Hs. unfold map_spec. destruct (m (map_target w)) as [map|] eqn:Hm.
  - pose proof (holds_id s m _ _ Hs (ser_total _) Hm) as Hid.
    change (chunk_id map) with (map_id map) in Hid. rewrite <- map_address_id in Hid.
    assert (∀ map', map_edit_of requester w map = Ok map' → map_id map' = map_target w) as Hedit.
    { intros map' He%map_edit_of_address. rewrite <- map_address_id. congruence. }
    destruct w as [map0|a|a u p v|a u v|a changes]; rewrite Hm; [by intros [=]| |
      destruct (map_edit_of _ _ map) as [map'|]; simpl; [|done];
      intros [= <-]; by apply Hedit..].
    simpl. destruct (map_check_is_owner _ _); [|done]. by intros [= <-].
  - destruct w; rewrite Hm; try done. intros [= <-]. simpl. by rewrite map_address_id.
Qed.

Lemma map_edit_refines s m address f msg_id origin :
  holds s m →
  ∃ r m' s', MapStorage.map_edit_chunk address origin msg_id f s = (Ok (ok_or_error r msg_id origin), s') ∧
    holds s' m' ∧
    guarded m (match m address with
               | Some c => res_bind (dt (f c)) (λ c', Ok (EffWrite c'))
               | None => Err (NoSuchChunk (MapAddr address))
               end) r m'.
Proof.
  intros Hs. destruct (edit_guarded s m address (λ c, dt (f c)) Hs) as (r & m' & s' & Hr & Hs' & Hg).
  exists r, m', s'. unfold MapStorage.map_edit_chunk, bind at 1, try. rewrite Hr. done.
Qed.

(** A write on maps does to the stored maps exactly what the checks of
    the code allow: it creates a map only at a free address, deletes one
    only for its owner, edits one only as [sn_data_types] permits the
    requester; the client gets the error otherwise, and no other map
    changes. *)
Lemma map_write_refines w msg_id requester origin s m :
  holds s m →
  ∃ r m' s', MapStorage.map_write w msg_id requester origin s = (Ok (ok_or_error r msg_id origin), s') ∧
    holds s' m' ∧ guarded m (map_spec requester w m) r m' ∧
    ∀ id, id ≠ map_target w → m' id = m id.
Proof.
  intros Hs.
  enough (∃ r m' s', MapStorage.map_write w msg_id requester origin s = (Ok (ok_or_error r msg_id origin), s') ∧
    holds s' m' ∧ guarded m (map_spec requester w m) r m') as (r & m' & s' & Hw & Hs' & Hg).
  { exists r, m', s'. split_and!; try done. intros id Hid. eapply guarded_frame; [exact Hg|].
    intros e He. by rewrite (map_spec_target requester w m s e Hs He). }
  assert (∀ a w, map_target w = a → (∃ r m' s', MapStorage.map_edit_chunk a origin msg_id (map_edit_of requester w) s =
    (Ok (ok_or_error r msg_id origin), s') ∧ holds s' m' ∧
    guarded m (match m a with
               | Some c => res_bind (dt (map_edit_of requester w c)) (λ c', Ok (EffWrite c'))
               | None => Err (NoSuchChunk (MapAddr a)) end) r m')) as Hedit
    by (intros; by apply map_edit_refines).
  destruct w as [map|a|a user p v|a user v|a changes]; cbn [MapStorage.map_write];
    [| |by apply (Hedit a (MapSetUserPermissions a user p v))|by apply (Hedit a (MapDelUserPermissions a user v))
     |by apply (Hedit a (MapEdit a changes))].
  - destruct (create_guarded s m map (map_address map) Hs) as (r & m' & s' & Hr & Hs' & Hg);
      [by rewrite map_address_id|].
    exists r, m', s'. unfold MapStorage.map_create. rewrite bind_assoc. unfold bind at 1. rewrite Hr.
    split; [done|]. split; [done|]. unfold map_spec. simpl. by destruct (m (map_address map)).
  - destruct (remove_guarded s m a (λ map, match map_check_is_owner map requester with
        | Ok _ => Ok tt | Err _ => Err (NetworkData (DtAccessDenied requester)) end) Hs)
      as (r & m' & s' & Hr & Hs' & Hg).
    exists r, m', s'. unfold MapStorage.map_delete. rewrite bind_assoc. unfold bind at 1.
    split; [|split; [done|]].
    + match goal with |- match ?c s with _ => _ end = _ => assert (c s = (Ok r, s')) as -> end; [|done].
      rewrite <- Hr. unfold bind, try. destruct (get_chunk a s) as [[map|e] s1]; simpl; [|done].
      by destruct (map_check_is_owner map requester).
    + unfold map_spec. simpl. destruct (m a) as [map|]; [|done].
      by destruct (map_check_is_owner map requester).
Qed.
End maps.
Section sequences.
Context `{SA : !Serde SequenceAddress} `{SB : !Serde Sequence}.
Context `{SAL : !SerdeLaws SequenceAddress} `{SBL : !SerdeLaws Sequence}.
Context `{SAT : !SerdeTotal SequenceAddress} `{SBT : !SerdeTotal Sequence}.
Implicit Types (m : kv (T := Sequence) (Id := SequenceAddress)).

Lemma seq_spec_target msg_id requester w m s e :
  holds s m → seq_spec msg_id requester w m = Ok e → effect_id e = seq_target w.
Proof.
  intros Hs. unfold seq_spec. destruct (m (seq_target w)) as [c|] eqn:Hm.
  - pose proof (holds_id s m _ _ Hs (ser_total _) Hm) as Hid.
    change (chunk_id c) with (sequence_address c) in Hid. destruct w as [d|op|a]; rewrite Hm; [by intros [=]|..].
    + destruct (sequence_check_permission c SequenceAppend _); simpl; [|done].
      destruct (sequence_apply_op c op) as [c'|] eqn:He; simpl; [|done].
      intros [= <-]. simpl. change (sequence_address c' = sequence_op_address op).
      by rewrite (sequence_apply_op_address _ _ _ He).
    + destruct (SequenceStorage.seq_may_delete _ _ c); simpl; [|done]. by intros [= <-].
  - destruct w; rewrite Hm; try done. by intros [= <-].
Qed.

(** A write on sequences creates one only at a free address, appends only
    with the append permission, deletes only a private one and only for
    its owner; the client gets the error otherwise, and no other sequence
    changes. *)
Lemma seq_write_refines w msg_id requester origin s m :
  holds s m →
  ∃ r m' s', SequenceStorage.seq_write w msg_id requester origin s = (Ok (ok_or_error r msg_id origin), s') ∧
    holds s' m' ∧ guarded m (seq_spec msg_id requester w m) r m' ∧
    ∀ id, id ≠ seq_target w → m' id = m id.
Proof.
  intros Hs.
  enough (∃ r m' s', SequenceStorage.seq_write w msg_id requester origin s = (Ok (ok_or_error r msg_id origin), s') ∧
    holds s' m' ∧ guarded m (seq_spec msg_id requester w m) r m') as (r & m' & s' & Hw & Hs' & Hg).
  { exists r, m', s'. split_and!; try done. intros id Hid. eapply guarded_frame; [exact Hg|].
    intros e He. by rewrite (seq_spec_target msg_id requester w m s e Hs He). }
  destruct w as [d|op|a]; cbn [SequenceStorage.seq_write].
  - destruct (create_guarded s m d (sequence_address d) Hs) as (r & m' & s' & Hr & Hs' & Hg); [done|].
    exists r, m', s'. unfold SequenceStorage.seq_store. rewrite bind_assoc. unfold bind at 1. rewrite Hr.
    split; [done|]. split; [done|]. unfold seq_spec. simpl. by destruct (m (sequence_address d)).
  - destruct (edit_guarded s m (sequence_op_address op) (λ c,
        res_bind (dt (sequence_check_permission c SequenceAppend (Some requester))) (λ _, dt (sequence_apply_op c op))) Hs)
      as (r & m' & s' & Hr & Hs' & Hg).
    exists r, m', s'. unfold SequenceStorage.seq_edit, SequenceStorage.seq_edit_chunk, SequenceStorage.seq_get_chunk.
    split; [|split; [done|]].
    + unfold bind at 1, try.
      match goal with |- context [bind (bind (get_chunk _) ?f) ?g s] =>
        assert (bind (bind (get_chunk (sequence_op_address op)) f) g s = (r, s')) as -> end; [|done].
      rewrite <- Hr. unfold bind, lift, ret. destruct (get_chunk _ s) as [[c|e] s1]; [|done].
      by destruct (sequence_check_permission c SequenceAppend (Some requester)).
    + unfold seq_spec. simpl. destruct (m (sequence_op_address op)) as [c|]; [|done].
      by destruct (sequence_check_permission c SequenceAppend (Some requester)).
  - destruct (remove_guarded s m a (SequenceStorage.seq_may_delete msg_id requester) Hs) as (r & m' & s' & Hr & Hs' & Hg).
    exists r, m', s'. unfold SequenceStorage.seq_delete. rewrite bind_assoc. unfold bind at 1. rewrite Hr. done.
Qed.
End sequences.

Section registers.
Context `{SA : !Serde RegisterAddress} `{SB : !Serde Register}.
Context `{SAL : !SerdeLaws RegisterAddress} `{SBL : !SerdeLaws Register}.
Context `{SAT : !SerdeTotal RegisterAddress} `{SBT : !SerdeTotal Register}.
Implicit Types (m : kv (T := Register) (Id := RegisterAddress)).

Lemma reg_spec_target msg_id requester w m s e :
  holds s m → reg_spec msg_id requester w m = Ok e → effect_id e = reg_target w.
Proof.
  intros Hs. unfold reg_spec. destruct (m (reg_target w)) as [c|] eqn:Hm.
  - pose proof (holds_id s m _ _ Hs (ser_total _) Hm) as Hid.
    change (chunk_id c) with (register_address c) in Hid. destruct w as [d|op|a]; rewrite Hm; [by intros [=]|..].
    + destruct (register_check_permission c RegisterWrite_ _); simpl; [|done].
      destruct (register_apply_op c op) as [c'|] eqn:He; simpl; [|done].
      intros [= <-]. simpl. change (register_address c' = register_op_address op).
      by rewrite (register_apply_op_address _ _ _ He).
    + destruct (RegisterStorage.reg_may_delete _ _ c); simpl; [|done]. by intros [= <-].
  - destruct w; rewrite Hm; try done. by intros [= <-].
Qed.

(** A write on registers creates one only at a free address, writes only
    with the write permission, deletes only a private one and only for
    its owner; the client gets the error otherwise, and no other register
    changes. *)
Lemma reg_write_refines w msg_id requester origin s m :
  holds s m →
  ∃ r m' s', RegisterStorage.reg_write w msg_id requester origin s = (Ok (ok_or_error r msg_id origin), s') ∧
    holds s' m' ∧ guarded m (reg_spec msg_id requester w m) r m' ∧
    ∀ id, id ≠ reg_target w → m' id = m id.
Proof.
  intros Hs.
  enough (∃ r m' s', RegisterStorage.reg_write w msg_id requester origin s = (Ok (ok_or_error r msg_id origin), s') ∧
    holds s' m' ∧ guarded m (reg_spec msg_id requester w m) r m') as (r & m' & s' & Hw & Hs' & Hg).
  { exists r, m', s'. split_and!; try done. intros id Hid. eapply guarded_frame; [exact Hg|].
    intros e He. by rewrite (reg_spec_target msg_id requester w m s e Hs He). }
  destruct w as [d|op|a]; cbn [RegisterStorage.reg_write].
  - destruct (create_guarded s m d (register_address d) Hs) as (r & m' & s' & Hr & Hs' & Hg); [done|].
    exists r, m', s'. unfold RegisterStorage.reg_store. rewrite bind_assoc. unfold bind at 1. rewrite Hr.
    split; [done|]. split; [done|]. unfold reg_spec. simpl. by destruct (m (register_address d)).
  - destruct (edit_guarded s m (register_op_address op) (λ c,
        res_bind (dt (register_check_permission c RegisterWrite_ (Some requester))) (λ _, dt (register_apply_op c op))) Hs)
      as (r & m' & s' & Hr & Hs' & Hg).
    exists r, m', s'. unfold RegisterStorage.reg_edit, RegisterStorage.reg_edit_chunk, RegisterStorage.reg_get_chunk.
    split; [|split; [done|]].
    + unfold bind at 1, try.
      match goal with |- context [bind (bind (get_chunk _) ?f) ?g s] =>
        assert (bind (bind (get_chunk (register_op_address op)) f) g s = (r, s')) as -> end; [|done].
      rewrite <- Hr. unfold bind, lift, ret. destruct (get_chunk _ s) as [[c|e] s1]; [|done].
      by destruct (register_check_permission c RegisterWrite_ (Some requester)).
    + unfold reg_spec. simpl. destruct (m (register_op_address op)) as [c|]; [|done].
      by destruct (register_check_permission c RegisterWrite_ (Some requester)).
  - destruct (remove_guarded s m a (RegisterStorage.reg_may_delete msg_id requester) Hs) as (r & m' & s' & Hr & Hs' & Hg).
    exists r, m', s'. unfold RegisterStorage.reg_delete. rewrite bind_assoc. unfold bind at 1. rewrite Hr. done.
Qed.
End registers.
End write_properties.

(** * Reads *)

Section read_properties.
Context `{MO : MessagingOps} `{DO : !DataOpsCrate} `{EL : !EncodingLaws}.
Context `{SMA : !Serde MapAddress} `{SM : !Serde Map} `{SSA : !Serde SequenceAddress} `{SS : !Serde Sequence}
  `{SRA : !Serde RegisterAddress} `{SR : !Serde Register}.
Context `{!SerdeLaws MapAddress, !SerdeLaws Map, !SerdeTotal MapAddress}
  `{!SerdeLaws SequenceAddress, !SerdeLaws Sequence, !SerdeTotal SequenceAddress}
  `{!SerdeLaws RegisterAddress, !SerdeLaws Register, !SerdeTotal RegisterAddress}.

Definition map_read_target (r : MapRead) : MapAddress :=
  match r with
  | MapGet a | MapGetValue a _ | MapGetShell a | MapGetVersion a | MapListEntries a | MapListKeys a
  | MapListValues a | MapListPermissions a | MapListUserPermissions a _ => a
  end.
Definition seq_read_target (r : SequenceRead) : SequenceAddress :=
  match r with
  | SequenceGet a | SequenceGetRange a _ | SequenceGetLastEntry a | SequenceGetUserPermissions a _
  | SequenceGetPublicPolicy a | SequenceGetPrivatePolicy a => a
  end.
Definition reg_read_target (r : RegisterRead) : RegisterAddress :=
  match r with
  | RegisterGet a | RegisterReadEntries a | RegisterGetOwner a | RegisterGetUserPermissions a _
  | RegisterGetPolicy a => a
  end.

(** The answers of the abstract database.  The data of an address, if it is there
    and the check allows it, and what is asked of it. *)
Definition allowed {A} (stored : option A) (address : DataAddress) (check : A → result DtError unit) : EmResult A :=
  match stored with
  | None => Err (EmDataNotFound address)
  | Some c => match check c with Ok _ => Ok c | Err e => Err (convert_dt_error_to_error_message e) end
  end.
Definition asked_of {A B} (data : EmResult A) (f : A → result DtError B) : EmResult B :=
  res_bind data (λ c, map_err convert_dt_error_to_error_message (f c)).

Definition map_answer (requester : PublicKey) (rd : MapRead) (stored : option Map) : QueryResponse :=
  let data := allowed stored (MapAddr (map_read_target rd)) (λ c, map_check_permissions c MapRead_ requester) in
  match rd with
  | MapGet _ => GetMap data
  | MapGetShell _ => GetMapShell (asked_of data (λ c, Ok (map_shell c)))
  | MapGetVersion _ => GetMapVersion (asked_of data (λ c, Ok (map_version c)))
  | MapGetValue _ k => GetMapValue (asked_of data (λ c,
      ok_or (match c with Seq x => seq_map_get x k | Unseq x => unseq_map_get x k end) DtNoSuchEntry))
  | MapListKeys _ => ListMapKeys (asked_of data (λ c, Ok (map_keys c)))
  | MapListValues _ => ListMapValues (asked_of data (λ c,
      Ok (match c with Seq x => seq_map_values x | Unseq x => unseq_map_values x end)))
  | MapListEntries _ => ListMapEntries (asked_of data (λ c,
      Ok (match c with Seq x => seq_map_entries x | Unseq x => unseq_map_entries x end)))
  | MapListPermissions _ => ListMapPermissions (asked_of data (λ c, Ok (map_permissions c)))
  | MapListUserPermissions _ user => ListMapUserPermissions (asked_of data (λ c, map_user_permissions c user))
  end.

Definition seq_answer (requester : PublicKey) (rd : SequenceRead) (stored : option Sequence) : QueryResponse :=
  let who := Some requester in
  let data := allowed stored (SequenceAddr (seq_read_target rd)) (λ c, sequence_check_permission c SequenceRead_ who) in
  match rd with
  | SequenceGet _ => GetSequence data
  | SequenceGetRange _ range => GetSequenceRange (asked_of data (λ c,
      match sequence_in_range c range.1 range.2 who with
      | Ok entries => ok_or entries DtNoSuchEntry
      | Err e => Err e
      end))
  | SequenceGetLastEntry _ => GetSequenceLastEntry (asked_of data (λ c,
      match sequence_last_entry c who with
      | Ok (Some entry) => res_bind (sequence_len c who) (λ len, Ok (len - 1, entry))
      | Ok None => Err DtNoSuchEntry
      | Err e => Err e
      end))
  | SequenceGetUserPermissions _ user => GetSequenceUserPermissions (asked_of data (λ c, sequence_permissions c user who))
  | SequenceGetPublicPolicy _ => GetSequencePublicPolicy (asked_of data (λ c,
      if sequence_is_public c then sequence_public_policy c else Err DtCrdtUnexpectedState))
  | SequenceGetPrivatePolicy _ => GetSequencePrivatePolicy (asked_of data (λ c,
      if sequence_is_public c then Err DtCrdtUnexpectedState else sequence_private_policy c who))
  end.

Definition reg_answer (requester : PublicKey) (rd : RegisterRead) (stored : option Register) : QueryResponse :=
  let who := Some requester in
  let data := allowed stored (RegisterAddr (reg_read_target rd)) (λ c, register_check_permission c RegisterRead_ who) in
  match rd with
  | RegisterGet _ => GetRegister data
  | RegisterReadEntries _ => ReadRegister (asked_of data (λ c, register_read c who))
  | RegisterGetOwner _ => GetRegisterOwner (asked_of data (λ c, Ok (register_owner c)))
  | RegisterGetUserPermissions _ user => GetRegisterUserPermissions (asked_of data (λ c, register_permissions c user who))
  | RegisterGetPolicy _ => GetRegisterPolicy (asked_of data (λ c, register_policy c who))
  end.

(** A query answers with [f] of the data that is allowed. *)
Lemma map_query_answers {A} (f : Map → Result A) wrap a msg_id requester origin s m :
  holds s m →
  MapStorage.map_query f wrap a msg_id requester origin s =
    (Ok (reply (wrap (res_bind (allowed (m a) (MapAddr a) (λ c, map_check_permissions c MapRead_ requester))
                        (λ c, to_message (f c)))) msg_id origin), s).
Proof.
  intros Hs. unfold MapStorage.map_query, MapStorage.map_get_chunk. unfold bind, try.
  rewrite (get_holds s m a Hs) by apply ser_total. destruct (m a) as [c|]; simpl; [|done].
  by destruct (map_check_permissions c MapRead_ requester) as [[]|e].
Qed.

Lemma seq_query_answers {A} (f : Sequence → PublicKey → Result A) wrap a msg_id requester origin s m :
  holds s m →
  SequenceStorage.seq_query f wrap a msg_id requester origin s =
    (Ok (reply (wrap (res_bind (allowed (m a) (SequenceAddr a) (λ c, sequence_check_permission c SequenceRead_ (Some requester)))
                        (λ c, to_message (f c requester)))) msg_id origin), s).
Proof.
  intros Hs. unfold SequenceStorage.seq_query, SequenceStorage.seq_get_chunk. unfold bind, try.
  rewrite (get_holds s m a Hs) by apply ser_total. destruct (m a) as [c|]; simpl; [|done].
  by destruct (sequence_check_permission c SequenceRead_ (Some requester)) as [[]|e].
Qed.

Lemma reg_query_answers {A} (f : Register → PublicKey → Result A) wrap a msg_id requester origin s m :
  holds s m →
  RegisterStorage.reg_query f wrap a msg_id requester origin s =
    (Ok (reply (wrap (res_bind (allowed (m a) (RegisterAddr a) (λ c, register_check_permission c RegisterRead_ (Some requester)))
                        (λ c, to_message (f c requester)))) msg_id origin), s).
Proof.
  intros Hs. unfold RegisterStorage.reg_query, RegisterStorage.reg_get_chunk. unfold bind, try.
  rewrite (get_holds s m a Hs) by apply ser_total. destruct (m a) as [c|]; simpl; [|done].
  by destruct (register_check_permission c RegisterRead_ (Some requester)) as [[]|e].
Qed.

(** What is left when a query is run: the answer from the allowed data. *)
Ltac same_answer c := unfold asked_of; destruct (allowed _ _ _) as [c|]; [cbn|done].

(** Every read of the elders' data types answers the client as the abstract
    database does and leaves the store as it is. *)
Lemma map_read_answers rd msg_id requester origin s m :
  holds s m →
  MapStorage.map_read rd msg_id requester origin s =
    (Ok (reply (map_answer requester rd (m (map_read_target rd))) msg_id origin), s).
Proof.
  intros Hs. destruct rd as [a|a k|a|a|a|a|a|a|a u]; cbn [MapStorage.map_read map_read_target map_answer];
    (etransitivity; [by apply map_query_answers|]); same_answer c; try done.
  - destruct c as [x|x]; cbn; [by destruct (seq_map_get x k)|by destruct (unseq_map_get x k)].
  - by destruct (map_user_permissions c u).
Qed.

Lemma seq_read_answers rd msg_id requester origin s m :
  holds s m →
  SequenceStorage.seq_read rd msg_id requester origin s =
    (Ok (reply (seq_answer requester rd (m (seq_read_target rd))) msg_id origin), s).
Proof.
  intros Hs. destruct rd as [a|a range|a|a u|a|a]; cbn [SequenceStorage.seq_read seq_read_target seq_answer];
    (etransitivity; [by apply seq_query_answers|]); same_answer c; try done.
  - destruct (sequence_in_range _ _ _ _) as [[entries|]|]; done.
  - destruct (sequence_last_entry _ _) as [[entry|]|]; [cbn|done|done]. by destruct (sequence_len _ _).
  - by destruct (sequence_permissions _ _ _).
  - destruct (sequence_is_public c); [|done]. by destruct (sequence_public_policy c).
  - destruct (sequence_is_public c); [done|]. cbn. by destruct (sequence_private_policy c _).
Qed.

Lemma reg_read_answers rd msg_id requester origin s m :
  holds s m →
  RegisterStorage.reg_read rd msg_id requester origin s =
    (Ok (reply (reg_answer requester rd (m (reg_read_target rd))) msg_id origin), s).
Proof.
  intros Hs. destruct rd as [a|a|a|a u|a]; cbn [RegisterStorage.reg_read reg_read_target reg_answer];
    (etransitivity; [by apply reg_query_answers|]); same_answer c; try done.
  - by destruct (register_read c _).
  - by destruct (register_permissions c u _).
  - by destruct (register_policy c _).
Qed.
End read_properties.

(** * The exchange *)

(** What an elder holds after it took data in: the data, and beside it what it had. *)
Definition taken_in {K A} `{Countable K} (data : gmap K A) (m : K → option A) : K → option A :=
  λ k, match data !! k with Some c => Some c | None => m k end.

Section exchange_properties.
Context `{MO : MessagingOps}.
Context {T Id : Type} `{CI : !ChunkId Id} `{SId : !Serde Id} `{CH : !Chunk T Id} `{ST : !Serde T}.
Context `{CId : !Countable Id} (id_cmp : Id → Id → comparison) (id_name : Id → XorName) (address_of : T → Id).
Context `{EL : !EncodingLaws} `{SIL : !SerdeLaws Id} `{STL : !SerdeLaws T}.
Context `{SIT : !SerdeTotal Id} `{STT : !SerdeTotal T}.
Implicit Types (m : kv (T := T) (Id := Id)).

Lemma get_all_holds ids s m : holds s m → get_all ids s = (Ok (omap m ids), s).
Proof.
  intros Hs. induction ids as [|id ids IH]; [done|]. cbn [get_all]. unfold bind, try.
  rewrite (get_holds s m id Hs) by apply ser_total. rewrite IH. unfold ret. csimpl. by destruct (m id).
Qed.

Lemma collect_lookup m l acc id :
  (∀ c, c ∈ l → m (address_of c) = Some c) →
  foldl (λ acc c, <[address_of c := c]> acc) acc l !! id =
  if decide (id ∈ address_of <$> l) then m id else (acc : gmap Id T) !! id.
Proof.
  revert acc. induction l as [|c l IH]; intros acc Hl; cbn [foldl].
  - rewrite decide_False; [done|]. apply not_elem_of_nil.
  - rewrite IH by (intros; apply Hl; by right). rewrite fmap_cons.
    destruct (decide (id ∈ address_of <$> l)) as [Hin|Hin]; [by rewrite decide_True by (by right)|].
    rewrite lookup_insert. destruct (decide (address_of c = id)) as [<-|Hne].
    + rewrite decide_True by (by left). symmetry. apply Hl. by left.
    + rewrite decide_False; [done|]. intros [?|?]%elem_of_cons; congruence.
Qed.

Lemma put_all_holds l s m :
  NoDup l.*1 → (∀ k c, (k, c) ∈ l → chunk_id c = k) → holds s m →
  ∃ r m' s', for_each l (λ kv, put kv.2) s = (r, s') ∧ holds s' m' ∧
    (r = Err NotEnoughSpace ∨
     r = Ok tt ∧ ∀ id, m' id = match (list_to_map l : gmap Id T) !! id with Some c => Some c | None => m id end).
Proof.
  revert s m. induction l as [|[k c] l IH]; intros s m Hnd Hid Hs; cbn [for_each].
  - eexists _, m, s. split; [done|]. split; [done|]. right. done.
  - inversion Hnd as [|? ? Hk Hnd']; subst. unfold bind. simpl.
    destruct (put_holds s m c Hs) as (r & s1 & -> & [[-> Hs1]|[-> Hs1]]); [apply ser_total|apply ser_total|..].
    + destruct (IH s1 _ Hnd' ltac:(intros; apply Hid; by right) Hs1) as (r & m' & s' & -> & Hs' & Hr).
      exists r, m', s'. split; [done|]. split; [done|]. destruct Hr as [->|[-> Hm']]; [by left|right].
      split; [done|]. intros id. rewrite Hm'. assert (chunk_id c = k) as -> by (apply Hid; by left).
      rewrite lookup_insert. unfold kv_set. destruct (decide (k = id)) as [->|Hne].
      * rewrite (not_elem_of_list_to_map_1 l id) by done. by rewrite decide_True.
      * destruct (list_to_map l !! id); [done|]. by rewrite decide_False by congruence.
    + eexists _, _, s1. split; [done|]. split; [exact Hs1|]. by left.
Qed.

(** What an elder hands over for a prefix: the structures of the prefix. *)
Lemma exchange_get_holds prefix s m :
  (∀ c, address_of c = chunk_id c) → holds s m → no_stray (Id := Id) s →
  ∃ data, exchange_get_data_of id_name address_of prefix s = (Ok data, s) ∧
    ∀ id, data !! id = if prefix_matches prefix (id_name id) then m id else None.
Proof.
  intros Haddr Hs Hstray. unfold exchange_get_data_of.
  destruct (keys_none s m (holds_inv _ _ Hs) (holds_faults _ _ Hs) (holds_rep _ _ Hs) Hstray
    (λ id _, ser_total id)) as (l & Hkeys & _ & Hl).
  unfold bind at 1. rewrite Hkeys. unfold bind at 1. rewrite (get_all_holds _ _ _ Hs).
  set (ids := filter _ l). eexists. split; [done|].
  assert (∀ c, c ∈ omap m ids → m (address_of c) = Some c) as Hids.
  { intros c (id & _ & Hm)%list_elem_of_omap. rewrite Haddr.
    by rewrite (holds_id s m id c Hs (ser_total id) Hm). }
  intros id. rewrite (collect_lookup m) by done. rewrite lookup_empty.
  destruct (prefix_matches prefix (id_name id)) eqn:Hp.
  - case_decide as Hin; [done|]. destruct (m id) as [c|] eqn:Hm; [|done]. destruct Hin.
    apply list_elem_of_fmap. exists c. rewrite Haddr, (holds_id s m id c Hs (ser_total id) Hm).
    split; [done|]. apply list_elem_of_omap. exists id. split; [|done].
    apply list_elem_of_filter. split; [done|]. apply Hl. eauto.
  - rewrite decide_False; [done|]. intros (c & -> & (id' & Hid' & Hm)%list_elem_of_omap)%list_elem_of_fmap.
    apply list_elem_of_filter in Hid' as [Hp' _].
    rewrite Haddr, (holds_id s m id' c Hs (ser_total id') Hm) in Hp. congruence.
Qed.

Lemma exchange_update_holds data s m :
  (∀ id c, data !! id = Some c → chunk_id c = id) → holds s m →
  ∃ r m' s', exchange_update id_cmp data s = (r, s') ∧ holds s' m' ∧
    (r = Err NotEnoughSpace ∨ r = Ok tt ∧ ∀ id, m' id = taken_in data m id).
Proof.
  intros Hid Hs. unfold exchange_update.
  destruct (put_all_holds (btree_entries id_cmp data) s m) as (r & m' & s' & Hput & Hs' & Hr);
    [apply NoDup_btree_keys|by intros k c Hk%elem_of_btree_entries; apply Hid|done|].
  exists r, m', s'. split; [done|]. split; [done|].
  destruct Hr as [->|[-> Hm']]; [by left|right]. split; [done|]. intros id. rewrite Hm'. unfold taken_in.
  by rewrite (list_to_map_proper _ (map_to_list data)), list_to_map_to_list
    by (apply NoDup_btree_keys || apply btree_entries_Permutation).
Qed.
End exchange_properties.

(** Encodings of the three data types, and that they are total. *)
Module ToyElderData.
Import ToyCrates ToySerde.

#[export] Program Instance Map_countable : Countable Map := {|
  encode m := encode (match m with Seq p => inl p | Unseq p => inr p end : (N * N) + (N * N));
  decode p := match decode p : option ((N * N) + (N * N)) with
              | Some (inl m) => Some (Seq m)
              | Some (inr m) => Some (Unseq m)
              | None => None
              end;
|}.
Next Obligation. intros [m|m]; simpl; rewrite decode_encode; done. Qed.
#[export] Instance byte_eq_dec : EqDecision byte.
Proof. intros a b. destruct (Byte.byte_eq_dec a b); [by left|by right]. Defined.
#[export] Instance byte_countable : Countable byte :=
  inj_countable Byte.to_N Byte.of_N Byte.of_to_N.

#[export] Instance map_addr_serde : Serde MapAddress := countable_serde (unit * N).
#[export] Instance map_serde : Serde Map := countable_serde Map.
#[export] Instance seq_addr_serde : Serde SequenceAddress := countable_serde (N * bool).
#[export] Instance seq_serde : Serde Sequence := countable_serde ((N * bool) * N * list (list byte)).
#[export] Instance reg_addr_serde : Serde RegisterAddress := countable_serde (bool * N).
#[export] Instance reg_serde : Serde Register := countable_serde ((bool * N) * N).
#[export] Instance map_addr_laws : SerdeLaws MapAddress := countable_serde_laws (unit * N).
#[export] Instance map_laws : SerdeLaws Map := countable_serde_laws Map.
#[export] Instance seq_addr_laws : SerdeLaws SequenceAddress := countable_serde_laws (N * bool).
#[export] Instance seq_laws : SerdeLaws Sequence := countable_serde_laws ((N * bool) * N * list (list byte)).
#[export] Instance reg_addr_laws : SerdeLaws RegisterAddress := countable_serde_laws (bool * N).
#[export] Instance reg_laws : SerdeLaws Register := countable_serde_laws ((bool * N) * N).
#[export] Instance countable_total A `{Countable A} : SerdeTotal A (Serde0 := countable_serde A).
Proof. done. Qed.
#[export] Instance map_addr_total : SerdeTotal MapAddress := countable_total (unit * N).
#[export] Instance map_total : SerdeTotal Map := countable_total Map.
#[export] Instance seq_addr_total : SerdeTotal SequenceAddress := countable_total (N * bool).
#[export] Instance seq_total : SerdeTotal Sequence := countable_total ((N * bool) * N * list (list byte)).
#[export] Instance reg_addr_total : SerdeTotal RegisterAddress := countable_total (bool * N).
#[export] Instance reg_total : SerdeTotal Register := countable_total ((bool * N) * N).
End ToyElderData.

Module Witness.
Import ToyCrates ToySerde ToyElderData.

Definition maddr (n : N) : MapAddress := (tt, n).
Definition saddr (n : N) (public : bool) : SequenceAddress := (n, public).
Definition raddr (n : N) (public : bool) : RegisterAddress := (public, n).

(** An empty store of each kind, with room for 1000 bytes. *)
Definition fs0 : Fs := mkFs ∅ ∅ [].
Definition opened (r : result Error ChunkStore * Fs) : CS :=
  match r with (Ok st, fs) => (st, fs) | (Err _, fs) => (mkChunkStore [] (us_new 0) 0, fs) end.
Definition map_store : CS := opened (MapStorage.map_new ["root"] 1000 fs0).
Definition seq_store0 : CS := opened (SequenceStorage.seq_new ["root"] 1000 fs0).
Definition reg_store0 : CS := opened (RegisterStorage.reg_new ["root"] 1000 fs0).

Lemma opened_holds {T Id} `{!ChunkId Id} `{!Serde Id} `{!Chunk T Id} `{!Serde T} `{!SerdeLaws Id} `{!Subdir T} :
  holds (T := T) (Id := Id) (opened (cs_new (T := T) ["root"] 1000 fs0)) (λ _, None).
Proof.
  destruct (cs_new_fresh (T := T) (Id := Id) ["root"] 1000 fs0) as (st & fs & Hnew & Hf & Hinv & Hrep & _);
    [done|by unfold u64_max|by intros; apply lookup_empty|].
  unfold opened. rewrite Hnew. by split.
Qed.

Definition no_maps : kv (T := Map) (Id := MapAddress) := λ _, None.
Definition no_seqs : kv (T := Sequence) (Id := SequenceAddress) := λ _, None.
Definition no_regs : kv (T := Register) (Id := RegisterAddress) := λ _, None.

(** The owner creates a map, a stranger cannot delete it, the owner can. *)
Definition map_story : list NodeDuty * CS :=
  let '(d1, s1) := MapStorage.map_write (MapNew (Seq (3%N, 1%N))) (mid 7) (key 1) (usr 2) map_store in
  let '(d2, s2) := MapStorage.map_write (MapDeleteCmd (maddr 3)) (mid 8) (key 9) (usr 2) s1 in
  let '(d3, s3) := MapStorage.map_write (MapDeleteCmd (maddr 3)) (mid 9) (key 1) (usr 2) s2 in
  ((λ d, match d with Ok d => d | Err _ => Genesis end) <$> [d1; d2; d3], s3).
Example map_story_replies :
  map_story.1 =
  [NoOp; ok_or_error (A := unit) (Err (NetworkData (DtAccessDenied (key 9)))) (mid 8) (usr 2); NoOp].
Proof. vm_cast_no_check (eq_refl map_story.1). Qed.

Lemma no_stray_empty : no_stray (Id := MapAddress) map_store.
Proof.
  intros n Hn Hne. destruct Hne. destruct Hn as [c Hc].
  apply elem_of_map_to_list, (list_elem_of_fmap_2 fst) in Hc. simpl in Hc.
  assert (Forall (λ p, p = join (cs_dir map_store.1) USED_SPACE_FILENAME) (map_to_list (files map_store.2)).*1)
    as Hl by (apply (bool_decide_unpack _); vm_compute; exact I).
  rewrite Forall_forall in Hl. apply Hl in Hc. by apply join_inj in Hc as [_ ->].
Qed.

End Witness.
