(* ===== verification/StoreFrame.v ===== *)
(** What an operation of a chunk store leaves alone: the files of every other
    directory.  The stores of an elder share the disk, so this is what lets the
    properties of one store stand beside the work of another. *)

From S2P Require Import Prelude Crates Messages Disk Toy F64 UsedSpace ChunkStore Network Capacity AdultLiveness BlobRecords ElderData.

Section frame.
Context `{MO : MessagingOps}.

(** [fs'] is [fs] but for files directly below [dir]; a disk without faults stays so. *)
Record only_below (dir : path) (fs fs' : Fs) : Prop := {
  ob_dirs : dirs fs ⊆ dirs fs';
  ob_faults : faults fs = [] → faults fs' = [];
  ob_files : ∀ p, child_name dir p = None → files fs' !! p = files fs !! p;
}.

#[export] Instance only_below_preorder dir : PreOrder (only_below dir).
Proof.
  split; [by intros fs; split|]. intros fs1 fs2 fs3 [Hd1 Hf1 Hp1] [Hd2 Hf2 Hp2].
  split; [set_solver|auto|]. intros p Hp. by rewrite Hp2, Hp1.
Qed.

Abbreviation below_dir dir m := (keeps (E := IoError) (only_below dir) m).

Lemma next_fault_below dir fs : only_below dir fs (next_fault fs).2.
Proof.
  split; [by rewrite next_fault_dirs|intros Hf; by rewrite next_fault_none|]. intros. by rewrite next_fault_files.
Qed.

Lemma syscall_below {A} dir (k : M IoError Fs A) : below_dir dir k → below_dir dir (syscall k).
Proof.
  intros Hk fs. unfold syscall. pose proof (next_fault_below dir fs) as Hn.
  destruct (next_fault fs) as [[n|] fs']; [done|]. etrans; [exact Hn|apply Hk].
Qed.

(** A change of one file below [dir]. *)
Lemma set_files_below dir n g fs :
  (∀ p, p ≠ join dir n → g !! p = files fs !! p) → only_below dir fs (set_files g fs).
Proof.
  intros Hg. split; [done|done|]. intros p Hp. apply Hg. intros ->.
  by rewrite (proj2 (child_name_Some dir _ n) eq_refl) in Hp.
Qed.

Lemma fs_create_below dir n : below_dir dir (fs_create (join dir n)).
Proof.
  apply syscall_below. intros fs. case_decide; [|done]. apply (set_files_below _ n). intros. by rewrite lookup_insert_ne.
Qed.
Lemma fs_remove_file_below dir n : below_dir dir (fs_remove_file (join dir n)).
Proof.
  apply syscall_below. intros fs. destruct (files fs !! _); [|done].
  apply (set_files_below _ n). intros. by rewrite lookup_delete_ne.
Qed.
Lemma fs_truncate_below dir n : below_dir dir (fs_truncate (join dir n)).
Proof. apply syscall_below. intros fs. apply (set_files_below _ n). intros. by rewrite lookup_alter_ne. Qed.
Lemma fs_write_all_below dir n pos data : below_dir dir (fs_write_all (join dir n) pos data).
Proof.
  intros fs. unfold fs_write_all. pose proof (next_fault_below dir fs) as Hn.
  destruct (next_fault fs) as [[k|] fs']; (etrans; [exact Hn|]); apply (set_files_below _ n); intros; by rewrite lookup_alter_ne.
Qed.
Lemma fs_seek_start_below dir p : below_dir dir (fs_seek_start p).
Proof. apply syscall_below, keeps_ret, _. Qed.
Lemma fs_sync_all_below dir p : below_dir dir (fs_sync_all p).
Proof. apply syscall_below, keeps_ret, _. Qed.
Lemma fs_metadata_below dir p : below_dir dir (fs_metadata p).
Proof. apply syscall_below. by apply keeps_same; [apply _|]. Qed.
Lemma fs_open_below dir p : below_dir dir (fs_open p).
Proof. apply syscall_below. by apply keeps_same; [apply _|]. Qed.
Lemma fs_read_dir_below dir p : below_dir dir (fs_read_dir p).
Proof. apply syscall_below. apply keeps_same; [apply _|]. intros fs. by case_decide. Qed.
Lemma fs_entries_below dir names fs : only_below dir fs (fs_entries names fs).2.
Proof.
  revert fs. induction names as [|n l IH]; intros fs; [done|]. simpl. pose proof (next_fault_below dir fs) as Hn.
  destruct (next_fault fs) as [f fs1]. specialize (IH fs1). destruct (fs_entries l fs1) as [r fs2]. by etrans.
Qed.
Lemma io_below {A} dir (m : M IoError Fs A) : below_dir dir m → keeps (only_below dir) (io m).
Proof. intros Hm fs. specialize (Hm fs). unfold io. by destruct (m fs). Qed.

Hint Resolve fs_create_below fs_remove_file_below fs_truncate_below fs_write_all_below fs_seek_start_below
  fs_sync_all_below fs_metadata_below fs_open_below fs_read_dir_below io_below only_below_preorder : node_keeps.

Lemma write_local_below dir n v : keeps (only_below dir) (write_local_to_file (join dir n) v).
Proof. unfold write_local_to_file. repeat keep_step. Qed.

(** * Operations of a store *)

(** The record of a local store is directly below [dir]. *)
Definition record_below (dir : path) (id : Z) (u : UsedSpace) : Prop :=
  ∀ l, local_stores u !! id = Some l → ∃ n, local_record l = join dir n.

(** A store at [dir] whose record is there too. *)
Definition store_at (dir : path) (id : Z) (st : ChunkStore) : Prop :=
  cs_dir st = dir ∧ cs_id st = id ∧ record_below dir id (cs_used_space st).

Definition confined (dir : path) (id : Z) (s s' : CS) : Prop :=
  store_at dir id s.1 → store_at dir id s'.1 ∧ only_below dir s.2 s'.2.

#[export] Instance confined_preorder dir id : PreOrder (confined dir id).
Proof.
  split; [by intros s Hs|]. intros s1 s2 s3 H12 H23 H1. destruct (H12 H1) as [H2 Hb12].
  destruct (H23 H2) as [H3 Hb23]. split; [done|]. by etrans.
Qed.

Lemma confined_disk {A} dir id (m : M Error Fs A) : keeps (only_below dir) m → keeps (confined dir id) (on_disk m).
Proof. intros Hm [st fs] Hs. specialize (Hm fs). unfold on_disk, zoom. simpl. by destruct (m fs). Qed.

(** A step that knows which store it is of. *)
Lemma confined_get {A} dir id (f : CS → M Error CS A) :
  (∀ s, cs_dir s.1 = dir → cs_id s.1 = id → keeps (confined dir id) (f s)) → keeps (confined dir id) (bind get f).
Proof. intros Hf s Hs. destruct (Hs) as (Hd & Hi & _). by apply (Hf s Hd Hi s). Qed.

Definition tracked (dir : path) (id : Z) (fs : Fs) (s : US) : Prop := record_below dir id s.1 ∧ only_below dir fs s.2.

(** An update of the tracker that writes the record. *)
Lemma confined_record {A} dir id (m : M Error US A) :
  (∀ u fs, record_below dir id u → tracked dir id fs (m (u, fs)).2) →
  keeps (confined dir id) (on_used m).
Proof.
  intros Hm [st fs] (Hd & Hi & Hr). simpl in *. destruct (Hm (cs_used_space st) fs Hr) as [Hr' Hb].
  unfold on_used, zoom. simpl. by destruct (m _) as [r [u' fs']].
Qed.

Lemma record_below_insert dir id v l u :
  record_below dir id u → local_stores u !! id = Some l →
  record_below dir id (set_locals (<[id := set_local_value v l]> (local_stores u)) u).
Proof.
  intros Hr Hl l'. simpl. rewrite lookup_insert_eq. intros [= <-]. exact (Hr l Hl).
Qed.

Lemma confined_increase dir id n : keeps (confined dir id) (on_used (increase id n)).
Proof.
  apply confined_record. intros u fs Hr. unfold increase, bind at 1, get, lift. cbn [fst].
  unfold bind at 1. destruct (ok_or (checked_add _ _) _) as [t|]; [|done]. case_bool_decide; [done|].
  unfold bind at 1. destruct (local_stores u !! id) as [l|] eqn:Hl; [|done]. cbn [ok_or].
  unfold bind at 1. destruct (ok_or (checked_add (local_value l) n) _) as [v|]; [|done].
  destruct (Hr l Hl) as [name Hname]. pose proof (write_local_below dir name v fs) as Hw.
  unfold bind, on_fs, zoom. rewrite Hname. cbn [snd]. destruct (write_local_to_file _ _ fs) as [[[]|] fs']; [|done].
  split; [|exact Hw]. by apply (record_below_insert dir id v l (set_total t u)).
Qed.

Lemma confined_decrease dir id n : keeps (confined dir id) (on_used (decrease id n)).
Proof.
  apply confined_record. intros u fs Hr. unfold decrease, bind at 1, get, lift. cbn [fst].
  unfold bind at 1. destruct (local_stores u !! id) as [l|] eqn:Hl; [|done]. cbn [ok_or].
  destruct (Hr l Hl) as [name Hname]. set (v := saturating_sub _ _). pose proof (write_local_below dir name v fs) as Hw.
  unfold bind, on_fs, zoom. rewrite Hname. cbn [snd]. destruct (write_local_to_file _ _ fs) as [[[]|] fs']; [|done].
  split; [|exact Hw]. by apply (record_below_insert dir id v l (set_total _ u)).
Qed.
Hint Resolve confined_preorder confined_disk confined_increase confined_decrease : node_keeps.

Lemma confined_do_delete dir id n : keeps (confined dir id) (do_delete (join dir n)).
Proof.
  unfold do_delete. apply keeps_bind; [exact _|repeat keep_step|]. intros [len|]; [|repeat keep_step]. apply confined_get. intros s Hd ->. repeat keep_step.
Qed.
Hint Resolve confined_do_delete : node_keeps.

Section ops.
Context {T Id : Type} `{CI : !ChunkId Id} `{SId : !Serde Id} `{CH : !Chunk T Id} `{ST : !Serde T}.

(** A step that works on the file of a chunk. *)
Lemma confined_file_path {A} dir id st (cid : Id) (f : path → M Error CS A) :
  cs_dir st = dir → (∀ n, keeps (confined dir id) (f (join dir n))) →
  keeps (confined dir id) (bind (lift (file_path st cid)) f).
Proof.
  intros <- Hf. unfold file_path. destruct (ser cid) as [b|]; cbn [map_err res_bind].
  - intros s Hs. by apply (Hf _ s Hs).
  - by intros s Hs.
Qed.

Lemma confined_put dir id (c : T) : keeps (confined dir id) (put c).
Proof.
  unfold put. apply keeps_bind; [exact _|repeat keep_step|]. intros b. apply confined_get. intros s Hd ->. apply confined_file_path; [done|]. intros n.
  repeat keep_step. apply confined_disk, io_below. unfold write_chunk_file. repeat keep_step.
Qed.

Lemma confined_delete dir id (cid : Id) : keeps (confined dir id) (delete cid).
Proof.
  unfold delete. apply confined_get. intros s Hd Hi. apply confined_file_path; [done|]. repeat keep_step.
Qed.

Lemma confined_get_chunk dir id (cid : Id) : keeps (confined dir id) (get_chunk (T := T) cid).
Proof.
  unfold get_chunk. apply confined_get. intros s Hd Hi. apply confined_file_path; [done|]. intros n. repeat keep_step.
  apply confined_disk. intros fs. unfold fs_read_to_end. pose proof (next_fault_below dir fs).
  by destruct (next_fault fs) as [[] ?].
Qed.

Lemma confined_has dir id (cid : Id) : keeps (confined dir id) (has cid).
Proof.
  unfold has. apply confined_get. intros s Hd Hi. unfold file_path. destruct (ser cid); cbn [map_err res_bind]; repeat keep_step.
Qed.

Lemma confined_keys dir id : keeps (confined dir id) (keys (Id := Id)).
Proof.
  intros [st fs] Hs. unfold keys. cbn [fst snd]. pose proof (fs_read_dir_below dir (cs_dir st) fs) as Hr.
  destruct (fs_read_dir _ fs) as [[names|] fs1]; [|done]. cbn [snd] in Hr.
  pose proof (fs_entries_below dir names fs1) as He. destruct (fs_entries names fs1) as [l fs2]. split; [done|].
  by etrans.
Qed.
End ops.

(** Opening a store. *)
Lemma fs_open_rw_below dir n : below_dir dir (fs_open_rw (join dir n)).
Proof.
  apply syscall_below. intros fs. case_decide; [|done]. destruct (files fs !! join dir n); [done|].
  apply (set_files_below _ n). intros. by rewrite lookup_insert_ne.
Qed.
Lemma create_dir_all_below dir p : below_dir dir (fs_create_dir_all p).
Proof. apply syscall_below. intros fs. split; [simpl; set_solver|done|done]. Qed.
Lemma fs_read_below dir p : below_dir dir (fs_read p).
Proof. apply syscall_below. by apply keeps_same; [apply _|]. Qed.
Hint Resolve fs_open_rw_below create_dir_all_below fs_read_below : node_keeps.

Lemma read_or_init_below dir n : keeps (only_below dir) (read_or_init_record (join dir n)).
Proof.
  intros fs. unfold read_or_init_record, fs_read_to_end. pose proof (next_fault_below dir fs) as Hn.
  destruct (next_fault fs) as [[k|] fs1]; cbn [snd] in Hn; case_match; simplify_eq/=; try exact Hn;
    match goal with |- context [bind ?m ?f ?s] =>
      assert (keeps (only_below dir) (bind m f)) as Hw by (repeat keep_step); etrans; [exact Hn|exact (Hw s)] end.
Qed.

Lemma cs_new_below {T} `{!Subdir T} root cap :
  keeps (only_below (join (join root CHUNK_STORE_DIR) subdir)) (cs_new (T := T) root cap).
Proof.
  unfold cs_new. set (dir := join _ _). apply keeps_bind; [exact _|repeat keep_step|]. intros r.
  apply keeps_bind; [exact _|destruct (is_ok r); [repeat keep_step|unfold create_new_root; repeat keep_step]|].
  intros _ fs. unfold add_local_store, bind at 1, on_fs at 1, zoom. cbn [fst snd].
  assert (keeps (only_below dir) (io (fs_open_rw (join dir USED_SPACE_FILENAME)))) as Ho by eauto with node_keeps.
  specialize (Ho fs). destruct (io (fs_open_rw _) fs) as [[[]|] fs1]; [|exact Ho].
  pose proof (read_or_init_below dir USED_SPACE_FILENAME fs1) as Hr. unfold bind, on_fs, zoom. cbn [snd fst].
  destruct (read_or_init_record _ fs1) as [[v|] fs2]; cbn [snd] in *; by etrans.
Qed.
Hint Resolve confined_put confined_delete confined_get_chunk confined_has confined_keys : node_keeps.
End frame.
#[export] Hint Resolve confined_preorder confined_put confined_delete confined_get_chunk confined_has confined_keys : node_keeps.

(** * Requests on the data of elders *)

Section requests.
Context `{MO : MessagingOps} `{DO : !DataOpsCrate}.
Context `{SMA : !Serde MapAddress} `{SM : !Serde Map} `{SSA : !Serde SequenceAddress} `{SS : !Serde Sequence}
        `{SRA : !Serde RegisterAddress} `{SR : !Serde Register}.

Lemma confined_map_write dir id w msg_id requester origin :
  keeps (confined dir id) (MapStorage.map_write w msg_id requester origin).
Proof.
  destruct w; cbn [MapStorage.map_write];
    unfold MapStorage.map_create, MapStorage.map_delete, MapStorage.map_delete_user_permissions,
      MapStorage.map_edit_entries, MapStorage.map_edit_chunk; repeat keep_step.
Qed.
Lemma confined_map_read dir id q msg_id requester origin :
  keeps (confined dir id) (MapStorage.map_read q msg_id requester origin).
Proof.
  destruct q; cbn [MapStorage.map_read];
    unfold MapStorage.map_get, MapStorage.map_get_value, MapStorage.map_get_shell, MapStorage.map_get_version,
      MapStorage.map_list_entries, MapStorage.map_list_keys, MapStorage.map_list_values,
      MapStorage.map_list_permissions, MapStorage.map_list_user_permissions, MapStorage.map_query,
      MapStorage.map_get_chunk; repeat keep_step.
Qed.
Lemma confined_seq_write dir id w msg_id requester origin :
  keeps (confined dir id) (SequenceStorage.seq_write w msg_id requester origin).
Proof.
  destruct w; cbn [SequenceStorage.seq_write];
    unfold SequenceStorage.seq_store, SequenceStorage.seq_edit, SequenceStorage.seq_delete,
      SequenceStorage.seq_edit_chunk, SequenceStorage.seq_get_chunk; repeat keep_step.
Qed.
Lemma confined_seq_read dir id q msg_id requester origin :
  keeps (confined dir id) (SequenceStorage.seq_read q msg_id requester origin).
Proof.
  destruct q; cbn [SequenceStorage.seq_read];
    unfold SequenceStorage.seq_get, SequenceStorage.seq_get_range, SequenceStorage.seq_get_last_entry,
      SequenceStorage.seq_get_user_permissions, SequenceStorage.seq_get_public_policy,
      SequenceStorage.seq_get_private_policy, SequenceStorage.seq_query, SequenceStorage.seq_get_chunk; repeat keep_step.
Qed.
Lemma confined_reg_write dir id w msg_id requester origin :
  keeps (confined dir id) (RegisterStorage.reg_write w msg_id requester origin).
Proof.
  destruct w; cbn [RegisterStorage.reg_write];
    unfold RegisterStorage.reg_store, RegisterStorage.reg_edit, RegisterStorage.reg_delete,
      RegisterStorage.reg_edit_chunk, RegisterStorage.reg_get_chunk; repeat keep_step.
Qed.
Lemma confined_reg_read dir id q msg_id requester origin :
  keeps (confined dir id) (RegisterStorage.reg_read q msg_id requester origin).
Proof.
  destruct q; cbn [RegisterStorage.reg_read];
    unfold RegisterStorage.reg_get, RegisterStorage.reg_read_register, RegisterStorage.reg_get_policy,
      RegisterStorage.reg_get_user_permissions, RegisterStorage.reg_get_owner, RegisterStorage.reg_query,
      RegisterStorage.reg_get_chunk; repeat keep_step.
Qed.
End requests.

Section exchange_frame.
Context `{MO : MessagingOps}.
Context {T Id : Type} `{CI : !ChunkId Id} `{SId : !Serde Id} `{CH : !Chunk T Id} `{ST : !Serde T}.
Context `{CId : !Countable Id} (id_cmp : Id → Id → comparison) (id_name : Id → XorName) (address_of : T → Id).

Lemma confined_exchange_update dir id (data : gmap Id T) : keeps (confined dir id) (exchange_update id_cmp data).
Proof. unfold exchange_update. repeat keep_step. Qed.

(** * A store beside the work of another *)

Context `{EL : !EncodingLaws}.

(** The bytes of a directory are counted from its own files. *)
Lemma chunk_bytes_ext dir fs fs' :
  (∀ n, files fs' !! join dir n = files fs !! join dir n) → chunk_bytes dir fs' = chunk_bytes dir fs.
Proof.
  intros Hf. unfold chunk_bytes.
  assert (∀ k v, ¬ is_Some (child_name dir (k, v).1) → chunk_weight dir k v = 0) as Hw.
  { intros k v Hk. unfold chunk_weight. simpl in Hk. by destruct (child_name dir k) as [n|]; [destruct Hk|]. }
  set (own := λ kv : path * list byte, is_Some (child_name dir kv.1)).
  rewrite (map_sum_filter _ (files fs') own Hw), (map_sum_filter _ (files fs) own Hw).
  f_equal. apply map_eq. intros p. apply option_eq. intros c. rewrite !map_lookup_filter_Some.
  split; intros [Hp Hown]; (split; [|exact Hown]); destruct Hown as [n Hn]; simpl in Hn;
    apply child_name_Some in Hn as ->; by rewrite Hf in *.
Qed.

Lemma holds_frame st fs fs' dir (m : kv (T := T) (Id := Id)) :
  holds (st, fs) m → only_below dir fs fs' → cs_dir st ≠ dir → holds (st, fs') m.
Proof.
  intros [[Hd Hr Hl Ht Hm] Hf Hrep] [Hdirs Hfaults Hfiles] Hne. unfold record_path, capacity in *. simpl in *.
  assert (∀ n, files fs' !! join (cs_dir st) n = files fs !! join (cs_dir st) n) as Hown.
  { intros n. apply Hfiles. destruct (child_name dir _) as [n'|] eqn:Hn; [|done].
    apply child_name_Some, join_inj in Hn as [? _]. done. }
  pose proof (chunk_bytes_ext _ _ _ Hown) as Hbytes. split.
  - split; unfold record_path, capacity; simpl; rewrite ?Hbytes, ?Hown; auto.
  - simpl. auto.
  - intros id p Hp. simpl in *. destruct (file_path_Ok _ _ _ Hp) as (n & -> & _). rewrite Hown. by apply Hrep.
Qed.

(** A sound store has its record in its directory. *)
Lemma holds_store_at s (m : kv (T := T) (Id := Id)) : holds s m → store_at (cs_dir s.1) (cs_id s.1) s.1.
Proof.
  intros [[_ _ Hl _ _] _ _]. split; [done|]. split; [done|]. intros l. rewrite Hl. intros [= <-]. simpl. unfold record_path. eauto.
Qed.

(** So its operations keep the other stores. *)
Lemma confined_frame {A} (op : M Error CS A) s (m : kv (T := T) (Id := Id)) r s' :
  keeps (confined (cs_dir s.1) (cs_id s.1)) op → holds s m → op s = (r, s') →
  cs_dir s'.1 = cs_dir s.1 ∧ only_below (cs_dir s.1) s.2 s'.2.
Proof.
  intros Hop Hs Hrun. pose proof (Hop s (holds_store_at s m Hs)) as Hc. rewrite Hrun in Hc. simpl in Hc.
  by destruct Hc as [(? & _ & _) ?].
Qed.
End exchange_frame.
