(* ===== verification/RewardCalc.v ===== *)
(** [src/section_funds/reward_calc.rs]: how much a section pays out when its
    members change, and how the amount is shared among its nodes.

    Arithmetic is on [u64] with the overflow checks of a debug build: an
    operation that overflows, or a division by zero, is [Panic].  The [while]
    loop of [distribute] runs on fuel; the fuel is one more than the number of
    rounds the amount can last, and the theorems show that it is enough. *)

From S2P Require Import Prelude Crates Messages Toy.

Inductive stop : Type := Panic | OutOfFuel.
Definition checked {A} (o : option A) : result stop A := ok_or o Panic.

Section reward_calc.
Context `{MO : MessagingOps}.

Definition MIN_REWARD_AGE : Z := 6.

(** [get_reward_and_mint_amount] *)
Definition get_reward_and_mint_amount (payments section_managed max_supply : Token) : result stop Token :=
  if section_managed <? max_supply then
    let to_be_minted := Z.min payments (max_supply - section_managed) in
    checked (checked_add payments to_be_minted)
  else
    let excess_supply := section_managed - max_supply in
    if excess_supply <? payments then Ok (payments - excess_supply) else Ok 0.

(** Wallets of the nodes, by age. *)
#[local] Abbreviation Buckets := (gmap Z (gmap XorName PublicKey)).

(** [get_buckets] *)
Definition bucket_insert (reward_buckets : Buckets) (node : XorName * (Z * PublicKey)) : Buckets :=
  let '(node_name, (age, wallet)) := node in
  if MIN_REWARD_AGE <=? age
  then <[age := <[node_name := wallet]> (default ∅ (reward_buckets !! age))]> reward_buckets
  else reward_buckets.
Definition get_buckets (nodes : gmap XorName (Z * PublicKey)) : Buckets :=
  foldl bucket_insert ∅ (btree_entries name_cmp nodes).

(** The length of a number in decimal digits: [x.to_string().len()]. *)
Fixpoint digits_fuel (fuel : nat) (n : Z) : Z :=
  match fuel with
  | O => 1
  | S fuel => if n <? 10 then 1 else 1 + digits_fuel fuel (n / 10)
  end.
Definition digits (n : Z) : Z := digits_fuel 20 n.

Definition wallet_count (wallets : gmap XorName PublicKey) : Z := Z.of_nat (size wallets).

(** The multiplier that shortens the iterations. *)
Definition bucket_multiplier (amount : Z) (reward_buckets : list (Z * gmap XorName PublicKey)) : result stop Z :=
  let max_age := foldl Z.max 0 reward_buckets.*1 in
  let node_count := sum_Z ((λ b, wallet_count b.2) <$> reward_buckets) in
  if max_age * node_count =? 0 then Err Panic else
  let share := amount / (max_age * node_count) in
  let divisor := max_age * digits amount in
  if divisor =? 0 then Err Panic else Ok (Z.max 1 (share / divisor)).

(** One [for] loop over the buckets. *)
Fixpoint round (multiplier : Z) (buckets : list (Z * gmap XorName PublicKey))
    (counters : gmap Z Z) (remaining : Z) : result stop (gmap Z Z * Z) :=
  match buckets with
  | [] => Ok (counters, remaining)
  | (age, wallets) :: buckets =>
      res_bind (checked (checked_pow2 age)) (λ proportional_work,
      res_bind (checked (checked_mul proportional_work (wallet_count wallets))) (λ work,
      res_bind (checked (checked_mul work multiplier)) (λ full,
      let reward := Z.min full remaining in
      res_bind (checked (checked_add (default 0 (counters !! age)) reward)) (λ total,
      let counters := <[age := total]> counters in
      let remaining := remaining - reward in
      if remaining =? 0 then Ok (counters, 0)
      else round multiplier buckets counters remaining))))
  end.

(** The [while] loop. *)
Fixpoint rounds (fuel : nat) (multiplier : Z) (buckets : list (Z * gmap XorName PublicKey))
    (counters : gmap Z Z) (remaining : Z) : result stop (gmap Z Z) :=
  if remaining <=? 0 then Ok counters else
  match fuel with
  | O => Err OutOfFuel
  | S fuel =>
      res_bind (round multiplier buckets counters remaining) (λ '(counters, remaining),
      rounds fuel multiplier buckets counters remaining)
  end.

(** What one whole round pays. *)
Definition per_round (multiplier : Z) (buckets : list (Z * gmap XorName PublicKey)) : Z :=
  sum_Z ((λ b, 2 ^ b.1 * wallet_count b.2 * multiplier) <$> buckets).
Definition round_fuel (amount multiplier : Z) (buckets : list (Z * gmap XorName PublicKey)) : nat :=
  S (Z.to_nat (amount / per_round multiplier buckets)).

#[local] Abbreviation Payout := (Z * PublicKey * Token)%type.

(** The shares of one bucket: the first wallet also gets the remainder. *)
Definition bucket_shares (age reward : Z) (wallets : gmap XorName PublicKey) : list (XorName * Payout) :=
  let reward_per_wallet := reward / wallet_count wallets in
  let remainder := reward mod wallet_count wallets in
  match btree_entries name_cmp wallets with
  | [] => []
  | (first, wallet) :: rest =>
      (first, (age, wallet, reward_per_wallet + remainder)) ::
      ((λ '(node_name, wallet), (node_name, (age, wallet, reward_per_wallet))) <$> rest)
  end.
Definition insert_shares (l : list (XorName * Payout)) (m : gmap XorName Payout) : gmap XorName Payout :=
  foldl (λ m '(n, p), <[n := p]> m) m l.

(** The last loop of [distribute]; the [unwrap] finds a bucket for every
    counter. *)
Definition pay_out (reward_buckets : Buckets) (counters : gmap Z Z) : result stop (gmap XorName Payout) :=
  foldl (λ acc '(age, reward),
    res_bind acc (λ to_return,
    match reward_buckets !! age with
    | None => Err Panic
    | Some wallets => Ok (insert_shares (bucket_shares age reward wallets) to_return)
    end)) (Ok ∅) (btree_entries Z.compare counters).

(** [distribute] *)
Definition distribute (amount : Token) (reward_buckets : Buckets) : result stop (gmap XorName Payout) :=
  let buckets := btree_entries Z.compare reward_buckets in
  if bool_decide (buckets = []) then Ok ∅ else
  res_bind (bucket_multiplier amount buckets) (λ multiplier,
  res_bind (rounds (round_fuel amount multiplier buckets) multiplier buckets ∅ amount) (λ counters,
  pay_out reward_buckets counters)).

(** [distribute_rewards] *)
Definition distribute_rewards (amount : Token) (nodes : gmap XorName (Z * PublicKey)) :
    result stop (gmap XorName Payout) :=
  distribute amount (get_buckets nodes).

(** * Lemmas: the rounds *)

(** The products of a round stay in range. *)
Definition fits (multiplier : Z) (b : Z * gmap XorName PublicKey) : Prop :=
  0 ≤ b.1 < 64 ∧ 0 < wallet_count b.2 ∧ 2 ^ b.1 * wallet_count b.2 * multiplier ≤ u64_max.

Definition counted (c : gmap Z Z) : Z := map_sum (λ _ v, v) c.

Lemma full_pos multiplier b :
  1 ≤ multiplier → fits multiplier b → 1 ≤ 2 ^ b.1 * wallet_count b.2 * multiplier.
Proof.
  intros Hm (Hage & Hw & _). assert (0 < 2 ^ b.1) by (apply Z.pow_pos_nonneg; lia). nia.
Qed.

Lemma per_round_nonneg multiplier bs : 1 ≤ multiplier → Forall (fits multiplier) bs → 0 ≤ per_round multiplier bs.
Proof.
  intros Hm Hf. apply sum_Z_nonneg. rewrite Forall_fmap. eapply Forall_impl; [exact Hf|].
  intros b Hb%full_pos; simpl; lia.
Qed.

Lemma round_step multiplier age wallets :
  fits multiplier (age, wallets) → 1 ≤ multiplier →
  checked_pow2 age = Some (2 ^ age) ∧
  checked_mul (2 ^ age) (wallet_count wallets) = Some (2 ^ age * wallet_count wallets) ∧
  checked_mul (2 ^ age * wallet_count wallets) multiplier = Some (2 ^ age * wallet_count wallets * multiplier).
Proof.
  intros (Hage & Hw & Hmax) Hm. simpl in *. assert (0 < 2 ^ age) by (apply Z.pow_pos_nonneg; lia).
  rewrite checked_pow2_Some, !checked_mul_Some. split; [lia|]. split; (split; [done|nia]).
Qed.

Definition counters_ok (ages : list Z) (amount remaining : Z) (c : gmap Z Z) : Prop :=
  counted c + remaining = amount ∧ ∀ a v, c !! a = Some v → 0 ≤ v ∧ a ∈ ages.

Lemma counters_ok_add ages amount remaining c age reward :
  counters_ok ages amount remaining c → amount ≤ u64_max → 0 ≤ reward ≤ remaining → age ∈ ages →
  checked_add (default 0 (c !! age)) reward = Some (default 0 (c !! age) + reward) ∧
  counters_ok ages amount (remaining - reward) (<[age := default 0 (c !! age) + reward]> c).
Proof.
  intros [Hsum Hc] Hmax Hr Hage.
  assert (0 ≤ default 0 (c !! age) ≤ counted c) as Hd.
  { unfold counted. destruct (c !! age) as [v|] eqn:Hv; simpl.
    - split; [by apply (Hc age)|]. apply (map_sum_lookup_le (λ _ v, v) c age v); [|done].
      intros k w Hw%Hc. lia.
    - split; [done|]. apply map_sum_nonneg. intros k w Hw%Hc. lia. }
  split; [apply checked_add_Some; split; [done|lia]|]. split.
  - unfold counted in *. rewrite map_sum_set. destruct (c !! age); simpl in *; lia.
  - intros a v. rewrite lookup_insert. case_decide; subst; [intros [= <-]; split; [lia|done]|]. apply Hc.
Qed.

(** One round pays [per_round], or all that remains. *)
Lemma round_spec ages amount multiplier bs c remaining :
  1 ≤ multiplier → amount ≤ u64_max → Forall (fits multiplier) bs → (∀ b, b ∈ bs → b.1 ∈ ages) →
  0 < remaining → counters_ok ages amount remaining c →
  ∃ c', round multiplier bs c remaining = Ok (c', Z.max 0 (remaining - per_round multiplier bs)) ∧
    counters_ok ages amount (Z.max 0 (remaining - per_round multiplier bs)) c'.
Proof.
  intros Hm Hmax Hfits. revert c remaining.
  induction Hfits as [|[age wallets] bs Hb Hbs IH]; intros c remaining Hages Hrem Hc; cbn [round].
  - exists c. change (per_round multiplier []) with 0. rewrite Z.sub_0_r, Z.max_r by lia. done.
  - destruct (round_step multiplier age wallets Hb Hm) as (Hw1 & Hw2 & Hw3).
    rewrite Hw1. cbn [checked ok_or res_bind]. rewrite Hw2. cbn [checked ok_or res_bind].
    rewrite Hw3. cbn [checked ok_or res_bind].
    set (full := 2 ^ age * wallet_count wallets * multiplier).
    pose proof (full_pos _ _ Hm Hb) as Hfull. simpl in Hfull. fold full in Hfull.
    assert (per_round multiplier ((age, wallets) :: bs) = full + per_round multiplier bs) as -> by done.
    pose proof (per_round_nonneg _ _ Hm Hbs) as Hpr.
    destruct (counters_ok_add ages amount remaining c age (Z.min full remaining) Hc Hmax) as [Hadd Hc'];
      [lia|by apply (Hages (age, wallets)); left|].
    rewrite Hadd. cbn [checked ok_or res_bind]. destruct (Z.eqb_spec (remaining - Z.min full remaining) 0) as [Hz|Hz].
    + eexists. rewrite Z.max_l by lia. split; [done|]. by rewrite Hz in Hc'.
    + assert (full < remaining) by lia.
      replace (remaining - Z.min full remaining) with (remaining - full) in * by lia.
      replace (remaining - (full + per_round multiplier bs)) with (remaining - full - per_round multiplier bs) by lia.
      apply IH; [intros; apply Hages; by right|lia|done].
Qed.

(** The loop ends: the fuel covers the rounds the amount can last. *)
Lemma rounds_spec ages amount multiplier bs fuel c remaining :
  1 ≤ multiplier → amount ≤ u64_max → Forall (fits multiplier) bs → (∀ b, b ∈ bs → b.1 ∈ ages) →
  0 ≤ remaining → counters_ok ages amount remaining c → 0 < per_round multiplier bs →
  remaining ≤ Z.of_nat fuel * per_round multiplier bs →
  ∃ c', rounds fuel multiplier bs c remaining = Ok c' ∧ counters_ok ages amount 0 c'.
Proof.
  intros Hm Hmax Hfits Hages. revert c remaining.
  induction fuel as [|fuel IH]; intros c remaining Hrem Hc Hpr Hfuel; cbn [rounds].
  - exists c. replace remaining with 0 in * by lia. done.
  - destruct (Z.leb_spec remaining 0) as [Hz|Hz].
    + exists c. replace remaining with 0 in Hc by lia. done.
    + destruct (round_spec ages amount multiplier bs c remaining) as (c' & -> & Hc'); [done..|].
      simpl. apply IH; [lia|done|done|]. rewrite Nat2Z.inj_succ in Hfuel. lia.
Qed.

Lemma round_fuel_enough amount multiplier bs :
  0 ≤ amount → 0 < per_round multiplier bs →
  amount ≤ Z.of_nat (round_fuel amount multiplier bs) * per_round multiplier bs.
Proof.
  intros Ha Hp. unfold round_fuel. rewrite Nat2Z.inj_succ, Z2Nat.id by (apply Z.div_pos; lia).
  pose proof (Z.div_mod amount (per_round multiplier bs)). pose proof (Z.mod_pos_bound amount _ Hp). nia.
Qed.

(** * Lemmas: the buckets *)

(** What the buckets of [nodes] are: each node of enough age in the bucket of
    its age, and no empty bucket. *)
Definition buckets_of (nodes : gmap XorName (Z * PublicKey)) (bs : Buckets) : Prop :=
  (∀ age n w, (∃ b, bs !! age = Some b ∧ b !! n = Some w) ↔ nodes !! n = Some (age, w) ∧ MIN_REWARD_AGE ≤ age) ∧
  ∀ age b, bs !! age = Some b → b ≠ ∅.

Lemma bucket_insert_spec l nodes bs :
  NoDup l.*1 → (∀ n x, (n, x) ∈ l → nodes !! n = None) → buckets_of nodes bs →
  buckets_of (list_to_map l ∪ nodes) (foldl bucket_insert bs l).
Proof.
  revert nodes bs. induction l as [|[n [age w]] l IH]; intros nodes bs Hnd Hnew Hbs; cbn [foldl].
  - simpl. by rewrite map_empty_union.
  - inversion Hnd as [|? ? Hn Hnd']; subst.
    assert (nodes !! n = None) as Hnone by (eapply Hnew; by left).
    assert (buckets_of (<[n := (age, w)]> nodes) (bucket_insert bs (n, (age, w)))) as Hb.
    { destruct Hbs as [Hiff Hne]. unfold bucket_insert. destruct (Z.leb_spec MIN_REWARD_AGE age) as [Hle|Hlt].
      - assert (∀ n' w', default ∅ (bs !! age) !! n' = Some w' ↔ ∃ b, bs !! age = Some b ∧ b !! n' = Some w') as Hdef.
        { intros n' w'. destruct (bs !! age) as [b|]; simpl.
          - split; [eauto|]. by intros (b' & [= <-] & ?).
          - rewrite lookup_empty. split; [done|]. by intros (b' & [=] & _). }
        split.
        + intros age' n' w'. destruct (decide (age = age')) as [<-|Hage].
          * rewrite lookup_insert_eq.
            transitivity (<[n := w]> (default ∅ (bs !! age)) !! n' = Some w').
            { split; [by intros (b & [= <-] & ?)|eauto]. }
            destruct (decide (n = n')) as [<-|Hn'];
              [rewrite !lookup_insert_eq|rewrite !lookup_insert_ne by done; by rewrite Hdef, Hiff].
            split; [by intros [= ->]|by intros [[= ->] _]].
          * rewrite lookup_insert_ne by done. rewrite Hiff.
            destruct (decide (n = n')) as [<-|Hn']; [|by rewrite lookup_insert_ne].
            rewrite Hnone, lookup_insert_eq. split; [by intros [[=] _]|by intros [[= ? _] _]].
        + intros age' b. rewrite lookup_insert. case_decide; [|apply Hne].
          intros [= <-] Hempty. apply (f_equal (lookup n)) in Hempty.
          by rewrite lookup_insert_eq, lookup_empty in Hempty.
      - split; [|done]. intros age' n' w'. rewrite Hiff.
        destruct (decide (n = n')) as [<-|Hn']; [|by rewrite lookup_insert_ne]. rewrite Hnone, lookup_insert_eq.
        split; [by intros [[=] _]|]. intros [[= -> ->] ?]. lia. }
    apply IH in Hb; [|done|].
    + simpl. rewrite <- insert_union_l, insert_union_r; [done|].
      by apply not_elem_of_list_to_map_1.
    + intros n' x Hx. rewrite lookup_insert_ne; [eapply Hnew; by right|].
      intros <-. apply Hn. apply list_elem_of_fmap. by exists (n, x).
Qed.

Lemma get_buckets_spec nodes : buckets_of nodes (get_buckets nodes).
Proof.
  unfold get_buckets. pose proof (bucket_insert_spec (btree_entries name_cmp nodes) ∅ ∅) as Hb.
  rewrite map_union_empty in Hb.
  rewrite (list_to_map_proper _ (map_to_list nodes)), list_to_map_to_list in Hb.
  - apply Hb; [apply NoDup_btree_keys|done|]. split; [|done].
    intros age n w. rewrite lookup_empty. split; [by intros (b & [=] & _)|by intros [[=] _]].
  - apply NoDup_btree_keys.
  - apply btree_entries_Permutation.
Qed.

(** * Lemmas: the shares *)

Definition token_of (_ : XorName) (p : Payout) : Z := p.2.
Definition share_token (np : XorName * Payout) : Z := np.2.2.
(** What a payout adds up to. *)
Definition paid (m : gmap XorName Payout) : Z := map_sum token_of m.

Lemma insert_shares_spec l m :
  NoDup l.*1 → (∀ n, n ∈ l.*1 → m !! n = None) →
  paid (insert_shares l m) = paid m + sum_Z (share_token <$> l) ∧
  ∀ n (p : Payout), insert_shares l m !! n = Some p ↔ (n, p) ∈ l ∨ m !! n = Some p.
Proof.
  revert m. induction l as [|[n0 p0] l IH]; intros m Hnd Hnew.
  - split; [simpl; lia|]. intros n p. split; [by right|]. by intros [?%elem_of_nil|?].
  - inversion Hnd as [|? ? Hn0 Hnd']; subst.
    assert (m !! n0 = None) as Hnone by (apply Hnew; by left).
    destruct (IH (<[n0 := p0]> m)) as [Hsum Hlk]; [done| |].
    { intros n Hn. rewrite lookup_insert_ne; [apply Hnew; by right|]. intros ->. done. }
    change (insert_shares ((n0, p0) :: l) m) with (insert_shares l (<[n0 := p0]> m)). rewrite Hsum. split.
    + unfold paid in *. rewrite map_sum_insert by done. rewrite fmap_cons.
      change (sum_Z (share_token (n0, p0) :: (share_token <$> l))) with (p0.2 + sum_Z (share_token <$> l)).
      change (token_of n0 p0) with p0.2. lia.
    + intros n p. rewrite Hlk, elem_of_cons, lookup_insert_Some. split.
      * intros [?|[[-> ->]|[_ ?]]]; auto.
      * intros [[[= -> ->]|?]|Hm]; [by right; left|by left|].
        right. right. split; [|done]. intros ->. congruence.
Qed.

Lemma btree_wallets_length (wallets : gmap XorName PublicKey) :
  Z.of_nat (length (btree_entries name_cmp wallets)) = wallet_count wallets.
Proof. unfold wallet_count. by rewrite btree_entries_Permutation, length_map_to_list. Qed.

(** The shares of a bucket: its nodes, each once, and the whole reward. *)
Lemma bucket_shares_spec age reward wallets :
  0 < wallet_count wallets → 0 ≤ reward →
  NoDup (bucket_shares age reward wallets).*1 ∧
  sum_Z (share_token <$> bucket_shares age reward wallets) = reward ∧
  ∀ n (p : Payout), (n, p) ∈ bucket_shares age reward wallets →
    p.1.1 = age ∧ wallets !! n = Some p.1.2 ∧ reward / wallet_count wallets ≤ p.2 ∧ 0 ≤ p.2.
Proof.
  intros Hw Hr. pose proof (btree_wallets_length wallets) as Hlen.
  pose proof (NoDup_btree_keys name_cmp wallets) as Hnd.
  assert (∀ n w, (n, w) ∈ btree_entries name_cmp wallets → wallets !! n = Some w) as Hin
    by (intros n w; by rewrite elem_of_btree_entries).
  unfold bucket_shares. destruct (btree_entries name_cmp wallets) as [|[n0 w0] l]; simpl in Hlen; [lia|].
  set (q := reward / wallet_count wallets).
  assert (0 ≤ q) by (apply Z.div_pos; lia).
  pose proof (Z.mod_pos_bound reward _ Hw) as Hmod.
  pose proof (Z.div_mod reward (wallet_count wallets)) as Hdiv. fold q in Hdiv.
  split; [|split].
  - csimpl. rewrite <- list_fmap_compose.
    rewrite (list_fmap_ext _ fst l); [done|]. by intros i [n w] _.
  - csimpl. rewrite <- list_fmap_compose.
    rewrite (const_fmap _ l q) by (by intros i [n w] _).
    rewrite sum_Z_replicate. unfold share_token. simpl. lia.
  - intros n p. rewrite elem_of_cons. intros [[= -> ->]|Hp]; simpl.
    + split; [done|]. split; [apply Hin; by left|lia].
    + apply list_elem_of_fmap in Hp as ([n' w'] & [= -> ->] & Hl). simpl.
      split; [done|]. split; [apply Hin; by right|lia].
Qed.

(** A payout entry is of a node of the buckets. *)
Definition payout_ok (bs : Buckets) (n : XorName) (p : Payout) : Prop :=
  0 ≤ p.2 ∧ ∃ b, bs !! p.1.1 = Some b ∧ b !! n = Some p.1.2.

Lemma pay_out_spec nodes bs l acc :
  buckets_of nodes bs → NoDup l.*1 →
  (∀ a r, (a, r) ∈ l → 0 ≤ r ∧ is_Some (bs !! a)) →
  (∀ n p, acc !! n = Some p → payout_ok bs n p ∧ p.1.1 ∉ l.*1) →
  ∃ m, foldl (λ acc '(age, reward),
      res_bind acc (λ to_return,
      match bs !! age with
      | None => Err Panic
      | Some wallets => Ok (insert_shares (bucket_shares age reward wallets) to_return)
      end)) (Ok acc) l = Ok m ∧
    paid m = paid acc + sum_Z l.*2 ∧ ∀ n p, m !! n = Some p → payout_ok bs n p.
Proof.
  intros [Hiff Hne] Hnd. revert acc. induction l as [|[a r] l IH]; intros acc Hl Hacc.
  - exists acc. simpl. split; [done|]. split; [lia|]. intros n p Hp. by apply Hacc.
  - cbn [foldl]. inversion Hnd as [|? ? Ha Hnd']; subst.
    destruct (Hl a r) as [Hr [b Hb]]; [by left|].
    cbn [res_bind]. rewrite Hb.
    assert (0 < wallet_count b) as Hw.
    { unfold wallet_count. pose proof (Hne a b Hb) as Hne0. apply map_size_non_empty_iff in Hne0. lia. }
    destruct (bucket_shares_spec a r b Hw Hr) as (Hnd1 & Hsum1 & Hin1).
    assert (∀ n, n ∈ (bucket_shares a r b).*1 → acc !! n = None) as Hnew.
    { intros n ([n' p] & -> & Hp)%list_elem_of_fmap. simpl.
      destruct (acc !! n') as [p'|] eqn:Hp'; [|done]. apply Hacc in Hp' as [[_ (b' & Hb' & Hn')] Hnot].
      apply Hin1 in Hp as (_ & Hn & _).
      destruct (proj1 (Hiff a n' p.1.2)) as [Hnode _]; [eauto|].
      destruct (proj1 (Hiff p'.1.1 n' p'.1.2)) as [Hnode' _]; [eauto|].
      destruct Hnot. assert (p'.1.1 = a) as -> by congruence. by left. }
    destruct (insert_shares_spec _ acc Hnd1 Hnew) as [Hpaid Hlk].
    destruct (IH Hnd' (insert_shares (bucket_shares a r b) acc)) as (m & Hm & Hpm & Hok).
    { intros a' r' Hin. apply Hl. by right. }
    2:{ exists m. split; [done|]. split; [|done]. rewrite Hpm, Hpaid, Hsum1. csimpl. lia. }
    intros n p [Hp|Hp]%Hlk.
    + apply Hin1 in Hp as (Hage & Hn & _ & Ht). split; [|by rewrite Hage]. split; [done|].
      exists b. by rewrite Hage.
    + apply Hacc in Hp as [Hok Hnot]. split; [done|]. intros Hin. apply Hnot. by right.
Qed.

Lemma digits_fuel_pos fuel n : 1 ≤ digits_fuel fuel n.
Proof. revert n. induction fuel as [|fuel IH]; intros n; simpl; [lia|]. case_match; [lia|]. specialize (IH (n / 10)). lia. Qed.

Lemma foldl_max_ge l x : x ≤ foldl Z.max x l.
Proof. revert x. induction l as [|y l IH]; intros x; simpl; [lia|]. specialize (IH (Z.max x y)). lia. Qed.

Lemma foldl_max_elem l x y : y ∈ l → y ≤ foldl Z.max x l.
Proof.
  revert x. induction l as [|z l IH]; intros x; [by intros ?%elem_of_nil|]. simpl.
  intros [->|Hy]%elem_of_cons; [|by apply IH]. pose proof (foldl_max_ge l (Z.max x z)). lia.
Qed.

(** The multiplier is computed without a division by zero. *)
Lemma bucket_multiplier_ok amount bs :
  bs ≠ [] → Forall (λ b, MIN_REWARD_AGE ≤ b.1 ∧ 0 < wallet_count b.2) bs →
  ∃ mult, bucket_multiplier amount bs = Ok mult ∧ 1 ≤ mult.
Proof.
  intros Hne Hbs. destruct bs as [|[age b] bs]; [done|]. unfold bucket_multiplier.
  set (max_age := foldl Z.max 0 ((age, b) :: bs).*1).
  set (count := sum_Z ((λ b, wallet_count b.2) <$> (age, b) :: bs)).
  inversion Hbs as [|? ? [Hage Hw] Hbs']; subst. simpl in Hage, Hw.
  assert (6 ≤ max_age) by (unfold max_age, MIN_REWARD_AGE in *; etransitivity; [exact Hage|];
    apply foldl_max_elem; by left).
  assert (0 < count).
  { change count with (wallet_count b + sum_Z ((λ b, wallet_count b.2) <$> bs)).
    assert (0 ≤ sum_Z ((λ b : Z * gmap XorName PublicKey, wallet_count b.2) <$> bs)); [|lia].
    apply sum_Z_nonneg. rewrite Forall_fmap. eapply Forall_impl; [exact Hbs'|]. simpl. lia. }
  pose proof (digits_fuel_pos 20 amount) as Hd. unfold digits.
  destruct (Z.eqb_spec (max_age * count) 0); [nia|].
  destruct (Z.eqb_spec (max_age * digits_fuel 20 amount) 0); [nia|].
  eexists. split; [reflexivity|]. lia.
Qed.

(** No product of the calculation leaves [u64]. *)
Definition no_overflow (amount : Z) (nodes : gmap XorName (Z * PublicKey)) : bool :=
  let buckets := btree_entries Z.compare (get_buckets nodes) in
  match bucket_multiplier amount buckets with
  | Ok multiplier =>
      forallb (λ b, (b.1 <? 64) && (2 ^ b.1 * wallet_count b.2 * multiplier <=? u64_max)) buckets
  | Err _ => true
  end.

Lemma buckets_ages nodes :
  Forall (λ b, MIN_REWARD_AGE ≤ b.1 ∧ 0 < wallet_count b.2) (btree_entries Z.compare (get_buckets nodes)).
Proof.
  destruct (get_buckets_spec nodes) as [Hiff Hne]. rewrite Forall_forall.
  intros [a b] Hb%elem_of_btree_entries. simpl. pose proof (Hne a b Hb) as Hb0.
  apply map_choose in Hb0 as (n & w & Hn). split; [by apply (Hiff a n w); eauto|].
  unfold wallet_count. assert (size b ≠ 0)%nat; [|lia]. apply map_size_non_empty_iff. by eapply Hne.
Qed.

Lemma fits_of_check mult l :
  Forall (λ b, MIN_REWARD_AGE ≤ b.1 ∧ 0 < wallet_count b.2) l →
  forallb (λ b, (b.1 <? 64) && (2 ^ b.1 * wallet_count b.2 * mult <=? u64_max)) l = true →
  Forall (fits mult) l.
Proof.
  rewrite !Forall_forall, forallb_forall. intros Hages Hno b Hb. destruct (Hages b Hb) as [Hage Hw].
  apply list_elem_of_In, Hno, andb_true_iff in Hb as [Hlt%Z.ltb_lt Hle%Z.leb_le].
  unfold fits, MIN_REWARD_AGE in *. lia.
Qed.

Lemma per_round_pos mult l : l ≠ [] → 1 ≤ mult → Forall (fits mult) l → 0 < per_round mult l.
Proof.
  intros Hne Hm Hfits. destruct Hfits as [|b l Hb Hl]; [done|].
  pose proof (full_pos mult b Hm Hb). pose proof (per_round_nonneg mult l Hm Hl).
  change (0 < 2 ^ b.1 * wallet_count b.2 * mult + per_round mult l). lia.
Qed.

(** * Properties *)

(** C19: the rewards add up to the amount, to the last nano, when no
    product of the calculation leaves [u64] and no age is 64 or more ([no_overflow];
    large amounts and ages overflow: see [distribute_overflows]): the loop ends, every reward goes to a
    node old enough, with its age and wallet, and nothing is lost in the rounding;
    without such a node nothing is paid. *)
Theorem distribute_rewards_conserves amount nodes :
  in_u64 amount → no_overflow amount nodes = true →
  ∃ m, distribute_rewards amount nodes = Ok m ∧
    (∀ n age w t, m !! n = Some (age, w, t) →
       nodes !! n = Some (age, w) ∧ MIN_REWARD_AGE ≤ age ∧ 0 ≤ t) ∧
    ((∃ n age w, nodes !! n = Some (age, w) ∧ MIN_REWARD_AGE ≤ age) → paid m = amount) ∧
    ((∀ n age w, nodes !! n = Some (age, w) → age < MIN_REWARD_AGE) → m = ∅).
Proof.
  intros [Ha1 Ha2] Hno. unfold distribute_rewards, distribute. unfold no_overflow in Hno.
  pose proof (get_buckets_spec nodes) as Hbs. pose proof Hbs as [Hiff Hne].
  set (bs := get_buckets nodes) in *. set (l := btree_entries Z.compare bs) in *.
  assert (∀ a b, (a, b) ∈ l → bs !! a = Some b) as Hl by (intros a b Hin; by apply elem_of_btree_entries in Hin).
  pose proof (buckets_ages nodes) as Hages. fold bs in Hages. fold l in Hages.
  case_bool_decide as Hempty.
  { exists ∅. split; [done|]. split; [by intros *; rewrite lookup_empty|]. split; [|done].
    intros (n & age & w & Hn). apply Hiff in Hn as (b & Hb & _). exfalso.
    assert ((age, b) ∈ l) as Hin by (by apply elem_of_btree_entries). rewrite Hempty in Hin.
    by apply elem_of_nil in Hin. }
  destruct (bucket_multiplier_ok amount l Hempty Hages) as (mult & Hmult & Hm1).
  rewrite Hmult in Hno |- *. cbn [res_bind].
  pose proof (fits_of_check mult l Hages Hno) as Hfits.
  pose proof (per_round_pos mult l Hempty Hm1 Hfits) as Hpr.
  destruct (rounds_spec l.*1 amount mult l (round_fuel amount mult l) ∅ amount) as (c & Hc & [Hsum Hcs]);
    [done|done|done|intros b Hb; by apply list_elem_of_fmap_2|done| |done|by apply round_fuel_enough|].
  { split; [unfold counted; rewrite map_sum_empty; lia|]. intros a v. by rewrite lookup_empty. }
  rewrite Hc. cbn [res_bind]. unfold pay_out.
  destruct (pay_out_spec nodes bs (btree_entries Z.compare c) ∅ Hbs) as (m & Hm & Hpaid & Hok).
  - apply NoDup_btree_keys.
  - intros a r Har%elem_of_btree_entries. apply Hcs in Har as [Hr Hin]. split; [done|].
    apply list_elem_of_fmap in Hin as ([a' b] & -> & Hb%Hl). eauto.
  - intros n p. by rewrite lookup_empty.
  - exists m. split; [done|]. split; [|split].
    + intros n age w t Hp%Hok. destruct Hp as [Ht Hb]. simpl in *. apply Hiff in Hb. tauto.
    + intros _. rewrite Hpaid. unfold paid at 1. rewrite map_sum_empty.
      rewrite Z.add_0_l, btree_entries_Permutation. rewrite Z.add_0_r in Hsum.
      rewrite <- Hsum. unfold counted. by rewrite map_sum_list.
    + intros Hyoung. exfalso. apply Hempty. destruct l as [|[a b] l']; [done|].
      pose proof (Hl a b) as Hb. assert (b ≠ ∅) as Hb0 by (apply (Hne a), Hb; by left).
      apply map_choose in Hb0 as (n & w & Hn).
      destruct (proj1 (Hiff a n w)) as [Hnode Hage]; [exists b; split; [apply Hb; by left|done]|].
      apply Hyoung in Hnode. lia.
Qed.

(** C31: minting at most doubles the payments and never lifts what the
    section manages above its share of the supply; a section above its share
    burns the excess out of the payments. *)
Theorem reward_and_mint_bounds payments managed max_supply :
  0 ≤ payments → 2 * payments ≤ u64_max → in_u64 managed → in_u64 max_supply →
  ∃ reward, get_reward_and_mint_amount payments managed max_supply = Ok reward ∧
    0 ≤ reward ≤ 2 * payments ∧
    (managed < max_supply → payments ≤ reward ∧ managed + (reward - payments) ≤ max_supply) ∧
    (max_supply ≤ managed → reward = Z.max 0 (payments - (managed - max_supply))).
Proof.
  intros Hp Hp2 [Hm1 Hm2] [Hs1 Hs2]. unfold get_reward_and_mint_amount, checked_add.
  destruct (Z.ltb_spec managed max_supply).
  - destruct (Z.leb_spec (payments + Z.min payments (max_supply - managed)) u64_max); [|lia].
    eexists. split; [reflexivity|]. lia.
  - destruct (Z.ltb_spec (managed - max_supply) payments); eexists; (split; [reflexivity|]); lia.
Qed.
End reward_calc.

Module Witness.
Import ToyCrates.

(** Three nodes, one of them too young. *)
Definition nodes0 : gmap XorName (Z * PublicKey) :=
  {[ nm 1 := (6, key 11); nm 2 := (8, key 12); nm 3 := (5, key 13); nm 4 := (8, key 14) ]}.

Lemma distribute_rewards_conserves_witness :
  ∃ m, distribute_rewards 1001 nodes0 = Ok m ∧
    (∀ n age w t, m !! n = Some (age, w, t) →
       nodes0 !! n = Some (age, w) ∧ MIN_REWARD_AGE ≤ age ∧ 0 ≤ t) ∧
    ((∃ n age w, nodes0 !! n = Some (age, w) ∧ MIN_REWARD_AGE ≤ age) → paid m = 1001) ∧
    ((∀ n age w, nodes0 !! n = Some (age, w) → age < MIN_REWARD_AGE) → m = ∅).
Proof.
  apply (distribute_rewards_conserves 1001 nodes0); [unfold in_u64, u64_max; lia|vm_compute; reflexivity].
Defined.

Example nodes0_rewards :
  (λ m, map_to_list m) <$> res_ok (distribute_rewards 1001 nodes0) =
  Some [(nm 4, (8, key 14, 436)); (nm 2, (8, key 12, 437)); (nm 1, (6, key 11, 128))].
Proof. vm_compute. reflexivity. Qed.

Lemma reward_and_mint_bounds_witness :
  ∃ reward, get_reward_and_mint_amount 100 950 1000 = Ok reward ∧ 0 ≤ reward ≤ 200 ∧
    (950 < 1000 → 100 ≤ reward ∧ 950 + (reward - 100) ≤ 1000) ∧
    (1000 ≤ 950 → reward = Z.max 0 (100 - (950 - 1000))).
Proof.
  apply (reward_and_mint_bounds 100 950 1000); unfold in_u64, u64_max; lia.
Defined.

(** The amount of the repository's own test, paid to one node of age 20:
    the product of work and multiplier does not fit a [u64]. *)
Lemma distribute_overflows :
  distribute_rewards (4294967295 * 1000000000) {[ nm 1 := (20, key 11) ]} = Err Panic.
Proof. vm_compute. reflexivity. Qed.
(** So does an age of 64, whatever the amount. *)
Lemma distribute_overflows_age :
  distribute_rewards 1 {[ nm 1 := (64, key 11) ]} = Err Panic.
Proof. vm_compute. reflexivity. Qed.
End Witness.
