(* ===== verification/RewardStage.v ===== *)
(** [src/section_funds/reward_stage.rs]: the stages of a reward payout and the
    collection of signature shares of the elders, first on the proposed
    credits, then on the agreed ones. *)

From S2P Require Import Prelude Crates Messages Toy.

Section reward_stage.
Context `{MO : MessagingOps}.

Record CreditProposal : Type := mkCreditProposal {
  proposal : Credit;
  cp_signatures : gmap nat BlsSignatureShare;
  cp_pending : option SignedCredit;
}.
Definition cp_id (c : CreditProposal) : CreditId := credit_id (proposal c).

Record CreditAccumulation : Type := mkCreditAccumulation {
  agreed_proposal : SignedCredit;
  ca_signatures : gmap nat BlsSignatureShare;
  ca_pending : option CreditAgreementProof;
}.
Definition ca_id (c : CreditAccumulation) : CreditId := sc_id (agreed_proposal c).

Record RewardProposalDetails : Type := mkProposalDetails {
  pd_pk_set : PublicKeySet;
  pd_rewards : gmap CreditId CreditProposal;
}.
Record RewardAccumulationDetails : Type := mkAccumulationDetails {
  ad_pk_set : PublicKeySet;
  ad_rewards : gmap CreditId CreditAccumulation;
}.

Inductive RewardStage : Type :=
| AwaitingThreshold
| ProposingCredits (d : RewardProposalDetails)
| AccumulatingCredits (d : RewardAccumulationDetails)
| Completed (proofs : gmap CreditId CreditAgreementProof).

(** [check]: is this share already known for its index? *)
Definition check (sig : SignatureShare) (signatures : gmap nat BlsSignatureShare) : option bool :=
  match signatures !! index sig with
  | Some s => Some (bool_decide (s = share sig))
  | None => None
  end.

(** ** Proposals *)

(** The [BTreeMap] of collected pairs. *)
Definition collect {A} (id_of : A → CreditId) (l : list A) : gmap CreditId A :=
  foldl (λ m c, <[id_of c := c]> m) ∅ l.

Definition pd_pending_agreements (d : RewardProposalDetails) : option (gmap CreditId SignedCredit) :=
  let rewards := collect sc_id (omap cp_pending (btree_entries credit_id_cmp (pd_rewards d)).*2) in
  if bool_decide (size rewards = size (pd_rewards d)) then Some rewards else None.

Definition get_proposal (d : RewardProposalDetails) (section_key : PublicKey) (i : nat) : RewardProposal :=
  mkRewardProposal section_key
    (omap (λ '(_, credit),
       match cp_signatures credit !! i with
       | Some s => Some (mkSignedCreditShare (proposal credit) (mkSignatureShare s i))
       | None => None
       end) (btree_entries credit_id_cmp (pd_rewards d))).

(** [RewardProposalDetails::add_sig] *)
Definition pd_add_sig (id : CreditId) (sig : SignatureShare) : M Error RewardProposalDetails unit :=
  let! d := get in
  let! credit := lift (ok_or (pd_rewards d !! id) (Logic "logic error..")) in
  if bool_decide (check sig (cp_signatures credit) = Some true) then ret tt else
  let signatures := <[index sig := share sig]> (cp_signatures credit) in
  let store c := modify (λ d, mkProposalDetails (pd_pk_set d) (<[id := c]> (pd_rewards d))) in
  store (mkCreditProposal (proposal credit) signatures (cp_pending credit)) ;;;
  let min_count := (1 + pks_threshold (pd_pk_set d))%nat in
  if bool_decide (min_count ≤ size signatures)%nat then
    let! combined := lift (ok_or (combine_signatures (pd_pk_set d) signatures) CouldNotCombineSignatures) in
    store (mkCreditProposal (proposal credit) signatures
             (Some (mkSignedCredit (proposal credit) (BlsSig combined))))
  else ret tt.

(** ** Accumulations *)

Definition ad_pending_agreements (d : RewardAccumulationDetails) : option (gmap CreditId CreditAgreementProof) :=
  let rewards := collect cap_id (omap ca_pending (btree_entries credit_id_cmp (ad_rewards d)).*2) in
  if bool_decide (size rewards = size (ad_rewards d)) then Some rewards else None.

Definition get_accumulation (d : RewardAccumulationDetails) (section_key : PublicKey) (i : nat) :
    RewardAccumulation :=
  mkRewardAccumulation section_key
    (omap (λ '(_, credit),
       match ca_signatures credit !! i with
       | Some s => Some (mkAccumulatingReward (agreed_proposal credit) (mkSignatureShare s i))
       | None => None
       end) (btree_entries credit_id_cmp (ad_rewards d))).

(** [RewardAccumulationDetails::add_sig] *)
Definition ad_add_sig (id : CreditId) (sig : SignatureShare) : M Error RewardAccumulationDetails unit :=
  let! d := get in
  let! credit := lift (ok_or (ad_rewards d !! id) (Logic "")) in
  if bool_decide (check sig (ca_signatures credit) = Some true) then ret tt else
  let signatures := <[index sig := share sig]> (ca_signatures credit) in
  let store c := modify (λ d, mkAccumulationDetails (ad_pk_set d) (<[id := c]> (ad_rewards d))) in
  store (mkCreditAccumulation (agreed_proposal credit) signatures (ca_pending credit)) ;;;
  let min_count := (1 + pks_threshold (ad_pk_set d))%nat in
  if bool_decide (min_count ≤ size signatures)%nat then
    let! combined := lift (ok_or (combine_signatures (ad_pk_set d) signatures) CouldNotCombineSignatures) in
    store (mkCreditAccumulation (agreed_proposal credit) signatures
             (Some (mkCreditAgreementProof (agreed_proposal credit) (BlsSig combined) (ad_pk_set d))))
  else ret tt.

(** * The invariant of the two collections *)

(** A signature that more than the threshold of elders made together. *)
Definition agreed_sig (pk_set : PublicKeySet) (s : Signature) : Prop :=
  ∃ shares sig, s = BlsSig sig ∧ (pks_threshold pk_set < size shares)%nat ∧
                combine_signatures pk_set shares = Some sig.

(** Credits are filed under their id, and an agreement is on the proposed
    credit and signed by enough elders. *)
Definition pd_inv (d : RewardProposalDetails) : Prop :=
  ∀ id c, pd_rewards d !! id = Some c →
    cp_id c = id ∧
    ∀ sc, cp_pending c = Some sc → sc_credit sc = proposal c ∧ agreed_sig (pd_pk_set d) (sc_actor_signature sc).

Definition ad_inv (d : RewardAccumulationDetails) : Prop :=
  ∀ id c, ad_rewards d !! id = Some c →
    ca_id c = id ∧
    ∀ p, ca_pending c = Some p →
      cap_signed_credit p = agreed_proposal c ∧ cap_debiting_replicas_keys p = ad_pk_set d ∧
      agreed_sig (ad_pk_set d) (cap_debiting_replicas_sig p).

Lemma pd_add_sig_inv id sig d r d' :
  pd_inv d → pd_add_sig id sig d = (r, d') → pd_inv d' ∧ pd_pk_set d' = pd_pk_set d.
Proof.
  intros Hd. unfold pd_add_sig. unfold_m.
  destruct (pd_rewards d !! id) as [c|] eqn:Hc; simpl; [|by intros [= _ <-]].
  destruct (Hd id c Hc) as [Hid Hpend].
  case_bool_decide; [by intros [= _ <-]|]. simpl.
  set (sigs := <[index sig := share sig]> (cp_signatures c)).
  assert (∀ p, (∀ sc, p = Some sc → sc_credit sc = proposal c ∧ agreed_sig (pd_pk_set d) (sc_actor_signature sc)) →
    pd_inv (mkProposalDetails (pd_pk_set d) (<[id := mkCreditProposal (proposal c) sigs p]> (pd_rewards d)))) as Hset.
  { intros p Hp id' c'. simpl. rewrite lookup_insert_Some.
    intros [[<- <-]|[_ Hc']]; [by split|]. by apply Hd. }
  case_bool_decide as Hmin; [|intros [= _ <-]; auto].
  destruct (combine_signatures (pd_pk_set d) sigs) as [s|] eqn:Hs; simpl; intros [= _ <-]; [|auto].
  rewrite insert_insert_eq. split; [|done]. apply Hset. intros sc [= <-]. simpl. split; [done|].
  exists sigs, s. auto.
Qed.

Lemma ad_add_sig_inv id sig d r d' :
  ad_inv d → ad_add_sig id sig d = (r, d') → ad_inv d' ∧ ad_pk_set d' = ad_pk_set d.
Proof.
  intros Hd. unfold ad_add_sig. unfold_m.
  destruct (ad_rewards d !! id) as [c|] eqn:Hc; simpl; [|by intros [= _ <-]].
  destruct (Hd id c Hc) as [Hid Hpend].
  case_bool_decide; [by intros [= _ <-]|]. simpl.
  set (sigs := <[index sig := share sig]> (ca_signatures c)).
  assert (∀ p, (∀ q, p = Some q → cap_signed_credit q = agreed_proposal c ∧
      cap_debiting_replicas_keys q = ad_pk_set d ∧ agreed_sig (ad_pk_set d) (cap_debiting_replicas_sig q)) →
    ad_inv (mkAccumulationDetails (ad_pk_set d)
              (<[id := mkCreditAccumulation (agreed_proposal c) sigs p]> (ad_rewards d)))) as Hset.
  { intros p Hp id' c'. simpl. rewrite lookup_insert_Some.
    intros [[<- <-]|[_ Hc']]; [by split|]. by apply Hd. }
  case_bool_decide as Hmin; [|intros [= _ <-]; auto].
  destruct (combine_signatures (ad_pk_set d) sigs) as [s|] eqn:Hs; simpl; intros [= _ <-]; [|auto].
  rewrite insert_insert_eq. split; [|done]. apply Hset. intros q [= <-]. simpl. split; [done|]. split; [done|].
  exists sigs, s. auto.
Qed.

(** ** Collecting the agreements *)

(** Collecting values filed under their own id. *)
Lemma collect_spec {A B} (id_of : B → CreditId) (get_b : A → option B) (m : gmap CreditId A) :
  (∀ id a b, m !! id = Some a → get_b a = Some b → id_of b = id) →
  collect id_of (omap get_b (btree_entries credit_id_cmp m).*2) = omap get_b m.
Proof.
  intros Hid. apply map_eq. intros id. rewrite lookup_omap.
  assert (∀ l acc, (∀ b, b ∈ l → ∃ a, m !! id_of b = Some a ∧ get_b a = Some b) →
    foldl (λ m c, <[id_of c := c]> m) acc l !! id =
    if decide (id ∈ id_of <$> l) then m !! id ≫= get_b else (acc : gmap CreditId B) !! id) as Hfold.
  { induction l as [|b l IH]; intros acc Hl; cbn [foldl].
    - rewrite decide_False; [done|]. apply not_elem_of_nil.
    - rewrite IH by (intros; apply Hl; by right). rewrite fmap_cons.
      destruct (decide (id ∈ id_of <$> l)) as [Hin|Hin]; [by rewrite decide_True by (by right)|].
      rewrite lookup_insert. destruct (decide (id_of b = id)) as [<-|Hne].
      + rewrite decide_True by (by left). destruct (Hl b) as (a & -> & Hb); [by left|]. by simpl.
      + rewrite decide_False; [done|]. intros [?|?]%elem_of_cons; congruence. }
  unfold collect. rewrite Hfold.
  - case_decide as Hin; [done|]. rewrite lookup_empty. destruct (m !! id) as [a|] eqn:Ha; simpl; [|done].
    destruct (get_b a) as [b|] eqn:Hb; [|done]. destruct Hin. apply list_elem_of_fmap. exists b.
    split; [symmetry; by eapply Hid|]. apply list_elem_of_omap. exists a. split; [|done].
    apply list_elem_of_fmap. exists (id, a). split; [done|]. by apply elem_of_btree_entries.
  - intros b (a & Ha & Hb)%list_elem_of_omap. apply list_elem_of_fmap in Ha as ([id' a'] & -> & Hin).
    apply elem_of_btree_entries in Hin. exists a'. rewrite (Hid id' a' b Hin Hb). done.
Qed.

Lemma omap_size_full {A B} (f : A → option B) (m : gmap CreditId A) :
  size (omap f m) = size m ↔ ∀ id a, m !! id = Some a → is_Some (f a).
Proof.
  rewrite <- !size_dom. split.
  - intros Hsize id a Ha.
    assert (dom (omap f m) = dom m) as Hdom.
    { apply set_eq. intros k. split; [apply (dom_omap_subseteq f m)|].
      intros Hk. destruct (decide (k ∈ dom (omap f m))) as [|Hno]; [done|]. exfalso.
      assert (size (dom (omap f m)) < size (dom m))%nat; [|lia]. apply subset_size.
      split; [apply dom_omap_subseteq|]. set_solver. }
    assert (id ∈ dom m) as Hin by (apply elem_of_dom; eauto).
    rewrite <- Hdom in Hin. apply elem_of_dom in Hin as [b Hb].
    rewrite lookup_omap, Ha in Hb. simpl in Hb. eauto.
  - intros Hall. f_equal. apply set_eq. intros k. rewrite !elem_of_dom, lookup_omap.
    destruct (m !! k) as [a|] eqn:Ha; simpl; [|done]. split; [eauto|]. intros _. eauto.
Qed.

Lemma omap_size_not_full {A B} (f : A → option B) (m : gmap CreditId A) :
  size (omap f m) ≠ size m → ∃ id a, m !! id = Some a ∧ f a = None.
Proof.
  rewrite omap_size_full. intros Hn.
  assert (¬ map_Forall (λ _ a, is_Some (f a)) m) as Hno by (intros Hall; by apply Hn).
  apply map_not_Forall in Hno as (id & a & Ha & Hf); [|apply _].
  exists id, a. split; [done|]. by apply eq_None_not_Some.
Qed.

(** There is an agreement exactly when every credit has one, and then it is
    the agreement of each credit. *)
Lemma pd_pending_spec d :
  pd_inv d →
  match pd_pending_agreements d with
  | Some m => (∀ id c, pd_rewards d !! id = Some c → is_Some (cp_pending c)) ∧ m = omap cp_pending (pd_rewards d)
  | None => ∃ id c, pd_rewards d !! id = Some c ∧ cp_pending c = None
  end.
Proof.
  intros Hd. unfold pd_pending_agreements. rewrite collect_spec.
  2:{ intros id c sc Hc Hsc. destruct (Hd id c Hc) as [Hid Hp]. destruct (Hp sc Hsc) as [He _].
      unfold sc_id. by rewrite He. }
  case_bool_decide as Hsize.
  - split; [|done]. by apply omap_size_full.
  - by apply omap_size_not_full.
Qed.

Lemma ad_pending_spec d :
  ad_inv d →
  match ad_pending_agreements d with
  | Some m => (∀ id c, ad_rewards d !! id = Some c → is_Some (ca_pending c)) ∧ m = omap ca_pending (ad_rewards d)
  | None => ∃ id c, ad_rewards d !! id = Some c ∧ ca_pending c = None
  end.
Proof.
  intros Hd. unfold ad_pending_agreements. rewrite collect_spec.
  2:{ intros id c p Hc Hp. destruct (Hd id c Hc) as [Hid Hpend]. destruct (Hpend p Hp) as [He _].
      unfold cap_id. by rewrite He. }
  case_bool_decide as Hsize.
  - split; [|done]. by apply omap_size_full.
  - by apply omap_size_not_full.
Qed.
End reward_stage.
