(* ===== verification/RewardProcess.v ===== *)
(** [src/section_funds/{reward_process,elder_signing}.rs]: the payout of
    rewards by a section, as a process that each elder runs: propose credits,
    collect shares on the proposals, then on the agreed credits, and complete.

    The network an operation asks (keys, own index, signing) is its argument
    [r]; the random id of [MessageId::new] is the argument [fresh]. *)

From stdpp Require Import pretty.
From S2P Require Import Prelude Crates Messages Toy Network Capacity RewardCalc RewardStage.

Section reward_process.
Context `{MO : MessagingOps} `{SC : !Serde Credit} `{SSC : !Serde SignedCredit}.

(** * elder_signing.rs *)

Record ElderSigning : Type := mkElderSigning { es_id : OwnerType }.

Definition elder_signing_new (r : Routing) : Result ElderSigning :=
  res_bind (our_public_key_set r) (λ set, Ok (mkElderSigning (Multi set))).
Definition es_our_index (r : Routing) : Result nat := map_err (λ _, NoSectionPublicKeySet) (our_index r).
Definition es_public_key_set (r : Routing) : Result PublicKeySet :=
  map_err (λ _, NoSectionPublicKeySet) (our_public_key_set r).
(** [Signing::sign] *)
Definition es_sign `{!Serde T} (r : Routing) (data : T) : result DtError Signature :=
  match sign_as_elder r data with
  | Ok share => Ok (BlsShareSig share)
  | Err _ => Err DtInvalidOperation
  end.

(** * reward_process.rs *)

Record OurSection : Type := mkOurSection {
  os_our_prefix : Prefix;
  os_our_key : PublicKey;
}.
Definition wallet_key (s : OurSection) : PublicKey := os_our_key s.
Definition address (s : OurSection) : XorName := prefix_name (os_our_prefix s).

Record RewardProcess : Type := mkRewardProcess {
  section : OurSection;
  stage : RewardStage;
  signing : ElderSigning;
}.
Definition set_stage (st : RewardStage) (p : RewardProcess) : RewardProcess :=
  mkRewardProcess (section p) st (signing p).

Definition reward_process_new (section : OurSection) (signing : ElderSigning) : RewardProcess :=
  mkRewardProcess section AwaitingThreshold signing.

Definition send_prop_msg (proposal : RewardProposal) (our_elders : XorName) (fresh : MessageId) : NodeDuty :=
  Send (mkOutgoingMsg (MtNode (NmNodeCmd (NcSystem (ProposeRewardPayout proposal)) fresh))
          (DstSection our_elders) false AggNone).
Definition send_acc_msg (accumulation : RewardAccumulation) (our_elders : XorName) (fresh : MessageId) : NodeDuty :=
  Send (mkOutgoingMsg (MtNode (NmNodeCmd (NcSystem (AccumulateRewardPayout accumulation)) fresh))
          (DstSection our_elders) false AggNone).

(** The share this elder makes of a value. *)
Definition our_share `{!Serde T} (r : Routing) (data : T) : Result SignatureShare :=
  match es_sign r data with
  | Ok (BlsShareSig share) => Ok share
  | Ok _ => Err ChurnSignError
  | Err e => Err (NetworkData e)
  end.

(** Run an operation on a local value and keep only the value. *)
Definition run_local {S A} (m : M Error S A) (s : S) : Result S :=
  match m s with (Ok _, s') => Ok s' | (Err e, _) => Err e end.

Definition sign_proposed_rewards (r : Routing) (rewards : list CreditProposal) : Result RewardProposalDetails :=
  res_bind (es_public_key_set r) (λ pk_set,
  let proposal_ := mkProposalDetails pk_set (collect cp_id rewards) in
  run_local (for_each (btree_entries credit_id_cmp (pd_rewards proposal_)) (λ '(_, credit),
               let! share := lift (our_share r (proposal credit)) in
               pd_add_sig (cp_id credit) share)) proposal_).

Definition sign_accumulating_rewards (r : Routing) (rewards : list CreditAccumulation) :
    Result RewardAccumulationDetails :=
  res_bind (es_public_key_set r) (λ pk_set,
  let accumulation := mkAccumulationDetails pk_set (collect ca_id rewards) in
  run_local (for_each (btree_entries credit_id_cmp (ad_rewards accumulation)) (λ '(_, credit),
               let! share := lift (our_share r (agreed_proposal credit)) in
               ad_add_sig (ca_id credit) share)) accumulation).

Definition reward_msg (age : Z) (section_key : PublicKey) : string :=
  "Reward at age " +:+ pretty age +:+ ", from " +:+ display_pk section_key.

Definition get_reward_credits (rewards : Token) (section_key : PublicKey)
    (nodes : gmap XorName (Z * PublicKey)) : result stop (list CreditProposal) :=
  res_bind (distribute_rewards rewards nodes) (λ m,
  Ok ((λ '(node, (age, wallet, amount)),
         let id := credit_id_of_message_id (message_id_combine node (name_of_pk section_key)) in
         mkCreditProposal (mkCredit id amount wallet (reward_msg age section_key)) ∅ None)
      <$> btree_entries name_cmp m)).

(** [reward_and_mint]; the outer result is a panic of the arithmetic. *)
Definition reward_and_mint (r : Routing) (fresh : MessageId) (payments section_managed : Token)
    (our_nodes : gmap XorName (Z * PublicKey)) (p : RewardProcess) : result stop (Result NodeDuty * RewardProcess) :=
  res_bind (checked (checked_pow2 (Z.of_nat (prefix_bit_count (os_our_prefix (section p)))))) (λ sections,
  let max_supply := MAX_SUPPLY / sections in
  res_bind (get_reward_and_mint_amount payments section_managed max_supply) (λ rewards,
  res_bind (get_reward_credits rewards (os_our_key (section p)) our_nodes) (λ reward_credits,
  Ok ((let! proposal_details := lift (sign_proposed_rewards r reward_credits) in
       let! our_index := lift (es_our_index r) in
       let proposal := get_proposal proposal_details (wallet_key (section p)) our_index in
       modify (set_stage (ProposingCredits proposal_details)) ;;;
       ret (send_prop_msg proposal (address (section p)) fresh)) p)))).

(** Operations on the details inside the current stage, kept also when an
    error stops them. *)
Definition on_proposing {A} (d : RewardProposalDetails) (m : M Error RewardProposalDetails A) :
    M Error RewardProcess A :=
  λ p, let '(res, d') := m d in (res, set_stage (ProposingCredits d') p).
Definition on_accumulating {A} (d : RewardAccumulationDetails) (m : M Error RewardAccumulationDetails A) :
    M Error RewardProcess A :=
  λ p, let '(res, d') := m d in (res, set_stage (AccumulatingCredits d') p).

Definition add_proposal_sigs (rewards : list SignedCreditShare) : M Error RewardProposalDetails unit :=
  for_each rewards (λ p, pd_add_sig (scs_id p) (scs_actor_signature p)).
Definition add_accumulation_sigs (rewards : list AccumulatingReward) : M Error RewardAccumulationDetails unit :=
  for_each rewards (λ p, ad_add_sig (ar_id p) (ar_sig p)).

(** [receive_churn_proposal] *)
Definition receive_churn_proposal (r : Routing) (fresh : MessageId) (prop : RewardProposal) :
    M Error RewardProcess NodeDuty :=
  let! p := get in
  if bool_decide (rp_section_key prop ≠ wallet_key (section p)) then throw (TransferE TeInvalidOwner) else
  match stage p with
  | AwaitingThreshold =>
      let rewards := (λ share, mkCreditProposal (scs_credit share) ∅ None) <$> rp_rewards prop in
      let! our_proposal := lift (sign_proposed_rewards r rewards) in
      let! our_proposal := lift (run_local (add_proposal_sigs (rp_rewards prop)) our_proposal) in
      let! our_index := lift (es_our_index r) in
      let to_send := get_proposal our_proposal (wallet_key (section p)) our_index in
      modify (set_stage (ProposingCredits our_proposal)) ;;;
      ret (send_prop_msg to_send (address (section p)) fresh)
  | ProposingCredits proposal_details =>
      let! proposal_details := on_proposing proposal_details (add_proposal_sigs (rp_rewards prop) ;;; get) in
      match pd_pending_agreements proposal_details with
      | Some rewards =>
          let rewards := (λ '(_, signed_credit), mkCreditAccumulation signed_credit ∅ None)
                           <$> btree_entries credit_id_cmp rewards in
          let! our_acc := lift (sign_accumulating_rewards r rewards) in
          let! our_index := lift (es_our_index r) in
          let to_send := get_accumulation our_acc (wallet_key (section p)) our_index in
          modify (set_stage (AccumulatingCredits our_acc)) ;;;
          ret (send_acc_msg to_send (address (section p)) fresh)
      | None =>
          modify (set_stage (ProposingCredits proposal_details)) ;;; ret NoOp
      end
  | AccumulatingCredits _ => ret NoOp
  | Completed _ => ret NoOp
  end.

(** The branch of [receive_wallet_accumulation] that is the same when
    awaiting and when proposing. *)
Definition start_accumulating (r : Routing) (fresh : MessageId) (new_acc : RewardAccumulation) :
    M Error RewardProcess NodeDuty :=
  let! p := get in
  let rewards := (λ reward, mkCreditAccumulation (ar_signed_credit reward) ∅ None) <$> ra_rewards new_acc in
  let! our_acc := lift (sign_accumulating_rewards r rewards) in
  let! our_acc := lift (run_local (add_accumulation_sigs (ra_rewards new_acc)) our_acc) in
  let! our_index := lift (es_our_index r) in
  let to_send := get_accumulation our_acc (wallet_key (section p)) our_index in
  modify (set_stage (AccumulatingCredits our_acc)) ;;;
  ret (send_acc_msg to_send (address (section p)) fresh).

(** [receive_wallet_accumulation] *)
Definition receive_wallet_accumulation (r : Routing) (fresh : MessageId) (new_acc : RewardAccumulation) :
    M Error RewardProcess NodeDuty :=
  let! p := get in
  if bool_decide (ra_section_key new_acc ≠ wallet_key (section p)) then throw (TransferE TeInvalidOwner) else
  match stage p with
  | AwaitingThreshold => start_accumulating r fresh new_acc
  | ProposingCredits _ => start_accumulating r fresh new_acc
  | AccumulatingCredits our_acc =>
      let! our_acc := on_accumulating our_acc (add_accumulation_sigs (ra_rewards new_acc) ;;; get) in
      modify (set_stage (match ad_pending_agreements our_acc with
                         | Some credit_proofs => Completed credit_proofs
                         | None => AccumulatingCredits our_acc
                         end)) ;;;
      ret NoOp
  | Completed _ => ret NoOp
  end.

(** * The state machine *)

(** One message, or the start of the payout. *)
Inductive rp_step : RewardProcess → RewardProcess → Prop :=
| rp_mint r fresh payments managed nodes p res p' :
    reward_and_mint r fresh payments managed nodes p = Ok (res, p') → rp_step p p'
| rp_proposal r fresh prop p res p' :
    receive_churn_proposal r fresh prop p = (res, p') → rp_step p p'
| rp_accumulation r fresh acc p res p' :
    receive_wallet_accumulation r fresh acc p = (res, p') → rp_step p p'.

(** An agreed proof: signed by more than the threshold of a key set. *)
Definition proof_ok (id : CreditId) (p : CreditAgreementProof) : Prop :=
  cap_id p = id ∧ agreed_sig (cap_debiting_replicas_keys p) (cap_debiting_replicas_sig p).

Definition stage_inv (st : RewardStage) : Prop :=
  match st with
  | AwaitingThreshold => True
  | ProposingCredits d => pd_inv d
  | AccumulatingCredits d => ad_inv d
  | Completed proofs => ∀ id p, proofs !! id = Some p → proof_ok id p
  end.

Definition stage_rank (st : RewardStage) : nat :=
  match st with
  | AwaitingThreshold => 0 | ProposingCredits _ => 1 | AccumulatingCredits _ => 2 | Completed _ => 3
  end.

(** * Lemmas *)

Lemma collect_elem {A} (id_of : A → CreditId) l id c :
  collect id_of l !! id = Some c → id_of c = id ∧ c ∈ l.
Proof.
  unfold collect.
  enough (∀ acc : gmap CreditId A, foldl (λ m c, <[id_of c := c]> m) acc l !! id = Some c →
    (id_of c = id ∧ c ∈ l) ∨ acc !! id = Some c) as Hgen.
  { intros [?|He]%Hgen; [done|]. by rewrite lookup_empty in He. }
  induction l as [|x l IH]; intros acc; cbn [foldl]; [by right|].
  intros [[Hid Hin]|Hacc]%IH; [left; split; [done|by right]|].
  apply lookup_insert_Some in Hacc as [[<- ->]|[_ ?]]; [left; split; [done|by left]|by right].
Qed.

Lemma run_local_inv {S A} (I : S → Prop) (m : M Error S A) s s' :
  (∀ r s', m s = (r, s') → I s') → run_local m s = Ok s' → I s'.
Proof. unfold run_local. intros Hm. destruct (m s) as [[a|e] s1] eqn:Hs; [|done]. intros [= <-]. by eapply Hm. Qed.

Lemma pd_sigs_inv l d r d' : pd_inv d → add_proposal_sigs l d = (r, d') → pd_inv d'.
Proof.
  intros Hd. apply (for_each_inv pd_inv); [|done]. intros x s r' s' _ Hs Hadd. by eapply pd_add_sig_inv.
Qed.

Lemma ad_sigs_inv l d r d' : ad_inv d → add_accumulation_sigs l d = (r, d') → ad_inv d'.
Proof.
  intros Hd. apply (for_each_inv ad_inv); [|done]. intros x s r' s' _ Hs Hadd. by eapply ad_add_sig_inv.
Qed.

Lemma sign_proposed_inv r l d :
  (∀ c, c ∈ l → cp_pending c = None) → sign_proposed_rewards r l = Ok d → pd_inv d.
Proof.
  intros Hl. unfold sign_proposed_rewards. destruct (es_public_key_set r) as [pk|]; simpl; [|done].
  apply run_local_inv. intros res d'. apply (for_each_inv pd_inv).
  - intros [id c] s r' s' _ Hs. unfold_m. destruct (our_share r (proposal c)); [|by intros [= _ <-]].
    intros Hadd. by eapply pd_add_sig_inv.
  - intros id c [Hid Hin]%collect_elem. split; [done|]. by rewrite Hl.
Qed.

Lemma sign_accumulating_inv r l d :
  (∀ c, c ∈ l → ca_pending c = None) → sign_accumulating_rewards r l = Ok d → ad_inv d.
Proof.
  intros Hl. unfold sign_accumulating_rewards. destruct (es_public_key_set r) as [pk|]; simpl; [|done].
  apply run_local_inv. intros res d'. apply (for_each_inv ad_inv).
  - intros [id c] s r' s' _ Hs. unfold_m. destruct (our_share r (agreed_proposal c)); [|by intros [= _ <-]].
    intros Hadd. by eapply ad_add_sig_inv.
  - intros id c [Hid Hin]%collect_elem. split; [done|]. by rewrite Hl.
Qed.

Definition advances (p p' : RewardProcess) : Prop :=
  section p' = section p ∧ stage_inv (stage p') ∧ (stage_rank (stage p) ≤ stage_rank (stage p'))%nat.

Lemma advances_refl p : stage_inv (stage p) → advances p p.
Proof. by split. Qed.

Lemma receive_churn_proposal_advances r fresh prop p res p' :
  stage_inv (stage p) → receive_churn_proposal r fresh prop p = (res, p') → advances p p'.
Proof.
  intros Hp. unfold receive_churn_proposal, on_proposing. unfold_m.
  case_bool_decide; [intros [= _ <-]; by apply advances_refl|].
  destruct (stage p) as [|d|d|proofs] eqn:Hst; simpl in Hp.
  - destruct (sign_proposed_rewards _ _) as [d|] eqn:Hs; [|intros [= _ <-]; apply advances_refl; by rewrite Hst].
    destruct (run_local _ _) as [d'|] eqn:Hl; [|intros [= _ <-]; apply advances_refl; by rewrite Hst].
    destruct (es_our_index r); [|intros [= _ <-]; apply advances_refl; by rewrite Hst].
    intros [= _ <-]. split; [done|]. split; [|rewrite Hst; simpl; lia].
    eapply (run_local_inv pd_inv); [|exact Hl]. intros r' s'. apply pd_sigs_inv.
    eapply sign_proposed_inv; [|exact Hs]. intros c (x & -> & _)%list_elem_of_fmap. done.
  - destruct (add_proposal_sigs (rp_rewards prop) d) as [[[]|e] d1] eqn:Hadd; simpl;
      pose proof (pd_sigs_inv _ _ _ _ Hp Hadd) as Hd1.
    2:{ intros [= _ <-]. split; [done|]. split; [done|]. rewrite Hst. simpl. lia. }
    destruct (pd_pending_agreements d1) as [m|].
    2:{ intros [= _ <-]. split; [done|]. split; [done|]. rewrite Hst. simpl. lia. }
    destruct (sign_accumulating_rewards _ _) as [acc|] eqn:Hs.
    2:{ intros [= _ <-]. split; [done|]. split; [done|]. rewrite Hst. simpl. lia. }
    destruct (es_our_index r).
    2:{ intros [= _ <-]. split; [done|]. split; [done|]. rewrite Hst. simpl. lia. }
    intros [= _ <-]. split; [done|]. split; [|rewrite Hst; simpl; lia]. simpl.
    eapply sign_accumulating_inv; [|exact Hs]. intros c ([id sc] & -> & _)%list_elem_of_fmap. done.
  - intros [= _ <-]. apply advances_refl. by rewrite Hst.
  - intros [= _ <-]. apply advances_refl. by rewrite Hst.
Qed.

Lemma start_accumulating_advances r fresh acc p res p' :
  stage_inv (stage p) → (stage_rank (stage p) ≤ 1)%nat → start_accumulating r fresh acc p = (res, p') →
  advances p p'.
Proof.
  intros Hp Hrank. unfold start_accumulating. unfold_m.
  destruct (sign_accumulating_rewards _ _) as [d|] eqn:Hs; [|intros [= _ <-]; by apply advances_refl].
  destruct (run_local _ _) as [d'|] eqn:Hl; [|intros [= _ <-]; by apply advances_refl].
  destruct (es_our_index r); [|intros [= _ <-]; by apply advances_refl].
  intros [= _ <-]. split; [done|]. split; [|simpl; lia].
  eapply (run_local_inv ad_inv); [|exact Hl]. intros r' s'. apply ad_sigs_inv.
  eapply sign_accumulating_inv; [|exact Hs]. intros c (x & -> & _)%list_elem_of_fmap. done.
Qed.

Lemma receive_wallet_accumulation_advances r fresh acc p res p' :
  stage_inv (stage p) → receive_wallet_accumulation r fresh acc p = (res, p') → advances p p'.
Proof.
  intros Hp. unfold receive_wallet_accumulation, on_accumulating. unfold bind at 1, get at 1, throw.
  case_bool_decide; [intros [= _ <-]; by apply advances_refl|].
  destruct (stage p) as [|d|d|proofs] eqn:Hst.
  - apply start_accumulating_advances; rewrite Hst; simpl; [done|lia].
  - apply start_accumulating_advances; rewrite Hst; simpl; [done|lia].
  - unfold_m. destruct (add_accumulation_sigs (ra_rewards acc) d) as [[[]|e] d1] eqn:Hadd; simpl;
      pose proof (ad_sigs_inv _ _ _ _ Hp Hadd) as Hd1; intros [= _ <-].
    2:{ split; [done|]. split; [done|]. rewrite Hst. simpl. lia. }
    split; [done|]. rewrite Hst. pose proof (ad_pending_spec d1 Hd1) as Hpend.
    destruct (ad_pending_agreements d1) as [m|]; simpl; [|split; [done|lia]].
    split; [|lia]. destruct Hpend as [_ ->]. intros id q. rewrite lookup_omap.
    destruct (ad_rewards d1 !! id) as [c|] eqn:Hc; simpl; [|done]. intros Hq.
    destruct (Hd1 id c Hc) as [Hid Hok]. destruct (Hok q Hq) as (Hcr & Hk & Hag).
    split; [unfold cap_id; by rewrite Hcr|]. by rewrite Hk.
  - intros [= _ <-]. apply advances_refl. by rewrite Hst.
Qed.

Lemma reward_and_mint_inv r fresh payments managed nodes p res p' :
  stage_inv (stage p) → reward_and_mint r fresh payments managed nodes p = Ok (res, p') →
  stage_inv (stage p').
Proof.
  intros Hp. unfold reward_and_mint. destruct (checked _); simpl; [|done].
  destruct (get_reward_and_mint_amount _ _ _); simpl; [|done].
  unfold get_reward_credits. destruct (distribute_rewards _ _) as [m|]; simpl; [|done]. unfold_m.
  destruct (sign_proposed_rewards _ _) as [d|] eqn:Hs; [|by intros [= _ <-]].
  destruct (es_our_index r); [|by intros [= _ <-]]. intros [= _ <-]. simpl.
  eapply sign_proposed_inv; [|exact Hs].
  intros c ([n [[age w] amount]] & -> & _)%list_elem_of_fmap. done.
Qed.

(** * Properties *)

(** C20: in every state a payout can reach, from any messages and any network
    answers, a credit counts as agreed only with a signature combined from
    more than the threshold of shares, on exactly the proposed credit; in
    particular every credit of a completed payout has such a signature. *)
Theorem payout_agreements_are_signed section signing p :
  rtc rp_step (reward_process_new section signing) p → stage_inv (stage p).
Proof.
  intros Hsteps. eapply (rtc_ind_r (λ p, stage_inv (stage p))); [| |exact Hsteps]; [done|].
  intros p1 p2 _ Hstep Hp. destruct Hstep as [r f pay man nodes p1 res p2 Hop|r f prop p1 res p2 Hop|r f acc p1 res p2 Hop].
  - by eapply reward_and_mint_inv.
  - by apply (receive_churn_proposal_advances r f prop p1 res).
  - by apply (receive_wallet_accumulation_advances r f acc p1 res).
Qed.

(** The messages of other elders only move a payout forward, and they
    do not touch a completed one; a message for another section's wallet
    changes nothing. *)
Theorem payout_moves_forward r fresh prop acc p :
  stage_inv (stage p) →
  (stage_rank (stage p) ≤ stage_rank (stage (receive_churn_proposal r fresh prop p).2))%nat ∧
  (stage_rank (stage p) ≤ stage_rank (stage (receive_wallet_accumulation r fresh acc p).2))%nat ∧
  (∀ proofs, stage p = Completed proofs →
     (receive_churn_proposal r fresh prop p).2 = p ∧ (receive_wallet_accumulation r fresh acc p).2 = p) ∧
  (rp_section_key prop ≠ os_our_key (section p) →
     receive_churn_proposal r fresh prop p = (Err (TransferE TeInvalidOwner), p)) ∧
  (ra_section_key acc ≠ os_our_key (section p) →
     receive_wallet_accumulation r fresh acc p = (Err (TransferE TeInvalidOwner), p)).
Proof.
  intros Hp. split; [|split; [|split; [|split]]].
  - by apply (receive_churn_proposal_advances r fresh prop p _ _ Hp (surjective_pairing _)).
  - by apply (receive_wallet_accumulation_advances r fresh acc p _ _ Hp (surjective_pairing _)).
  - intros proofs Hst. unfold receive_churn_proposal, receive_wallet_accumulation. unfold_m. rewrite Hst.
    split; by case_bool_decide.
  - intros Hne. unfold receive_churn_proposal. unfold_m. by rewrite bool_decide_true.
  - intros Hne. unfold receive_wallet_accumulation. unfold_m. by rewrite bool_decide_true.
Qed.
End reward_process.

Module Witness.
Import ToyCrates ToyRouting.

#[local] Instance credit_serde : Serde Credit := {| ser _ := Ok []; de _ := Err tt; |}.
#[local] Instance signed_credit_serde : Serde SignedCredit := {| ser _ := Ok []; de _ := Err tt; |}.

(** Elder 0 of a section of threshold one, which pays two nodes. *)
Definition net : Routing := toy_routing [mkPeer (nm 0) 5; mkPeer (nm 1) 6] [] root_prefix.
Definition start : RewardProcess :=
  reward_process_new (mkOurSection root_prefix (key 9)) (mkElderSigning (Multi (9%N, 1%nat))).
Definition nodes : gmap XorName (Z * PublicKey) :=
  {[ nm 3 := (6, key 13); nm 4 := (7, key 14) ]}.

Definition proposed : RewardProcess :=
  match reward_and_mint net (mid 1) 1000 500 nodes start with Ok (_, p) => p | Err _ => start end.
(** The other elder proposes the same credits, with its shares. *)
Definition other_proposal : RewardProposal :=
  match stage proposed with
  | ProposingCredits d =>
      mkRewardProposal (key 9)
        ((λ c, mkSignedCreditShare (RewardStage.proposal c) (mkSignatureShare (5%N : BlsSignatureShare) 1))
           <$> (btree_entries credit_id_cmp (pd_rewards d)).*2)
  | _ => mkRewardProposal (key 9) []
  end.
Definition accumulating : RewardProcess := (receive_churn_proposal net (mid 2) other_proposal proposed).2.
Definition other_accumulation : RewardAccumulation :=
  match stage accumulating with
  | AccumulatingCredits d =>
      mkRewardAccumulation (key 9)
        ((λ c, mkAccumulatingReward (agreed_proposal c) (mkSignatureShare (6%N : BlsSignatureShare) 1))
           <$> (btree_entries credit_id_cmp (ad_rewards d)).*2)
  | _ => mkRewardAccumulation (key 9) []
  end.
Definition completed : RewardProcess :=
  (receive_wallet_accumulation net (mid 3) other_accumulation accumulating).2.

Definition completed_count (st : RewardStage) : option nat :=
  match st with Completed m => Some (size m) | _ => None end.

Lemma mint_ok : is_ok (reward_and_mint net (mid 1) 1000 500 nodes start) = true.
Proof. vm_compute. reflexivity. Qed.

Lemma payout_agreements_are_signed_witness :
  completed_count (stage completed) = Some 2%nat ∧ stage_inv (stage completed).
Proof.
  split; [vm_compute; reflexivity|].
  apply (payout_agreements_are_signed (section start) (signing start)).
  apply (rtc_l _ _ proposed).
  - pose proof mint_ok as Hok. unfold proposed.
    destruct (reward_and_mint net (mid 1) 1000 500 nodes start) as [[res p]|] eqn:Hm; [|discriminate Hok].
    exact (rp_mint _ _ _ _ _ _ _ _ Hm).
  - apply (rtc_l _ _ accumulating); [exact (rp_proposal _ _ _ _ _ _ (surjective_pairing _))|].
    apply rtc_once. exact (rp_accumulation _ _ _ _ _ _ (surjective_pairing _)).
Defined.

Lemma payout_moves_forward_witness :
  (stage_rank (stage (receive_churn_proposal net (mid 2) other_proposal start).2) = 1)%nat ∧
  (stage_rank (stage start) ≤ stage_rank (stage (receive_churn_proposal net (mid 2) other_proposal start).2))%nat.
Proof.
  split; [vm_compute; reflexivity|].
  exact (proj1 (payout_moves_forward net (mid 2) other_proposal other_accumulation start I)).
Defined.
End Witness.
