(* ===== verification/Signing.v ===== *)
(** [src/section_funds/elder_signing.rs], the checking side: [Signing::id] and
    [Signing::verify].  The checks of [bls] and [ed25519_dalek] are the class
    [VerifyCrate]; [SignaturesVerify] is what they promise of the shares that the
    network layer makes and of their combination. *)

From S2P Require Import Prelude Crates Messages Toy Network Capacity RewardCalc RewardStage RewardProcess.

Class VerifyCrate `{DT : DataTypesCrate} `{MC : !MessagingCrate} := {
  (** [PublicKey::verify], [PublicKeyShare::verify] of [bls] *)
  bls_verify : BlsPublicKey → BlsSignature → list byte → bool;
  bls_share_verify : BlsPublicKeyShare → BlsSignatureShare → list byte → bool;
  (** [PublicKey::verify] of [sn_data_types] *)
  pk_verify : PublicKey → Signature → list byte → result DtError unit;
}.

Section signing.
Context `{MO : MessagingOps} `{VC : !VerifyCrate}.

(** [Signing::id] *)
Definition es_owner (st : ElderSigning) : OwnerType := es_id st.

(** [Signing::verify] *)
Definition es_verify `{!Serde T} (st : ElderSigning) (sig : Signature) (data : T) : bool :=
  match ser data with
  | Err _ => false
  | Ok data =>
      match sig with
      | BlsSig s =>
          match es_owner st with Multi set => bls_verify (pks_public_key set) s data | Single _ => false end
      | Ed25519Sig _ =>
          match es_owner st with Single public_key => is_ok (pk_verify public_key sig data) | Multi _ => false end
      | BlsShareSig s =>
          match es_owner st with
          | Multi set => bls_share_verify (pks_public_key_share set (index s)) (share s) data
          | Single _ => false
          end
      end
  end.

(** An elder signs with its share of the section's key. *)
Definition signs_with_own_share (r : Routing) : Prop :=
  ∀ set i b s, r_public_key_set r = Ok set → r_our_index r = Ok i → r_sign_as_elder r b (pks_public_key set) = Ok s →
    bls_share_verify (pks_public_key_share set i) s b = true.
(** Enough valid shares combine to a valid signature. *)
Definition shares_combine (set : PublicKeySet) : Prop :=
  ∀ b shares, (pks_threshold set < size shares)%nat →
    (∀ i s, shares !! i = Some s → bls_share_verify (pks_public_key_share set i) s b = true) →
    ∃ s, combine_signatures set shares = Some s ∧ bls_verify (pks_public_key set) s b = true.

(** What one elder signs, every elder of the section finds valid. *)
Lemma elder_share_verifies `{!Serde T} r r' st (data : T) sig :
  signs_with_own_share r → r_public_key_set r = r_public_key_set r' → elder_signing_new r' = Ok st →
  es_sign r data = Ok sig → es_verify st sig data = true.
Proof.
  unfold elder_signing_new, our_public_key_set, es_sign, sign_as_elder, no_key, serialise, es_verify.
  intros Hsigns <-. destruct (r_public_key_set r) as [set|] eqn:Hset; [|done]. intros [= <-]. cbn [map_err res_bind].
  destruct (ser data) as [b|] eqn:Hb; [|done]. cbn [map_err res_bind].
  destruct (r_sign_as_elder r b _) as [s|] eqn:Hs; [|done]. destruct (r_our_index r) as [i|] eqn:Hi; [|done].
  intros [= <-]. cbn. by eapply Hsigns.
Qed.

(** The shares of enough elders of some data combine to a signature that every
    elder of the section finds valid. *)
Lemma elder_shares_agree `{!Serde T} (nets : nat → Routing) set st (data : T) (shares : gmap nat BlsSignatureShare) :
  shares_combine set → elder_signing_new (nets 0%nat) = Ok st →
  (∀ k, signs_with_own_share (nets k) ∧ r_public_key_set (nets k) = Ok set) →
  (∀ k s, shares !! k = Some s → es_sign (nets k) data = Ok (BlsShareSig (mkSignatureShare s k))) →
  (pks_threshold set < size shares)%nat →
  ∃ sig, combine_signatures set shares = Some sig ∧ es_verify st (BlsSig sig) data = true.
Proof.
  intros Hcombine Hst Hnets Hshares Hsize.
  assert (st = mkElderSigning (Multi set)) as ->.
  { unfold elder_signing_new, our_public_key_set in Hst. rewrite (proj2 (Hnets 0%nat)) in Hst. by injection Hst. }
  assert (∃ b, ser data = Ok b) as [b Hb].
  { destruct (map_choose shares) as (k & s & Hk); [intros ->; rewrite map_size_empty in Hsize; lia|].
    specialize (Hshares k s Hk). unfold es_sign, sign_as_elder, serialise, no_key in Hshares.
    rewrite (proj2 (Hnets k)) in Hshares. destruct (ser data); [eauto|done]. }
  destruct (Hcombine b shares Hsize) as (sig & Hsig & Hv).
  - intros k s Hk. assert (es_verify (mkElderSigning (Multi set)) (BlsShareSig (mkSignatureShare s k)) data = true) as Hok.
    { apply (elder_share_verifies (nets k) (nets k)); [apply Hnets|done| |by apply Hshares].
      unfold elder_signing_new, our_public_key_set. by rewrite (proj2 (Hnets k)). }
    unfold es_verify in Hok. by rewrite Hb in Hok.
  - exists sig. split; [done|]. unfold es_verify. by rewrite Hb.
Qed.
End signing.
