(* ===== verification/SectionFunds.v ===== *)
(** [src/section_funds/{mod,reward_wallets}.rs]: the wallets the nodes of the
    section registered for their rewards, kept also while a payout runs, and
    the sum of a set of credits. *)

From S2P Require Import Prelude Crates Messages Toy Network Capacity RewardCalc RewardStage RewardProcess.

Section section_funds.
Context `{MO : MessagingOps}.

(** * reward_wallets.rs *)

Record RewardWallets : Type := mkRewardWallets {
  node_rewards : gmap XorName (Z * PublicKey);
}.
Definition reward_wallets_new (node_rewards : gmap XorName (Z * PublicKey)) : RewardWallets :=
  mkRewardWallets node_rewards.
Definition rw_get (w : RewardWallets) (node_name : XorName) : option (Z * PublicKey) :=
  node_rewards w !! node_name.
Definition rw_all_nodes (w : RewardWallets) : list XorName := (map_to_list (node_rewards w)).*1.
Definition rw_node_wallets (w : RewardWallets) : gmap XorName (Z * PublicKey) :=
  list_to_map ((λ '(node, (age, key)), (node, (age, key))) <$> map_to_list (node_rewards w)).
(** The keys are collected first, then the ones that do not match removed. *)
Definition rw_keep_wallets_of (prefix : Prefix) (w : RewardWallets) : RewardWallets :=
  let keys := (map_to_list (node_rewards w)).*1 in
  mkRewardWallets
    (foldl (λ m key, if negb (prefix_matches prefix key) then delete key m else m) (node_rewards w) keys).
Definition rw_set_node_wallet (node_name : XorName) (age : Z) (wallet : PublicKey) (w : RewardWallets) :
    RewardWallets :=
  mkRewardWallets (<[node_name := (age, wallet)]> (node_rewards w)).
Definition rw_remove_wallet (node_name : XorName) (w : RewardWallets) : RewardWallets :=
  mkRewardWallets (delete node_name (node_rewards w)).

(** * mod.rs *)

Inductive SectionFunds : Type :=
| KeepingNodeWallets (wallets : RewardWallets)
| Churning (process : RewardProcess) (wallets : RewardWallets).

(** The two parts a mutable borrow of the churning state gives. *)
Definition as_churning_mut (f : SectionFunds) : Result (RewardProcess * RewardWallets) :=
  match f with
  | Churning process wallets => Ok (process, wallets)
  | KeepingNodeWallets _ => Err NotChurningFunds
  end.

(** The pattern [Churning { wallets, .. } | KeepingNodeWallets(wallets)], to
    read and to update. *)
Definition sf_wallets (f : SectionFunds) : RewardWallets :=
  match f with Churning _ wallets | KeepingNodeWallets wallets => wallets end.
Definition on_wallets (g : RewardWallets → RewardWallets) (f : SectionFunds) : SectionFunds :=
  match f with
  | Churning process wallets => Churning process (g wallets)
  | KeepingNodeWallets wallets => KeepingNodeWallets (g wallets)
  end.

Definition get_node_wallet (f : SectionFunds) (node_name : XorName) : option PublicKey :=
  snd <$> rw_get (sf_wallets f) node_name.
Definition node_wallets (f : SectionFunds) : gmap XorName (Z * PublicKey) := rw_node_wallets (sf_wallets f).
Definition set_node_wallet (node_id : XorName) (wallet : PublicKey) (age : Z) : SectionFunds → SectionFunds :=
  on_wallets (rw_set_node_wallet node_id age wallet).
Definition remove_node_wallet (node_name : XorName) : SectionFunds → SectionFunds :=
  on_wallets (rw_remove_wallet node_name).
Definition keep_wallets_of (prefix : Prefix) : SectionFunds → SectionFunds :=
  on_wallets (rw_keep_wallets_of prefix).

(** [Credits::sum]: a [u64] sum, which panics on overflow. *)
Definition credits_sum (credits : gmap CreditId CreditAgreementProof) : result stop Token :=
  foldl (λ acc '(_, c), res_bind acc (λ a, checked (checked_add a (cap_amount c)))) (Ok 0)
    (btree_entries credit_id_cmp credits).

(** * Lemmas *)

Lemma rw_node_wallets_eq w : rw_node_wallets w = node_rewards w.
Proof.
  unfold rw_node_wallets. rewrite <- (list_to_map_to_list (node_rewards w)) at 2. f_equal.
  induction (map_to_list (node_rewards w)) as [|[n [a k]] l IH]; csimpl; [done|]. by rewrite IH.
Qed.

Lemma fold_delete_lookup (p : XorName → bool) l (m : gmap XorName (Z * PublicKey)) n :
  foldl (λ m key, if negb (p key) then delete key m else m) m l !! n =
  if negb (p n) && bool_decide (n ∈ l) then None else m !! n.
Proof.
  revert m. induction l as [|x l IH]; intros m; cbn [foldl].
  - rewrite bool_decide_false by apply not_elem_of_nil. by rewrite andb_false_r.
  - rewrite IH. destruct (decide (x = n)) as [->|Hne].
    + rewrite (bool_decide_true (n ∈ n :: l)) by (by left).
      destruct (p n); simpl; [done|]. case_bool_decide; [done|]. apply lookup_delete_eq.
    + assert ((if negb (p x) then delete x m else m) !! n = m !! n) as ->.
      { destruct (p x); simpl; [done|]. by apply lookup_delete_ne. }
      assert (bool_decide (n ∈ x :: l) = bool_decide (n ∈ l)) as ->; [|done].
      apply bool_decide_ext. rewrite elem_of_cons. split; [|by right]. intros [->|?]; [done|done].
Qed.

Lemma rw_keep_lookup prefix w n :
  node_rewards (rw_keep_wallets_of prefix w) !! n =
  if prefix_matches prefix n then node_rewards w !! n else None.
Proof.
  cbn [rw_keep_wallets_of node_rewards]. rewrite fold_delete_lookup.
  destruct (prefix_matches prefix n); simpl; [done|]. case_bool_decide as Hin; [done|].
  destruct (node_rewards w !! n) as [v|] eqn:Hv; [|done]. destruct Hin.
  apply list_elem_of_fmap. exists (n, v). split; [done|]. by apply elem_of_map_to_list.
Qed.

Lemma credits_fold_err (l : list (CreditId * CreditAgreementProof)) e :
  foldl (λ acc '(_, c), res_bind acc (λ a, checked (checked_add a (cap_amount c)))) (Err e) l = Err e.
Proof. by induction l as [|[i c] l IH]. Qed.

Lemma credits_fold_spec (l : list (CreditId * CreditAgreementProof)) a :
  Forall (λ c, 0 ≤ c) ((λ kv, cap_amount kv.2) <$> l) → a ≤ u64_max →
  foldl (λ acc '(_, c), res_bind acc (λ a, checked (checked_add a (cap_amount c)))) (Ok a) l =
  checked (checked_add a (sum_Z ((λ kv, cap_amount kv.2) <$> l))).
Proof.
  revert a. induction l as [|[i c] l IH]; intros a; csimpl; [|intros [Hc Hl]%Forall_cons Ha].
  { intros _ Ha. unfold checked_add. simpl. destruct (Z.leb_spec (a + 0) u64_max); [|lia].
    simpl. f_equal. lia. }
  pose proof (sum_Z_nonneg _ Hl) as Hs. unfold checked_add at 2.
  destruct (Z.leb_spec (a + cap_amount c) u64_max) as [Hle|Hgt]; simpl.
  - rewrite IH by done. unfold checked_add. by rewrite Z.add_assoc.
  - rewrite credits_fold_err. unfold checked_add. destruct (Z.leb_spec (a + (cap_amount c +
      sum_Z ((λ kv, cap_amount kv.2) <$> l))) u64_max); [lia|done].
Qed.

Lemma credits_sum_spec credits :
  (∀ i c, credits !! i = Some c → 0 ≤ cap_amount c) →
  credits_sum credits = checked (checked_add 0 (map_sum (λ _, cap_amount) credits)).
Proof.
  intros Hc. unfold credits_sum. rewrite credits_fold_spec; [|apply Forall_fmap, Forall_forall|done].
  - by rewrite btree_entries_Permutation, map_sum_list.
  - intros [i c] Hin%elem_of_btree_entries. by eapply Hc.
Qed.

(** * What the wallets are, operation by operation *)

(** What can happen to the wallets. *)
Inductive FundsOp : Type :=
| OpSet (node : XorName) (wallet : PublicKey) (age : Z)
| OpRemove (node : XorName)
| OpKeep (prefix : Prefix).
Definition run_op (f : SectionFunds) (op : FundsOp) : SectionFunds :=
  match op with
  | OpSet node wallet age => set_node_wallet node wallet age f
  | OpRemove node => remove_node_wallet node f
  | OpKeep prefix => keep_wallets_of prefix f
  end.

(** What they do to the wallet of one node. *)
Definition wallet_spec (n : XorName) (w : option (Z * PublicKey)) (op : FundsOp) : option (Z * PublicKey) :=
  match op with
  | OpSet node wallet age => if decide (node = n) then Some (age, wallet) else w
  | OpRemove node => if decide (node = n) then None else w
  | OpKeep prefix => if prefix_matches prefix n then w else None
  end.

Definition funds_process (f : SectionFunds) : option RewardProcess :=
  match f with Churning p _ => Some p | KeepingNodeWallets _ => None end.

Lemma run_op_lookup f op n :
  node_rewards (sf_wallets (run_op f op)) !! n = wallet_spec n (node_rewards (sf_wallets f) !! n) op.
Proof.
  assert (∀ g, sf_wallets (on_wallets g f) = g (sf_wallets f)) as Hon by (intros; by destruct f).
  destruct op; cbn [run_op wallet_spec]; unfold set_node_wallet, remove_node_wallet, keep_wallets_of;
    rewrite Hon; [apply lookup_insert|apply lookup_delete|apply rw_keep_lookup].
Qed.

(** After any sequence of registrations, removals and splits, the wallet
    of a node is what its last registration set, unless it was removed or
    split off since; a running payout is not disturbed. *)
Theorem section_funds_wallets f ops n :
  node_wallets (foldl run_op f ops) !! n = foldl (wallet_spec n) (node_wallets f !! n) ops ∧
  get_node_wallet (foldl run_op f ops) n = snd <$> foldl (wallet_spec n) (node_wallets f !! n) ops ∧
  funds_process (foldl run_op f ops) = funds_process f.
Proof.
  unfold node_wallets, get_node_wallet, rw_get. rewrite !rw_node_wallets_eq.
  revert f. induction ops as [|op ops IH]; intros f; cbn [foldl]; [done|].
  destruct (IH (run_op f op)) as (Hw & _ & Hp). rewrite Hw, Hp, run_op_lookup.
  split; [done|]. split; [done|]. by destruct op, f.
Qed.
End section_funds.
