(* ===== verification/TransferStore.v ===== *)
(** [src/transfers/store.rs] (with [utils::new_auto_dump_db] and
    [to_db_key.rs]): the log of the events of one wallet, kept in a key-value
    database under the numbers [0, 1, ...].

    The database crate [pickledb] is a parameter with the files it works on:
    [PickleCrate] has the calls the code makes, [PickleLaws] their documented
    effect on the contents of a database and of its file. *)

From stdpp Require Import pretty.
From S2P Require Import Prelude Crates Messages Disk Toy Network.

(** * The database crate *)

Class PickleCrate `{MC : MessagingCrate} (T : Type) := {
  Db : Type;
  (** the file system *)
  DbWorld : Type;
  (** [PickleDb::{load_bin, new_bin}] with [PickleDbDumpPolicy::AutoDump] *)
  db_load_bin : path → M PickleDbError DbWorld Db;
  db_new_bin : path → Db;
  db_dump : M PickleDbError (Db * DbWorld) unit;
  db_get_all : Db → list string;
  db_get : Db → string → option T;
  db_exists : Db → string → bool;
  db_total_keys : Db → nat;
  db_set : string → T → M PickleDbError (Db * DbWorld) unit;
  (** [fs::create_dir_all] and [fs::remove_file] *)
  db_create_dir_all : path → M IoError DbWorld unit;
  db_remove_file : path → M IoError DbWorld unit;
}.

Class PickleLaws `{PC : PickleCrate T} := {
  (** the contents of a database in memory, its file, and of the files *)
  db_map : Db → gmap string T;
  db_at : Db → path;
  db_file : DbWorld → path → option (gmap string T);
  (** no call fails for a reason outside the program *)
  healthy : DbWorld → Prop;
  db_dir : DbWorld → path → Prop;

  get_all_spec : ∀ d, db_get_all d ≡ₚ (map_to_list (db_map d)).*1;
  get_spec : ∀ d k, db_get d k = db_map d !! k;
  exists_spec : ∀ d k, db_exists d k = bool_decide (is_Some (db_map d !! k));
  total_keys_spec : ∀ d, db_total_keys d = size (db_map d);
  new_bin_spec : ∀ p, db_map (db_new_bin p) = ∅ ∧ db_at (db_new_bin p) = p;

  (** a load reads the file, and changes no file *)
  load_spec : ∀ p w r w', db_load_bin p w = (r, w') →
    (∀ q, db_file w' q = db_file w q) ∧ (∀ q, db_dir w q → db_dir w' q) ∧
    match r with Ok d => db_at d = p ∧ db_file w p = Some (db_map d) | Err _ => True end;
  (** a dump writes the contents to the file, or leaves it *)
  dump_spec : ∀ d w r d' w', db_dump (d, w) = (r, (d', w')) →
    db_map d' = db_map d ∧ db_at d' = db_at d ∧ (∀ q, db_dir w q → db_dir w' q) ∧
    (∀ q, db_file w' q =
          if decide (is_ok r = true ∧ q = db_at d) then Some (db_map d) else db_file w q);
  (** a set changes one key, in memory and in the file, or nothing *)
  set_spec : ∀ k v d w r d' w', db_set k v (d, w) = (r, (d', w')) →
    db_map d' = (if is_ok r then <[k := v]> (db_map d) else db_map d) ∧ db_at d' = db_at d ∧
    (∀ q, db_dir w q → db_dir w' q) ∧
    (∀ q, db_file w' q =
          if decide (is_ok r = true ∧ q = db_at d) then Some (<[k := v]> (db_map d)) else db_file w q);
  create_dir_spec : ∀ p w r w', db_create_dir_all p w = (r, w') →
    (∀ q, db_file w' q = db_file w q) ∧ (∀ q, db_dir w q → db_dir w' q) ∧ (is_ok r = true → db_dir w' p);
  remove_file_spec : ∀ p w r w', db_remove_file p w = (r, w') →
    (∀ q, db_dir w q → db_dir w' q) ∧
    (∀ q, db_file w' q = if decide (is_ok r = true ∧ q = p) then None else db_file w q);

  (** a file is in a directory *)
  file_dir : ∀ w p, is_Some (db_file w p) → db_dir w (parent p);

  (** on a healthy system calls succeed where they can *)
  load_healthy : ∀ p w, healthy w →
    is_ok (db_load_bin p w).1 = bool_decide (is_Some (db_file w p)) ∧ healthy (db_load_bin p w).2;
  dump_healthy : ∀ d w, healthy w → db_dir w (parent (db_at d)) →
    is_ok (db_dump (d, w)).1 = true ∧ healthy (db_dump (d, w)).2.2;
  set_healthy : ∀ k v d w, healthy w → db_dir w (parent (db_at d)) →
    is_ok (db_set k v (d, w)).1 = true ∧ healthy (db_set k v (d, w)).2.2;
  create_dir_healthy : ∀ p w, healthy w →
    is_ok (db_create_dir_all p w).1 = true ∧ healthy (db_create_dir_all p w).2;
}.

(** * Decimal numbers *)

(** [str::parse::<usize>]: an optional sign and digits, without overflow. *)
Definition digit_value (c : Ascii.ascii) : option Z :=
  let n := Z.of_N (Ascii.N_of_ascii c) in
  if (48 <=? n) && (n <=? 57) then Some (n - 48) else None.
Fixpoint parse_digits (acc : Z) (s : string) : option Z :=
  match s with
  | EmptyString => Some acc
  | String c s =>
      match digit_value c with
      | Some d => checked_mul acc 10 ≫= (λ m, checked_add m d ≫= (λ a, parse_digits a s))
      | None => None
      end
  end.
Definition parse_usize (s : string) : option Z :=
  match s with
  | EmptyString => None
  | String c s' =>
      if Ascii.eqb c (Ascii.ascii_of_N 43) then (* + *) match s' with EmptyString => None | _ => parse_digits 0 s' end
      else parse_digits 0 s
  end.

Lemma digit_value_pretty n : (n < 10)%N → digit_value (pretty_N_char n) = Some (Z.of_N n).
Proof.
  intros Hn. assert (n ∈ (N.of_nat <$> seq 0 10)) as Hin.
  { apply list_elem_of_fmap. exists (N.to_nat n). rewrite elem_of_seq. split; lia. }
  revert Hin. clear Hn. simpl. rewrite !elem_of_cons, elem_of_nil.
  intros Hin. repeat destruct Hin as [->|Hin]; done.
Qed.

Lemma parse_pretty_go x s :
  Z.of_N x ≤ u64_max → parse_digits 0 (pretty_N_go x s) = parse_digits (Z.of_N x) s.
Proof.
  revert s. induction (N.lt_wf_0 x) as [x _ IH]; intros s Hx.
  destruct (decide (0 < x)%N) as [Hpos|Hpos].
  - rewrite pretty_N_go_step by done.
    assert (x `div` 10 < x)%N by (apply N.div_lt; lia).
    assert (x `mod` 10 < 10)%N by (apply N.mod_lt; lia).
    rewrite IH by lia. cbn [parse_digits]. rewrite digit_value_pretty by done.
    assert (Z.of_N (x `div` 10) * 10 + Z.of_N (x `mod` 10) = Z.of_N x) as Hdm.
    { pose proof (N.div_mod x 10 ltac:(lia)). lia. }
    assert (checked_mul (Z.of_N (x `div` 10)) 10 = Some (Z.of_N (x `div` 10) * 10)) as ->.
    { apply checked_mul_Some. split; [done|]. pose proof (N2Z.is_nonneg (x `mod` 10)). lia. }
    simpl. unfold checked_add. rewrite Hdm. destruct (Z.leb_spec (Z.of_N x) u64_max); [done|lia].
  - assert (x = 0%N) as -> by lia. by rewrite pretty_N_go_0.
Qed.

Lemma pretty_go_digit x s :
  (∃ d s', (d < 10)%N ∧ s = String (pretty_N_char d) s') ∨ (0 < x)%N →
  ∃ d s', (d < 10)%N ∧ pretty_N_go x s = String (pretty_N_char d) s'.
Proof.
  revert s. induction (N.lt_wf_0 x) as [x _ IH]; intros s Hs.
  destruct (decide (0 < x)%N) as [Hpos|Hpos].
  - rewrite pretty_N_go_step by done. apply IH; [apply N.div_lt; lia|].
    left. exists (x `mod` 10)%N, s. split; [apply N.mod_lt; lia|done].
  - assert (x = 0%N) as -> by lia. rewrite pretty_N_go_0. destruct Hs; [done|lia].
Qed.

Lemma parse_usize_digit d s :
  (d < 10)%N → parse_usize (String (pretty_N_char d) s) = parse_digits 0 (String (pretty_N_char d) s).
Proof.
  intros Hd. assert (d ∈ (N.of_nat <$> seq 0 10)) as Hin.
  { apply list_elem_of_fmap. exists (N.to_nat d). rewrite elem_of_seq. split; lia. }
  revert Hin. clear Hd. simpl. rewrite !elem_of_cons, elem_of_nil.
  intros Hin. repeat destruct Hin as [->|Hin]; done.
Qed.

(** A number printed and parsed is the number. *)
Lemma parse_pretty (n : nat) : Z.of_nat n ≤ u64_max → parse_usize (pretty n) = Some (Z.of_nat n).
Proof.
  intros Hn. change (pretty n) with (pretty (N.of_nat n)). unfold pretty, pretty_N.
  case_decide as H0; [by assert (n = 0%nat) as -> by lia|].
  destruct (pretty_go_digit (N.of_nat n) "") as (d & s' & Hd & He); [right; lia|].
  rewrite He, parse_usize_digit by done. rewrite <- He, parse_pretty_go by lia. simpl. f_equal. lia.
Qed.

(** * store.rs *)

(** [format!("{:?}", event)] *)
Class DebugT (T : Type) := debug_t : T → string.

Section transfer_store.
Context `{MO : MessagingOps} `{SN : !Serde XorName} {T : Type} `{DBG : !DebugT T} `{PC : !PickleCrate T}.

Definition TRANSFERS_DIR_NAME : string := "transfers".
Definition DB_EXTENSION : string := ".db".

Record TransferStore : Type := mkTransferStore {
  ts_db : Db;
  ts_db_path : path;
}.

(** [ToDbKey::to_db_key] *)
Definition to_db_key `{!Serde K} (k : K) : Result string :=
  res_bind (serialise k) (λ serialised, Ok (hex_encode serialised)).

(** [from_db_key]; the text of the error is that of [hex]. *)
Definition from_db_key `{!Serde K} (hex_error : string → string) (key : string) : Result K :=
  match hex_decode key with
  | None => Err (Logic (hex_error key))
  | Some decoded => deserialise decoded
  end.

(** A key of the database is read back as what it was made of, so different ids
    have different keys. *)
Lemma db_key_roundtrip `{EL : !EncodingLaws} `{!Serde K} `{SKL : !SerdeLaws K} hex_error (k : K) key :
  to_db_key k = Ok key → from_db_key hex_error key = Ok k.
Proof.
  unfold to_db_key, from_db_key, serialise, deserialise. destruct (ser k) as [b|] eqn:Hb; [|done]. intros [= <-].
  by rewrite hex_roundtrip, (ser_de _ _ Hb).
Qed.

(** Convert the error of an operation: [?] and [map_err]. *)
Definition with_err {E F S A} (f : E → F) (m : M E S A) : M F S A := λ s, let '(r, s') := m s in (map_err f r, s').

(** [utils::new_auto_dump_db] *)
Definition new_auto_dump_db (db_dir : path) (db_name : string) : M Error DbWorld Db :=
  let db_path := join db_dir db_name in
  let! loaded := try (with_err PickleDb (db_load_bin db_path)) in
  match loaded with
  | Ok db => ret db
  | Err _ =>
      with_err Io (db_create_dir_all db_dir) ;;;
      let db := db_new_bin db_path in
      (λ w, let '(r, (_, w')) := with_err PickleDb db_dump (db, w) in (r, w')) ;;;
      with_err PickleDb (db_load_bin db_path)
  end.

(** [TransferStore::new] *)
Definition transfer_store_new (id : XorName) (root_dir : path) : M Error DbWorld TransferStore :=
  let db_dir := join root_dir TRANSFERS_DIR_NAME in
  let! key := lift (to_db_key id) in
  let db_name := key +:+ DB_EXTENSION in
  let db_path := join db_dir db_name in
  let! db := new_auto_dump_db db_dir db_name in
  ret (mkTransferStore db db_path).

(** [as_deletable().delete()] *)
Definition ts_delete (st : TransferStore) : M Error DbWorld unit := with_err Io (db_remove_file (ts_db_path st)).

Definition get_all (st : TransferStore) : list T :=
  let keys := db_get_all (ts_db st) in
  let events := omap (λ key,
    match db_get (ts_db st) key with
    | Some v => match parse_usize key with Some k => Some (k, v) | None => None end
    | None => None
    end) keys in
  (sort_by (cmp_on fst Z.compare) events).*2.

Definition try_insert (event : T) : M Error (TransferStore * DbWorld) unit :=
  λ '(st, w),
    let key := pretty (db_total_keys (ts_db st)) in
    if db_exists (ts_db st) key
    then (Err (Logic ("Key exists: " +:+ key +:+ ". Event: " +:+ debug_t event)), (st, w))
    else let '(r, (db, w')) := db_set key event (ts_db st, w) in
         (map_err PickleDb r, (mkTransferStore db (ts_db_path st), w')).

(** * The log a database holds *)

Definition log_map (l : list T) : gmap string T := list_to_map (imap (λ i e, (pretty i, e)) l).

Lemma log_keys (l : list T) : (imap (λ i e, (pretty i, e)) l).*1 = pretty <$> seq 0 (length l).
Proof.
  rewrite fmap_imap. apply list_eq. intros i. rewrite list_lookup_imap, list_lookup_fmap.
  destruct (decide (i < length l)%nat) as [Hi|Hi].
  - rewrite lookup_seq_lt by done. destruct (lookup_lt_is_Some_2 l i Hi) as [e ->]. done.
  - rewrite lookup_seq_ge, lookup_ge_None_2 by lia. done.
Qed.

Lemma log_keys_NoDup (l : list T) : NoDup (imap (λ i e, (pretty i, e)) l).*1.
Proof. rewrite log_keys. apply NoDup_fmap; [apply _|]. apply NoDup_seq. Qed.

Lemma log_map_to_list l : map_to_list (log_map l) ≡ₚ imap (λ i e, (pretty i, e)) l.
Proof. apply map_to_list_to_map, log_keys_NoDup. Qed.

Lemma log_map_size l : size (log_map l) = length l.
Proof. rewrite <- length_map_to_list, log_map_to_list. apply length_imap. Qed.

Lemma log_map_fresh l : log_map l !! pretty (length l) = None.
Proof.
  apply not_elem_of_list_to_map_1. rewrite log_keys. intros (i & Heq & Hi)%list_elem_of_fmap.
  apply (inj pretty) in Heq. apply elem_of_seq in Hi. lia.
Qed.

Lemma log_map_snoc l e : <[pretty (length l) := e]> (log_map l) = log_map (l ++ [e]).
Proof.
  unfold log_map. rewrite imap_app. simpl. rewrite Nat.add_0_r, list_to_map_snoc; [done|].
  apply not_elem_of_list_to_map_2. apply log_map_fresh.
Qed.

Lemma log_map_inj l k : log_map l = log_map k → l = k.
Proof.
  intros Heq. apply list_eq. intros i.
  assert (∀ l : list T, log_map l !! pretty i = l !! i) as Hl; [|by rewrite <- !Hl, Heq].
  clear. intros l. destruct (l !! i) as [e|] eqn:He.
  - apply elem_of_list_to_map; [apply log_keys_NoDup|]. apply list_elem_of_lookup. exists i.
    by rewrite list_lookup_imap, He.
  - apply not_elem_of_list_to_map_1. rewrite log_keys. intros (j & Heq & Hj)%list_elem_of_fmap.
    apply (inj pretty) in Heq. apply elem_of_seq in Hj. apply lookup_ge_None_1 in He. lia.
Qed.

Context `{PL : !PickleLaws (T := T)}.

(** A store whose database holds the log [l]. *)
Definition is_log (st : TransferStore) (l : list T) : Prop := db_map (ts_db st) = log_map l.

(** The index of an event fits in a [usize]. *)
Definition log_fits (l : list T) : Prop := Z.of_nat (length l) ≤ u64_max + 1.

Lemma indexed_sorted (l : list T) n :
  StronglySorted (cle (cmp_on fst Z.compare)) (imap (λ i e, (Z.of_nat (n + i), e)) l).
Proof.
  revert n. induction l as [|e l IH]; intros n; simpl; [constructor|]. constructor.
  - rewrite (imap_ext _ (λ i e, (Z.of_nat (S n + i), e))); [apply IH|]. intros i x _. simpl. do 2 f_equal. lia.
  - apply Forall_forall. intros [k x] Hin. apply elem_of_lookup_imap in Hin as (i & y & [= -> ->] & _).
    unfold cle, cmp_on. simpl. destruct (Z.compare_spec (Z.of_nat (n + 0)) (Z.of_nat (n + S i))); [done|done|lia].
Qed.

Lemma indexed_inj (l : list T) k x y :
  (k, x) ∈ imap (λ i e, (Z.of_nat i, e)) l → (k, y) ∈ imap (λ i e, (Z.of_nat i, e)) l → x = y.
Proof.
  intros (i & x' & [= Hi ->] & Hx)%elem_of_lookup_imap (j & y' & [= Hj ->] & Hy)%elem_of_lookup_imap.
  assert (i = j) as -> by lia. congruence.
Qed.

(** The events read back, before they are sorted. *)
Lemma read_back st l :
  is_log st l → log_fits l →
  omap (λ key, match db_get (ts_db st) key with
               | Some v => match parse_usize key with Some k => Some (k, v) | None => None end
               | None => None end) (db_get_all (ts_db st))
  ≡ₚ imap (λ i e, (Z.of_nat i, e)) l.
Proof.
  unfold is_log, log_fits. intros Hlog Hfits. rewrite get_all_spec, Hlog, log_map_to_list, log_keys.
  assert (∀ n, (n ≤ length l)%nat →
    omap (λ key, match db_get (ts_db st) key with
                 | Some v => match parse_usize key with Some k => Some (k, v) | None => None end
                 | None => None end) (pretty <$> seq n (length l - n)) =
    imap (λ i e, (Z.of_nat (n + i), e)) (drop n l)) as Hgen.
  2:{ specialize (Hgen 0%nat ltac:(lia)). rewrite Nat.sub_0_r, drop_0 in Hgen. by rewrite Hgen. }
  intros n. remember (length l - n)%nat as m eqn:Hm. revert n Hm.
  induction m as [|m IH]; intros n Hm Hn.
  - by rewrite drop_ge by lia.
  - destruct (lookup_lt_is_Some_2 l n ltac:(lia)) as [e He].
    assert (log_map l !! pretty n = Some e) as Hlook.
    { apply elem_of_list_to_map; [apply log_keys_NoDup|]. apply list_elem_of_lookup. exists n.
      by rewrite list_lookup_imap, He. }
    cbn [seq]. rewrite fmap_cons. cbn [omap list_omap]. rewrite get_spec, Hlog, Hlook.
    rewrite parse_pretty by lia. rewrite (drop_S l e n He). simpl. rewrite Nat.add_0_r. f_equal.
    etrans; [apply (IH (S n)); lia|]. apply imap_ext. intros i x _. simpl. do 2 f_equal. lia.
Qed.

Lemma get_all_log st l : is_log st l → log_fits l → get_all st = l.
Proof.
  intros Hlog Hfits. unfold get_all.
  rewrite (StronglySorted_unique_strong (cle (cmp_on fst Z.compare)) _ (imap (λ i e, (Z.of_nat i, e)) l)).
  - rewrite fmap_imap. apply list_eq. intros i. rewrite list_lookup_imap. by destruct (l !! i).
  - intros [k x] [k' y] Hx Hy. rewrite elem_of_sort_by, (read_back st l Hlog Hfits) in Hx.
    unfold cle, cmp_on. simpl. intros H1 H2.
    assert (k = k') as -> by (destruct (Z.compare_spec k k'), (Z.compare_spec k' k); simpl in *; (done || lia)).
    f_equal. by eapply indexed_inj.
  - apply sort_by_sorted. apply _.
  - apply (indexed_sorted l 0).
  - rewrite sort_by_Permutation. by apply read_back.
Qed.

(** What is read back was inserted, for a log of any length. *)
Lemma get_all_elem st l e : is_log st l → e ∈ get_all st → e ∈ l.
Proof.
  unfold is_log, get_all. intros Hlog ([k x] & -> & Hin)%list_elem_of_fmap. rewrite elem_of_sort_by in Hin.
  apply list_elem_of_omap in Hin as (key & _ & Hx). rewrite get_spec, Hlog in Hx.
  destruct (log_map l !! key) as [v|] eqn:Hv; [|done]. destruct (parse_usize key); [|done]. injection Hx as _ ->.
  apply elem_of_list_to_map_2, elem_of_lookup_imap in Hv as (i & x' & [= _ ->] & Hi). by eapply list_elem_of_lookup_2.
Qed.

Lemma try_insert_log st l e w r st' w' :
  is_log st l → try_insert e (st, w) = (r, (st', w')) →
  ts_db_path st' = ts_db_path st ∧ db_at (ts_db st') = db_at (ts_db st) ∧
  is_log st' (if is_ok r then l ++ [e] else l) ∧
  (∀ q, db_dir w q → db_dir w' q) ∧
  (∀ q, db_file w' q =
        if decide (is_ok r = true ∧ q = db_at (ts_db st)) then Some (log_map (l ++ [e])) else db_file w q) ∧
  (healthy w → db_dir w (parent (db_at (ts_db st))) → r = Ok tt ∧ healthy w').
Proof.
  unfold is_log. intros Hlog. unfold try_insert. rewrite exists_spec, total_keys_spec, Hlog, log_map_size.
  rewrite bool_decide_false by (rewrite log_map_fresh; by intros [? ?]).
  pose proof (set_healthy (pretty (length l)) e (ts_db st) w) as Hh.
  destruct (db_set (pretty (length l)) e (ts_db st, w)) as [r' [d' w1]] eqn:Hset.
  apply set_spec in Hset as (Hmap & Hat & Hdir & Hfile). rewrite Hlog, log_map_snoc in Hmap.
  rewrite Hlog, log_map_snoc in Hfile. intros [= <- <- <-]. cbn [ts_db ts_db_path].
  assert (is_ok (map_err PickleDb r') = is_ok r') as Hok by (by destruct r'). rewrite Hok.
  split; [done|]. split; [done|]. split; [by destruct r'|]. split; [done|]. split; [exact Hfile|].
  intros H1 H2. destruct (Hh H1 H2) as [Ho ?]. destruct r' as [[]|]; [done|discriminate Ho].
Qed.

(** The file of a wallet's log. *)
Definition store_path (id : XorName) (root_dir : path) : Result path :=
  res_bind (to_db_key id) (λ key,
  Ok (join (join root_dir TRANSFERS_DIR_NAME) (key +:+ DB_EXTENSION))).

(** Opening a store gives the log of its file.  When the file cannot be
    loaded, it is replaced by an empty log. *)
Lemma new_store_spec id root p w r w' :
  store_path id root = Ok p → transfer_store_new id root w = (r, w') →
  (∀ q, db_dir w q → db_dir w' q) ∧ (∀ q, q ≠ p → db_file w' q = db_file w q) ∧
  (is_ok (db_load_bin p w).1 = true → db_file w' p = db_file w p) ∧
  (db_file w' p = db_file w p ∨ db_file w' p = Some ∅) ∧
  match r with
  | Ok st => ts_db_path st = p ∧ db_at (ts_db st) = p ∧ db_file w' p = Some (db_map (ts_db st))
  | Err _ => True
  end.
Proof.
  unfold store_path, transfer_store_new, new_auto_dump_db. unfold_m. unfold with_err.
  destruct (to_db_key id) as [key|e]; cbn [res_bind]; [|done]. intros [= Hp]. rewrite Hp.
  destruct (db_load_bin p w) as [[d|e] w1] eqn:Hload; apply load_spec in Hload as (Hf1 & Hd1 & H1); simpl.
  { intros [= <- <-]. destruct H1 as [Hat Hfile]. rewrite !Hf1, Hfile. auto 10. }
  destruct (db_create_dir_all _ w1) as [[[]|e2] w2] eqn:Hdir; apply create_dir_spec in Hdir as (Hf2 & Hd2 & _);
    simpl; [|intros [= <- <-]; rewrite !Hf2, !Hf1; split; [auto|]; split; [|auto]; intros; by rewrite Hf2, Hf1].
  destruct (db_dump (db_new_bin p, w2)) as [r3 [d3 w3]] eqn:Hdump.
  apply dump_spec in Hdump as (Hm3 & Ha3 & Hd3 & Hf3). destruct (new_bin_spec p) as [Hnew Hat].
  rewrite Hat, Hnew in Hf3. simpl.
  assert (∀ q, q ≠ p → db_file w3 q = db_file w q) as Hother.
  { intros q Hq. rewrite Hf3, decide_False by tauto. by rewrite Hf2, Hf1. }
  assert (db_file w3 p = db_file w p ∨ db_file w3 p = Some ∅) as Hown.
  { destruct r3; [right|left]; rewrite Hf3.
    - by rewrite decide_True.
    - rewrite decide_False by (by intros [? _]). by rewrite Hf2, Hf1. }
  destruct r3 as [[]|e3]; simpl; [|intros [= <- <-]; auto 10].
  destruct (db_load_bin p w3) as [r4 w4] eqn:Hload4. apply load_spec in Hload4 as (Hf4 & Hd4 & H4).
  destruct r4 as [d4|e4]; simpl; intros [= <- <-].
  - destruct H4 as [Hat4 Hfile4]. rewrite !Hf4. split; [auto|]. split; [intros; rewrite Hf4; auto|].
    split; [done|]. split; [done|]. auto.
  - rewrite !Hf4. split; [auto|]. split; [intros; rewrite Hf4; auto|]. auto.
Qed.

Lemma new_store_healthy id root p w :
  store_path id root = Ok p → healthy w →
  ∃ st w', transfer_store_new id root w = (Ok st, w') ∧ healthy w' ∧
           (is_Some (db_file w p) → db_file w' p = db_file w p).
Proof.
  intros Hp Hw. destruct (transfer_store_new id root w) as [r w'] eqn:Hnew.
  destruct (new_store_spec id root p w r w' Hp Hnew) as (_ & _ & Hkeep & _).
  pose proof (load_healthy p w Hw) as [Hload Hw1]. rewrite Hload, bool_decide_eq_true in Hkeep.
  revert Hnew. revert Hp. unfold store_path, transfer_store_new, new_auto_dump_db. unfold_m. unfold with_err.
  destruct (to_db_key id) as [key|e]; cbn [res_bind]; [|done]. intros [= Hp]. rewrite Hp.
  destruct (db_load_bin p w) as [[d|e] w1]; simpl in *; [intros [= <- <-]; eauto 10|].
  set (dir := join root TRANSFERS_DIR_NAME) in *.
  pose proof (create_dir_healthy dir w1 Hw1) as [Hok2 Hw2].
  destruct (db_create_dir_all dir w1) as [r2 w2] eqn:Hdir; apply create_dir_spec in Hdir as (_ & _ & Hd2).
  destruct r2 as [[]|]; [|discriminate Hok2]. simpl in *.
  destruct (new_bin_spec p) as [Hnew Hat].
  assert (parent p = dir) as Hpar.
  { rewrite <- Hp. apply parent_join. }
  pose proof (dump_healthy (db_new_bin p) w2 Hw2) as Hdump. rewrite Hat, Hpar in Hdump.
  destruct (Hdump (Hd2 eq_refl)) as [Hok3 Hw3].
  destruct (db_dump (db_new_bin p, w2)) as [r3 [d3 w3]] eqn:Hdump'.
  apply dump_spec in Hdump' as (_ & _ & _ & Hf3). destruct r3 as [[]|]; [|discriminate Hok3]. simpl in *.
  destruct (load_healthy p w3 Hw3) as [Hok4 Hw4]. rewrite Hf3, decide_True in Hok4 by done.
  destruct (db_load_bin p w3) as [[d4|] w4]; simpl in *; [|discriminate Hok4]. intros [= <- <-]. eauto 10.
Qed.

(** * Properties *)

(** C27: a store is an append-only list of events, as long as it has fewer
    than 2^64.  It reads back the events in the order they were inserted; an
    insertion appends or, on a database error, changes nothing, and it succeeds
    when the database works; and what was appended is there again when the store
    is reopened, provided that the database works then (an error of loading makes
    the code start an empty log). *)
Theorem store_refines_log st l e w r st' w' :
  is_log st l → Z.of_nat (length l) ≤ u64_max → try_insert e (st, w) = (r, (st', w')) →
  get_all st = l ∧ get_all st' = (if is_ok r then l ++ [e] else l) ∧
  (healthy w → is_Some (db_file w (db_at (ts_db st))) → r = Ok tt) ∧
  (r = Ok tt → healthy w' → ∀ id root, store_path id root = Ok (db_at (ts_db st)) →
     ∃ st2 w2, transfer_store_new id root w' = (Ok st2, w2) ∧ get_all st2 = l ++ [e]).
Proof.
  intros Hlog Hlen Hins. destruct (try_insert_log _ _ _ _ _ _ _ Hlog Hins) as (_ & _ & Hlog' & _ & Hfile & Hh).
  assert (log_fits l) by (unfold log_fits; lia).
  assert (log_fits (l ++ [e])) by (unfold log_fits; rewrite length_app; simpl; lia).
  split; [by apply get_all_log|]. split; [apply get_all_log; [done|by destruct r]|].
  split; [intros Hw Hf; apply Hh; [done|by apply file_dir]|].
  intros -> Hw' id root Hp. destruct (new_store_healthy id root _ w' Hp Hw') as (st2 & w2 & Hnew & _ & Hkeep).
  exists st2, w2. split; [done|].
  destruct (new_store_spec _ _ _ _ _ _ Hp Hnew) as (_ & _ & _ & _ & _ & _ & Hmap).
  rewrite Hfile, decide_True in Hkeep by done. rewrite Hkeep in Hmap by done.
  apply get_all_log; [|done]. unfold is_log. congruence.
Qed.
End transfer_store.

(** A database crate over files that never fail to be written; a load fails
    when the schedule says so. *)
Module ToyPickle.
Import ToyCrates.

Record ToyWorld (T : Type) : Type := mkToyWorld {
  tw_files : gmap path (gmap string T);
  tw_faults : list bool;
}.
Arguments mkToyWorld {T}.
Arguments tw_files {T}.
Arguments tw_faults {T}.

Section toy.
Context {T : Type}.

Definition tw_set (p : path) (m : gmap string T) (w : ToyWorld T) : ToyWorld T :=
  mkToyWorld (<[p := m]> (tw_files w)) (tw_faults w).
Definition toy_load (p : path) : M unit (ToyWorld T) (path * gmap string T) := λ w,
  let read w := match tw_files w !! p with Some m => (Ok (p, m), w) | None => (Err tt, w) end in
  match tw_faults w with
  | true :: l => (Err tt, mkToyWorld (tw_files w) l)
  | false :: l => read (mkToyWorld (tw_files w) l)
  | [] => read w
  end.
#[export] Instance toy_pickle : PickleCrate T := {|
  Db := path * gmap string T;
  DbWorld := ToyWorld T;
  db_load_bin := toy_load;
  db_new_bin p := (p, ∅);
  db_dump := λ '(d, w), (Ok tt, (d, tw_set d.1 d.2 w));
  db_get_all d := (map_to_list d.2).*1;
  db_get d k := d.2 !! k;
  db_exists d k := bool_decide (is_Some (d.2 !! k));
  db_total_keys d := size d.2;
  db_set k v := λ '(d, w), (Ok tt, ((d.1, <[k := v]> d.2), tw_set d.1 (<[k := v]> d.2) w));
  db_create_dir_all _ := ret tt;
  db_remove_file p := λ w,
    match tw_files w !! p with
    | Some _ => (Ok tt, mkToyWorld (delete p (tw_files w)) (tw_faults w))
    | None => (Err IoNotFound, w)
    end;
|}.

Lemma tw_set_file p m w q : tw_files (tw_set p m w) !! q = if decide (q = p) then Some m else tw_files w !! q.
Proof.
  simpl. case_decide as Hq; [subst; apply lookup_insert_eq|]. by apply lookup_insert_ne.
Qed.

#[export] Instance toy_pickle_laws : PickleLaws (T := T).
Proof.
  refine {|
    db_map d := (d : path * gmap string T).2; db_at d := (d : path * gmap string T).1;
    db_file w p := tw_files (w : ToyWorld T) !! p; db_dir _ _ := True;
    healthy w := tw_faults (w : ToyWorld T) = []; |}; try done; simpl.
  - intros p [f l] r w'. unfold toy_load. simpl. destruct l as [|[] l]; simpl.
    + destruct (f !! p) eqn:Hf; intros [= <- <-]; auto.
    + intros [= <- <-]. auto.
    + destruct (f !! p) eqn:Hf; intros [= <- <-]; auto.
  - intros [p m] w r d' w' [= <- <- <-]. repeat (split; [done|]). intros q. rewrite tw_set_file.
    apply decide_ext. simpl. tauto.
  - intros k v [p m] w r d' w' [= <- <- <-]. repeat (split; [done|]). intros q. rewrite tw_set_file.
    apply decide_ext. simpl. tauto.
  - by intros p w r w' [= <- <-].
  - intros p w r w'. destruct (tw_files w !! p) eqn:Hp; intros [= <- <-]; (split; [done|]); intros q; simpl.
    + rewrite lookup_delete. by destruct (decide (p = q)), (decide (true = true ∧ q = p)); naive_solver.
    + done.
  - intros p [f l]. simpl. intros ->. unfold toy_load. simpl. by destruct (f !! p).
Defined.
End toy.

#[export] Instance toy_name_serde : Serde XorName := countable_serde N.

Lemma append_inj_l (a b c : string) : a +:+ c = b +:+ c → a = b.
Proof.
  assert (∀ s t : string, String.length (s +:+ t) = (String.length s + String.length t)%nat) as Hlen.
  { induction s as [|x s IH]; intros t; [done|]. unfold String.app. simpl. f_equal. apply IH. }
  revert b. induction a as [|x a IH]; intros [|y b]; [done| | |].
  - intros H%(f_equal String.length). rewrite !Hlen in H. simpl in H. lia.
  - intros H%(f_equal String.length). rewrite !Hlen in H. simpl in H. lia.
  - unfold String.app. simpl. intros [= -> H]. f_equal. by apply IH.
Qed.

(** Different names have different files. *)
Lemma toy_store_path_inj (a b : XorName) root p : store_path a root = Ok p → store_path b root = Ok p → a = b.
Proof.
  unfold store_path, to_db_key, serialise, join. simpl. intros Ha Hb.
  assert (hex_enc (pos_bytes (encode (a : N))) = hex_enc (pos_bytes (encode (b : N)))) as Heq.
  { apply (append_inj_l _ _ DB_EXTENSION). rewrite <- Hb in Ha. injection Ha as Ha.
    by apply List.app_inj_tail in Ha as [_ ?]. }
  apply (f_equal hex_dec) in Heq. rewrite !hex_dec_enc in Heq. simplify_eq/=.
  apply (f_equal bytes_pos) in Heq. rewrite !bytes_pos_bytes in Heq. by apply (inj encode) in Heq.
Qed.
#[export] Instance toy_debug T : DebugT T := λ _, "event".
End ToyPickle.

Module Witness.
Import ToyCrates ToyPickle.

Definition root : path := ["root"].
Definition w0 : ToyWorld N := mkToyWorld ∅ [].
Definition file7 : path := default [] (res_ok (store_path (nm 7) root)).

(** A new store, with one event. *)
Definition store1 : TransferStore * ToyWorld N :=
  match transfer_store_new (T := N) (nm 7) root w0 with
  | (Ok st, w) => (try_insert 11%N (st, w)).2
  | (Err _, w) => (mkTransferStore ([], ∅) [], w)
  end.

Lemma store_refines_log_witness :
  get_all store1.1 = [11%N] ∧ get_all (try_insert 12%N store1).2.1 = [11%N; 12%N] ∧
  ∃ st2 w2, transfer_store_new (nm 7) root (try_insert 12%N store1).2.2 = (Ok st2, w2) ∧
            get_all st2 = [11%N; 12%N].
Proof.
  destruct (store_refines_log store1.1 [11%N] 12%N store1.2 (Ok tt) (try_insert 12%N store1).2.1
    (try_insert 12%N store1).2.2) as (H1 & H2 & _ & H3); [reflexivity|vm_compute; discriminate|reflexivity|].
  split; [exact H1|]. split; [exact H2|]. apply H3; reflexivity.
Defined.

(** A store whose file cannot be loaded once is replaced by an empty one:
    the events it had are gone from the disk. *)
Definition reopened_after_fault : result Error TransferStore * ToyWorld N :=
  transfer_store_new (T := N) (nm 7) root (mkToyWorld (tw_files store1.2) [true]).
Lemma failed_load_wipes_log :
  (size <$> tw_files store1.2 !! file7) = Some 1%nat ∧
  match reopened_after_fault with
  | (Ok st, w) => get_all st = [] ∧ (size <$> tw_files w !! file7) = Some 0%nat
  | (Err _, _) => False
  end.
Proof. split; [reflexivity|]. vm_compute. by split. Qed.
End Witness.
