(* ===== verification/Replicas.v ===== *)
(** [src/transfers/{replicas,replica_signing,get_replicas}.rs]: the replica of
    the section's wallets this elder keeps, one log of events per wallet.

    [sn_transfers] is a parameter: [WalletReplica] is rebuilt from the log at
    every operation, and says what is valid.  An operation runs under the lock
    of its wallet's store, so the state is the map of stores with the files
    under them.  A sum that overflows or random keys appear as in the other
    files: a [stop] result, and arguments. *)

From S2P Require Import Prelude Crates Messages Disk Toy Network Capacity RewardCalc TransferStore.

(** * sn_transfers *)

Class TransfersCrate `{MC : MessagingCrate} := {
  WalletReplica : Type;
  (** [WalletReplica::from_history(owner, id, key_index, peer_replicas, events)] *)
  wallet_from_history : OwnerType → BlsPublicKeyShare → nat → PublicKeySet → list ReplicaEvent →
                        result TransferErr WalletReplica;
  wallet_balance : WalletReplica → Token;
  wallet_validate : WalletReplica → SignedDebit → SignedCredit → result TransferErr unit;
  wallet_register : WalletReplica → TransferAgreementProof → result TransferErr (option TransferRegistered);
  wallet_receive_propagated : WalletReplica → CreditAgreementProof → result TransferErr (option TransferPropagated);
  wallet_apply : WalletReplica → ReplicaEvent → result TransferErr unit;
  wallet_credit_without_proof : WalletReplica → Credit → result TransferErr unit;
}.

Class TransfersLaws `{DO : DataOpsCrate} `{MC : !MessagingCrate} `{TC : !TransfersCrate} : Prop := {
  (** the event of a registration is of the registered transfer *)
  register_event : ∀ w p e, wallet_register w p = Ok (Some e) → tr_transfer_proof e = p;
  (** a transfer the history has registered is not registered again *)
  register_known : ∀ o i n s events w e p,
    wallet_from_history o i n s events = Ok w → EvTransferRegistered e ∈ events →
    tap_id (tr_transfer_proof e) = tap_id p → ∀ x, wallet_register w p ≠ Ok (Some x);
  (** a credit the history has is not new *)
  receive_propagated_known : ∀ o i n s events w e p,
    wallet_from_history o i n s events = Ok w → EvTransferPropagated e ∈ events →
    cap_id (tp_credit_proof e) = cap_id p → ∀ x, wallet_receive_propagated w p ≠ Ok (Some x);
  (** only a credit the history has is no change *)
  receive_propagated_none : ∀ o i n s events w p,
    wallet_from_history o i n s events = Ok w → wallet_receive_propagated w p = Ok None →
    ∃ e, EvTransferPropagated e ∈ events ∧ cap_id (tp_credit_proof e) = cap_id p;
  transfer_credit_recipient : ∀ t c, transfer_credit t = Ok c → credit_recipient c = transfer_to t;
}.

(** * Keeping the first of each key: [Itertools::unique_by] *)

Section unique_by.
Context {A K : Type} `{EqDecision K} (f : A → K).

Fixpoint unique_go (seen : list K) (l : list A) : list A :=
  match l with
  | [] => []
  | x :: l => if decide (f x ∈ seen) then unique_go seen l else x :: unique_go (f x :: seen) l
  end.
Definition unique_by (l : list A) : list A := unique_go [] l.

Lemma unique_go_spec seen l :
  NoDup (f <$> unique_go seen l) ∧ Forall (λ x, f x ∉ seen) (unique_go seen l) ∧
  unique_go seen l `sublist_of` l.
Proof.
  revert seen. induction l as [|x l IH]; intros seen; simpl; [repeat constructor|].
  case_decide as Hx.
  - destruct (IH seen) as (H1 & H2 & H3). split; [done|]. split; [done|]. by constructor.
  - destruct (IH (f x :: seen)) as (H1 & H2 & H3). split; [|split].
    + csimpl. constructor; [|done]. intros (y & Hy & Hin)%list_elem_of_fmap.
      rewrite Forall_forall in H2. apply (H2 y Hin). rewrite <- Hy. by left.
    + constructor; [done|]. eapply Forall_impl; [exact H2|]. intros y Hy Hin. apply Hy. by right.
    + by constructor.
Qed.

Lemma unique_by_NoDup l : NoDup (f <$> unique_by l).
Proof. apply (unique_go_spec [] l). Qed.

Lemma unique_by_sublist l : unique_by l `sublist_of` l.
Proof. apply (unique_go_spec [] l). Qed.

(** Elements whose keys are there already add nothing. *)
Lemma unique_by_app_known l1 l2 :
  (∀ x, x ∈ l2 → f x ∈ f <$> l1) → unique_by (l1 ++ l2) = unique_by l1.
Proof.
  unfold unique_by. intros Hl2.
  assert (∀ x, x ∈ l2 → f x ∈ ([] : list K) ++ (f <$> l1)) as H2 by done. clear Hl2. revert H2.
  generalize ([] : list K) as seen. induction l1 as [|y l1 IH]; intros seen H2; simpl.
  - rewrite app_nil_r in H2. induction l2 as [|x l2 IH2]; [done|]. simpl.
    rewrite decide_True by (apply H2; by left). apply IH2. intros z Hz. apply H2. by right.
  - destruct (decide (f y ∈ seen)) as [Hy|Hy]; [|f_equal]; apply IH; intros x Hx; specialize (H2 x Hx);
      csimpl in *; rewrite elem_of_app, elem_of_cons in H2; rewrite ?elem_of_cons, elem_of_app;
      destruct H2 as [?|[->|?]]; auto.
Qed.

Lemma unique_by_id l : NoDup (f <$> l) → unique_by l = l.
Proof.
  unfold unique_by. assert (∀ x, x ∈ l → f x ∉ ([] : list K)) as Hseen by (intros; apply not_elem_of_nil).
  revert Hseen. generalize ([] : list K) as seen.
  induction l as [|x l IH]; intros seen Hseen; csimpl; [done|]. intros [Hx Hl]%NoDup_cons.
  rewrite decide_False by (apply Hseen; by left). f_equal. apply IH; [|done].
  intros y Hy [Heq|Hin]%elem_of_cons; [|by apply (Hseen y); [right|]].
  apply Hx. rewrite <- Heq. by apply list_elem_of_fmap_2.
Qed.
End unique_by.

Section replicas.
Context `{DO : DataOpsCrate} `{MC : !MessagingCrate} `{EC : !EncodingCrate} `{MO : !MessagingOps}
        `{SN : !Serde XorName} `{SD : !Serde SignedDebit} `{SSC : !Serde SignedCredit}
        `{SCP : !Serde CreditAgreementProof}
        `{DBG : !DebugT ReplicaEvent} `{PC : !PickleCrate ReplicaEvent} `{TC : !TransfersCrate}.

(** * replica_signing.rs *)

(** The trait [ReplicaSigning]. *)
Record ReplicaSigning : Type := mkReplicaSigning {
  rs_replicas_pk_set : Result PublicKeySet;
  rs_sign_transfer : SignedTransfer → Result (SignatureShare * SignatureShare);
  rs_sign_validated_debit : SignedDebit → Result SignatureShare;
  rs_sign_validated_credit : SignedCredit → Result SignatureShare;
  rs_sign_credit_proof : CreditAgreementProof → Result SignatureShare;
  rs_known_replicas : XorName → BlsPublicKey → bool;
}.
(** [impl ReplicaSigning for ReplicaSigningImpl] *)
Definition sign_transfer (r : Routing) (signed_transfer : SignedTransfer) :
    Result (SignatureShare * SignatureShare) :=
  res_bind (sign_as_elder r (st_debit signed_transfer)) (λ replica_debit_sig,
  res_bind (sign_as_elder r (st_credit signed_transfer)) (λ replica_credit_sig,
  Ok (replica_debit_sig, replica_credit_sig))).
Definition known_replicas (r : Routing) (wallet_name : XorName) (section_key : BlsPublicKey) : bool :=
  match matching_section r wallet_name with
  | Ok key => bool_decide (key = section_key)
  | Err _ => false
  end.
Definition replica_signing_impl (r : Routing) : ReplicaSigning := {|
  rs_replicas_pk_set := our_public_key_set r;
  rs_sign_transfer := sign_transfer r;
  rs_sign_validated_debit debit := sign_as_elder r debit;
  rs_sign_validated_credit credit := sign_as_elder r credit;
  rs_sign_credit_proof proof := sign_as_elder r proof;
  rs_known_replicas := known_replicas r;
|}.

(** * replicas.rs *)

Record ReplicaInfo : Type := mkReplicaInfo {
  ri_id : BlsPublicKeyShare;
  ri_key_index : nat;
  ri_peer_replicas : PublicKeySet;
  (** the keys of the [SecuredLinkedList] *)
  ri_section_chain : list BlsPublicKey;
  ri_signing : ReplicaSigning;
}.

Record Replicas : Type := mkReplicas {
  root_dir : path;
  info : ReplicaInfo;
  stores : gmap PublicKey (TransferStore (T := ReplicaEvent));
}.
Definition set_stores (s : gmap PublicKey TransferStore) (R : Replicas) : Replicas :=
  mkReplicas (root_dir R) (info R) s.

Abbreviation World := (DbWorld (T := ReplicaEvent)).
Abbreviation RM A := (M Error (Replicas * World) A).

Definition load_wallet (R : Replicas) (store : TransferStore) (id : OwnerType) : Result WalletReplica :=
  let events := get_all store in
  map_err TransferE
    (wallet_from_history id (ri_id (info R)) (ri_key_index (info R)) (ri_peer_replicas (info R)) events).

Definition exists_in_chain (R : Replicas) (key : BlsPublicKey) : bool :=
  existsb (λ key_in_chain, bool_decide (key_in_chain = key)) (ri_section_chain (info R)).

(** The argument of [or_insert] is evaluated first: the store is opened on
    disk also when it is in the map. *)
Definition get_load_or_create_store (key : PublicKey) : RM TransferStore :=
  λ '(R, w),
    match transfer_store_new (name_of_pk key) (root_dir R) w with
    | (Err e, w') => (Err e, (R, w'))
    | (Ok new_store, w') =>
        match stores R !! key with
        | Some store => (Ok store, (R, w'))
        | None => (Ok new_store, (set_stores (<[key := new_store]> (stores R)) R, w'))
        end
    end.

(** [store.try_insert(event)?] on the store of a wallet. *)
Definition insert_event (key : PublicKey) (store : TransferStore) (event : ReplicaEvent) : RM unit :=
  λ '(R, w),
    let '(r, (store', w')) := try_insert event (store, w) in
    (r, (set_stores (<[key := store']> (stores R)) R, w')).

(** ** Queries *)

Definition get_credits (events : list ReplicaEvent) : list CreditAgreementProof :=
  unique_by cap_id
    (omap (λ e, match e with EvTransferPropagated e => Some (tp_credit_proof e) | _ => None end) events).

Definition get_debits (events : list ReplicaEvent) : list TransferAgreementProof :=
  let debits :=
    tr_transfer_proof <$>
      unique_by (λ e, tap_id (tr_transfer_proof e))
        (omap (λ e, match e with EvTransferRegistered e => Some e | _ => None end) events) in
  sort_by (cmp_on (λ t, debit_id_counter (tap_id t)) Z.compare) debits.

Definition history (R : Replicas) (key : PublicKey) : Result ActorHistory :=
  match stores R !! key with
  | None => Ok ActorHistory_empty
  | Some store =>
      let events := get_all store in
      match events with
      | [] => Ok ActorHistory_empty
      | _ => Ok (mkActorHistory (get_credits events) (get_debits events))
      end
  end.

Definition balance (R : Replicas) (key : PublicKey) : Result Token :=
  match stores R !! key with
  | None => Ok 0
  | Some store =>
      res_bind (load_wallet R store (Single key)) (λ wallet, Ok (wallet_balance wallet))
  end.

(** The outer result is the overflow of the sum. *)
Definition managed_amount (R : Replicas) : result stop (Result Token) :=
  foldl (λ acc key,
    res_bind acc (λ amount,
      match amount with
      | Err e => Ok (Err e)
      | Ok a => match balance R key with
                | Err e => Ok (Err e)
                | Ok b => res_bind (checked (checked_add a b)) (λ s, Ok (Ok s))
                end
      end)) (Ok (Ok 0)) (map_to_list (stores R)).*1.

Definition user_wallets (R : Replicas) : gmap PublicKey ActorHistory :=
  foldl (λ histories key,
    match history R key with
    | Ok h => <[key := h]> histories
    | Err _ => histories
    end) ∅ (map_to_list (stores R)).*1.

Definition all_events (R : Replicas) : Result (list ReplicaEvent) :=
  Ok (flat_map (λ '(_, store), get_all store) (map_to_list (stores R))).

Definition replicas_pk_set (R : Replicas) : PublicKeySet := ri_peer_replicas (info R).

(** ** Commands *)

Definition update_replica_info (i : ReplicaInfo) (R : Replicas) : Replicas :=
  mkReplicas (root_dir R) i (stores R).

(** The removal of one file; its error is only logged. *)
Definition delete_store (store : TransferStore (T := ReplicaEvent)) : RM unit :=
  λ '(R, w), let '(_, w') := ts_delete store w in (Ok tt, (R, w')).

Definition keep_keys_of (prefix : Prefix) : RM unit :=
  let! s := get in
  let R := s.1 in
  let gone := filter (λ '(key, _), prefix_matches prefix (name_of_pk key) = false) (map_to_list (stores R)) in
  for_each gone (λ '(_, store), delete_store store) ;;;
  modify (λ '(R, w), (set_stores (foldl (λ m key, delete key m) (stores R) gone.*1) R, w)).

(** Step 1 *)
Definition validate (signed_transfer : SignedTransfer) : RM TransferValidated :=
  let! s := get in
  let R := s.1 in
  let key := st_sender signed_transfer in
  match stores R !! key with
  | None => throw (TransferE TeNoSuchSender)
  | Some store =>
      let! wallet := lift (load_wallet R store (Single key)) in
      lift (map_err TransferE (wallet_validate wallet (st_debit signed_transfer) (st_credit signed_transfer))) ;;;
      let! sigs := lift (rs_sign_transfer (ri_signing (info R)) signed_transfer) in
      let event := mkTransferValidated (st_credit signed_transfer) (st_debit signed_transfer)
                     sigs.1 sigs.2 (ri_peer_replicas (info R)) in
      insert_event key store (EvTransferValidated event) ;;;
      lift (map_err TransferE (wallet_apply wallet (EvTransferValidated event))) ;;;
      ret event
  end.

(** Step 2 *)
Definition register (transfer_proof : TransferAgreementProof) : RM TransferRegistered :=
  let! s := get in
  let R := s.1 in
  let key := tap_sender transfer_proof in
  if negb (exists_in_chain R (pks_public_key (tap_debiting_replicas_keys transfer_proof)))
  then throw (TransferE TeSectionKeyNeverExisted)
  else match stores R !! key with
  | None => throw (TransferE TeNoSuchSender)
  | Some store =>
      let! wallet := lift (load_wallet R store (Single key)) in
      let! registered := lift (map_err TransferE (wallet_register wallet transfer_proof)) in
      match registered with
      | None => throw TransferAlreadyRegistered
      | Some event =>
          insert_event key store (EvTransferRegistered event) ;;;
          lift (map_err TransferE (wallet_apply wallet (EvTransferRegistered event))) ;;;
          ret event
      end
  end.

(** Step 3 *)
Definition receive_propagated (_debiting_replicas_name : XorName) (credit_proof : CreditAgreementProof) :
    RM TransferPropagated :=
  let key := cap_recipient credit_proof in
  let! store := get_load_or_create_store key in
  let! s := get in
  let R := s.1 in
  let! wallet := lift (load_wallet R store (Single key)) in
  match wallet_receive_propagated wallet credit_proof with
  | Ok propagation =>
      let event := mkTransferPropagated credit_proof in
      match propagation with
      | Some _ =>
          insert_event key store (EvTransferPropagated event) ;;;
          lift (map_err TransferE (wallet_apply wallet (EvTransferPropagated event)))
      | None => ret tt
      end ;;;
      ret event
  | Err _ => throw (InvalidPropagatedTransfer credit_proof)
  end.

(** Insert an event of a received history. *)
Definition setup_event (id : PublicKey) (e : ReplicaEvent) : RM unit :=
  let! store := get_load_or_create_store id in
  insert_event id store e.

Definition valid_owners (node : PublicKey) (wallet : ActorHistory) : bool :=
  forallb (λ c, bool_decide (node = cap_recipient c)) (ah_credits wallet) &&
  forallb (λ d, bool_decide (node = tap_sender d)) (ah_debits wallet).

(** The body of the loop of [setup]. *)
Definition setup_wallet (node : PublicKey) (wallet : ActorHistory) : RM unit :=
  if negb (valid_owners node wallet)
  then throw (InvalidOperation "ActorHistory must contain only transfers of a single actor.")
  else
    for_each (ah_credits wallet) (λ credit_proof,
      setup_event (cap_recipient credit_proof) (EvTransferPropagated (mkTransferPropagated credit_proof))) ;;;
    for_each (ah_debits wallet) (λ transfer_proof,
      setup_event (tap_sender transfer_proof) (EvTransferRegistered (mkTransferRegistered transfer_proof))).

Definition setup (user_wallets : gmap PublicKey ActorHistory) : RM unit :=
  if bool_decide (size user_wallets = 0%nat) then ret tt else
  for_each (btree_entries pk_cmp user_wallets) (λ '(node, wallet), setup_wallet node wallet).

Definition merge (user_wallets : gmap PublicKey ActorHistory) : RM unit := setup user_wallets.

Definition replicas_new (root_dir : path) (info : ReplicaInfo) (user_wallets : gmap PublicKey ActorHistory)
    (w : World) : Result Replicas * World :=
  let '(r, (R, w')) := setup user_wallets (mkReplicas root_dir info ∅, w) in
  (match r with Ok _ => Ok R | Err e => Err e end, w').

(** [credit_without_proof], of the simulated payouts: the dummy keys and
    signature are random. *)
Definition credit_without_proof (replica_keys : PublicKeySet) (sig : BlsSignature) (transfer : Transfer) :
    RM NodeDuty :=
  let debit := transfer_debit transfer in
  let! credit := lift (map_err NetworkData (transfer_credit transfer)) in
  let key := transfer_to transfer in
  let! store := get_load_or_create_store key in
  let! s := get in
  let R := s.1 in
  let! wallet := lift (load_wallet R store (Single key)) in
  lift (map_err TransferE (wallet_credit_without_proof wallet credit)) ;;;
  let transfer_proof := mkTransferAgreementProof
    (mkSignedCredit credit (BlsSig sig)) (mkSignedDebit debit (BlsSig sig)) (BlsSig sig) (BlsSig sig)
    replica_keys in
  insert_event key store (EvTransferPropagated (mkTransferPropagated (tap_credit_proof transfer_proof))) ;;;
  ret NoOp.

(** * get_replicas.rs *)

(** [section_chain] is the answer of the network to its last question. *)
Definition replica_info (r : Routing) (section_chain : list BlsPublicKey) : Result ReplicaInfo :=
  res_bind (our_public_key_share r) (λ share,
  res_bind (ok_or (pk_bls_share share) ProvidedPkIsNotBlsShare) (λ id,
  res_bind (our_index r) (λ key_index,
  res_bind (our_public_key_set r) (λ peer_replicas,
  Ok (mkReplicaInfo id key_index peer_replicas section_chain (replica_signing_impl r)))))).

Definition transfer_replicas (root_dir : path) (r : Routing) (section_chain : list BlsPublicKey)
    (user_wallets : gmap PublicKey ActorHistory) (w : World) : Result Replicas * World :=
  match replica_info r section_chain with
  | Err e => (Err e, w)
  | Ok info => replicas_new root_dir info user_wallets w
  end.

(** * Invariant *)

Context `{PL : !PickleLaws (T := ReplicaEvent)} `{TL : !TransfersLaws}.

(** The wallet an event belongs to. *)
Definition event_wallet (e : ReplicaEvent) : PublicKey :=
  match e with
  | EvTransferValidated v => debit_sender (sd_debit (tv_signed_debit v))
  | EvTransferRegistered r => tap_sender (tr_transfer_proof r)
  | EvTransferPropagated p => cap_recipient (tp_credit_proof p)
  end.
Definition own_log (k : PublicKey) (m : gmap string ReplicaEvent) : Prop :=
  ∃ l, m = log_map l ∧ Forall (λ e, event_wallet e = k) l.

(** Every store is on the file of its wallet, and stores and files hold logs
    of events of their wallet. *)
Definition replicas_inv (s : Replicas * World) : Prop :=
  (∀ k st, stores s.1 !! k = Some st →
     store_path (name_of_pk k) (root_dir s.1) = Ok (db_at (ts_db st)) ∧ own_log k (db_map (ts_db st))) ∧
  (∀ k p m, store_path (name_of_pk k) (root_dir s.1) = Ok p → db_file s.2 p = Some m → own_log k m).

(** No two wallets have the same file. *)
Definition distinct_paths (root : path) : Prop :=
  ∀ k k' p, store_path (name_of_pk k) root = Ok p → store_path (name_of_pk k') root = Ok p → k = k'.

(** What the commands do to a wallet is to open its store and to add an event of
    that wallet: a condition that these keep is kept by the commands. *)
Section keeps.
Context (I : Replicas * World → Prop) (k : PublicKey).
Context (Hget : hoare I (get_load_or_create_store k) (λ st s, I s ∧ stores s.1 !! k = Some st) I).
Context (Hins : ∀ st e, event_wallet e = k →
  hoare (λ s, I s ∧ stores s.1 !! k = Some st) (insert_event k st e) (λ _, I) I).

Lemma validate_keeps t : st_sender t = k → hoare I (validate t) (λ _, I) I.
Proof.
  clear Hget. intros <-. unfold validate. apply hoare_bind_get. intros s0 Hs0.
  destruct (stores s0.1 !! st_sender t) as [st|] eqn:Hk; [|apply hoare_throw; by intros ? ->].
  apply hoare_bind_lift; [intros wallet _|by intros ? ->].
  apply hoare_bind_lift; [intros _ _|by intros ? ->].
  apply hoare_bind_lift; [intros sigs _|by intros ? ->].
  eapply hoare_bind; [eapply hoare_weaken; [by apply Hins|by intros s ->|done]|].
  intros []. apply hoare_bind_lift; [intros _ _|done]. by apply hoare_ret.
Qed.

Lemma register_keeps p : tap_sender p = k → hoare I (register p) (λ _, I) I.
Proof.
  clear Hget. intros <-. unfold register. apply hoare_bind_get. intros s0 Hs0.
  destruct (negb _); [apply hoare_throw; by intros ? ->|].
  destruct (stores s0.1 !! tap_sender p) as [st|] eqn:Hk; [|apply hoare_throw; by intros ? ->].
  apply hoare_bind_lift; [intros wallet _|by intros ? ->].
  apply hoare_bind_lift; [intros [e|] He|by intros ? ->]; [|apply hoare_throw; by intros ? ->].
  assert (tr_transfer_proof e = p) as Hp.
  { destruct (wallet_register wallet p) eqn:Hreg; simplify_eq/=. by eapply register_event. }
  eapply hoare_bind; [eapply hoare_weaken; [apply Hins|by intros s ->|done]|].
  { simpl. by rewrite Hp. }
  intros []. apply hoare_bind_lift; [intros _ _|done]. by apply hoare_ret.
Qed.

Lemma receive_propagated_keeps n p : cap_recipient p = k → hoare I (receive_propagated n p) (λ _, I) I.
Proof.
  intros <-. unfold receive_propagated. eapply hoare_bind; [apply Hget|]. intros st.
  apply hoare_bind_get. intros s0 [Hs0 Hk].
  apply hoare_bind_lift; [intros wallet _|by intros ? ->].
  destruct (wallet_receive_propagated wallet p) as [[x|]|e]; [| |apply hoare_throw; by intros ? ->].
  - apply (hoare_bind _ _ _ (λ _, I)); [|intros []; by apply hoare_ret].
    eapply hoare_bind; [eapply hoare_weaken; [by apply Hins|by intros s ->|done]|].
    intros []. by apply hoare_lift.
  - apply (hoare_bind _ _ _ (λ _, I)); [|intros []; by apply hoare_ret]. apply hoare_ret. by intros s ->.
Qed.
End keeps.

Section inv.
Context (root : path) (Hdistinct : distinct_paths root).

Definition Inv (s : Replicas * World) : Prop := root_dir s.1 = root ∧ replicas_inv s.

Lemma own_log_nil k : own_log k ∅.
Proof. by exists []. Qed.

Lemma get_store_hoare k :
  hoare Inv (get_load_or_create_store k) (λ st s, Inv s ∧ stores s.1 !! k = Some st) Inv.
Proof.
  intros [R w] [Hroot [Hst Hf]]. unfold get_load_or_create_store. cbn [fst snd] in *.
  destruct (transfer_store_new (name_of_pk k) (root_dir R) w) as [r w1] eqn:Hnew.
  destruct (store_path (name_of_pk k) (root_dir R)) as [p|e] eqn:Hp.
  2:{ revert Hnew Hp. unfold transfer_store_new, store_path. unfold_m.
      destruct (to_db_key (name_of_pk k)); [done|]. intros [= <- <-] _. by split. }
  destruct (new_store_spec _ _ _ _ _ _ Hp Hnew) as (_ & Hother & _ & Hown & Hr).
  assert (∀ k' p' m, store_path (name_of_pk k') (root_dir R) = Ok p' → db_file w1 p' = Some m →
    own_log k' m) as Hf1.
  { intros k' p' m Hp' Hm. destruct (decide (p' = p)) as [->|Hne].
    - destruct Hown as [Hown|Hown]; rewrite Hown in Hm; [by eapply Hf|].
      simplify_eq. apply own_log_nil.
    - rewrite Hother in Hm by done. by eapply Hf. }
  destruct r as [st|e]; [|by split].
  destruct (stores R !! k) as [st0|] eqn:Hk; [by split|].
  destruct Hr as (Hpath & Hat & Hfile). split; [|apply lookup_insert_eq]. split; [done|]. split; [|done].
  intros k' st'. simpl. rewrite lookup_insert_Some. intros [[<- <-]|[_ Hk']]; [|by apply Hst].
  rewrite Hat. split; [done|]. by eapply Hf1.
Qed.

Lemma insert_event_hoare k st e :
  event_wallet e = k →
  hoare (λ s, Inv s ∧ stores s.1 !! k = Some st) (insert_event k st e) (λ _, Inv) Inv.
Proof.
  intros Hown [R w] [[Hroot [Hst Hf]] Hk]. unfold insert_event. cbn [fst snd] in *.
  destruct (Hst k st Hk) as [Hpath (l & Hl & Hlown)].
  destruct (try_insert e (st, w)) as [r [st' w']] eqn:Hins.
  destruct (try_insert_log _ _ _ _ _ _ _ Hl Hins) as (_ & Hat & Hlog & _ & Hfile & _).
  assert (Forall (λ e, event_wallet e = k) (l ++ [e])) as Hall.
  { apply Forall_app. split; [done|]. by constructor. }
  assert (Inv (set_stores (<[k:=st']> (stores R)) R, w')) as Hinv.
  { split; [done|]. split; simpl.
    - intros k' st2. rewrite lookup_insert_Some. intros [[<- <-]|[_ Hk']]; [|by apply Hst].
      rewrite Hat. split; [done|]. eexists. split; [exact Hlog|]. by destruct (is_ok r).
    - intros k' p m Hp. rewrite Hfile. destruct (decide _) as [[_ ->]|_]; [|by apply Hf].
      intros [= <-]. rewrite (Hdistinct k' k (db_at (ts_db st))).
      + by exists (l ++ [e]).
      + by rewrite <- Hroot.
      + by rewrite <- Hroot. }
  destruct r; exact Hinv.
Qed.

Lemma validate_hoare t : hoare Inv (validate t) (λ _, Inv) Inv.
Proof. by eapply validate_keeps; [intros st e He; apply insert_event_hoare|]. Qed.

Lemma register_hoare p : hoare Inv (register p) (λ _, Inv) Inv.
Proof. by eapply register_keeps; [intros st e He; apply insert_event_hoare|]. Qed.

Lemma receive_propagated_hoare n p : hoare Inv (receive_propagated n p) (λ _, Inv) Inv.
Proof. eapply receive_propagated_keeps; [apply get_store_hoare|intros st e He; by apply insert_event_hoare|done]. Qed.

Lemma credit_without_proof_hoare keys sig t : hoare Inv (credit_without_proof keys sig t) (λ _, Inv) Inv.
Proof.
  unfold credit_without_proof. apply hoare_bind_lift; [intros credit Hc|done].
  eapply hoare_bind; [apply get_store_hoare|]. intros st.
  apply hoare_bind_get. intros s0 [Hs0 Hk].
  apply hoare_bind_lift; [intros wallet _|by intros ? ->].
  apply hoare_bind_lift; [intros _ _|by intros ? ->].
  eapply hoare_bind; [eapply hoare_weaken; [apply insert_event_hoare|by intros s ->|done]|].
  { destruct (transfer_credit t) eqn:Ht; simplify_eq/=. by eapply transfer_credit_recipient. }
  intros []. by apply hoare_ret.
Qed.

Lemma setup_event_hoare k e : event_wallet e = k → hoare Inv (setup_event k e) (λ _, Inv) Inv.
Proof.
  intros He. unfold setup_event. eapply hoare_bind; [apply get_store_hoare|]. intros st.
  by apply insert_event_hoare.
Qed.

Lemma setup_hoare u : hoare Inv (setup u) (λ _, Inv) Inv.
Proof.
  unfold setup. destruct (bool_decide _); [by apply hoare_ret|]. apply hoare_for_each. intros [node h] _.
  unfold setup_wallet.
  destruct (negb _); [by apply hoare_throw|].
  apply (hoare_bind _ _ _ (λ _, Inv)); [|intros []]; apply hoare_for_each; intros x _; by apply setup_event_hoare.
Qed.

Lemma keep_keys_hoare prefix : hoare Inv (keep_keys_of prefix) (λ _, Inv) Inv.
Proof.
  unfold keep_keys_of. apply hoare_bind_get. intros s0 Hs0.
  apply (hoare_weaken _ Inv _ _ (λ _, Inv)); [|by intros s ->|done].
  eapply hoare_bind; [apply hoare_for_each|intros []].
  - intros [k st] _ [R w] [Hroot [Hst Hf]]. unfold delete_store, ts_delete, with_err. cbn [fst snd] in *.
    destruct (db_remove_file (ts_db_path st) w) as [r w'] eqn:Hrm. apply remove_file_spec in Hrm as [_ Hrm].
    split; [done|]. split; [done|]. intros k' p m Hp. simpl. rewrite Hrm.
    destruct (decide _); [done|]. by apply Hf.
  - intros [R w] [Hroot [Hst Hf]]. simpl in *. split; [done|]. split; [|done]. simpl.
    intros k st Hk. apply Hst. revert Hk. generalize (stores R).
    induction (filter _ (map_to_list (stores s0.1))).*1 as [|x l IH]; intros m; cbn [foldl]; [done|].
    intros Hk. apply IH in Hk. by apply lookup_delete_Some in Hk as [_ ?].
Qed.
End inv.

(** * The commands of the replica *)

Inductive replica_step : Replicas * World → Replicas * World → Prop :=
| rs_validate t s r s' : validate t s = (r, s') → replica_step s s'
| rs_register p s r s' : register p s = (r, s') → replica_step s s'
| rs_propagated n p s r s' : receive_propagated n p s = (r, s') → replica_step s s'
| rs_payout keys sig t s r s' : credit_without_proof keys sig t s = (r, s') → replica_step s s'
| rs_merge u s r s' : merge u s = (r, s') → replica_step s s'
| rs_keep prefix s r s' : keep_keys_of prefix s = (r, s') → replica_step s s'
| rs_info i R w : replica_step (R, w) (update_replica_info i R, w).

Lemma replica_step_inv root s s' : distinct_paths root → Inv root s → replica_step s s' → Inv root s'.
Proof.
  intros Hd Hs Hstep. destruct Hstep as [? ? ? ? Hop|? ? ? ? Hop|? ? ? ? ? Hop|? ? ? ? ? ? Hop|? ? ? ? Hop|? ? ? ? Hop|].
  - apply (hoare_run _ _ _ _ _ _ _ (validate_hoare root Hd _)) in Hop; [by case_match|done].
  - apply (hoare_run _ _ _ _ _ _ _ (register_hoare root Hd _)) in Hop; [by case_match|done].
  - apply (hoare_run _ _ _ _ _ _ _ (receive_propagated_hoare root Hd _ _)) in Hop; [by case_match|done].
  - apply (hoare_run _ _ _ _ _ _ _ (credit_without_proof_hoare root Hd _ _ _)) in Hop; [by case_match|done].
  - apply (hoare_run _ _ _ _ _ _ _ (setup_hoare root Hd _)) in Hop; [by case_match|done].
  - apply (hoare_run _ _ _ _ _ _ _ (keep_keys_hoare root _)) in Hop; [by case_match|done].
  - destruct Hs as [? [? ?]]. by split; [|split].
Qed.

(** C17: whatever commands a replica runs and whatever fails on the disk,
    every wallet's store is a gapless log in the wallet's own file, and the
    log holds only that wallet's events: credits to it, debits from it.  The
    file names of different wallets are taken to differ, and no file to be
    there at the start. *)
Theorem wallet_logs_are_own root_dir_ info_ w s :
  distinct_paths root_dir_ →
  (∀ k p, store_path (name_of_pk k) root_dir_ = Ok p → db_file w p = None) →
  rtc replica_step (mkReplicas root_dir_ info_ ∅, w) s →
  replicas_inv s.
Proof.
  intros Hd Hw Hsteps. assert (Inv root_dir_ s) as [_ Hs]; [|exact Hs].
  eapply (rtc_ind_r (Inv root_dir_)); [| |exact Hsteps].
  - split; [done|]. split; simpl; [done|]. intros k p m Hp. by rewrite (Hw k p Hp).
  - intros s1 s2 _ Hstep Hs1. by eapply replica_step_inv.
Qed.

(** * The commands append to one log *)

(** The log of a wallet: of its store, or empty when there is neither a
    store nor events on its file. *)
Definition wallet_log (s : Replicas * World) (k : PublicKey) (l : list ReplicaEvent) : Prop :=
  match stores s.1 !! k with
  | Some st => is_log st l
  | None => l = [] ∧ ∀ p m, store_path (name_of_pk k) (root_dir s.1) = Ok p → db_file s.2 p = Some m → m = ∅
  end.

Definition others_same (k : PublicKey) (s s' : Replicas * World) : Prop :=
  root_dir s'.1 = root_dir s.1 ∧ ∀ k', k' ≠ k → stores s'.1 !! k' = stores s.1 !! k'.

Lemma others_same_trans k s1 s2 s3 : others_same k s1 s2 → others_same k s2 s3 → others_same k s1 s3.
Proof.
  intros [Hr1 H1] [Hr2 H2]. split; [congruence|]. intros k' Hk'. by rewrite H2, H1.
Qed.

Lemma get_store_log k s l r s' :
  wallet_log s k l → get_load_or_create_store k s = (r, s') →
  others_same k s s' ∧ info s'.1 = info s.1 ∧ wallet_log s' k l ∧
  match r with Ok st => stores s'.1 !! k = Some st ∧ is_log st l | Err _ => True end.
Proof.
  destruct s as [R w]. unfold wallet_log, get_load_or_create_store. cbn [fst snd]. intros Hl.
  destruct (transfer_store_new (name_of_pk k) (root_dir R) w) as [r1 w1] eqn:Hnew.
  destruct (store_path (name_of_pk k) (root_dir R)) as [p|e] eqn:Hp.
  2:{ assert (r1 = Err e ∧ w1 = w) as [-> ->].
      { revert Hnew Hp. unfold transfer_store_new, store_path. unfold_m.
        destruct (to_db_key (name_of_pk k)); [done|]. by intros [= <- <-] [= <-]. }
      intros [= <- <-]. split; [done|]. split; [done|]. split; [|done].
      cbn [fst snd]. by rewrite Hp. }
  destruct (new_store_spec _ _ _ _ _ _ Hp Hnew) as (_ & _ & _ & Hown & Hr).
  destruct (stores R !! k) as [st0|] eqn:Hk.
  - destruct r1; intros [= <- <-]; cbn [fst snd]; rewrite Hk; done.
  - destruct Hl as [-> Hfile]. assert (∀ m, db_file w1 p = Some m → m = ∅) as Hempty.
    { intros m Hm. destruct Hown as [Hown|Hown]; rewrite Hown in Hm; [by eapply Hfile|congruence]. }
    destruct r1 as [st|e]; intros [= <- <-]; cbn [fst snd set_stores stores].
    + destruct Hr as (_ & _ & Hr). rewrite lookup_insert_eq.
      assert (is_log st []) by (by apply Hempty in Hr).
      split; [|done]. split; [done|]. intros k' Hk'. by apply lookup_insert_ne.
    + rewrite Hk. split; [done|]. split; [done|]. split; [|done]. split; [done|].
      intros p' m Hp' Hm. apply Hempty. congruence.
Qed.

Lemma insert_event_log k st e s l r s' :
  is_log st l → insert_event k st e s = (r, s') →
  others_same k s s' ∧ wallet_log s' k (if is_ok r then l ++ [e] else l).
Proof.
  destruct s as [R w]. intros Hl. unfold insert_event. destruct (try_insert e (st, w)) as [r1 [st1 w1]] eqn:Hins.
  intros [= <- <-]. apply (try_insert_log _ l) in Hins as (_ & _ & Hlog & _); [|done].
  unfold wallet_log, others_same. cbn [fst set_stores stores]. rewrite lookup_insert_eq. split; [|done].
  split; [done|]. intros k' Hk'. by apply lookup_insert_ne.
Qed.

Inductive ReplicaCmd : Type :=
| CmdValidate (t : SignedTransfer)
| CmdRegister (p : TransferAgreementProof)
| CmdPropagate (n : XorName) (p : CreditAgreementProof).
Definition cmd_wallet (c : ReplicaCmd) : PublicKey :=
  match c with
  | CmdValidate t => st_sender t
  | CmdRegister p => tap_sender p
  | CmdPropagate _ p => cap_recipient p
  end.
Definition run_cmd (c : ReplicaCmd) : RM ReplicaEvent :=
  match c with
  | CmdValidate t => let! e := validate t in ret (EvTransferValidated e)
  | CmdRegister p => let! e := register p in ret (EvTransferRegistered e)
  | CmdPropagate n p => let! e := receive_propagated n p in ret (EvTransferPropagated e)
  end.
(** The event that records a command. *)
Definition cmd_event (c : ReplicaCmd) (e : ReplicaEvent) : Prop :=
  match c with
  | CmdValidate t => ∃ ds cs keys, e = EvTransferValidated (mkTransferValidated (st_credit t) (st_debit t) ds cs keys)
  | CmdRegister p => e = EvTransferRegistered (mkTransferRegistered p)
  | CmdPropagate _ p => e = EvTransferPropagated (mkTransferPropagated p)
  end.

(** The log has the credit of [p]. *)
Definition credited (p : CreditAgreementProof) (l : list ReplicaEvent) : Prop :=
  ∃ e, EvTransferPropagated e ∈ l ∧ cap_id (tp_credit_proof e) = cap_id p.

(** What a command leaves. *)
Definition cmd_post (c : ReplicaCmd) (l : list ReplicaEvent) (r : Result ReplicaEvent) (s s' : Replicas * World) : Prop :=
  others_same (cmd_wallet c) s s' ∧
  match r with
  | Ok e =>
      cmd_event c e ∧
      (wallet_log s' (cmd_wallet c) (l ++ [e]) ∨
       wallet_log s' (cmd_wallet c) l ∧ match c with CmdPropagate _ p => credited p l | _ => False end)
  | Err _ =>
      wallet_log s' (cmd_wallet c) l ∨ ∃ e, cmd_event c e ∧ wallet_log s' (cmd_wallet c) (l ++ [e])
  end.

Lemma cmd_post_unchanged c l e s : wallet_log s (cmd_wallet c) l → cmd_post c l (Err e) s s.
Proof. intros Hl. split; [by split|]. by left. Qed.

(** The store is written, then the wallet in memory: the second may refuse. *)
Lemma cmd_post_insert c l st ev (applied : Result unit) s0 s ri s1 :
  others_same (cmd_wallet c) s0 s → is_log st l → cmd_event c ev →
  insert_event (cmd_wallet c) st ev s = (ri, s1) →
  cmd_post c l (res_bind ri (λ _, res_bind applied (λ _, Ok ev))) s0 s1.
Proof.
  intros Hsame Hl Hev Hins. apply (insert_event_log _ _ _ _ l) in Hins as [Hsame1 Hlog]; [|done].
  split; [by eapply others_same_trans|].
  destruct ri as [[]|e]; [destruct applied as [[]|e]|]; simpl in *; eauto.
Qed.

(** The store of a wallet that has one. *)
Lemma wallet_log_store s k l st : wallet_log s k l → stores s.1 !! k = Some st → is_log st l.
Proof. unfold wallet_log. intros Hl Hst. by rewrite Hst in Hl. Qed.

Lemma validate_post t s l r s' :
  wallet_log s (st_sender t) l → run_cmd (CmdValidate t) s = (r, s') → cmd_post (CmdValidate t) l r s s'.
Proof.
  intros Hl. unfold run_cmd, validate. unfold bind, get, ret, throw, lift.
  destruct (stores s.1 !! st_sender t) as [st|] eqn:Hst; [|intros [= <- <-]; by apply cmd_post_unchanged].
  destruct (load_wallet _ _ _) as [wallet|]; [|intros [= <- <-]; by apply cmd_post_unchanged].
  destruct (map_err _ (wallet_validate _ _ _)); [|intros [= <- <-]; by apply cmd_post_unchanged].
  destruct (rs_sign_transfer _ _) as [[ds cs]|]; [|intros [= <- <-]; by apply cmd_post_unchanged].
  destruct (insert_event _ _ _ s) as [ri s1] eqn:Hins.
  pose proof (λ a He, cmd_post_insert (CmdValidate t) l st _ a s s ri s1 (conj eq_refl (λ _ _, eq_refl))
    (wallet_log_store _ _ _ _ Hl Hst) He Hins) as Hpost.
  destruct ri as [[]|e]; [|intros [= <- <-]; apply (Hpost (Ok tt)); simpl; eauto].
  destruct (map_err TransferE (wallet_apply _ _)) as [[]|e]; intros [= <- <-].
  - apply (Hpost (Ok tt)). simpl. eauto.
  - apply (Hpost (Err e)). simpl. eauto.
Qed.

Lemma register_post p s l r s' :
  wallet_log s (tap_sender p) l → run_cmd (CmdRegister p) s = (r, s') → cmd_post (CmdRegister p) l r s s'.
Proof.
  intros Hl. unfold run_cmd, register. unfold bind, get, ret, throw, lift.
  destruct (negb _); [intros [= <- <-]; by apply cmd_post_unchanged|].
  destruct (stores s.1 !! tap_sender p) as [st|] eqn:Hst; [|intros [= <- <-]; by apply cmd_post_unchanged].
  destruct (load_wallet _ _ _) as [wallet|]; [|intros [= <- <-]; by apply cmd_post_unchanged].
  destruct (wallet_register wallet p) as [[ev|]|] eqn:Hreg; simpl;
    [|intros [= <- <-]; by apply cmd_post_unchanged|intros [= <- <-]; by apply cmd_post_unchanged].
  assert (cmd_event (CmdRegister p) (EvTransferRegistered ev)) as Hev.
  { apply register_event in Hreg. destruct ev. by simplify_eq/=. }
  destruct (insert_event _ _ _ s) as [ri s1] eqn:Hins.
  pose proof (λ a, cmd_post_insert (CmdRegister p) l st _ a s s ri s1 (conj eq_refl (λ _ _, eq_refl))
    (wallet_log_store _ _ _ _ Hl Hst) Hev Hins) as Hpost.
  destruct ri as [[]|e]; [|intros [= <- <-]; apply (Hpost (Ok tt))].
  destruct (map_err TransferE (wallet_apply _ _)) as [[]|e]; intros [= <- <-].
  - apply (Hpost (Ok tt)).
  - apply (Hpost (Err e)).
Qed.

Lemma propagate_post n p s l r s' :
  wallet_log s (cap_recipient p) l → run_cmd (CmdPropagate n p) s = (r, s') → cmd_post (CmdPropagate n p) l r s s'.
Proof.
  intros Hl. unfold run_cmd, receive_propagated. unfold bind, get, ret, throw, lift.
  destruct (get_load_or_create_store (cap_recipient p) s) as [[st|e] s1] eqn:Hget;
    apply (get_store_log _ _ l) in Hget as (Hsame & _ & Hl1 & Hst); try done.
  2:{ intros [= <- <-]. split; [done|]. by left. }
  unfold load_wallet. destruct (wallet_from_history _ _ _ _ _) as [wallet|] eqn:Hw; [|intros [= <- <-]; split; [done|]; by left].
  cbn [map_err]. destruct (wallet_receive_propagated wallet p) as [[x|]|] eqn:Hrec; simpl;
    [| |intros [= <- <-]; split; [done|]; by left].
  2:{ intros [= <- <-]. split; [done|]. split; [done|]. right. split; [done|].
      destruct (receive_propagated_none _ _ _ _ _ _ _ Hw Hrec) as (e & He & Hid). exists e. split; [|done].
      apply (get_all_elem st l); [apply Hst|exact He]. }
  destruct (insert_event _ _ _ s1) as [ri s2] eqn:Hins.
  pose proof (λ a, cmd_post_insert (CmdPropagate n p) l st _ a s s1 ri s2 Hsame (proj2 Hst) eq_refl Hins) as Hpost.
  destruct ri as [[]|e]; [|intros [= <- <-]; apply (Hpost (Ok tt))].
  destruct (map_err TransferE (wallet_apply _ _)) as [[]|e]; intros [= <- <-].
  - apply (Hpost (Ok tt)).
  - apply (Hpost (Err e)).
Qed.

(** C18: a validation, registration or propagation touches the log of one
    wallet only, and only by appending the event that records it; when it
    returns an event the event was appended, but for a propagated credit that
    was in the log already (by its id), which leaves the log as it was; and on
    an error nothing but that event was added. *)
Theorem replica_command_appends c s r s' l :
  wallet_log s (cmd_wallet c) l → run_cmd c s = (r, s') →
  (∀ k, k ≠ cmd_wallet c → stores s'.1 !! k = stores s.1 !! k) ∧
  match r with
  | Ok e =>
      cmd_event c e ∧
      (wallet_log s' (cmd_wallet c) (l ++ [e]) ∨
       wallet_log s' (cmd_wallet c) l ∧ match c with CmdPropagate _ p => credited p l | _ => False end)
  | Err _ =>
      wallet_log s' (cmd_wallet c) l ∨ ∃ e, cmd_event c e ∧ wallet_log s' (cmd_wallet c) (l ++ [e])
  end.
Proof.
  intros Hl Hrun. assert (cmd_post c l r s s') as [[_ Hsame] Hpost]; [|by split].
  destruct c; [by apply validate_post|by apply register_post|by apply propagate_post].
Qed.

(** A credit that is in the log of its wallet is not added again, so
    a propagated transfer that arrives twice credits the wallet once. *)
Theorem known_credit_not_added n p s l e r s' :
  wallet_log s (cap_recipient p) l → log_fits l →
  EvTransferPropagated e ∈ l → cap_id (tp_credit_proof e) = cap_id p →
  receive_propagated n p s = (r, s') →
  wallet_log s' (cap_recipient p) l ∧ ∀ k, k ≠ cap_recipient p → stores s'.1 !! k = stores s.1 !! k.
Proof.
  intros Hl Hfits He Hid. unfold receive_propagated. unfold bind, get, ret, throw, lift.
  destruct (get_load_or_create_store (cap_recipient p) s) as [[st|e'] s1] eqn:Hget;
    apply (get_store_log _ _ l) in Hget as ([_ Hsame] & Hinfo & Hl1 & Hst); try done; [|by intros [= <- <-]].
  unfold load_wallet. rewrite (get_all_log st l) by (done || apply Hst).
  destruct (wallet_from_history _ _ _ _ l) as [wallet|] eqn:Hw; simpl; [|by intros [= <- <-]].
  destruct (wallet_receive_propagated wallet p) as [[x|]|] eqn:Hp; simpl;
    [|by intros [= <- <-]|by intros [= <- <-]].
  by destruct (receive_propagated_known _ _ _ _ _ _ _ p Hw He Hid x).
Qed.

(** * Histories *)

Definition history_of (l : list ReplicaEvent) : ActorHistory := mkActorHistory (get_credits l) (get_debits l).

Lemma history_store R k st : stores R !! k = Some st → history R k = Ok (history_of (get_all st)).
Proof. unfold history. intros ->. by destruct (get_all st). Qed.

Lemma history_log s k l : wallet_log s k l → log_fits l → history s.1 k = Ok (history_of l).
Proof.
  unfold wallet_log. destruct (stores s.1 !! k) as [st|] eqn:Hk; intros Hl Hfits.
  - rewrite (history_store _ _ st Hk). by rewrite (get_all_log st l).
  - destruct Hl as [-> _]. unfold history. by rewrite Hk.
Qed.

Lemma user_wallets_lookup R k :
  user_wallets R !! k = (λ st, history_of (get_all st)) <$> stores R !! k.
Proof.
  unfold user_wallets.
  assert (∀ l (acc : gmap PublicKey ActorHistory), (∀ k, k ∈ l → is_Some (stores R !! k)) →
    foldl (λ histories key, match history R key with Ok h => <[key := h]> histories | Err _ => histories end) acc l !! k
    = if decide (k ∈ l) then match stores R !! k with Some st => Some (history_of (get_all st)) | None => None end
      else acc !! k) as Hfold.
  { induction l as [|x l IH]; intros acc Hl; cbn [foldl].
    - rewrite decide_False; [done|]. apply not_elem_of_nil.
    - destruct (Hl x) as [st Hst]; [by left|]. rewrite (history_store _ _ st Hst), IH by (intros; apply Hl; by right).
      destruct (decide (k ∈ l)) as [Hin|Hin]; [by rewrite decide_True by (by right)|].
      rewrite lookup_insert. case_decide as Hx.
      + subst. rewrite decide_True by (by left). by rewrite Hst.
      + rewrite decide_False; [done|]. by intros [->|?]%elem_of_cons. }
  rewrite Hfold.
  - case_decide as Hin; [done|]. rewrite lookup_empty. destruct (stores R !! k) as [st|] eqn:Hst; [|done].
    destruct Hin. apply list_elem_of_fmap. exists (k, st). split; [done|]. by apply elem_of_map_to_list.
  - intros k' ([k1 st] & -> & Hin)%list_elem_of_fmap. apply elem_of_map_to_list in Hin. eauto.
Qed.

(** The events a received history is stored as. *)
Definition sync_events (h : ActorHistory) : list ReplicaEvent :=
  ((λ c, EvTransferPropagated (mkTransferPropagated c)) <$> ah_credits h) ++
  ((λ d, EvTransferRegistered (mkTransferRegistered d)) <$> ah_debits h).

Definition propagated (e : ReplicaEvent) : option CreditAgreementProof :=
  match e with EvTransferPropagated e => Some (tp_credit_proof e) | _ => None end.
Definition registered (e : ReplicaEvent) : option TransferRegistered :=
  match e with EvTransferRegistered e => Some e | _ => None end.

Lemma omap_propagated_sync h : omap propagated (sync_events h) = ah_credits h.
Proof.
  unfold sync_events. rewrite omap_app.
  assert (∀ l : list TransferAgreementProof,
    omap propagated ((λ d, EvTransferRegistered (mkTransferRegistered d)) <$> l) = []) as ->.
  { by induction l. }
  rewrite app_nil_r. induction (ah_credits h) as [|c l IH]; csimpl; [done|]. by rewrite IH.
Qed.

Lemma omap_registered_sync h : omap registered (sync_events h) = mkTransferRegistered <$> ah_debits h.
Proof.
  unfold sync_events. rewrite omap_app.
  assert (∀ l : list CreditAgreementProof,
    omap registered ((λ c, EvTransferPropagated (mkTransferPropagated c)) <$> l) = []) as ->.
  { by induction l. }
  simpl. induction (ah_debits h) as [|c l IH]; csimpl; [done|]. by rewrite IH.
Qed.

(** A received history is read back as it was sent. *)
Lemma history_of_sync l : history_of (sync_events (history_of l)) = history_of l.
Proof.
  unfold history_of at 1 3. f_equal.
  - unfold get_credits at 1. fold propagated. rewrite omap_propagated_sync. apply unique_by_id, unique_by_NoDup.
  - unfold get_debits at 1. fold registered. rewrite omap_registered_sync.
    assert (∀ ds : list TransferAgreementProof, tr_transfer_proof <$> (mkTransferRegistered <$> ds) = ds) as Hid.
    { intros ds. rewrite <- list_fmap_compose. apply list_fmap_id. }
    rewrite unique_by_id, Hid; [apply sort_by_id, sort_by_sorted; apply _|].
    rewrite <- list_fmap_compose. cbn [history_of ah_debits]. unfold get_debits.
    rewrite (fmap_Permutation _ _ _ (sort_by_Permutation _ _)), <- list_fmap_compose. apply unique_by_NoDup.
Qed.

Lemma sync_events_length l : (length (sync_events (history_of l)) ≤ length l)%nat.
Proof.
  unfold sync_events. rewrite length_app, !length_fmap. simpl. unfold get_credits, get_debits.
  rewrite length_sort_by, length_fmap. fold propagated registered.
  pose proof (sublist_length _ _ (unique_by_sublist cap_id (omap propagated l))) as H1.
  pose proof (sublist_length _ _ (unique_by_sublist (λ e, tap_id (tr_transfer_proof e)) (omap registered l))) as H2.
  enough (length (omap propagated l) + length (omap registered l) ≤ length l)%nat by lia. clear.
  induction l as [|e l IH]; csimpl; [lia|]. destruct e; simpl; lia.
Qed.

Lemma history_owners k l : Forall (λ e, event_wallet e = k) l → valid_owners k (history_of l) = true.
Proof.
  rewrite Forall_forall. intros Hl. unfold valid_owners, history_of. simpl. apply andb_true_iff.
  rewrite !forallb_forall. split; intros x Hx; apply list_elem_of_In in Hx; apply bool_decide_eq_true.
  - eapply elem_of_sublist in Hx; [|apply unique_by_sublist].
    apply list_elem_of_omap in Hx as (e & He & Hx). rewrite <- (Hl e He). by destruct e; simplify_eq/=.
  - unfold get_debits in Hx. apply elem_of_sort_by, list_elem_of_fmap in Hx as (y & -> & Hx).
    eapply elem_of_sublist in Hx; [|apply unique_by_sublist].
    apply list_elem_of_omap in Hx as (e & He & Hx). rewrite <- (Hl e He). by destruct e; simplify_eq/=.
Qed.

(** * Receiving histories *)

Section sync.
Context (root : path) (Hdistinct : distinct_paths root)
        (Hpaths : ∀ k, is_ok (store_path (name_of_pk k) root) = true).

(** A healthy state in which the log of each wallet is given by [G]. *)
Definition logs_are (G : PublicKey → list ReplicaEvent) (s : Replicas * World) : Prop :=
  healthy s.2 ∧ root_dir s.1 = root ∧
  ∀ k, wallet_log s k (G k) ∧
       ∀ st, stores s.1 !! k = Some st →
         store_path (name_of_pk k) root = Ok (db_at (ts_db st)) ∧ is_Some (db_file s.2 (db_at (ts_db st))).

Lemma logs_are_ext G G' s : (∀ k, G' k = G k) → logs_are G s → logs_are G' s.
Proof. intros Heq (Hh & Hr & Hs). split; [done|]. split; [done|]. intros k. rewrite Heq. apply Hs. Qed.

(** A change of one wallet's store and file leaves the others. *)
Lemma logs_are_update G s k p s' l :
  logs_are G s → store_path (name_of_pk k) root = Ok p → healthy s'.2 → others_same k s s' →
  (∀ q, q ≠ p → db_file s'.2 q = db_file s.2 q) → wallet_log s' k l →
  (∀ st, stores s'.1 !! k = Some st → db_at (ts_db st) = p ∧ is_Some (db_file s'.2 p)) →
  logs_are (λ k', if decide (k' = k) then l else G k') s'.
Proof.
  intros (_ & Hr & Hs) Hp Hh [Hr' Hsame] Hfiles Hl Hst. split; [done|]. split; [congruence|].
  intros k'. case_decide as Hk.
  - subst k'. split; [done|]. intros st Hk. destruct (Hst st Hk) as [-> ?]. done.
  - destruct (Hs k') as [Hl' Hst']. unfold wallet_log in *. rewrite Hsame by done.
    assert (∀ q, store_path (name_of_pk k') root = Ok q → q ≠ p) as Hne.
    { intros q Hq ->. by apply Hk, (Hdistinct k' k p). }
    split.
    + destruct (stores s.1 !! k') as [st|]; [done|]. destruct Hl' as [-> Hl']. split; [done|].
      intros q m Hq. rewrite Hr', Hr in Hq. rewrite Hfiles by (by apply Hne). apply Hl'. by rewrite Hr.
    + intros st Hk'. destruct (Hst' st Hk') as [Hq Hf]. split; [done|]. by rewrite Hfiles by (by apply Hne).
Qed.

Lemma get_store_ok G s k :
  logs_are G s →
  ∃ st s', get_load_or_create_store k s = (Ok st, s') ∧ logs_are G s' ∧ stores s'.1 !! k = Some st.
Proof.
  intros HG. pose proof HG as (Hh & Hr & Hs). destruct (Hs k) as [Hl Hst].
  specialize (Hpaths k). destruct (store_path (name_of_pk k) root) as [p|] eqn:Hp; [|discriminate Hpaths].
  destruct (new_store_healthy (name_of_pk k) root p s.2 Hp Hh) as (st & w1 & Hnew & Hh1 & Hkeep).
  destruct (new_store_spec _ _ _ _ _ _ Hp Hnew) as (_ & Hother & _ & _ & Hpath & Hat & Hfile).
  destruct s as [R w]. cbn [fst snd] in *.
  destruct (get_load_or_create_store k (R, w)) as [r s'] eqn:Hget. pose proof Hget as Hget'.
  unfold get_load_or_create_store in Hget. rewrite Hr, Hnew in Hget.
  apply (get_store_log k _ (G k)) in Hget' as (Hsame & _ & Hl1 & _); [|done].
  assert (∃ st', r = Ok st' ∧ stores s'.1 !! k = Some st' ∧ db_at (ts_db st') = p ∧ s'.2 = w1) as
    (st' & -> & Hk' & Hat' & Hw').
  { destruct (stores R !! k) as [st0|] eqn:Hk; simplify_eq/=.
    - exists st0. destruct (Hst st0) as [[= ->] _]; done.
    - exists st. split; [done|]. split; [apply lookup_insert_eq|done]. }
  exists st', s'. split; [done|]. split; [|done].
  eapply logs_are_ext; [|eapply (logs_are_update G _ k p _ (G k)); [exact HG|done| |done| |done|]].
  - intros k'. simpl. by case_decide; subst.
  - by rewrite Hw'.
  - by rewrite Hw'.
  - intros st2 Hk2. rewrite Hw', Hfile. simplify_eq. eauto.
Qed.

Lemma setup_event_ok G s k e :
  logs_are G s →
  ∃ s', setup_event k e s = (Ok tt, s') ∧ logs_are (λ k', if decide (k' = k) then G k ++ [e] else G k') s'.
Proof.
  intros HG. destruct (get_store_ok G s k HG) as (st & s1 & Hget & HG1 & Hk).
  unfold setup_event, bind. rewrite Hget. clear HG Hget s. destruct s1 as [R w]. cbn [fst] in Hk.
  pose proof HG1 as (Hh & Hr & Hs). destruct (Hs k) as [Hl Hst]. destruct (Hst st Hk) as [Hp Hf].
  assert (is_log st (G k)) as Hlog by (by eapply wallet_log_store).
  destruct (insert_event k st e (R, w)) as [r s2] eqn:Hins. pose proof Hins as Hins'.
  apply (insert_event_log _ _ _ _ (G k)) in Hins' as [Hsame Hl2]; [|done].
  unfold insert_event in Hins. destruct (try_insert e (st, w)) as [r' [st' w']] eqn:Htry.
  apply (try_insert_log _ (G k)) in Htry as (_ & Hat & _ & _ & Hfile & Hok); [|done].
  destruct Hok as [-> Hh']; [done|by apply file_dir|]. simplify_eq/=. exists (set_stores (<[k:=st']> (stores R)) R, w').
  split; [done|]. eapply logs_are_update; [exact HG1|exact Hp|done|done| |done|]; simpl.
  - intros q Hq. rewrite Hfile. by rewrite decide_False by (by intros [_ ?]).
  - intros st2. rewrite lookup_insert_eq. intros [= <-]. split; [done|]. rewrite Hfile, decide_True by done. eauto.
Qed.

Lemma setup_events_ok {A} (own : A → PublicKey) (ev : A → ReplicaEvent) k xs G s :
  Forall (λ x, own x = k) xs → logs_are G s →
  ∃ s', for_each xs (λ x, setup_event (own x) (ev x)) s = (Ok tt, s') ∧
        logs_are (λ k', if decide (k' = k) then G k ++ (ev <$> xs) else G k') s'.
Proof.
  intros Hxs. revert G s. induction Hxs as [|x xs Hx Hxs IH]; intros G s HG.
  - exists s. split; [done|]. eapply logs_are_ext; [|exact HG]. intros k'. simpl. case_decide; subst; [|done].
    by rewrite app_nil_r.
  - cbn [for_each]. unfold bind. rewrite Hx. destruct (setup_event_ok G s k (ev x) HG) as (s1 & -> & HG1).
    destruct (IH _ _ HG1) as (s2 & -> & HG2). exists s2. split; [done|].
    eapply logs_are_ext; [|exact HG2]. intros k'. cbn beta. rewrite fmap_cons.
    destruct (decide (k' = k)) as [->|Hne]; [|done]. rewrite decide_True by done. by rewrite <- app_assoc.
Qed.

Definition received (k : PublicKey) (entries : list (PublicKey * ActorHistory)) : list ReplicaEvent :=
  flat_map (λ '(k', h), if decide (k' = k) then sync_events h else []) entries.

Lemma setup_loop_ok entries G s :
  Forall (λ '(k, h), valid_owners k h = true) entries → logs_are G s →
  ∃ s', for_each entries (λ '(node, wallet), setup_wallet node wallet) s
    = (Ok tt, s') ∧ logs_are (λ k, G k ++ received k entries) s'.
Proof.
  intros Hv. revert G s. induction Hv as [|[k h] entries Hkh Hv IH]; intros G s HG.
  - exists s. split; [done|]. eapply logs_are_ext; [|exact HG]. intros k. apply app_nil_r.
  - cbn [for_each]. unfold bind at 1. unfold setup_wallet at 1. rewrite Hkh. cbn [negb]. unfold bind at 1.
    apply andb_true_iff in Hkh as [Hc Hd].
    rewrite forallb_forall in Hc. rewrite forallb_forall in Hd.
    assert (Forall (λ c, cap_recipient c = k) (ah_credits h)) as Hc'.
    { apply Forall_forall. intros c Hin%list_elem_of_In. by apply Hc, bool_decide_eq_true in Hin. }
    assert (Forall (λ d, tap_sender d = k) (ah_debits h)) as Hd'.
    { apply Forall_forall. intros d Hin%list_elem_of_In. by apply Hd, bool_decide_eq_true in Hin. }
    destruct (setup_events_ok cap_recipient (λ c, EvTransferPropagated (mkTransferPropagated c)) k
      _ G s Hc' HG) as (s1 & -> & HG1).
    destruct (setup_events_ok tap_sender (λ d, EvTransferRegistered (mkTransferRegistered d)) k
      _ _ s1 Hd' HG1) as (s2 & -> & HG2).
    destruct (IH _ _ HG2) as (s3 & -> & HG3). exists s3. split; [done|].
    eapply logs_are_ext; [|exact HG3]. intros k'. unfold received at 1. cbn [flat_map]. fold (received k' entries).
    destruct (decide (k' = k)) as [->|Hne].
    + rewrite !decide_True by done. unfold sync_events. by rewrite !app_assoc.
    + by rewrite (decide_False (P := k = k')) by congruence.
Qed.

Lemma received_lookup k entries :
  NoDup entries.*1 →
  (∀ h, (k, h) ∈ entries → received k entries = sync_events h) ∧ (k ∉ entries.*1 → received k entries = []).
Proof.
  induction entries as [|[k' h'] entries IH]; csimpl.
  { intros _. split; [|done]. by intros h ?%not_elem_of_nil. }
  intros [Hk' Hnd]%NoDup_cons. destruct (IH Hnd) as [IH1 IH2]. cbn [received flat_map].
  fold (received k entries). split.
  - intros h [[= <- <-]|Hin]%elem_of_cons.
    + rewrite decide_True by done. by rewrite IH2, app_nil_r.
    + rewrite decide_False; [by apply IH1|]. intros ->. apply Hk'. apply list_elem_of_fmap. by exists (k, h).
  - intros [Hne Hin]%not_elem_of_cons. rewrite decide_False by congruence. by apply IH2.
Qed.

Lemma received_btree k u :
  received k (btree_entries pk_cmp u) = match u !! k with Some h => sync_events h | None => [] end.
Proof.
  destruct (received_lookup k (btree_entries pk_cmp u) (NoDup_btree_keys _ _)) as [H1 H2].
  destruct (u !! k) as [h|] eqn:Hk.
  - apply H1. by apply elem_of_btree_entries.
  - apply H2. intros ([k' h] & -> & Hin)%list_elem_of_fmap. apply elem_of_btree_entries in Hin. simpl in Hk. congruence.
Qed.

(** The events a replica gets with a packet. *)
Definition packet_events (u : gmap PublicKey ActorHistory) (k : PublicKey) : list ReplicaEvent :=
  match u !! k with Some h => sync_events h | None => [] end.

Lemma setup_ok u G s :
  (∀ k h, u !! k = Some h → valid_owners k h = true) → logs_are G s →
  ∃ s', setup u s = (Ok tt, s') ∧ logs_are (λ k, G k ++ packet_events u k) s'.
Proof.
  intros Hu Hs. unfold setup. case_bool_decide as Hsize.
  - exists s. split; [done|]. apply map_size_empty_inv in Hsize as ->. eapply logs_are_ext; [|exact Hs].
    intros k. unfold packet_events. by rewrite lookup_empty, app_nil_r.
  - destruct (setup_loop_ok (btree_entries pk_cmp u) G s) as (s' & Hs' & HG); [|done|].
    + apply Forall_forall. intros [k h] Hin%elem_of_btree_entries. by apply Hu.
    + exists s'. split; [done|]. eapply logs_are_ext; [|exact HG]. intros k. unfold packet_events. by rewrite <- received_btree.
Qed.
End sync.

(** Merging some of the wallets of another replica on a clean disk: their
    histories are as there. *)
Lemma merge_wallets R w u root info0 w0 :
  replicas_inv (R, w) → (∀ k st l, stores R !! k = Some st → is_log st l → log_fits l) →
  (∀ k h, u !! k = Some h → user_wallets R !! k = Some h) →
  distinct_paths root → (∀ k, is_ok (store_path (name_of_pk k) root) = true) →
  healthy w0 → (∀ k p, store_path (name_of_pk k) root = Ok p → db_file w0 p = None) →
  ∃ R' w', merge u (mkReplicas root info0 ∅, w0) = (Ok tt, (R', w')) ∧
           ∀ k, history R' k = match u !! k with Some _ => history R k | None => Ok ActorHistory_empty end.
Proof.
  intros [Hinv _] Hfits Hu Hdist Hpaths Hw0 Hclean. cbn [fst snd] in Hinv.
  assert (∀ k st, stores R !! k = Some st → ∃ l, get_all st = l ∧ log_fits l ∧ Forall (λ e, event_wallet e = k) l)
    as Hlogs.
  { intros k st Hk. destruct (Hinv k st Hk) as [_ (l & Hl & Hown)]. exists l.
    assert (log_fits l) by (by eapply Hfits). by rewrite (get_all_log st l). }
  assert (∀ k h, u !! k = Some h → ∃ st, stores R !! k = Some st ∧ h = history_of (get_all st)) as Hus.
  { intros k h Hk%Hu. rewrite user_wallets_lookup, fmap_Some in Hk. exact Hk. }
  destruct (setup_ok root Hdist Hpaths u (λ _, []) (mkReplicas root info0 ∅, w0)) as ([R' w'] & Hrun & _ & _ & HG).
  - intros k h (st & Hk & ->)%Hus. destruct (Hlogs k st Hk) as (l & -> & _ & Hown). by apply history_owners.
  - split; [done|]. split; [done|]. intros k. unfold wallet_log. cbn [fst snd stores]. rewrite lookup_empty.
    split; [|done]. split; [done|]. intros p m Hp. by rewrite (Hclean k p Hp).
  - exists R', w'. split; [done|]. intros k. destruct (HG k) as [Hl _].
    unfold packet_events in Hl. simpl in Hl. destruct (u !! k) as [h|] eqn:Huk.
    + destruct (Hus k h Huk) as (st & Hk & ->). destruct (Hlogs k st Hk) as (l & Heq & Hf & _).
      rewrite Heq in Hl. rewrite (history_store R k st Hk), Heq.
      apply history_log in Hl; cbn [fst] in Hl; [by rewrite Hl, history_of_sync|].
      unfold log_fits in *. pose proof (sync_events_length l). lia.
    + by apply history_log in Hl.
Qed.

(** The wallets an elder pushes to a new elder arrive: merging them on a
    clean disk succeeds, and the new replica has the same history of credits
    and debits for every wallet. *)
Theorem wallets_sync_roundtrip R w root info0 w0 :
  replicas_inv (R, w) → (∀ k st l, stores R !! k = Some st → is_log st l → log_fits l) →
  distinct_paths root → (∀ k, is_ok (store_path (name_of_pk k) root) = true) →
  healthy w0 → (∀ k p, store_path (name_of_pk k) root = Ok p → db_file w0 p = None) →
  ∃ R' w', merge (user_wallets R) (mkReplicas root info0 ∅, w0) = (Ok tt, (R', w')) ∧
           ∀ k, history R' k = history R k.
Proof.
  intros Hinv Hfits Hdist Hpaths Hw0 Hclean.
  destruct (merge_wallets R w (user_wallets R) root info0 w0 Hinv Hfits) as (R' & w' & Hrun & HR'); [done..|].
  exists R', w'. split; [done|]. intros k. rewrite HR', user_wallets_lookup. unfold history. by destruct (stores R !! k).
Qed.

Lemma fold_delete_keys (l : list PublicKey) (m : gmap PublicKey TransferStore) k :
  foldl (λ m key, delete key m) m l !! k = if decide (k ∈ l) then None else m !! k.
Proof.
  revert m. induction l as [|x l IH]; intros m; cbn [foldl].
  - rewrite decide_False; [done|]. apply not_elem_of_nil.
  - rewrite IH. destruct (decide (k ∈ l)) as [Hin|Hin]; [by rewrite decide_True by (by right)|].
    rewrite lookup_delete. destruct (decide (x = k)) as [->|Hne]; [by rewrite decide_True by (by left)|].
    rewrite decide_False; [done|]. by intros [->|?]%elem_of_cons.
Qed.

Lemma delete_stores_run (l : list (PublicKey * TransferStore)) R w :
  ∃ w', for_each l (λ '(_, store), delete_store store) (R, w) = (Ok tt, (R, w')) ∧
        ∀ q, (∀ k st, (k, st) ∈ l → ts_db_path st ≠ q) → db_file w' q = db_file w q.
Proof.
  revert w. induction l as [|[k st] l IH]; intros w; cbn [for_each]; [by exists w|].
  unfold bind, delete_store, ts_delete, with_err. destruct (db_remove_file (ts_db_path st) w) as [r w1] eqn:Hrm.
  apply remove_file_spec in Hrm as [_ Hrm]. destruct (IH w1) as (w' & Hrun & Hf).
  exists w'. split; [exact Hrun|]. intros q Hq. rewrite Hf by (intros; eapply Hq; by right).
  rewrite Hrm, decide_False; [done|]. intros [_ ->]. by eapply (Hq k st); [left|].
Qed.

(** After a split a replica has exactly the wallets whose names match
    its prefix, with their histories and files as they were; an error of the
    disk does not stop it. *)
Lemma keep_keys_of_spec prefix R w :
  (∀ k st, stores R !! k = Some st → store_path (name_of_pk k) (root_dir R) = Ok (ts_db_path st)) →
  distinct_paths (root_dir R) →
  ∃ R' w', keep_keys_of prefix (R, w) = (Ok tt, (R', w')) ∧
    (∀ k, stores R' !! k = if prefix_matches prefix (name_of_pk k) then stores R !! k else None) ∧
    (∀ k, history R' k =
          if prefix_matches prefix (name_of_pk k) then history R k else Ok ActorHistory_empty) ∧
    (∀ k st, stores R' !! k = Some st → db_file w' (ts_db_path st) = db_file w (ts_db_path st)).
Proof.
  intros Hpath Hdist. unfold keep_keys_of, bind, get, modify. cbn [fst].
  set (gone := filter _ (map_to_list (stores R))).
  destruct (delete_stores_run gone R w) as (w' & -> & Hf). eexists _, w'. split; [done|].
  assert (∀ k st, (k, st) ∈ gone ↔ prefix_matches prefix (name_of_pk k) = false ∧ stores R !! k = Some st) as Hgone.
  { intros k st. unfold gone. by rewrite list_elem_of_filter, elem_of_map_to_list. }
  assert (∀ k, foldl (λ m key, delete key m) (stores R) gone.*1 !! k =
    if prefix_matches prefix (name_of_pk k) then stores R !! k else None) as Hst.
  { intros k. rewrite fold_delete_keys. case_decide as Hin.
    - apply list_elem_of_fmap in Hin as ([k' st] & -> & Hin). apply Hgone in Hin as [Hm _]. simpl. by rewrite Hm.
    - destruct (prefix_matches prefix (name_of_pk k)) eqn:Hm; [done|].
      destruct (stores R !! k) as [st|] eqn:Hk; [|done]. destruct Hin. apply list_elem_of_fmap.
      exists (k, st). split; [done|]. by apply Hgone. }
  cbn [set_stores stores]. split; [exact Hst|]. split.
  - intros k. unfold history. cbn [stores]. rewrite Hst. by destruct (prefix_matches prefix (name_of_pk k)).
  - intros k st Hk. rewrite Hst in Hk. destruct (prefix_matches prefix (name_of_pk k)) eqn:Hm; [|done].
    apply Hf. intros k' st' [Hm' Hk']%Hgone Heq. assert (k = k') as <-; [|congruence].
    apply (Hdist k k' (ts_db_path st)); [by apply Hpath|]. rewrite <- Heq. by apply Hpath.
Qed.
End replicas.

(** Wallets that know the events of their log: a credit or a debit is new when
    its id is, and a debit needs the balance. *)
Module ToyTransfers.
Import ToyCrates ToyPickle.

Definition toy_balance (l : list ReplicaEvent) : Z :=
  sum_Z ((λ e, match e with
               | EvTransferPropagated e => cap_amount (tp_credit_proof e)
               | EvTransferRegistered e => - tap_amount (tr_transfer_proof e)
               | EvTransferValidated _ => 0
               end) <$> l).
Definition has_credit (id : CreditId) (l : list ReplicaEvent) : bool :=
  existsb (λ e, match e with
                | EvTransferPropagated e => bool_decide (cap_id (tp_credit_proof e) = id)
                | _ => false
                end) l.
Definition has_debit (id : DebitId) (l : list ReplicaEvent) : bool :=
  existsb (λ e, match e with
                | EvTransferRegistered e => bool_decide (tap_id (tr_transfer_proof e) = id)
                | _ => false
                end) l.

#[export] Instance toy_transfers : TransfersCrate := {|
  WalletReplica := list ReplicaEvent;
  wallet_from_history _ _ _ _ l := Ok l;
  wallet_balance := toy_balance;
  wallet_validate l d _ :=
    if debit_amount (sd_debit d) <=? toy_balance l then Ok tt else Err (TeOther (tt : TransferErrOther));
  wallet_register l p := if has_debit (tap_id p) l then Ok None else Ok (Some (mkTransferRegistered p));
  wallet_receive_propagated l p := if has_credit (cap_id p) l then Ok None else Ok (Some (mkTransferPropagated p));
  wallet_apply _ _ := Ok tt;
  wallet_credit_without_proof _ _ := Ok tt;
|}.

#[export] Instance toy_transfers_laws : TransfersLaws.
Proof.
  split.
  - intros l p e. simpl. case_match; naive_solver.
  - intros o i n s events w e p. cbn [toy_transfers wallet_from_history wallet_register]. intros [= <-] He Hid x.
    assert (has_debit (tap_id p) events = true) as ->; [|done].
    apply existsb_exists. exists (EvTransferRegistered e). split; [by apply list_elem_of_In|].
    by apply bool_decide_eq_true.
  - intros o i n s events w e p. simpl. intros [= <-] He Hid x.
    assert (has_credit (cap_id p) events = true) as ->; [|done].
    apply existsb_exists. exists (EvTransferPropagated e). split; [by apply list_elem_of_In|].
    by apply bool_decide_eq_true.
  - intros o i n s events w p. cbn [toy_transfers wallet_from_history wallet_receive_propagated]. intros [= <-].
    destruct (has_credit (cap_id p) events) eqn:Hc; [|done]. intros _.
    apply existsb_exists in Hc as ([| |e] & He & Hid); try done. exists e. split; [by apply list_elem_of_In|].
    by apply bool_decide_eq_true in Hid.
  - intros t c. simpl. by intros [= <-].
Qed.

#[export] Instance signed_debit_serde : Serde SignedDebit := {| ser _ := Ok []; de _ := Err tt |}.
#[export] Instance signed_credit_serde : Serde SignedCredit := {| ser _ := Ok []; de _ := Err tt |}.
#[export] Instance credit_proof_serde : Serde CreditAgreementProof := {| ser _ := Ok []; de _ := Err tt |}.
#[export] Instance data_cmd_serde : Serde DataCmd := {| ser _ := Ok (u64_ser 7); de _ := Err tt |}.
End ToyTransfers.

Module Witness.
Import ToyCrates ToyPickle ToyRouting ToyTransfers.

Definition root : path := ["root"].
Definition keys9 : PublicKeySet := (9%N, 1%nat).
Definition info0 : ReplicaInfo :=
  match replica_info (toy_routing [] [] root_prefix) [9%N : BlsPublicKey] with
  | Ok i => i
  | Err _ => mkReplicaInfo (0%N : BlsPublicKeyShare) 0 keys9 [] (replica_signing_impl (toy_routing [] [] root_prefix))
  end.
Definition w0 : ToyWorld ReplicaEvent := mkToyWorld ∅ [].
Definition s0 : Replicas * ToyWorld ReplicaEvent := (mkReplicas root info0 ∅, w0).

(** Wallet 20 gets 100, and pays 30 of it to wallet 21. *)
Definition credit1 : CreditAgreementProof :=
  mkCreditAgreementProof (mkSignedCredit (mkCredit (1%N : CreditId) 100 (key 20) "") (BlsSig (1%N : BlsSignature)))
    (BlsSig (1%N : BlsSignature)) keys9.
Definition transfer1 : SignedTransfer :=
  mkSignedTransfer (mkSignedDebit ((20%N, 0, 30) : Debit) (BlsSig (2%N : BlsSignature)))
    (mkSignedCredit (mkCredit (2%N : CreditId) 30 (key 21) "") (BlsSig (2%N : BlsSignature))).
Definition proof1 : TransferAgreementProof :=
  mkTransferAgreementProof (st_credit transfer1) (st_debit transfer1)
    (BlsSig (3%N : BlsSignature)) (BlsSig (3%N : BlsSignature)) keys9.

Definition s1 : Replicas * ToyWorld ReplicaEvent := (receive_propagated (nm 5) credit1 s0).2.
Definition s2 : Replicas * ToyWorld ReplicaEvent := (validate transfer1 s1).2.
Definition s3 : Replicas * ToyWorld ReplicaEvent := (register proof1 s2).2.

Definition log_length (s : Replicas * ToyWorld ReplicaEvent) (k : PublicKey) : option nat :=
  length ∘ get_all <$> stores s.1 !! k.

Lemma distinct_root : distinct_paths root.
Proof. intros k k' p Hk Hk'. exact (toy_store_path_inj k k' root p Hk Hk'). Qed.

Lemma clean k p : store_path (name_of_pk k) root = Ok p → db_file (T := ReplicaEvent) w0 p = None.
Proof. intros _. apply lookup_empty. Qed.

Lemma s3_reachable : rtc replica_step s0 s3.
Proof.
  apply (rtc_l _ _ s1); [exact (rs_propagated _ _ _ _ _ (surjective_pairing _))|].
  apply (rtc_l _ _ s2); [exact (rs_validate _ _ _ _ (surjective_pairing _))|].
  apply rtc_once. exact (rs_register _ _ _ _ (surjective_pairing _)).
Qed.

Lemma wallet_logs_are_own_witness : log_length s3 (key 20) = Some 3%nat ∧ replicas_inv s3.
Proof.
  split; [vm_compute; reflexivity|].
  exact (wallet_logs_are_own root info0 w0 s3 distinct_root clean s3_reachable).
Defined.

Definition log_of (s : Replicas * ToyWorld ReplicaEvent) (k : PublicKey) : list ReplicaEvent :=
  match stores s.1 !! k with Some st => get_all st | None => [] end.

Lemma replica_command_appends_witness :
  is_ok (run_cmd (CmdRegister proof1) s2).1 = true ∧ length (log_of s2 (key 20)) = 2%nat ∧
  wallet_log (run_cmd (CmdRegister proof1) s2).2 (key 20)
    (log_of s2 (key 20) ++ [EvTransferRegistered (mkTransferRegistered proof1)]).
Proof.
  split; [vm_compute; reflexivity|]. split; [vm_compute; reflexivity|].
  assert (wallet_log s2 (key 20) (log_of s2 (key 20))) as Hl by (vm_compute; reflexivity).
  destruct (replica_command_appends (CmdRegister proof1) s2 (run_cmd (CmdRegister proof1) s2).1
    (run_cmd (CmdRegister proof1) s2).2 (log_of s2 (key 20)) Hl (surjective_pairing _)) as [_ Hpost].
  assert (is_ok (run_cmd (CmdRegister proof1) s2).1 = true) as Hok by (vm_compute; reflexivity).
  destruct (run_cmd (CmdRegister proof1) s2).1 as [e|e]; [|discriminate Hok].
  destruct Hpost as [He [Hlog|[_ []]]]. unfold cmd_event in He. rewrite <- He. exact Hlog.
Defined.

Lemma known_credit_not_added_witness :
  length (log_of s3 (key 20)) = 3%nat ∧
  wallet_log (receive_propagated (nm 6) credit1 s3).2 (key 20) (log_of s3 (key 20)).
Proof.
  split; [vm_compute; reflexivity|].
  assert (wallet_log s3 (key 20) (log_of s3 (key 20))) as Hl by (vm_compute; reflexivity).
  apply (known_credit_not_added (nm 6) credit1 s3 (log_of s3 (key 20)) (mkTransferPropagated credit1)
    (receive_propagated (nm 6) credit1 s3).1 (receive_propagated (nm 6) credit1 s3).2 Hl).
  - vm_compute. discriminate.
  - apply (list_elem_of_lookup_2 _ 0%nat). vm_compute. reflexivity.
  - reflexivity.
  - apply surjective_pairing.
Defined.

Lemma s3_inv : replicas_inv s3.
Proof.
  assert (Inv root s3) as [_ Hs]; [|exact Hs].
  eapply (rtc_ind_r (Inv root)); [| |exact s3_reachable].
  - split; [done|]. split; simpl; [done|]. intros k p m Hp. by rewrite lookup_empty.
  - intros a b _ Hstep Ha. eapply replica_step_inv; [exact distinct_root|exact Ha|exact Hstep].
Qed.

Definition path20 : path := default [] (res_ok (store_path (nm 20) root)).
Lemma s3_stores k st :
  stores s3.1 !! k = Some st → k = key 20 ∧ ts_db_path st = path20 ∧ size (db_map (ts_db st)) = 3%nat.
Proof.
  intros Hk. assert (map_Forall (λ (k : PublicKey) (st : TransferStore (T := ReplicaEvent)),
    k = key 20 ∧ ts_db_path st = path20 ∧ size (db_map (ts_db st)) = 3%nat) (stores s3.1)) as Hall.
  { apply (bool_decide_unpack _). vm_compute. exact I. }
  exact (Hall k st Hk).
Qed.

Definition root2 : path := ["other"].
Lemma distinct_root2 : distinct_paths root2.
Proof. intros k k' p Hk Hk'. exact (toy_store_path_inj k k' root2 p Hk Hk'). Qed.

Lemma wallets_sync_roundtrip_witness :
  (match history s3.1 (key 20) with
   | Ok h => length (ah_credits h) = 1%nat ∧ length (ah_debits h) = 1%nat
   | Err _ => False
   end) ∧
  ∃ R' w', merge (user_wallets s3.1) (mkReplicas root2 info0 ∅, w0) = (Ok tt, (R', w')) ∧
           ∀ k, history R' k = history s3.1 k.
Proof.
  split; [vm_compute; by split|].
  apply (wallets_sync_roundtrip s3.1 s3.2 root2 info0 w0).
  - exact s3_inv.
  - intros k st l Hk Hl. destruct (s3_stores k st Hk) as (_ & _ & Hsize). unfold log_fits.
    unfold is_log in Hl. rewrite Hl, log_map_size in Hsize. rewrite Hsize. vm_compute. discriminate.
  - exact distinct_root2.
  - reflexivity.
  - reflexivity.
  - intros k p _. apply lookup_empty.
Defined.

Definition top_half : Prefix := [true].
End Witness.
