(* ===== verification/Transfers.v ===== *)
(** [src/transfers/mod.rs]: the layer between the messages of clients and
    elders and the replica of the wallets; payments for writes.

    The state is the replica with its files.  [StoreCost::from] is an argument
    [cost] ([transfers_cost] is what the node passes), and the level of the log
    is one too, since an argument of a log macro can return from the function. *)

From S2P Require Import Prelude Crates Messages Disk Toy Network F64 Capacity RewardCalc TransferStore Replicas.

Section transfers.
Context `{DO : DataOpsCrate} `{MC : !MessagingCrate} `{EC : !EncodingCrate} `{MO : !MessagingOps}
        `{SN : !Serde XorName} `{SD : !Serde SignedDebit} `{SSC : !Serde SignedCredit}
        `{SCP : !Serde CreditAgreementProof} `{SDC : !Serde DataCmd}
        `{DBG : !DebugT ReplicaEvent} `{PC : !PickleCrate ReplicaEvent} `{TC : !TransfersCrate}.

Abbreviation World := (DbWorld (T := ReplicaEvent)).
Abbreviation RM A := (M Error (Replicas * World) A).

(** [self.store_cost.from], with the network and the full adults of the moment. *)
Definition transfers_cost (powf : f64 → f64 → f64) (r : Routing) (full : AdultsStorageInfo) : Z → Result Token :=
  store_cost_from powf r full.

Definition section_wallet_id (R : Replicas) : PublicKey := pk_of_bls (pks_public_key (replicas_pk_set R)).

(** [payments] *)
Definition payments (R : Replicas) : Result Token := balance R (section_wallet_id R).

(** What the replica does, under the names of this layer. *)
Definition tf_managed_amount (R : Replicas) : result stop (Result Token) := managed_amount R.
Definition tf_user_wallets (R : Replicas) : gmap PublicKey ActorHistory := user_wallets R.
Definition tf_merge (user_wallets : gmap PublicKey ActorHistory) : RM unit := merge user_wallets.
Definition tf_keep_keys_of (prefix : Prefix) : RM unit := keep_keys_of prefix.
Definition tf_update_replica_info (info : ReplicaInfo) (R : Replicas) : Replicas := update_replica_info info R.
Definition tf_credit_without_proof (replica_keys : PublicKeySet) (sig : BlsSignature) (transfer : Transfer) :
    RM NodeDuty :=
  credit_without_proof replica_keys sig transfer.

(** Messages to a client. *)
Definition client_response (msg_id : MessageId) (response : QueryResponse) (dst : DstLocation) (agg : Aggregation) :
    NodeDuty :=
  Send (mkOutgoingMsg (MtClient (CmProcess (PmQueryResponse (in_response_to msg_id) response msg_id))) dst false agg).
Definition client_cmd_error (msg_id : MessageId) (error : ClientTransferError) (dst : DstLocation)
    (section_source : bool) (agg : Aggregation) : NodeDuty :=
  Send (mkOutgoingMsg (MtClient (CmProcess (PmCmdError (in_response_to msg_id) (CmdErrorTransfer error) msg_id)))
          dst section_source agg).

(** ** Queries *)

Definition get_store_cost (cost : Z → Result Token) (R : Replicas) (bytes : Z) (msg_id : MessageId)
    (origin : SrcLocation) : NodeDuties :=
  let result :=
    if bytes =? 0 then Err (EmInvalidOperation "Cannot store 0 bytes")
    else match cost bytes with
         | Ok store_cost => Ok (bytes, store_cost, section_wallet_id R)
         | Err e => Err (EmInvalidOperation (display_error e))
         end in
  [client_response msg_id (GetStoreCostResp result) (src_to_dst origin) AtDestination].

Definition tf_all_events (R : Replicas) (msg_id : MessageId) (query_origin : SrcLocation) : Result NodeDuty :=
  let result := map_err convert_to_error_message (all_events R) in
  Ok (Send (mkOutgoingMsg
        (MtNode (NmNodeQueryResponse (NqrGetReplicaEvents result) (in_response_to msg_id) msg_id))
        (src_to_dst query_origin) false AtDestination)).

Definition tf_balance (R : Replicas) (wallet_id : PublicKey) (msg_id : MessageId) (origin : SrcLocation) :
    Result NodeDuty :=
  let result := map_err convert_to_error_message (balance R wallet_id) in
  Ok (client_response msg_id (GetBalanceResp result) (src_to_dst origin) AggNone).

Definition tf_history (R : Replicas) (key : PublicKey) (msg_id : MessageId) (origin : SrcLocation) : Result NodeDuty :=
  let result := map_err (λ _, EmNoHistoryForPublicKey key) (history R key) in
  Ok (client_response msg_id (GetHistoryResp result) (src_to_dst origin) AggNone).

(** ** Commands *)

(** The message that passes a paid write on to the section of the data. *)
Definition forward_write (msg_id : MessageId) (data_cmd : DataCmd) (client_signed : ClientSigned) (origin : EndUser) :
    NodeDuty :=
  Send (mkOutgoingMsg
          (MtNode (NmNodeCmd (NcMetadata data_cmd client_signed origin) (in_response_to msg_id)))
          (DstSection (data_cmd_dst_address data_cmd)) true AtDestination).

(** [process_payment] *)
Definition process_payment (cost : Z → Result Token) (info_logged : bool) (msg_id : MessageId)
    (payment : TransferAgreementProof) (data_cmd : DataCmd) (client_signed : ClientSigned) (origin : EndUser) :
    RM NodeDuties :=
  let! bytes := lift (serialise data_cmd) in
  let num_bytes := Z.of_nat (length bytes) in
  let! s := get in
  let recipient_is_not_section := bool_decide (tap_recipient payment ≠ section_wallet_id s.1) in
  if recipient_is_not_section then
    ret [client_cmd_error msg_id (TransferRegistrationErr EmNoSuchRecipient)
           (src_to_dst (SrcEndUser origin)) false AggNone]
  else
  let! registration := try (register payment) in
  let! result :=
    match registration with
    | Ok _ => try (receive_propagated (name_of_pk (tap_sender payment)) (tap_credit_proof payment))
    | Err error => ret (Err error)
    end in
  match result with
  | Ok _ =>
      let error :=
        match cost num_bytes with
        | Ok total_cost => if tap_amount payment <? total_cost then Some EmInsufficientPayment else None
        | Err e => Some (EmInvalidOperation (display_error e))
        end in
      let! s := get in
      let! _ := (if info_logged then lift (balance s.1 (tap_recipient payment)) else ret 0) in
      match error with
      | Some e =>
          ret [client_cmd_error msg_id (TransferRegistrationErr e) (src_to_dst (SrcEndUser origin)) true AtDestination]
      | None => ret [forward_write msg_id data_cmd client_signed origin]
      end
  | Err _ =>
      ret [client_cmd_error msg_id (TransferRegistrationErr EmPaymentFailed)
             (src_to_dst (SrcEndUser origin)) false AggNone]
  end.

(** [validate]; the id of the event is random. *)
Definition tf_validate (fresh : MessageId) (transfer : SignedTransfer) (msg_id : MessageId) (origin : SrcLocation) :
    RM NodeDuty :=
  let! validated := try (validate transfer) in
  let msg :=
    match validated with
    | Ok event => MtClient (CmProcess (PmEvent fresh (EventTransferValidated event) msg_id))
    | Err e =>
        MtClient (CmProcess (PmCmdError (in_response_to msg_id)
          (CmdErrorTransfer (TransferValidationErr (convert_to_error_message e))) msg_id))
    end in
  ret (Send (mkOutgoingMsg msg (src_to_dst origin) false AggNone)).

Definition tf_register (proof : TransferAgreementProof) (msg_id : MessageId) (origin : SrcLocation) : RM NodeDuty :=
  let! registered := try (register proof) in
  match registered with
  | Ok event =>
      let location := name_of_pk (tap_recipient (tr_transfer_proof event)) in
      ret (Send (mkOutgoingMsg
        (MtNode (NmNodeCmd (NcTransfers (PropagateTransferCmd (tap_credit_proof (tr_transfer_proof event))))
           (in_response_to msg_id))) (DstSection location) true AtDestination))
  | Err e =>
      ret (client_cmd_error msg_id (TransferRegistrationErr (convert_to_error_message e))
             (src_to_dst origin) false AtDestination)
  end.

Definition tf_receive_propagated (credit_proof : CreditAgreementProof) (msg_id : MessageId) (origin : SrcLocation) :
    RM NodeDuty :=
  let propagation_error e :=
    ret (Send (mkOutgoingMsg (MtNode (NmNodeCmdError (TransferPropagationErr e) (in_response_to msg_id) msg_id))
                 (src_to_dst origin) false AtDestination)) in
  let! received := try (receive_propagated (src_name origin) credit_proof) in
  match received with
  | Ok _ => ret NoOp
  | Err (NetworkData error) => propagation_error (convert_dt_error_to_error_message error)
  | Err (UnknownSectionKey _) => propagation_error EmNoSuchKey
  | Err (TransferE TeSectionKeyNeverExisted) => propagation_error EmNoSuchKey
  | Err e => throw e
  end.

(** * Properties *)

Context `{PL : !PickleLaws (T := ReplicaEvent)} `{TL : !TransfersLaws}.

(** A registration writes only the file of the sender's wallet. *)
Lemma register_files p s r s' q :
  replicas_inv s → register p s = (r, s') →
  (∀ st, stores s.1 !! tap_sender p = Some st → q ≠ db_at (ts_db st)) → db_file s'.2 q = db_file s.2 q.
Proof.
  intros [Hinv _]. unfold register. unfold bind, get, ret, throw, lift.
  destruct (negb _); [by intros [= <- <-]|].
  destruct (stores s.1 !! tap_sender p) as [st|] eqn:Hst; [|by intros [= <- <-]].
  destruct (Hinv _ st Hst) as [_ (l & Hl & _)].
  destruct (load_wallet _ _ _); [|by intros [= <- <-]].
  destruct (wallet_register _ p) as [[ev|]|]; simpl; [|by intros [= <- <-]|by intros [= <- <-]].
  destruct s as [R w]. unfold insert_event. destruct (try_insert _ (st, w)) as [ri [st' w']] eqn:Hins.
  apply (try_insert_log _ l) in Hins as (_ & _ & _ & _ & Hf & _); [|done].
  intros Hrun Hq. assert (s'.2 = w') as ->.
  { destruct ri as [[]|]; [|by simplify_eq]. destruct (map_err _ _); by simplify_eq. }
  cbn [snd]. rewrite Hf, decide_False; [done|]. intros [_ ->]. by apply (Hq st).
Qed.

Lemma register_other_log p s r s' k l :
  replicas_inv s → distinct_paths (root_dir s.1) → register p s = (r, s') → k ≠ tap_sender p →
  others_same (tap_sender p) s s' → wallet_log s k l → wallet_log s' k l.
Proof.
  intros Hinv Hd Hreg Hk [Hroot Hsame]. unfold wallet_log. rewrite Hsame, Hroot by done.
  destruct (stores s.1 !! k) as [st|]; [done|]. intros [-> Hf]. split; [done|]. intros q m Hq.
  rewrite (register_files p s r s' q Hinv Hreg); [by apply Hf|].
  intros st Hst ->. apply Hk. destruct (proj1 Hinv _ st Hst) as [Hpath _]. by eapply Hd.
Qed.

(** The log [l'] is [l] with the credit of [payment], which may have been there. *)
Definition with_credit (payment : TransferAgreementProof) (l l' : list ReplicaEvent) : Prop :=
  l' = l ++ [EvTransferPropagated (mkTransferPropagated (tap_credit_proof payment))] ∨
  l' = l ∧ credited (tap_credit_proof payment) l.

(** The debit of [payment] is in the log of the payer, the credit in that of the
    recipient. *)
Definition paid_logs (payment : TransferAgreementProof) (ls lr : list ReplicaEvent) (s : Replicas * World) : Prop :=
  wallet_log s (tap_sender payment) (ls ++ [EvTransferRegistered (mkTransferRegistered payment)]) ∧
  ∃ lr', wallet_log s (tap_recipient payment) lr' ∧ with_credit payment lr lr'.

(** A registration and the propagation of its credit, seen on the logs. *)
Lemma pay_logs payment s e s1 e2 s2 ls lr :
  replicas_inv s → distinct_paths (root_dir s.1) → tap_sender payment ≠ tap_recipient payment →
  wallet_log s (tap_sender payment) ls → wallet_log s (tap_recipient payment) lr →
  register payment s = (Ok e, s1) →
  receive_propagated (name_of_pk (tap_sender payment)) (tap_credit_proof payment) s1 = (Ok e2, s2) →
  paid_logs payment ls lr s2.
Proof.
  intros Hinv Hd Hne Hls Hlr Hreg Hprop.
  assert (run_cmd (CmdRegister payment) s = (Ok (EvTransferRegistered e), s1)) as Hc1.
  { simpl. unfold bind. by rewrite Hreg. }
  apply (register_post payment s ls) in Hc1 as [Hsame1 [Hev1 [Hl1|[_ []]]]]; [|done].
  simpl in Hev1. rewrite Hev1 in Hl1.
  assert (wallet_log s1 (tap_recipient payment) lr) as Hlr1 by (eapply register_other_log; eauto).
  set (n := name_of_pk (tap_sender payment)) in *.
  assert (run_cmd (CmdPropagate n (tap_credit_proof payment)) s1 = (Ok (EvTransferPropagated e2), s2)) as Hc2.
  { simpl. unfold bind. by rewrite Hprop. }
  apply (propagate_post n _ s1 lr) in Hc2 as [[_ Hsame2] [Hev2 Hl2]]; [|done]. simpl in Hev2. rewrite Hev2 in Hl2.
  split; [|destruct Hl2 as [Hl2|[Hl2 Hc]]; eexists; (split; [exact Hl2|]); [by left|by right]].
  unfold wallet_log in *. rewrite Hsame2 by done. cbn [cmd_wallet] in Hl1.
  destruct (stores s1.1 !! tap_sender payment) as [st|]; [exact Hl1|]. destruct Hl1 as [Hnil _]. by destruct ls.
Qed.

(** The registration and the propagation of a payment. *)
Definition take_payment (payment : TransferAgreementProof) (s : Replicas * World) : bool * (Replicas * World) :=
  match register payment s with
  | (Ok _, s1) =>
      let '(r, s2) := receive_propagated (name_of_pk (tap_sender payment)) (tap_credit_proof payment) s1 in (is_ok r, s2)
  | (Err _, s1) => (false, s1)
  end.

Lemma take_payment_logs payment s s' ls lr :
  replicas_inv s → distinct_paths (root_dir s.1) → tap_sender payment ≠ tap_recipient payment →
  wallet_log s (tap_sender payment) ls → wallet_log s (tap_recipient payment) lr →
  take_payment payment s = (true, s') → paid_logs payment ls lr s'.
Proof.
  intros Hinv Hd Hne Hls Hlr. unfold take_payment. destruct (register payment s) as [[e|e] s1] eqn:Hreg; [|done].
  destruct (receive_propagated _ _ s1) as [[e2|e2] s2] eqn:Hprop; intros [= <-]. by eapply pay_logs.
Qed.

(** What a payment that was taken is worth. *)
Definition covers (cost : Z → Result Token) (payment : TransferAgreementProof) (bytes : list byte) : Prop :=
  ∃ c, cost (Z.of_nat (length bytes)) = Ok c ∧ c ≤ tap_amount payment.
Definition falls_short (cost : Z → Result Token) (payment : TransferAgreementProof) (bytes : list byte)
    (e : ErrorMessage) : Prop :=
  (∃ c, cost (Z.of_nat (length bytes)) = Ok c ∧ tap_amount payment < c ∧ e = EmInsufficientPayment) ∨
  (∃ x, cost (Z.of_nat (length bytes)) = Err x ∧ e = EmInvalidOperation (display_error x)).

(** The five ways a payment ends. *)
Inductive payment_outcome (cost : Z → Result Token) (info_logged : bool) (payment : TransferAgreementProof)
    (bytes : list byte) (fwd : NodeDuty) (error : ErrorMessage → bool → Aggregation → NodeDuty)
    (s : Replicas * World) : Result NodeDuties → Replicas * World → Prop :=
| outcome_elsewhere :
    tap_recipient payment ≠ section_wallet_id s.1 →
    payment_outcome cost info_logged payment bytes fwd error s (Ok [error EmNoSuchRecipient false AggNone]) s
| outcome_failed s' :
    tap_recipient payment = section_wallet_id s.1 → take_payment payment s = (false, s') →
    payment_outcome cost info_logged payment bytes fwd error s (Ok [error EmPaymentFailed false AggNone]) s'
| outcome_unread s' e :
    tap_recipient payment = section_wallet_id s.1 → take_payment payment s = (true, s') →
    info_logged = true → balance s'.1 (tap_recipient payment) = Err e →
    payment_outcome cost info_logged payment bytes fwd error s (Err e) s'
| outcome_kept s' e :
    tap_recipient payment = section_wallet_id s.1 → take_payment payment s = (true, s') →
    (info_logged = true → is_ok (balance s'.1 (tap_recipient payment)) = true) → falls_short cost payment bytes e →
    payment_outcome cost info_logged payment bytes fwd error s (Ok [error e true AtDestination]) s'
| outcome_forwarded s' :
    tap_recipient payment = section_wallet_id s.1 → take_payment payment s = (true, s') →
    (info_logged = true → is_ok (balance s'.1 (tap_recipient payment)) = true) → covers cost payment bytes →
    payment_outcome cost info_logged payment bytes fwd error s (Ok [fwd]) s'.

Lemma payment_ends cost info_logged msg_id payment data_cmd client_signed origin s bytes :
  ser data_cmd = Ok bytes →
  let '(r, s') := process_payment cost info_logged msg_id payment data_cmd client_signed origin s in
  payment_outcome cost info_logged payment bytes (forward_write msg_id data_cmd client_signed origin)
    (λ e, client_cmd_error msg_id (TransferRegistrationErr e) (src_to_dst (SrcEndUser origin))) s r s'.
Proof.
  intros Hser. unfold process_payment, serialise. rewrite Hser.
  unfold bind at 1, lift at 1. cbn [map_err]. unfold bind at 1, get at 1.
  case_bool_decide as Hrec; [by constructor|].
  assert (tap_recipient payment = section_wallet_id s.1) as Hrec'
    by (destruct (decide (tap_recipient payment = section_wallet_id s.1)); tauto).
  assert (∀ b s', take_payment payment s = (b, s') → take_payment payment s = (b, s')) as Htake by done.
  unfold take_payment at 1 in Htake. unfold bind, try. destruct (register payment s) as [[e|e] s1]; [|constructor; eauto].
  destruct (receive_propagated _ _ s1) as [[e2|e2] s2]; [|constructor; eauto]. specialize (Htake true s2 eq_refl).
  unfold get, ret, lift.
  set (error := match cost _ with Ok _ => _ | Err _ => _ end).
  assert (match error with Some x => falls_short cost payment bytes x | None => covers cost payment bytes end) as Herr.
  { unfold error, falls_short, covers. destruct (cost (Z.of_nat (length bytes))) as [c|x]; [|right; eauto].
    destruct (Z.ltb_spec (tap_amount payment) c); [left|]; eauto. }
  clearbody error. set (answer := λ e, client_cmd_error msg_id (TransferRegistrationErr e) (src_to_dst (SrcEndUser origin))).
  assert (∀ x, [client_cmd_error msg_id (TransferRegistrationErr x) (src_to_dst (SrcEndUser origin)) true AtDestination] =
    [answer x true AtDestination]) as Hanswer by done.
  destruct info_logged.
  - destruct (balance s2.1 (tap_recipient payment)) as [v|e3] eqn:Hbal; [|by apply outcome_unread].
    destruct error as [x|]; [rewrite Hanswer; apply outcome_kept|apply outcome_forwarded]; try done; intros _; by rewrite Hbal.
  - destruct error as [x|]; [rewrite Hanswer; by apply outcome_kept|by apply outcome_forwarded].
Qed.

(** C4: a payment ends in one of five ways, and each when the conditions of
    [payment_outcome] hold: it is not to this section, and the client gets the
    error and nothing changes; its transfer is not registered or not credited, and
    the client gets the error; the node logs at info level and cannot read the
    balance of the section, and the request fails; it does not cover the cost, and
    the client gets the error; else the write is passed on.  Whenever the transfer
    was registered and credited, the debit is in the log of the payer and the
    credit is in that of the section (added, or there already by its id), also when
    the write is not passed on.  The write can be encoded, the wallets have logs as
    a replica keeps them, in files of different names, and the payer is not the
    section itself. *)
Theorem process_payment_spec cost info_logged msg_id payment data_cmd client_signed origin s bytes ls lr :
  ser data_cmd = Ok bytes → replicas_inv s → distinct_paths (root_dir s.1) →
  tap_sender payment ≠ tap_recipient payment →
  wallet_log s (tap_sender payment) ls → wallet_log s (tap_recipient payment) lr →
  ∃ r s', process_payment cost info_logged msg_id payment data_cmd client_signed origin s = (r, s') ∧
    payment_outcome cost info_logged payment bytes (forward_write msg_id data_cmd client_signed origin)
      (λ e, client_cmd_error msg_id (TransferRegistrationErr e) (src_to_dst (SrcEndUser origin))) s r s' ∧
    (tap_recipient payment = section_wallet_id s.1 → (take_payment payment s).1 = true → paid_logs payment ls lr s').
Proof.
  intros Hser Hinv Hd Hne Hls Hlr.
  pose proof (payment_ends cost info_logged msg_id payment data_cmd client_signed origin s bytes Hser) as Hend.
  destruct (process_payment _ _ _ _ _ _ _ _) as [r s']. exists r, s'. split; [done|]. split; [done|]. intros Hrec Htake.
  assert (take_payment payment s = (true, s')) as Hs'; [|by eapply take_payment_logs].
  destruct Hend as [Hno|s' _ Ht|s' e _ Ht|s' e _ Ht|s' _ Ht]; [done|by rewrite Ht in Htake|done..].
Qed.
End transfers.

Module Witness.
Import ToyCrates ToyPickle ToyRouting ToyTransfers Replicas.Witness.

(** Wallet 20, which has 70 left, pays 50 to the section for a write. *)
Definition data : DataCmd := DataCmdBlob (BlobDeletePrivate (baddr 3)).
Definition payment : TransferAgreementProof :=
  mkTransferAgreementProof
    (mkSignedCredit (mkCredit (3%N : CreditId) 50 (key 9) "") (BlsSig (4%N : BlsSignature)))
    (mkSignedDebit ((20%N, 1, 50) : Debit) (BlsSig (4%N : BlsSignature)))
    (BlsSig (4%N : BlsSignature)) (BlsSig (4%N : BlsSignature)) keys9.
Definition cost : Z → Result Token := λ _, Ok 40.
Definition bytes : list byte := default [] (res_ok (ser data)).
Definition signer : ClientSigned := 5%N.
Definition path9 : path := default [] (res_ok (store_path (nm 9) root)).

Lemma no_log_9 : wallet_log s3 (key 9) [].
Proof.
  assert (match stores s3.1 !! key 9 with Some _ => false | None => true end = true) as Hn
    by (vm_compute; reflexivity).
  unfold wallet_log. destruct (stores s3.1 !! key 9); [discriminate Hn|].
  refine (conj eq_refl _). intros p m Hp Hm.
  assert (store_path (nm 9) root = Ok path9) as Hp9 by reflexivity.
  assert (p = path9) as ->.
  { change (store_path (nm 9) root = Ok p) in Hp. rewrite Hp9 in Hp. by injection Hp as <-. }
  assert (match tw_files s3.2 !! path9 with Some _ => false | None => true end = true) as Hnone
    by (vm_compute; reflexivity).
  change (tw_files s3.2 !! path9 = Some m) in Hm. rewrite Hm in Hnone. discriminate Hnone.
Qed.

Lemma process_payment_spec_witness :
  ∃ s', process_payment cost true (mid 1) payment data signer (usr 7) s3 =
          (Ok [forward_write (mid 1) data signer (usr 7)], s') ∧
        paid_logs payment (log_of s3 (key 20)) [] s'.
Proof.
  assert (wallet_log s3 (key 20) (log_of s3 (key 20))) as Hl by (vm_compute; reflexivity).
  assert ((take_payment payment s3).1 = true) as Htaken by (vm_compute; reflexivity).
  assert (is_ok (balance (take_payment payment s3).2.1 (tap_recipient payment)) = true) as Hread by (vm_compute; reflexivity).
  destruct (process_payment_spec cost true (mid 1) payment data signer (usr 7) s3 bytes
    (log_of s3 (key 20)) []) as (r & s' & Hrun & Hend & Hlogs);
    [reflexivity|exact s3_inv|exact distinct_root|intros Heq; discriminate Heq|exact Hl|exact no_log_9|].
  exists s'. split; [|exact (Hlogs eq_refl Htaken)]. rewrite Hrun. f_equal. clear Hrun Hlogs.
  destruct Hend as [Hno|s' _ Ht|s' e _ Ht _ Hb|s' e _ _ _ Hshort|s' _ _ _ _]; [destruct (Hno eq_refl)| | | |reflexivity].
  - rewrite Ht in Htaken. discriminate Htaken.
  - rewrite Ht in Hread. cbn [snd] in Hread. rewrite Hb in Hread. discriminate Hread.
  - destruct Hshort as [(c & [= <-] & Hlt & _)|(x & [=] & _)]. discriminate Hlt.
Defined.
End Witness.
