(* ===== verification/Payments.v ===== *)
(** Payments over time: a replica takes payments for writes ([process_payment])
    between other commands on its wallets.  [ProcessDataPayment] holds the lock
    of the wallets for its whole body, so a run is a sequence of these. *)

From S2P Require Import Prelude Crates Messages Disk Toy Network F64 Capacity RewardCalc TransferStore Replicas Transfers.

Section payments.
Context `{DO : DataOpsCrate} `{MC : !MessagingCrate} `{EC : !EncodingCrate} `{MO : !MessagingOps}
        `{SN : !Serde XorName} `{SD : !Serde SignedDebit} `{SSC : !Serde SignedCredit}
        `{SCP : !Serde CreditAgreementProof} `{SDC : !Serde DataCmd}
        `{DBG : !DebugT ReplicaEvent} `{PC : !PickleCrate ReplicaEvent} `{TC : !TransfersCrate}
        `{PL : !PickleLaws (T := ReplicaEvent)} `{TL : !TransfersLaws}.

Abbreviation State := (Replicas * DbWorld (T := ReplicaEvent))%type.

(** A write that is paid for. *)
Record PaidWrite : Type := mkPaidWrite {
  pw_id : MessageId;
  pw_payment : TransferAgreementProof;
  pw_cmd : DataCmd;
  pw_signed : ClientSigned;
  pw_origin : EndUser;
}.

Inductive WalletOp : Type :=
| OpPay (cost : Z → Result Token) (info_logged : bool) (x : PaidWrite)
| OpCmd (c : ReplicaCmd).

Definition run_wallet_op (o : WalletOp) : M Error State NodeDuties :=
  match o with
  | OpPay cost info_logged x =>
      process_payment cost info_logged (pw_id x) (pw_payment x) (pw_cmd x) (pw_signed x) (pw_origin x)
  | OpCmd c => run_cmd c ;;; ret []
  end.

(** The answers to a sequence of requests. *)
Fixpoint run_wallet_ops (ops : list WalletOp) (s : State) : list (Result NodeDuties) :=
  match ops with
  | [] => []
  | o :: ops => let '(r, s') := run_wallet_op o s in r :: run_wallet_ops ops s'
  end.

(** The write is passed on to the section of its data. *)
Definition passed_on (x : PaidWrite) (r : Result NodeDuties) : Prop :=
  r = Ok [forward_write (pw_id x) (pw_cmd x) (pw_signed x) (pw_origin x)].

(** * Logs *)

Definition has_log (s : State) (k : PublicKey) (l : list ReplicaEvent) : Prop :=
  ∃ st, stores s.1 !! k = Some st ∧ is_log st l.

Lemma has_log_wallet s k l : has_log s k l → wallet_log s k l.
Proof. intros (st & Hst & Hl). unfold wallet_log. by rewrite Hst. Qed.

Lemma wallet_has_log s k l : wallet_log s k l → l ≠ [] → has_log s k l.
Proof. unfold wallet_log. destruct (stores s.1 !! k) as [st|] eqn:Hst; [by exists st|]. by intros [-> _]. Qed.

Lemma run_cmd_post c s r s' l : wallet_log s (cmd_wallet c) l → run_cmd c s = (r, s') → cmd_post c l r s s'.
Proof. destruct c; [apply validate_post|apply register_post|apply propagate_post]. Qed.

(** A command touches the store of one wallet. *)
Definition only_wallet (k : PublicKey) (s s' : State) : Prop := ∀ k', k' ≠ k → stores s'.1 !! k' = stores s.1 !! k'.

#[local] Instance only_wallet_preorder k : PreOrder (only_wallet k).
Proof. split; [by intros s k'|]. intros s1 s2 s3 H1 H2 k' Hk. by rewrite H2, H1. Qed.

Lemma get_store_only k : keeps (only_wallet k) (get_load_or_create_store k).
Proof.
  intros [R w] k' Hk. unfold get_load_or_create_store. destruct (transfer_store_new _ _ _) as [[st|] w']; [|done].
  destruct (stores R !! k); [done|]. cbn. by rewrite lookup_insert_ne.
Qed.
Lemma insert_event_only k st e : keeps (only_wallet k) (insert_event k st e).
Proof.
  intros [R w] k' Hk. unfold insert_event. destruct (try_insert _ _) as [r [st' w']]. cbn. by rewrite lookup_insert_ne.
Qed.

#[local] Hint Resolve get_store_only insert_event_only keeps_lift keeps_throw keeps_ret keeps_get only_wallet_preorder : node_keeps.

Lemma cmd_only c : keeps (only_wallet (cmd_wallet c)) (run_cmd c).
Proof.
  destruct c; cbn [run_cmd cmd_wallet]; [unfold validate|unfold register|unfold receive_propagated]; repeat keep_step.
Qed.

(** A command appends at most one event to a log. *)
Lemma cmd_has_log c s r s' k l :
  has_log s k l → l ≠ [] → run_cmd c s = (r, s') → ∃ l', has_log s' k (l ++ l') ∧ (length l' ≤ 1)%nat.
Proof.
  intros Hl Hne Hrun. destruct (decide (k = cmd_wallet c)) as [->|Hk].
  - destruct (run_cmd_post c s r s' l (has_log_wallet _ _ _ Hl) Hrun) as [_ Hpost].
    assert (wallet_log s' (cmd_wallet c) (l ++ []) ∨ ∃ e, wallet_log s' (cmd_wallet c) (l ++ [e])) as [Hw|[e Hw]].
    { rewrite app_nil_r. destruct r as [e|e]; [destruct Hpost as [_ [?|[? _]]]|destruct Hpost as [?|(? & _ & ?)]]; eauto. }
    + exists []. split; [|cbn; lia]. apply wallet_has_log; [done|]. by rewrite app_nil_r.
    + exists [e]. split; [|cbn; lia]. apply wallet_has_log; [done|]. by destruct l.
  - exists []. split; [|cbn; lia]. rewrite app_nil_r. destruct Hl as (st & Hst & Hl). exists st. split; [|done].
    rewrite <- Hst. pose proof (cmd_only c s k Hk) as Hsame. by rewrite Hrun in Hsame.
Qed.

(** * A payment *)

(** How far a payment gets. *)
Lemma payment_cases cost logged x s r s' :
  run_wallet_op (OpPay cost logged x) s = (r, s') →
  (s' = s ∧ ¬ (passed_on x r)) ∨
  (∃ e, register (pw_payment x) s = (Err e, s') ∧ ¬ (passed_on x r)) ∨
  ∃ e s1 r2, register (pw_payment x) s = (Ok e, s1) ∧
    receive_propagated (name_of_pk (tap_sender (pw_payment x))) (tap_credit_proof (pw_payment x)) s1 = (r2, s').
Proof.
  cbn [run_wallet_op]. unfold process_payment, passed_on, bind at 1, lift at 1.
  destruct (serialise (pw_cmd x)) as [bytes|]; [|intros [= <- <-]; by left]. unfold bind at 1, get at 1.
  case_bool_decide; [intros [= <- <-]; by left|]. unfold bind, try.
  destruct (register (pw_payment x) s) as [[e|e] s1]; [|intros [= <- <-]; right; left; by exists e].
  destruct (receive_propagated _ _ s1) as [[e2|e2] s2] eqn:Hprop; [|intros [= <- <-]; right; right; by eauto].
  intros Hrun. right; right. exists e, s1, (Ok e2). split; [done|]. rewrite Hprop. f_equal. symmetry. revert Hrun.
  unfold get, lift, ret. destruct logged; [destruct (balance _ _); [|by intros [= _ <-]]|];
    (destruct (cost _) as [c|]; [destruct (_ <? _)|]); by intros [= _ <-].
Qed.

Lemma register_cmd p s e s1 : register p s = (Ok e, s1) → run_cmd (CmdRegister p) s = (Ok (EvTransferRegistered e), s1).
Proof. intros Hr. cbn. unfold bind. by rewrite Hr. Qed.

(** Whatever a request does, the logs only grow, by at most two events. *)
Lemma op_has_log o s r s' k l :
  has_log s k l → l ≠ [] → run_wallet_op o s = (r, s') → ∃ l', has_log s' k (l ++ l') ∧ (length l' ≤ 2)%nat.
Proof.
  intros Hl Hne Hrun. destruct o as [cost logged x|c].
  - destruct (payment_cases cost logged x s r s' Hrun) as [[-> _]|[(e & Hreg & _)|(e & s1 & r2 & Hreg & Hprop)]].
    + exists []. split; [by rewrite app_nil_r|cbn; lia].
    + destruct (cmd_has_log (CmdRegister (pw_payment x)) s (Err e) s' k l Hl Hne) as (l' & ? & ?); [|exists l'; split; [done|lia]].
      cbn. unfold bind. by rewrite Hreg.
    + apply register_cmd in Hreg. destruct (cmd_has_log _ _ _ _ k l Hl Hne Hreg) as (l1 & Hl1 & Hlen1).
      destruct (cmd_has_log (CmdPropagate (name_of_pk (tap_sender (pw_payment x))) (tap_credit_proof (pw_payment x))) s1
        (match r2 with Ok e => Ok (EvTransferPropagated e) | Err e => Err e end) s' k (l ++ l1)) as (l2 & Hl2 & Hlen2).
      * done.
      * by destruct l.
      * cbn. unfold bind. rewrite Hprop. by destruct r2.
      * exists (l1 ++ l2). rewrite app_assoc, length_app. split; [done|lia].
  - cbn in Hrun. unfold bind in Hrun. destruct (run_cmd c s) as [r1 s1] eqn:Hc.
    destruct (cmd_has_log c s r1 s1 k l Hl Hne Hc) as (l' & Hl' & Hlen). exists l'.
    destruct r1; injection Hrun as _ <-; (split; [done|lia]).
Qed.

(** A write that is passed on is paid for by a debit that is in the log then. *)
Lemma passed_on_registered cost logged x s r s' l :
  has_log s (tap_sender (pw_payment x)) l → l ≠ [] → run_wallet_op (OpPay cost logged x) s = (r, s') → passed_on x r →
  ∃ l', has_log s' (tap_sender (pw_payment x)) (l ++ l') ∧ (length l' ≤ 2)%nat ∧
        EvTransferRegistered (mkTransferRegistered (pw_payment x)) ∈ l'.
Proof.
  intros Hl Hne Hrun Hpass.
  destruct (payment_cases cost logged x s r s' Hrun) as [[_ Hno]|[(e & _ & Hno)|(e & s1 & r2 & Hreg & Hprop)]]; [done..|].
  apply register_cmd in Hreg.
  destruct (run_cmd_post (CmdRegister (pw_payment x)) s _ s1 l (has_log_wallet _ _ _ Hl) Hreg) as [_ [Hev [Hl1|[_ []]]]]. cbn [cmd_event] in Hev.
  rewrite Hev in Hl1. cbn [cmd_wallet] in Hl1.
  destruct (cmd_has_log (CmdPropagate (name_of_pk (tap_sender (pw_payment x))) (tap_credit_proof (pw_payment x))) s1
    (match r2 with Ok e => Ok (EvTransferPropagated e) | Err e => Err e end) s' (tap_sender (pw_payment x))
    (l ++ [EvTransferRegistered (mkTransferRegistered (pw_payment x))])) as (l2 & Hl2 & Hlen2).
  - apply wallet_has_log; [done|]. by destruct l.
  - by destruct l.
  - cbn. unfold bind. rewrite Hprop. by destruct r2.
  - exists (EvTransferRegistered (mkTransferRegistered (pw_payment x)) :: l2). rewrite <- app_assoc in Hl2.
    split; [done|]. split; [cbn; lia|by left].
Qed.

(** A debit that is in the log pays for nothing more. *)
Lemma registered_not_passed cost logged x s r s' l e :
  has_log s (tap_sender (pw_payment x)) l → log_fits l → EvTransferRegistered e ∈ l →
  tap_id (tr_transfer_proof e) = tap_id (pw_payment x) → run_wallet_op (OpPay cost logged x) s = (r, s') →
  ¬ (passed_on x r).
Proof.
  intros (st & Hst & Hl) Hfits He Hid Hrun.
  destruct (payment_cases cost logged x s r s' Hrun) as [[_ Hno]|[(e' & _ & Hno)|(e' & s1 & r2 & Hreg & _)]]; [done..|].
  exfalso. revert Hreg. unfold register, bind, get, lift, throw. destruct (negb _); [done|]. rewrite Hst.
  unfold load_wallet. rewrite (get_all_log st l) by done.
  destruct (wallet_from_history _ _ _ _ l) as [w|] eqn:Hw; cbn [map_err]; [|done].
  pose proof (register_known _ _ _ _ _ _ e (pw_payment x) Hw He Hid) as Hknown.
  destruct (wallet_register w (pw_payment x)) as [[ev|]|]; cbn [map_err]; [|done|done]. by destruct (Hknown ev).
Qed.

(** * A sequence of requests *)

Lemma registered_never_passed ops s k l e j cost logged x :
  has_log s k l → Z.of_nat (length l + 2 * length ops) ≤ u64_max + 1 → EvTransferRegistered e ∈ l →
  ops !! j = Some (OpPay cost logged x) → tap_sender (pw_payment x) = k → tap_id (tr_transfer_proof e) = tap_id (pw_payment x) →
  ∀ r, run_wallet_ops ops s !! j = Some r → ¬ (passed_on x r).
Proof.
  intros Hl Hfits He Hj Hk Hid. revert s l j Hl Hfits He Hj. induction ops as [|o ops IH]; intros s l j Hl Hfits He Hj r; [done|].
  cbn [run_wallet_ops]. destruct (run_wallet_op o s) as [r0 s'] eqn:Hrun. destruct j as [|j]; cbn in Hj |- *.
  - injection Hj as ->. intros [= <-]. subst k. eapply (registered_not_passed cost logged x s r0 s' l e Hl); [|done..].
    unfold log_fits. cbn in Hfits. lia.
  - destruct (op_has_log o s r0 s' k l Hl) as (l' & Hl' & Hlen); [by intros ->; apply elem_of_nil in He|done|].
    apply (IH s' (l ++ l')); [done| |apply elem_of_app; by left|done]. rewrite length_app. cbn in Hfits. lia.
Qed.

(** C8: a payment buys one write.  In any sequence of payments, validations,
    registrations and propagations, once a write was passed on for a payment,
    no later write is passed on for the same transfer, whoever asks and for
    whatever write. *)
Theorem payment_buys_one_write ops s l i j cost1 logged1 x1 cost2 logged2 x2 r1 r2 :
  has_log s (tap_sender (pw_payment x1)) l → l ≠ [] → Z.of_nat (length l + 2 * length ops) ≤ u64_max + 1 →
  (i < j)%nat → ops !! i = Some (OpPay cost1 logged1 x1) → ops !! j = Some (OpPay cost2 logged2 x2) →
  tap_sender (pw_payment x2) = tap_sender (pw_payment x1) → tap_id (pw_payment x2) = tap_id (pw_payment x1) →
  run_wallet_ops ops s !! i = Some r1 → passed_on x1 r1 →
  run_wallet_ops ops s !! j = Some r2 → ¬ (passed_on x2 r2).
Proof.
  intros Hl Hne Hfits Hij Hi Hj Hk Hid Hr1 Hpass. revert s l i j Hl Hne Hfits Hij Hi Hj Hr1.
  induction ops as [|o ops IH]; intros s l i j Hl Hne Hfits Hij Hi Hj Hr1 Hr2; [done|].
  cbn [run_wallet_ops] in Hr1, Hr2. destruct (run_wallet_op o s) as [r0 s'] eqn:Hrun.
  destruct j as [|j]; [lia|]. cbn in Hj, Hr2, Hfits. destruct i as [|i]; cbn in Hi, Hr1.
  - injection Hi as ->. injection Hr1 as ->.
    destruct (passed_on_registered cost1 logged1 x1 s r1 s' l Hl Hne Hrun Hpass) as (l' & Hl' & Hlen & Hin).
    eapply (registered_never_passed ops s' _ (l ++ l')); [exact Hl'| |apply elem_of_app; right; exact Hin|exact Hj|done|done|exact Hr2].
    rewrite length_app. lia.
  - destruct (op_has_log o s r0 s' _ l Hl Hne Hrun) as (l' & Hl' & Hlen).
    apply (IH s' (l ++ l') i j); [done|by destruct l| |lia|done..]. rewrite length_app. lia.
Qed.
End payments.

Module Witness.
Import ToyCrates ToyPickle ToyRouting ToyTransfers Replicas.Witness Transfers.Witness.

(** The payment of wallet 20, sent twice: for a write, then for another one,
    with a validation between them. *)
Definition write1 : PaidWrite := mkPaidWrite (mid 1) payment data signer (usr 7).
Definition write2 : PaidWrite := mkPaidWrite (mid 2) payment (DataCmdBlob (BlobDeletePrivate (baddr 4))) signer (usr 8).
Definition ops : list WalletOp := [OpPay cost false write1; OpCmd (CmdValidate transfer1); OpPay cost false write2].

Definition answer (i : nat) : Result NodeDuties := default (Ok []) (run_wallet_ops ops s3 !! i).

Lemma payment_buys_one_write_witness : passed_on write1 (answer 0) ∧ ¬ (passed_on write2 (answer 2)).
Proof.
  assert (wallet_log s3 (key 20) (log_of s3 (key 20))) as Hl by (vm_compute; reflexivity).
  assert (passed_on write1 (answer 0)) as Hfirst by reflexivity.
  split; [exact Hfirst|].
  refine (payment_buys_one_write ops s3 (log_of s3 (key 20)) 0 2 cost false write1 cost false write2 (answer 0) (answer 2)
    _ _ _ _ _ _ _ _ _ Hfirst _); try reflexivity.
  - apply wallet_has_log; [exact Hl|]. assert (length (log_of s3 (key 20)) = 3%nat) as Hlen by (vm_compute; reflexivity).
    intros Heq. rewrite Heq in Hlen. discriminate Hlen.
  - assert (length (log_of s3 (key 20)) = 3%nat) as Hlen by (vm_compute; reflexivity).
    intros Heq. rewrite Heq in Hlen. discriminate Hlen.
  - vm_compute. discriminate.
  - lia.
Defined.
End Witness.
