(* ===== verification/EventMapping.v ===== *)
(** [src/event_mapping/{mod,node_msg,client_msg}.rs]: the duty a node takes on
    for each message and each event of the network layer.

    An event of [sn_routing] is a value of [RoutingEvent]; [MessageId::new] and
    the decoding of node messages are arguments.  A promotion or a change of
    elders polls the network for its keys: [polls i] is the answer to the
    [i]-th poll, and the waiting loops run on fuel, [None] meaning that the
    loop still waits. *)

From S2P Require Import Prelude Crates Messages Toy Network Capacity.

Section event_mapping.
Context `{MO : MessagingOps}.

Record MsgContext : Type := mkMsgContext {
  ctx_msg : MsgType;
  ctx_src : SrcLocation;
}.
Record Mapping : Type := mkMapping {
  op : NodeDuty;
  ctx : option MsgContext;
}.
Definition no_mapping : Mapping := mkMapping NoOp None.

(** * client_msg.rs *)

(** [map_client_process_msg] *)
Definition map_client_process_msg (process_msg : ProcessMsg) (origin : EndUser) : NodeDuty :=
  let msg_id := process_msg_id process_msg in
  match process_msg with
  | PmQuery _ (QueryData query) client_signed => ProcessRead query msg_id client_signed origin
  | PmCmd _ (CmdData _ _) _ => ProcessDataPayment process_msg origin
  | PmCmd _ (CmdTransfer (ValidateTransferCmd signed_transfer)) _ =>
      ValidateClientTransfer signed_transfer msg_id (SrcEndUser origin)
  | PmCmd _ (CmdTransfer (SimulatePayoutCmd transfer)) _ => SimulatePayout transfer msg_id (SrcEndUser origin)
  | PmCmd _ (CmdTransfer (RegisterTransferCmd proof)) _ => RegisterTransfer proof msg_id (SrcEndUser origin)
  | PmQuery _ (QueryTransfer (GetHistoryQuery at_ since_version)) _ =>
      GetTransfersHistory at_ since_version msg_id (SrcEndUser origin)
  | PmQuery _ (QueryTransfer (GetBalanceQuery at_)) _ => GetBalance at_ msg_id (SrcEndUser origin)
  | PmQuery _ (QueryTransfer (GetStoreCostQuery bytes)) _ => GetStoreCost bytes msg_id (SrcEndUser origin)
  | _ =>
      let error_data :=
        convert_to_error_message (InvalidMessage msg_id ("Unknown user msg: " +:+ debug_process_msg process_msg)) in
      let src := SrcEndUser origin in
      let id := in_response_to msg_id in
      Send (mkOutgoingMsg
              (MtClient (CmProcessingError (processing_error_new (Some error_data) (Some process_msg) id)))
              (src_to_dst src) false AggNone)
  end.

(** [map_client_msg] *)
Definition map_client_msg (msg : ClientMsg) (user : EndUser) : Mapping :=
  match msg with
  | CmProcess process_msg =>
      mkMapping (map_client_process_msg process_msg user) (Some (mkMsgContext (MtClient msg) (SrcEndUser user)))
  | CmProcessingError _ => no_mapping
  | CmSupportingInfo _ => no_mapping
  end.

(** * node_msg.rs *)

Definition invalid_msg (msg : NodeMsg) : ErrorMessage :=
  convert_to_error_message (InvalidMessage (node_msg_id msg) ("Invalid dst: " +:+ debug_node_msg msg)).
Definition node_msg_error (msg : NodeMsg) (origin : SrcLocation) : NodeDuty :=
  let msg_id := node_msg_id msg in
  Send (mkOutgoingMsg (MtNode (NmNodeMsgError (invalid_msg msg) (in_response_to msg_id) msg_id))
          (src_to_dst origin) false AtDestination).

(** [match_node_msg] *)
Definition match_node_msg (msg : NodeMsg) (origin : SrcLocation) : NodeDuty :=
  match msg with
  | NmNodeCmd (NcSystem (RegisterWallet wallet_id)) _ => SetNodeWallet wallet_id (src_name origin)
  | NmNodeCmd (NcSystem (ReceiveExistingData node_rewards user_wallets metadata)) _ =>
      SynchState node_rewards user_wallets metadata
  | NmNodeCmd (NcSystem (ProposeRewardPayout proposal)) _ => ReceiveRewardProposal proposal
  | NmNodeCmd (NcSystem (AccumulateRewardPayout accumulation)) _ => ReceiveRewardAccumulation accumulation
  | NmNodeQuery (NqGetNodeWalletKey node_name) id => GetNodeWalletKey node_name id origin
  | NmNodeCmd (NcTransfers (PropagateTransferCmd proof)) id => PropagateTransfer proof id origin
  | NmNodeQuery (NqMetadata query client_signed origin) id => ProcessRead query id client_signed origin
  | NmNodeCmd (NcMetadata cmd client_signed origin) id => ProcessWrite cmd id client_signed origin
  | NmNodeQuery (NqChunks query _) id => ReadChunk query id
  | NmNodeCmd (NcChunks cmd client_signed _) id => WriteChunk cmd id client_signed
  | NmNodeCmd (NcSystem (ReplicateChunkCmd data)) id => ReplicateChunk data id
  | NmNodeCmd (NcSystem (RepublishChunkCmd data)) id => ProcessRepublish data id
  | NmNodeQuery NqGetSectionElders id => GetSectionElders id origin
  | NmNodeCmd (NcSystem (StorageFull _ node_id)) _ => IncrementFullNodeCount node_id
  | NmNodeQuery NqGetReplicaEvents id => GetTransferReplicaEvents id origin
  | NmNodeQueryResponse (NqrGetChunk res) _ correlation_id =>
      RecordAdultReadLiveness (GetBlob res) correlation_id (src_name origin)
  | _ => node_msg_error msg origin
  end.

(** [map_node_msg] *)
Definition map_node_msg (msg : NodeMsg) (src : SrcLocation) (dst : DstLocation) : Mapping :=
  match dst with
  | DstSection _ | DstNode _ => mkMapping (match_node_msg msg src) (Some (mkMsgContext (MtNode msg) src))
  | _ =>
      match src with
      | SrcEndUser _ => no_mapping
      | _ => mkMapping (node_msg_error msg src) (Some (mkMsgContext (MtNode msg) src))
      end
  end.

(** * mod.rs *)

(** [sn_routing::NodeElderChange] and the elders of an event *)
Inductive NodeElderChange : Type := ChangeNone | Promoted | Demoted.
Record Elders : Type := mkElders {
  el_prefix : Prefix;
  el_key : BlsPublicKey;
  el_added : gset XorName;
}.
Inductive RoutingEvent : Type :=
| MessageReceived (content : list byte) (src : SrcLocation) (dst : DstLocation)
| ClientMsgReceived (msg : ClientMsg) (user : EndUser)
| EvSectionSplit (elders sibling_elders : Elders) (self_status_change : NodeElderChange)
| EvEldersChanged (elders : Elders) (self_status_change : NodeElderChange)
| MemberLeft (name : XorName) (age : Z)
| MemberJoined (previous_name : option XorName)
| Relocated
| EvAdultsChanged (remaining added removed : gset XorName)
| OtherEvent.

Section polling.
Context (polls : nat → result RoutingError PublicKeySet).

(** The loop of an elder that stays one: it counts failed polls only. *)
Fixpoint await_key (fuel i : nat) (key : BlsPublicKey) (sanity_counter : Z) : option unit :=
  match fuel with
  | O => None
  | S fuel =>
      if sanity_counter <? 240 then
        match polls i with
        | Ok pk_set =>
            if bool_decide (key = pks_public_key pk_set) then Some tt
            else await_key fuel (S i) key sanity_counter
        | Err _ => await_key fuel (S i) key (sanity_counter + 1)
        end
      else Some tt
  end.

(** The loop of a promoted node: does it get its key share? *)
Fixpoint await_share (fuel i : nat) (sanity_counter : Z) : option bool :=
  match fuel with
  | O => None
  | S fuel =>
      match polls i with
      | Ok _ => Some true
      | Err _ => if 240 <? sanity_counter then Some false else await_share fuel (S i) (sanity_counter + 1)
      end
  end.
End polling.

(** [map_routing_event]; [decode] is [NodeMsg::from], [fresh] the random id
    of an answer to bytes that do not decode. *)
Definition map_routing_event (decode : list byte → result MessagingError NodeMsg) (fresh : MessageId)
    (polls : nat → result RoutingError PublicKeySet) (fuel : nat) (event : RoutingEvent) (r : Routing) :
    option Mapping :=
  match event with
  | MessageReceived content src dst =>
      Some match decode content with
           | Ok msg => map_node_msg msg src dst
           | Err error =>
               mkMapping (SendError (mkOutgoingLazyError
                 (processing_error_new
                    (Some (EmSerialization ("Could not deserialize Message at node: " +:+ debug_messaging_error error)))
                    None fresh)
                 (src_to_dst src))) None
           end
  | ClientMsgReceived msg user => Some (map_client_msg msg user)
  | EvSectionSplit elders sibling_elders self_status_change =>
      let split newbie :=
        mkMapping (SectionSplit (el_prefix elders) (pk_of_bls (el_key elders)) (el_added elders)
                     (el_added sibling_elders) (pk_of_bls (el_key sibling_elders)) newbie) None in
      Some match self_status_change with
           | ChangeNone => split false
           | Promoted => split true
           | Demoted => no_mapping
           end
  | EvEldersChanged elders self_status_change =>
      let changed newbie :=
        mkMapping (EldersChanged (el_prefix elders) (pk_of_bls (el_key elders)) (el_added elders) newbie) None in
      let first_section := prefix_is_empty (our_prefix r) in
      let first_elder := bool_decide (size (our_elder_names r) = 1%nat) in
      if first_section && first_elder then Some (mkMapping Genesis None) else
      match self_status_change with
      | ChangeNone =>
          if negb (is_elder r) then Some no_mapping
          else match await_key polls fuel 0 (el_key elders) 0 with
               | Some _ => Some (changed false)
               | None => None
               end
      | Promoted =>
          match await_share polls fuel 0 0 with
          | Some true => Some (changed true)
          | Some false => Some no_mapping
          | None => None
          end
      | Demoted => Some (mkMapping LevelDown None)
      end
  | MemberLeft name age => Some (mkMapping (ProcessLostMember name age) None)
  | MemberJoined previous_name =>
      let op :=
        if bool_decide (is_Some previous_name) then SetNodeJoinsAllowed false
        else if prefix_is_empty (our_prefix r) then NoOp
        else SetNodeJoinsAllowed false in
      Some (mkMapping op None)
  | Relocated => Some no_mapping
  | EvAdultsChanged remaining added removed => Some (mkMapping (AdultsChanged remaining added removed) None)
  | OtherEvent => Some no_mapping
  end.

(** * The waiting loops *)

(** A promoted node waits for at most 242 polls. *)
Lemma await_share_ends polls fuel i c :
  0 ≤ c ≤ 241 → (Z.to_nat (242 - c) ≤ fuel)%nat → is_Some (await_share polls fuel i c).
Proof.
  revert i c. induction fuel as [|fuel IH]; intros i c Hc Hf; [lia|]. simpl.
  destruct (polls i); [eauto|]. destruct (Z.ltb_spec 240 c); [eauto|]. apply IH; lia.
Qed.

(** An elder that waits for its key: polls that show it a different key are
    not counted, so as long as they come it waits. *)
Lemma await_key_waits polls fuel i key c :
  c < 240 → (∀ j, (i ≤ j < i + fuel)%nat → ∃ set, polls j = Ok set ∧ key ≠ pks_public_key set) →
  await_key polls fuel i key c = None.
Proof.
  revert i. induction fuel as [|fuel IH]; intros i Hc Hp; [done|]. simpl.
  destruct (Z.ltb_spec c 240); [|lia]. destruct (Hp i) as (set & -> & Hne); [lia|].
  rewrite bool_decide_false by done. apply IH; [done|]. intros j Hj. apply Hp. lia.
Qed.

Lemma await_key_ends polls fuel i key c :
  0 ≤ c → (∃ j set, (i ≤ j < i + fuel)%nat ∧ polls j = Ok set ∧ key = pks_public_key set) →
  is_Some (await_key polls fuel i key c).
Proof.
  revert i c. induction fuel as [|fuel IH]; intros i c Hc (j & set & Hj & Hset & Hkey); [lia|]. simpl.
  destruct (Z.ltb_spec c 240); [|eauto]. destruct (decide (j = i)) as [->|Hne].
  { rewrite Hset, bool_decide_true by done. eauto. }
  assert (∃ j set, (S i ≤ j < S i + fuel)%nat ∧ polls j = Ok set ∧ key = pks_public_key set) as Hrec.
  { exists j, set. split; [lia|done]. }
  destruct (polls i); [case_bool_decide; [eauto|]|]; apply IH; (lia || done).
Qed.

(** Is this the event after which an elder waits for the section's new key? *)
Definition waits_for_key (r : Routing) (event : RoutingEvent) : option BlsPublicKey :=
  match event with
  | EvEldersChanged elders ChangeNone =>
      if (prefix_is_empty (our_prefix r) && bool_decide (size (our_elder_names r) = 1%nat)) || negb (is_elder r)
      then None else Some (el_key elders)
  | _ => None
  end.

(** C32: every event is mapped within 242 polls of the network, but for the
    change of elders on a node that stays an elder: there the mapping comes
    as soon as a poll shows the new key, and until then, as long as polls
    show another key, it never comes. *)
Theorem event_mapping_returns decode fresh polls fuel event r :
  match waits_for_key r event with
  | None => (242 ≤ fuel)%nat → is_Some (map_routing_event decode fresh polls fuel event r)
  | Some key =>
      ((∃ j set, (j < fuel)%nat ∧ polls j = Ok set ∧ key = pks_public_key set) →
       is_Some (map_routing_event decode fresh polls fuel event r)) ∧
      ((∀ j, ∃ set, polls j = Ok set ∧ key ≠ pks_public_key set) →
       map_routing_event decode fresh polls fuel event r = None)
  end.
Proof.
  destruct event as [| | |elders [| |]| | | | |]; simpl; try (intros; eauto; fail).
  - destruct (_ && _); simpl; [eauto|]. destruct (negb (is_elder r)); simpl; [eauto|]. split.
    + intros (j & set & Hj & Hset & Hkey).
      destruct (await_key_ends polls fuel 0 (el_key elders) 0) as [[] ->]; [done| |eauto].
      exists j, set. split; [lia|done].
    + intros Hp. rewrite await_key_waits; [done|done|]. intros j _. apply Hp.
  - intros Hf. destruct (_ && _); [eauto|].
    destruct (await_share_ends polls fuel 0 0) as [[] ->]; [lia|lia|eauto|eauto].
  - intros _. destruct (_ && _); eauto.
Qed.
End event_mapping.

Module Witness.
Import ToyCrates ToyRouting.

(** A section of two elders, whose key is 9 and becomes 7. *)
Definition net : Routing := toy_routing [mkPeer (nm 0) 5; mkPeer (nm 1) 6] [] root_prefix.
Definition new_elders : Elders := mkElders root_prefix (7%N : BlsPublicKey) ∅.
Definition old_key : PublicKeySet := (9%N, 1%nat).
Definition no_decode : list byte → result MessagingError NodeMsg := λ _, Err tt.

(** An elder whose polls keep showing the old key waits for ever; a promoted
    node whose polls all fail gives up within 242 of them. *)
Lemma event_mapping_returns_witness :
  (∀ fuel, map_routing_event no_decode (mid 1) (λ _, Ok old_key) fuel (EvEldersChanged new_elders ChangeNone) net = None) ∧
  is_Some (map_routing_event no_decode (mid 1) (λ _, Err tt) 242 (EvEldersChanged new_elders Promoted) net).
Proof.
  split.
  - intros fuel.
    destruct (event_mapping_returns no_decode (mid 1) (λ _, Ok old_key) fuel
                (EvEldersChanged new_elders ChangeNone) net) as [_ Hwait].
    apply Hwait. intros _. exists old_key. split; [reflexivity|discriminate].
  - apply (event_mapping_returns no_decode (mid 1) (λ _, Err tt) 242 (EvEldersChanged new_elders Promoted) net).
    lia.
Defined.
End Witness.
