(* ===== verification/Ledger.v ===== *)
(** Money between sections.  A client has a transfer registered by the section of
    its wallet, which sends the credit to the section of the recipient; messages
    may be repeated, delayed or lost.

    [Transfers.tf_validate], [Transfers.tf_register] and
    [Transfers.tf_receive_propagated] are run by one elder of each section, on
    its wallets and its disk, which may fail.  Payments for writes, whose credit
    stays in the section, are in [Payments]; simulated payouts, which make money
    for tests, are left out. *)

From S2P Require Import Prelude Crates Messages Disk Toy Network F64 Capacity RewardCalc TransferStore Replicas Transfers EventMapping.

Section ledger.
Context `{DO : DataOpsCrate} `{MC : !MessagingCrate} `{EC : !EncodingCrate} `{MO : !MessagingOps}
        `{SN : !Serde XorName} `{SD : !Serde SignedDebit} `{SSC : !Serde SignedCredit}
        `{SCP : !Serde CreditAgreementProof} `{SDC : !Serde DataCmd}
        `{DBG : !DebugT ReplicaEvent} `{PC : !PickleCrate ReplicaEvent} `{TC : !TransfersCrate}
        `{PL : !PickleLaws (T := ReplicaEvent)} `{TL : !TransfersLaws}.

Abbreviation State := (Replicas * DbWorld (T := ReplicaEvent))%type.
Implicit Types (s : State) (k : PublicKey) (l : list ReplicaEvent).

(** * The events of a section *)

(** What [all_events] answers. *)
Definition events s : list ReplicaEvent := default [] (res_ok (all_events s.1)).

(** The wallets of the section are logs of their own events, on their own files,
    of at most [n] events. *)
Record sane (n : nat) s : Prop := mkSane {
  sane_logs : ∀ k, ∃ l, wallet_log s k l ∧ (length l ≤ n)%nat ∧ Forall (λ e, event_wallet e = k) l;
  sane_paths : ∀ k st, stores s.1 !! k = Some st → store_path (name_of_pk k) (root_dir s.1) = Ok (db_at (ts_db st));
}.

Definition events_of (m : gmap PublicKey TransferStore) : list ReplicaEvent := map_to_list m ≫= λ '(_, st), get_all st.

Lemma events_eq s : events s = events_of (stores s.1).
Proof. unfold events, all_events, events_of. cbn. induction (map_to_list _) as [|[k st] m IH]; cbn; [done|]. by rewrite IH. Qed.

(** The events of a section are those of one wallet and those of the others. *)
Lemma events_split s k l : wallet_log s k l → log_fits l → events s ≡ₚ l ++ events_of (delete k (stores s.1)).
Proof.
  intros Hl Hfits. rewrite events_eq. unfold wallet_log in Hl. destruct (stores s.1 !! k) as [st|] eqn:Hk.
  - unfold events_of. rewrite <- (insert_delete_id (stores s.1) k st Hk) at 1.
    rewrite map_to_list_insert by apply lookup_delete_eq. cbn. by rewrite (get_all_log st l Hl Hfits).
  - destruct Hl as [-> _]. by rewrite delete_id.
Qed.

Lemma sane_mono n n' s : (n ≤ n')%nat → sane n s → sane n' s.
Proof.
  intros Hn [Hlogs Hpaths]. split; [|done]. intros k. destruct (Hlogs k) as (l & Hl & Hlen & Hown).
  exists l. repeat split; [done|lia|done].
Qed.

(** An event of the section is in the log of its wallet. *)
Lemma events_wallet n s e :
  sane n s → Z.of_nat n ≤ u64_max → e ∈ events s → ∃ l, wallet_log s (event_wallet e) l ∧ log_fits l ∧ e ∈ l.
Proof.
  intros [Hlogs _] Hn He. rewrite events_eq in He. unfold events_of in He.
  apply list_elem_of_bind in He as ([k st] & He & Hk%elem_of_map_to_list).
  destruct (Hlogs k) as (l & Hl & Hlen & Hown). assert (is_log st l) as Hst by (by eapply wallet_log_store).
  assert (log_fits l) as Hfits by (unfold log_fits; lia).
  rewrite (get_all_log st l Hst Hfits) in He. rewrite Forall_forall in Hown. rewrite (Hown e He). eauto.
Qed.

(** * A command and the other wallets *)

(** Since [s0], only the file of wallet [k] was written. *)
Definition framed k s0 s : Prop :=
  root_dir s.1 = root_dir s0.1 ∧
  (∀ k' st, stores s.1 !! k' = Some st → store_path (name_of_pk k') (root_dir s0.1) = Ok (db_at (ts_db st))) ∧
  (∃ l, wallet_log s k l) ∧
  (∀ q, store_path (name_of_pk k) (root_dir s0.1) ≠ Ok q → db_file s.2 q = db_file s0.2 q).

Lemma get_store_framed k s0 :
  hoare (framed k s0) (get_load_or_create_store k) (λ st s, framed k s0 s ∧ stores s.1 !! k = Some st) (framed k s0).
Proof.
  intros s (Hroot & Hpaths & [l Hl] & Hfiles). destruct (get_load_or_create_store k s) as [r s'] eqn:Hget.
  destruct (get_store_log k s l r s' Hl Hget) as ([Hr' Hsame] & _ & Hl' & Hst).
  enough (framed k s0 s') as HF by (destruct r; [by destruct Hst|done]).
  destruct s as [R w]. unfold get_load_or_create_store in Hget. cbn [fst snd] in *.
  destruct (transfer_store_new (name_of_pk k) (root_dir R) w) as [r1 w1] eqn:Hnew.
  assert (s'.2 = w1) as Hw by (destruct r1; [destruct (stores R !! k)|]; by injection Hget as _ <-).
  destruct (store_path (name_of_pk k) (root_dir R)) as [p|e] eqn:Hp.
  - destruct (new_store_spec _ _ _ _ _ _ Hp Hnew) as (_ & Hother & _ & _ & Hres). rewrite Hroot in Hp.
    split; [by rewrite Hr'|]. split; [|split; [by exists l|]].
    + intros k' st Hk'. destruct (decide (k' = k)) as [->|Hne]; [|rewrite Hsame in Hk' by done; by apply Hpaths].
      destruct r1 as [st1|]; [|injection Hget as _ <-; by apply Hpaths].
      destruct (stores R !! k) as [st2|] eqn:Hk; injection Hget as _ <-; [by apply Hpaths|].
      cbn in Hk'. rewrite lookup_insert_eq in Hk'. injection Hk' as <-. destruct Hres as (_ & -> & _). done.
    + intros q Hq. rewrite Hw, Hother by congruence. by apply Hfiles.
  - assert (r1 = Err e ∧ w1 = w) as [-> ->].
    { revert Hnew Hp. unfold transfer_store_new, store_path. unfold_m.
      destruct (to_db_key (name_of_pk k)); [done|]. by intros [= <- <-] [= <-]. }
    injection Hget as _ <-. split; [done|]. split; [done|]. by split; [exists l|].
Qed.

Lemma insert_event_framed k s0 st e :
  hoare (λ s, framed k s0 s ∧ stores s.1 !! k = Some st) (insert_event k st e) (λ _, framed k s0) (framed k s0).
Proof.
  intros s [(Hroot & Hpaths & [l Hl] & Hfiles) Hk]. assert (is_log st l) as Hst by (by eapply wallet_log_store).
  destruct (insert_event k st e s) as [r s'] eqn:Hins. enough (framed k s0 s') by by destruct r.
  destruct (insert_event_log k st e s l r s' Hst Hins) as [[Hr' Hsame] Hl'].
  destruct s as [R w]. unfold insert_event in Hins. destruct (try_insert e (st, w)) as [r1 [st1 w1]] eqn:Htry.
  injection Hins as <- <-. cbn [fst snd] in *. apply (try_insert_log _ l) in Htry as (_ & Hat & _ & _ & Hfile & _); [|done].
  split; [done|]. split; [|split; [eauto|]]; cbn [fst snd set_stores stores].
  - intros k' st'. destruct (decide (k = k')) as [<-|Hk']; [|rewrite lookup_insert_ne by done; apply Hpaths].
    rewrite lookup_insert_eq. intros [= <-]. rewrite Hat. by apply Hpaths.
  - intros q Hq. rewrite Hfile, decide_False; [by apply Hfiles|]. intros [_ ->]. by apply Hq, Hpaths.
Qed.

Lemma cmd_framed c s0 : hoare (framed (cmd_wallet c) s0) (run_cmd c) (λ _, framed (cmd_wallet c) s0) (framed (cmd_wallet c) s0).
Proof.
  set (I := framed (cmd_wallet c) s0).
  destruct c as [t|p|n p]; cbn [run_cmd]; apply (hoare_bind _ _ _ (λ _, I)); try (intros e; by apply hoare_ret).
  - eapply validate_keeps; [intros st e _; apply insert_event_framed|done].
  - eapply register_keeps; [intros st e _; apply insert_event_framed|done].
  - eapply receive_propagated_keeps; [apply get_store_framed|intros st e _; apply insert_event_framed|done].
Qed.

Lemma stores_rest k s s' :
  (∀ k', k' ≠ k → stores s'.1 !! k' = stores s.1 !! k') → delete k (stores s'.1) = delete k (stores s.1).
Proof.
  intros Hsame. apply map_eq. intros k'. destruct (decide (k' = k)) as [->|Hne]; [by rewrite !lookup_delete_eq|].
  rewrite !lookup_delete_ne by done. by apply Hsame.
Qed.

(** What a command adds to the events of the section: nothing, or its event; a
    registration that succeeds does add it. *)
Definition adds (c : ReplicaCmd) (r : Result ReplicaEvent) s s' : Prop :=
  (events s' ≡ₚ events s ∧ ∀ p, c = CmdRegister p → is_ok r = false) ∨
  ∃ e, cmd_event c e ∧ events s' ≡ₚ events s ++ [e].

Lemma cmd_event_wallet c e : cmd_event c e → event_wallet e = cmd_wallet c.
Proof. destruct c; cbn; [intros (? & ? & ? & ->)|intros ->|intros ->]; done. Qed.

Lemma cmd_sane n c s r s' :
  distinct_paths (root_dir s.1) → sane n s → Z.of_nat n ≤ u64_max → run_cmd c s = (r, s') →
  sane (S n) s' ∧ root_dir s'.1 = root_dir s.1 ∧ adds c r s s'.
Proof.
  intros Hdist [Hlogs Hpaths] Hn Hrun. set (k := cmd_wallet c). destruct (Hlogs k) as (l & Hl & Hlen & Hown).
  assert (framed k s s') as (Hroot & Hpaths' & _ & Hfiles).
  { pose proof (hoare_run _ _ _ _ _ _ _ (cmd_framed c s) (conj eq_refl (conj Hpaths (conj (ex_intro _ l Hl) (λ _ _, eq_refl)))) Hrun) as HF.
    by destruct r. }
  assert (cmd_post c l r s s') as [[_ Hsame] Hpost].
  { destruct c; [by apply validate_post|by apply register_post|by apply propagate_post]. }
  assert (∃ l', wallet_log s' k l' ∧ (l' = l ∧ (∀ p, c = CmdRegister p → is_ok r = false) ∨ ∃ e, cmd_event c e ∧ l' = l ++ [e]))
    as (l' & Hl' & Hcase).
  { destruct r as [e|e].
    - destruct Hpost as [He [Hl'|[Hl' Hc]]]; [exists (l ++ [e])|exists l]; (split; [done|]); [eauto|].
      left. split; [done|]. by intros p ->.
    - destruct Hpost as [Hl'|(e' & He & Hl')]; [exists l|exists (l ++ [e'])]; (split; [done|]); eauto. }
  assert (log_fits l) as Hfits by (unfold log_fits; lia).
  assert ((length l' ≤ S n)%nat) as Hlen' by (destruct Hcase as [[-> _]|(e & _ & ->)]; rewrite ?length_app; cbn; lia).
  assert (log_fits l') as Hfits' by (unfold log_fits; lia).
  split; [split|split; [done|]].
  - intros k'. destruct (decide (k' = k)) as [->|Hne].
    + exists l'. split; [done|]. split; [done|]. destruct Hcase as [[-> _]|(e & He & ->)]; [done|]. apply Forall_app.
      split; [done|]. constructor; [by apply cmd_event_wallet|done].
    + destruct (Hlogs k') as (l2 & Hl2 & Hlen2 & Hown2). exists l2. split; [|split; [lia|done]].
      unfold wallet_log in *. rewrite Hsame by done.
      destruct (stores s.1 !! k') as [st|]; [done|]. destruct Hl2 as [-> Hf2]. split; [done|]. intros p m Hp Hm.
      rewrite Hroot in Hp. rewrite Hfiles in Hm; [by eapply Hf2|]. intros Hp2. by apply Hne, (Hdist k' k p).
  - intros k' st Hk'. rewrite Hroot. by apply Hpaths'.
  - assert (delete k (stores s'.1) = delete k (stores s.1)) as Hrest by by apply stores_rest.
    pose proof (events_split s' k l' Hl' Hfits') as Hev'. pose proof (events_split s k l Hl Hfits) as Hev.
    rewrite Hrest in Hev'.
    destruct Hcase as [[-> Hr]|(e & He & ->)]; [left; by rewrite Hev', Hev|right]. exists e. split; [done|].
    rewrite Hev', Hev, <- !app_assoc. apply Permutation_app_head, Permutation_app_comm.
Qed.

(** A credit that the section has is not added. *)
Lemma known_credit_kept b n p s r s' :
  sane b s → Z.of_nat b ≤ u64_max → p ∈ omap propagated (events s) →
  run_cmd (CmdPropagate n p) s = (r, s') → events s' ≡ₚ events s.
Proof.
  intros Hs Hb Hin Hrun. apply list_elem_of_omap in Hin as ([| |e] & He & Hp); try done. injection Hp as Hp.
  destruct (receive_propagated n p s) as [r1 s1] eqn:Hrec.
  assert (s1 = s') as -> by (cbn in Hrun; unfold bind, ret in Hrun; rewrite Hrec in Hrun; destruct r1; by injection Hrun).
  destruct (events_wallet b s _ Hs Hb He) as (l & Hl & Hfits & Hin). cbn [event_wallet] in Hl. rewrite Hp in Hl.
  destruct (known_credit_not_added n p s l e r1 s') as [Hl' Hsame]; [done|done|done|by rewrite Hp|done|].
  by rewrite (events_split s _ l Hl), (events_split s' _ l Hl'), (stores_rest _ s s').
Qed.

(** What a command does to the events of a section; a credit it adds is new. *)
Lemma cmd_news b c s r s' :
  distinct_paths (root_dir s.1) → sane b s → Z.of_nat b ≤ u64_max → run_cmd c s = (r, s') →
  sane (S b) s' ∧ root_dir s'.1 = root_dir s.1 ∧
  ∃ es, events s' ≡ₚ events s ++ es ∧
    (es = [] ∧ (∀ p, c = CmdRegister p → is_ok r = false) ∨
     ∃ e, es = [e] ∧ cmd_event c e ∧ ∀ p, propagated e = Some p → p ∉ omap propagated (events s)).
Proof.
  intros Hdist Hsane Hb Hrun. destruct (cmd_sane b c s r s' Hdist Hsane Hb Hrun) as (Hsane' & Hroot' & Hadds).
  split; [done|]. split; [done|]. destruct Hadds as [[Hev Hr]|(e & He & Hev)].
  { exists []. rewrite app_nil_r. split; [done|]. by left. }
  destruct c as [t|p|n p]; [destruct He as (ds & cs & ks & ->)|cbn in He; subst e..].
  - eexists. split; [exact Hev|]. right. eexists. split; [done|]. split; [cbn; eauto|]. done.
  - eexists. split; [exact Hev|]. right. eexists. split; [done|]. split; [done|]. done.
  - eexists. split; [exact Hev|]. right. eexists. split; [done|]. split; [done|]. intros p' [= <-] Hin.
    pose proof (known_credit_kept b n p s r s' Hsane Hb Hin Hrun) as Hsame. rewrite Hsame in Hev.
    apply Permutation_length in Hev. rewrite length_app in Hev. cbn in Hev. lia.
Qed.

(** * Sections and the messages between them *)

(** One elder of each section, and what was sent. *)
Record ledger : Type := mkLedger {
  lg_sections : list State;
  lg_wires : list OutgoingMsg;
}.

(** What an elder does for the duties of a transfer ([Node.handle]). *)
Definition transfer_duty (fresh : MessageId) (duty : NodeDuty) : option (M Error State NodeDuty) :=
  match duty with
  | ValidateClientTransfer transfer msg_id origin => Some (tf_validate fresh transfer msg_id origin)
  | RegisterTransfer proof msg_id origin => Some (tf_register proof msg_id origin)
  | PropagateTransfer proof msg_id origin => Some (tf_receive_propagated proof msg_id origin)
  | _ => None
  end.
Definition sent (r : Result NodeDuty) : list OutgoingMsg := match r with Ok (Send m) => [m] | _ => [] end.

(** A client's message reaches any section.  A message between sections reaches
    the section of its destination, any number of times or never. *)
Inductive ledger_step (home : XorName → nat) : ledger → ledger → Prop :=
| step_client ss ws i s msg user fresh run r s' :
    ss !! i = Some s →
    transfer_duty fresh (op (map_client_msg msg user)) = Some run → run s = (r, s') →
    ledger_step home (mkLedger ss ws) (mkLedger (<[i := s']> ss) (ws ++ sent r))
| step_deliver ss ws i s m n src name fresh run r s' :
    ss !! i = Some s → m ∈ ws → msg m = MtNode n → dst m = DstSection name → home name = i →
    transfer_duty fresh (op (map_node_msg n src (dst m))) = Some run → run s = (r, s') →
    ledger_step home (mkLedger ss ws) (mkLedger (<[i := s']> ss) (ws ++ sent r)).

(** The message of a credit. *)
Definition carries (m : OutgoingMsg) (p : CreditAgreementProof) : Prop :=
  ∃ id, msg m = MtNode (NmNodeCmd (NcTransfers (PropagateTransferCmd p)) id).

Definition credits l : list CreditAgreementProof := omap propagated l.
(** The credits of the debits. *)
Definition debits l : list CreditAgreementProof := (λ e, tap_credit_proof (tr_transfer_proof e)) <$> omap registered l.

(** Only a registration that succeeds sends a credit, to the section of the
    recipient. *)
Lemma validate_sends fresh t id origin s r s' :
  tf_validate fresh t id origin s = (r, s') →
  (∃ r', validate t s = (r', s')) ∧ ∀ m p, m ∈ sent r → ¬ carries m p.
Proof.
  unfold tf_validate, bind, try, ret. destruct (validate t s) as [r1 s1]. intros [= <- <-]. split; [eauto|].
  intros m p Hm [i Hc]. apply list_elem_of_singleton in Hm as ->. by destruct r1.
Qed.

Lemma propagated_sends q id origin s r s' :
  tf_receive_propagated q id origin s = (r, s') →
  (∃ r', receive_propagated (src_name origin) q s = (r', s')) ∧ ∀ m p, m ∈ sent r → ¬ carries m p.
Proof.
  unfold tf_receive_propagated. unfold bind at 1, try. unfold ret, throw.
  destruct (receive_propagated (src_name origin) q s) as [r1 s1]. intros Hrun.
  assert (s' = s1 ∧ (sent r = [] ∨ ∃ x d e i i', r = Ok (Send (mkOutgoingMsg (MtNode (NmNodeCmdError e i i')) d false x))))
    as [-> Hr] by (repeat case_match; injection Hrun as <- <-; (split; [done|]); (by left) || (right; eauto 10)).
  split; [eauto|]. intros m p Hm [i Hc]. destruct Hr as [Hr|(x & d & e & i1 & i2 & ->)].
  - rewrite Hr in Hm. by apply not_elem_of_nil in Hm.
  - by apply list_elem_of_singleton in Hm as ->.
Qed.

Lemma register_proof q s e s' : register q s = (Ok e, s') → tr_transfer_proof e = q.
Proof.
  unfold register, bind, get, ret, throw, lift. destruct (negb _); [done|].
  destruct (stores s.1 !! tap_sender q) as [st|]; [|done]. destruct (load_wallet _ _ _) as [w|]; [|done].
  destruct (wallet_register w q) as [[e1|]|] eqn:Hreg; cbn [map_err]; [|done|done].
  destruct (insert_event _ _ _ s) as [[]]; [|done]. destruct (map_err _ _); [|done]. intros [= <- _].
  by eapply register_event.
Qed.

Lemma register_sends q id origin s r s' :
  tf_register q id origin s = (r, s') →
  ∃ r', register q s = (r', s') ∧
    ∀ m p, m ∈ sent r → carries m p →
      is_ok r' = true ∧ p = tap_credit_proof q ∧ dst m = DstSection (name_of_pk (cap_recipient p)).
Proof.
  unfold tf_register, bind, try, ret. destruct (register q s) as [r1 s1] eqn:Hreg. intros Hrun.
  exists r1. destruct r1 as [e|e]; injection Hrun as <- <-; (split; [done|]); intros m p Hm [i Hc];
    apply list_elem_of_singleton in Hm as ->; [|done]. injection Hc as <- _.
  by rewrite (register_proof q s e s1 Hreg).
Qed.

(** A duty runs one command of the replica. *)
Lemma duty_runs fresh duty run s r s' :
  transfer_duty fresh duty = Some run → run s = (r, s') →
  ∃ c r', run_cmd c s = (r', s') ∧
    (∀ n p, c = CmdPropagate n p → ∃ id o, duty = PropagateTransfer p id o) ∧
    ∀ m p, m ∈ sent r → carries m p →
      dst m = DstSection (name_of_pk (cap_recipient p)) ∧
      ∃ t, c = CmdRegister t ∧ p = tap_credit_proof t ∧ is_ok r' = true.
Proof.
  assert (∀ A B (m : M Error State A) (f : A → B) s a s', m s = (a, s') →
    bind m (λ x, ret (f x)) s = (match a with Ok x => Ok (f x) | Err e => Err e end, s')) as Hmap.
  { intros A B m f s1 a s2 Hm. unfold bind. rewrite Hm. by destruct a. }
  destruct duty; try done; cbn [transfer_duty]; intros [= <-] Hrun.
  - apply propagated_sends in Hrun as [[r' Hr] Hno]. exists (CmdPropagate (src_name origin) proof).
    eexists. split; [by apply Hmap|]. split; [naive_solver|]. intros m p Hm Hc. by destruct (Hno m p).
  - apply validate_sends in Hrun as [[r' Hr] Hno]. exists (CmdValidate signed_transfer).
    eexists. split; [by apply Hmap|]. split; [done|]. intros m p Hm Hc. by destruct (Hno m p).
  - apply register_sends in Hrun as (r' & Hr & Hyes). exists (CmdRegister proof).
    eexists. split; [by apply Hmap|]. split; [done|]. intros m p Hm Hc. destruct (Hyes m p Hm Hc) as (Hok & -> & Hd).
    split; [done|]. exists proof. split; [done|]. split; [done|]. by destruct r'.
Qed.

(** * Every credit has its debit *)

Section conserve.
Context (home : XorName → nat) (start : list State).
Context (Hstart : Forall (λ s, distinct_paths (root_dir s.1)) start).

(** The events [news] of each section are new since the start; no wallet has more
    than [b] events. *)
Record accounts (b : nat) (L : ledger) (news : list (list ReplicaEvent)) : Prop := mkAccounts {
  acc_sections : Forall3 (λ s0 s new, sane b s ∧ root_dir s.1 = root_dir s0.1 ∧ events s ≡ₚ events s0 ++ new)
                   start (lg_sections L) news;
  acc_home : ∀ j new p, news !! j = Some new → p ∈ credits new → home (name_of_pk (cap_recipient p)) = j;
  acc_once : NoDup (credits (concat news));
  acc_paid : credits (concat news) ⊆ debits (concat news);
  acc_wires : ∀ m p, m ∈ lg_wires L → carries m p →
    dst m = DstSection (name_of_pk (cap_recipient p)) ∧ p ∈ debits (concat news);
}.

Lemma concat_insert {A} (ls : list (list A)) i x y :
  ls !! i = Some x → concat (<[i := x ++ y]> ls) ≡ₚ concat ls ++ y.
Proof.
  revert i. induction ls as [|l' ls IH]; intros [|i] Hi; cbn in *; [done..| |].
  - injection Hi as ->. rewrite <- !app_assoc. apply Permutation_app_head, Permutation_app_comm.
  - by rewrite IH, app_assoc.
Qed.

Lemma Forall3_update {A B C} (P Q : A → B → C → Prop) xs ys zs i x y z :
  Forall3 P xs ys zs → (∀ x y z, P x y z → Q x y z) → xs !! i = Some x → Q x y z →
  Forall3 Q xs (<[i := y]> ys) (<[i := z]> zs).
Proof.
  intros HP HPQ. revert i. induction HP as [|x0 y0 z0 xs ys zs H0 HP IH]; intros [|i] Hi Hxyz; cbn in *; [done..| |].
  - injection Hi as ->. constructor; [done|]. by eapply Forall3_impl.
  - constructor; [by apply HPQ|]. by apply IH.
Qed.

Lemma debits_new news i new es :
  news !! i = Some new → debits (concat (<[i := new ++ es]> news)) ≡ₚ debits (concat news) ++ debits es.
Proof. intros Hi. unfold debits. by rewrite (concat_insert _ _ _ _ Hi), omap_app, fmap_app. Qed.

Lemma credits_new news i new es :
  news !! i = Some new → credits (concat (<[i := new ++ es]> news)) ≡ₚ credits (concat news) ++ credits es.
Proof. intros Hi. unfold credits. by rewrite (concat_insert _ _ _ _ Hi), omap_app. Qed.

(** A section runs a command: a credit is of a debit and reaches its home, a
    message [ms] is of a new debit. *)
Lemma cmd_accounts b L news i s c r s' ms :
  accounts b L news → Z.of_nat b ≤ u64_max → lg_sections L !! i = Some s → run_cmd c s = (r, s') →
  (∀ n p, c = CmdPropagate n p → home (name_of_pk (cap_recipient p)) = i ∧ p ∈ debits (concat news)) →
  (∀ m p, m ∈ ms → carries m p → dst m = DstSection (name_of_pk (cap_recipient p)) ∧
     ∃ t, c = CmdRegister t ∧ p = tap_credit_proof t ∧ is_ok r = true) →
  ∃ news', accounts (S b) (mkLedger (<[i := s']> (lg_sections L)) (lg_wires L ++ ms)) news'.
Proof.
  intros [Hsec Hhome Honce Hpaid Hwires] Hb Hs Hrun Hcredit Hms.
  destruct (Forall3_lookup_m _ _ _ _ _ _ Hsec Hs) as (s0 & new & Hs0 & Hnew & Hsane & Hroot & Hev).
  rewrite Forall_lookup in Hstart. specialize (Hstart i s0 Hs0). rewrite <- Hroot in Hstart.
  destruct (cmd_news b c s r s' Hstart Hsane Hb Hrun) as (Hsane' & Hroot' & es & Hes & Hcase).
  pose proof (debits_new news i new es Hnew) as Hdeb. pose proof (credits_new news i new es Hnew) as Hcred.
  assert (debits (concat news) ⊆ debits (concat (<[i := new ++ es]> news))) as Hmore.
  { rewrite Hdeb. intros p Hp. apply elem_of_app. by left. }
  assert (∀ p, p ∈ credits es → home (name_of_pk (cap_recipient p)) = i ∧ p ∈ debits (concat news) ∧
            credits es = [p] ∧ p ∉ credits (events s)) as Hnewc.
  { intros p Hp. destruct Hcase as [[-> _]|(e & -> & He & Hfresh)]; [by inversion Hp|].
    destruct c as [t|t|n t]; [destruct He as (? & ? & ? & ->)|cbn in He; subst e..]; [by inversion Hp..|].
    apply list_elem_of_singleton in Hp as ->. destruct (Hcredit n t eq_refl) as [Hh Hd].
    repeat split; [done|done|]. by apply Hfresh. }
  exists (<[i := new ++ es]> news). split; cbn [lg_sections lg_wires].
  - eapply Forall3_update; [exact Hsec| |done|].
    + intros x y z (Hy & Hxy). split; [|done]. by eapply sane_mono, Hy; lia.
    + split; [done|]. split; [congruence|]. by rewrite Hes, Hev, app_assoc.
  - intros j new' p Hj Hp. destruct (decide (i = j)) as [<-|Hne]; [|rewrite list_lookup_insert_ne in Hj by done; by eapply Hhome].
    rewrite list_lookup_insert_eq in Hj by by eapply lookup_lt_Some. injection Hj as <-.
    unfold credits in Hp. rewrite omap_app in Hp. apply elem_of_app in Hp as [Hp|Hp]; [by eapply Hhome|]. by apply Hnewc.
  - rewrite Hcred. apply NoDup_app. split; [done|]. split.
    + intros p Hp Hp2. destruct (Hnewc p Hp2) as (Hh & _ & _ & Hfresh). apply Hfresh. unfold credits in *. rewrite Hev, omap_app.
      apply elem_of_app. right. apply list_elem_of_omap in Hp as (e & He & Hep).
      apply list_elem_of_In, in_concat in He as (new' & Hin & He). apply list_elem_of_In in Hin, He.
      apply list_elem_of_lookup in Hin as [j Hj].
      assert (p ∈ omap propagated new') as Hp' by (apply list_elem_of_omap; eauto).
      rewrite (Hhome j new' p Hj Hp') in Hh. subst j. by rewrite Hnew in Hj; injection Hj as <-.
    + destruct (credits es) as [|p l] eqn:Hl; [constructor|]. destruct (Hnewc p) as (_ & _ & [= ->] & _); [by left|].
      apply NoDup_singleton.
  - rewrite Hcred. intros p [Hp|Hp]%elem_of_app; apply Hmore; [by apply Hpaid|by apply Hnewc].
  - intros m p [Hm|Hm]%elem_of_app Hc.
    + destruct (Hwires m p Hm Hc). eauto.
    + destruct (Hms m p Hm Hc) as [Hd (t & -> & -> & Hok)]. split; [done|]. rewrite Hdeb. apply elem_of_app. right.
      destruct Hcase as [[_ Hr]|(e & -> & He & _)]; [by rewrite (Hr t eq_refl) in Hok|]. cbn in He. subst e. by left.
Qed.
Lemma step_accounts b L news L' :
  accounts b L news → Z.of_nat b ≤ u64_max → ledger_step home L L' → ∃ news', accounts (S b) L' news'.
Proof.
  intros Hacc Hb Hstep.
  destruct Hstep as [ss ws i s cm user fresh run r s' Hs Hduty Hrun|ss ws i s m nm src name fresh run r s' Hs Hm Hn Hd Hi Hduty Hrun].
  - destruct (duty_runs _ _ _ _ _ _ Hduty Hrun) as (c & r' & Hcmd & Hprop & Hms).
    apply (cmd_accounts b _ news i s c r' s' (sent r)) in Hacc; [done|done|done|done| |done].
    intros n p Hc. destruct (Hprop n p Hc) as (id & o & Hop). exfalso. clear -Hop. unfold map_client_msg, map_client_process_msg in Hop.
    repeat case_match; discriminate Hop.
  - destruct (duty_runs _ _ _ _ _ _ Hduty Hrun) as (c & r' & Hcmd & Hprop & Hms).
    apply (cmd_accounts b _ news i s c r' s' (sent r)) in Hacc as Hacc'; [done|done|done|done| |done].
    intros n p Hc. destruct (Hprop n p Hc) as (id & o & Hop). rewrite Hd in Hop. cbn in Hop.
    assert (carries m p) as Hcar.
    { exists id. rewrite Hn. f_equal. clear -Hop. unfold match_node_msg, node_msg_error in Hop. repeat case_match; try discriminate Hop. by injection Hop as -> -> _. }
    destruct (acc_wires _ _ _ Hacc m p Hm Hcar) as [Hdst Hdeb]. split; [|done]. rewrite Hd in Hdst. injection Hdst as ->. done.
Qed.

Lemma steps_accounts n b L news L' :
  accounts b L news → Z.of_nat (b + n) ≤ u64_max → nsteps (ledger_step home) n L L' →
  ∃ news', accounts (b + n)%nat L' news'.
Proof.
  intros Hacc Hb Hsteps. revert b news Hacc Hb. induction Hsteps as [L|n L L1 L' Hstep Hsteps IH]; intros b news Hacc Hb.
  - exists news. by rewrite Nat.add_0_r.
  - destruct (step_accounts b L news L1 Hacc) as [news1 Hacc1]; [lia|done|].
    destruct (IH (S b) news1 Hacc1) as [news2 Hacc2]; [lia|]. exists news2. by rewrite Nat.add_succ_r.
Qed.
End conserve.

(** C7: clients have transfers validated and registered by any
    sections, and the messages of the credits arrive late, repeatedly or never,
    while disks fail: at every moment, the credits that the sections have recorded
    are credits of debits that sections have recorded, each debit credited at most once. *)
Theorem no_credit_without_debit home b n start L :
  Forall (λ s, distinct_paths (root_dir s.1) ∧ sane b s) start → Z.of_nat (b + n) ≤ u64_max →
  nsteps (ledger_step home) n (mkLedger start []) L →
  ∃ news, Forall3 (λ s0 s new, events s ≡ₚ events s0 ++ new) start (lg_sections L) news ∧
    credits (concat news) ⊆+ debits (concat news).
Proof.
  intros Hstart Hb Hsteps.
  assert (∃ news, accounts home start b (mkLedger start []) news) as [news0 Hacc0].
  { exists ((λ _, []) <$> start).
    assert (concat ((λ _, []) <$> start) = ([] : list ReplicaEvent)) as Hnil by (clear; by induction start).
    split; rewrite ?Hnil; cbn [lg_sections lg_wires]; try done.
    - clear -Hstart. induction Hstart as [|s start [_ Hs] Hstart IH]; constructor; [|done]. by rewrite app_nil_r.
    - intros j new p Hj. apply list_elem_of_lookup_2, list_elem_of_fmap in Hj as (s & -> & _). by intros ?%not_elem_of_nil.
    - constructor.
    - intros m p ?%not_elem_of_nil. done. }
  destruct (steps_accounts home start) with (3 := Hb) (2 := Hacc0) (4 := Hsteps) as [news [Hsec _ Honce Hpaid _]].
  { eapply Forall_impl; [exact Hstart|]. by intros s [? _]. }
  exists news. split; [|by apply NoDup_submseteq]. eapply Forall3_impl; [exact Hsec|]. by intros s0 s new (_ & _ & ?).
Qed.
End ledger.

Module Witness.
Import ToyCrates ToyPickle ToyRouting ToyTransfers Replicas.Witness.

(** Section 0 has wallet 20, which pays 30 to wallet 21 of section 1; the message
    arrives twice. *)
Definition there : Replicas * ToyWorld ReplicaEvent := (mkReplicas root2 info0 ∅, w0).
Definition home (n : XorName) : nat := if decide (n = nm 21) then 1 else 0.
Definition request : ClientMsg :=
  CmProcess (PmCmd (mid 1) (CmdTransfer (RegisterTransferCmd proof1)) (5%N : ClientSigned)).
Definition reg : Result NodeDuty * (Replicas * ToyWorld ReplicaEvent) :=
  tf_register proof1 (mid 1) (SrcEndUser (usr 7)) s2.
Definition cmd : NodeMsg :=
  NmNodeCmd (NcTransfers (PropagateTransferCmd (tap_credit_proof proof1))) (in_response_to (mid 1)).
Definition credit_msg : OutgoingMsg := mkOutgoingMsg (MtNode cmd) (DstSection (nm 21)) true AtDestination.
Definition arrive (s : Replicas * ToyWorld ReplicaEvent) : Result NodeDuty * (Replicas * ToyWorld ReplicaEvent) :=
  tf_receive_propagated (tap_credit_proof proof1) (in_response_to (mid 1)) (SrcSection (nm 20)) s.
Definition there1 : Replicas * ToyWorld ReplicaEvent := (arrive there).2.
Definition there2 : Replicas * ToyWorld ReplicaEvent := (arrive there1).2.

Lemma sane_empty r : sane 0 (mkReplicas r info0 ∅, w0).
Proof.
  split; [|intros k st Hk; discriminate (eq_trans (eq_sym Hk) (lookup_empty k))].
  intros k. exists []. split; [|by split]. unfold wallet_log. cbn [fst stores].
  rewrite (lookup_empty (M := gmap PublicKey) k : _). split; [done|].
  intros p m _ Hm. discriminate (eq_trans (eq_sym Hm) (lookup_empty p)).
Qed.

Lemma run_sane {A} n c (f : A → ReplicaEvent) (m : M Error (Replicas * ToyWorld ReplicaEvent) A) s :
  run_cmd c = bind m (λ x, ret (f x)) → root_dir s.1 = root → sane n s → Z.of_nat n ≤ u64_max →
  root_dir (m s).2.1 = root ∧ sane (S n) (m s).2.
Proof.
  intros Hm Hr Hs Hn. assert (distinct_paths (root_dir s.1)) as Hd by (rewrite Hr; exact distinct_root).
  assert (run_cmd c s = (match (m s).1 with Ok x => Ok (f x) | Err e => Err e end, (m s).2)) as Hrun.
  { rewrite Hm. unfold bind, ret. by destruct (m s) as [[|] ?]. }
  destruct (cmd_sane n c s _ _ Hd Hs Hn Hrun) as (Hs' & Hr' & _). exact (conj (eq_trans Hr' Hr) Hs').
Qed.

Lemma s2_sane : root_dir s2.1 = root ∧ sane 2 s2.
Proof.
  destruct (run_sane 0 (CmdPropagate (nm 5) credit1) EvTransferPropagated (receive_propagated (nm 5) credit1) s0 eq_refl eq_refl
    (sane_empty root)) as [Hr Hs]; [vm_compute; discriminate|].
  apply (run_sane 1 (CmdValidate transfer1) EvTransferValidated (validate transfer1) s1 eq_refl Hr Hs). vm_compute. discriminate.
Qed.

Lemma registered_once : reg.1 = Ok (Send credit_msg).
Proof. reflexivity. Qed.

Lemma arrivals : (arrive there).1 = Ok NoOp ∧ (arrive there1).1 = Ok NoOp.
Proof. split; reflexivity. Qed.

Lemma three_steps :
  nsteps (ledger_step home) 3 (mkLedger [s2; there] []) (mkLedger [reg.2; there2] [credit_msg]).
Proof.
  assert (reg = (Ok (Send credit_msg), reg.2)) as Hreg by (rewrite <- registered_once; apply surjective_pairing).
  destruct arrivals as [H1 H2].
  assert (arrive there = (Ok NoOp, there1)) as Hone by (rewrite <- H1; apply surjective_pairing).
  assert (arrive there1 = (Ok NoOp, there2)) as Htwo by (rewrite <- H2; apply surjective_pairing).
  generalize there2 there1 reg.2 Hreg Hone Htwo. intros c2 c1 a1 Hr H1' H2'.
  apply (nsteps_l _ _ _ (mkLedger [a1; there] [credit_msg])); [|apply (nsteps_l _ _ _ (mkLedger [a1; c1] [credit_msg]));
    [|apply nsteps_once]].
  - exact (step_client home [s2; there] [] 0 s2 request (usr 7) (mid 2) _ _ _ eq_refl eq_refl Hr).
  - exact (step_deliver home [a1; there] [credit_msg] 1 there credit_msg cmd (SrcSection (nm 20)) (nm 21) (mid 2) _ _ _
      eq_refl (proj2 (list_elem_of_singleton _ _) eq_refl) eq_refl eq_refl eq_refl eq_refl H1').
  - exact (step_deliver home [a1; c1] [credit_msg] 1 c1 credit_msg cmd (SrcSection (nm 20)) (nm 21) (mid 2) _ _ _
      eq_refl (proj2 (list_elem_of_singleton _ _) eq_refl) eq_refl eq_refl eq_refl eq_refl H2').
Qed.

Lemma no_credit_without_debit_witness :
  (length (events reg.2) = 3%nat ∧ length (events there2) = 1%nat) ∧
  ∃ news, Forall3 (λ s0 s new, events s ≡ₚ events s0 ++ new) [s2; there] [reg.2; there2] news ∧
    credits (concat news) ⊆+ debits (concat news).
Proof.
  split; [vm_compute; by split|].
  apply (no_credit_without_debit home 2 3 [s2; there] (mkLedger [reg.2; there2] [credit_msg])).
  - destruct s2_sane as [Hr Hs]. constructor; [|constructor; [|constructor]].
    + exact (conj (eq_ind_r distinct_paths distinct_root Hr) Hs).
    + split; [exact distinct_root2|]. apply (sane_mono 0); [lia|]. exact (sane_empty root2).
  - vm_compute. discriminate.
  - exact three_steps.
Defined.
End Witness.
