(* ===== verification/PayoutProtocol.v ===== *)
(** The protocol that the elders of a section pay rewards by, on the elders
    whose shares each of them has; [Payout] shows that the code of
    [src/section_funds/reward_process.rs] takes the steps of this machine.

    Every elder proposes, or joins a proposal it hears; with enough shares it
    turns to the accumulation of the agreed credits, and with enough shares on
    those it is done.  It looks at what it has only when it hears something, its
    own words among them. *)

From S2P Require Import Prelude.

(** * The machine of an elder *)

(** The stage of a payout, by the elders whose shares it has. *)
Inductive view : Type :=
| Idle
| Proposed (K : gset nat)
| Accumulated (K : gset nat)
| Paid.

(** What an elder says to its section. *)
Inductive kind : Type := KProposal | KAccumulation.

#[global] Instance kind_eq_dec : EqDecision kind.
Proof. solve_decision. Defined.

Section protocol.
(** The number of elders, and which of them are enough. *)
Context (elders : nat) (agreed : gset nat → bool).

(** Elder [k] hears the proposal, or the accumulation, of elder [j]. *)
Definition hear_proposal (k j : nat) (v : view) : view * option kind :=
  match v with
  | Idle => (Proposed ({[j]} ∪ {[k]}), Some KProposal)
  | Proposed K =>
      if agreed ({[j]} ∪ K) then (Accumulated {[k]}, Some KAccumulation) else (Proposed ({[j]} ∪ K), None)
  | _ => (v, None)
  end.
Definition hear_accumulation (k j : nat) (v : view) : view * option kind :=
  match v with
  | Idle | Proposed _ => (Accumulated ({[j]} ∪ {[k]}), Some KAccumulation)
  | Accumulated K => (if agreed ({[j]} ∪ K) then Paid else Accumulated ({[j]} ∪ K), None)
  | Paid => (v, None)
  end.
Definition hear_kind (kd : kind) : nat → nat → view → view * option kind :=
  match kd with KProposal => hear_proposal | KAccumulation => hear_accumulation end.

(** * The section *)

(** The views of the elders, all that was said, and which of it [(i, k)] elder
    [k] has heard. *)
Record talk : Type := mkTalk {
  views : list view;
  said : list (nat * kind);
  got : gset (nat * nat);
}.

Definition words (k : nat) (o : option kind) : list (nat * kind) :=
  match o with Some kd => [(k, kd)] | None => [] end.

Inductive talk_step : talk → talk → Prop :=
| talk_start a k :
    views a !! k = Some Idle →
    talk_step a (mkTalk (<[k := Proposed {[k]}]> (views a)) (said a ++ [(k, KProposal)]) (got a))
| talk_hear a i k j kd v :
    said a !! i = Some (j, kd) → views a !! k = Some v →
    talk_step a (mkTalk (<[k := (hear_kind kd k j v).1]> (views a)) (said a ++ words k (hear_kind kd k j v).2)
                   ({[(i, k)]} ∪ got a)).

Definition silence : talk := mkTalk (replicate elders Idle) [] ∅.

(** * The invariant *)

(** Elder [k] has heard the words of [j]. *)
Definition heard_of (a : talk) (k j : nat) (kd : kind) : Prop :=
  ∃ i, said a !! i = Some (j, kd) ∧ (i, k) ∈ got a.

Definition elder_ok (a : talk) (k : nat) (v : view) : Prop :=
  match v with
  | Idle => (∀ kd : kind, (k, kd) ∉ said a) ∧ (∀ j kd, ¬ (heard_of a k j kd))
  | Proposed K =>
      (k, KProposal) ∈ said a ∧ ¬ ((k, KAccumulation) ∈ said a) ∧ (∀ j, ¬ (heard_of a k j KAccumulation)) ∧
      (∀ j, heard_of a k j KProposal → j ∈ K) ∧ (heard_of a k k KProposal → agreed K = false)
  | Accumulated K =>
      (k, KAccumulation) ∈ said a ∧
      (∀ j, heard_of a k j KAccumulation → j ∈ K) ∧ (heard_of a k k KAccumulation → agreed K = false)
  | Paid => (k, KAccumulation) ∈ said a
  end.

Record talk_inv (a : talk) : Prop := mkTalkInv {
  ti_length : length (views a) = elders;
  ti_once : NoDup (said a);
  ti_speakers : ∀ j kd, (j, kd) ∈ said a → (j < elders)%nat;
  ti_got : ∀ i k, (i, k) ∈ got a → (i < length (said a))%nat ∧ (k < elders)%nat;
  ti_elders : ∀ k v, views a !! k = Some v → elder_ok a k v;
}.

(** What an elder said and heard does not touch the others. *)
Lemma heard_of_ext a views' l got' k j kd :
  (∀ i, (i, k) ∈ got' → (i, k) ∈ got a) → (∀ i, (i, k) ∈ got a → (i < length (said a))%nat) →
  heard_of (mkTalk views' (said a ++ l) got') k j kd → heard_of a k j kd.
Proof.
  intros Hgot Hlt (i & Hi & Hin). cbn in *. apply Hgot in Hin. exists i. split; [|done].
  by rewrite lookup_app_l in Hi by (by apply Hlt).
Qed.

Lemma elder_ok_other a views' k' o got' k v :
  k ≠ k' → (∀ i, (i, k) ∈ got' → (i, k) ∈ got a) → (∀ i, (i, k) ∈ got a → (i < length (said a))%nat) →
  elder_ok a k v → elder_ok (mkTalk views' (said a ++ words k' o) got') k v.
Proof.
  intros Hne Hgot Hlt. pose proof (λ j kd, heard_of_ext a views' (words k' o) got' k j kd Hgot Hlt) as Hext.
  assert (∀ kd, (k, kd) ∈ said a ++ words k' o ↔ (k, kd) ∈ said a) as Hsaid.
  { intros kd. rewrite elem_of_app. destruct o as [kd'|]; cbn; rewrite ?list_elem_of_singleton, ?elem_of_nil; naive_solver. }
  destruct v as [|K|K|]; cbn [elder_ok said]; rewrite ?Hsaid; [|naive_solver..]. intros [H1 H2].
  split; [intros kd; rewrite Hsaid; apply H1|]. intros j kd Hj. by apply Hext, H2 in Hj.
Qed.

(** What elder [k] has heard once it hears the words [i]. *)
Lemma heard_now a views' l i k j kd j' kd' :
  said a !! i = Some (j, kd) → (∀ i, (i, k) ∈ got a → (i < length (said a))%nat) →
  heard_of (mkTalk views' (said a ++ l) ({[(i, k)]} ∪ got a)) k j' kd' →
  heard_of a k j' kd' ∨ (j' = j ∧ kd' = kd).
Proof.
  intros Hi Hlt (i' & Hi' & Hin). cbn in *. rewrite elem_of_union, elem_of_singleton in Hin.
  destruct Hin as [[= ->]|Hin].
  - right. rewrite lookup_app_l in Hi' by (by eapply lookup_lt_Some). naive_solver.
  - left. exists i'. by rewrite lookup_app_l in Hi' by (by apply Hlt).
Qed.

(** An elder says a thing once. *)
Lemma says_new a k j kd v kd' :
  elder_ok a k v → (hear_kind kd k j v).2 = Some kd' → (k, kd') ∉ said a.
Proof.
  destruct kd, v as [|K|K|]; cbn; try done; try (destruct (agreed ({[j]} ∪ K)); cbn; try done).
  all: first [intros [H _] _; by apply H|intros (_ & H & _) [= <-]; exact H].
Qed.

Lemma elder_ok_hears a views' i k j kd v :
  said a !! i = Some (j, kd) → (∀ i, (i, k) ∈ got a → (i < length (said a))%nat) → elder_ok a k v →
  elder_ok (mkTalk views' (said a ++ words k (hear_kind kd k j v).2) ({[(i, k)]} ∪ got a)) k (hear_kind kd k j v).1.
Proof.
  intros Hi Hlt. pose proof (λ l j' kd', heard_now a views' l i k j kd j' kd' Hi Hlt) as Hnow.
  pose proof (list_elem_of_lookup_2 _ _ _ Hi) as Hsaid.
  assert (∀ l x, x ∈ said a → x ∈ said a ++ l) as Hold by (intros; by apply elem_of_app; left).
  assert (∀ x, x ∈ said a ++ [x]) as Hnew by (intros; apply elem_of_app; right; by left).
  assert (∀ k kd kd', (k, kd) ∉ said a → kd ≠ kd' → (k, kd) ∉ said a ++ [(k, kd')]) as Hnot.
  { intros k0 kd0 kd1 H1 H2. rewrite elem_of_app, list_elem_of_singleton. naive_solver. }
  destruct kd, v as [|K|K|]; cbn [hear_kind hear_proposal hear_accumulation];
    try (match goal with |- context [if agreed ?x then _ else _] => destruct (agreed x) eqn:Hag end); cbn [fst snd words elder_ok said].
  - intros [H1 H2]. split; [apply Hnew|]. split; [by apply Hnot|]. split; [intros j' [?|[_ ?]]%Hnow; naive_solver|].
    split; [intros j' [?|[-> _]]%Hnow; [naive_solver|set_solver]|]. intros [?|[-> _]]%Hnow; naive_solver.
  - intros (H1 & H2 & H3 & H4 & H5). split; [apply Hnew|]. split; [intros j' [?|[_ ?]]%Hnow; naive_solver|].
    intros [?|[_ ?]]%Hnow; naive_solver.
  - intros (H1 & H2 & H3 & H4 & H5). rewrite app_nil_r. split; [done|]. split; [done|].
    rewrite <- (app_nil_r (said a)). split; [intros j' [?|[_ ?]]%Hnow; naive_solver|].
    split; [|done]. intros j' [?|[-> _]]%Hnow; set_solver.
  - intros (H1 & H2 & H3). split; [by apply Hold|]. split; [intros j' [?|[_ ?]]%Hnow; naive_solver|].
    intros [?|[_ ?]]%Hnow; naive_solver.
  - apply Hold.
  - intros [H1 H2]. split; [apply Hnew|]. split; [intros j' [?|[-> _]]%Hnow; [naive_solver|set_solver]|].
    intros [?|[-> _]]%Hnow; naive_solver.
  - intros (H1 & H2 & H3 & H4 & H5). split; [apply Hnew|]. split; [intros j' [?|[-> _]]%Hnow; [naive_solver|set_solver]|].
    intros [?|[-> _]]%Hnow; naive_solver.
  - intros (H1 & _). by apply Hold.
  - intros (H1 & H2 & H3). split; [by apply Hold|]. split; [intros j' [?|[-> _]]%Hnow; set_solver|done].
  - apply Hold.
Qed.

Lemma speak_once a k o :
  NoDup (said a) → (∀ kd, o = Some kd → (k, kd) ∉ said a) → NoDup (said a ++ words k o).
Proof.
  intros Hnd Ho. destruct o as [kd|]; cbn; [|by rewrite app_nil_r]. apply NoDup_app. split; [done|].
  split; [|apply NoDup_singleton]. intros x Hx ->%list_elem_of_singleton. by eapply Ho.
Qed.

Lemma speakers a k o j kd :
  (k < elders)%nat → (∀ j kd, (j, kd) ∈ said a → (j < elders)%nat) → (j, kd) ∈ said a ++ words k o → (j < elders)%nat.
Proof.
  intros Hk Ha [?|Hin]%elem_of_app; [by eapply Ha|]. destruct o; cbn in Hin; [|by apply elem_of_nil in Hin].
  apply list_elem_of_singleton in Hin. congruence.
Qed.

Lemma talk_step_inv a a' : talk_inv a → talk_step a a' → talk_inv a'.
Proof.
  intros [Hlen Honce Hsp Hgot Hok] Hstep. destruct Hstep as [a k Hk|a i k j kd v Hi Hk].
  - destruct (Hok k Idle Hk) as [Hnew Hno]. assert (k < elders)%nat as Hlt by (rewrite <- Hlen; by eapply lookup_lt_Some).
    split; cbn [views said got].
    + by rewrite length_insert.
    + apply (speak_once a k (Some KProposal)); [done|]. intros kd _. apply Hnew.
    + intros j kd. by apply (speakers a k (Some KProposal)).
    + intros i k' Hi. rewrite length_app. destruct (Hgot i k' Hi). cbn. lia.
    + intros k' v' Hv'. destruct (decide (k' = k)) as [->|Hne].
      * rewrite list_lookup_insert_eq in Hv' by congruence. injection Hv' as <-.
        pose proof (λ j kd, heard_of_ext a (<[k := Proposed {[k]}]> (views a)) [(k, KProposal)] (got a) k j kd
          (λ i H, H) (λ i H, proj1 (Hgot i k H))) as Hext.
        split; [apply elem_of_app; right; by left|]. split; [intros [?|?%list_elem_of_singleton]%elem_of_app; [by eapply Hnew|done]|].
        split; [intros j Hj; by apply (Hno j KAccumulation), Hext|].
        split; [intros j Hj; destruct (Hno j KProposal); by apply Hext|]. intros Hj. destruct (Hno k KProposal). by apply Hext.
      * rewrite list_lookup_insert_ne in Hv' by congruence.
        apply (elder_ok_other a _ k (Some KProposal)); [done|done|intros i Hi; by apply Hgot in Hi as []|by apply Hok].
  - assert (k < elders)%nat as Hlt by (rewrite <- Hlen; by eapply lookup_lt_Some). split; cbn [views said got].
    + by rewrite length_insert.
    + apply speak_once; [done|]. intros kd' Hkd'. by eapply says_new; [apply Hok|].
    + intros j' kd'. by apply speakers.
    + intros i' k' [[= -> ->]%elem_of_singleton|Hi']%elem_of_union; rewrite length_app.
      * apply lookup_lt_Some in Hi. lia.
      * destruct (Hgot i' k' Hi'). lia.
    + intros k' v' Hv'. destruct (decide (k' = k)) as [->|Hne].
      * rewrite list_lookup_insert_eq in Hv' by congruence. injection Hv' as <-.
        apply elder_ok_hears; [done|intros i' Hi'; by apply Hgot in Hi' as []|by apply Hok].
      * rewrite list_lookup_insert_ne in Hv' by congruence.
        apply elder_ok_other; [done|set_solver|intros i' Hi'; by apply Hgot in Hi' as []|by apply Hok].
Qed.

Lemma silence_inv : talk_inv silence.
Proof.
  split; cbn.
  - apply length_replicate.
  - apply NoDup_nil_2.
  - by intros j kd ?%elem_of_nil.
  - intros i k. set_solver.
  - intros k v [-> _]%lookup_replicate. split; [intros kd; apply not_elem_of_nil|]. intros j kd (i & Hi & _). done.
Qed.

Lemma talk_inv_reachable a : rtc talk_step silence a → talk_inv a.
Proof.
  intros Hr. eapply (rtc_ind_r talk_inv); [apply silence_inv| |exact Hr]. intros a1 a2 _ Hstep Ha. by eapply talk_step_inv.
Qed.

(** * Where it ends *)

(** All that was said has been heard by all. *)
Definition settled (a : talk) : Prop :=
  ∀ i k, (i < length (said a))%nat → (k < elders)%nat → (i, k) ∈ got a.

Context (Hagreed : ∀ K, (∀ k, (k < elders)%nat → k ∈ K) → agreed K = true).

Lemma settled_heard a k j kd : settled a → (j, kd) ∈ said a → (k < elders)%nat → heard_of a k j kd.
Proof. intros Hs [i Hi]%list_elem_of_lookup_1 Hk. exists i. split; [done|]. apply Hs; [|done]. by eapply lookup_lt_Some. Qed.

Lemma elder_lt a k v : talk_inv a → views a !! k = Some v → (k < elders)%nat.
Proof. intros Hinv Hv. rewrite <- (ti_length _ Hinv). by eapply lookup_lt_Some. Qed.
Lemma elder_view a k : talk_inv a → (k < elders)%nat → ∃ v, views a !! k = Some v.
Proof. intros Hinv Hk. apply lookup_lt_is_Some. by rewrite (ti_length _ Hinv). Qed.

Lemma settled_accumulated a k :
  talk_inv a → settled a → (k, KAccumulation) ∈ said a → ∀ j v, views a !! j = Some v → (j, KAccumulation) ∈ said a.
Proof.
  intros Hinv Hs Hk j v Hv. pose proof (ti_elders _ Hinv j v Hv) as Hok.
  pose proof (elder_lt a j v Hinv Hv) as Hj. pose proof (settled_heard a j k KAccumulation Hs Hk Hj) as Hheard.
  destruct v as [|K|K|]; cbn in Hok; [|naive_solver..]. destruct Hok as [_ Hno]. by destruct (Hno _ _ Hheard).
Qed.

Lemma settled_agree a : talk_inv a → settled a → said a ≠ [] → ∃ k, (k, KAccumulation) ∈ said a.
Proof.
  intros Hinv Hs Hne.
  destruct (said a) as [|[j0 kd0] l] eqn:Hsaid; [done|]. rewrite <- Hsaid.
  assert ((j0, kd0) ∈ said a) as Hin by (rewrite Hsaid; by left). destruct kd0; [|by eauto].
  assert (∀ j v, views a !! j = Some v → (j, KAccumulation) ∈ said a ∨ ∃ K, v = Proposed K) as Hcases.
  { intros j v Hv. pose proof (ti_elders _ Hinv j v Hv) as Hok.
    pose proof (settled_heard a j j0 KProposal Hs Hin (elder_lt a j v Hinv Hv)) as Hh.
    destruct v as [|K|K|]; cbn in Hok; [|by eauto|naive_solver..]. destruct Hok as [_ Hno]. by destruct (Hno _ _ Hh). }
  destruct (elder_view a j0 Hinv (ti_speakers _ Hinv _ _ Hin)) as [v0 Hv0].
  destruct (Hcases j0 v0 Hv0) as [|[K0 ->]]; [by eauto|].
  pose proof (ti_elders _ Hinv j0 _ Hv0) as (Hp & _ & _ & HK & Hag).
  destruct (decide (Exists (λ x, x.2 = KAccumulation) (said a))) as [Hex|Hno].
  - apply Exists_exists in Hex as ([j kd] & Hj & Heq). cbn in Heq. subst. by eauto.
  - exfalso. assert (agreed K0 = false) as Hfalse by (apply Hag, settled_heard; [done..|by eapply elder_lt]).
    rewrite Hagreed in Hfalse; [done|]. intros k Hk. apply HK, settled_heard; [done| |by eapply elder_lt].
    destruct (elder_view a k Hinv Hk) as [v Hv]. destruct (Hcases k v Hv) as [Hacc|[K ->]].
    + destruct Hno. apply Exists_exists. by eexists.
    + by destruct (ti_elders _ Hinv k _ Hv).
Qed.

(** When all was heard, either nothing was said or everyone is done. *)
Lemma settled_paid a : talk_inv a → settled a → said a ≠ [] → ∀ k v, views a !! k = Some v → v = Paid.
Proof.
  intros Hinv Hs Hne. destruct (settled_agree a Hinv Hs Hne) as [k0 Hk0].
  intros k v Hv. pose proof (ti_elders _ Hinv k v Hv) as Hok. pose proof (elder_lt a k v Hinv Hv) as Hk.
  pose proof (λ j v, settled_accumulated a k0 Hinv Hs Hk0 j v) as Hacc.
  assert (∀ j, (j < elders)%nat → heard_of a k j KAccumulation) as Hheard.
  { intros j Hj. apply settled_heard; [done| |done]. destruct (elder_view a j Hinv Hj) as [vj Hvj]. by eapply Hacc. }
  destruct v as [|K|K|]; cbn in Hok; [..|done].
  - destruct Hok as [_ Hno]. by destruct (Hno _ _ (Hheard k Hk)).
  - destruct Hok as (_ & _ & Hno & _). by destruct (Hno _ (Hheard k Hk)).
  - destruct Hok as (_ & HK & Hag). rewrite Hagreed in Hag; [|intros j Hj; by apply HK, Hheard].
    by specialize (Hag (Hheard k Hk)).
Qed.

(** At most two things are said by each elder. *)
Lemma said_bound a : talk_inv a → (length (said a) ≤ 2 * elders)%nat.
Proof.
  intros Hinv. set (all := (λ k, (k, KProposal)) <$> seq 0 elders). set (all' := (λ k, (k, KAccumulation)) <$> seq 0 elders).
  assert (said a ⊆ all ++ all') as Hsub.
  { intros [j kd] Hin. pose proof (ti_speakers _ Hinv _ _ Hin) as Hj. apply elem_of_app.
    destruct kd; [left|right]; apply list_elem_of_fmap; exists j; (split; [done|]); apply elem_of_seq; lia. }
  apply (NoDup_submseteq _ _ (ti_once _ Hinv)) in Hsub. apply submseteq_length in Hsub.
  unfold all, all' in Hsub. rewrite length_app, !length_fmap, length_seq in Hsub. lia.
Qed.
End protocol.
