(* ===== verification/Payout.v ===== *)
(** The payout of rewards by a whole section: every elder runs the process of
    [RewardProcess], and what one of them sends goes to all of them, as
    [send_prop_msg] and [send_acc_msg] address it, in any order and possibly more
    than once.  The process that gets a message is the elder's own, or a copy that
    is dropped, as in [node/handle.rs] ([payout_step]): the first completes the
    payout, the second never does.

    The stage of an elder is determined by the elders whose shares it has
    ([view]): [receive_churn_proposal] and [receive_wallet_accumulation] are
    steps of a small machine on sets of elders ([hear_proposal],
    [hear_accumulation]).  All that is asked of the cryptography is that enough
    shares of a value combine to one signature, whichever they are. *)

From S2P Require Import Prelude Crates Messages Toy Network Capacity ElderData RewardCalc RewardStage RewardProcess EventMapping PayoutProtocol.

(** The credits that [reward_and_mint] proposes. *)
Definition mint_credits `{MO : MessagingOps} (s : OurSection) (payments section_managed : Token)
    (our_nodes : gmap XorName (Z * PublicKey)) : result stop (list CreditProposal) :=
  res_bind (checked (checked_pow2 (Z.of_nat (prefix_bit_count (os_our_prefix s))))) (λ sections,
  res_bind (get_reward_and_mint_amount payments section_managed (MAX_SUPPLY / sections)) (λ rewards,
  get_reward_credits rewards (os_our_key s) our_nodes)).

(** * Elders and credits *)

Section payout.
Context `{MO : MessagingOps} `{SC : !Serde Credit} `{SSC : !Serde SignedCredit}.

(** The elders by index, what each is told by its network layer, the keys of the
    section, the share of an elder of some bytes and the signature of the section. *)
Context (elders : nat) (nets : nat → Routing) (keys : PublicKeySet)
        (share_of : nat → list byte → BlsSignatureShare) (sig_of : list byte → BlsSignature).

(** The elders of a section know its keys and their place among them, and any
    more than the threshold of their shares combine to the section's signature. *)
Record SectionKeys : Prop := {
  sk_set : ∀ k, (k < elders)%nat → r_public_key_set (nets k) = Ok keys;
  sk_index : ∀ k, (k < elders)%nat → r_our_index (nets k) = Ok k;
  sk_sign : ∀ k b, (k < elders)%nat → r_sign_as_elder (nets k) b (pks_public_key keys) = Ok (share_of k b);
  sk_combine : ∀ b shares, (pks_threshold keys < size shares)%nat →
    (∀ k s, shares !! k = Some s → s = share_of k b) → combine_signatures keys shares = Some (sig_of b);
  sk_enough : (pks_threshold keys < elders)%nat;
}.

(** The credits of the payout, by their id. *)
Context (credits : gmap CreditId Credit).
Definition filed : Prop := ∀ id c, credits !! id = Some c → credit_id c = id.

(** The bytes that are signed. *)
Definition bytes_of `{!Serde T} (x : T) : list byte := match ser x with Ok b => b | Err _ => [] end.

Definition share_sig `{!Serde T} (k : nat) (x : T) : SignatureShare := mkSignatureShare (share_of k (bytes_of x)) k.
Definition signed (c : Credit) : SignedCredit := mkSignedCredit c (BlsSig (sig_of (bytes_of c))).
Definition proof_of (c : Credit) : CreditAgreementProof :=
  mkCreditAgreementProof (signed c) (BlsSig (sig_of (bytes_of (signed c)))) keys.

(** The shares of the elders [K] of some bytes. *)
Definition shares (K : gset nat) (b : list byte) : gmap nat BlsSignatureShare :=
  map_imap (λ k _, Some (share_of k b)) (gset_to_gmap tt K).

Definition enough (K : gset nat) : bool := bool_decide (pks_threshold keys < size K)%nat.

(** A credit with the shares of [K], in the two collections. *)
Definition prop_entry (K : gset nat) (c : Credit) : CreditProposal :=
  mkCreditProposal c (shares K (bytes_of c)) (if enough K then Some (signed c) else None).
Definition acc_entry (K : gset nat) (c : Credit) : CreditAccumulation :=
  mkCreditAccumulation (signed c) (shares K (bytes_of (signed c))) (if enough K then Some (proof_of c) else None).

(** The collections, when the credit [id] has the shares of [K id]. *)
Definition proposing (K : CreditId → gset nat) : RewardProposalDetails :=
  mkProposalDetails keys (map_imap (λ id c, Some (prop_entry (K id) c)) credits).
Definition accumulating (K : CreditId → gset nat) : RewardAccumulationDetails :=
  mkAccumulationDetails keys (map_imap (λ id c, Some (acc_entry (K id) c)) credits).

(** * Shares *)

Lemma shares_lookup K b k : shares K b !! k = if decide (k ∈ K) then Some (share_of k b) else None.
Proof.
  unfold shares. rewrite map_lookup_imap, lookup_gset_to_gmap. case_decide; [by rewrite option_guard_True|].
  by rewrite option_guard_False.
Qed.

Lemma shares_insert K b k : <[k := share_of k b]> (shares K b) = shares ({[k]} ∪ K) b.
Proof.
  apply map_eq. intros j. rewrite lookup_insert, !shares_lookup. destruct (decide (k = j)) as [->|Hne].
  - by rewrite decide_True by set_solver.
  - destruct (decide (j ∈ K)); [by rewrite decide_True by set_solver|by rewrite decide_False by set_solver].
Qed.

Lemma shares_size K b : size (shares K b) = size K.
Proof.
  rewrite <- (size_dom (shares K b)). f_equal. apply set_eq. intros k. rewrite elem_of_dom, shares_lookup.
  case_decide; naive_solver.
Qed.

Lemma shares_empty b : shares ∅ b = ∅.
Proof. apply map_eq. intros k. rewrite shares_lookup, lookup_empty. by rewrite decide_False by set_solver. Qed.

(** The machine's step at one credit: a known share, or a new one. *)
Lemma check_shares `{!Serde T} K k (x : T) :
  bool_decide (check (share_sig k x) (shares K (bytes_of x)) = Some true) = bool_decide (k ∈ K).
Proof.
  unfold check. cbn [share_sig index share]. rewrite shares_lookup. destruct (decide (k ∈ K)) as [Hk|Hk].
  - rewrite (bool_decide_true (share_of k _ = _)) by done. by rewrite !bool_decide_true.
  - by rewrite (bool_decide_false (k ∈ K)), bool_decide_false by done.
Qed.

Context `{SCT : !SerdeTotal Credit} `{SSCT : !SerdeTotal SignedCredit}.
Context (SK : SectionKeys) (Hfiled : filed).

Lemma combine_shares K b :
  combine_signatures keys (shares K b) = Some (sig_of b) ∨ enough K = false.
Proof.
  unfold enough. case_bool_decide as HK; [left|by right]. apply SK; [by rewrite shares_size|].
  intros k s. rewrite shares_lookup. case_decide; naive_solver.
Qed.

Lemma enough_mono K k : enough K = true → enough ({[k]} ∪ K) = true.
Proof.
  unfold enough. rewrite !bool_decide_eq_true. intros HK.
  assert (size K ≤ size ({[k]} ∪ K))%nat by (apply subseteq_size; set_solver). lia.
Qed.

(** * Collecting shares *)

(** One more elder at one credit. *)
Definition heard (k : nat) (id : CreditId) (K : CreditId → gset nat) : CreditId → gset nat :=
  λ id', if decide (id' = id) then {[k]} ∪ K id else K id'.

Lemma proposing_ext K K' : (∀ id, is_Some (credits !! id) → K id = K' id) → proposing K = proposing K'.
Proof.
  intros Hext. unfold proposing. f_equal. apply map_eq. intros id. rewrite !map_lookup_imap.
  destruct (credits !! id) as [c|] eqn:Hc; [|done]. simpl. by rewrite (Hext id) by eauto.
Qed.
Lemma accumulating_ext K K' : (∀ id, is_Some (credits !! id) → K id = K' id) → accumulating K = accumulating K'.
Proof.
  intros Hext. unfold accumulating. f_equal. apply map_eq. intros id. rewrite !map_lookup_imap.
  destruct (credits !! id) as [c|] eqn:Hc; [|done]. simpl. by rewrite (Hext id) by eauto.
Qed.

Lemma heard_known k id K : k ∈ K id → ∀ id', heard k id K id' = K id'.
Proof. intros Hk id'. unfold heard. case_decide; [|done]. subst. set_solver. Qed.

(** An entry that is written is the entry of the new sets. *)
Lemma insert_heard {A} (f : gset nat → Credit → A) k id c K :
  credits !! id = Some c →
  <[id := f ({[k]} ∪ K id) c]> (map_imap (λ id c, Some (f (K id) c)) credits) =
  map_imap (λ id' c, Some (f (heard k id K id') c)) credits.
Proof.
  intros Hc. apply map_eq. intros id'. rewrite map_lookup_imap. unfold heard. destruct (decide (id' = id)) as [->|Hne].
  - by rewrite lookup_insert_eq, Hc.
  - by rewrite lookup_insert_ne, map_lookup_imap by congruence.
Qed.

Lemma pd_add_share k id c K :
  credits !! id = Some c → pd_add_sig id (share_sig k c) (proposing K) = (Ok tt, proposing (heard k id K)).
Proof.
  intros Hc. unfold pd_add_sig, bind, get, lift. cbn [proposing pd_rewards pd_pk_set]. rewrite map_lookup_imap, Hc.
  cbn [mbind option_bind ok_or cp_signatures prop_entry RewardStage.proposal cp_pending]. rewrite check_shares.
  case_bool_decide as Hk; [unfold ret; f_equal; apply proposing_ext; intros id' _; by rewrite heard_known|].
  cbn [share_sig index share]. rewrite shares_insert, shares_size. unfold modify.
  change (bool_decide (1 + pks_threshold keys ≤ size ({[k]} ∪ K id))%nat) with (enough ({[k]} ∪ K id)).
  unfold proposing. rewrite <- (insert_heard prop_entry k id c K Hc). unfold prop_entry.
  destruct (enough ({[k]} ∪ K id)) eqn:He.
  - destruct (combine_shares ({[k]} ∪ K id) (bytes_of c)) as [->|?]; [|congruence]. cbn [ok_or pd_rewards pd_pk_set].
    by rewrite insert_insert_eq.
  - destruct (enough (K id)) eqn:He'; [by rewrite (enough_mono _ k He') in He|]. done.
Qed.

Lemma ad_add_share k id c K :
  credits !! id = Some c → ad_add_sig id (share_sig k (signed c)) (accumulating K) = (Ok tt, accumulating (heard k id K)).
Proof.
  intros Hc. unfold ad_add_sig, bind, get, lift. cbn [accumulating ad_rewards ad_pk_set]. rewrite map_lookup_imap, Hc.
  cbn [mbind option_bind ok_or ca_signatures acc_entry agreed_proposal ca_pending]. rewrite check_shares.
  case_bool_decide as Hk; [unfold ret; f_equal; apply accumulating_ext; intros id' _; by rewrite heard_known|].
  cbn [share_sig index share]. rewrite shares_insert, shares_size. unfold modify.
  change (bool_decide (1 + pks_threshold keys ≤ size ({[k]} ∪ K id))%nat) with (enough ({[k]} ∪ K id)).
  unfold accumulating. rewrite <- (insert_heard acc_entry k id c K Hc). unfold acc_entry.
  destruct (enough ({[k]} ∪ K id)) eqn:He.
  - destruct (combine_shares ({[k]} ∪ K id) (bytes_of (signed c))) as [->|?]; [|congruence]. cbn [ok_or ad_rewards ad_pk_set].
    by rewrite insert_insert_eq.
  - destruct (enough (K id)) eqn:He'; [by rewrite (enough_mono _ k He') in He|]. done.
Qed.

(** A list of all the credits, each once. *)
Definition all_credits (cs : list Credit) : Prop := cs ≡ₚ (map_to_list credits).*2.

Lemma all_credits_elem cs c : all_credits cs → c ∈ cs ↔ credits !! credit_id c = Some c.
Proof.
  unfold all_credits. intros ->. rewrite list_elem_of_fmap. split.
  - intros ([id c'] & -> & Hin%elem_of_map_to_list). cbn [snd]. by rewrite (Hfiled id c' Hin).
  - intros Hc. exists (credit_id c, c). split; [done|]. by apply elem_of_map_to_list.
Qed.

Lemma all_credits_ids cs id : all_credits cs → is_Some (credits !! id) → id ∈ credit_id <$> cs.
Proof.
  intros Hcs [c Hc]. pose proof (Hfiled id c Hc) as <-. apply list_elem_of_fmap_2. by apply all_credits_elem.
Qed.

(** One more elder at the credits of a list. *)
Definition heard_all (k : nat) (cs : list Credit) (K : CreditId → gset nat) : CreditId → gset nat :=
  λ id, if decide (id ∈ credit_id <$> cs) then {[k]} ∪ K id else K id.

Lemma heard_all_cons k c cs K id : heard_all k cs (heard k (credit_id c) K) id = heard_all k (c :: cs) K id.
Proof.
  unfold heard_all, heard. rewrite fmap_cons. destruct (decide (id = credit_id c)) as [->|Hne].
  - rewrite (decide_True (P := _ ∈ _ :: _)) by (by left). case_decide; [set_solver|done].
  - destruct (decide (id ∈ credit_id <$> cs)) as [Hin|Hin].
    + by rewrite decide_True by (by right).
    + rewrite decide_False; [done|]. by intros [?|?]%elem_of_cons.
Qed.

Lemma pd_add_list k cs K :
  (∀ c, c ∈ cs → credits !! credit_id c = Some c) →
  for_each cs (λ c, pd_add_sig (credit_id c) (share_sig k c)) (proposing K) =
    (Ok tt, proposing (heard_all k cs K)).
Proof.
  revert K. induction cs as [|c cs IH]; intros K Hcs; cbn [for_each]; [done|].
  unfold bind. rewrite (pd_add_share k _ c) by (apply Hcs; by left). rewrite IH by (intros; apply Hcs; by right).
  f_equal. apply proposing_ext. intros id _. apply heard_all_cons.
Qed.

Lemma ad_add_list k cs K :
  (∀ c, c ∈ cs → credits !! credit_id c = Some c) →
  for_each cs (λ c, ad_add_sig (credit_id c) (share_sig k (signed c))) (accumulating K) =
    (Ok tt, accumulating (heard_all k cs K)).
Proof.
  revert K. induction cs as [|c cs IH]; intros K Hcs; cbn [for_each]; [done|].
  unfold bind. rewrite (ad_add_share k _ c) by (apply Hcs; by left). rewrite IH by (intros; apply Hcs; by right).
  f_equal. apply accumulating_ext. intros id _. apply heard_all_cons.
Qed.

(** All credits at once. *)
Lemma pd_add_all k cs K :
  all_credits cs →
  for_each cs (λ c, pd_add_sig (credit_id c) (share_sig k c)) (proposing (λ _, K)) = (Ok tt, proposing (λ _, {[k]} ∪ K)).
Proof.
  intros Hcs. rewrite pd_add_list by (intros c; by apply all_credits_elem). f_equal. apply proposing_ext.
  intros id Hid. unfold heard_all. by rewrite decide_True by (by apply all_credits_ids).
Qed.
Lemma ad_add_all k cs K :
  all_credits cs →
  for_each cs (λ c, ad_add_sig (credit_id c) (share_sig k (signed c))) (accumulating (λ _, K)) =
    (Ok tt, accumulating (λ _, {[k]} ∪ K)).
Proof.
  intros Hcs. rewrite ad_add_list by (intros c; by apply all_credits_elem). f_equal. apply accumulating_ext.
  intros id Hid. unfold heard_all. by rewrite decide_True by (by apply all_credits_ids).
Qed.

(** * What an elder signs *)

Lemma our_share_of `{!Serde T} `{!SerdeTotal T} k (x : T) : (k < elders)%nat → our_share (nets k) x = Ok (share_sig k x).
Proof.
  intros Hk. unfold our_share, es_sign, sign_as_elder, serialise, share_sig, bytes_of.
  rewrite (sk_set SK k Hk). cbn [no_key map_err res_bind]. pose proof (ser_total x) as Hser.
  destruct (ser x) as [b|]; [|done]. cbn [map_err res_bind]. rewrite (sk_sign SK k b Hk). cbn [map_err res_bind].
  rewrite (sk_index SK k Hk). done.
Qed.

Lemma keys_of_elder k : (k < elders)%nat → es_public_key_set (nets k) = Ok keys.
Proof. intros Hk. unfold es_public_key_set, our_public_key_set. by rewrite (sk_set SK k Hk). Qed.
Lemma index_of_elder k : (k < elders)%nat → es_our_index (nets k) = Ok k.
Proof. intros Hk. unfold es_our_index, our_index. by rewrite (sk_index SK k Hk). Qed.

Lemma prop_entry_empty c : prop_entry ∅ c = mkCreditProposal c ∅ None.
Proof. unfold prop_entry. by rewrite shares_empty. Qed.
Lemma acc_entry_empty c : acc_entry ∅ c = mkCreditAccumulation (signed c) ∅ None.
Proof. unfold acc_entry. by rewrite shares_empty. Qed.

(** A map, from the list of its values. *)
Lemma collect_eq {A} (id_of : A → CreditId) l (m : gmap CreditId A) :
  (∀ x, x ∈ l → m !! id_of x = Some x) → (∀ id x, m !! id = Some x → x ∈ l ∧ id_of x = id) → collect id_of l = m.
Proof.
  intros Hl Hm. apply map_eq. intros id.
  assert (∀ l (acc : gmap CreditId A), (∀ x, x ∈ l → m !! id_of x = Some x) →
    foldl (λ m c, <[id_of c := c]> m) acc l !! id = if decide (id ∈ id_of <$> l) then m !! id else acc !! id) as Hfold.
  { clear. induction l as [|x l IH]; intros acc Hl; cbn [foldl]; [by rewrite decide_False by apply not_elem_of_nil|].
    rewrite IH by (intros; apply Hl; by right). rewrite fmap_cons. destruct (decide (id ∈ id_of <$> l)) as [Hin|Hin].
    { by rewrite decide_True by (by right). }
    rewrite lookup_insert. destruct (decide (id_of x = id)) as [<-|Hne].
    - rewrite decide_True by (by left). symmetry. apply Hl. by left.
    - rewrite decide_False; [done|]. intros [?|?]%elem_of_cons; congruence. }
  unfold collect. rewrite Hfold by done. case_decide as Hin; [done|]. rewrite lookup_empty.
  destruct (m !! id) as [x|] eqn:Hx; [|done]. destruct Hin. destruct (Hm id x Hx) as [Hin <-]. by apply list_elem_of_fmap_2.
Qed.

Lemma proposing_lookup K id : pd_rewards (proposing K) !! id = prop_entry (K id) <$> credits !! id.
Proof. cbn [proposing pd_rewards]. rewrite map_lookup_imap. by destruct (credits !! id). Qed.
Lemma accumulating_lookup K id : ad_rewards (accumulating K) !! id = acc_entry (K id) <$> credits !! id.
Proof. cbn [accumulating ad_rewards]. rewrite map_lookup_imap. by destruct (credits !! id). Qed.

(** The collections before any share. *)
Lemma collect_proposals cs :
  all_credits cs → collect cp_id ((λ c, mkCreditProposal c ∅ None) <$> cs) = pd_rewards (proposing (λ _, ∅)).
Proof.
  intros Hcs. apply collect_eq.
  - intros x (c & -> & Hc)%list_elem_of_fmap. apply (all_credits_elem cs c Hcs) in Hc.
    rewrite proposing_lookup. unfold cp_id. cbn [RewardStage.proposal]. rewrite Hc. cbn. by rewrite prop_entry_empty.
  - intros id x. rewrite proposing_lookup. destruct (credits !! id) as [c|] eqn:Hc; [|done]. intros [= <-].
    rewrite prop_entry_empty. pose proof (Hfiled id c Hc) as <-. split; [|done]. apply list_elem_of_fmap. exists c.
    split; [done|]. by apply all_credits_elem.
Qed.

Lemma collect_accumulations cs :
  all_credits cs → collect ca_id ((λ c, mkCreditAccumulation (signed c) ∅ None) <$> cs) = ad_rewards (accumulating (λ _, ∅)).
Proof.
  intros Hcs. apply collect_eq.
  - intros x (c & -> & Hc)%list_elem_of_fmap. apply (all_credits_elem cs c Hcs) in Hc.
    rewrite accumulating_lookup. unfold ca_id, sc_id. cbn [agreed_proposal signed sc_credit]. rewrite Hc. cbn.
    by rewrite acc_entry_empty.
  - intros id x. rewrite accumulating_lookup. destruct (credits !! id) as [c|] eqn:Hc; [|done]. intros [= <-].
    rewrite acc_entry_empty. pose proof (Hfiled id c Hc) as <-. split; [|done]. apply list_elem_of_fmap. exists c.
    split; [done|]. by apply all_credits_elem.
Qed.

(** The credits of a collection, in its order. *)
Lemma entries_all {A} (f : CreditId → Credit → A) (g : A → Credit) :
  (∀ id c, g (f id c) = c) →
  all_credits ((λ e, g e.2) <$> btree_entries credit_id_cmp (map_imap (λ id c, Some (f id c)) credits)).
Proof.
  intros Hg. unfold all_credits. rewrite btree_entries_Permutation.
  assert (credits = g <$> map_imap (λ id c, Some (f id c)) credits) as Hcr.
  { apply map_eq. intros id. rewrite lookup_fmap, map_lookup_imap. destruct (credits !! id); [|done]. cbn. by rewrite Hg. }
  rewrite Hcr at 2. by rewrite map_to_list_fmap, <- list_fmap_compose.
Qed.

Lemma sign_proposed k l :
  (k < elders)%nat → collect cp_id l = pd_rewards (proposing (λ _, ∅)) →
  sign_proposed_rewards (nets k) l = Ok (proposing (λ _, {[k]})).
Proof.
  intros Hk Hl. unfold sign_proposed_rewards. rewrite (keys_of_elder k Hk). cbn [res_bind]. rewrite Hl.
  change (mkProposalDetails keys (pd_rewards (proposing (λ _, ∅)))) with (proposing (λ _, ∅)). unfold run_local.
  rewrite (for_each_ext _ _ (λ e : CreditId * CreditProposal,
    pd_add_sig (credit_id (RewardStage.proposal e.2)) (share_sig k (RewardStage.proposal e.2)))).
  2:{ intros [id e] d. unfold bind, lift. by rewrite our_share_of. }
  rewrite <- (for_each_fmap (λ e : CreditId * CreditProposal, RewardStage.proposal e.2) _
    (λ c, pd_add_sig (credit_id c) (share_sig k c))).
  rewrite pd_add_all by (by apply entries_all). by rewrite (union_empty_r_L {[k]}).
Qed.

Lemma sign_accumulating k l :
  (k < elders)%nat → collect ca_id l = ad_rewards (accumulating (λ _, ∅)) →
  sign_accumulating_rewards (nets k) l = Ok (accumulating (λ _, {[k]})).
Proof.
  intros Hk Hl. unfold sign_accumulating_rewards. rewrite (keys_of_elder k Hk). cbn [res_bind]. rewrite Hl.
  change (mkAccumulationDetails keys (ad_rewards (accumulating (λ _, ∅)))) with (accumulating (λ _, ∅)). unfold run_local.
  rewrite (for_each_ext_in _ _ (λ e : CreditId * CreditAccumulation,
    ad_add_sig (credit_id (sc_credit (agreed_proposal e.2))) (share_sig k (signed (sc_credit (agreed_proposal e.2)))))).
  2:{ intros [id e] d He%elem_of_btree_entries. rewrite accumulating_lookup in He.
      destruct (credits !! id) as [c|]; [|done]. injection He as <-. unfold bind, lift. by rewrite our_share_of. }
  rewrite <- (for_each_fmap (λ e : CreditId * CreditAccumulation, sc_credit (agreed_proposal e.2)) _
    (λ c, ad_add_sig (credit_id c) (share_sig k (signed c)))).
  rewrite ad_add_all by (by apply (entries_all (λ _, acc_entry ∅) (λ e, sc_credit (agreed_proposal e)))).
  by rewrite (union_empty_r_L {[k]}).
Qed.

(** * Messages *)

Context (key : PublicKey).

(** The proposal and the accumulation of elder [k], in any order of the credits. *)
Definition is_proposal (k : nat) (prop : RewardProposal) : Prop :=
  rp_section_key prop = key ∧
  ∃ cs, all_credits cs ∧ rp_rewards prop = (λ c, mkSignedCreditShare c (share_sig k c)) <$> cs.
Definition is_accumulation (k : nat) (acc : RewardAccumulation) : Prop :=
  ra_section_key acc = key ∧
  ∃ cs, all_credits cs ∧ ra_rewards acc = (λ c, mkAccumulatingReward (signed c) (share_sig k (signed c))) <$> cs.

(** Every element is kept. *)
Lemma omap_all {A B} (f : A → option B) (g : A → B) (l : list A) : (∀ a, a ∈ l → f a = Some (g a)) → omap f l = g <$> l.
Proof.
  induction l as [|a l IH]; intros Hl; [done|]. cbn. rewrite (Hl a) by (by left). f_equal. apply IH.
  intros b Hb. apply Hl. by right.
Qed.

Lemma get_proposal_is k K : k ∈ K → is_proposal k (get_proposal (proposing (λ _, K)) key k).
Proof.
  intros Hk. split; [done|]. exists ((λ e, RewardStage.proposal e.2) <$> btree_entries credit_id_cmp (pd_rewards (proposing (λ _, K)))).
  split; [by apply (entries_all (λ _, prop_entry K))|]. cbn [get_proposal rp_rewards]. rewrite <- list_fmap_compose.
  apply omap_all. intros [id e] He%elem_of_btree_entries. rewrite proposing_lookup in He.
  destruct (credits !! id) as [c|]; [|done]. injection He as <-. cbn [prop_entry cp_signatures RewardStage.proposal snd compose].
  by rewrite shares_lookup, decide_True.
Qed.

Lemma get_accumulation_is k K : k ∈ K → is_accumulation k (get_accumulation (accumulating (λ _, K)) key k).
Proof.
  intros Hk. split; [done|].
  exists ((λ e, sc_credit (agreed_proposal e.2)) <$> btree_entries credit_id_cmp (ad_rewards (accumulating (λ _, K)))).
  split; [by apply (entries_all (λ _, acc_entry K) (λ e, sc_credit (agreed_proposal e)))|].
  cbn [get_accumulation ra_rewards]. rewrite <- list_fmap_compose.
  apply omap_all. intros [id e] He%elem_of_btree_entries. rewrite accumulating_lookup in He.
  destruct (credits !! id) as [c|]; [|done]. injection He as <-. cbn [acc_entry ca_signatures agreed_proposal snd compose].
  by rewrite shares_lookup, decide_True.
Qed.

Lemma add_proposal j prop K :
  is_proposal j prop →
  add_proposal_sigs (rp_rewards prop) (proposing (λ _, K)) = (Ok tt, proposing (λ _, {[j]} ∪ K)).
Proof. intros (_ & cs & Hcs & ->). unfold add_proposal_sigs. rewrite for_each_fmap. by apply pd_add_all. Qed.

Lemma add_accumulation j acc K :
  is_accumulation j acc →
  add_accumulation_sigs (ra_rewards acc) (accumulating (λ _, K)) = (Ok tt, accumulating (λ _, {[j]} ∪ K)).
Proof. intros (_ & cs & Hcs & ->). unfold add_accumulation_sigs. rewrite for_each_fmap. by apply ad_add_all. Qed.

(** * Agreement *)

(** Enough shares, or nothing to agree on. *)
Definition agreed (K : gset nat) : bool := enough K || bool_decide (credits = ∅).

Lemma proposing_uniform K : pd_rewards (proposing (λ _, K)) = prop_entry K <$> credits.
Proof. apply map_eq. intros id. by rewrite proposing_lookup, lookup_fmap. Qed.
Lemma accumulating_uniform K : ad_rewards (accumulating (λ _, K)) = acc_entry K <$> credits.
Proof. apply map_eq. intros id. by rewrite accumulating_lookup, lookup_fmap. Qed.

(** Values that all the credits have, or none of them. *)
Lemma omap_uniform {A B} (f : A → option B) (entry : Credit → A) (val : Credit → B) (b : bool) :
  (∀ c, f (entry c) = if b then Some (val c) else None) →
  omap f (entry <$> credits) = if b then val <$> credits else ∅.
Proof.
  intros Hf. apply map_eq. intros id. rewrite lookup_omap, lookup_fmap.
  destruct (credits !! id) as [c|] eqn:Hc; cbn; destruct b; rewrite ?Hf, ?lookup_fmap, ?Hc, ?lookup_empty; done.
Qed.

Lemma agreed_size {A B} (entry : Credit → A) (val : Credit → B) K :
  let agreements : gmap CreditId B := if enough K then val <$> credits else ∅ in
  (if bool_decide (size agreements = size (entry <$> credits)) then Some agreements else None) =
  (if agreed K then Some (val <$> credits) else None).
Proof.
  unfold agreed. rewrite map_size_fmap. destruct (enough K); cbn; [by rewrite map_size_fmap, bool_decide_true|].
  rewrite map_size_empty. destruct (decide (credits = ∅)) as [->|Hne].
  - rewrite map_size_empty, fmap_empty, !bool_decide_true by done. done.
  - rewrite (bool_decide_false (credits = ∅)), bool_decide_false by (done || intros Hs; by apply Hne, map_size_empty_inv). done.
Qed.

Lemma pd_pending K :
  pd_pending_agreements (proposing (λ _, K)) = if agreed K then Some (signed <$> credits) else None.
Proof.
  unfold pd_pending_agreements. rewrite proposing_uniform, collect_spec.
  - rewrite (omap_uniform cp_pending (prop_entry K) signed (enough K)) by done. apply agreed_size.
  - intros id e sc. rewrite lookup_fmap. destruct (credits !! id) as [c|] eqn:Hc; [|done]. intros [= <-].
    cbn. destruct (enough K); [|done]. intros [= <-]. by apply Hfiled.
Qed.

Lemma ad_pending K :
  ad_pending_agreements (accumulating (λ _, K)) = if agreed K then Some (proof_of <$> credits) else None.
Proof.
  unfold ad_pending_agreements. rewrite accumulating_uniform, collect_spec.
  - rewrite (omap_uniform ca_pending (acc_entry K) proof_of (enough K)) by done. apply agreed_size.
  - intros id e pr. rewrite lookup_fmap. destruct (credits !! id) as [c|] eqn:Hc; [|done]. intros [= <-].
    cbn. destruct (enough K); [|done]. intros [= <-]. by apply Hfiled.
Qed.

(** * The machine of an elder *)

(** The stage that a view stands for. *)
Definition stage_of (v : view) : RewardStage :=
  match v with
  | Idle => AwaitingThreshold
  | Proposed K => ProposingCredits (proposing (λ _, K))
  | Accumulated K => AccumulatingCredits (accumulating (λ _, K))
  | Paid => Completed (proof_of <$> credits)
  end.

(** The duty that says it. *)
Definition says (s : OurSection) (fresh : MessageId) (k : nat) (said : option kind) (duty : NodeDuty) : Prop :=
  match said with
  | None => duty = NoOp
  | Some KProposal => ∃ prop, is_proposal k prop ∧ duty = send_prop_msg prop (address s) fresh
  | Some KAccumulation => ∃ acc, is_accumulation k acc ∧ duty = send_acc_msg acc (address s) fresh
  end.

(** The process [p] of elder [k] moves to a view, and says something. *)
Definition moves (k : nat) (fresh : MessageId) (p : RewardProcess) (out : Result NodeDuty * RewardProcess)
    (next : view * option kind) : Prop :=
  ∃ duty, out = (Ok duty, set_stage (stage_of next.1) p) ∧ says (section p) fresh k next.2 duty.

Lemma set_stage_same p : set_stage (stage p) p = p.
Proof. by destruct p. Qed.

(** The agreed credits, as the list of a new collection. *)
Lemma collect_agreed :
  collect ca_id ((λ '(_, signed_credit), mkCreditAccumulation signed_credit ∅ None)
    <$> btree_entries credit_id_cmp (signed <$> credits)) = ad_rewards (accumulating (λ _, ∅)).
Proof.
  rewrite <- (collect_accumulations ((λ e, sc_credit e.2) <$> btree_entries credit_id_cmp
    (map_imap (λ _ c, Some (signed c)) credits))) by (by apply (entries_all (λ _, signed))).
  f_equal. rewrite <- list_fmap_compose.
  assert (map_imap (λ _ c, Some (signed c)) credits = signed <$> credits) as ->.
  { apply map_eq. intros id. rewrite map_lookup_imap, lookup_fmap. by destruct (credits !! id). }
  apply list_fmap_ext. intros i [id sc] Hi. apply list_elem_of_lookup_2, elem_of_btree_entries in Hi.
  rewrite lookup_fmap in Hi. destruct (credits !! id); [|done]. by injection Hi as <-.
Qed.

Lemma receive_proposal_moves k j fresh prop p v :
  (k < elders)%nat → wallet_key (section p) = key → is_proposal j prop → stage p = stage_of v →
  moves k fresh p (receive_churn_proposal (nets k) fresh prop p) (hear_proposal agreed k j v).
Proof.
  intros Hk Hkey Hprop Hst. unfold receive_churn_proposal, bind, get. destruct Hprop as [Hsec Hcs].
  rewrite bool_decide_false by (intros Hne; apply Hne; congruence). rewrite Hst.
  destruct v as [|K|K|]; cbn [stage_of hear_proposal].
  - destruct Hcs as (cs & Hcs & Hr). 
    assert ((λ share, mkCreditProposal (scs_credit share) ∅ None) <$> rp_rewards prop = (λ c, mkCreditProposal c ∅ None) <$> cs) as ->.
    { rewrite Hr. by rewrite <- list_fmap_compose. }
    rewrite (sign_proposed k _ Hk (collect_proposals cs Hcs)). unfold lift, run_local.
    rewrite (add_proposal j prop {[k]}) by (split; [done|by exists cs]). rewrite (index_of_elder k Hk). unfold modify, ret.
    eexists. split; [done|]. eexists. rewrite Hkey. split; [|done]. apply get_proposal_is. set_solver.
  - unfold on_proposing, bind, get. rewrite (add_proposal j prop K) by done. rewrite pd_pending.
    destruct (agreed ({[j]} ∪ K)).
    + rewrite (sign_accumulating k _ Hk collect_agreed). unfold lift. rewrite (index_of_elder k Hk). unfold modify, ret.
      eexists. split; [done|]. eexists. rewrite Hkey. split; [|done]. apply get_accumulation_is. set_solver.
    + unfold modify, ret. exists NoOp. done.
  - exists NoOp. cbn [fst]. change (AccumulatingCredits (accumulating (λ _, K))) with (stage_of (Accumulated K)).
    rewrite <- Hst, set_stage_same. done.
  - exists NoOp. cbn [fst]. rewrite <- Hst, set_stage_same. done.
Qed.

Lemma start_accumulating_moves k j fresh acc p :
  (k < elders)%nat → wallet_key (section p) = key → is_accumulation j acc →
  moves k fresh p (start_accumulating (nets k) fresh acc p) (Accumulated ({[j]} ∪ {[k]}), Some KAccumulation).
Proof.
  intros Hk Hkey Hacc. unfold start_accumulating, bind, get. pose proof Hacc as (_ & cs & Hcs & Hr).
  assert ((λ reward, mkCreditAccumulation (ar_signed_credit reward) ∅ None) <$> ra_rewards acc =
    (λ c, mkCreditAccumulation (signed c) ∅ None) <$> cs) as ->.
  { rewrite Hr. by rewrite <- list_fmap_compose. }
  rewrite (sign_accumulating k _ Hk (collect_accumulations cs Hcs)). unfold lift, run_local.
  rewrite (add_accumulation j acc {[k]}) by done. rewrite (index_of_elder k Hk). unfold modify, ret.
  eexists. split; [done|]. eexists. rewrite Hkey. split; [|done]. apply get_accumulation_is. set_solver.
Qed.

Lemma receive_accumulation_moves k j fresh acc p v :
  (k < elders)%nat → wallet_key (section p) = key → is_accumulation j acc → stage p = stage_of v →
  moves k fresh p (receive_wallet_accumulation (nets k) fresh acc p) (hear_accumulation agreed k j v).
Proof.
  intros Hk Hkey Hacc Hst. unfold receive_wallet_accumulation, bind, get.
  rewrite bool_decide_false by (intros Hne; apply Hne; destruct Hacc; congruence). rewrite Hst.
  destruct v as [|K|K|]; cbn [stage_of hear_accumulation].
  - by apply start_accumulating_moves.
  - by apply start_accumulating_moves.
  - unfold on_accumulating, bind, get. rewrite (add_accumulation j acc K) by done. unfold modify, ret. rewrite ad_pending.
    exists NoOp. split; [|done]. cbn [fst]. by destruct (agreed ({[j]} ∪ K)).
  - exists NoOp. cbn [fst]. rewrite <- Hst, set_stage_same. done.
Qed.

Lemma mint_unsigned s payments managed nodes l e :
  mint_credits s payments managed nodes = Ok l → e ∈ l → e = mkCreditProposal (RewardStage.proposal e) ∅ None.
Proof.
  unfold mint_credits. destruct (checked _); cbn [res_bind]; [|done].
  destruct (get_reward_and_mint_amount _ _ _); cbn [res_bind]; [|done]. unfold get_reward_credits.
  destruct (distribute_rewards _ _) as [m|]; cbn [res_bind]; [|done]. intros [= <-].
  by intros ([node [[age w] amount]] & -> & _)%list_elem_of_fmap.
Qed.

Lemma reward_and_mint_moves k fresh payments managed nodes p l :
  (k < elders)%nat → wallet_key (section p) = key → mint_credits (section p) payments managed nodes = Ok l →
  credits = RewardStage.proposal <$> collect cp_id l →
  ∃ out, reward_and_mint (nets k) fresh payments managed nodes p = Ok out ∧
         moves k fresh p out (Proposed {[k]}, Some KProposal).
Proof.
  intros Hk Hkey Hmint Hcr. assert (collect cp_id l = pd_rewards (proposing (λ _, ∅))) as Hl.
  { apply map_eq. intros id. rewrite proposing_lookup, Hcr, lookup_fmap. destruct (collect cp_id l !! id) as [e|] eqn:He; [|done].
    cbn. rewrite prop_entry_empty. f_equal. apply collect_elem in He as [_ He]. by eapply mint_unsigned. }
  revert Hmint. unfold mint_credits, reward_and_mint. destruct (checked _) as [n|]; cbn [res_bind]; [|done].
  destruct (get_reward_and_mint_amount _ _ _) as [rewards|]; cbn [res_bind]; [|done]. intros ->. cbn [res_bind].
  unfold bind, lift. rewrite (sign_proposed k l Hk Hl), (index_of_elder k Hk). unfold modify, ret.
  eexists. split; [done|]. eexists. split; [done|]. eexists. rewrite Hkey. split; [|done]. apply get_proposal_is. set_solver.
Qed.

(** * The section *)

(** The section and the figures its elders agree on. *)
Context (our_section : OurSection) (our_signing : ElderSigning) (payments managed : Token)
        (nodes : gmap XorName (Z * PublicKey)) (proposed : list CreditProposal).
Context (Hkey : os_our_key our_section = key) (Hmint : mint_credits our_section payments managed nodes = Ok proposed)
        (Hcredits : credits = RewardStage.proposal <$> collect cp_id proposed).

(** The processes, the messages with their senders, and which of them [(i, k)]
    elder [k] has got. *)
Record payout : Type := mkPayout {
  procs : list RewardProcess;
  pool : list (nat * OutgoingMsg);
  delivered : gset (nat * nat);
}.

(** A message arrives: it is mapped to its duty, and the duty is done. *)
Definition hear (r : Routing) (fresh : MessageId) (src : SrcLocation) (m : OutgoingMsg) : M Error RewardProcess NodeDuty :=
  match msg m with
  | MtNode msg =>
      match op (map_node_msg msg src (dst m)) with
      | ReceiveRewardProposal proposal => receive_churn_proposal r fresh proposal
      | ReceiveRewardAccumulation accumulation => receive_wallet_accumulation r fresh accumulation
      | _ => ret NoOp
      end
  | _ => ret NoOp
  end.

Definition sent (k : nat) (res : Result NodeDuty) : list (nat * OutgoingMsg) :=
  match res with Ok (Send m) => [(k, m)] | _ => [] end.

(** An elder starts its payout ([begin_split_as_oldie] keeps the process), or gets
    a message; any number of times, in any order.  What it makes of a message is
    [kept], or not: [handle] in [node/handle.rs] has a copy of the process receive
    it, and drops the copy. *)
Inductive payout_step (kept : bool) : payout → payout → Prop :=
| payout_start s k fresh p res p' :
    procs s !! k = Some p → stage p = AwaitingThreshold →
    reward_and_mint (nets k) fresh payments managed nodes p = Ok (res, p') →
    payout_step kept s (mkPayout (<[k := p']> (procs s)) (pool s ++ sent k res) (delivered s))
| payout_hear s i k j m src fresh p res p' :
    pool s !! i = Some (j, m) → procs s !! k = Some p →
    hear (nets k) fresh src m p = (res, p') →
    payout_step kept s (mkPayout (if kept then <[k := p']> (procs s) else procs s) (pool s ++ sent k res)
                          ({[(i, k)]} ∪ delivered s)).

Definition payout_init : payout := mkPayout (replicate elders (reward_process_new our_section our_signing)) [] ∅.

(** * Its talk *)

Definition is_message (k : nat) (kd : kind) (m : OutgoingMsg) : Prop :=
  ∃ duty fresh, duty = Send m ∧ says our_section fresh k (Some kd) duty.

Record talks (s : payout) (a : talk) : Prop := mkTalks {
  talks_procs : Forall2 (λ p v, section p = our_section ∧ stage p = stage_of v) (procs s) (views a);
  talks_pool : Forall2 (λ x y, x.1 = y.1 ∧ is_message x.1 y.2 x.2) (pool s) (said a);
  talks_got : delivered s = got a;
}.

Lemma hear_moves k j fresh src m p v kd :
  (k < elders)%nat → section p = our_section → stage p = stage_of v → is_message j kd m →
  moves k fresh p (hear (nets k) fresh src m p) (hear_kind agreed kd k j v).
Proof.
  intros Hk Hsec Hst (duty & fresh' & -> & Hsays). assert (wallet_key (section p) = key) as Hwk by (by rewrite Hsec).
  destruct kd; cbn [says] in Hsays; destruct Hsays as (x & Hx & [= ->]); unfold hear; cbn [msg dst map_node_msg op match_node_msg].
  - by apply receive_proposal_moves.
  - by apply receive_accumulation_moves.
Qed.

(** A move of an elder, in the talk. *)
Lemma moves_talks s a k p fresh out next d :
  talks s a → procs s !! k = Some p → section p = our_section → moves k fresh p out next →
  talks (mkPayout (<[k := out.2]> (procs s)) (pool s ++ sent k out.1) d)
        (mkTalk (<[k := next.1]> (views a)) (said a ++ words k next.2) d).
Proof.
  intros [Hp Hpool Hgot] Hk Hsec (duty & -> & Hsays). split; cbn [procs views pool said delivered got fst snd].
  - by apply Forall2_insert.
  - apply Forall2_app; [done|]. destruct next.2 as [[]|]; cbn [says] in Hsays; cbn [words].
    + destruct Hsays as (x & Hx & ->). cbn. repeat constructor. eexists _, fresh. split; [done|]. rewrite <- Hsec. by exists x.
    + destruct Hsays as (x & Hx & ->). cbn. repeat constructor. eexists _, fresh. split; [done|]. rewrite <- Hsec. by exists x.
    + subst duty. constructor.
  - done.
Qed.

Lemma stage_of_awaiting v : AwaitingThreshold = stage_of v → v = Idle.
Proof. by destruct v. Qed.

(** Every step of a section that keeps its processes is a step of its talk. *)
Lemma payout_step_talks s s' a :
  talks s a → length (views a) = elders → payout_step true s s' → ∃ a', talk_step agreed a a' ∧ talks s' a'.
Proof.
  intros Ht Hlen Hstep. destruct Hstep as [s k fresh p res p' Hk Hst Hrun|s i k j m src fresh p res p' Hi Hk Hrun];
    pose proof (Forall2_lookup_l _ _ _ _ _ (talks_procs _ _ Ht) Hk) as (v & Hv & Hsec & Hstv);
    assert (k < elders)%nat as Hlt by (rewrite <- Hlen; by eapply lookup_lt_Some).
  - rewrite Hst in Hstv. apply stage_of_awaiting in Hstv as ->.
    destruct (reward_and_mint_moves k fresh payments managed nodes p proposed Hlt) as (out & Hout & Hmoves);
      [by rewrite Hsec|by rewrite Hsec|done|].
    rewrite Hrun in Hout. injection Hout as <-. eexists. split; [by apply talk_start|].
    rewrite (talks_got _ _ Ht). exact (moves_talks s a k p fresh _ _ _ Ht Hk Hsec Hmoves).
  - pose proof (Forall2_lookup_l _ _ _ _ _ (talks_pool _ _ Ht) Hi) as ([j' kd] & Hi' & Hj & Hm). cbn in Hj, Hm. subst j'.
    pose proof (hear_moves k j fresh src m p v kd Hlt Hsec Hstv Hm) as Hmoves. rewrite Hrun in Hmoves.
    eexists. split; [by eapply talk_hear|]. rewrite <- (talks_got _ _ Ht).
    exact (moves_talks s a k p fresh _ _ _ Ht Hk Hsec Hmoves).
Qed.

Lemma init_talks : talks payout_init (silence elders).
Proof.
  split; [|constructor|done]. cbn [payout_init silence procs views]. apply Forall2_same_length_lookup_2; [by rewrite !length_replicate|].
  intros k p v [-> _]%lookup_replicate [-> _]%lookup_replicate. done.
Qed.

Lemma payout_talks s :
  rtc (payout_step true) payout_init s → ∃ a, rtc (talk_step agreed) (silence elders) a ∧ talks s a.
Proof.
  intros Hr. eapply (rtc_ind_r (λ s, ∃ a, rtc (talk_step agreed) (silence elders) a ∧ talks s a)); [| |exact Hr].
  - exists (silence elders). split; [done|apply init_talks].
  - intros s1 s2 _ Hstep (a & Ha & Ht). pose proof (talk_inv_reachable elders agreed a Ha) as Hinv.
    destruct (payout_step_talks s1 s2 a Ht (ti_length _ _ _ Hinv) Hstep) as (a' & Hstep' & Ht').
    exists a'. split; [by eapply rtc_r|done].
Qed.










End payout.

(** * Properties *)

Section results.
Context `{MO : MessagingOps} `{SC : !Serde Credit} `{SSC : !Serde SignedCredit}
        `{SCT : !SerdeTotal Credit} `{SSCT : !SerdeTotal SignedCredit}.
Context (elders : nat) (nets : nat → Routing) (keys : PublicKeySet)
        (share_of : nat → list byte → BlsSignatureShare) (sig_of : list byte → BlsSignature).
Context (our_section : OurSection) (our_signing : ElderSigning) (payments managed : Token)
        (nodes : gmap XorName (Z * PublicKey)) (proposed : list CreditProposal).

(** The credits by their id, and a run of the section, with the processes [kept] or not. *)
Definition payout_credits : gmap CreditId Credit := RewardStage.proposal <$> collect cp_id proposed.
Definition payout_run (kept : bool) : payout → Prop :=
  rtc (payout_step nets payments managed nodes kept) (payout_init elders our_section our_signing).

Lemma payout_credits_filed : filed payout_credits.
Proof.
  intros id c. unfold payout_credits. rewrite lookup_fmap. destruct (collect cp_id proposed !! id) as [e|] eqn:He; [|done].
  intros [= <-]. by apply collect_elem in He as [He _].
Qed.

(** C11: the process of [reward_process.rs] is an agreement protocol.  For elders
    that agree on the figures and keep their process from one message to the
    next, which the node does not do, whatever order, losses and repetitions of
    messages there are: the stage of each elder is that of the machine of
    [PayoutProtocol] on the elders whose shares it has, and a payout that completes
    at an elder has exactly one proof for each credit, the same at all elders. *)
Theorem kept_payout_refines_protocol s :
  SectionKeys elders nets keys share_of sig_of → mint_credits our_section payments managed nodes = Ok proposed →
  payout_run true s →
  (∃ a, rtc (talk_step (agreed keys payout_credits)) (silence elders) a ∧
        talks keys share_of sig_of payout_credits (os_our_key our_section) our_section s a) ∧
  ∀ k p proofs, procs s !! k = Some p → stage p = Completed proofs →
    proofs = proof_of keys sig_of <$> payout_credits.
Proof.
  intros SK Hmint Hrun.
  destruct (payout_talks elders nets keys share_of sig_of payout_credits SK payout_credits_filed (os_our_key our_section)
    our_section our_signing payments managed nodes proposed eq_refl Hmint eq_refl s Hrun) as (a & Ha & Ht).
  split; [by exists a|]. intros k p proofs Hk Hst.
  destruct (Forall2_lookup_l _ _ _ _ _ (talks_procs _ _ _ _ _ _ _ _ Ht) Hk) as (v & _ & _ & Hv).
  rewrite Hst in Hv. destruct v; try discriminate Hv. by injection Hv as ->.
Qed.

End results.

Module Witness.
Import ToyCrates ToyRouting.

#[local] Instance credit_serde : Serde Credit := {| ser _ := Ok [x01]; de _ := Err tt; |}.
#[local] Instance signed_credit_serde : Serde SignedCredit := {| ser _ := Ok [x02]; de _ := Err tt; |}.
#[local] Instance credit_total : SerdeTotal Credit.
Proof. by intros c. Qed.
#[local] Instance signed_credit_total : SerdeTotal SignedCredit.
Proof. by intros c. Qed.

(** Three elders, of whom two are enough; a share is the same for all of them. *)
Definition toy_keys : PublicKeySet := (9%N, 1%nat).
Definition net_of (k : nat) : Routing :=
  let r := toy_routing [mkPeer (nm 0) 5; mkPeer (nm 1) 6; mkPeer (nm 2) 7] [] root_prefix in
  mkRouting (r_name r) (r_age r) (r_our_prefix r) true (Ok toy_keys) (Ok k) (r_our_elders r) (r_our_adults r)
    (r_our_adults_sorted_by_distance_to r) (r_our_elders_sorted_by_distance_to r) (r_section_key r) (r_matching_section r)
    (λ b _, Ok (N.of_nat (length b) : BlsSignatureShare)).
Definition toy_share (k : nat) (b : list byte) : BlsSignatureShare := N.of_nat (length b).
Definition toy_sig (b : list byte) : BlsSignature := N.of_nat (length b).

Lemma section_keys : SectionKeys 3 net_of toy_keys toy_share toy_sig.
Proof.
  split; [done..| |cbn; lia]. intros b shares Hsize Hall. change (1 < size shares)%nat in Hsize.
  change (combine_signatures toy_keys shares) with (if (1 <? size shares)%nat then snd <$> head (map_to_list shares) else None).
  rewrite (proj2 (Nat.ltb_lt _ _) Hsize). destruct (map_to_list shares) as [|[k s] l] eqn:Hl.
  - apply map_to_list_empty_iff in Hl. subst. rewrite map_size_empty in Hsize. lia.
  - cbn. f_equal. apply (Hall k). apply elem_of_map_to_list. rewrite Hl. by left.
Qed.

Definition toy_section : OurSection := mkOurSection root_prefix (key 9).
Definition toy_signing : ElderSigning := mkElderSigning (Multi toy_keys).
Definition minted : list CreditProposal :=
  match mint_credits toy_section 1000 500 RewardProcess.Witness.nodes with Ok l => l | Err _ => [] end.
Lemma minted_ok : mint_credits toy_section 1000 500 RewardProcess.Witness.nodes = Ok minted.
Proof.
  assert (is_ok (mint_credits toy_section 1000 500 RewardProcess.Witness.nodes) = true) as Hok by (vm_compute; reflexivity).
  unfold minted. destruct (mint_credits _ _ _ _); [reflexivity|discriminate Hok].
Qed.

(** Elder 0 starts, and what was sent arrives. *)
Definition begin : RewardProcess := reward_process_new toy_section toy_signing.
Definition started : payout :=
  match reward_and_mint (net_of 0) (mid 1) 1000 500 RewardProcess.Witness.nodes begin with
  | Ok (res, p) => mkPayout [p; begin; begin] (sent 0 res) ∅
  | Err _ => mkPayout [begin; begin; begin] [] ∅
  end.
Lemma started_run kept : payout_run 3 net_of toy_section toy_signing 1000 500 RewardProcess.Witness.nodes kept started.
Proof.
  assert (is_ok (reward_and_mint (net_of 0) (mid 1) 1000 500 RewardProcess.Witness.nodes begin) = true) as Hok
    by (vm_compute; reflexivity).
  apply rtc_once. unfold started.
  destruct (reward_and_mint (net_of 0) (mid 1) 1000 500 RewardProcess.Witness.nodes begin) as [[res p]|] eqn:Hrun; [|discriminate Hok].
  exact (payout_start _ _ _ _ kept (payout_init 3 toy_section toy_signing) 0 (mid 1) begin res p eq_refl eq_refl Hrun).
Qed.

Definition deliver (kept : bool) (s : payout) (to : nat * nat) : payout :=
  match pool s !! to.1, procs s !! to.2 with
  | Some (_, m), Some p =>
      let out := hear (net_of to.2) (mid 1) (SrcNode (address toy_section)) m p in
      mkPayout (if kept then <[to.2 := out.2]> (procs s) else procs s) (pool s ++ sent to.2 out.1)
        ({[(to.1, to.2)]} ∪ delivered s)
  | _, _ => s
  end.
Lemma deliver_run kept l s :
  payout_run 3 net_of toy_section toy_signing 1000 500 RewardProcess.Witness.nodes kept s →
  payout_run 3 net_of toy_section toy_signing 1000 500 RewardProcess.Witness.nodes kept (foldl (deliver kept) s l).
Proof.
  revert s. induction l as [|[i k] l IH]; [done|]. intros s Hs. apply IH. unfold deliver. cbn [fst snd].
  destruct (pool s !! i) as [[j m]|] eqn:Hi; [|done]. destruct (procs s !! k) as [p|] eqn:Hk; [|done].
  eapply rtc_r; [exact Hs|]. eapply payout_hear; [exact Hi|exact Hk|]. apply surjective_pairing.
Qed.

(** The proposals reach all elders, then the accumulations do, some of them twice. *)
Definition order : list (nat * nat) :=
  [(0, 0); (0, 1); (1, 0); (1, 0); (1, 2); (0, 2); (2, 0); (2, 1); (3, 0); (3, 1); (3, 2); (4, 0); (4, 2); (4, 1); (5, 0); (5, 1); (5, 2)]%nat.
Definition ended : payout := foldl (deliver true) started order.

Definition completed_at (p : RewardProcess) : bool := match stage p with Completed proofs => bool_decide (size proofs = 2%nat) | _ => false end.


Lemma kept_payout_refines_protocol_witness :
  (∃ a, rtc (talk_step (agreed toy_keys (payout_credits minted))) (silence 3) a ∧
        talks toy_keys toy_share toy_sig (payout_credits minted) (key 9) toy_section ended a) ∧
  ∃ p proofs, procs ended !! 2%nat = Some p ∧ stage p = Completed proofs ∧ size proofs = 2%nat ∧
    proofs = proof_of toy_keys toy_sig <$> payout_credits minted.
Proof.
  destruct (kept_payout_refines_protocol 3 net_of toy_keys toy_share toy_sig toy_section toy_signing 1000 500
    RewardProcess.Witness.nodes minted ended section_keys minted_ok (deliver_run true order started (started_run true)))
    as [Htalk Hproofs]. split; [exact Htalk|].
  assert (from_option completed_at false (procs ended !! 2%nat) = true) as Hp by (vm_compute; reflexivity).
  destruct (procs ended !! 2%nat) as [p|] eqn:Hk; [|discriminate Hp]. cbn in Hp. unfold completed_at in Hp.
  destruct (stage p) as [| | |proofs] eqn:Hst; try discriminate Hp. exists p, proofs.
  split; [reflexivity|]. split; [exact Hst|]. split; [exact (bool_decide_eq_true_1 _ Hp)|].
  exact (Hproofs 2%nat p proofs Hk Hst).
Defined.
End Witness.
