(* ===== verification/Metadata.v ===== *)
(** [src/metadata/{mod,elder_stores}.rs]: the requests on data an elder
    handles, dispatched to the records of blobs and to the stores of maps,
    sequences and registers.

    The four parts share the disk; the network is the argument [r]. *)

From S2P Require Import Prelude Crates Messages Disk Toy F64 UsedSpace ChunkStore Network Capacity AdultLiveness BlobRecords ElderData.

Section metadata.
Context `{MO : MessagingOps} `{DO : !DataOpsCrate}.
Context `{SMA : !Serde MapAddress} `{SM : !Serde Map} `{SSA : !Serde SequenceAddress} `{SS : !Serde Sequence}
        `{SRA : !Serde RegisterAddress} `{SR : !Serde Register}.

Record ElderStores : Type := mkElderStores {
  blob_records : BlobRecords;
  map_storage : ChunkStore;
  sequence_storage : ChunkStore;
  register_storage : ChunkStore;
}.
(** [Metadata] is its [ElderStores], here with the disk. *)
Definition Metadata : Type := ElderStores * Fs.

(** Run an operation of one part. *)
Definition on_blob {A} (m : M Error BlobRecords A) : M Error Metadata A :=
  zoom (λ s, blob_records s.1)
    (λ b s, (mkElderStores b (map_storage s.1) (sequence_storage s.1) (register_storage s.1), s.2)) m.
Definition on_map {A} (m : M Error CS A) : M Error Metadata A :=
  zoom (λ s, (map_storage s.1, s.2))
    (λ c s, (mkElderStores (blob_records s.1) c.1 (sequence_storage s.1) (register_storage s.1), c.2)) m.
Definition on_sequence {A} (m : M Error CS A) : M Error Metadata A :=
  zoom (λ s, (sequence_storage s.1, s.2))
    (λ c s, (mkElderStores (blob_records s.1) (map_storage s.1) c.1 (register_storage s.1), c.2)) m.
Definition on_register {A} (m : M Error CS A) : M Error Metadata A :=
  zoom (λ s, (register_storage s.1, s.2))
    (λ c s, (mkElderStores (blob_records s.1) (map_storage s.1) (sequence_storage s.1) c.1, c.2)) m.

(** * elder_stores.rs *)

Definition es_read (r : Routing) (query : DataQuery) (msg_id : MessageId) (requester : PublicKey) (origin : EndUser) :
    M Error Metadata NodeDuty :=
  match query with
  | DataQueryBlob read => on_blob (br_read r read msg_id origin)
  | DataQueryMap read => on_map (MapStorage.map_read read msg_id requester origin)
  | DataQuerySequence read => on_sequence (SequenceStorage.seq_read read msg_id requester origin)
  | DataQueryRegister read => on_register (RegisterStorage.reg_read read msg_id requester origin)
  end.

Definition es_write (r : Routing) (cmd : DataCmd) (msg_id : MessageId) (client_signed : ClientSigned) (origin : EndUser) :
    M Error Metadata NodeDuty :=
  let public_key := client_signed_public_key client_signed in
  match cmd with
  | DataCmdBlob write => on_blob (br_write r write msg_id client_signed origin)
  | DataCmdMap write => on_map (MapStorage.map_write write msg_id public_key origin)
  | DataCmdSequence write => on_sequence (SequenceStorage.seq_write write msg_id public_key origin)
  | DataCmdRegister write => on_register (RegisterStorage.reg_write write msg_id public_key origin)
  end.

Definition es_get_data_of (prefix : Prefix) : M Error Metadata DataExchange :=
  let! s := get in
  let blob_data := blob_get_data_of prefix (blob_records s.1) in
  let! map_data := on_map (MapStorage.map_get_data_of prefix) in
  let! seq_data := on_sequence (SequenceStorage.seq_get_data_of prefix) in
  ret (mkDataExchange blob_data map_data seq_data).

Definition es_update (data : DataExchange) : M Error Metadata unit :=
  on_map (MapStorage.map_update (map_data data)) ;;;
  on_sequence (SequenceStorage.seq_update (seq_data data)) ;;;
  on_blob (modify (blob_update (blob_data data))).

(** * mod.rs *)

Definition metadata_new (path_ : path) (max_capacity : Z) (capacity : AdultsStorageInfo) : M Error Fs ElderStores :=
  let blob_records := blob_records_new capacity in
  let! map_storage := MapStorage.map_new path_ max_capacity in
  let! sequence_storage := SequenceStorage.seq_new path_ max_capacity in
  let! register_storage := RegisterStorage.reg_new path_ max_capacity in
  ret (mkElderStores blob_records map_storage sequence_storage register_storage).

Definition md_read := es_read.
Definition md_write := es_write.
Definition md_record_adult_read_liveness (correlation_id : MessageId) (result : QueryResponse)
    (src : XorName) : M Error Metadata NodeDuties :=
  on_blob (br_record_adult_read_liveness correlation_id result src).
Definition md_retain_members_only (members : gset XorName) : M Error Metadata unit :=
  on_blob (br_retain_members_only members).
Definition md_increase_full_node_count (node_id : PublicKey) : M Error Metadata unit :=
  on_blob (modify (increase_full_node_count node_id)).
Definition md_republish_chunk (r : Routing) (data : Blob) : M Error Metadata NodeDuty :=
  on_blob (BlobRecords.republish_chunk r data).
Definition get_data_exchange_packet := es_get_data_of.
Definition md_update := es_update.
End metadata.
