(* ===== verification/ElderDb.v ===== *)
(** The stores of an elder against one abstract database: the three stores of
    [ElderStores] share a disk, each request works on one of them, and two
    elders exchange their data. *)

From S2P Require Import Prelude Crates Messages Disk Toy F64 UsedSpace ChunkStore Network Capacity AdultLiveness BlobRecords ElderData.
From S2P Require Import StoreFrame Metadata.

Section elder_db.
Context `{MO : MessagingOps} `{DO : !DataOpsCrate}.
Context `{SMA : !Serde MapAddress} `{SM : !Serde Map} `{SSA : !Serde SequenceAddress} `{SS : !Serde Sequence}
        `{SRA : !Serde RegisterAddress} `{SR : !Serde Register}.
Context `{EL : !EncodingLaws} `{DL : !DataOpsLaws}.
Context `{SMAL : !SerdeLaws MapAddress} `{SML : !SerdeLaws Map} `{SSAL : !SerdeLaws SequenceAddress}
        `{SSL : !SerdeLaws Sequence} `{SRAL : !SerdeLaws RegisterAddress} `{SRL : !SerdeLaws Register}.
Context `{SMAT : !SerdeTotal MapAddress} `{SMT : !SerdeTotal Map} `{SSAT : !SerdeTotal SequenceAddress}
        `{SST : !SerdeTotal Sequence} `{SRAT : !SerdeTotal RegisterAddress} `{SRT : !SerdeTotal Register}.

(** * The abstract database *)

Record elder_db : Type := mkElderDb {
  db_maps : kv (T := Map) (Id := MapAddress);
  db_seqs : kv (T := Sequence) (Id := SequenceAddress);
  db_regs : kv (T := Register) (Id := RegisterAddress);
}.

(** The three stores, in directories of their own, hold [db]. *)
Record elder_holds (s : Metadata) (db : elder_db) : Prop := mkElderHolds {
  eh_maps : holds (map_storage s.1, s.2) (db_maps db);
  eh_seqs : holds (sequence_storage s.1, s.2) (db_seqs db);
  eh_regs : holds (register_storage s.1, s.2) (db_regs db);
  eh_map_seq : cs_dir (map_storage s.1) ≠ cs_dir (sequence_storage s.1);
  eh_map_reg : cs_dir (map_storage s.1) ≠ cs_dir (register_storage s.1);
  eh_seq_reg : cs_dir (sequence_storage s.1) ≠ cs_dir (register_storage s.1);
}.

(** An operation of one store. *)
Lemma on_map_holds {A} (op : M Error CS A) s db r m' c' :
  (∀ dir id, keeps (confined dir id) op) → elder_holds s db →
  op (map_storage s.1, s.2) = (r, c') → holds c' m' →
  ∃ s', on_map op s = (r, s') ∧ elder_holds s' (mkElderDb m' (db_seqs db) (db_regs db)) ∧
    blob_records s'.1 = blob_records s.1.
Proof.
  intros Hop Hs Hrun Hm'. destruct (confined_frame op _ _ r c' (Hop _ _) (eh_maps _ _ Hs) Hrun) as [Hd Hb]. simpl in *.
  unfold on_map, zoom. rewrite Hrun. eexists. split; [done|]. split; [|done]. destruct Hs as [? Hseq Hreg ? ? ?].
  split; simpl; rewrite ?Hd; try done; [by destruct c'|by eapply holds_frame..].
Qed.

Lemma on_sequence_holds {A} (op : M Error CS A) s db r m' c' :
  (∀ dir id, keeps (confined dir id) op) → elder_holds s db →
  op (sequence_storage s.1, s.2) = (r, c') → holds c' m' →
  ∃ s', on_sequence op s = (r, s') ∧ elder_holds s' (mkElderDb (db_maps db) m' (db_regs db)) ∧
    blob_records s'.1 = blob_records s.1.
Proof.
  intros Hop Hs Hrun Hm'. destruct (confined_frame op _ _ r c' (Hop _ _) (eh_seqs _ _ Hs) Hrun) as [Hd Hb]. simpl in *.
  unfold on_sequence, zoom. rewrite Hrun. eexists. split; [done|]. split; [|done]. destruct Hs as [Hmap ? Hreg ? ? ?].
  split; simpl; rewrite ?Hd; try done; [by eapply holds_frame|by destruct c'|by eapply holds_frame].
Qed.

Lemma on_register_holds {A} (op : M Error CS A) s db r m' c' :
  (∀ dir id, keeps (confined dir id) op) → elder_holds s db →
  op (register_storage s.1, s.2) = (r, c') → holds c' m' →
  ∃ s', on_register op s = (r, s') ∧ elder_holds s' (mkElderDb (db_maps db) (db_seqs db) m') ∧
    blob_records s'.1 = blob_records s.1.
Proof.
  intros Hop Hs Hrun Hm'. destruct (confined_frame op _ _ r c' (Hop _ _) (eh_regs _ _ Hs) Hrun) as [Hd Hb]. simpl in *.
  unfold on_register, zoom. rewrite Hrun. eexists. split; [done|]. split; [|done]. destruct Hs as [Hmap Hseq ? ? ? ?].
  split; simpl; rewrite ?Hd; try done; [by eapply holds_frame..|by destruct c'].
Qed.

Lemma on_blob_holds {A} (op : M Error BlobRecords A) s db : elder_holds s db → elder_holds (on_blob op s).2 db.
Proof. intros Hs. unfold on_blob, zoom. destruct (op _) as [r b]. by destruct Hs; split. Qed.

(** * Requests *)

(** A request of a client, with the network at that time. *)
Record Request : Type := mkRequest {
  rq_routing : Routing;
  rq_body : DataQuery + DataCmd;
  rq_id : MessageId;
  rq_signed : ClientSigned;
  rq_origin : EndUser;
}.

Definition serve (q : Request) : M Error Metadata NodeDuty :=
  match rq_body q with
  | inl query => md_read (rq_routing q) query (rq_id q) (client_signed_public_key (rq_signed q)) (rq_origin q)
  | inr cmd => md_write (rq_routing q) cmd (rq_id q) (rq_signed q) (rq_origin q)
  end.

(** What a request may do to the database, and its answer.  Blobs are not in it. *)
Inductive db_step (db : elder_db) (q : Request) : Result NodeDuty → elder_db → Prop :=
| db_map_write w r m' :
    rq_body q = inr (DataCmdMap w) →
    guarded (db_maps db) (map_spec (client_signed_public_key (rq_signed q)) w (db_maps db)) r m' →
    (∀ a, a ≠ map_target w → m' a = db_maps db a) →
    db_step db q (Ok (ok_or_error r (rq_id q) (rq_origin q))) (mkElderDb m' (db_seqs db) (db_regs db))
| db_seq_write w r m' :
    rq_body q = inr (DataCmdSequence w) →
    guarded (db_seqs db) (seq_spec (rq_id q) (client_signed_public_key (rq_signed q)) w (db_seqs db)) r m' →
    (∀ a, a ≠ seq_target w → m' a = db_seqs db a) →
    db_step db q (Ok (ok_or_error r (rq_id q) (rq_origin q))) (mkElderDb (db_maps db) m' (db_regs db))
| db_reg_write w r m' :
    rq_body q = inr (DataCmdRegister w) →
    guarded (db_regs db) (reg_spec (rq_id q) (client_signed_public_key (rq_signed q)) w (db_regs db)) r m' →
    (∀ a, a ≠ reg_target w → m' a = db_regs db a) →
    db_step db q (Ok (ok_or_error r (rq_id q) (rq_origin q))) (mkElderDb (db_maps db) (db_seqs db) m')
| db_map_read rd :
    rq_body q = inl (DataQueryMap rd) →
    let resp := map_answer (client_signed_public_key (rq_signed q)) rd (db_maps db (map_read_target rd)) in
    db_step db q (Ok (reply resp (rq_id q) (rq_origin q))) db
| db_seq_read rd :
    rq_body q = inl (DataQuerySequence rd) →
    let resp := seq_answer (client_signed_public_key (rq_signed q)) rd (db_seqs db (seq_read_target rd)) in
    db_step db q (Ok (reply resp (rq_id q) (rq_origin q))) db
| db_reg_read rd :
    rq_body q = inl (DataQueryRegister rd) →
    let resp := reg_answer (client_signed_public_key (rq_signed q)) rd (db_regs db (reg_read_target rd)) in
    db_step db q (Ok (reply resp (rq_id q) (rq_origin q))) db
| db_blob_read rd res : rq_body q = inl (DataQueryBlob rd) → db_step db q res db
| db_blob_write w res : rq_body q = inr (DataCmdBlob w) → db_step db q res db.

Lemma eta_db db : mkElderDb (db_maps db) (db_seqs db) (db_regs db) = db.
Proof. by destruct db. Qed.

(** A read leaves its store as it is. *)
Lemma on_map_same {A} (op : M Error CS A) s r :
  op (map_storage s.1, s.2) = (r, (map_storage s.1, s.2)) → on_map op s = (r, s).
Proof. intros H1. unfold on_map, zoom. rewrite H1. by destruct s as [[] ?]. Qed.
Lemma on_sequence_same {A} (op : M Error CS A) s r :
  op (sequence_storage s.1, s.2) = (r, (sequence_storage s.1, s.2)) → on_sequence op s = (r, s).
Proof. intros H1. unfold on_sequence, zoom. rewrite H1. by destruct s as [[] ?]. Qed.
Lemma on_register_same {A} (op : M Error CS A) s r :
  op (register_storage s.1, s.2) = (r, (register_storage s.1, s.2)) → on_register op s = (r, s).
Proof. intros H1. unfold on_register, zoom. rewrite H1. by destruct s as [[] ?]. Qed.

Lemma serve_read q query s db :
  rq_body q = inl query → elder_holds s db →
  ∃ r s', serve q s = (r, s') ∧ elder_holds s' db ∧ db_step db q r db.
Proof.
  intros Hq Hs. unfold serve. rewrite Hq.
  set (key := client_signed_public_key (rq_signed q)).
  destruct query as [rd|rd|rd|rd]; cbn [md_read es_read].
  - pose proof (on_blob_holds (br_read (rq_routing q) rd (rq_id q) (rq_origin q)) s db Hs) as Hs'.
    unfold md_read, es_read. destruct (on_blob _ s) as [r s']. exists r, s'. split; [done|]. split; [done|]. by eapply db_blob_read.
  - pose proof (map_read_answers rd (rq_id q) key (rq_origin q) _ _ (eh_maps _ _ Hs)) as Hrun%on_map_same.
    eexists _, s. split; [exact Hrun|]. split; [done|]. by apply db_map_read.
  - pose proof (seq_read_answers rd (rq_id q) key (rq_origin q) _ _ (eh_seqs _ _ Hs)) as Hrun%on_sequence_same.
    eexists _, s. split; [exact Hrun|]. split; [done|]. by apply db_seq_read.
  - pose proof (reg_read_answers rd (rq_id q) key (rq_origin q) _ _ (eh_regs _ _ Hs)) as Hrun%on_register_same.
    eexists _, s. split; [exact Hrun|]. split; [done|]. by apply db_reg_read.
Qed.

Lemma serve_write q cmd s db :
  rq_body q = inr cmd → elder_holds s db →
  ∃ r s' db', serve q s = (r, s') ∧ elder_holds s' db' ∧ db_step db q r db'.
Proof.
  intros Hq Hs. unfold serve. rewrite Hq. set (key := client_signed_public_key (rq_signed q)).
  destruct cmd as [w|w|w|w].
  - pose proof (on_blob_holds (br_write (rq_routing q) w (rq_id q) (rq_signed q) (rq_origin q)) s db Hs) as Hs'.
    unfold md_write, es_write. destruct (on_blob _ s) as [r s']. exists r, s', db. split; [done|]. split; [done|]. by eapply db_blob_write.
  - destruct (map_write_refines w (rq_id q) key (rq_origin q) _ _ (eh_maps _ _ Hs)) as (r & m' & c' & Hrun & Hm' & Hg & Hfr).
    destruct (on_map_holds _ s db _ m' c' (λ dir id, confined_map_write dir id w _ _ _) Hs Hrun Hm') as (s' & Hon & Hs' & _).
    eexists _, s', _. split; [exact Hon|]. split; [done|]. by eapply db_map_write.
  - destruct (seq_write_refines w (rq_id q) key (rq_origin q) _ _ (eh_seqs _ _ Hs)) as (r & m' & c' & Hrun & Hm' & Hg & Hfr).
    destruct (on_sequence_holds _ s db _ m' c' (λ dir id, confined_seq_write dir id w _ _ _) Hs Hrun Hm') as (s' & Hon & Hs' & _).
    eexists _, s', _. split; [exact Hon|]. split; [done|]. by eapply db_seq_write.
  - destruct (reg_write_refines w (rq_id q) key (rq_origin q) _ _ (eh_regs _ _ Hs)) as (r & m' & c' & Hrun & Hm' & Hg & Hfr).
    destruct (on_register_holds _ s db _ m' c' (λ dir id, confined_reg_write dir id w _ _ _) Hs Hrun Hm') as (s' & Hon & Hs' & _).
    eexists _, s', _. split; [exact Hon|]. split; [done|]. by eapply db_reg_write.
Qed.

(** A map that was created is held. *)
Lemma created_map q map s db s' :
  rq_body q = inr (DataCmdMap (MapNew map)) → elder_holds s db → db_maps db (map_address map) = None →
  serve q s = (Ok NoOp, s') →
  elder_holds s' (mkElderDb (kv_set (map_id map) (Some map) (db_maps db)) (db_seqs db) (db_regs db)).
Proof.
  intros Hq Hs Hnone Hserve. destruct (serve_write q _ s db Hq Hs) as (r & s1 & db' & Hs1 & Hh & Hstep).
  rewrite Hserve in Hs1. injection Hs1 as <- <-. inversion Hstep as [w r' m' Hw Hg Hfr Hr| | | | | | |]; simplify_eq; [|congruence..].
  rewrite Hq in Hw. injection Hw as <-. unfold map_spec in Hg. simpl in Hg. rewrite Hnone in Hg.
  inversion Hg; subst; [exact Hh|discriminate].
Qed.

(** Requests one after the other, and what they do to the database. *)
Fixpoint serve_all (qs : list Request) (s : Metadata) : list (Result NodeDuty) * Metadata :=
  match qs with
  | [] => ([], s)
  | q :: qs => let '(r, s1) := serve q s in let '(rs, s2) := serve_all qs s1 in (r :: rs, s2)
  end.
Inductive db_run : elder_db → list Request → list (Result NodeDuty) → elder_db → Prop :=
| db_run_nil db : db_run db [] [] db
| db_run_cons db q r db1 qs rs db2 : db_step db q r db1 → db_run db1 qs rs db2 → db_run db (q :: qs) (r :: rs) db2.

(** * Starting, and the exchange *)

Definition empty_db : elder_db := mkElderDb (λ _, None) (λ _, None) (λ _, None).

(** No file at or below [dir]. *)
Definition fresh_dir (dir : path) (fs : Fs) : Prop := ∀ p, take (length dir) p = dir → files fs !! p = None.

Lemma fresh_dir_frame dir n n' fs fs' :
  fresh_dir (join dir n) fs → only_below (join dir n') fs fs' → n ≠ n' → fresh_dir (join dir n) fs'.
Proof.
  intros Hd [_ _ Hfiles] Hne p Hp. rewrite Hfiles; [by apply Hd|].
  destruct (child_name (join dir n') p) as [k|] eqn:Hk; [|done]. apply child_name_Some in Hk as ->.
  exfalso. apply Hne. unfold join in Hp. rewrite !length_app in Hp. simpl in Hp.
  rewrite take_app_le, take_ge in Hp by (rewrite length_app; simpl; lia).
  symmetry in Hp. by apply app_inj_tail in Hp as [_ [=]].
Qed.

Lemma cs_new_dir {T} `{!Subdir T} root cap fs st fs' :
  cs_new (T := T) root cap fs = (Ok st, fs') → cs_dir st = join (join root CHUNK_STORE_DIR) subdir.
Proof.
  unfold cs_new. set (dir := join _ _). unfold bind at 1. destruct (try _ fs) as [[r|] fs1]; [|done].
  unfold bind. destruct (is_ok r); [|destruct (create_new_root dir fs1) as [[[]|] fs2]; [|done]]; simpl;
    (destruct (add_local_store dir _) as [[id|] [u fs3]]; [|done]); by intros [= <- _].
Qed.

Lemma cs_new_holds {T Id} `{!ChunkId Id} `{!Serde Id} `{!Chunk T Id} `{!Serde T} `{!SerdeLaws Id} `{!Subdir T} root cap fs :
  faults fs = [] → 0 ≤ cap ≤ u64_max → fresh_dir (join (join root CHUNK_STORE_DIR) subdir) fs →
  ∃ st fs', cs_new (T := T) root cap fs = (Ok st, fs') ∧ holds (T := T) (Id := Id) (st, fs') (λ _, None) ∧
    cs_dir st = join (join root CHUNK_STORE_DIR) subdir ∧ only_below (join (join root CHUNK_STORE_DIR) subdir) fs fs'.
Proof.
  intros Hf Hcap Hfresh.
  destruct (cs_new_fresh (T := T) (Id := Id) root cap fs) as (st & fs' & Hnew & Hf' & Hinv & Hrep & _); [done|done| |].
  { intros p Hp. apply Hfresh. rewrite <- Hp at 2. f_equal. unfold join. rewrite !length_app. simpl. lia. }
  exists st, fs'. split; [done|]. split; [by split|]. split; [by eapply cs_new_dir|].
  pose proof (cs_new_below (T := T) root cap fs) as Hb. by rewrite Hnew in Hb.
Qed.

(** The directories of the data an elder keeps hold nothing; an adult's blobs are elsewhere. *)
Definition no_elder_data (root : path) (fs : Fs) : Prop :=
  Forall (λ sub, fresh_dir (join (join root CHUNK_STORE_DIR) sub) fs) ["mutable"; "sequence"; "register"].

(** The stores of a new elder, when nothing is left of an earlier one. *)
Lemma metadata_new_holds root cap info fs :
  faults fs = [] → 0 ≤ cap ≤ u64_max → no_elder_data root fs →
  ∃ st fs', metadata_new root cap info fs = (Ok st, fs') ∧ elder_holds (st, fs') empty_db ∧
    blob_records st = blob_records_new info.
Proof.
  intros Hf Hcap Hfresh.
  apply Forall_cons in Hfresh as [Hm Hfresh]. apply Forall_cons in Hfresh as [Hs Hfresh]. apply Forall_cons in Hfresh as [Hr _].
  unfold metadata_new, MapStorage.map_new, SequenceStorage.seq_new, RegisterStorage.reg_new.
  destruct (cs_new_holds (T := Map) (Id := MapAddress) root cap fs) as (st1 & fs1 & Hn1 & Hh1 & Hd1 & Hb1); [done|done|exact Hm|].
  destruct (cs_new_holds (T := Sequence) (Id := SequenceAddress) root cap fs1) as (st2 & fs2 & Hn2 & Hh2 & Hd2 & Hb2);
    [apply (holds_faults _ _ Hh1)|done|by eapply fresh_dir_frame|].
  destruct (cs_new_holds (T := Register) (Id := RegisterAddress) root cap fs2) as (st3 & fs3 & Hn3 & Hh3 & Hd3 & Hb3);
    [apply (holds_faults _ _ Hh2)|done| |].
  { eapply fresh_dir_frame; [|exact Hb2|done]. by eapply fresh_dir_frame. }
  unfold bind. rewrite Hn1, Hn2, Hn3. eexists _, fs3. split; [done|]. split; [|done].
  assert (cs_dir st1 ≠ cs_dir st2 ∧ cs_dir st1 ≠ cs_dir st3 ∧ cs_dir st2 ≠ cs_dir st3) as (H12 & H13 & H23).
  { rewrite Hd1, Hd2, Hd3. split_and!; intros [_ [=]]%join_inj. }
  rewrite <- Hd2 in Hb2. rewrite <- Hd3 in Hb3.
  split; simpl; try done; [|by eapply holds_frame].
  eapply holds_frame; [eapply holds_frame; [exact Hh1|exact Hb2|done]|exact Hb3|done].
Qed.

(** What the packet of an elder holds. *)
Lemma packet_holds prefix s db :
  elder_holds s db → no_stray (Id := MapAddress) (map_storage s.1, s.2) →
  no_stray (Id := SequenceAddress) (sequence_storage s.1, s.2) →
  ∃ data, get_data_exchange_packet prefix s = (Ok data, s) ∧
    (∀ a, map_data data !! a = if prefix_matches prefix (map_address_name a) then db_maps db a else None) ∧
    (∀ a, seq_data data !! a = if prefix_matches prefix (sequence_address_name a) then db_seqs db a else None) ∧
    full_adults_x (blob_data data) = full_adults_matching (br_capacity (blob_records s.1)) prefix.
Proof.
  intros Hs Hms Hss.
  destruct (exchange_get_holds map_address_name map_address prefix _ _ map_address_id (eh_maps _ _ Hs) Hms)
    as (md & Hmd%on_map_same & Hmd').
  destruct (exchange_get_holds sequence_address_name sequence_address prefix _ _ (λ _, eq_refl) (eh_seqs _ _ Hs) Hss)
    as (sd & Hsd%on_sequence_same & Hsd').
  exists (mkDataExchange (blob_get_data_of prefix (blob_records s.1)) md sd). split; [|done].
  assert (on_map (MapStorage.map_get_data_of prefix) s = (Ok md, s)) as Hm by exact Hmd.
  assert (on_sequence (SequenceStorage.seq_get_data_of prefix) s = (Ok sd, s)) as Hq by exact Hsd.
  unfold get_data_exchange_packet, es_get_data_of, bind, get. by rewrite Hm, Hq.
Qed.

(** What taking a packet in does. *)
Lemma md_update_holds data s db :
  elder_holds s db → (∀ a c, map_data data !! a = Some c → map_id c = a) →
  (∀ a c, seq_data data !! a = Some c → sequence_address c = a) →
  ∃ res s' db', md_update data s = (res, s') ∧ elder_holds s' db' ∧ db_regs db' = db_regs db ∧
    (res = Err NotEnoughSpace ∨
     res = Ok tt ∧ (∀ a, db_maps db' a = taken_in (map_data data) (db_maps db) a) ∧
       (∀ a, db_seqs db' a = taken_in (seq_data data) (db_seqs db) a) ∧
       br_capacity (blob_records s'.1) = br_capacity (blob_records s.1) ∪ full_adults_x (blob_data data)).
Proof.
  intros Hs Hm Hq. unfold md_update, es_update.
  destruct (exchange_update_holds (T := Map) (Id := MapAddress) (CI := MapAddress_chunk_id) map_address_cmp (map_data data) _ _ Hm (eh_maps _ _ Hs)) as (r1 & m1 & c1 & Hrun1 & Hh1 & Hr1).
  destruct (on_map_holds _ s db r1 m1 c1 (λ dir id, confined_exchange_update (T := Map) (Id := MapAddress) (CI := MapAddress_chunk_id) map_address_cmp dir id _) Hs Hrun1 Hh1)
    as (s1 & Hon1 & Hs1 & Hb1).
  assert (on_map (MapStorage.map_update (map_data data)) s = (r1, s1)) as Hup1 by exact Hon1.
  unfold bind at 1. rewrite Hup1.
  destruct Hr1 as [->|[-> Hm1]]; [eexists _, s1, _; split; [done|]; split; [exact Hs1|]; split; [done|]; by left|].
  destruct (exchange_update_holds (T := Sequence) (Id := SequenceAddress) (CI := SequenceAddress_chunk_id) sequence_address_cmp (seq_data data) _ _ Hq (eh_seqs _ _ Hs1)) as (r2 & m2 & c2 & Hrun2 & Hh2 & Hr2).
  destruct (on_sequence_holds _ s1 _ r2 m2 c2 (λ dir id, confined_exchange_update (T := Sequence) (Id := SequenceAddress) (CI := SequenceAddress_chunk_id) sequence_address_cmp dir id _) Hs1 Hrun2 Hh2)
    as (s2 & Hon2 & Hs2 & Hb2).
  assert (on_sequence (SequenceStorage.seq_update (seq_data data)) s1 = (r2, s2)) as Hup2 by exact Hon2.
  unfold bind at 1. rewrite Hup2.
  destruct Hr2 as [->|[-> Hm2]]; [eexists _, s2, _; split; [done|]; split; [exact Hs2|]; split; [done|]; by left|].
  eexists _, _, _. split; [reflexivity|]. split; [exact (on_blob_holds (modify (blob_update (blob_data data))) s2 _ Hs2)|]. split; [done|]. right. split; [done|].
  split; [exact Hm1|]. split; [exact Hm2|]. simpl. rewrite (proj1 (full_adults_writers _ _)). congruence.
Qed.

(** * Properties *)

(** C5: an elder implements a database of maps, sequences and registers, on a
    disk that does not fail: any sequence of requests of clients is answered as
    the database answers it.  A read answers with the part it asks for of what is
    stored at its address, or that there is nothing, or that the requester may not
    read it; a write is checked and changes at most its own address (when there is
    no room the client hears so and the old version is gone).  The stores share a
    disk, and requests on blobs, which are not in the database, come in between.
    Data and addresses can be encoded. *)
Theorem elder_stores_refine qs s db :
  elder_holds s db →
  ∃ db', db_run db qs (serve_all qs s).1 db' ∧ elder_holds (serve_all qs s).2 db'.
Proof.
  revert s db. induction qs as [|q qs IH]; intros s db Hs; simpl; [eauto using db_run|].
  assert (∃ r s' db', serve q s = (r, s') ∧ elder_holds s' db' ∧ db_step db q r db') as (r & s1 & db1 & Hq & Hs1 & Hstep).
  { destruct (rq_body q) as [query|cmd] eqn:Hbody; [|by eapply serve_write].
    destruct (serve_read q query s db Hbody Hs) as (r & s1 & ? & ? & ?). eauto 6. }
  rewrite Hq. destruct (IH s1 db1 Hs1) as (db2 & Hrun & Hs2). destruct (serve_all qs s1). simpl in *. eauto using db_run.
Qed.

(** C28: what one elder hands over for a prefix and another takes in: the
    receiver then has every map and sequence of the prefix as the sender has
    it, knows the full adults of the prefix, and keeps the rest of its data, or
    it reports that there is no room.  Registers are not handed over, and the
    sender is unchanged. *)
Theorem elder_exchange_roundtrip prefix sa dba sb dbb :
  elder_holds sa dba → elder_holds sb dbb →
  no_stray (Id := MapAddress) (map_storage sa.1, sa.2) → no_stray (Id := SequenceAddress) (sequence_storage sa.1, sa.2) →
  ∃ data res sb' dbb',
    get_data_exchange_packet prefix sa = (Ok data, sa) ∧ md_update data sb = (res, sb') ∧ elder_holds sb' dbb' ∧
    db_regs dbb' = db_regs dbb ∧
    (res = Err NotEnoughSpace ∨
     res = Ok tt ∧
     (∀ a c, prefix_matches prefix (map_address_name a) = true → db_maps dba a = Some c → db_maps dbb' a = Some c) ∧
     (∀ a, prefix_matches prefix (map_address_name a) = false ∨ db_maps dba a = None → db_maps dbb' a = db_maps dbb a) ∧
     (∀ a c, prefix_matches prefix (sequence_address_name a) = true → db_seqs dba a = Some c → db_seqs dbb' a = Some c) ∧
     (∀ a, prefix_matches prefix (sequence_address_name a) = false ∨ db_seqs dba a = None → db_seqs dbb' a = db_seqs dbb a) ∧
     (∀ n, n ∈ br_capacity (blob_records sa.1) → prefix_matches prefix n = true → n ∈ br_capacity (blob_records sb'.1))).
Proof.
  intros Ha Hb Hms Hss. destruct (packet_holds prefix sa dba Ha Hms Hss) as (data & Hget & Hmd & Hsd & Hbd).
  destruct (md_update_holds data sb dbb Hb) as (res & sb' & dbb' & Hup & Hb' & Hregs & Hres).
  { intros a c. rewrite Hmd. destruct (prefix_matches _ _); [|done]. intros Hc.
    exact (holds_id _ _ a c (eh_maps _ _ Ha) (ser_total _) Hc). }
  { intros a c. rewrite Hsd. destruct (prefix_matches _ _); [|done]. intros Hc.
    exact (holds_id _ _ a c (eh_seqs _ _ Ha) (ser_total _) Hc). }
  exists data, res, sb', dbb'. do 4 (split; [done|]). destruct Hres as [->|(-> & Hm & Hq & Hcap)]; [by left|right].
  split; [done|]. unfold taken_in in Hm, Hq.
  split_and!; intros a; rewrite ?Hm, ?Hq, ?Hmd, ?Hsd.
  - intros c -> ->. done.
  - intros [->| ->]; [done|]. by destruct (prefix_matches _ _).
  - intros c -> ->. done.
  - intros [->| ->]; [done|]. by destruct (prefix_matches _ _).
  - intros Hin Hp. rewrite Hcap, Hbd. apply elem_of_union_r. unfold full_adults_matching.
    by rewrite elem_of_list_to_set, list_elem_of_filter, elem_of_names_of.
Qed.
End elder_db.

Module Witness.
Import ToyCrates ToySerde ToyRouting ToyElderData.

(** A new elder, and one that was asked to create a map. *)
Definition fs0 : Fs := mkFs ∅ ∅ [].
Definition new_elder : Metadata :=
  match metadata_new ["root"] 1000 adults_storage_info_new fs0 with
  | (Ok st, fs) => (st, fs)
  | (Err _, fs) => (mkElderStores (blob_records_new ∅) (mkChunkStore [] (us_new 0) 0) (mkChunkStore [] (us_new 0) 0)
                      (mkChunkStore [] (us_new 0) 0), fs)
  end.
Lemma new_elder_holds : elder_holds new_elder empty_db.
Proof.
  destruct (metadata_new_holds ["root"] 1000 adults_storage_info_new fs0) as (st & fs & Hnew & Hh & _);
    [done|by unfold u64_max|repeat constructor; by intros p _; apply lookup_empty|].
  unfold new_elder. rewrite Hnew. exact Hh.
Qed.

Definition signer : ClientSigned := 1%N.
Definition maddr (n : N) : MapAddress := (tt, n).
Definition map0 : Map := Seq (3%N, 1%N).
Definition net : Routing := toy_routing [mkPeer (nm 0) 5] [] root_prefix.
Definition create : Request := mkRequest net (inr (DataCmdMap (MapNew map0))) (mid 7) signer (usr 2).
Definition read_back : Request := mkRequest net (inl (DataQueryMap (MapGet (maddr 3)))) (mid 8) signer (usr 2).
Definition elder : Metadata := (serve create new_elder).2.

(** The map is created and read back; at another address there is none. *)
Definition read_missing : Request := mkRequest net (inl (DataQueryMap (MapGet (maddr 4)))) (mid 9) signer (usr 2).
Definition answers0 : list (Result NodeDuty) :=
  [Ok NoOp; Ok (reply (GetMap (Ok map0)) (mid 8) (usr 2)); Ok (reply (GetMap (Err (EmDataNotFound (MapAddr (maddr 4))))) (mid 9) (usr 2))].
Lemma elder_stores_refine_witness :
  ∃ db', db_run empty_db [create; read_back; read_missing] answers0 db' ∧
         elder_holds (serve_all [create; read_back; read_missing] new_elder).2 db'.
Proof.
  assert ((serve_all [create; read_back; read_missing] new_elder).1 = answers0) as Ha by reflexivity.
  rewrite <- Ha. exact (elder_stores_refine [create; read_back; read_missing] new_elder empty_db new_elder_holds).
Defined.

Definition with_map : elder_db := mkElderDb (kv_set (maddr 3) (Some map0) (λ _, None)) (λ _, None) (λ _, None).
Lemma elder_has_map : elder_holds elder with_map.
Proof.
  assert (match (serve create new_elder).1 with Ok NoOp => true | _ => false end = true) as Hok by (vm_compute; reflexivity).
  destruct (serve create new_elder) as [r s'] eqn:Hs. unfold elder. rewrite Hs.
  destruct r as [[]|]; try discriminate Hok. exact (created_map create map0 new_elder empty_db s' eq_refl new_elder_holds eq_refl Hs).
Qed.

(** The names of the files of a store that are not chunks. *)
Definition strays (dir : path) (bytes : list byte) (l : list path) : list path :=
  filter (λ p, negb (bool_decide (child_name dir p = None) || bool_decide (p = join dir USED_SPACE_FILENAME) ||
                     bool_decide (p = join dir (hex_encode bytes))) = true) l.
Lemma no_strays {Id} `{!ChunkId Id} `{!Serde Id} (id : Id) bytes (s : CS) :
  ser id = Ok bytes → strays (cs_dir s.1) bytes (map_to_list (files s.2)).*1 = [] → no_stray (Id := Id) s.
Proof.
  intros Hser Hnil n [c Hc] Hne. exists id, bytes. split; [done|].
  apply elem_of_map_to_list, (list_elem_of_fmap_2 fst) in Hc. simpl in Hc.
  destruct (decide (join (cs_dir s.1) n = join (cs_dir s.1) (hex_encode bytes))) as [He|Hn]; [by apply join_inj in He as [_ He]|].
  assert (join (cs_dir s.1) n ∈ strays (cs_dir s.1) bytes (map_to_list (files s.2)).*1) as Hin; [|by rewrite Hnil in Hin; apply elem_of_nil in Hin].
  apply list_elem_of_filter. split; [|done]. rewrite (bool_decide_false _ Hn).
  rewrite !bool_decide_false; [done| |].
  - intros [_ ?]%join_inj. done.
  - rewrite (proj2 (child_name_Some (cs_dir s.1) _ n) eq_refl). done.
Qed.

Definition saddr0 : SequenceAddress := (0%N, true).
Definition bytes_of {A} `{!Serde A} (a : A) : list byte := match ser a with Ok b => b | Err _ => [] end.

(** The elder with the map hands it to the new one. *)
Lemma elder_exchange_roundtrip_witness :
  ∃ data res sb' dbb',
    get_data_exchange_packet root_prefix elder = (Ok data, elder) ∧ md_update data new_elder = (res, sb') ∧
    elder_holds sb' dbb' ∧ (res = Err NotEnoughSpace ∨ res = Ok tt ∧ db_maps dbb' (maddr 3) = Some map0).
Proof.
  destruct (elder_exchange_roundtrip root_prefix elder with_map new_elder empty_db elder_has_map new_elder_holds)
    as (data & res & sb' & dbb' & H1 & H2 & H3 & _ & H5).
  - apply (no_strays (maddr 3) (bytes_of (maddr 3))); [reflexivity|]. apply (bool_decide_unpack _). vm_compute. exact I.
  - apply (no_strays saddr0 (bytes_of saddr0)); [reflexivity|]. apply (bool_decide_unpack _). vm_compute. exact I.
  - exists data, res, sb', dbb'. split; [exact H1|]. split; [exact H2|]. split; [exact H3|].
    destruct H5 as [H5|(H5 & Hm & _)]; [left; exact H5|right]. split; [exact H5|]. apply Hm; reflexivity.
Defined.
End Witness.
