(* ===== verification/DataFlow.v ===== *)
(** The duties of [src/node/handle.rs] on data, and a read of a blob followed
    through all the nodes it passes: the client's elder, an adult that holds
    the blob, and the elder again.

    An arm of [handle] finds the node's role ([as_adult], [as_elder]) and
    spawns a task; the definitions are the tasks, on the state of that role. *)

From S2P Require Import Prelude Crates Messages Disk Toy F64 UsedSpace ChunkStore Network Capacity Chunks AdultLiveness BlobRecords ElderData Metadata EventMapping.

Section data_flow.
Context `{MO : MessagingOps} `{DO : !DataOpsCrate} `{SH : !ShuffleCrate}.
Context `{SMA : !Serde MapAddress} `{SM : !Serde Map} `{SSA : !Serde SequenceAddress} `{SS : !Serde Sequence}
        `{SRA : !Serde RegisterAddress} `{SR : !Serde Register} `{SBA : !Serde BlobAddress} `{SB : !Serde Blob}.

Definition DATA_SECTION_TARGET_COUNT : nat := 3.

(** ** Adults *)

(** [NodeDuty::ReadChunk] *)
Definition handle_read_chunk (read : BlobRead) (msg_id : MessageId) : M Error Chunks NodeDuties :=
  let! op := chunks_read read msg_id in
  let! s := get in
  let! more := lift (check_storage s.1) in
  ret (op :: more).

(** [NodeDuty::WriteChunk] *)
Definition handle_write_chunk (write : BlobWrite) (msg_id : MessageId) (client_signed : ClientSigned) :
    M Error Chunks NodeDuties :=
  let! op := chunks_write write msg_id (client_signed_public_key client_signed) in
  let! s := get in
  let! more := lift (check_storage s.1) in
  ret (op :: more).

(** [NodeDuty::ReplicateChunk] *)
Definition handle_replicate_chunk (data : Blob) : M Error Chunks NodeDuties :=
  let! op := chunks_store_for_replication data in
  ret [op].

(** ** Elders *)

(** [NodeDuty::ProcessRead] *)
Definition handle_process_read (r : Routing) (query : DataQuery) (msg_id : MessageId) (client_signed : ClientSigned)
    (origin : EndUser) : M Error Metadata NodeDuties :=
  let data_section_addr := data_query_dst_address query in
  if prefix_matches (our_prefix r) data_section_addr then
    let! duty := md_read r query msg_id (client_signed_public_key client_signed) origin in
    ret [duty]
  else
    let! targets := lift (get_closest_elders_to r data_section_addr msg_id DATA_SECTION_TARGET_COUNT) in
    ret [SendToNodes (NmNodeQuery (NqMetadata query client_signed origin) msg_id) targets AggNone].

(** [NodeDuty::ProcessWrite] *)
Definition handle_process_write (r : Routing) (cmd : DataCmd) (msg_id : MessageId) (client_signed : ClientSigned)
    (origin : EndUser) : M Error Metadata NodeDuties :=
  let! duty := md_write r cmd msg_id client_signed origin in
  ret [duty].

(** [NodeDuty::RecordAdultReadLiveness] *)
Definition handle_record_adult_read_liveness (response : QueryResponse) (correlation_id : MessageId) (src : XorName) :
    M Error Metadata NodeDuties :=
  md_record_adult_read_liveness correlation_id response src.

(** [NodeDuty::IncrementFullNodeCount] *)
Definition handle_increment_full_node_count (node_id : PublicKey) : M Error Metadata NodeDuties :=
  md_increase_full_node_count node_id ;;;
  ret [SetNodeJoinsAllowed true].

(** [NodeDuty::ProcessRepublish] *)
Definition handle_process_republish (r : Routing) (chunk : Blob) : M Error Metadata NodeDuties :=
  let! duty := md_republish_chunk r chunk in
  ret [duty].

(** * A read, end to end *)

Context `{DL : !DataOpsLaws} `{ML : !MessagingLaws} `{EL : !EncodingLaws} `{SBAL : !SerdeLaws BlobAddress}
        `{SBL : !SerdeLaws Blob}.

(** What the node that gets an outgoing message takes on. *)
Definition duty_of_msg (m : OutgoingMsg) (src : SrcLocation) : option NodeDuty :=
  match msg m with
  | MtNode n => Some (op (map_node_msg n src (dst m)))
  | MtClient _ => None
  end.

(** A read that is new is sent to the holders. *)
Lemma br_read_sends r address id origin s :
  ops (br_liveness s) !! id = None →
  get_chunk_holder_adults r (br_capacity s) (blob_address_name address) ≠ ∅ →
  (br_read r (BlobGet address) id origin s).1 =
  Ok (SendToNodes (NmNodeQuery (NqChunks (BlobGet address) origin) id)
        (get_chunk_holder_adults r (br_capacity s) (blob_address_name address)) AggNone).
Proof.
  intros Hnew Hne. simpl. unfold br_get, bind at 1, get. rewrite bool_decide_false by done.
  unfold new_read. rewrite Hnew. unfold_m. done.
Qed.

(** The adult answers a read with the blob it holds. *)
Lemma read_chunk_answers (st : Chunks) (m : kv (T := Blob) (Id := BlobAddress)) address id blob :
  holds st m → is_ok (ser address) = true → m address = Some blob →
  ∃ more, handle_read_chunk (BlobGet address) id st =
    (Ok (Send (mkOutgoingMsg (MtNode (NmNodeQueryResponse (NqrGetChunk (Ok blob)) (in_response_to id) id))
                 (DstSection (blob_address_name address)) false AggNone) :: more), st).
Proof.
  intros Hst Haddr Hm. unfold handle_read_chunk, chunks_read, storage_get, storage_get_chunk, try, bind at 1 2.
  rewrite (get_holds st m address Hst Haddr), Hm. cbn [map_err]. unfold_m. unfold check_storage.
  destruct (f64_ltb _ _); eauto.
Qed.

(** C13: a client's read of a blob ends with the blob.  Its message makes the
    elder ask the holders; the message a holder gets makes it look up the
    chunk; its answer makes the elder reply to the client that asked, with
    the blob the holder stores (as long as another holder has still to
    answer). *)
Theorem blob_read_end_to_end r address id client_signed origin blob adult other s (st : Chunks) m :
  let query := DataQueryBlob (BlobGet address) in
  let holders := get_chunk_holder_adults r (br_capacity (blob_records s.1)) (blob_address_name address) in
  prefix_matches (our_prefix r) (data_query_dst_address query) = true →
  ops (br_liveness (blob_records s.1)) !! id = None →
  adult ∈ holders → other ∈ holders → other ≠ adult →
  holds st m → is_ok (ser address) = true → m address = Some blob →
  ∃ ask answer more s1 duties s2,
    op (map_client_msg (CmProcess (PmQuery id (QueryData query) client_signed)) origin) =
      ProcessRead query id client_signed origin ∧
    handle_process_read r query id client_signed origin s = (Ok [SendToNodes ask holders AggNone], s1) ∧
    (∀ src, op (map_node_msg ask src (DstNode adult)) = ReadChunk (BlobGet address) id) ∧
    handle_read_chunk (BlobGet address) id st = (Ok (Send answer :: more), st) ∧
    duty_of_msg answer (SrcNode adult) = Some (RecordAdultReadLiveness (GetBlob (Ok blob)) id adult) ∧
    handle_record_adult_read_liveness (GetBlob (Ok blob)) id adult s1 = (Ok duties, s2) ∧
    replies duties = [build_client_query_response (GetBlob (Ok blob)) id origin].
Proof.
  intros query holders Hpre Hnew Hadult Hother Hne Hst Haddr Hm. set (b0 := blob_records s.1) in *.
  assert (holders ≠ ∅) as Hholders by set_solver.
  destruct (read_chunk_answers st m address id blob Hst Haddr Hm) as (more & Hread).
  pose proof (br_read_sends r address id origin b0 Hnew Hholders) as Hask.
  pose proof (read_records_op r address id origin b0 holders Hnew eq_refl Hholders) as Hop.
  destruct (br_read r (BlobGet address) id origin b0) as [res b1] eqn:Hbr. cbn [fst snd] in *. subst res.
  destruct (record_blob_replies id blob adult b1 _ Hop) as (duties & b2 & Hrec & Hrep);
    [done|by rewrite is_success_get_blob|].
  eexists _, _, more, _, duties, _. split; [done|]. split.
  { unfold handle_process_read. rewrite Hpre. unfold bind, md_read, es_read, on_blob, zoom. cbn [query].
    fold b0. rewrite Hbr. reflexivity. }
  split; [done|]. split; [exact Hread|]. split; [unfold duty_of_msg; simpl; by rewrite src_name_node|].
  split.
  { unfold handle_record_adult_read_liveness, md_record_adult_read_liveness, on_blob, zoom. cbn [fst blob_records].
    rewrite Hrec. reflexivity. }
  rewrite Hrep. simpl. rewrite bool_decide_false; [done|]. set_solver.
Qed.
End data_flow.

Module Witness.
Import ToyCrates ToySerde ToyRouting ToyElderData.

(** An elder with empty stores. *)
Definition elder : Metadata :=
  match metadata_new ["elder"] 1000 ∅ (mkFs ∅ ∅ []) with
  | (Ok st, fs) => (st, fs)
  | (Err _, fs) =>
      (mkElderStores (blob_records_new ∅) (mkChunkStore [] (us_new 0) 0) (mkChunkStore [] (us_new 0) 0)
         (mkChunkStore [] (us_new 0) 0), fs)
  end.
Definition signer : ClientSigned := 9%N.

(** Node 12 is the adult that holds blob 5. *)
Lemma blob_read_end_to_end_witness :
  ∃ ask answer more s1 duties s2,
    handle_process_read BlobRecords.Witness.r0 (DataQueryBlob (BlobGet (baddr 5))) (mid 3) signer (usr 6) elder
      = (Ok [SendToNodes ask (get_chunk_holder_adults BlobRecords.Witness.r0 (br_capacity (blob_records elder.1)) (nm 5)) AggNone], s1) ∧
    handle_read_chunk (BlobGet (baddr 5)) (mid 3) Chunks.Witness.s0
      = (Ok (Send answer :: more), Chunks.Witness.s0) ∧
    duty_of_msg answer (SrcNode (nm 12)) =
      Some (RecordAdultReadLiveness (GetBlob (Ok (ChunkStore.Witness.blob 5%N))) (mid 3) (nm 12)) ∧
    handle_record_adult_read_liveness (GetBlob (Ok (ChunkStore.Witness.blob 5%N))) (mid 3) (nm 12) s1
      = (Ok duties, s2) ∧
    replies duties = [build_client_query_response (GetBlob (Ok (ChunkStore.Witness.blob 5%N))) (mid 3) (usr 6)].
Proof.
  destruct (blob_read_end_to_end BlobRecords.Witness.r0 (baddr 5) (mid 3) signer (usr 6)
              (ChunkStore.Witness.blob 5%N) (nm 12) (nm 3) elder Chunks.Witness.s0 Chunks.Witness.m0)
    as (ask & answer & more & s1 & duties & s2 & _ & Helder & _ & Hadult & Hduty & Hrec & Hrep);
    [reflexivity|reflexivity|apply (bool_decide_unpack _); vm_compute; exact I..|done
    |apply Chunks.Witness.s0_holds|reflexivity|reflexivity|].
  exists ask, answer, more, s1, duties, s2. auto.
Defined.
End Witness.
