(* ===== verification/BlobService.v ===== *)
(** The blobs of a section: an elder, the adults, and the messages between them.
    Clients write, delete and read blobs; adults store, answer and move chunks;
    messages arrive late, repeatedly or never, and the members of the section
    change.

    The elder's side is that of [handle_process_read], [handle_process_write] and
    [handle_record_adult_read_liveness] ([src/node/handle.rs]), an adult's that of
    [handle_read_chunk], [handle_write_chunk], [handle_replicate_chunk] and
    [reorganize_chunks]. *)

From S2P Require Import Prelude Crates Messages Disk Toy F64 UsedSpace ChunkStore Network Capacity Chunks AdultLiveness BlobRecords ElderData Metadata ElderDb EventMapping DataFlow.

Section blob_service.
Context `{MO : MessagingOps} `{DO : !DataOpsCrate} `{SH : !ShuffleCrate}.
Context `{SMA : !Serde MapAddress} `{SM : !Serde Map} `{SSA : !Serde SequenceAddress} `{SS : !Serde Sequence}
        `{SRA : !Serde RegisterAddress} `{SR : !Serde Register} `{SBA : !Serde BlobAddress} `{SB : !Serde Blob}.
Implicit Types (a : BlobAddress) (b : Blob) (id : MessageId) (origin : EndUser).

(** * The system *)

(** A message on its way. *)
Record packet : Type := mkPacket {
  pk_src : SrcLocation;
  pk_dst : DstLocation;
  pk_msg : MsgType;
}.
Definition post (src : SrcLocation) (duty : NodeDuty) : list packet :=
  match duty with
  | Send m => [mkPacket src (dst m) (msg m)]
  | SendToNodes m targets _ => (λ n, mkPacket src (DstNode n) (MtNode m)) <$> elements targets
  | _ => []
  end.
Definition posts (src : SrcLocation) (r : Result NodeDuties) : list packet :=
  match r with Ok duties => duties ≫= post src | Err _ => [] end.

(** With what clients asked for, by the id of the message, and what they wrote. *)
Record service : Type := mkService {
  sv_elder : Metadata;
  sv_adults : gmap XorName Chunks;
  sv_net : list packet;
  sv_asked : gmap MessageId (BlobAddress * EndUser);
  sv_written : list (Blob * PublicKey);
}.

Definition adult_duty (duty : NodeDuty) : option (M Error Chunks NodeDuties) :=
  match duty with
  | ReadChunk read msg_id => Some (handle_read_chunk read msg_id)
  | WriteChunk write msg_id client_signed => Some (handle_write_chunk write msg_id client_signed)
  | ReplicateChunk data _ => Some (handle_replicate_chunk data)
  | _ => None
  end.
(** The ids of reads are random: one that is used again is of the same read. *)
Definition id_free (asked : gmap MessageId (BlobAddress * EndUser)) id a origin : Prop :=
  asked !! id = None ∨ asked !! id = Some (a, origin).

Context (me : XorName).

Inductive service_step : service → service → Prop :=
| sv_read r e ads net asked written a id cs origin res e' :
    id_free asked id a origin →
    handle_process_read r (DataQueryBlob (BlobGet a)) id cs origin e = (res, e') →
    service_step (mkService e ads net asked written)
      (mkService e' ads (net ++ posts (SrcNode me) res) (<[id := (a, origin)]> asked) written)
| sv_write r e ads net asked written b id cs origin res e' :
    handle_process_write r (DataCmdBlob (BlobNew b)) id cs origin e = (res, e') →
    service_step (mkService e ads net asked written)
      (mkService e' ads (net ++ posts (SrcNode me) res) asked (written ++ [(b, client_signed_public_key cs)]))
| sv_delete r e ads net asked written a id cs origin res e' :
    handle_process_write r (DataCmdBlob (BlobDeletePrivate a)) id cs origin e = (res, e') →
    service_step (mkService e ads net asked written)
      (mkService e' ads (net ++ posts (SrcNode me) res) asked written)
| sv_answer e ads net asked written src dst m response id n res e' :
    mkPacket src dst (MtNode m) ∈ net → op (map_node_msg m src dst) = RecordAdultReadLiveness response id n →
    handle_record_adult_read_liveness response id n e = (res, e') →
    service_step (mkService e ads net asked written)
      (mkService e' ads (net ++ posts (SrcNode me) res) asked written)
| sv_full e ads net asked written node_id res e' :
    handle_increment_full_node_count node_id e = (res, e') →
    service_step (mkService e ads net asked written) (mkService e' ads net asked written)
| sv_members e ads net asked written members res e' :
    md_retain_members_only members e = (res, e') →
    service_step (mkService e ads net asked written) (mkService e' ads net asked written)
| sv_adult_gets e ads net asked written src n m c run res c' :
    mkPacket src (DstNode n) (MtNode m) ∈ net → ads !! n = Some c →
    adult_duty (op (map_node_msg m src (DstNode n))) = Some run → run c = (res, c') →
    service_step (mkService e ads net asked written)
      (mkService e (<[n := c']> ads) (net ++ posts (SrcNode n) res) asked written)
| sv_churn e ads net asked written n new lost remaining fresh c res c' :
    ads !! n = Some c → reorganize_chunks n new lost remaining fresh c = (res, c') →
    service_step (mkService e ads net asked written)
      (mkService e (<[n := c']> ads) (net ++ posts (SrcNode n) res) asked written)
| sv_join e ads net asked written n root cap fs c fs' :
    faults fs = [] → 0 ≤ cap ≤ u64_max → fresh_dir (join (join root CHUNK_STORE_DIR) (subdir (T := Blob))) fs →
    chunks_new root cap fs = (Ok c, fs') →
    service_step (mkService e ads net asked written) (mkService e (<[n := (c, fs')]> ads) net asked written)
| sv_leave e ads net asked written n :
    service_step (mkService e ads net asked written) (mkService e (base.delete n ads) net asked written).

(** * Blobs come from clients *)

(** A blob that a client wrote that may store it. *)
Definition genuine (written : list (Blob * PublicKey)) b : Prop :=
  ∃ requester, (b, requester) ∈ written ∧ may_store b requester = true.

(** What the messages carry. *)
Definition packet_ok (asked : gmap MessageId (BlobAddress * EndUser)) (written : list (Blob * PublicKey))
    (p : packet) : Prop :=
  match pk_msg p with
  | MtNode (NmNodeCmd (NcChunks (BlobNew b) _ _) _) => genuine written b
  | MtNode (NmNodeCmd (NcSystem (ReplicateChunkCmd b)) _) => genuine written b
  | MtNode (NmNodeQuery (NqChunks (BlobGet a) _) id) => ∃ origin, asked !! id = Some (a, origin)
  | MtNode (NmNodeQueryResponse (NqrGetChunk (Ok b)) _ id) =>
      genuine written b ∧ ∃ origin, asked !! id = Some (blob_id b, origin)
  | MtClient (CmProcess (PmQueryResponse _ (GetBlob (Ok b)) id)) =>
      genuine written b ∧ ∃ origin, asked !! id = Some (blob_id b, origin) ∧ pk_dst p = DstEndUser origin
  | _ => True
  end.

Record service_inv (S : service) : Prop := mkServiceInv {
  inv_elder : ∀ id o, ops (br_liveness (blob_records (sv_elder S).1)) !! id = Some o →
    sv_asked S !! id = Some (op_address o, op_origin o);
  inv_adults : ∀ n c, sv_adults S !! n = Some c →
    ∃ m : kv (T := Blob) (Id := BlobAddress), holds c m ∧ ∀ a b, m a = Some b → genuine (sv_written S) b;
  inv_net : ∀ p, p ∈ sv_net S → packet_ok (sv_asked S) (sv_written S) p;
}.

Context `{DL : !DataOpsLaws} `{ML : !MessagingLaws} `{EL : !EncodingLaws} `{SBAL : !SerdeLaws BlobAddress}
        `{SBL : !SerdeLaws Blob}.
(** Blobs and their addresses can be encoded. *)
Context (Haddr : ∀ a, is_ok (ser a) = true) (Hblob : ∀ b, is_ok (ser b) = true).

(** ** The reads an elder waits for *)

Definition kept (s s' : AdultLiveness) : Prop :=
  ∀ id o', ops s' !! id = Some o' →
    ∃ o, ops s !! id = Some o ∧ op_address o' = op_address o ∧ op_origin o' = op_origin o.

#[local] Instance kept_preorder : PreOrder kept.
Proof.
  split.
  - intros s id o Ho. eauto.
  - intros s1 s2 s3 H12 H23 id o Ho. destruct (H23 id o Ho) as (o2 & Ho2 & -> & ->). by apply H12.
Qed.

Lemma kept_remove id n s : kept s (remove_target id n s).
Proof.
  intros i o'. rewrite remove_target_ops. destruct (ops s !! id) as [o|] eqn:Ho; [|eauto].
  case_bool_decide; [intros [_ Hi]%lookup_delete_Some; eauto|].
  rewrite lookup_insert_Some. intros [[<- <-]|[_ Hi]]; eauto.
Qed.

Lemma kept_foldl {A} (f : AdultLiveness → A → AdultLiveness) l s :
  (∀ s x, kept s (f s x)) → kept s (foldl f s l).
Proof.
  intros Hf. revert s. induction l as [|x l IH]; intros s; cbn [foldl]; [done|]. etransitivity; [apply Hf|apply IH].
Qed.

Lemma kept_members members s : kept s (retain_members_only members s).
Proof.
  unfold retain_members_only. transitivity (foldl (drop_member members) s (tracked s)); [|by intros id o; rewrite recompute_ops; eauto].
  apply kept_foldl. clear s. intros s n. unfold drop_member. case_bool_decide; [done|].
  etransitivity; [|apply kept_foldl; intros; apply kept_remove]. intros id o Ho. eauto.
Qed.

(** The reply of an answer goes to the client of the read. *)
Lemma kept_record id n success s res s' :
  record_adult_read_liveness id n success s = (res, s') →
  kept s s' ∧ ∀ a origin, res = Some (a, origin) → ∃ o, ops s !! id = Some o ∧ op_origin o = origin.
Proof.
  unfold record_adult_read_liveness. pose proof (kept_remove id n s) as Hkept. set (s1 := remove_target id n s) in *.
  destruct (ops s1 !! id) as [o|] eqn:Ho; [|by intros [= <- <-]]. case_match; intros [= <- <-]; [done|].
  destruct (Hkept id o Ho) as (o1 & Ho1 & Ha & Horig). split.
  - intros i o'. cbn [ops set_ops]. rewrite lookup_insert_Some. intros [[<- <-]|[_ Hi]]; [|by apply Hkept]. cbn. eauto.
  - intros a origin [= _ <-]. eauto.
Qed.

(** ** What the elder sends *)

Definition elder_ops (e : Metadata) : gmap MessageId ReadOperation := ops (br_liveness (blob_records e.1)).
Definition all_ok asked written (ps : list packet) : Prop := ∀ p, p ∈ ps → packet_ok asked written p.

Lemma posts_one src duty asked written :
  all_ok asked written (post src duty) → all_ok asked written (posts src (Ok [duty])).
Proof. intros Hp p. cbn. rewrite app_nil_r. apply Hp. Qed.

Lemma send_ok src m asked written :
  packet_ok asked written (mkPacket src (dst m) (msg m)) → all_ok asked written (post src (Send m)).
Proof. intros Hm p Hp. by apply list_elem_of_singleton in Hp as ->. Qed.

Lemma send_to_nodes_ok src m targets agg asked written :
  (∀ n, packet_ok asked written (mkPacket src (DstNode n) (MtNode m))) →
  all_ok asked written (post src (SendToNodes m targets agg)).
Proof. intros Hm p Hp. apply list_elem_of_fmap in Hp as (n & -> & _). apply Hm. Qed.

Lemma read_service r a id cs origin e res e' asked written :
  handle_process_read r (DataQueryBlob (BlobGet a)) id cs origin e = (res, e') →
  (∀ i, elder_ops e' !! i = elder_ops e !! i ∨
        i = id ∧ ∃ t, elder_ops e' !! i = Some (mkReadOperation a origin t false)) ∧
  all_ok (<[id := (a, origin)]> asked) written (posts (SrcNode me) res).
Proof.
  unfold handle_process_read. case_match.
  - unfold md_read, es_read, on_blob, zoom, br_read, br_get, bind. destruct e as [st fs]. cbn [fst snd get].
    set (B := blob_records st). unfold elder_ops. cbn [fst]. fold B. case_bool_decide.
    { unfold send_error. intros [= <- <-]. split; [by left|]. by apply posts_one, send_ok. }
    pose proof (new_read_ops id a origin (get_chunk_holder_adults r (br_capacity B) (blob_address_name a)) (br_liveness B)) as Hops.
    destruct (new_read _ _ _ _ (br_liveness B)) as [is_new l]. unfold modify. cbn [snd] in Hops.
    intros Hrun. split.
    + intros i. assert (ops (br_liveness (blob_records e'.1)) = ops l) as -> by (by destruct is_new; injection Hrun as _ <-).
      rewrite Hops. destruct (ops (br_liveness B) !! id); [by left|]. rewrite lookup_insert. case_decide; [right; eauto|by left].
    + destruct is_new; injection Hrun as <- _; apply posts_one; [|by intros p Hp%elem_of_nil].
      apply send_to_nodes_ok. intros n. cbn. exists origin. apply lookup_insert_eq.
  - unfold bind, lift. destruct (get_closest_elders_to _ _ _ _); intros [= <- <-]; (split; [by left|]).
    + by apply posts_one, send_to_nodes_ok.
    + by intros p Hp%elem_of_nil.
Qed.

Lemma write_service r w id cs origin e res e' asked written :
  handle_process_write r (DataCmdBlob w) id cs origin e = (res, e') →
  (∀ b, w = BlobNew b → may_store b (client_signed_public_key cs) = true → genuine written b) →
  elder_ops e' = elder_ops e ∧ all_ok asked written (posts (SrcNode me) res).
Proof.
  unfold handle_process_write, md_write, es_write, on_blob, zoom, bind. destruct e as [st fs]. cbn [fst snd].
  intros Hrun Hw. destruct w as [b|a]; cbn [br_write] in Hrun.
  - unfold br_store in Hrun. rewrite validate_data_owner_spec in Hrun.
    destruct (may_store b _) eqn:Hmay; [|injection Hrun as <- <-; split; [done|]; by apply posts_one, send_ok].
    unfold send_chunks_to_adults, bind, get in Hrun. case_bool_decide;
      injection Hrun as <- <-; (split; [done|]); apply posts_one; [by apply send_ok|]. apply send_to_nodes_ok. intros n. cbn. by apply Hw.
  - injection Hrun as <- <-. split; [done|]. by apply posts_one, send_to_nodes_ok.
Qed.

Lemma answer_service response id n e res e' asked written :
  handle_record_adult_read_liveness response id n e = (res, e') →
  (∀ i o, elder_ops e !! i = Some o → asked !! i = Some (op_address o, op_origin o)) →
  (∀ b, response = GetBlob (Ok b) → genuine written b ∧ ∃ origin, asked !! id = Some (blob_id b, origin)) →
  kept (br_liveness (blob_records e.1)) (br_liveness (blob_records e'.1)) ∧ all_ok asked written (posts (SrcNode me) res).
Proof.
  unfold handle_record_adult_read_liveness, md_record_adult_read_liveness, on_blob, zoom, br_record_adult_read_liveness.
  destruct e as [st fs]. unfold elder_ops. cbn [fst snd]. set (B := blob_records st). intros Hrun Hops Hresp.
  destruct (negb _) eqn:Hget; [injection Hrun as <- <-; split; [done|by intros p Hp%elem_of_nil]|].
  unfold bind, get, modify, ret in Hrun. destruct (record_adult_read_liveness _ _ _ _) as [rec l] eqn:Hrec.
  injection Hrun as <- <-. destruct (kept_record _ _ _ _ _ _ Hrec) as [Hkept Horig]. split; [exact Hkept|].
  assert (∀ d, d ∈ (if bool_decide ((find_unresponsive_adults l).*1 = []) then [] else [ProposeOffline (find_unresponsive_adults l).*1]) →
    post (SrcNode me) d = []) as Hoff.
  { intros d. case_bool_decide; [by intros ?%elem_of_nil|]. by intros ->%list_elem_of_singleton. }
  intros p Hp. cbn [posts] in Hp. apply list_elem_of_bind in Hp as (d & Hp & Hd). apply elem_of_app in Hd as [Hd|Hd];
    [|rewrite (Hoff d Hd) in Hp; by apply elem_of_nil in Hp].
  destruct rec as [[a origin]|]; [|by apply elem_of_nil in Hd]. case_match; [by apply elem_of_nil in Hd|].
  apply list_elem_of_singleton in Hd as ->. revert p Hp. apply send_ok. cbn.
  destruct (Horig a origin eq_refl) as (o & Ho & <-). destruct response as [res| | | | | | | | | | | | | | | | | | | | | | | |]; try done.
  destruct res as [b|]; [|done].
  destruct (Hresp b eq_refl) as (Hgen & origin & Hasked). split; [done|]. exists origin. split; [done|].
  apply Hops in Ho. rewrite Hasked in Ho. by injection Ho as _ ->.
Qed.

(** ** What an adult stores and sends *)

Definition stocked (written : list (Blob * PublicKey)) (c : Chunks) : Prop :=
  ∃ m : kv (T := Blob) (Id := BlobAddress), holds c m ∧ ∀ a b, m a = Some b → genuine written b.

Lemma stocked_set written c m a x :
  holds c (kv_set a x m) → (∀ a b, m a = Some b → genuine written b) → (∀ b, x = Some b → genuine written b) →
  stocked written c.
Proof.
  intros Hc Hm Hx. exists (kv_set a x m). split; [done|]. intros a' b. unfold kv_set. case_decide; eauto.
Qed.

Lemma check_storage_posts src st more : check_storage st = Ok more → more ≫= post src = [].
Proof. unfold check_storage. case_match; by intros [= <-]. Qed.

Lemma read_chunk_service a id c n res c' asked written :
  stocked written c → (∃ origin, asked !! id = Some (a, origin)) →
  handle_read_chunk (BlobGet a) id c = (res, c') →
  stocked written c' ∧ all_ok asked written (posts (SrcNode n) res).
Proof.
  intros (m & Hc & Hm) Hasked. unfold handle_read_chunk, chunks_read, storage_get, storage_get_chunk, try, bind, lift, get, ret.
  rewrite (get_holds c m a Hc (Haddr a)). destruct (check_storage c.1) as [more|] eqn:Hmore; intros [= <- <-];
    (split; [by exists m|]); [|by intros p Hp%elem_of_nil]. cbn [posts]. intros p Hp. cbn in Hp.
  rewrite (check_storage_posts _ _ _ Hmore) in Hp. apply list_elem_of_singleton in Hp as ->. cbn.
  destruct (m a) as [b|] eqn:Hb; [|done]. cbn. split; [by eapply Hm|].
  assert (blob_id b = a) as -> by exact (holds_id c m a b Hc (Haddr a) Hb). done.
Qed.

Lemma write_chunk_service w id cs c n res c' asked written :
  stocked written c → (∀ b, w = BlobNew b → genuine written b) →
  handle_write_chunk w id cs c = (res, c') →
  stocked written c' ∧ all_ok asked written (posts (SrcNode n) res).
Proof.
  intros (m & Hc & Hm) Hw. unfold handle_write_chunk. unfold bind at 1.
  destruct (chunks_write_spec c m w id (client_signed_public_key cs)) as (r1 & c1 & Hrun & Hspec); [done| |].
  { destruct w as [b|a]; [split; [apply Haddr|apply Hblob]|apply Haddr]. }
  rewrite Hrun. clear Hrun. intros Hrest.
  assert (c' = c1 ∧ (r1 = Ok NoOp ∨ (∃ e, r1 = Err e) → posts (SrcNode n) res = [])) as [-> Hposts].
  { destruct r1 as [d|e]; [|by injection Hrest as <- <-]. unfold bind, get, lift, ret in Hrest.
    destruct (check_storage c1.1) as [more|] eqn:Hmore; injection Hrest as <- <-; (split; [done|]); [|done].
    intros [[= ->]|[e [=]]]. cbn. by rewrite (check_storage_posts _ _ _ Hmore). }
  assert (stocked written c1 ∧ (r1 = Ok NoOp ∨ ∃ e, r1 = Err e)) as [Hst Hr].
  { destruct w as [b|a].
    - destruct (m (blob_id b)); [destruct Hspec as [-> ->]; split; [by exists m|eauto]|].
      destruct Hspec as [[-> Hc1]|[-> Hc1]]; (split; [|eauto]); [|by exists m]. eapply stocked_set; [exact Hc1|done|].
      intros b' [= <-]. by apply Hw.
    - destruct (m a) as [[pb|pb]|]; try (destruct Hspec as [-> ->]; split; [by exists m|eauto]).
      case_decide; destruct Hspec as [-> Hc1]; (split; [|eauto]); [by eapply stocked_set|by subst; exists m]. }
  split; [done|]. rewrite (Hposts Hr). by intros p Hp%elem_of_nil.
Qed.

Lemma replicate_service b c n res c' asked written :
  stocked written c → genuine written b → handle_replicate_chunk b c = (res, c') →
  stocked written c' ∧ all_ok asked written (posts (SrcNode n) res).
Proof.
  intros (m & Hc & Hm) Hb. unfold handle_replicate_chunk, bind, ret.
  destruct (replication_idempotent c m b Hc (Haddr _) (Hblob b)) as (r1 & c1 & -> & [[-> Hc1]|(-> & _ & Hc1)]);
    intros [= <- <-].
  - split; [by exists m|by intros p Hp%elem_of_nil].
  - split; [|by intros p Hp%elem_of_nil]. destruct (m (blob_id b)); [by exists m|]. eapply stocked_set; [exact Hc1|done|]. naive_solver.
Qed.

Lemma keys_same (c : Chunks) : faults c.2 = [] → ∃ l, keys (Id := BlobAddress) c = (Ok l, c).
Proof.
  intros Hf. unfold keys, fs_read_dir. rewrite syscall_none by done. destruct c as [st fs]. cbn [fst snd].
  case_decide; [|eauto]. rewrite fs_entries_none by done. eauto.
Qed.

Lemma reorganize_loop_service n new lost remaining l acc c res c' written :
  stocked written c → (∀ b h, acc !! b = Some h → genuine written b) →
  fold_m (reorganize_step n new lost remaining) l acc c = (res, c') →
  stocked written c' ∧ ∀ acc', res = Ok acc' → ∀ b h, acc' !! b = Some h → genuine written b.
Proof.
  revert acc c. induction l as [|a l IH]; intros acc c Hst Hacc; cbn [fold_m].
  { intros [= <- <-]. split; [done|]. by intros acc' [= <-]. }
  destruct Hst as (m & Hc & Hm). unfold bind.
  destruct (reorganize_step_holds n new lost remaining c m acc a Hc (Haddr a)) as (c1 & -> & Hc1).
  apply IH.
  - destruct (we_are_not_holder_anymore _ _ _ _); [by eapply stocked_set|by exists m].
  - intros b h. destruct (m a) as [b'|] eqn:Hb; [|apply Hacc]. destruct (must_republish _ _ _ _ _); [|apply Hacc].
    rewrite lookup_insert_Some. intros [[<- _]|[_ Hb']]; [by eapply Hm|by eapply Hacc].
Qed.

Lemma churn_service n new lost remaining fresh c res c' asked written :
  stocked written c → reorganize_chunks n new lost remaining fresh c = (res, c') →
  stocked written c' ∧ all_ok asked written (posts (SrcNode n) res).
Proof.
  intros Hst. pose proof Hst as (m & Hc & _). unfold reorganize_chunks, chunks_keys, storage_keys, bind, ret.
  destruct (keys_same c (holds_faults _ _ Hc)) as [l ->].
  destruct (fold_m _ l ∅ c) as [r1 c1] eqn:Hloop.
  apply (reorganize_loop_service _ _ _ _ _ _ _ _ _ written) in Hloop as [Hst1 Hacc]; [|done|by intros b h Hb].
  destruct r1 as [acc|]; intros [= <- <-]; (split; [done|]); [|by intros p Hp%elem_of_nil].
  intros p Hp. cbn [posts] in Hp. apply list_elem_of_bind in Hp as (d & Hp & Hd). unfold replication_duties in Hd.
  apply elem_of_lookup_imap in Hd as (i & [b h] & -> & Hi). revert p Hp. apply send_to_nodes_ok. intros k. cbn.
  apply (Hacc acc eq_refl b h). apply (elem_of_btree_entries blob_cmp). by eapply list_elem_of_lookup_2.
Qed.

(** ** The invariant *)

Lemma genuine_app written more b : genuine written b → genuine (written ++ more) b.
Proof. intros (k & Hk & Hmay). exists k. split; [|done]. apply elem_of_app. by left. Qed.

Lemma packet_ok_mono asked asked' written written' p :
  asked ⊆ asked' → (∀ b, genuine written b → genuine written' b) →
  packet_ok asked written p → packet_ok asked' written' p.
Proof.
  intros Ha Hw. unfold packet_ok.
  assert (∀ i x, asked !! i = Some x → asked' !! i = Some x) as Hl by (intros i x Hi; by eapply lookup_weaken).
  repeat case_match; naive_solver.
Qed.

Lemma id_free_mono asked id a origin : id_free asked id a origin → asked ⊆ <[id := (a, origin)]> asked.
Proof. intros [H1|H1]; [by apply insert_subseteq|by rewrite insert_id]. Qed.

(** An adult did something. *)
Lemma adult_inv e ads net asked written n c' ps :
  service_inv (mkService e ads net asked written) → stocked written c' → all_ok asked written ps →
  service_inv (mkService e (<[n := c']> ads) (net ++ ps) asked written).
Proof.
  intros [He Ha Hn] Hc Hps. split; cbn in *; [done| |].
  - intros k c. rewrite lookup_insert_Some. intros [[<- <-]|[_ Hk]]; [exact Hc|by eapply Ha].
  - intros p [Hp|Hp]%elem_of_app; auto.
Qed.

(** The elder did something; more was asked for and written. *)
Lemma elder_inv e ads net asked written e' ps asked' written' :
  service_inv (mkService e ads net asked written) → asked ⊆ asked' → (∀ b, genuine written b → genuine written' b) →
  (∀ id o, elder_ops e' !! id = Some o → asked' !! id = Some (op_address o, op_origin o)) →
  all_ok asked' written' ps → service_inv (mkService e' ads (net ++ ps) asked' written').
Proof.
  intros [He Ha Hn] Has Hw He' Hps. split; cbn in *; [done| |].
  - intros n c Hc. destruct (Ha n c Hc) as (m & Hm & Hgen). exists m. eauto.
  - intros p [Hp|Hp]%elem_of_app; [|auto]. eapply packet_ok_mono; eauto.
Qed.

Lemma kept_asked e e' (asked : gmap MessageId (BlobAddress * EndUser)) :
  (∀ id o, elder_ops e !! id = Some o → asked !! id = Some (op_address o, op_origin o)) →
  kept (br_liveness (blob_records e.1)) (br_liveness (blob_records e'.1)) →
  ∀ id o, elder_ops e' !! id = Some o → asked !! id = Some (op_address o, op_origin o).
Proof. intros He Hk id o Ho. destruct (Hk id o Ho) as (o1 & Ho1 & -> & ->). by apply He. Qed.

(** The messages behind the duties. *)
Lemma mapped_answer m src dst response id n :
  op (map_node_msg m src dst) = RecordAdultReadLiveness response id n →
  ∃ res q, m = NmNodeQueryResponse (NqrGetChunk res) q id ∧ response = GetBlob res.
Proof.
  unfold map_node_msg, match_node_msg, node_msg_error. intros Hop. repeat case_match; simplify_eq/=; eauto.
Qed.

Lemma adult_service src n m c run res c' asked written :
  packet_ok asked written (mkPacket src (DstNode n) (MtNode m)) → stocked written c →
  adult_duty (op (map_node_msg m src (DstNode n))) = Some run → run c = (res, c') →
  stocked written c' ∧ all_ok asked written (posts (SrcNode n) res).
Proof.
  intros Hok Hst. unfold map_node_msg, match_node_msg, node_msg_error.
  repeat case_match; simplify_eq/=; intros [= <-] Hrun.
  - eapply write_chunk_service; [done| |done]. by intros b ->.
  - eapply replicate_service; [exact Hst|exact Hok|exact Hrun].
  - destruct query0. eapply read_chunk_service; [exact Hst|exact Hok|exact Hrun].
Qed.

Lemma service_step_inv S S' : service_inv S → service_step S S' → service_inv S'.
Proof.
  intros HS Hstep. pose proof (inv_elder S HS) as He. pose proof (inv_net S HS) as Hnet. pose proof (inv_adults S HS) as Hads.
  destruct Hstep as [r e ads net asked written a id cs origin res e' Hfree Hrun|r e ads net asked written b id cs origin res e' Hrun
    |r e ads net asked written a id cs origin res e' Hrun|e ads net asked written src dst m response id n res e' Hm Hop Hrun
    |e ads net asked written node_id res e' Hrun|e ads net asked written members res e' Hrun
    |e ads net asked written src n m c run res c' Hm Hc Hduty Hrun|e ads net asked written n new lost remaining fresh c res c' Hc Hrun
    |e ads net asked written n root cap fs c fs' Hf Hcap Hfresh Hnew|e ads net asked written n]; cbn in He, Hnet, Hads.
  - destruct (read_service r a id cs origin e res e' asked written Hrun) as [Hops Hok]. pose proof (id_free_mono _ _ _ _ Hfree) as Hsub.
    apply (elder_inv e ads net asked written); [done|done|done| |done].
    intros i o Ho. destruct (Hops i) as [Hi|[-> [t Hi]]]; rewrite Hi in Ho; [eapply lookup_weaken; [by apply He|done]|].
    injection Ho as <-. apply lookup_insert_eq.
  - destruct (write_service r (BlobNew b) id cs origin e res e' asked (written ++ [(b, client_signed_public_key cs)]) Hrun) as [Hops Hok].
    { intros b' [= <-] Hmay. exists (client_signed_public_key cs). split; [|done]. apply elem_of_app. right. by left. }
    apply (elder_inv e ads net asked written); [done|done|apply genuine_app| |done]. rewrite Hops. exact He.
  - destruct (write_service r (BlobDeletePrivate a) id cs origin e res e' asked written Hrun) as [Hops Hok]; [done|].
    apply (elder_inv e ads net asked written); [done|done|done| |done]. rewrite Hops. exact He.
  - destruct (mapped_answer _ _ _ _ _ _ Hop) as (got & q & -> & ->). specialize (Hnet _ Hm).
    destruct (answer_service (GetBlob got) id n e res e' asked written Hrun He) as [Hkept Hok].
    { intros b [= ->]. exact Hnet. }
    apply (elder_inv e ads net asked written); [done|done|done| |done]. by apply (kept_asked e).
  - rewrite <- (app_nil_r net). apply (elder_inv e ads net asked written); [done|done|done| |by intros p Hp%elem_of_nil].
    injection Hrun as _ <-. exact He.
  - rewrite <- (app_nil_r net). apply (elder_inv e ads net asked written); [done|done|done| |by intros p Hp%elem_of_nil].
    injection Hrun as _ <-. apply (kept_asked e); [done|]. apply kept_members.
  - destruct (adult_service src n m c run res c' asked written (Hnet _ Hm) (Hads n c Hc) Hduty Hrun). by apply adult_inv.
  - destruct (churn_service n new lost remaining fresh c res c' asked written (Hads n c Hc) Hrun). by apply adult_inv.
  - rewrite <- (app_nil_r net). apply adult_inv; [done| |by intros p Hp%elem_of_nil].
    destruct (cs_new_holds (T := Blob) (Id := BlobAddress) root cap fs Hf Hcap Hfresh) as (c1 & fs1 & Hnew1 & Hh & _).
    unfold chunks_new, storage_new in Hnew. rewrite Hnew1 in Hnew. injection Hnew as <- <-. by exists (λ _, None).
  - split; [done| |done]. cbn. intros k c [_ Hk]%lookup_delete_Some. by apply (Hads k c).
Qed.

(** C9: a client that asks for a blob and is sent one gets the blob of the
    address it asked for, and a client that may store that blob wrote it: whatever
    others write, delete and read meanwhile, however messages are delayed, repeated
    or lost, and whichever adults come, go, fill up and move their chunks.  The ids
    of reads are taken to be unique (one that is used again is that of the same
    read), the disks of the adults not to fail, and blobs to be encodable. *)
Theorem blob_reads_are_genuine e S p q b id :
  elder_ops e = ∅ → rtc service_step (mkService e ∅ [] ∅ []) S →
  p ∈ sv_net S → pk_msg p = MtClient (CmProcess (PmQueryResponse q (GetBlob (Ok b)) id)) →
  ∃ origin requester, sv_asked S !! id = Some (blob_id b, origin) ∧ pk_dst p = DstEndUser origin ∧
    (b, requester) ∈ sv_written S ∧ may_store b requester = true.
Proof.
  intros He Hsteps Hp Hmsg. assert (service_inv S) as HS.
  { eapply (rtc_ind_r service_inv); [| |exact Hsteps]; [|intros; by eapply service_step_inv].
    split; cbn; [|done|by intros ? ?%elem_of_nil]. intros i o Ho. change (elder_ops e !! i = Some o) in Ho. by rewrite He in Ho. }
  pose proof (inv_net S HS p Hp) as Hok. unfold packet_ok in Hok. rewrite Hmsg in Hok.
  destruct Hok as [(requester & Hw & Hmay) (origin & Hasked & Hdst)]. eauto 10.
Qed.
End blob_service.

Module Witness.
Import ToyCrates ToySerde ToyRouting ToyElderData DataFlow.Witness.

(** Key 1 writes its blob 5, which goes to node 12 among others; user 6 reads it. *)
Definition r0 : Routing := BlobRecords.Witness.r0.
Definition blob5 : Blob := ChunkStore.Witness.blob 5%N.
Definition disk : Fs := mkFs ∅ ∅ [].
Definition empty_store : Result ChunkStore * Fs := chunks_new ["adult"] 100 disk.
Definition owner : ClientSigned := 1%N.
Definition holders5 : gset XorName := get_chunk_holder_adults r0 ∅ (nm 5).
Definition wr : Result NodeDuties * Metadata :=
  handle_process_write r0 (DataCmdBlob (BlobNew blob5)) (mid 2) owner (usr 7) elder.
Definition write_msg : NodeMsg := NmNodeCmd (NcChunks (BlobNew blob5) owner (usr 7)) (mid 2).
Definition store0 : Chunks :=
  match empty_store with (Ok st, fs) => (st, fs) | (Err _, fs) => (mkChunkStore [] (us_new 0) 0, fs) end.
Definition stored : Result NodeDuties * Chunks := handle_write_chunk (BlobNew blob5) (mid 2) owner (store0.1, store0.2).
Definition rd : Result NodeDuties * Metadata :=
  handle_process_read r0 (DataQueryBlob (BlobGet (baddr 5))) (mid 3) signer (usr 6) wr.2.
Definition read_msg : NodeMsg := NmNodeQuery (NqChunks (BlobGet (baddr 5)) (usr 6)) (mid 3).
Definition found : Result NodeDuties * Chunks := handle_read_chunk (BlobGet (baddr 5)) (mid 3) stored.2.
Definition answer_msg : NodeMsg := NmNodeQueryResponse (NqrGetChunk (Ok blob5)) (in_response_to (mid 3)) (mid 3).
Definition done_ : Result NodeDuties * Metadata :=
  handle_record_adult_read_liveness (GetBlob (Ok blob5)) (mid 3) (nm 12) rd.2.
Definition reply : packet :=
  mkPacket (SrcNode (nm 1)) (DstEndUser (usr 6)) (MtClient (CmProcess (PmQueryResponse (in_response_to (mid 3)) (GetBlob (Ok blob5)) (mid 3)))).

Lemma empty_opened : empty_store = (Ok store0.1, store0.2).
Proof. reflexivity. Qed.
Lemma holder12 : nm 12 ∈ holders5.
Proof. apply (bool_decide_unpack _). vm_compute. exact I. Qed.
Lemma wr_sends : wr.1 = Ok [SendToNodes write_msg holders5 AtDestination].
Proof. reflexivity. Qed.
Lemma rd_sends : rd.1 = Ok [SendToNodes read_msg holders5 AggNone].
Proof. reflexivity. Qed.
Lemma found_sends : found.1 = Ok [Send (mkOutgoingMsg (MtNode answer_msg) (DstSection (nm 5)) false AggNone)].
Proof. reflexivity. Qed.
Lemma done_sends : done_.1 = Ok [Send (build_client_query_response (GetBlob (Ok blob5)) (mid 3) (usr 6))].
Proof. reflexivity. Qed.

Lemma to_holder12 m agg : mkPacket (SrcNode (nm 1)) (DstNode (nm 12)) (MtNode m) ∈ posts (SrcNode (nm 1)) (Ok [SendToNodes m holders5 agg]).
Proof.
  cbn [posts]. apply list_elem_of_bind. exists (SendToNodes m holders5 agg). split; [|by left].
  apply (list_elem_of_fmap_2 (λ n, mkPacket (SrcNode (nm 1)) (DstNode n) (MtNode m)) _ (nm 12)).
  apply elem_of_elements. exact holder12.
Qed.

Lemma sv_run (e0 e1 e2 e3 : Metadata) (st : ChunkStore) (fs : Fs) (c1 c2 : Chunks) res :
  chunks_new ["adult"] 100 disk = (Ok st, fs) →
  handle_process_write r0 (DataCmdBlob (BlobNew blob5)) (mid 2) owner (usr 7) e0 =
    (Ok [SendToNodes write_msg holders5 AtDestination], e1) →
  handle_write_chunk (BlobNew blob5) (mid 2) owner (st, fs) = (res, c1) →
  handle_process_read r0 (DataQueryBlob (BlobGet (baddr 5))) (mid 3) signer (usr 6) e1 =
    (Ok [SendToNodes read_msg holders5 AggNone], e2) →
  handle_read_chunk (BlobGet (baddr 5)) (mid 3) c1 =
    (Ok [Send (mkOutgoingMsg (MtNode answer_msg) (DstSection (nm 5)) false AggNone)], c2) →
  handle_record_adult_read_liveness (GetBlob (Ok blob5)) (mid 3) (nm 12) e2 =
    (Ok [Send (build_client_query_response (GetBlob (Ok blob5)) (mid 3) (usr 6))], e3) →
  ∃ S, rtc (service_step (nm 1)) (mkService e0 ∅ [] ∅ []) S ∧ reply ∈ sv_net S.
Proof.
  intros Hnew Hwr Hst Hrd Hfound Hdone. eexists. split.
  { eapply rtc_l.
    { eapply (sv_join (nm 1) e0 ∅ [] ∅ [] (nm 12) ["adult"] 100 disk st fs);
        [reflexivity|split; vm_compute; discriminate|intros q _; apply lookup_empty|exact Hnew]. }
    eapply rtc_l; [exact (sv_write (nm 1) r0 e0 _ [] ∅ [] blob5 (mid 2) owner (usr 7) _ _ Hwr)|].
    eapply rtc_l.
    { eapply (sv_adult_gets (nm 1) _ _ _ _ _ (SrcNode (nm 1)) (nm 12) write_msg (st, fs)); [|apply lookup_insert_eq|reflexivity|exact Hst].
      apply elem_of_app. right. apply to_holder12. }
    eapply rtc_l; [eapply (sv_read (nm 1) r0 _ _ _ ∅ _ (baddr 5) (mid 3) signer (usr 6)); [left; apply lookup_empty|exact Hrd]|].
    eapply rtc_l.
    { eapply (sv_adult_gets (nm 1) _ _ _ _ _ (SrcNode (nm 1)) (nm 12) read_msg c1); [|apply lookup_insert_eq|reflexivity|exact Hfound].
      apply elem_of_app. right. apply to_holder12. }
    apply rtc_once.
    eapply (sv_answer (nm 1) _ _ _ _ _ (SrcNode (nm 12)) (DstSection (nm 5)) answer_msg (GetBlob (Ok blob5)) (mid 3) (nm 12));
      [|reflexivity|exact Hdone].
    apply elem_of_app. right. by left. }
  cbn [sv_net]. apply elem_of_app. right. by left.
Qed.

Lemma wr_runs :
  handle_process_write r0 (DataCmdBlob (BlobNew blob5)) (mid 2) owner (usr 7) elder =
    (Ok [SendToNodes write_msg holders5 AtDestination], wr.2).
Proof. rewrite <- wr_sends. unfold wr. apply surjective_pairing. Qed.
Lemma stored_runs : handle_write_chunk (BlobNew blob5) (mid 2) owner (store0.1, store0.2) = (stored.1, stored.2).
Proof. unfold stored. apply surjective_pairing. Qed.
Lemma rd_runs :
  handle_process_read r0 (DataQueryBlob (BlobGet (baddr 5))) (mid 3) signer (usr 6) wr.2 =
    (Ok [SendToNodes read_msg holders5 AggNone], rd.2).
Proof. rewrite <- rd_sends. unfold rd. apply surjective_pairing. Qed.
Lemma found_runs :
  handle_read_chunk (BlobGet (baddr 5)) (mid 3) stored.2 =
    (Ok [Send (mkOutgoingMsg (MtNode answer_msg) (DstSection (nm 5)) false AggNone)], found.2).
Proof. rewrite <- found_sends. unfold found. apply surjective_pairing. Qed.
Lemma done_runs :
  handle_record_adult_read_liveness (GetBlob (Ok blob5)) (mid 3) (nm 12) rd.2 =
    (Ok [Send (build_client_query_response (GetBlob (Ok blob5)) (mid 3) (usr 6))], done_.2).
Proof. rewrite <- done_sends. unfold done_. apply surjective_pairing. Qed.

Lemma blob_reads_are_genuine_witness :
  ∃ S, reply ∈ sv_net S ∧
    ∃ origin requester, sv_asked S !! mid 3 = Some (blob_id blob5, origin) ∧ pk_dst reply = DstEndUser origin ∧
      (blob5, requester) ∈ sv_written S ∧ may_store blob5 requester = true.
Proof.
  assert (∃ S, rtc (service_step (nm 1)) (mkService elder ∅ [] ∅ []) S ∧ reply ∈ sv_net S) as (S & Hrun & Hin).
  { eapply sv_run; [exact empty_opened|exact wr_runs|exact stored_runs|exact rd_runs|exact found_runs|exact done_runs]. }
  exists S. refine (conj Hin _).
  refine (blob_reads_are_genuine (nm 1) _ _ elder S reply (in_response_to (mid 3)) blob5 (mid 3) _ Hrun Hin _).
  - intros a. reflexivity.
  - intros b. reflexivity.
  - reflexivity.
  - reflexivity.
Defined.
End Witness.
