(* ===== verification/ChunkChurn.v ===== *)
(** Chunks when the adults of a section change.  Every adult that stays runs
    [reorganize_chunks] ([src/node/role/adult_role.rs]): it goes over its chunks,
    drops those it no longer holds, and at the end sends each chunk whose holders
    changed to its new holders, which take it in by [handle_replicate_chunk].

    The task of an adult takes the lock of its chunks once for the list of keys
    and again for each chunk, so the adults' turns and the chunks that arrive
    interleave ([churn_step]). *)

From S2P Require Import Prelude Crates Messages Disk Toy F64 UsedSpace ChunkStore Network Capacity Chunks.
From S2P Require Import AdultLiveness BlobRecords ElderData Metadata EventMapping DataFlow.

(** * The holders of a chunk *)

Section holders.
Context `{MO : MessagingOps} `{DO : !DataOpsCrate} `{XL : !XorNameLaws}.
Implicit Types (a : BlobAddress) (adults : gset XorName).

#[local] Instance distance_antisymm t : AntiSymm (=) (cle (cmp_distance t)).
Proof.
  intros x y. unfold cle. rewrite (cmp_distance_flip t x y). destruct (cmp_distance t x y) eqn:Heq; [|done|done].
  intros _ _. by eapply cmp_distance_eq.
Qed.

Lemma compute_holders_subset a adults : compute_holders a adults ⊆ adults.
Proof.
  intros x. unfold compute_holders. rewrite elem_of_list_to_set. intros Hx%subseteq_take.
  by rewrite elem_of_sort_by, elem_of_names_of in Hx.
Qed.

Lemma compute_holders_size a adults : size (compute_holders a adults) = (CHUNK_COPY_COUNT `min` size adults)%nat.
Proof.
  unfold compute_holders. rewrite size_list_to_set.
  - rewrite length_take, length_sort_by. f_equal. unfold names_of. by rewrite length_sort_by.
  - eapply sublist_NoDup; [|apply sublist_take]. rewrite NoDup_sort_by. apply NoDup_names_of.
Qed.

(** Adults that are not among the closest do not matter to who is. *)
Lemma compute_holders_within a adults some :
  some ⊆ adults → compute_holders a adults ⊆ some → compute_holders a some = compute_holders a adults.
Proof.
  intros Hsub Hin. unfold compute_holders in *. set (cmp := cmp_distance (blob_address_name a)) in *. f_equal.
  rewrite <- (take_filter_all (.∈ some) _ (sort_by cmp (names_of adults))).
  2:{ apply Forall_forall. intros x Hx. apply Hin. by rewrite elem_of_list_to_set. }
  f_equal. apply (StronglySorted_unique (cle cmp)).
  - apply sort_by_sorted. apply _.
  - apply StronglySorted_filter, sort_by_sorted. apply _.
  - rewrite !sort_by_Permutation. unfold names_of. rewrite !sort_by_Permutation. apply NoDup_Permutation.
    + apply NoDup_elements.
    + apply NoDup_filter, NoDup_elements.
    + intros x. rewrite list_elem_of_filter, !elem_of_elements. set_solver.
Qed.

(** A holder has fewer than four adults closer than itself. *)
Lemma holder_few_closer a adults k closer :
  k ∈ compute_holders a adults → closer ⊆ adults → k ∉ closer →
  (∀ j, j ∈ closer → cle (cmp_distance (blob_address_name a)) j k) → (size closer < CHUNK_COPY_COUNT)%nat.
Proof.
  intros Hk Hsub Hnot Hcloser. pose proof (compute_holders_size a adults) as Hsize.
  assert (closer ⊆ compute_holders a adults) as Hin.
  { intros j Hj. destruct (decide (j ∈ compute_holders a adults)) as [|Hjn]; [done|]. destruct Hnot.
    enough (j = k) as <- by done. apply (anti_symm (cle (cmp_distance (blob_address_name a)))); [by apply Hcloser|].
    unfold compute_holders in Hk, Hjn. rewrite elem_of_list_to_set in Hk, Hjn.
    refine (take_sorted_closest (cle (cmp_distance (blob_address_name a))) _ _ k j _ Hk _ Hjn).
    - apply sort_by_sorted. apply _.
    - rewrite elem_of_sort_by, elem_of_names_of. by apply Hsub. }
  assert (size ({[k]} ∪ closer) ≤ size (compute_holders a adults))%nat as Hle by (apply subseteq_size; set_solver).
  rewrite size_union, size_singleton in Hle by set_solver. lia.
Qed.

(** A change of the adults. *)
Context (new lost remaining : gset XorName).
Abbreviation New := (new_holders new remaining).
Abbreviation Old := (old_holders lost remaining).

(** An adult that does not send a chunk on is right: all its new holders have it. *)
Lemma not_republished k a :
  must_republish k new lost remaining a = false → k ∈ New a ∧ New a = Old a ∧ New a ⊆ remaining.
Proof.
  unfold must_republish, we_are_not_holder_anymore, new_adult_is_holder, lost_old_holder.
  rewrite !orb_false_iff, !negb_false_iff, !bool_decide_eq_true. intros [[Hk Hnew] Hlost]. split; [done|].
  assert (New a ⊆ remaining ∪ new) as Hn by apply compute_holders_subset.
  assert (Old a ⊆ remaining ∪ lost) as Ho by apply compute_holders_subset.
  assert (New a ⊆ remaining) as Hnr by set_solver. assert (Old a ⊆ remaining) as Hor by set_solver.
  split; [|done]. unfold new_holders, old_holders in *.
  rewrite <- (compute_holders_within a (remaining ∪ new) remaining) by (done || set_solver).
  by rewrite <- (compute_holders_within a (remaining ∪ lost) remaining) by (done || set_solver).
Qed.

(** Fewer lost adults than copies: some holder stays. *)
Lemma some_holder_stays a :
  (size lost < CHUNK_COPY_COUNT)%nat → remaining ≠ ∅ → remaining ## lost → ∃ k, k ∈ Old a ∧ k ∈ remaining.
Proof.
  intros Hlost [x Hx]%set_choose_L Hdisj. assert (Old a ⊆ remaining ∪ lost) as Ho by apply compute_holders_subset.
  destruct (decide (Old a ⊆ lost)) as [Hin|Hnot].
  - pose proof (compute_holders_size a (remaining ∪ lost)) as Hsize.
    pose proof (subseteq_size _ _ Hin) as Hle. unfold old_holders in Hle.
    assert (size (remaining ∪ lost) ≤ size lost)%nat as Hbig by lia.
    assert (size ({[x]} ∪ lost) ≤ size (remaining ∪ lost))%nat as Hx1 by (apply subseteq_size; set_solver).
    rewrite size_union, size_singleton in Hx1 by set_solver. lia.
  - assert (∃ k, k ∈ Old a ∖ lost) as [k Hk]; [|exists k; set_solver].
    apply set_choose_L. intros Hnone. apply Hnot. set_solver.
Qed.
End holders.

(** * The chunks of one adult *)

Section stock.
Context `{MO : MessagingOps} `{DO : !DataOpsCrate} `{SBA : !Serde BlobAddress} `{SB : !Serde Blob}.
Implicit Types (s : Chunks) (a : BlobAddress) (b : Blob) (X Y : gset Blob).

Definition blob_bytes b : Z := match ser b with Ok l => Z.of_nat (length l) | Err _ => 0 end.
Definition bytes X : Z := map_sum (λ b _, blob_bytes b) (gset_to_gmap tt X).

(** A sound store of the given capacity on a healthy disk, with the chunks [X]
    and no file of another kind. *)
Definition stocks (cap : Z) s X : Prop :=
  (∃ m, holds s m ∧ ∀ a b, m a = Some b ↔ b ∈ X ∧ blob_id b = a) ∧ no_stray (Id := BlobAddress) s ∧ capacity s = cap.

(** Chunks that can be written, one at an address. *)
Record proper (X : gset Blob) : Prop := mkProper {
  proper_addr : ∀ b, b ∈ X → addr_encodable (blob_id b);
  proper_ser : ∀ b, b ∈ X → is_ok (ser b) = true;
  proper_inj : ∀ b b', b ∈ X → b' ∈ X → blob_id b = blob_id b' → b = b';
}.

Context `{DL : !DataOpsLaws} `{EL : !EncodingLaws} `{SAL : !SerdeLaws BlobAddress} `{SBL : !SerdeLaws Blob}.

(** A change of one chunk file, or of the record, leaves no file of another kind. *)
Lemma no_stray_update s s' a p :
  file_path s.1 a = Ok p → same_store s s' → no_stray (Id := BlobAddress) s →
  (∀ q, q ≠ p → q ≠ record_path s → files s'.2 !! q = files s.2 !! q) → no_stray (Id := BlobAddress) s'.
Proof.
  intros Hp (Hd & _ & _) Hs Hother n Hn Hne. rewrite Hd in Hn. destruct (decide (join (cs_dir s.1) n = p)) as [<-|Hnp].
  - unfold file_path in Hp. destruct (ser a) as [bs|] eqn:Hser; [|done]. injection Hp as [_ Hbs]%join_inj. eauto.
  - apply Hs; [|done]. rewrite <- Hother; [done|done|]. by apply record_ne_chunk.
Qed.

Lemma delete_stocks cap s X a :
  stocks cap s X → addr_encodable a →
  ∃ s', delete a s = (Ok tt, s') ∧ no_stray (Id := BlobAddress) s' ∧ capacity s' = cap.
Proof.
  intros ((m & [Hi Hf Hr] & Hm) & Hs & Hc) Ha. destruct (encodable_path s.1 a Ha) as [p Hp].
  destruct (delete_none s a p Hi Hf Hp) as (s' & Hdel & _ & _ & Hsame & _ & Hother). exists s'. split; [done|].
  split; [by eapply no_stray_update|]. destruct Hsame as (_ & _ & ->). done.
Qed.

(** The bytes on disk are those of the chunks. *)
Lemma stocks_bytes cap s X Y b :
  stocks cap s X → b ∉ X → {[b]} ∪ X ⊆ Y → chunk_bytes (cs_dir s.1) s.2 + blob_bytes b ≤ bytes Y.
Proof.
  intros ((m & [Hi Hf Hr] & Hm) & Hs & _) Hb HY. unfold bytes.
  assert (∀ b' : Blob, 0 ≤ blob_bytes b') as Hpos by (intros b'; unfold blob_bytes; destruct (ser b'); lia).
  rewrite (map_sum_delete _ _ b tt) by (apply lookup_gset_to_gmap_Some; set_solver).
  cut (chunk_bytes (cs_dir s.1) s.2 ≤ map_sum (λ b' _, blob_bytes b') (base.delete b (gset_to_gmap tt Y))); [lia|].
  apply (map_sum_embed _ _ (λ p b', file_path s.1 (blob_id b') = Ok p)); [congruence|done|].
  intros p c Hp. unfold chunk_weight. destruct (child_name (cs_dir s.1) p) as [n|] eqn:Hn; [|by left].
  apply child_name_Some in Hn as ->. case_decide as Hne; [by left|right].
  destruct (Hs n) as (a & bs & Ha & ->); [eauto|done|].
  assert (file_path s.1 a = Ok (join (cs_dir s.1) (hex_encode bs))) as Hpath by (unfold file_path; by rewrite Ha).
  pose proof (Hr a _ Hpath) as Hra. destruct (m a) as [b'|] eqn:Hma; [|congruence].
  destruct Hra as (_ & bs' & Hser & Hfile). rewrite Hp in Hfile. injection Hfile as <-. apply Hm in Hma as [Hb' Hid].
  exists b', tt. split; [by rewrite Hid|]. split; [|unfold blob_bytes; by rewrite Hser].
  apply lookup_delete_Some. split; [by intros ->|]. apply lookup_gset_to_gmap_Some. set_solver.
Qed.

(** A chunk that arrives is stored, when there is room. *)
Lemma replicate_stocks cap s X Y b :
  stocks cap s X → {[b]} ∪ X ⊆ Y → proper Y → bytes Y ≤ cap →
  ∃ s', handle_replicate_chunk b s = (Ok [NoOp], s') ∧ stocks cap s' ({[b]} ∪ X).
Proof.
  intros Hst HY HP Hroom. pose proof Hst as ((m & Hh & Hm) & Hs & Hc).
  assert (b ∈ Y) as HbY by set_solver. pose proof (proper_addr Y HP b HbY) as Ha. pose proof (proper_ser Y HP b HbY) as Hser.
  unfold handle_replicate_chunk, chunks_store_for_replication, storage_store_for_replication. unfold bind, ret.
  rewrite blob_address_id, (has_holds s m _ Hh Ha). destruct (m (blob_id b)) as [b'|] eqn:Hmb.
  - exists s. split; [done|]. assert (b' = b) as ->.
    { apply Hm in Hmb as [Hb' Hid]. apply (proper_inj Y HP); set_solver. }
    apply Hm in Hmb as [Hb _]. replace ({[b]} ∪ X) with X by set_solver. done.
  - cbn [bool_decide]. change (bool_decide (is_Some (None : option Blob))) with false. cbn iota.
    assert (b ∉ X) as Hb. { intros Hb. assert (m (blob_id b) = Some b) by (by apply Hm). congruence. }
    destruct (ser b) as [bs|] eqn:Hbs; [|done]. destruct (encodable_path s.1 _ Ha) as [p Hp].
    pose proof (Hh.(holds_rep _ _) (blob_id b) p Hp) as Hnone. rewrite Hmb in Hnone.
    destruct (put_none s b bs p (holds_inv _ _ Hh) (holds_faults _ _ Hh) Hbs Hp)
      as (r & s' & Hput & Hi' & Hf' & Hsame & Hother & Hres).
    pose proof (stocks_bytes cap s X Y b Hst Hb HY) as Hbytes. unfold blob_bytes in Hbytes. rewrite Hbs in Hbytes.
    rewrite bool_decide_true in Hres by (unfold size_at; rewrite Hnone; lia). destruct Hres as [-> Hfile].
    assert (put b s = (Ok tt, s')) as -> by exact Hput. exists s'. split; [done|]. split; [|split].
    + exists (kv_set (blob_id b) (Some b) m). split.
      * split; [done|done|]. eapply represents_update; [apply Hh|done|exact Hp|done|]. eauto.
      * intros a b'. unfold kv_set. rewrite elem_of_union, elem_of_singleton. case_decide as Hd.
        -- subst a. split; [intros [= <-]; auto|]. intros [[->|Hb'] Hid]; [done|].
           assert (m (blob_id b) = Some b') as Hm' by (by apply Hm). congruence.
        -- rewrite Hm. split; [naive_solver|]. intros [[->|Hb'] Hid]; [done|auto].
    + by eapply no_stray_update.
    + destruct Hsame as (_ & _ & ->). done.
Qed.
End stock.

(** * A change of the adults *)

Section churn.
Context `{MO : MessagingOps} `{DO : !DataOpsCrate} `{SBA : !Serde BlobAddress} `{SB : !Serde Blob}.
Context (new lost remaining : gset XorName).
Abbreviation New := (λ b, new_holders new remaining (blob_id b)).
Abbreviation Old := (λ b, old_holders lost remaining (blob_id b)).

(** How far an adult is with [reorganize_chunks]: the keys it has still to look
    at and what it will send. *)
Inductive task : Type :=
| Waiting
| Moving (rest : list BlobAddress) (data : gmap Blob (gset XorName))
| Moved.

(** The adults, all the messages that were sent with whom they are for, and
    which of them arrived. *)
Record churn : Type := mkChurn {
  members : gmap XorName (Chunks * task);
  pool : list (XorName * NodeMsg);
  got : gset nat;
}.

(** What a duty sends. *)
Definition messages (d : NodeDuty) : list (XorName * NodeMsg) :=
  match d with SendToNodes msg targets _ => (λ t, (t, msg)) <$> names_of targets | _ => [] end.

Inductive churn_step : churn → churn → Prop :=
| step_begin c k s l s' :
    members c !! k = Some (s, Waiting) → chunks_keys s = (Ok l, s') →
    churn_step c (mkChurn (<[k := (s', Moving l ∅)]> (members c)) (pool c) (got c))
| step_turn c k s a rest data data' s' :
    members c !! k = Some (s, Moving (a :: rest) data) →
    reorganize_step k new lost remaining data a s = (Ok data', s') →
    churn_step c (mkChurn (<[k := (s', Moving rest data')]> (members c)) (pool c) (got c))
| step_end c k s data fresh :
    members c !! k = Some (s, Moving [] data) →
    churn_step c (mkChurn (<[k := (s, Moved)]> (members c))
                    (pool c ++ (replication_duties fresh data ≫= messages)) (got c))
| step_take c i k msg s t src b id :
    pool c !! i = Some (k, msg) → members c !! k = Some (s, t) →
    op (map_node_msg msg src (DstNode k)) = ReplicateChunk b id →
    churn_step c (mkChurn (<[k := ((handle_replicate_chunk b s).2, t)]> (members c)) (pool c) ({[i]} ∪ got c)).

Definition churn_init (stores : gmap XorName Chunks) : churn := mkChurn ((λ s, (s, Waiting)) <$> stores) [] ∅.

(** All is done: the adults that stayed have gone over their chunks and every
    message has arrived. *)
Definition settled (c : churn) : Prop :=
  (∀ k s t, members c !! k = Some (s, t) → t = Moved ∨ t = Waiting ∧ k ∈ new) ∧
  (∀ i, (i < length (pool c))%nat → i ∈ got c).

(** Run without interruption, the steps of an adult are [reorganize_chunks]. *)
Lemma turns_steps c k rest data s data' s' :
  members c !! k = Some (s, Moving rest data) →
  fold_m (reorganize_step k new lost remaining) rest data s = (Ok data', s') →
  rtc churn_step c (mkChurn (<[k := (s', Moving [] data')]> (members c)) (pool c) (got c)).
Proof.
  revert c data s. induction rest as [|a rest IH]; intros c data s Hk; cbn [fold_m].
  - intros [= <- <-]. rewrite insert_id by done. by destruct c.
  - unfold bind. destruct (reorganize_step _ _ _ _ data a s) as [[d1|] s1] eqn:Hturn; [|done]. intros Hrest.
    eapply rtc_l; [by eapply step_turn|].
    specialize (IH (mkChurn (<[k := (s1, Moving rest d1)]> (members c)) (pool c) (got c)) d1 s1). cbn [members pool got] in IH.
    rewrite insert_insert_eq in IH. apply IH; [apply lookup_insert_eq|done].
Qed.

Lemma reorganize_chunks_steps c k s fresh duties s' :
  members c !! k = Some (s, Waiting) → reorganize_chunks k new lost remaining fresh s = (Ok duties, s') →
  rtc churn_step c (mkChurn (<[k := (s', Moved)]> (members c)) (pool c ++ (duties ≫= messages)) (got c)).
Proof.
  intros Hk. unfold reorganize_chunks, bind, ret. destruct (chunks_keys s) as [[l|] s1] eqn:Hkeys; [|done].
  destruct (fold_m _ l ∅ s1) as [[data|] s2] eqn:Hfold; [|done]. intros [= <- <-].
  eapply rtc_l; [by eapply step_begin|]. etransitivity; [eapply turns_steps; [apply lookup_insert_eq|done]|].
  cbn [members pool got]. rewrite insert_insert_eq. apply rtc_once.
  epose proof (step_end (mkChurn (<[k := (s2, Moving [] data)]> (members c)) (pool c) (got c)) k s2 data fresh
    (lookup_insert_eq _ _ _)) as Hend.
  cbn [members pool got] in Hend. by rewrite insert_insert_eq in Hend.
Qed.

(** * The invariant *)

(** The chunks of the section. *)
Context (content : gset Blob).

Definition replicate_msg (b : Blob) (id : MessageId) : NodeMsg := NmNodeCmd (NcSystem (ReplicateChunkCmd b)) id.

(** Chunk [b] was sent to adult [k]. *)
Definition sent_to (c : churn) (k : XorName) (b : Blob) : Prop := ∃ i id, pool c !! i = Some (k, replicate_msg b id).

(** A chunk that adult [k], which had it, is done with: it went where it had to,
    and [k] still has it if it is to hold it. *)
Definition done_with (k : XorName) (X : gset Blob) (b : Blob) (gone : Prop) : Prop :=
  (must_republish k new lost remaining (blob_id b) = true → gone) ∧ (k ∈ New b → b ∈ X).

(** What is known of adult [k] with the chunks [X]. *)
Definition adult_ok (c : churn) (k : XorName) (X : gset Blob) (t : task) : Prop :=
  (∀ b, b ∈ X → b ∈ content ∧ (k ∈ Old b ∨ k ∈ New b)) ∧
  match t with
  | Waiting => ∀ b, b ∈ content → k ∈ Old b → b ∈ X
  | Moving rest data =>
      NoDup rest ∧ (∀ a, a ∈ rest → ∃ b, b ∈ content ∧ blob_id b = a) ∧
      (∀ b h, data !! b = Some h → b ∈ content ∧ h = New b) ∧
      (∀ b, b ∈ X → k ∉ New b → blob_id b ∈ rest) ∧
      (∀ b, b ∈ content → k ∈ Old b →
         if decide (blob_id b ∈ rest) then b ∈ X else done_with k X b (data !! b = Some (New b)))
  | Moved =>
      (∀ b, b ∈ X → k ∈ New b) ∧
      (∀ b, b ∈ content → k ∈ Old b → done_with k X b (∀ t, t ∈ New b → sent_to c t b))
  end.

Record churn_inv (cap : XorName → Z) (c : churn) (D : gmap XorName (gset Blob)) : Prop := mkChurnInv {
  inv_members : dom (members c) = remaining ∪ new;
  inv_adult : ∀ k s t, members c !! k = Some (s, t) → ∃ X, D !! k = Some X ∧ stocks (cap k) s X ∧ adult_ok c k X t;
  inv_pool : ∀ i k msg, pool c !! i = Some (k, msg) → ∃ b id, msg = replicate_msg b id ∧ b ∈ content ∧ k ∈ New b;
  inv_arrived : ∀ i, i ∈ got c → (i < length (pool c))%nat;
  inv_got : ∀ i k b id, i ∈ got c → pool c !! i = Some (k, replicate_msg b id) → ∃ X, D !! k = Some X ∧ b ∈ X;
}.

(** The messages at the end of a task. *)
Lemma elem_of_messages fresh data k msg :
  (k, msg) ∈ (replication_duties fresh data ≫= messages) ↔
  ∃ b id h, msg = replicate_msg b id ∧ data !! b = Some h ∧ k ∈ h ∧
            SendToNodes (replicate_msg b id) h AggNone ∈ replication_duties fresh data.
Proof.
  rewrite list_elem_of_bind. split.
  - intros (d & Hmsg & Hd). pose proof Hd as (i & Hi)%list_elem_of_lookup.
    unfold replication_duties in Hi. rewrite list_lookup_imap in Hi. apply fmap_Some in Hi as ([b h] & Hi & ->).
    cbn in Hmsg. apply list_elem_of_fmap in Hmsg as (k' & [= -> ->] & Hk%elem_of_names_of).
    apply list_elem_of_lookup_2, elem_of_btree_entries in Hi. by exists b, (fresh i), h.
  - intros (b & id & h & -> & Hb & Hk & Hd). eexists. split; [|exact Hd].
    cbn. apply list_elem_of_fmap. exists k. split; [done|]. by apply elem_of_names_of.
Qed.

Context `{XL : !XorNameLaws} `{DL : !DataOpsLaws} `{EL : !EncodingLaws} `{SAL : !SerdeLaws BlobAddress} `{SBL : !SerdeLaws Blob}.

(** * The steps of an adult on its chunks *)

Lemma keys_stocks cap s X :
  stocks cap s X → (∀ b, b ∈ X → addr_encodable (blob_id b)) →
  ∃ l, chunks_keys s = (Ok l, s) ∧ NoDup l ∧ ∀ a, a ∈ l ↔ ∃ b, b ∈ X ∧ blob_id b = a.
Proof.
  intros ((m & [Hi Hf Hr] & Hm) & Hs & _) Henc.
  destruct (keys_none s m Hi Hf Hr Hs) as (l & Hkeys & Hnd & Hl).
  - intros a [b [Hb <-]%Hm]. by apply Henc.
  - exists l. split; [done|]. split; [done|]. intros a. rewrite Hl. split.
    + intros [b Hb]. exists b. by apply Hm.
    + intros [b Hb]. exists b. by apply Hm.
Qed.

(** The store after a turn is the one before, or without the chunk. *)
Lemma turn_state k data a s m :
  holds s m → addr_encodable a →
  (reorganize_step k new lost remaining data a s).2 = s ∨
  (reorganize_step k new lost remaining data a s).2 = (delete a s).2.
Proof.
  intros Hs Ha. unfold reorganize_step, republish_and_cache, chunks_get_chunk, storage_get_chunk, remove_chunk, delete_chunk.
  unfold bind, try, ret. destruct (must_republish _ _ _ _ a); [|by left]. rewrite (get_holds s m a Hs Ha).
  destruct (m a); [|by left]. destruct (we_are_not_holder_anymore _ _ _ a); [|by left]. right.
  by destruct (delete a s).
Qed.

Lemma turn_stocks k cap s X data a :
  stocks cap s X → addr_encodable a →
  ∃ data' s', reorganize_step k new lost remaining data a s = (Ok data', s') ∧
    stocks cap s' (filter (λ b, k ∈ New b ∨ blob_id b ≠ a) X) ∧
    (∀ b, blob_id b ≠ a → data' !! b = data !! b) ∧
    (∀ b h, data' !! b = Some h → data !! b = Some h ∨ b ∈ X ∧ h = New b) ∧
    (∀ b, b ∈ X → blob_id b = a → must_republish k new lost remaining a = true → data' !! b = Some (New b)).
Proof.
  intros Hst Ha. pose proof Hst as ((m & Hs & Hm) & Hstray & Hcap).
  destruct (reorganize_step_holds k new lost remaining s m data a Hs Ha) as (s' & Hstep & Hs').
  pose proof (turn_state k data a s m Hs Ha) as Hstate. rewrite Hstep in Hstate. cbn [snd] in Hstate.
  eexists _, s'. split; [exact Hstep|]. split; [split; [|]|].
  - eexists. split; [exact Hs'|]. intros a' b. rewrite elem_of_filter. unfold we_are_not_holder_anymore.
    destruct (decide (k ∈ new_holders new remaining a)) as [Hk|Hk].
    + rewrite bool_decide_true by done. cbn [negb]. rewrite Hm.
      split; [intros [Hb <-]|intros [[_ Hb] Hid]; done]. split; [|done]. split; [|done].
      destruct (decide (blob_id b = a)) as [->|]; [by left|by right].
    + rewrite bool_decide_false by done. cbn [negb]. unfold kv_set. case_decide as Heq.
      * subst a'. split; [done|]. intros [[[Hk'|Hne] _] Hid]; [|done]. by rewrite Hid in Hk'.
      * rewrite Hm. split; [|tauto]. intros [Hb <-]. auto.
  - destruct (delete_stocks cap s X a Hst Ha) as (s2 & Hdel & Hstray2 & Hcap2). rewrite Hdel in Hstate.
    destruct Hstate as [->| ->]; done.
  - destruct (m a) as [b0|] eqn:Hma.
    + apply Hm in Hma as [Hb0 Hid0]. destruct (must_republish k new lost remaining a) eqn:Hmust.
      * split; [|split].
        -- intros b Hne. apply lookup_insert_ne. by intros ->.
        -- intros b h. rewrite lookup_insert. case_decide as Heq; [|by left]. intros [= <-]. subst. by right.
        -- intros b Hb Hid _. assert (m a = Some b) as Hma by by apply Hm.
           assert (m a = Some b0) by by apply Hm. simplify_eq. by rewrite lookup_insert_eq.
      * split; [done|]. split; [by left|]. intros b Hb Hid. done.
    + split; [done|]. split; [by left|]. intros b Hb Hid _. assert (m a = Some b) by by apply Hm. congruence.
Qed.

(** * The invariant holds *)

(** The chunks that adult [k] has before or after. *)
Definition share (k : XorName) : gset Blob := filter (λ b, k ∈ Old b ∨ k ∈ New b) content.

Context (cap : XorName → Z) (Hproper : proper content).
Context (Hroom : ∀ k, k ∈ remaining ∪ new → bytes (share k) ≤ cap k).

Lemma adult_ok_mono c c' k X t :
  (∀ k b, sent_to c k b → sent_to c' k b) → adult_ok c k X t → adult_ok c' k X t.
Proof.
  intros Hmono [Hshare Ht]. split; [done|]. destruct t; [done|done|]. destruct Ht as [Hnew Hdone]. split; [done|].
  intros b Hb Hold. destruct (Hdone b Hb Hold) as [Hsent Hkeep]. split; [|done]. eauto.
Qed.

Lemma sent_to_app c c' ext k b : pool c' = pool c ++ ext → sent_to c k b → sent_to c' k b.
Proof. intros Hp (i & id & Hi). exists i, id. rewrite Hp. by apply lookup_app_l_Some. Qed.

(** An adult changes, and may have sent something; no chunk that it is to hold
    is dropped. *)
Lemma churn_inv_update c D k s t X s' t' X' ext got' :
  let c' := mkChurn (<[k := (s', t')]> (members c)) (pool c ++ ext) got' in
  churn_inv cap c D → members c !! k = Some (s, t) → D !! k = Some X →
  stocks (cap k) s' X' → adult_ok c' k X' t' → (∀ b, b ∈ X → k ∈ New b → b ∈ X') →
  (∀ j msg, (j, msg) ∈ ext → ∃ b id, msg = replicate_msg b id ∧ b ∈ content ∧ j ∈ New b) →
  (∀ i, i ∈ got' → i ∈ got c ∨ ∃ b id, pool c !! i = Some (k, replicate_msg b id) ∧ b ∈ X') →
  churn_inv cap c' (<[k := X']> D).
Proof.
  intros c' [Hdom Hadult Hpool Harr Hgot] Hk HX Hst Hok Hkeep Hext Hgot'. split; cbn [members pool got c'].
  - rewrite dom_insert_L, <- Hdom. apply elem_of_dom_2 in Hk. set_solver.
  - intros j sj tj. rewrite !lookup_insert. case_decide as Hj; [intros [= <- <-]; subst; eauto|].
    intros (Y & HY & Hsj & Hokj)%Hadult. exists Y. split; [done|]. split; [done|].
    eapply adult_ok_mono; [|exact Hokj]. intros k' b. by eapply sent_to_app.
  - intros i j msg [Hi|[_ Hi]]%lookup_app_Some; [by eapply Hpool|]. eapply Hext, list_elem_of_lookup_2, Hi.
  - intros i Hi. rewrite length_app. destruct (Hgot' i Hi) as [Hi'|(b & id & Hp & _)]; [apply Harr in Hi'; lia|].
    apply lookup_lt_Some in Hp. lia.
  - intros i j b id Hi Hp. destruct (Hgot' i Hi) as [Hold|(b' & id' & Hp' & Hb')].
    + rewrite lookup_app_l in Hp by auto. destruct (Hgot i j b id Hold Hp) as (Y & HY & Hb).
      rewrite lookup_insert. case_decide as Hj; [|eauto]. subst j. exists X'. split; [done|]. simplify_eq. apply Hkeep; [done|].
      destruct (Hpool i k _ Hp) as (b1 & id1 & [= <- <-] & _ & Hnew). done.
    + rewrite (lookup_app_l_Some _ _ _ _ Hp') in Hp. simplify_eq. exists X'. by rewrite lookup_insert_eq.
Qed.

(** A turn of the loop. *)
Lemma adult_turn_ok c c' k X a rest data data' :
  adult_ok c k X (Moving (a :: rest) data) →
  (∀ b, blob_id b ≠ a → data' !! b = data !! b) →
  (∀ b h, data' !! b = Some h → data !! b = Some h ∨ b ∈ X ∧ h = New b) →
  (∀ b, b ∈ X → blob_id b = a → must_republish k new lost remaining a = true → data' !! b = Some (New b)) →
  adult_ok c' k (filter (λ b, k ∈ New b ∨ blob_id b ≠ a) X) (Moving rest data').
Proof.
  intros [Hshare (Hnd & Haddr & Hdata & Hleave & Hdone)] Hother Hnewdata Hadded.
  apply NoDup_cons in Hnd as [Ha Hnd]. split; [intros b [_ Hb]%elem_of_filter; by apply Hshare|].
  split; [done|]. split; [intros a' Ha'; apply Haddr; by right|]. split; [|split].
  - intros b h Hb. destruct (Hnewdata b h Hb) as [?|[HbX ->]]; [by apply Hdata|]. split; [by apply Hshare|done].
  - intros b [Hor Hb]%elem_of_filter Hk. destruct Hor as [?|Hne]; [done|].
    apply Hleave in Hb; [|done]. by apply elem_of_cons in Hb as [?|?].
  - intros b Hb Hold. specialize (Hdone b Hb Hold). destruct (decide (blob_id b = a)) as [Hid|Hne].
    + rewrite decide_False by (by rewrite Hid). rewrite decide_True in Hdone by (rewrite Hid; by left).
      split; [intros Hmust; rewrite Hid in Hmust; by apply Hadded|]. intros Hk. apply elem_of_filter. auto.
    + destruct (decide (blob_id b ∈ rest)) as [Hin|Hout].
      * rewrite decide_True in Hdone by (by right). apply elem_of_filter. auto.
      * rewrite decide_False in Hdone by (by intros [?|?]%elem_of_cons). destruct Hdone as [Hsent Hkeep].
        split; [by rewrite Hother|]. intros Hk. apply elem_of_filter. auto.
Qed.

(** A chunk arrives. *)
Lemma adult_take_ok c c' k X t b :
  pool c' = pool c → adult_ok c k X t → b ∈ content → k ∈ New b → adult_ok c' k ({[b]} ∪ X) t.
Proof.
  intros Hp [Hshare Ht] Hb Hk.
  assert (∀ k b, sent_to c k b → sent_to c' k b) as Hmono by (intros k' b' (i & id & Hi); exists i, id; by rewrite Hp).
  split; [intros b'; rewrite elem_of_union, elem_of_singleton; intros [->|Hb']; auto|]. destruct t as [|rest data|].
  - intros b' Hb' Hold. apply elem_of_union_r. by apply Ht.
  - destruct Ht as (Hnd & Haddr & Hdata & Hleave & Hdone). split; [done|]. split; [done|]. split; [done|]. split.
    + intros b'. rewrite elem_of_union, elem_of_singleton. intros [->|Hb']; [done|by apply Hleave].
    + intros b' Hb' Hold. specialize (Hdone b' Hb' Hold). case_decide; [by apply elem_of_union_r|].
      destruct Hdone as [Hsent Hkeep]. split; [done|]. intros Hn. by apply elem_of_union_r, Hkeep.
  - destruct Ht as [Hnew Hdone]. split.
    + intros b'. rewrite elem_of_union, elem_of_singleton. intros [->|Hb']; [done|by apply Hnew].
    + intros b' Hb' Hold. destruct (Hdone b' Hb' Hold) as [Hsent Hkeep]. split; [eauto|].
      intros Hn. by apply elem_of_union_r, Hkeep.
Qed.

(** The list of keys is read. *)
Lemma adult_begin_ok c c' k X l :
  adult_ok c k X Waiting → NoDup l → (∀ a, a ∈ l ↔ ∃ b, b ∈ X ∧ blob_id b = a) → adult_ok c' k X (Moving l ∅).
Proof.
  intros [Hshare Hall] Hnd Hl. split; [done|]. split; [done|]. split; [|split; [done|split]].
  - intros a (b & Hb & <-)%Hl. exists b. split; [by apply Hshare|done].
  - intros b Hb _. apply Hl. eauto.
  - intros b Hb Hold. assert (b ∈ X) by by apply Hall. rewrite decide_True; [done|]. apply Hl. eauto.
Qed.

(** The messages are sent. *)
Lemma adult_end_ok c c' k X data fresh :
  adult_ok c k X (Moving [] data) → pool c' = pool c ++ (replication_duties fresh data ≫= messages) → adult_ok c' k X Moved.
Proof.
  intros [Hshare (_ & _ & _ & Hleave & Hdone)] Hp. split; [done|]. split.
  - intros b Hb. destruct (decide (k ∈ New b)) as [|Hk]; [done|]. by apply Hleave, elem_of_nil in Hb.
  - intros b Hb Hold. specialize (Hdone b Hb Hold). rewrite decide_False in Hdone by apply not_elem_of_nil.
    destruct Hdone as [Hsent Hkeep]. split; [|done]. intros Hdata%Hsent j Hj.
    pose proof (proj2 (elem_of_replication_duties fresh data b _) Hdata) as (id & Hid).
    assert ((j, replicate_msg b id) ∈ replication_duties fresh data ≫= messages) as [i Hi]%list_elem_of_lookup.
    { apply elem_of_messages. exists b, id, (New b). done. }
    exists (length (pool c) + i)%nat, id. by rewrite Hp, lookup_app_r, Nat.add_sub' by lia.
Qed.

Lemma share_room c D k s t X b :
  churn_inv cap c D → members c !! k = Some (s, t) → adult_ok c k X t → b ∈ content → k ∈ New b →
  {[b]} ∪ X ⊆ share k ∧ proper (share k) ∧ bytes (share k) ≤ cap k.
Proof.
  intros HI Hk [Hshare _] Hb Hnew. unfold share. split; [|split].
  - intros b'. rewrite elem_of_union, elem_of_singleton, elem_of_filter. intros [->|Hb']; [auto|].
    destruct (Hshare b' Hb'). auto.
  - destruct Hproper as [H1 H2 H3]. split; intros ?; rewrite ?elem_of_filter; intros; rewrite ?elem_of_filter in *; naive_solver.
  - apply Hroom. rewrite <- (inv_members _ _ _ HI). by apply elem_of_dom_2 in Hk.
Qed.

Lemma churn_step_inv c c' D : churn_inv cap c D → churn_step c c' → ∃ D', churn_inv cap c' D'.
Proof.
  intros HI Hstep. destruct Hstep as [c k s l s' Hk Hkeys|c k s a rest data data' s' Hk Hturn|c k s data fresh Hk
    |c i k msg s t src b id Hi Hk Hop]; destruct (inv_adult _ _ _ HI _ _ _ Hk) as (X & HX & Hst & Hok).
  - destruct (keys_stocks _ s X Hst) as (l' & Hkeys' & Hnd & Hl).
    { intros b Hb. apply (proper_addr _ Hproper). by apply Hok. }
    rewrite Hkeys in Hkeys'. injection Hkeys' as -> ->. eexists. rewrite <- (app_nil_r (pool c)).
    eapply churn_inv_update; [done|done|done|exact Hst|by eapply adult_begin_ok|done|by intros ? ? ?%elem_of_nil|by left].
  - assert (∃ b, b ∈ content ∧ blob_id b = a) as (b & Hb & Ha).
    { destruct Hok as [_ (_ & Haddr & _)]. apply Haddr. by left. }
    destruct (turn_stocks k _ s X data a Hst) as (d' & s1 & Hturn' & Hst' & H1 & H2 & H3).
    { rewrite <- Ha. by apply (proper_addr _ Hproper). }
    rewrite Hturn in Hturn'. injection Hturn' as <- <-. eexists. rewrite <- (app_nil_r (pool c)).
    eapply churn_inv_update; [done|done|done|exact Hst'|by eapply adult_turn_ok| |by intros ? ? ?%elem_of_nil|by left].
    intros b' Hb' Hnew. apply elem_of_filter. auto.
  - eexists. eapply churn_inv_update; [done|done|done|exact Hst|by eapply adult_end_ok|done| |by left].
    intros j msg (b & id & h & -> & Hdata & Hj & _)%elem_of_messages. destruct Hok as [_ (_ & _ & Hsound & _)].
    destruct (Hsound b h Hdata) as [Hb ->]. by exists b, id.
  - destruct (inv_pool _ _ _ HI _ _ _ Hi) as (b' & id' & -> & Hb & Hnew). cbn in Hop. injection Hop as -> ->.
    destruct (share_room c D k s t X b HI Hk Hok Hb Hnew) as (Hsub & Hprop & Hbytes).
    destruct (replicate_stocks _ s X _ b Hst Hsub Hprop Hbytes) as (s1 & Htake & Hst'). rewrite Htake. cbn [snd].
    eexists. rewrite <- (app_nil_r (pool c)).
    eapply churn_inv_update; [done|done|done|exact Hst'|by eapply adult_take_ok; [|exact Hok|..]; [cbn; by rewrite app_nil_r|..]
      |set_solver|by intros ? ? ?%elem_of_nil|].
    intros j. rewrite elem_of_union, elem_of_singleton. intros [->|Hj]; [right|by left]. exists b, id. split; [done|set_solver].
Qed.

Lemma churn_reachable_inv c c' D : churn_inv cap c D → rtc churn_step c c' → ∃ D', churn_inv cap c' D'.
Proof.
  intros HI Hrun. revert D HI. induction Hrun as [|c1 c2 c3 Hstep _ IH]; intros D HI; [eauto|].
  destruct (churn_step_inv _ _ _ HI Hstep) as [D' HI']. eauto.
Qed.

(** * Every chunk has its holders in the end *)

(** Where a chunk may be while the adults change: at an adult, in what an adult
    is about to send, or on its way. *)
Definition not_lost (c : churn) (b : Blob) : Prop :=
  (∃ k s t, members c !! k = Some (s, t) ∧ (chunks_get_chunk (blob_id b) s).1 = Ok b) ∨
  (∃ k s rest data, members c !! k = Some (s, Moving rest data) ∧ is_Some (data !! b)) ∨
  (∃ i k id, pool c !! i = Some (k, replicate_msg b id) ∧ i ∉ got c).

(** Adult [k] has exactly the chunks that it is a holder of. *)
Definition placed (adults : gset XorName) (k : XorName) (s : Chunks) : Prop :=
  stocks (capacity s) s (filter (λ b, k ∈ compute_holders (blob_id b) adults) content).

Context (Hnew : new ## remaining ∪ lost) (Hlost : remaining ## lost) (Hstay : remaining ≠ ∅)
        (Hfew : (size lost < CHUNK_COPY_COUNT)%nat).

Lemma stocks_get n s X b : stocks n s X → b ∈ X → b ∈ content → (chunks_get_chunk (blob_id b) s).1 = Ok b.
Proof.
  intros ((m & Hs & Hm) & _) Hb Hc. unfold chunks_get_chunk, storage_get_chunk.
  rewrite (get_holds s m (blob_id b) Hs) by by apply (proper_addr _ Hproper).
  assert (m (blob_id b) = Some b) as -> by by apply Hm. done.
Qed.

(** A holder that stayed, and how far it is. *)
Lemma survivor c D b :
  churn_inv cap c D → b ∈ content →
  ∃ k s t X, k ∈ Old b ∧ k ∈ remaining ∧ members c !! k = Some (s, t) ∧ D !! k = Some X ∧ stocks (cap k) s X ∧ adult_ok c k X t.
Proof.
  intros HI Hb. destruct (some_holder_stays lost remaining (blob_id b) Hfew Hstay Hlost) as (k & Hold & Hrem).
  assert (is_Some (members c !! k)) as [[s t] Hk] by (apply elem_of_dom; rewrite (inv_members _ _ _ HI); set_solver).
  destruct (inv_adult _ _ _ HI _ _ _ Hk) as (X & HX & Hst & Hok). by exists k, s, t, X.
Qed.

Lemma inv_not_lost c D b : churn_inv cap c D → b ∈ content → not_lost c b.
Proof.
  intros HI Hb. destruct (survivor c D b HI Hb) as (k & s & t & X & Hold & Hrem & Hk & HX & Hst & Hok).
  assert (b ∈ X → not_lost c b) as Hhas by (intros HbX; left; exists k, s, t; split; [done|by eapply stocks_get]).
  destruct Hok as [_ Ht]. destruct t as [|rest data|]; [by apply Hhas, Ht|..].
  - destruct Ht as (_ & _ & _ & _ & Hdone). specialize (Hdone b Hb Hold). case_decide; [by apply Hhas|].
    destruct Hdone as [Hdata Hkeep]. destruct (must_republish _ _ _ _ _) eqn:Hmust.
    + right; left. exists k, s, rest, data. rewrite Hdata by done. eauto.
    + apply not_republished in Hmust as [Hk' _]. by apply Hhas, Hkeep.
  - destruct Ht as [_ Hdone]. destruct (Hdone b Hb Hold) as [Hsent Hkeep]. destruct (must_republish _ _ _ _ _) eqn:Hmust.
    + assert (∃ j, j ∈ New b) as [j Hj].
      { apply set_choose_L. intros Hnone. apply (f_equal size) in Hnone. unfold new_holders in Hnone.
        rewrite compute_holders_size, size_empty in Hnone. assert (size (remaining ∪ new) = 0)%nat as Hz by (unfold CHUNK_COPY_COUNT in Hnone; lia).
        apply size_empty_inv in Hz. set_solver. }
      destruct (Hsent eq_refl j Hj) as (i & id & Hi). destruct (decide (i ∈ got c)) as [Hgot|Hgot].
      * destruct (inv_got _ _ _ HI i j b id Hgot Hi) as (Y & HY & HbY). left.
        assert (is_Some (members c !! j)) as [[sj tj] Hjm].
        { apply elem_of_dom. rewrite (inv_members _ _ _ HI). unfold new_holders in Hj.
          by apply compute_holders_subset in Hj. }
        destruct (inv_adult _ _ _ HI _ _ _ Hjm) as (Y' & HY' & Hstj & _). simplify_eq.
        exists j, sj, tj. split; [done|]. by eapply stocks_get.
      * right; right. by exists i, j, id.
    + apply not_republished in Hmust as [Hk' _]. by apply Hhas, Hkeep.
Qed.

Lemma inv_settled c D k s t :
  churn_inv cap c D → settled c → members c !! k = Some (s, t) → placed (remaining ∪ new) k s.
Proof.
  intros HI [Htasks Harrived] Hk. destruct (inv_adult _ _ _ HI _ _ _ Hk) as (X & HX & Hst & Hshare & Ht).
  unfold placed. enough (X = filter (λ b, k ∈ compute_holders (blob_id b) (remaining ∪ new)) content) as <-.
  { pose proof Hst as (_ & _ & ->). done. }
  apply set_eq. intros b. rewrite elem_of_filter. fold (new_holders new remaining (blob_id b)). split.
  - intros Hb. destruct (Hshare b Hb) as [Hc Hor]. split; [|done]. destruct (Htasks k s t Hk) as [->|[-> Hkn]].
    + by apply Ht.
    + destruct Hor as [Hold|?]; [|done]. unfold old_holders in Hold. apply compute_holders_subset in Hold. set_solver.
  - intros [Hkn Hb]. destruct (survivor c D b HI Hb) as (j & sj & tj & Y & Hold & Hrem & Hj & HY & _ & Hokj).
    destruct (Htasks j sj tj Hj) as [->|[_ ?]]; [|set_solver]. destruct Hokj as [_ [_ Hdone]].
    destruct (Hdone b Hb Hold) as [Hsent Hkeep]. destruct (must_republish _ _ _ _ _) eqn:Hmust.
    + destruct (Hsent eq_refl k Hkn) as (i & id & Hi).
      destruct (inv_got _ _ _ HI i k b id) as (X' & HX' & HbX); [|done|by simplify_eq].
      apply Harrived. by apply lookup_lt_Some in Hi.
    + apply not_republished in Hmust as (_ & Heq & Hsub).
      destruct (Htasks k s t Hk) as [->|[_ ?]]; [|set_solver]. destruct Ht as [_ Hdone'].
      destruct (Hdone' b Hb) as [_ Hkeep']; [by rewrite <- Heq|]. by apply Hkeep'.
Qed.

(** ** It can always come to its end *)

(** Only adult [k] moved. *)
Definition others_same (k : XorName) (c c' : churn) : Prop := ∀ j, j ≠ k → members c' !! j = members c !! j.

Lemma moving_ends c D k s rest data :
  churn_inv cap c D → members c !! k = Some (s, Moving rest data) →
  ∃ c' s', rtc churn_step c c' ∧ members c' !! k = Some (s', Moved) ∧ others_same k c c'.
Proof.
  revert c D s data. induction rest as [|a rest IH]; intros c D s data HI Hk.
  - eexists _, s. split; [apply rtc_once, (step_end c k s data (λ _, message_id_combine k k)), Hk|]. cbn [members].
    split; [apply lookup_insert_eq|]. intros j Hj. by apply lookup_insert_ne.
  - destruct (inv_adult _ _ _ HI _ _ _ Hk) as (X & HX & Hst & _ & _ & Haddr & _).
    destruct (Haddr a) as (b & Hb & <-); [by left|].
    destruct (turn_stocks k _ s X data (blob_id b) Hst) as (data' & s1 & Hturn & _); [by apply (proper_addr _ Hproper)|].
    pose proof (step_turn c k s _ rest data data' s1 Hk Hturn) as Hstep.
    destruct (churn_step_inv _ _ _ HI Hstep) as [D1 HI1].
    destruct (IH _ D1 s1 data' HI1) as (c2 & s2 & Hrun & Hk2 & Hsame); [apply lookup_insert_eq|].
    exists c2, s2. split; [by eapply rtc_l|]. split; [done|]. intros j Hj. rewrite Hsame by done. by apply lookup_insert_ne.
Qed.

Lemma adult_ends c D k s t :
  churn_inv cap c D → members c !! k = Some (s, t) →
  ∃ c' s', rtc churn_step c c' ∧ members c' !! k = Some (s', Moved) ∧ others_same k c c'.
Proof.
  intros HI Hk. destruct t as [|rest data|].
  - destruct (inv_adult _ _ _ HI _ _ _ Hk) as (X & HX & Hst & Hshare & _).
    destruct (keys_stocks _ s X Hst) as (l & Hkeys & _).
    { intros b Hb. apply (proper_addr _ Hproper). by apply Hshare. }
    pose proof (step_begin c k s l s Hk Hkeys) as Hstep. destruct (churn_step_inv _ _ _ HI Hstep) as [D1 HI1].
    destruct (moving_ends _ D1 k s l ∅ HI1) as (c2 & s2 & Hrun & Hk2 & Hsame); [apply lookup_insert_eq|].
    exists c2, s2. split; [by eapply rtc_l|]. split; [done|]. intros j Hj. rewrite Hsame by done. by apply lookup_insert_ne.
  - by eapply moving_ends.
  - exists c, s. split; [done|]. split; [done|]. by intros j.
Qed.

Lemma adults_end (l : list XorName) c D :
  churn_inv cap c D → (∀ k, k ∈ l → k ∈ remaining ∪ new) →
  ∃ c', rtc churn_step c c' ∧ ∀ k s t, members c' !! k = Some (s, t) → k ∈ l ∨ members c !! k = Some (s, Moved) → t = Moved.
Proof.
  revert c D. induction l as [|k l IH]; intros c D HI Hl.
  - exists c. split; [done|]. intros k s t Hk [?%elem_of_nil|Hk']; [done|]. congruence.
  - assert (is_Some (members c !! k)) as [[s t] Hk] by (apply elem_of_dom; rewrite (inv_members _ _ _ HI); apply Hl; by left).
    destruct (IH c D HI) as (c1 & Hrun1 & Hdone1); [intros j Hj; apply Hl; by right|].
    destruct (churn_reachable_inv _ _ _ HI Hrun1) as [D1 HI1].
    assert (is_Some (members c1 !! k)) as [[s1 t1] Hk1].
    { apply elem_of_dom. rewrite (inv_members _ _ _ HI1). apply Hl. by left. }
    destruct (adult_ends c1 D1 k s1 t1 HI1 Hk1) as (c2 & s2 & Hrun2 & Hk2 & Hsame).
    exists c2. split; [by etransitivity|]. intros j sj tj Hj Hcase. destruct (decide (j = k)) as [->|Hne]; [congruence|].
    rewrite Hsame in Hj by done. apply (Hdone1 j sj tj Hj). destruct Hcase as [[?|?]%elem_of_cons|?]; [done|by left|by right].
Qed.

(** All messages can be delivered. *)
Lemma messages_arrive n c D :
  churn_inv cap c D → (n ≤ length (pool c))%nat →
  ∃ c', rtc churn_step c c' ∧ pool c' = pool c ∧ (∀ i, (i < n)%nat → i ∈ got c') ∧
        ∀ k s t, members c' !! k = Some (s, t) → ∃ s0, members c !! k = Some (s0, t).
Proof.
  intros HI. induction n as [|n IH]; intros Hn.
  - exists c. split; [done|]. split; [done|]. split; [lia|eauto].
  - destruct IH as (c1 & Hrun & Hpool & Hgot & Htasks); [lia|]. destruct (churn_reachable_inv _ _ _ HI Hrun) as [D1 HI1].
    assert (is_Some (pool c1 !! n)) as [[k msg] Hi] by (apply lookup_lt_is_Some; rewrite Hpool; lia).
    destruct (inv_pool _ _ _ HI1 _ _ _ Hi) as (b & id & -> & Hb & Hk).
    assert (is_Some (members c1 !! k)) as [[s t] Hk1].
    { apply elem_of_dom. rewrite (inv_members _ _ _ HI1). unfold new_holders in Hk. by apply compute_holders_subset in Hk. }
    eexists. split; [eapply rtc_r; [exact Hrun|]; by eapply (step_take c1 n k _ s t (SrcNode k) b id)|].
    cbn [members pool got]. split; [done|]. split.
    + intros i Hi'. destruct (decide (i = n)) as [->|]; [set_solver|]. apply elem_of_union_r, Hgot. lia.
    + intros j sj tj. rewrite lookup_insert. case_decide as Hj; [|apply Htasks]. subst j. intros [= <- <-]. by eapply Htasks.
Qed.

Lemma churn_can_settle c D : churn_inv cap c D → ∃ c', rtc churn_step c c' ∧ settled c'.
Proof.
  intros HI. destruct (adults_end (elements (remaining ∪ new)) c D HI) as (c1 & Hrun1 & Hdone).
  { intros k. by rewrite elem_of_elements. }
  destruct (churn_reachable_inv _ _ _ HI Hrun1) as [D1 HI1].
  destruct (messages_arrive (length (pool c1)) c1 D1 HI1) as (c2 & Hrun2 & Hpool & Hgot & Htasks); [done|].
  exists c2. split; [by etransitivity|]. split; [|by rewrite Hpool]. intros k s t Hk. left.
  destruct (Htasks k s t Hk) as [s0 Hk0]. apply (Hdone k s0 t Hk0). left. rewrite elem_of_elements, <- (inv_members _ _ _ HI1).
  by apply elem_of_dom_2 in Hk0.
Qed.

Lemma churn_init_inv stores :
  dom stores = remaining ∪ new →
  (∀ k s, stores !! k = Some s → capacity s = cap k ∧ placed (remaining ∪ lost) k s) →
  ∃ D, churn_inv cap (churn_init stores) D.
Proof.
  intros Hdom Hplaced.
  exists (map_imap (λ k _, Some (filter (λ b, k ∈ Old b) content)) stores). split; cbn [churn_init members pool got].
  - by rewrite dom_fmap_L.
  - intros k s t Hk. rewrite lookup_fmap in Hk. destruct (stores !! k) as [s0|] eqn:Hs; [|done]. injection Hk as -> <-.
    destruct (Hplaced k s Hs) as [Hcap Hst]. unfold placed in Hst. rewrite Hcap in Hst.
    exists (filter (λ b, k ∈ Old b) content). rewrite map_lookup_imap, Hs. split; [done|]. split; [exact Hst|].
    split; [|intros b Hb Hold; by apply elem_of_filter]. intros b [Hold Hb]%elem_of_filter. auto.
  - done.
  - intros i ?%elem_of_empty. done.
  - intros i k b id ?%elem_of_empty. done.
Qed.
End churn.

Section churn_theorem.
Context `{MO : MessagingOps} `{DO : !DataOpsCrate} `{SBA : !Serde BlobAddress} `{SB : !Serde Blob}.
Context `{XL : !XorNameLaws} `{DL : !DataOpsLaws} `{EL : !EncodingLaws} `{SAL : !SerdeLaws BlobAddress} `{SBL : !SerdeLaws Blob}.
Context (new lost remaining : gset XorName) (content : gset Blob) (stores : gmap XorName Chunks).

(** Fewer adults are lost than there are copies, and each adult that is there
    has room for the chunks it holds before or after. *)
Record churn_setting : Prop := mkChurnSetting {
  ch_content : proper content;
  ch_new : new ## remaining ∪ lost;
  ch_lost : remaining ## lost;
  ch_stay : remaining ≠ ∅;
  ch_few : (size lost < CHUNK_COPY_COUNT)%nat;
  ch_members : dom stores = remaining ∪ new;
  ch_room : ∀ k s, stores !! k = Some s → bytes (share new lost remaining content k) ≤ capacity s;
}.

(** C6: a change of the adults loses no chunk, when the adults have room for it:
    each adult has room for all the chunks it is a holder of before or after the
    change, their disks do not fail, and the chunks can be encoded.  When each
    adult has exactly the chunks it is a holder of, up to three adults leave and
    any number join, then whatever the order in which the adults go over their
    chunks and messages arrive: at every moment each chunk is at an adult, about
    to be sent by one or on its way; once all adults that stayed are done and all
    messages have arrived, each adult again has exactly the chunks it is a holder
    of among the adults that are there now; and this can be reached from every
    state. *)
Theorem chunks_survive_churn c :
  churn_setting → (∀ k s, stores !! k = Some s → placed content (remaining ∪ lost) k s) →
  rtc (churn_step new lost remaining) (churn_init stores) c →
  (∀ b, b ∈ content → not_lost c b) ∧
  (settled new c → ∀ k, k ∈ remaining ∪ new →
     ∃ s t, members c !! k = Some (s, t) ∧ placed content (remaining ∪ new) k s) ∧
  ∃ c', rtc (churn_step new lost remaining) c c' ∧ settled new c'.
Proof.
  intros [Hproper Hnew Hlost Hstay Hfew Hdom Hroom] Hplaced Hrun.
  set (cap := λ k : XorName, from_option (λ s : Chunks, capacity s) 0 (stores !! k)).
  assert (∀ k, k ∈ remaining ∪ new → bytes (share new lost remaining content k) ≤ cap k) as Hcap.
  { intros k. rewrite <- Hdom. intros [s Hs]%elem_of_dom. unfold cap. rewrite Hs. by eapply Hroom. }
  destruct (churn_init_inv new lost remaining content cap stores Hdom) as [D0 HI0].
  { intros k s Hs. split; [exact (eq_sym (f_equal (from_option (λ s : Chunks, capacity s) 0) Hs))|by apply Hplaced]. }
  destruct (churn_reachable_inv new lost remaining content cap Hproper Hcap _ _ _ HI0 Hrun) as [D HI]. split; [|split].
  - intros b Hb. by eapply inv_not_lost.
  - intros Hsettled k Hk. rewrite <- (inv_members _ _ _ _ _ _ _ HI) in Hk. apply elem_of_dom in Hk as [[s t] Hk].
    exists s, t. split; [done|]. by eapply inv_settled.
  - by eapply churn_can_settle.
Qed.
(** C35: the elders and the adults differ about who holds a chunk when adults are
    full.  The elders write a chunk to, and read it from, the closest adults that
    are not full; an adult goes by the closest adults, full ones too.  So an adult
    that the elders use in place of a full one drops the chunk at any change of
    the adults, though the elders still look for it there. *)
Theorem substitute_holder_drops_chunk r full k f fresh s m b :
  let closer j := cle (cmp_distance (blob_address_name (blob_id b))) j k in
  let holders := get_chunk_holder_adults r full (blob_address_name (blob_id b)) in
  RoutingLaws r → our_adults r = remaining ∪ new →
  k ∈ holders → size holders = CHUNK_COPY_COUNT → (∀ j, j ∈ holders → closer j) →
  f ∈ our_adults r → f ∈ full → closer f →
  holds s m → no_stray (Id := BlobAddress) s → (∀ a, is_Some (m a) → addr_encodable a) → m (blob_id b) = Some b →
  (chunks_get_chunk (blob_id b) s).1 = Ok b ∧
  ∃ duties s', reorganize_chunks k new lost remaining fresh s = (Ok duties, s') ∧
    (chunks_get_chunk (blob_id b) s').1 = Err (NoSuchChunk (BlobAddr (blob_id b))).
Proof.
  intros closer holders HR Hadults Hk Hsize Hlast Hf Hfull Hcloser Hs Hstray Henc Hb.
  assert (addr_encodable (blob_id b)) as Ha by eauto.
  assert (∀ j, j ∈ holders → j ∈ our_adults r ∧ j ∉ full) as Hhold by (intros j; by apply get_chunk_holders_adults).
  assert (k ∉ compute_holders (blob_id b) (our_adults r)) as Hnot.
  { intros Hin. apply (holder_few_closer _ _ _ ({[f]} ∪ holders ∖ {[k]})) in Hin.
    - rewrite size_union, size_singleton, size_difference, size_singleton, Hsize in Hin by set_solver.
      unfold CHUNK_COPY_COUNT in Hin. lia.
    - set_solver.
    - set_solver.
    - intros j. rewrite elem_of_union, elem_of_singleton. intros [->|Hj]; [done|]. apply Hlast. set_solver. }
  unfold chunks_get_chunk, storage_get_chunk. split; [by rewrite (get_holds s m _ Hs Ha), Hb|].
  destruct (reorganize_chunks_spec k new lost remaining fresh s m Hs Hstray Henc) as (duties & s' & Hrun & _ & Hs').
  exists duties, s'. split; [done|]. rewrite (get_holds _ _ _ Hs' Ha). unfold new_holders. rewrite decide_False; [done|].
  by rewrite <- Hadults.
Qed.
End churn_theorem.

Module Witness.
Import ToyCrates ToySerde ToyRouting.
Import ChunkStore.Witness Chunks.Witness.

(** Adults 1, 4 and 6 have blob 5; adult 2, which had it too, leaves, and adult 7
    joins and becomes a holder; adult 40 is too far away. *)
Definition new0 : gset XorName := {[nm 7]}.
Definition lost0 : gset XorName := {[nm 2]}.
Definition content0 : @gset Blob Blob_eq_dec Blob_countable := {[blob 5%N]}.
Definition stores_of (with_chunk without : CS) : gmap XorName CS :=
  {[nm 1 := with_chunk; nm 4 := with_chunk; nm 6 := with_chunk; nm 40 := without; nm 7 := without]}.

Lemma opened_names n : is_Some (files opened.2 !! join (cs_dir opened.1) n) → n = USED_SPACE_FILENAME.
Proof.
  intros Hn. assert (Forall (λ p, p = join (cs_dir opened.1) USED_SPACE_FILENAME) (map_to_list (files opened.2)).*1) as Hall.
  { apply (bool_decide_unpack _). vm_compute. exact I. }
  rewrite Forall_forall in Hall. destruct Hn as [c Hc]. eapply join_inj, Hall.
  apply list_elem_of_fmap. exists (join (cs_dir opened.1) n, c). split; [done|]. by apply elem_of_map_to_list.
Qed.

Lemma opened_stocks : stocks 20 opened ∅.
Proof.
  destruct opened_fresh as (Hi & Hf & Hr). split; [|split].
  - exists (λ _, None). split; [by split|]. intros a b. split; [intros Hab; discriminate Hab|].
    intros [Hb _]. destruct (not_elem_of_empty b Hb).
  - intros n Hn Hne. destruct (Hne (opened_names n Hn)).
  - vm_compute. reflexivity.
Qed.

Lemma filled_stocks : stocks 20 filled content0.
Proof.
  split; [|split].
  - exists m0. split; [exact s0_holds|]. intros a b. unfold m0, kv_set, content0. rewrite elem_of_singleton.
    case_decide as Ha; [subst; naive_solver|]. split; [done|]. intros [-> <-]. done.
  - exact filled_no_stray.
  - vm_compute. reflexivity.
Qed.

Lemma proper0 : proper content0.
Proof.
  unfold content0. split.
  - intros b ->%elem_of_singleton. reflexivity.
  - intros b ->%elem_of_singleton. reflexivity.
  - intros b b' ->%elem_of_singleton ->%elem_of_singleton _. done.
Qed.

(** Which adults have which store. *)
Lemma stores_cases f e k s :
  stores_of f e !! k = Some s → s = f ∧ k ∈ [nm 1; nm 4; nm 6] ∨ s = e ∧ k ∈ [nm 40; nm 7].
Proof.
  unfold stores_of. rewrite !lookup_insert, lookup_singleton.
  repeat (case_decide; [subst; intros [= <-]; set_solver|]). intros Hk. discriminate Hk.
Qed.

Lemma setting0 f e :
  capacity f = 20 → capacity e = 20 → churn_setting new0 lost0 remaining0 content0 (stores_of f e).
Proof.
  intros Hf He. split; [exact proper0|apply (bool_decide_unpack _); vm_compute; exact I..| |].
  - apply set_eq. intros k. unfold stores_of. rewrite !dom_insert_L, dom_singleton_L. unfold remaining0, new0. set_solver.
  - assert (Forall (λ k, bytes (share new0 lost0 remaining0 content0 k) ≤ 20) [nm 1; nm 4; nm 6; nm 40; nm 7]) as Hall.
    { apply (bool_decide_unpack _). vm_compute. exact I. }
    rewrite Forall_forall in Hall. intros k s [[-> Hk]|[-> Hk]]%stores_cases; rewrite ?Hf, ?He; apply Hall; set_solver.
Qed.

Lemma placed0 f e k s :
  stocks 20 f content0 → stocks 20 e ∅ → stores_of f e !! k = Some s → placed content0 (remaining0 ∪ lost0) k s.
Proof.
  intros Hf He Hk.
  assert (Forall (λ k, filter (λ b, k ∈ compute_holders (blob_id b) (remaining0 ∪ lost0)) content0 = content0)
    [nm 1; nm 4; nm 6]) as Hin by (apply (bool_decide_unpack _); vm_compute; exact I).
  assert (Forall (λ k, filter (λ b, k ∈ compute_holders (blob_id b) (remaining0 ∪ lost0)) content0 = ∅)
    [nm 40; nm 7]) as Hout by (apply (bool_decide_unpack _); vm_compute; exact I).
  rewrite Forall_forall in Hin, Hout. unfold placed.
  destruct (stores_cases f e k s Hk) as [[-> Hk']|[-> Hk']].
  - pose proof Hf as (_ & _ & ->). exact (eq_ind_r (stocks 20 f) Hf (Hin k Hk')).
  - pose proof He as (_ & _ & ->). exact (eq_ind_r (stocks 20 e) He (Hout k Hk')).
Qed.

Lemma chunks_survive_churn_witness :
  ∃ c s t, rtc (churn_step new0 lost0 remaining0) (churn_init (stores_of filled opened)) c ∧ settled new0 c ∧
    members c !! nm 7 = Some (s, t) ∧ placed content0 (remaining0 ∪ new0) (nm 7) s.
Proof.
  pose proof (setting0 filled opened (proj2 (proj2 filled_stocks)) (proj2 (proj2 opened_stocks))) as Hset.
  pose proof (λ k s, placed0 filled opened k s filled_stocks opened_stocks) as Hplaced.
  set (stores0 := stores_of filled opened) in *. clearbody stores0.
  destruct (chunks_survive_churn new0 lost0 remaining0 content0 stores0 (churn_init stores0) Hset Hplaced (rtc_refl _ _))
    as (_ & _ & c & Hrun & Hsettled).
  destruct (chunks_survive_churn new0 lost0 remaining0 content0 stores0 c Hset Hplaced Hrun) as (_ & Hall & _).
  destruct (Hall Hsettled (nm 7)) as (s & t & Hk & Hs); [apply elem_of_union_r, elem_of_singleton; reflexivity|].
  exists c, s, t. split; [exact Hrun|]. split; [exact Hsettled|]. split; [exact Hk|exact Hs].
Defined.

(** Adults 1, 4, 6, 7 and 40, of which 4 is full: 40 takes its place for blob 5,
    and drops it when adult 50 joins. *)
Definition routing0 : Routing := toy_routing [] (Capacity.Witness.peer <$> [1; 4; 6; 7; 40; 50]%N) [].

Lemma substitute_holder_drops_chunk_witness :
  ∃ duties s', reorganize_chunks (nm 40) {[nm 50]} ∅ {[nm 1; nm 4; nm 6; nm 7; nm 40]} (λ i, N.of_nat i) filled = (Ok duties, s') ∧
    (chunks_get_chunk (5%N : BlobAddress) s').1 = Err (NoSuchChunk (BlobAddr 5%N)).
Proof.
  refine (proj2 (substitute_holder_drops_chunk {[nm 50]} ∅ {[nm 1; nm 4; nm 6; nm 7; nm 40]} routing0 {[nm 4]} (nm 40)
    (nm 4) (λ i, N.of_nat i) filled m0 (blob 5%N) _ _ _ _ _ _ _ _ s0_holds filled_no_stray _ _)).
  - apply toy_routing_laws. apply (bool_decide_unpack _). vm_compute. exact I.
  - apply (bool_decide_unpack _). vm_compute. exact I.
  - apply (bool_decide_unpack _). vm_compute. exact I.
  - vm_compute. reflexivity.
  - assert (set_Forall (λ j, cmp_leb (cmp_distance (nm 5) j (nm 40)) = true)
      (get_chunk_holder_adults routing0 {[nm 4]} (nm 5))) as Hall.
    { apply (bool_decide_unpack _). vm_compute. exact I. }
    exact Hall.
  - apply (bool_decide_unpack _). vm_compute. exact I.
  - apply (bool_decide_unpack _). vm_compute. exact I.
  - reflexivity.
  - intros a _. reflexivity.
  - reflexivity.
Defined.
End Witness.
