(* ===== verification/Node.v ===== *)
(** [src/node/{mod,handle,member_churn,split,interaction}.rs] and
    [src/node/role/]: the node, its roles, and its duties.

    A role is shared ([Arc<RwLock<_>>]) between the node and the tasks it
    spawned, and a task keeps working on the role it was spawned for after the
    node took another one.  So roles are in a heap, [roles], and the node and
    its tasks hold the number of a role.  A task is the value [Thread]: the duty
    and what it captured; it runs as one step ([run_thread]), with the network as
    it is then.  The network, random ids and the build's features are the
    argument [e : Env].  A panic ends the task that has it: its result is
    [Crash]. *)

From S2P Require Import Prelude Crates Messages Disk Toy StateDb F64 UsedSpace ChunkStore Network Messaging Capacity Chunks.
From S2P Require Import AdultLiveness BlobRecords ElderData RewardCalc RewardStage RewardProcess SectionFunds.
From S2P Require Import TransferStore Replicas Transfers EventMapping Metadata DataFlow.

(** [PublicKey::Ed25519] *)
Class EdPublic `{MessagingCrate} `{!Ed25519Crate} := pk_of_ed : EdPublicKey → PublicKey.

Section node.
Context `{DO : DataOpsCrate} `{MC : !MessagingCrate} `{EC : !EncodingCrate} `{MO : !MessagingOps} `{WC : !WireCrate}
        `{SH : !ShuffleCrate}.
Context `{SMA : !Serde MapAddress} `{SM : !Serde Map} `{SSA : !Serde SequenceAddress} `{SS : !Serde Sequence}
        `{SRA : !Serde RegisterAddress} `{SR : !Serde Register} `{SBA : !Serde BlobAddress} `{SB : !Serde Blob}.
Context `{SN : !Serde XorName} `{SD : !Serde SignedDebit} `{SSC : !Serde SignedCredit} `{SC : !Serde Credit}
        `{SCP : !Serde CreditAgreementProof} `{SDC : !Serde DataCmd}
        `{DBG : !DebugT ReplicaEvent} `{PC : !PickleCrate ReplicaEvent} `{TC : !TransfersCrate}
        `{ED : !Ed25519Crate} `{EP : !EdPublic}.
(** [sn_routing::ELDER_SIZE] *)
Context (ELDER_SIZE : nat).

Abbreviation World := (DbWorld (T := ReplicaEvent)).

(** * The state *)

(** What a step asks of its surroundings. *)
Record Env : Type := mkEnv {
  e_routing : Routing;
  (** the keys of [section_chain()] *)
  e_chain : list BlsPublicKey;
  (** [PublicKey::from(network_api.public_key())] *)
  e_public_key : PublicKey;
  e_answers : Answers;
  e_fresh : nat → MessageId;
  e_powf : f64 → f64 → f64;
  e_info_logged : bool;
  (** the dummy keys and signature of a simulated payout *)
  e_sim_keys : PublicKeySet;
  e_sim_sig : BlsSignature;
  (** [cfg!(feature = "always-joinable")] *)
  e_always_joinable : bool;
}.

(** [ElderRole], role/elder_role.rs *)
Record ElderRole : Type := mkElderRole {
  meta_data : ElderStores;
  transfers : Replicas;
  section_funds : SectionFunds;
  received_initial_sync : bool;
}.

(** [Role], role/mod.rs; an [AdultRole] is its [Chunks]. *)
Inductive Role : Type :=
| Adult (chunks : ChunkStore)
| Elder (elder : ElderRole).

(** [NodeInfo] and [Node], mod.rs, with the disk, the files of the databases
    and the requests made to the network. *)
Record NodeInfo : Type := mkNodeInfo {
  ni_root_dir : path;
  ni_reward_key : PublicKey;
}.
Record Node : Type := mkNode {
  node_info : NodeInfo;
  used_space : UsedSpace;
  role : nat;
  roles : gmap nat Role;
  disk : Fs;
  dbs : World;
  requests : list NetRequest;
}.

Definition set_used_space (u : UsedSpace) (s : Node) : Node :=
  mkNode (node_info s) u (role s) (roles s) (disk s) (dbs s) (requests s).
Definition set_disk (d : Fs) (s : Node) : Node :=
  mkNode (node_info s) (used_space s) (role s) (roles s) d (dbs s) (requests s).
Definition set_dbs (w : World) (s : Node) : Node :=
  mkNode (node_info s) (used_space s) (role s) (roles s) (disk s) w (requests s).
Definition set_requests (l : list NetRequest) (s : Node) : Node :=
  mkNode (node_info s) (used_space s) (role s) (roles s) (disk s) (dbs s) l.
(** Change a role in place. *)
Definition update_role (id : nat) (x : Role) (s : Node) : Node :=
  mkNode (node_info s) (used_space s) (role s) (<[id := x]> (roles s)) (disk s) (dbs s) (requests s).
(** [self.role = ...]: the node has a new role; tasks keep the old one. *)
Definition take_role (x : Role) (s : Node) : Node :=
  let id := S (role s) in
  mkNode (node_info s) (used_space s) id (<[id := x]> (roles s)) (disk s) (dbs s) (requests s).

Abbreviation NM A := (M Error Node A).

(** [as_adult] and [as_elder], role/mod.rs *)
Definition as_adult : NM nat :=
  let! s := get in
  match roles s !! role s with Some (Adult _) => ret (role s) | _ => throw NotAnAdult end.
Definition as_elder : NM nat :=
  let! s := get in
  match roles s !! role s with Some (Elder _) => ret (role s) | _ => throw NotAnElder end.

(** Work on a part of the node, or of a role a task has. *)
Definition on_disk {A} (m : M Error Fs A) : NM A := zoom disk set_disk m.
Definition on_network {A} (m : M Error (list NetRequest) A) : NM A := zoom requests set_requests m.
Definition with_chunks {A} (id : nat) (m : M Error Chunks A) : NM A :=
  λ s, match roles s !! id with
       | Some (Adult c) => let '(r, (c', d)) := m (c, disk s) in (r, update_role id (Adult c') (set_disk d s))
       | _ => (Err NotAnAdult, s)
       end.
Definition with_elder {A} (id : nat) (m : ElderRole → NM A) : NM A :=
  λ s, match roles s !! id with Some (Elder x) => m x s | _ => (Err NotAnElder, s) end.
Definition with_meta {A} (id : nat) (m : M Error Metadata A) : NM A :=
  with_elder id (λ x s,
    let '(r, (st, d)) := m (meta_data x, disk s) in
    (r, update_role id (Elder (mkElderRole st (transfers x) (section_funds x) (received_initial_sync x))) (set_disk d s))).
Definition with_funds {A} (id : nat) (m : M Error SectionFunds A) : NM A :=
  with_elder id (λ x s,
    let '(r, f) := m (section_funds x) in
    (r, update_role id (Elder (mkElderRole (meta_data x) (transfers x) f (received_initial_sync x))) s)).
Definition set_received_initial_sync (id : nat) : NM unit :=
  with_elder id (λ x s,
    (Ok tt, update_role id (Elder (mkElderRole (meta_data x) (transfers x) (section_funds x) true)) s)).
(** The replica signs with the network of the moment. *)
Definition sign_with (r : Routing) (R : Replicas) : Replicas :=
  let i := info R in
  mkReplicas (Replicas.root_dir R)
    (mkReplicaInfo (ri_id i) (ri_key_index i) (ri_peer_replicas i) (ri_section_chain i) (replica_signing_impl r))
    (stores R).
Definition with_transfers {A} (e : Env) (id : nat) (m : M Error (Replicas * World) A) : NM A :=
  with_elder id (λ x s,
    let '(r, (R, w)) := m (sign_with (e_routing e) (transfers x), dbs s) in
    (r, update_role id (Elder (mkElderRole (meta_data x) R (section_funds x) (received_initial_sync x))) (set_dbs w s))).
(** A query of the replica. *)
Definition ask_transfers {A} (e : Env) (id : nat) (f : Replicas → Result A) : NM A :=
  with_elder id (λ x, lift (f (sign_with (e_routing e) (transfers x)))).

(** * interaction.rs *)

Definition propagate_credits (credit_proofs : gmap CreditId CreditAgreementProof) : Result NodeDuties :=
  foldr (λ '(_, credit_proof) ops,
    res_bind (map_err Message (message_id_from_signature (cap_debiting_replicas_sig credit_proof))) (λ msg_id,
    res_bind ops (λ ops,
    Ok (Send (mkOutgoingMsg (MtNode (NmNodeCmd (NcTransfers (PropagateTransferCmd credit_proof)) msg_id))
                (DstSection (name_of_pk (cap_recipient credit_proof))) true AtDestination) :: ops))))
    (Ok []) (btree_entries credit_id_cmp credit_proofs).

Definition get_section_elders (r : Routing) (msg_id : MessageId) (origin : SrcLocation) : Result NodeDuties :=
  res_bind (our_public_key_set r) (λ key_set,
  let elders := mkSectionElders (our_prefix r) (our_elder_names r) key_set in
  Ok [Send (mkOutgoingMsg (MtNode (NmNodeQueryResponse (NqrGetSectionElders elders) (in_response_to msg_id) msg_id))
              (src_to_dst origin) false AtDestination)]).

Definition notify_section_of_our_storage (e : Env) : NodeDuty :=
  let node_id := e_public_key e in
  Send (mkOutgoingMsg (MtNode (NmNodeCmd (NcSystem (StorageFull (name_of_pk node_id) node_id)) (e_fresh e 0)))
          (DstSection (name_of_pk node_id)) false AggNone).

Definition register_wallet (e : Env) (reward_key : PublicKey) : OutgoingMsg :=
  let address := prefix_name (our_prefix (e_routing e)) in
  mkOutgoingMsg (MtNode (NmNodeCmd (NcSystem (RegisterWallet reward_key)) (e_fresh e 0))) (DstSection address) false AggNone.

(** [push_state]: only what the destination should have. *)
Definition push_state (e : Env) (elder : nat) (prefix : Prefix) (msg_id : MessageId) (peers : gset XorName) : NM NodeDuty :=
  let! user_wallets := ask_transfers e elder (λ R, Ok (tf_user_wallets R)) in
  let! node_rewards := with_elder elder (λ x, ret (node_wallets (section_funds x))) in
  let user_wallets := filter (λ kv, prefix_matches prefix (name_of_pk kv.1) = true) user_wallets in
  let node_rewards := filter (λ kv, prefix_matches prefix kv.1 = true) node_rewards in
  let! metadata := with_meta elder (get_data_exchange_packet prefix) in
  ret (SendToNodes (NmNodeCmd (NcSystem (ReceiveExistingData node_rewards user_wallets metadata)) msg_id) peers AggNone).

(** * member_churn.rs *)

Definition update_replicas (e : Env) (elder : nat) : NM unit :=
  let! info := lift (replica_info (e_routing e) (e_chain e)) in
  with_transfers e elder (modify (λ s, (tf_update_replica_info info s.1, s.2))).

(** [level_up]: the stores of an elder are opened below the root directory. *)
Definition level_up (e : Env) : NM unit :=
  zoom (λ s, (used_space s, disk s)) (λ t s, set_disk t.2 (set_used_space t.1 s)) UsedSpace.reset ;;;
  let! s := get in
  let max_capacity := UsedSpace.max_capacity (used_space s) in
  let root_dir := ni_root_dir (node_info s) in
  let! meta_data := on_disk (metadata_new root_dir max_capacity adults_storage_info_new) in
  let! replicas := zoom dbs set_dbs (transfer_replicas root_dir (e_routing e) (e_chain e) ∅) in
  let section_funds := KeepingNodeWallets (reward_wallets_new ∅) in
  modify (take_role (Elder (mkElderRole meta_data replicas section_funds false))).

Definition synch_state (e : Env) (elder : nat) (reward_key : PublicKey) (node_wallets : gmap XorName (Z * PublicKey))
    (user_wallets : gmap PublicKey ActorHistory) (metadata : DataExchange) : NM NodeDuty :=
  let! received := with_elder elder (λ x, ret (received_initial_sync x)) in
  if (received : bool) then ret NoOp else
  with_transfers e elder (tf_merge user_wallets) ;;;
  for_each (btree_entries name_cmp node_wallets) (λ '(key, (age, wallet)),
    with_funds elder (modify (set_node_wallet key wallet age))) ;;;
  with_meta elder (md_update metadata) ;;;
  set_received_initial_sync elder ;;;
  let node_id := our_name (e_routing e) in
  if bool_decide (node_wallets !! node_id = None) then ret (Send (register_wallet e reward_key)) else ret NoOp.

(** * split.rs *)

(** An error, or a panic. *)
Inductive Failure : Type := Fail (err : Error) | Crash (p : stop).
Definition no_panic {A} (m : NM A) : M Failure Node A := λ s, let '(r, s') := m s in (map_err Fail r, s').
Definition may_panic {A} (r : result stop A) : M Failure Node A := lift (map_err Crash r).

Definition begin_split_as_newbie (e : Env) (our_key : PublicKey) (our_prefix : Prefix) : NM unit :=
  let! section_key := lift (section_public_key (e_routing e)) in
  if bool_decide (our_key ≠ section_key) then
    throw (Logic ("Some failure.. our_key: " +:+ display_pk our_key +:+ ", section_key: " +:+ display_pk section_key))
  else
  level_up e ;;;
  let section := mkOurSection our_prefix our_key in
  let! elder := as_elder in
  let! signing := lift (elder_signing_new (e_routing e)) in
  let process := reward_process_new section signing in
  let wallets := reward_wallets_new ∅ in
  with_funds elder (put_st (Churning process wallets)).

(** The payments a section got since the last split; the code has no value for them yet. *)
Definition split_payments : Token := 0.

Definition begin_split_as_oldie (e : Env) (elder : nat) (our_prefix : Prefix) (our_key sibling_key : PublicKey)
    (our_new_elders their_new_elders : gset XorName) : M Failure Node NodeDuties :=
  let payments := split_payments in
  no_panic (update_replicas e elder) ;;;
  let! wallets := no_panic (with_elder elder (λ x, ret (sf_wallets (section_funds x)))) in
  let sibling_prefix := prefix_sibling our_prefix in
  let! ops :=
    if 0 <? payments then
      let! managed := no_panic (with_elder elder (λ x, ret (tf_managed_amount (transfers x)))) in
      let! managed := may_panic managed in
      let! section_managed := no_panic (lift managed) in
      let! signing := no_panic (lift (elder_signing_new (e_routing e))) in
      let process := reward_process_new (mkOurSection our_prefix our_key) signing in
      let! minted := may_panic (reward_and_mint (e_routing e) (e_fresh e 0) payments section_managed
                                  (rw_node_wallets wallets) process) in
      let! duty := no_panic (lift minted.1) in
      no_panic (with_funds elder (put_st (Churning minted.2 wallets))) ;;;
      ret [duty]
    else ret [] in
  let msg_id := message_id_combine (prefix_name our_prefix) (name_of_pk our_key) in
  let! ours := no_panic (push_state e elder our_prefix msg_id our_new_elders) in
  let msg_id := message_id_combine (prefix_name sibling_prefix) (name_of_pk sibling_key) in
  let! theirs := no_panic (push_state e elder sibling_prefix msg_id their_new_elders) in
  no_panic (with_meta elder (md_retain_members_only (our_adults (e_routing e)))) ;;;
  no_panic (with_transfers e elder (tf_keep_keys_of our_prefix)) ;;;
  no_panic (with_funds elder (modify (keep_wallets_of our_prefix))) ;;;
  ret (ops ++ [ours; theirs]).

(** * handle.rs *)

(** A spawned task: its duty, with the role and the name it captured. *)
Inductive Thread : Type :=
| ElderThread (elder : nat) (duty : NodeDuty)
| AdultThread (adult : nat) (our_name : XorName) (duty : NodeDuty)
| NetThread (duty : NodeDuty).

Inductive NodeTask : Type :=
| TaskNone
| TaskResult (duties : NodeDuties) (ctx : option MsgContext)
| TaskThread (t : Thread).

(** [impl From<NodeDuties> for NodeTask] *)
Definition task_from (duties : NodeDuties) : NodeTask := TaskResult duties None.

Definition spawn_elder (duty : NodeDuty) : NM NodeTask :=
  let! elder := as_elder in ret (TaskThread (ElderThread elder duty)).
Definition spawn_adult (e : Env) (duty : NodeDuty) : NM NodeTask :=
  let! adult := as_adult in ret (TaskThread (AdultThread adult (our_name (e_routing e)) duty)).
Definition spawn (duty : NodeDuty) : NM NodeTask := ret (TaskThread (NetThread duty)).

(** [Node::handle]: what it does at once, and the task it spawns. *)
Definition handle (e : Env) (duty : NodeDuty) : NM NodeTask :=
  match duty with
  | Genesis =>
      level_up e ;;;
      let! elder := as_elder in
      set_received_initial_sync elder ;;;
      ret TaskNone
  | EldersChanged _ _ _ newbie =>
      if newbie then
        level_up e ;;;
        if prefix_is_empty (our_prefix (e_routing e)) && (length (e_chain e) <=? ELDER_SIZE)%nat then
          let! elder := as_elder in
          set_received_initial_sync elder ;;;
          ret TaskNone
        else ret TaskNone
      else spawn_elder duty
  | AdultsChanged _ _ _ => spawn_adult e duty
  | SectionSplit our_prefix our_key _ _ _ newbie =>
      if newbie then begin_split_as_newbie e our_key our_prefix ;;; ret TaskNone
      else spawn_elder duty
  | ProposeOffline unresponsive_adults =>
      for_each unresponsive_adults (λ adult, on_network (propose_offline (e_answers e) adult)) ;;;
      ret TaskNone
  | ReceiveRewardProposal proposal =>
      let! elder := as_elder in
      let! churn_process := with_elder elder (λ x, lift (as_churning_mut (section_funds x))) in
      let! duty := lift (receive_churn_proposal (e_routing e) (e_fresh e 0) proposal churn_process.1).1 in
      ret (TaskResult [duty] None)
  | LevelDown =>
      let! s := get in
      let capacity := UsedSpace.max_capacity (used_space s) in
      let! chunks := on_disk (chunks_new (ni_root_dir (node_info s)) capacity) in
      modify (take_role (Adult chunks)) ;;;
      ret TaskNone
  | ProcessDataPayment (PmCmd _ (CmdData _ _) _) _ => spawn_elder duty
  | ProcessDataPayment _ _ => ret TaskNone
  | ReceiveRewardAccumulation _ | SetNodeWallet _ _ | GetNodeWalletKey _ _ _ | ProcessLostMember _ _
  | SynchState _ _ _ | GetTransferReplicaEvents _ _ | PropagateTransfer _ _ _ | ValidateClientTransfer _ _ _
  | SimulatePayout _ _ _ | GetTransfersHistory _ _ _ _ | GetBalance _ _ _ | GetStoreCost _ _ _ | RegisterTransfer _ _ _
  | ProcessRepublish _ _ | IncrementFullNodeCount _ | ProcessRead _ _ _ _ | ProcessWrite _ _ _ _
  | RecordAdultReadLiveness _ _ _ => spawn_elder duty
  | ReadChunk _ _ | WriteChunk _ _ _ | ReplicateChunk _ _ => spawn_adult e duty
  | GetSectionElders _ _ | ReachingMaxCapacity | Send _ | SendError _ | SendSupport _ | SendToNodes _ _ _
  | SetNodeJoinsAllowed _ => spawn duty
  | NoOp => ret TaskNone
  end.

(** The cost of a write, with the elder's view of full adults. *)
Definition elder_cost (e : Env) (x : ElderRole) : Z → Result Token :=
  transfers_cost (e_powf e) (e_routing e) (br_capacity (blob_records (meta_data x))).

(** The task of [ReceiveRewardAccumulation]: the accumulation is handled by a
    copy of the process. *)
Definition receive_reward_accumulation (e : Env) (elder : nat) (accumulation : RewardAccumulation) :
    M Failure Node NodeDuties :=
  let! churning := no_panic (with_elder elder (λ x, lift (as_churning_mut (section_funds x)))) in
  let! op := no_panic (lift (receive_wallet_accumulation (e_routing e) (e_fresh e 0) accumulation churning.1).1) in
  match stage churning.1 with
  | Completed credit_proofs =>
      let! _ := may_panic (credits_sum credit_proofs) in
      let! more := no_panic (lift (propagate_credits credit_proofs)) in
      no_panic (with_funds elder (put_st (KeepingNodeWallets churning.2))) ;;;
      let! _ := no_panic (lift (section_public_key (e_routing e))) in
      ret ((op :: more) ++ [SetNodeJoinsAllowed true])
  | _ => ret [op]
  end.

(** The task of [EldersChanged] at an elder that stays one. *)
Definition elders_changed (e : Env) (elder : nat) (our_prefix : Prefix) (our_key : PublicKey) (new_elders : gset XorName) :
    NM NodeDuties :=
  update_replicas e elder ;;;
  let msg_id := message_id_combine (prefix_name our_prefix) (name_of_pk our_key) in
  let! op := push_state e elder our_prefix msg_id new_elders in
  with_meta elder (md_retain_members_only (our_adults (e_routing e))) ;;;
  ret [op].

(** The tasks on the wallets of the nodes, and the initial sync. *)
Definition run_funds (e : Env) (elder : nat) (duty : NodeDuty) : NM NodeDuties :=
  let r := e_routing e in
  match duty with
  | SetNodeWallet wallet_id node_id =>
      match our_members r !! node_id with
      | Some age => with_funds elder (modify (set_node_wallet node_id wallet_id age)) ;;; ret []
      | None => throw NodeNotFoundForReward
      end
  | GetNodeWalletKey node_name _ _ =>
      match our_members r !! node_name with Some _ => ret [] | None => throw NodeNotFoundForReward end
  | ProcessLostMember name _ =>
      with_funds elder (modify (remove_node_wallet name)) ;;;
      with_meta elder (md_retain_members_only (our_adults r)) ;;;
      ret [SetNodeJoinsAllowed true]
  | SynchState node_rewards user_wallets metadata =>
      let! s := get in
      let! duty := synch_state e elder (ni_reward_key (node_info s)) node_rewards user_wallets metadata in
      ret [duty]
  | _ => ret []
  end.

(** The tasks on the wallets of the clients. *)
Definition run_transfers (e : Env) (elder : nat) (duty : NodeDuty) : NM NodeDuties :=
  let one (m : NM NodeDuty) : NM NodeDuties := let! d := m in ret [d] in
  match duty with
  | GetTransferReplicaEvents msg_id origin => one (ask_transfers e elder (λ R, tf_all_events R msg_id origin))
  | PropagateTransfer proof msg_id origin => one (with_transfers e elder (tf_receive_propagated proof msg_id origin))
  | ValidateClientTransfer signed_transfer msg_id origin =>
      one (with_transfers e elder (tf_validate (e_fresh e 0) signed_transfer msg_id origin))
  | SimulatePayout transfer _ _ =>
      one (with_transfers e elder (tf_credit_without_proof (e_sim_keys e) (e_sim_sig e) transfer))
  | GetTransfersHistory at_ _ msg_id origin => one (ask_transfers e elder (λ R, tf_history R at_ msg_id origin))
  | GetBalance at_ msg_id origin => one (ask_transfers e elder (λ R, tf_balance R at_ msg_id origin))
  | GetStoreCost bytes msg_id origin =>
      with_elder elder (λ x, ret (get_store_cost (elder_cost e x) (transfers x) bytes msg_id origin))
  | RegisterTransfer proof msg_id origin => one (with_transfers e elder (tf_register proof msg_id origin))
  | _ => ret []
  end.

(** The task of a paid write. *)
Definition process_data_payment (e : Env) (elder : nat) (id : MessageId) (payment : TransferAgreementProof)
    (cmd : DataCmd) (client_signed : ClientSigned) (origin : EndUser) : NM NodeDuties :=
  with_elder elder (λ x,
    with_transfers e elder (process_payment (elder_cost e x) (e_info_logged e) id payment cmd client_signed origin)).

(** What the tasks of elders do; those on data are inline. *)
Definition run_elder (e : Env) (elder : nat) (duty : NodeDuty) : M Failure Node NodeDuties :=
  let r := e_routing e in
  match duty with
  | EldersChanged our_prefix our_key new_elders _ => no_panic (elders_changed e elder our_prefix our_key new_elders)
  | SectionSplit our_prefix our_key our_new_elders their_new_elders sibling_key _ =>
      begin_split_as_oldie e elder our_prefix our_key sibling_key our_new_elders their_new_elders
  | ReceiveRewardAccumulation accumulation => receive_reward_accumulation e elder accumulation
  | SetNodeWallet _ _ | GetNodeWalletKey _ _ _ | ProcessLostMember _ _ | SynchState _ _ _ =>
      no_panic (run_funds e elder duty)
  | GetTransferReplicaEvents _ _ | PropagateTransfer _ _ _ | ValidateClientTransfer _ _ _ | SimulatePayout _ _ _
  | GetTransfersHistory _ _ _ _ | GetBalance _ _ _ | GetStoreCost _ _ _ | RegisterTransfer _ _ _ =>
      no_panic (run_transfers e elder duty)
  | ProcessRepublish chunk _ => no_panic (with_meta elder (handle_process_republish r chunk))
  | IncrementFullNodeCount node_id => no_panic (with_meta elder (handle_increment_full_node_count node_id))
  | ProcessRead query msg_id client_signed origin =>
      no_panic (with_meta elder (handle_process_read r query msg_id client_signed origin))
  | ProcessWrite cmd msg_id client_signed origin =>
      no_panic (with_meta elder (handle_process_write r cmd msg_id client_signed origin))
  | RecordAdultReadLiveness response correlation_id src =>
      no_panic (with_meta elder (handle_record_adult_read_liveness response correlation_id src))
  | ProcessDataPayment (PmCmd id (CmdData payment cmd) client_signed) origin =>
      no_panic (process_data_payment e elder id payment cmd client_signed origin)
  | _ => ret []
  end.

Definition run_adult (e : Env) (adult : nat) (our_name : XorName) (duty : NodeDuty) : NM NodeDuties :=
  match duty with
  | AdultsChanged remaining added removed =>
      with_chunks adult (reorganize_chunks our_name added removed remaining (e_fresh e))
  | ReadChunk read msg_id => with_chunks adult (handle_read_chunk read msg_id)
  | WriteChunk write msg_id client_signed => with_chunks adult (handle_write_chunk write msg_id client_signed)
  | ReplicateChunk data _ => with_chunks adult (handle_replicate_chunk data)
  | _ => ret []
  end.

Definition run_net (e : Env) (duty : NodeDuty) : NM NodeTask :=
  let r := e_routing e in
  let a := e_answers e in
  match duty with
  | GetSectionElders msg_id origin => let! ops := lift (get_section_elders r msg_id origin) in ret (task_from ops)
  | ReachingMaxCapacity => ret (task_from [notify_section_of_our_storage e])
  | Send m => on_network (send r a m) ;;; ret TaskNone
  | SendError m => on_network (Messaging.send_error r a m) ;;; ret TaskNone
  | SendSupport m => on_network (send_support r a m) ;;; ret TaskNone
  | SendToNodes m targets agg => on_network (send_to_nodes r a m targets agg) ;;; ret TaskNone
  | SetNodeJoinsAllowed joins_allowed =>
      on_network (set_joins_allowed a (e_always_joinable e || joins_allowed)) ;;; ret TaskNone
  | _ => ret TaskNone
  end.

Definition run_thread (e : Env) (t : Thread) : M Failure Node NodeTask :=
  match t with
  | ElderThread elder duty => let! ops := run_elder e elder duty in ret (task_from ops)
  | AdultThread adult our_name duty => no_panic (let! ops := run_adult e adult our_name duty in ret (task_from ops))
  | NetThread duty => no_panic (run_net e duty)
  end.

(** * mod.rs: the main loop *)

Definition try_handle_error (err : Error) (ctx : option MsgContext) : NodeDuty :=
  match ctx with
  | None => NoOp
  | Some (mkMsgContext msg src) =>
      match msg with
      | MtClient (CmProcess msg) =>
          SendError (mkOutgoingLazyError (create_processing_error msg (Some (convert_to_error_message err))) (src_to_dst src))
      | _ => NoOp
      end
  end.

(** [handle_and_get_threads], to a depth of [fuel]; [None] when it is not enough. *)
Fixpoint handle_and_get_threads (fuel : nat) (e : Env) (op : NodeDuty) (ctx : option MsgContext) (s : Node) :
    option (list Thread * Node) :=
  match fuel with
  | O => None
  | S fuel =>
      match handle e op s with
      | (Ok (TaskResult node_duties ctx'), s') =>
          (fix loop (duties : NodeDuties) (s : Node) : option (list Thread * Node) :=
             match duties with
             | [] => Some ([], s)
             | duty :: duties =>
                 match handle_and_get_threads fuel e duty ctx' s with
                 | Some (threads, s) =>
                     match loop duties s with
                     | Some (more, s) => Some (threads ++ more, s)
                     | None => None
                     end
                 | None => None
                 end
             end) node_duties s'
      | (Ok (TaskThread t), s') => Some ([t], s')
      | (Ok TaskNone, s') => Some ([], s')
      | (Err err, s') => handle_and_get_threads fuel e (try_handle_error err ctx) ctx s'
      end
  end.

(** The duties of a finished task, one after the other. *)
Fixpoint handle_all (e : Env) (duties : NodeDuties) (ctx : option MsgContext) (s : Node) : option (list Thread * Node) :=
  match duties with
  | [] => Some ([], s)
  | duty :: duties =>
      match handle_and_get_threads 2 e duty ctx s with
      | Some (threads, s) =>
          match handle_all e duties ctx s with
          | Some (more, s) => Some (threads ++ more, s)
          | None => None
          end
      | None => None
      end
  end.

(** One turn of the loop of [Node::run], for the result of a task. *)
Definition on_result (e : Env) (res : result Failure NodeTask) (s : Node) : option (list Thread * Node) :=
  match res with
  | Ok (TaskThread t) => Some ([t], s)
  | Ok (TaskResult duties ctx) => handle_all e duties ctx s
  | Ok TaskNone => Some ([], s)
  | Err (Fail err) => handle_and_get_threads 2 e (try_handle_error err None) None s
  | Err (Crash _) => Some ([], s)
  end.

(** A step of the node: an event is mapped and handled, or one of the running
    tasks ends.  Tasks end in any order. *)
Inductive run_step : Node * list Thread → Node * list Thread → Prop :=
| step_event e decode polls fuel event m s pool new s' :
    map_routing_event decode (e_fresh e 0) polls fuel event (e_routing e) = Some m →
    handle_all e [op m] (ctx m) s = Some (new, s') →
    run_step (s, pool) (s', pool ++ new)
| step_thread e t pool1 pool2 res s s1 new s' :
    run_thread e t s = (res, s1) →
    on_result e res s1 = Some (new, s') →
    run_step (s, pool1 ++ t :: pool2) (s', pool1 ++ pool2 ++ new).

(** * Starting a node *)

(** What comes of joining the network with a stored key pair, or with none: the
    key pair of the node, as bytes, unless it fails or takes too long. *)
Inductive Joining : Type :=
| Joined (keypair_as_bytes : list byte)
| JoinFailed (err : RoutingError)
| JoinTimedOut.

(** [Network::new], network.rs, within the time limit of [Node::new] *)
Definition network_new (join : option EdKeypair → Joining) (root_dir : path) : M Error Fs unit :=
  let! keypair := get_network_keypair root_dir in
  match join keypair with
  | Joined keypair_as_bytes => store_network_keypair root_dir keypair_as_bytes
  | JoinFailed err => throw (RoutingE err)
  | JoinTimedOut => throw JoinTimeout
  end.

(** [Node::new]: the node starts as an adult and registers its wallet. *)
Definition node_new (e : Env) (join : option EdKeypair → Joining) (gen : EdKeypair) (root_dir : path) (max_capacity : Z)
    (w : World) : M Error Fs Node :=
  let! public_key := reward_key root_dir gen in
  let reward_key := pk_of_ed public_key in
  network_new join root_dir ;;;
  let! chunks := chunks_new root_dir max_capacity in
  let! d := get in
  let node := mkNode (mkNodeInfo root_dir reward_key) (us_new max_capacity) 0 {[0%nat := Adult chunks]} d w [] in
  let sent := on_network (send (e_routing e) (e_answers e) (register_wallet e reward_key)) node in
  lift sent.1 ;;;
  ret sent.2.

Inductive node_reachable (s0 : Node) : Node * list Thread → Prop :=
| nr_start : node_reachable s0 (s0, [])
| nr_step s s' : node_reachable s0 s → run_step s s' → node_reachable s0 s'.
End node.
