(* ===== verification/NodeRun.v ===== *)
(** The node as a state machine: the handling of a duty ends, a running task finds
    the role it was spawned for ([reachable_good]), errors of wrong roles are
    reported, and what a payout of rewards comes to. *)

From S2P Require Import Prelude Crates Messages Disk Toy StateDb F64 UsedSpace ChunkStore Network Messaging Capacity Chunks.
From S2P Require Import AdultLiveness BlobRecords ElderData RewardCalc RewardStage RewardProcess SectionFunds.
From S2P Require Import TransferStore Replicas Transfers EventMapping Metadata DataFlow Node.

Section run.
Context `{DO : DataOpsCrate} `{MC : !MessagingCrate} `{EC : !EncodingCrate} `{MO : !MessagingOps} `{WC : !WireCrate}
        `{SH : !ShuffleCrate}.
Context `{SMA : !Serde MapAddress} `{SM : !Serde Map} `{SSA : !Serde SequenceAddress} `{SS : !Serde Sequence}
        `{SRA : !Serde RegisterAddress} `{SR : !Serde Register} `{SBA : !Serde BlobAddress} `{SB : !Serde Blob}.
Context `{SN : !Serde XorName} `{SD : !Serde SignedDebit} `{SSC : !Serde SignedCredit} `{SC : !Serde Credit}
        `{SCP : !Serde CreditAgreementProof} `{SDC : !Serde DataCmd}
        `{DBG : !DebugT ReplicaEvent} `{PC : !PickleCrate ReplicaEvent} `{TC : !TransfersCrate}
        `{ED : !Ed25519Crate} `{EP : !EdPublic}.
Context (ELDER_SIZE : nat).

(** * What no step breaks *)

Definition is_elder_role (x : Role) : bool := match x with Elder _ => true | Adult _ => false end.

(** A payout that has not begun. *)
Definition funds_idle (f : SectionFunds) : Prop :=
  match f with KeepingNodeWallets _ => True | Churning p _ => stage p = AwaitingThreshold end.

(** The node has a role, roles have numbers up to that of the current one, and no
    payout has begun. *)
Record good (s : Node) : Prop := mkGood {
  good_role : is_Some (roles s !! role s);
  good_ids : ∀ id x, roles s !! id = Some x → (id ≤ role s)%nat;
  good_funds : ∀ id x, roles s !! id = Some (Elder x) → funds_idle (section_funds x);
}.

(** A step keeps the state good and the kind of every role. *)
Definition ok_step (s s' : Node) : Prop :=
  good s → good s' ∧
  ∀ id x, roles s !! id = Some x → ∃ x', roles s' !! id = Some x' ∧ is_elder_role x' = is_elder_role x.

#[export] Instance ok_step_preorder : PreOrder ok_step.
Proof.
  split.
  - intros s Hs. eauto.
  - intros s1 s2 s3 H12 H23 H1. destruct (H12 H1) as [H2 Hk12]. destruct (H23 H2) as [H3 Hk23]. split; [done|].
    intros id x Hx. destruct (Hk12 id x Hx) as (x2 & Hx2 & <-). apply Hk23, Hx2.
Qed.

Abbreviation kept m := (keeps ok_step m).

Lemma ok_step_roles s s' : roles s' = roles s → role s' = role s → ok_step s s'.
Proof. intros Hr Hc [Hcur Hi Hf]. split; [split; rewrite ?Hr, ?Hc; eauto|]. rewrite Hr. eauto. Qed.

Lemma update_role_ok id x y s :
  roles s !! id = Some y → is_elder_role x = is_elder_role y →
  (∀ el, x = Elder el → (∀ el', y = Elder el' → funds_idle (section_funds el')) → funds_idle (section_funds el)) →
  ok_step s (update_role id x s).
Proof.
  intros Hy Hk Hx [Hcur Hi Hf]. split; [split|]; simpl; [by apply lookup_insert_is_Some'; right|intros id' z..].
  - destruct (decide (id' = id)) as [->|Hne]; [|rewrite lookup_insert_ne by done]; eauto.
  - destruct (decide (id' = id)) as [->|Hne]; [rewrite lookup_insert_eq|rewrite lookup_insert_ne by done; eauto].
    intros [= ->]. apply Hx; [done|]. intros el' ->. eauto.
  - destruct (decide (id' = id)) as [->|Hne]; [rewrite lookup_insert_eq|rewrite lookup_insert_ne by done; eauto].
    intros Hz. exists x. split; [done|]. congruence.
Qed.

Lemma take_role_ok x s :
  (∀ el, x = Elder el → funds_idle (section_funds el)) → ok_step s (take_role x s).
Proof.
  intros Hx [Hcur Hi Hf]. split; [split|]; simpl; [rewrite lookup_insert_eq; eauto|intros id z..].
  - destruct (decide (id = S (role s))) as [->|Hne]; [lia|]. rewrite lookup_insert_ne by done. intros Hz%Hi. lia.
  - destruct (decide (id = S (role s))) as [->|Hne]; [rewrite lookup_insert_eq; intros [= ->]; eauto|].
    rewrite lookup_insert_ne by done. eauto.
  - intros Hz. pose proof (Hi id z Hz). rewrite lookup_insert_ne by lia. eauto.
Qed.

Lemma kept_zoom {A T} (g : Node → T) p (m : M Error T A) :
  (∀ t s, roles (p t s) = roles s ∧ role (p t s) = role s) → kept (zoom g p m).
Proof.
  intros Hp s. unfold zoom. destruct (m (g s)) as [r t]. simpl. destruct (Hp t s). by apply ok_step_roles.
Qed.

Lemma kept_with_elder {A} id (m : ElderRole → M Error Node A) : (∀ x, kept (m x)) → kept (with_elder id m).
Proof. intros Hm s. unfold with_elder. destruct (roles s !! id) as [[]|]; [reflexivity|apply Hm|reflexivity]. Qed.

Lemma kept_with_chunks {A} id (m : M Error Chunks A) : kept (with_chunks id m).
Proof.
  intros s. unfold with_chunks. destruct (roles s !! id) as [[c|]|] eqn:Hc; [|reflexivity|reflexivity].
  destruct (m (c, disk s)) as [r [c' d]]. simpl. etrans; [|eapply (update_role_ok _ _ (Adult c)); [exact Hc|done|done]].
  by apply ok_step_roles.
Qed.

(** An update of a part of an elder other than the funds. *)
Lemma kept_part id el el' s s1 :
  roles s !! id = Some (Elder el) → roles s1 = roles s → role s1 = role s → section_funds el' = section_funds el →
  ok_step s (update_role id (Elder el') s1).
Proof.
  intros Hel Hr Hc Hf. etrans; [by apply ok_step_roles|].
  apply (update_role_ok _ _ (Elder el)); [congruence|done|]. intros ? [= <-] Hidle. rewrite Hf. by apply Hidle.
Qed.

Lemma kept_with_meta {A} id (m : M Error Metadata A) : kept (with_meta id m).
Proof.
  intros s. unfold with_meta, with_elder. destruct (roles s !! id) as [[|el]|] eqn:Hel; [reflexivity| |reflexivity].
  destruct (m _) as [r [st d]]. by eapply kept_part.
Qed.

Lemma kept_with_transfers {A} e id (m : M Error (Replicas * DbWorld (T := ReplicaEvent)) A) :
  kept (with_transfers e id m).
Proof.
  intros s. unfold with_transfers, with_elder. destruct (roles s !! id) as [[|el]|] eqn:Hel; [reflexivity| |reflexivity].
  destruct (m _) as [r [R w]]. by eapply kept_part.
Qed.

Lemma kept_set_sync id : kept (set_received_initial_sync id).
Proof.
  intros s. unfold set_received_initial_sync, with_elder.
  destruct (roles s !! id) as [[|el]|] eqn:Hel; [reflexivity| |reflexivity]. by eapply kept_part.
Qed.

Lemma kept_with_funds {A} id (m : M Error SectionFunds A) :
  (∀ f, funds_idle f → funds_idle (m f).2) → kept (with_funds id m).
Proof.
  intros Hm s. unfold with_funds, with_elder. destruct (roles s !! id) as [[|el]|] eqn:Hel; [reflexivity| |reflexivity].
  specialize (Hm (section_funds el)). destruct (m _) as [r f]. simpl in *.
  apply (update_role_ok _ _ (Elder el)); [done|done|]. intros ? [= <-] Hidle. simpl. eauto.
Qed.

Lemma idle_on_wallets g f : funds_idle f → funds_idle (on_wallets g f).
Proof. by destruct f. Qed.

Lemma kept_as_elder : kept as_elder.
Proof. apply keeps_same; [apply _|]. intros s. unfold as_elder, bind, get. by destruct (roles s !! role s) as [[]|]. Qed.
Lemma kept_as_adult : kept as_adult.
Proof. apply keeps_same; [apply _|]. intros s. unfold as_adult, bind, get. by destruct (roles s !! role s) as [[]|]. Qed.

Hint Resolve ok_step_preorder kept_with_elder kept_with_chunks kept_with_meta kept_with_transfers kept_set_sync
  kept_as_elder kept_as_adult idle_on_wallets : node_keeps.

Ltac keep := repeat first
  [ keep_step | apply kept_with_funds; intros; solve [by apply idle_on_wallets | reflexivity | exact I] ].

Lemma kept_on_network {A} (m : M Error (list NetRequest) A) : kept (on_network m).
Proof. by apply kept_zoom. Qed.
Lemma kept_on_disk {A} (m : M Error Fs A) : kept (on_disk m).
Proof. by apply kept_zoom. Qed.
Hint Resolve kept_on_network kept_on_disk : node_keeps.

Lemma kept_push_state e id prefix msg_id peers : kept (push_state e id prefix msg_id peers).
Proof. unfold push_state, ask_transfers. keep. Qed.
Lemma kept_update_replicas e id : kept (update_replicas e id).
Proof. unfold update_replicas. keep. Qed.
Hint Resolve kept_push_state kept_update_replicas : node_keeps.

Lemma kept_level_up e : kept (level_up e).
Proof.
  unfold level_up. apply keeps_bind; [exact _|by apply kept_zoom|]. intros _.
  apply keeps_bind; [exact _|eauto 4 with node_keeps|]. intros s.
  apply keeps_bind; [exact _|eauto 4 with node_keeps|]. intros meta.
  apply keeps_bind; [exact _|by apply kept_zoom|]. intros R s1. simpl. apply take_role_ok. by intros ? [= <-].
Qed.
Hint Resolve kept_level_up : node_keeps.

Lemma kept_synch_state e id key nodes users meta : kept (synch_state e id key nodes users meta).
Proof. unfold synch_state. keep.
Qed.
Lemma kept_split_newbie e key prefix : kept (begin_split_as_newbie e key prefix).
Proof. unfold begin_split_as_newbie. keep.
Qed.
Hint Resolve kept_synch_state kept_split_newbie : node_keeps.

Lemma kept_handle e duty : kept (handle ELDER_SIZE e duty).
Proof.
  unfold handle, spawn_elder, spawn_adult, spawn. destruct duty; keep.
  intros s'. apply take_role_ok. done.
Qed.

Lemma kept_no_panic {A} (m : M Error Node A) : kept m → kept (no_panic m).
Proof. intros Hm s. specialize (Hm s). unfold no_panic. by destruct (m s). Qed.
Lemma kept_may_panic {A} (r : result stop A) : kept (may_panic r).
Proof. apply keeps_lift, _. Qed.
Hint Resolve kept_no_panic kept_may_panic : node_keeps.

Ltac keep_tasks := repeat first [ progress keep | apply kept_no_panic ].

Lemma kept_split_oldie e id prefix key sibling ours theirs : kept (begin_split_as_oldie e id prefix key sibling ours theirs).
Proof.
  unfold begin_split_as_oldie, split_payments. change (0 <? 0) with false. cbv iota. keep_tasks.
Qed.
Lemma kept_accumulation e id acc : kept (receive_reward_accumulation e id acc).
Proof. unfold receive_reward_accumulation. keep_tasks. Qed.
Hint Resolve kept_split_oldie kept_accumulation : node_keeps.

Lemma kept_run_thread e t : kept (run_thread e t).
Proof.
  destruct t as [id duty|id name duty|duty]; simpl.
  - apply keeps_bind; [exact _| |keep]. unfold run_elder, elders_changed, run_funds, run_transfers, process_data_payment, ask_transfers.
    destruct duty; keep_tasks.
  - apply kept_no_panic. unfold run_adult. destruct duty; keep.
  - apply kept_no_panic. unfold run_net. destruct duty; keep.
Qed.

(** * Tasks and their roles *)

(** The role of a task exists and is of the kind the task works on. *)
Definition thread_ok (s : Node) (t : Thread) : Prop :=
  match t with
  | ElderThread id _ => ∃ x, roles s !! id = Some (Elder x)
  | AdultThread id _ _ => ∃ c, roles s !! id = Some (Adult c)
  | NetThread _ => True
  end.

Lemma thread_ok_step s s' t : good s → ok_step s s' → thread_ok s t → thread_ok s' t.
Proof.
  intros Hs Hstep. destruct (Hstep Hs) as [_ Hk]. destruct t; simpl; [| |done].
  - intros [x Hx]. destruct (Hk _ _ Hx) as ([|x'] & Hx' & Hkind); [done|eauto].
  - intros [x Hx]. destruct (Hk _ _ Hx) as ([x'|] & Hx' & Hkind); [eauto|done].
Qed.

Lemma spawn_elder_cases duty s :
  (spawn_elder duty s = (Ok (TaskThread (ElderThread (role s) duty)), s) ∧ ∃ x, roles s !! role s = Some (Elder x)) ∨
  (spawn_elder duty s = (Err NotAnElder, s) ∧ ∀ x, roles s !! role s ≠ Some (Elder x)).
Proof.
  unfold spawn_elder, as_elder, bind, get. destruct (roles s !! role s) as [[]|]; simpl; [right|left|right]; eauto.
Qed.
Lemma spawn_adult_cases e duty s :
  (spawn_adult e duty s = (Ok (TaskThread (AdultThread (role s) (our_name (e_routing e)) duty)), s) ∧
   ∃ c, roles s !! role s = Some (Adult c)) ∨
  (spawn_adult e duty s = (Err NotAnAdult, s) ∧ ∀ c, roles s !! role s ≠ Some (Adult c)).
Proof.
  unfold spawn_adult, as_adult, bind, get. destruct (roles s !! role s) as [[]|]; simpl; [left|right|right]; eauto.
Qed.

(** The duty that answers a proposal: nothing, or one message. *)
Lemma proposal_duty r fresh prop p d :
  (receive_churn_proposal r fresh prop p).1 = Ok d → d = NoOp ∨ ∃ m, d = Send m.
Proof.
  unfold receive_churn_proposal, bind, get, lift, modify, ret. case_bool_decide; [done|].
  repeat (case_match; simplify_eq/=; try done); intros [= <-]; eauto.
Qed.

(** What handling a duty at once gives: at most one task on a role of its kind,
    or, for a proposal of rewards, at most one message. *)
Definition task_ok (x : result Error NodeTask * Node) : Prop :=
  match x with
  | (Ok TaskNone, _) | (Err _, _) => True
  | (Ok (TaskThread t), s') => thread_ok s' t
  | (Ok (TaskResult duties ctx), _) => ctx = None ∧ ∃ d, duties = [d] ∧ (d = NoOp ∨ ∃ m, d = Send m)
  end.

Lemma task_ok_bind {A} (m : M Error Node A) f s : (∀ a s, task_ok (f a s)) → task_ok (bind m f s).
Proof. intros Hf. unfold bind. destruct (m s) as [[a|e] s']; [apply Hf|done]. Qed.
Lemma task_ok_elder duty s : task_ok (spawn_elder duty s).
Proof. by destruct (spawn_elder_cases duty s) as [[-> ?]|[-> _]]. Qed.
Lemma task_ok_adult e duty s : task_ok (spawn_adult e duty s).
Proof. by destruct (spawn_adult_cases e duty s) as [[-> ?]|[-> _]]. Qed.
Lemma task_ok_none s : task_ok (ret TaskNone s).
Proof. done. Qed.
Hint Resolve task_ok_elder task_ok_adult task_ok_none task_ok_bind : node_keeps.

Lemma handle_task_ok e duty s : task_ok (handle ELDER_SIZE e duty s).
Proof.
  destruct duty; cbn [handle]; try (by eauto 6 with node_keeps); try done.
  - apply task_ok_bind. intros id s1. apply task_ok_bind. intros c s2. unfold bind, lift.
    destruct (receive_churn_proposal _ _ _ _).1 as [d|] eqn:Hd; [|done]. apply proposal_duty in Hd. simpl. eauto.
  - destruct newbie; [|eauto with node_keeps]. apply task_ok_bind. intros _ s1.
    destruct (_ && _); eauto 4 with node_keeps.
  - destruct newbie; eauto with node_keeps.
  - destruct m as [? []| | | | |]; eauto with node_keeps.
Qed.

(** * Termination of the handling of a duty *)

(** Duties that are handled at once or by one task of no role. *)
Definition quiet (d : NodeDuty) : Prop := d = NoOp ∨ (∃ m, d = Send m) ∨ ∃ m, d = SendError m.

Definition quiet_task (d : NodeDuty) : list Thread := match d with NoOp => [] | _ => [NetThread d] end.

Lemma quiet_threads fuel e d ctx s :
  quiet d → handle_and_get_threads ELDER_SIZE (S fuel) e d ctx s =
            Some (quiet_task d, s).
Proof. by intros [->|[[m ->]|[m ->]]]. Qed.

Lemma quiet_threads_ok d s : quiet d → Forall (thread_ok s) (quiet_task d).
Proof. intros [->|[[m ->]|[m ->]]]; repeat constructor. Qed.

Lemma try_handle_error_quiet err ctx : quiet (try_handle_error err ctx).
Proof. destruct ctx as [[[m|[]] src]|]; simpl; unfold quiet; eauto. Qed.

(** The tasks that come of what [handle] returns. *)
Definition new_tasks (out : Result NodeTask) (ctx : option MsgContext) : list Thread :=
  match out with
  | Ok TaskNone => []
  | Ok (TaskThread t) => [t]
  | Ok (TaskResult duties _) => duties ≫= quiet_task
  | Err err => quiet_task (try_handle_error err ctx)
  end.

Lemma threads_run e op ctx s fuel :
  (2 ≤ fuel)%nat →
  handle_and_get_threads ELDER_SIZE fuel e op ctx s =
    Some (new_tasks (handle ELDER_SIZE e op s).1 ctx, (handle ELDER_SIZE e op s).2).
Proof.
  pose proof (handle_task_ok e op s) as Hok. destruct fuel as [|[|fuel]]; [lia|lia|intros _].
  cbn [handle_and_get_threads]. destruct (handle ELDER_SIZE e op s) as [[[|duties ctx'|t]|err] s1]; simpl in Hok.
  - done.
  - destruct Hok as (-> & d & -> & Hd). assert (quiet d) as Hq by (unfold quiet; naive_solver).
    change (match handle_and_get_threads ELDER_SIZE (S fuel) e d None s1 with
            | Some (threads, s0) => Some (threads ++ [], s0) | None => None end =
            Some (quiet_task d ++ [], s1)). by rewrite quiet_threads.
  - done.
  - exact (quiet_threads fuel e _ ctx s1 (try_handle_error_quiet err ctx)).
Qed.

Lemma threads_total e op ctx s :
  ∃ new s', (∀ fuel, (2 ≤ fuel)%nat → handle_and_get_threads ELDER_SIZE fuel e op ctx s = Some (new, s')) ∧
    ok_step s s' ∧ Forall (thread_ok s') new.
Proof.
  pose proof (kept_handle e op s) as Hkept. pose proof (handle_task_ok e op s) as Hok.
  eexists _, _. split; [intros fuel; apply threads_run|]. split; [exact Hkept|].
  destruct (handle ELDER_SIZE e op s) as [[[|duties ctx'|t]|err] s1]; simpl in Hok |- *.
  - done.
  - destruct Hok as (-> & d & -> & Hd). cbn. rewrite app_nil_r. apply quiet_threads_ok. unfold quiet. naive_solver.
  - by constructor.
  - apply quiet_threads_ok, try_handle_error_quiet.
Qed.

Lemma handle_all_total e duties ctx s :
  good s → ∃ new s', handle_all ELDER_SIZE e duties ctx s = Some (new, s') ∧ ok_step s s' ∧ Forall (thread_ok s') new.
Proof.
  revert s. induction duties as [|d duties IH]; intros s Hs; [by eexists [], s|]. cbn [handle_all].
  destruct (threads_total e d ctx s) as (new & s1 & Hrun & Hstep & Hok). rewrite (Hrun 2%nat) by lia.
  destruct (Hstep Hs) as [Hs1 _]. destruct (IH s1 Hs1) as (more & s2 & -> & Hstep2 & Hok2).
  exists (new ++ more), s2. split; [done|]. split; [by etrans|]. apply Forall_app. split; [|done].
  eapply Forall_impl; [exact Hok|]. intros t. by apply thread_ok_step.
Qed.

Lemma on_result_total e res s :
  good s → (∀ t, res = Ok (TaskThread t) → thread_ok s t) →
  ∃ new s', on_result ELDER_SIZE e res s = Some (new, s') ∧ ok_step s s' ∧ Forall (thread_ok s') new.
Proof.
  intros Hs Ht. destruct res as [[|duties ctx|t]|[err|p]]; simpl; try (by eexists [], s).
  - by apply handle_all_total.
  - exists [t], s. split; [done|]. split; [done|]. constructor; [by apply Ht|constructor].
Qed.

(** A task never spawns a task. *)
Lemma run_thread_no_thread e t s t' : (run_thread e t s).1 ≠ Ok (TaskThread t').
Proof.
  destruct t as [id duty|id name duty|duty]; simpl; unfold bind, no_panic.
  - by destruct (run_elder e id duty s) as [[]].
  - by destruct (run_adult e id name duty s) as [[]].
  - unfold run_net. destruct duty; simpl; try done; unfold bind, lift;
      (destruct (get_section_elders _ _ _) || destruct (on_network _ s) as [[] ?]); done.
Qed.

(** * Reachable states *)

Lemma node_new_good e join gen root cap w d s : (node_new e join gen root cap w d).1 = Ok s → good s.
Proof.
  unfold node_new, bind at 1. destruct (reward_key root gen d) as [[key|] d1]; [|done].
  unfold bind at 1. destruct (network_new join root d1) as [[[]|] d2]; [|done].
  unfold bind at 1. destruct (chunks_new root cap d2) as [[c|] d3]; [|done]. unfold bind, get, lift, ret. cbn [fst snd].
  match goal with |- context [on_network ?m ?s0] =>
    pose proof (kept_on_network m s0) as Hstep; destruct (on_network m s0) as [[[]|] s1]; [|done] end.
  intros [= <-]. apply Hstep. split; simpl.
  - rewrite lookup_singleton_eq. eauto.
  - intros id x [<- _]%lookup_singleton_Some. lia.
  - intros id x [_ [=]]%lookup_singleton_Some.
Qed.

Lemma run_step_good s pool s' pool' :
  run_step ELDER_SIZE (s, pool) (s', pool') → good s → Forall (thread_ok s) pool → good s' ∧ Forall (thread_ok s') pool'.
Proof.
  inversion 1 as [e decode polls fuel event m ? ? new ? _ Hall|e t pool1 pool2 res ? s1 new ? Hrun Hres]; subst; intros Hs Hok.
  - destruct (handle_all_total e [op m] (ctx m) s Hs) as (new' & s2 & Hall' & Hstep & Hnew). simplify_eq.
    destruct (Hstep Hs) as [Hs' _]. split; [done|]. apply Forall_app. split; [|done].
    eapply Forall_impl; [exact Hok|]. intros t. by apply thread_ok_step.
  - pose proof (kept_run_thread e t s) as Hstep1. rewrite Hrun in Hstep1. destruct (Hstep1 Hs) as [Hs1 _].
    destruct (on_result_total e res s1) as (new' & s2 & Hres' & Hstep2 & Hnew); [done| |].
    { intros t' ->. pose proof (run_thread_no_thread e t s t'). by rewrite Hrun in *. }
    simplify_eq. destruct (Hstep2 Hs1) as [Hs' _]. split; [done|].
    apply Forall_app in Hok as [Hok1 [_ Hok2]%Forall_cons]. rewrite app_assoc, !Forall_app. split; [|done].
    rewrite <- Forall_app. eapply Forall_impl; [by apply Forall_app|]. intros u Hu.
    apply (thread_ok_step s1 s' u Hs1 Hstep2). by apply (thread_ok_step s s1 u Hs Hstep1).
Qed.

Lemma reachable_good s0 s pool : good s0 → node_reachable ELDER_SIZE s0 (s, pool) → good s ∧ Forall (thread_ok s) pool.
Proof.
  intros Hs0 Hr. remember (s, pool) as st eqn:Hst. revert s pool Hst.
  induction Hr as [|[s1 pool1] [s2 pool2] Hr IH Hstep]; intros s pool [= <- <-].
  - split; [done|constructor].
  - destruct (IH s1 pool1 eq_refl) as [Hg Hp]. by eapply run_step_good.
Qed.

(** * Properties *)

(** C21: the handling of a duty ends.  [handle_and_get_threads] calls itself for the
    duties that a duty leads to and for the report of an error, which could fail in
    turn; but two levels are always enough, and what is done at the second level
    does not change the node: its state is that after the duty itself, and one task
    at most is started, the task of the duty, of the message it sends or of the
    report of its error. *)
Theorem handling_ends e op ctx s fuel :
  (2 ≤ fuel)%nat →
  (length (new_tasks (handle ELDER_SIZE e op s).1 ctx) ≤ 1)%nat ∧
  handle_and_get_threads ELDER_SIZE fuel e op ctx s =
    Some (new_tasks (handle ELDER_SIZE e op s).1 ctx, (handle ELDER_SIZE e op s).2).
Proof.
  intros Hf. split; [|by apply threads_run]. pose proof (handle_task_ok e op s) as Hok.
  destruct (handle ELDER_SIZE e op s) as [[[|duties ctx'|t]|err] s1]; simpl in Hok |- *; [lia| |lia|].
  - destruct Hok as (_ & d & -> & _). cbn. destruct d; cbn; lia.
  - destruct (try_handle_error err ctx); cbn; lia.
Qed.

(** C24: rewards are never paid.  In every state the node gets to, no elder role
    is past the first stage of a payout (proposals and accumulations are handled
    by copies of the process), so handling an accumulation changes nothing, pays
    no credit and never ends the churn. *)
Theorem rewards_never_paid e0 join gen root cap w d s0 s pool e id acc :
  (node_new e0 join gen root cap w d).1 = Ok s0 → node_reachable ELDER_SIZE s0 (s, pool) →
  (∀ id x, roles s !! id = Some (Elder x) → funds_idle (section_funds x)) ∧
  match run_elder e id (ReceiveRewardAccumulation acc) s with
  | (Ok duties, s') => s' = s ∧ ∃ duty, duties = [duty] ∧
      ∀ m, duty = Send m → ∃ acc' fresh, msg m = MtNode (NmNodeCmd (NcSystem (AccumulateRewardPayout acc')) fresh)
  | (Err _, s') => s' = s
  end.
Proof.
  intros Hnew%node_new_good Hr. destruct (reachable_good _ _ _ Hnew Hr) as [Hs _].
  pose proof (good_funds _ Hs) as Hidle. split; [done|]. cbn [run_elder].
  unfold receive_reward_accumulation, bind, no_panic, with_elder.
  destruct (roles s !! id) as [[c|x]|] eqn:Hx; [done| |done]. specialize (Hidle id x Hx). unfold lift.
  destruct (section_funds x) as [|p wallets]; [done|]. cbn [as_churning_mut map_err fst snd].
  destruct (receive_wallet_accumulation _ _ _ p) as [[op|] p'] eqn:Hop; [|done]. simpl in Hidle |- *. rewrite Hidle.
  split; [done|]. exists op. split; [done|]. intros m ->. revert Hop.
  unfold receive_wallet_accumulation, bind at 1, get. case_bool_decide; [done|]. rewrite Hidle.
  unfold start_accumulating, bind, get, lift, modify, ret. repeat (case_match; try done).
  intros [= <- _]. simpl. eauto.
Qed.

(** * Errors *)

(** The role a duty needs ([true]: elder), if any. *)
Definition needs_role (duty : NodeDuty) : option bool :=
  match duty with
  | EldersChanged _ _ _ newbie | SectionSplit _ _ _ _ _ newbie => if newbie then None else Some true
  | ReceiveRewardProposal _ | ReceiveRewardAccumulation _ | SetNodeWallet _ _ | GetNodeWalletKey _ _ _
  | ProcessLostMember _ _ | SynchState _ _ _ | GetTransferReplicaEvents _ _ | PropagateTransfer _ _ _
  | ValidateClientTransfer _ _ _ | SimulatePayout _ _ _ | GetTransfersHistory _ _ _ _ | GetBalance _ _ _
  | GetStoreCost _ _ _ | RegisterTransfer _ _ _ | ProcessRepublish _ _ | IncrementFullNodeCount _
  | ProcessRead _ _ _ _ | ProcessWrite _ _ _ _ | RecordAdultReadLiveness _ _ _
  | ProcessDataPayment (PmCmd _ (CmdData _ _) _) _ => Some true
  | AdultsChanged _ _ _ | ReadChunk _ _ | WriteChunk _ _ _ | ReplicateChunk _ _ => Some false
  | _ => None
  end.
Definition role_error (elder : bool) : Error := if elder then NotAnElder else NotAnAdult.

Lemma wrong_role e duty elder s x :
  needs_role duty = Some elder → roles s !! role s = Some x → is_elder_role x = negb elder →
  handle ELDER_SIZE e duty s = (Err (role_error elder), s).
Proof.
  intros Hneeds Hx Hkind.
  assert (elder = true → ∀ d, spawn_elder d s = (Err NotAnElder, s)) as He.
  { intros -> d. destruct (spawn_elder_cases d s) as [[_ [el Hel]]|[-> _]]; [|done]. rewrite Hx in Hel. by simplify_eq. }
  assert (elder = false → ∀ d, spawn_adult e d s = (Err NotAnAdult, s)) as Ha.
  { intros -> d. destruct (spawn_adult_cases e d s) as [[_ [el Hel]]|[-> _]]; [|done]. rewrite Hx in Hel. by simplify_eq. }
  destruct duty; simpl in Hneeds; try discriminate;
    repeat (case_match; try discriminate); simplify_eq; simpl; auto.
  unfold bind at 1, as_elder, bind, get. rewrite Hx. by destruct x.
Qed.

(** C38: which errors a sender hears of.  A duty that needs the other role changes
    nothing, and if a client's message led to it the client is told so in an
    error message; the error of a task is not reported to anyone. *)
Theorem role_errors_reported e duty elder s x pmsg src err :
  needs_role duty = Some elder → roles s !! role s = Some x → is_elder_role x = negb elder →
  handle_all ELDER_SIZE e [duty] (Some (mkMsgContext (MtClient (CmProcess pmsg)) src)) s =
    Some ([NetThread (SendError (mkOutgoingLazyError
             (create_processing_error pmsg (Some (convert_to_error_message (role_error elder)))) (src_to_dst src)))], s) ∧
  on_result ELDER_SIZE e (Err (Fail err)) s = Some ([], s).
Proof.
  intros Hneeds Hx Hkind. split; [|done]. cbn [handle_all handle_and_get_threads].
  by rewrite (wrong_role e duty elder s x).
Qed.
End run.

(** A node over the toy crates. *)
Module ToyNode.
Import ToyCrates ToySerde ToyRouting ToyPickle ToyTransfers ToyElderData ToyWire ToyEd.

#[export] Instance credit_serde : Serde Credit := {| ser _ := Ok []; de _ := Err tt |}.
Definition keys9 : PublicKeySet := (9%N, 1%nat).
Definition sig0 : BlsSignature := 1%N.
Definition toy_env (r : Routing) : Env :=
  mkEnv r [9%N : BlsPublicKey] (key 30) (λ _, Ok tt) (λ i, mid (N.of_nat i)) (λ x _, x) false keys9 sig0 false.
Definition no_dbs : ToyWorld ReplicaEvent := mkToyWorld ∅ [].
Definition no_decode : list byte → result MessagingError NodeMsg := λ _, Err tt.
#[export] Instance toy_ed_public : EdPublic := λ b, key (Byte.to_N b).

(** The network of one node, that lets everyone join. *)
Definition net1 : Routing := toy_routing [mkPeer (nm 0) 5] [] root_prefix.
Definition joins : option EdKeypair → Joining := λ k, Joined [default x05 k; x00].
Definition gen0 : EdKeypair := x0a.

(** The node after it started. *)
Definition start := node_new (toy_env net1) joins gen0 ["node"] 1000 no_dbs (mkFs ∅ ∅ []).
Definition started : Node :=
  match start.1 with
  | Ok s => s
  | Err _ => mkNode (mkNodeInfo [] (key 0)) (us_new 0) 0 ∅ (mkFs ∅ ∅ []) no_dbs []
  end.
Lemma started_new : start.1 = Ok started.
Proof.
  assert (is_ok start.1 = true) as Hok by (vm_compute; reflexivity).
  unfold started. destruct start.1; [reflexivity|discriminate Hok].
Qed.

(** One event. *)
Definition after_event (e : Env) (event : RoutingEvent) (st : Node * list Thread) : Node * list Thread :=
  match map_routing_event no_decode (e_fresh e 0) (λ _, Ok keys9) 242 event (e_routing e) with
  | Some m => match handle_all 7 e [op m] (ctx m) st.1 with Some (new, s') => (s', st.2 ++ new) | None => st end
  | None => st
  end.
Lemma after_event_reachable s0 e event st :
  node_reachable 7 s0 st → node_reachable 7 s0 (after_event e event st).
Proof.
  destruct st as [s pool]. intros Hr. unfold after_event. destruct (map_routing_event _ _ _ _ _ _) as [m|] eqn:Hm; [|exact Hr].
  destruct (handle_all 7 e [op m] (ctx m) s) as [[new s']|] eqn:Hh; cbn [fst snd]; rewrite Hh; [|exact Hr].
  eapply nr_step; [exact Hr|]. exact (step_event 7 e no_decode (λ _, Ok keys9) 242 event m s pool new s' Hm Hh).
Qed.

(** The first node of the network becomes its elder, and a client asks for a balance. *)
Definition first_elder : Node * list Thread :=
  after_event (toy_env net1) (EvEldersChanged (mkElders root_prefix (9%N : BlsPublicKey) ∅) Promoted) (started, []).
Definition signer : ClientSigned := 4%N.
Definition balance_query : ProcessMsg := PmQuery (mid 5) (QueryTransfer (GetBalanceQuery (key 20))) signer.
Definition asked : Node * list Thread :=
  after_event (toy_env net1) (ClientMsgReceived (CmProcess balance_query) (usr 6)) first_elder.
End ToyNode.

Module Witness.
Import ToyCrates ToySerde ToyRouting ToyPickle ToyTransfers ToyElderData ToyWire ToyEd ToyNode.

Lemma asked_reachable : node_reachable 7 started (asked.1, asked.2).
Proof.
  assert ((asked.1, asked.2) = asked) as -> by (by destruct asked).
  apply after_event_reachable, after_event_reachable, nr_start.
Qed.

(** The node is an elder by now, with one task. *)
Example asked_pool :
  match asked.2 with [ElderThread 1 (GetBalance _ _ _)] => true | _ => false end &&
  match roles asked.1 !! 0%nat with Some (Adult _) => true | _ => false end &&
  match roles asked.1 !! 1%nat with Some (Elder _) => true | _ => false end = true.
Proof. vm_compute. reflexivity. Qed.

(** A query that only an elder can answer, handled before the promotion. *)
Lemma handling_ends_witness :
  handle_and_get_threads 7 2 (toy_env net1) (GetBalance (key 20) (mid 5) (SrcEndUser (usr 6)))
    (Some (mkMsgContext (MtClient (CmProcess balance_query)) (SrcEndUser (usr 6)))) started =
  Some ([NetThread (SendError (mkOutgoingLazyError
           (create_processing_error balance_query (Some (convert_to_error_message NotAnElder))) (DstEndUser (usr 6))))], started).
Proof.
  destruct (handling_ends 7 (toy_env net1) (GetBalance (key 20) (mid 5) (SrcEndUser (usr 6)))
    (Some (mkMsgContext (MtClient (CmProcess balance_query)) (SrcEndUser (usr 6)))) started 2 (le_n 2)) as [_ Hrun].
  assert (match roles started !! role started with Some (Adult _) => true | _ => false end = true) as Hr
    by (vm_compute; reflexivity).
  destruct (roles started !! role started) as [[c|]|] eqn:Hx; [|discriminate Hr|discriminate Hr].
  exact (eq_trans Hrun (f_equal (λ out, Some (new_tasks out.1 (Some (mkMsgContext (MtClient (CmProcess balance_query)) (SrcEndUser (usr 6)))), out.2))
    (wrong_role 7 (toy_env net1) (GetBalance (key 20) (mid 5) (SrcEndUser (usr 6))) true started (Adult c) eq_refl Hx eq_refl))).
Defined.

Definition acc0 : RewardAccumulation := mkRewardAccumulation (key 9) [].
Lemma rewards_never_paid_witness :
  (∀ id x, roles asked.1 !! id = Some (Elder x) → funds_idle (section_funds x)) ∧
  match run_elder (toy_env net1) 1 (ReceiveRewardAccumulation acc0) asked.1 with
  | (Ok duties, s') => s' = asked.1 ∧ ∃ duty, duties = [duty] ∧
      ∀ m, duty = Send m → ∃ acc' fresh, msg m = MtNode (NmNodeCmd (NcSystem (AccumulateRewardPayout acc')) fresh)
  | (Err _, s') => s' = asked.1
  end.
Proof.
  exact (rewards_never_paid 7 (toy_env net1) joins gen0 ["node"] 1000 no_dbs (mkFs ∅ ∅ []) started asked.1 asked.2 (toy_env net1) 1 acc0
           started_new asked_reachable).
Defined.

(** The same query before the promotion. *)
Lemma role_errors_reported_witness :
  handle_all 7 (toy_env net1) [GetBalance (key 20) (mid 5) (SrcEndUser (usr 6))]
    (Some (mkMsgContext (MtClient (CmProcess balance_query)) (SrcEndUser (usr 6)))) started =
  Some ([NetThread (SendError (mkOutgoingLazyError
           (create_processing_error balance_query (Some (convert_to_error_message NotAnElder))) (DstEndUser (usr 6))))], started).
Proof.
  assert (match roles started !! role started with Some (Adult _) => true | _ => false end = true) as Hr
    by (vm_compute; reflexivity).
  destruct (roles started !! role started) as [[c|]|] eqn:Hx; [|discriminate Hr|discriminate Hr].
  exact (proj1 (role_errors_reported 7 (toy_env net1) (GetBalance (key 20) (mid 5) (SrcEndUser (usr 6))) true started
                  (Adult c) balance_query (SrcEndUser (usr 6)) NotAnElder eq_refl Hx eq_refl)).
Defined.
End Witness.
