(* ===== verification/Start.v ===== *)
(** [src/bin/sn_node.rs]: how the program starts a node, from its configuration
    to the first event: it may print completions or update itself instead, and
    it tries to join until the network lets it in.

    The update is [self_update] and the logger [flexi_logger] ([init_logging] of
    [utils.rs] sets it up); their results are arguments, as is what each attempt to join meets ([Attempt]).  Messages to
    the user are left out.  [process::exit] ends the program: [Exited]. *)

From Stdlib Require Import Strings.String.
From S2P Require Import Prelude Crates Messages Disk Toy StateDb Config F64 UsedSpace ChunkStore Network Messaging Capacity Chunks.
From S2P Require Import AdultLiveness BlobRecords ElderData StoreFrame RewardCalc RewardStage RewardProcess SectionFunds.
From S2P Require Import TransferStore Replicas Transfers EventMapping Metadata ElderDb DataFlow Node NodeRun.

Section start.
Context `{DO : DataOpsCrate} `{MC : !MessagingCrate} `{EC : !EncodingCrate} `{MO : !MessagingOps} `{WC : !WireCrate}
        `{SH : !ShuffleCrate}.
Context `{SBA : !Serde BlobAddress} `{SB : !Serde Blob}.
Context `{SN : !Serde XorName} `{SD : !Serde SignedDebit} `{SSC : !Serde SignedCredit} `{SC : !Serde Credit}
        `{SCP : !Serde CreditAgreementProof} `{SDC : !Serde DataCmd}
        `{DBG : !DebugT ReplicaEvent} `{PC : !PickleCrate ReplicaEvent} `{TC : !TransfersCrate}
        `{ED : !Ed25519Crate} `{EP : !EdPublic}.
Context {TransportRest : Type}.
Abbreviation Config := (Config.Config (TransportRest := TransportRest)).
Context (home : option PathBuf) (cwd : path).
Context `{JC : !Json Config} `{JOC : !Json (option Config)} `{JS : !Json (gset SocketAddr)} `{JL : !Json (list SocketAddr)}
        `{JI : !JsonIo}.
(** [sn_routing::Error::TryJoinLater] *)
Context (is_try_join_later : RoutingError → bool).

(** * The program *)

(** [self_update::Status] *)
Inductive Status : Type :=
| UpToDate (version : string)
| Updated (version : string).

(** [update]: the list of releases may not be found, and may be empty. *)
Definition self_update (fetched : option bool) (updated : option Status) : option Status :=
  match fetched with
  | None => None
  | Some releases_is_empty =>
      if negb releases_is_empty then updated
      else Some (UpToDate "No releases are available for updates")
  end.

(** What an attempt to join meets, and the key it would generate. *)
Record Attempt : Type := mkAttempt {
  at_env : Env;
  at_join : option EdKeypair → Joining;
  at_gen : EdKeypair;
}.

Inductive Startup : Type :=
| Running (node : Node)
| Waiting
| Finished
| Exited (code : Z).

(** [Node::new] with a configuration. *)
Definition node_from_config (config : Config) (w : DbWorld) (a : Attempt) : M Error Fs Node :=
  let! root := lift (Config.root_dir home config) in
  node_new (at_env a) (at_join a) (at_gen a) (path_resolve cwd root) (max_capacity_of config) w.

(** The loop of [run_node]; the node still waits when the attempts end. *)
Fixpoint join_loop (config : Config) (w : DbWorld) (attempts : list Attempt) (fs : Fs) : Startup * Fs :=
  match attempts with
  | [] => (Waiting, fs)
  | a :: attempts =>
      match node_from_config config w a fs with
      | (Ok node, fs') => (Running node, fs')
      | (Err (RoutingE err), fs') =>
          if is_try_join_later err then join_loop config w attempts fs' else (Exited 1, fs')
      | (Err _, fs') => (Exited 1, fs')
      end
  end.

Definition run_node (default args : Config) (logging : bool) (fetched : option bool) (updated : option Status)
    (conn_info : SocketAddr) (w : DbWorld) (attempts : list Attempt) (fs : Fs) : Startup * Fs :=
  match config_new home cwd default args fs with
  | (Err _, fs) => (Exited 1, fs)
  | (Ok config, fs) =>
      if bool_decide (is_Some (completions config)) then (Finished, fs) else
      if negb logging then (Exited 1, fs) else
      if (update config || update_only config) &&
         match self_update fetched updated with Some (Updated _) => true | _ => false end then (Exited 0, fs) else
      if update_only config then (Exited 0, fs) else
      match join_loop config w attempts fs with
      | (Running node, fs) =>
          let fs := ((if is_first config then set_connection_info home cwd conn_info
                      else add_connection_info home cwd conn_info) fs).2 in
          (Running (set_disk fs node), fs)
      | outcome => outcome
      end
  end.

(** * Facts *)

Context `{EL : !EncodingLaws} `{EDL : !Ed25519Laws} `{DL : !DataOpsLaws} `{SBAL : !SerdeLaws BlobAddress}.

Definition key_file (root : path) : path := join root REWARD_PUBLIC_KEY_FILENAME.
Definition network_file (root : path) : path := join root NETWORK_KEYPAIR_FILENAME.
Definition blob_dir (root : path) : path := join (join root CHUNK_STORE_DIR) (subdir (T := Blob)).
Definition hex_file (bytes : list byte) : list byte := list_byte_of_string (hex_encode bytes).

(** A healthy disk with the given reward key, if any, and nothing else of a node. *)
Record site (root : path) (key : option EdPublicKey) (fs : Fs) : Prop := mkSite {
  site_faults : faults fs = [];
  site_key : files fs !! key_file root = hex_file ∘ public_bytes <$> key;
  site_network : files fs !! network_file root = None;
  site_blobs : fresh_dir (blob_dir root) fs;
}.

(** The files directly below the root are not in the directory of the blobs. *)
Lemma root_file_not_blob root n q :
  take (length (blob_dir root)) q = blob_dir root → q ≠ join root n.
Proof.
  intros Hq ->. apply (f_equal length) in Hq. rewrite length_take in Hq. unfold blob_dir, join in Hq.
  rewrite !length_app in Hq. simpl in Hq. lia.
Qed.

Lemma site_reward_key root key gen fs :
  site root key fs →
  ∃ fs', reward_key root gen fs = (Ok (default (ed_public gen) key), fs') ∧ root ∈ dirs fs' ∧
         site root (Some (default (ed_public gen) key)) fs'.
Proof.
  intros [Hf Hk Hn Hb]. unfold reward_key, bind, io, fs_create_dir_all. rewrite syscall_none by done. cbn [map_err modify].
  set (fs0 := set_dirs _ fs). assert (root ∈ dirs fs0) as Hd by apply elem_of_union_l, elem_of_dir_prefixes.
  destruct key as [pk|]; cbn in Hk.
  - rewrite (get_reward_pk_none root pk fs0) by done. exists fs0. done.
  - unfold get_reward_pk, bind at 1. rewrite is_file_run. cbn [files fs0 set_dirs]. fold (key_file root). rewrite Hk.
    cbn [negb bool_decide]. change (bool_decide (is_Some (None : option (list byte)))) with false. cbn [negb ret].
    destruct (store_reward_none root gen fs0) as (fs1 & -> & Hf1 & Hd1 & Hp1); [done|done|]. exists fs1. split; [done|].
    split; [by rewrite Hd1|]. fold (key_file root) in Hp1. split; [done|..].
    + rewrite Hp1. by rewrite decide_True.
    + rewrite Hp1, !decide_False; [done|by intros [_ ?]%join_inj..].
    + intros q Hq. rewrite Hp1, !decide_False; [by apply Hb|by eapply root_file_not_blob..].
Qed.

Lemma get_network_none root fs : files fs !! network_file root = None → get_network_keypair root fs = (Ok None, fs).
Proof. intros Hn. unfold get_network_keypair, bind. rewrite is_file_run. fold (network_file root). by rewrite Hn. Qed.

(** An attempt that the network turns down for now. *)
Definition refused (a : Attempt) : Prop := ∃ err, at_join a None = JoinFailed err ∧ is_try_join_later err = true.

Lemma node_new_refused root key cap w a fs :
  site root key fs → refused a →
  ∃ err fs', node_new (at_env a) (at_join a) (at_gen a) root cap w fs = (Err (RoutingE err), fs') ∧
    is_try_join_later err = true ∧ site root (Some (default (ed_public (at_gen a)) key)) fs'.
Proof.
  intros Hs (err & Hj & Herr). destruct (site_reward_key root key (at_gen a) fs Hs) as (fs1 & Hk & _ & Hs1).
  exists err, fs1. split; [|done]. unfold node_new, bind at 1. rewrite Hk. unfold bind at 1, network_new, bind at 1.
  rewrite get_network_none by apply Hs1. by rewrite Hj.
Qed.

(** An attempt that is let in, and whose wallet is registered. *)
Definition admitted (a : Attempt) (keypair_as_bytes : list byte) : Prop :=
  at_join a None = Joined keypair_as_bytes ∧
  ∀ key, (send (e_routing (at_env a)) (e_answers (at_env a)) (register_wallet (at_env a) key) []).1 = Ok tt.

(** The two key files. *)
Definition keys_kept (root : path) (key : EdPublicKey) (keypair_as_bytes : list byte) (fs : Fs) : Prop :=
  faults fs = [] ∧ files fs !! key_file root = Some (hex_file (public_bytes key)) ∧
  files fs !! network_file root = Some (hex_file keypair_as_bytes).

Lemma not_blob_child root n : child_name (blob_dir root) (join root n) = None.
Proof.
  destruct (child_name _ _) as [k|] eqn:Hk; [|done]. apply child_name_Some in Hk. apply (f_equal length) in Hk.
  unfold blob_dir, join in Hk. rewrite !length_app in Hk. simpl in Hk. lia.
Qed.

Lemma node_new_admitted root key cap w a bytes fs :
  site root key fs → admitted a bytes → 0 ≤ cap ≤ u64_max →
  ∃ node chunks fs', node_new (at_env a) (at_join a) (at_gen a) root cap w fs = (Ok node, fs') ∧ disk node = fs' ∧
    node_info node = mkNodeInfo root (pk_of_ed (default (ed_public (at_gen a)) key)) ∧
    roles node !! role node = Some (Adult chunks) ∧
    holds (T := Blob) (Id := BlobAddress) (chunks, fs') (λ _, None) ∧
    keys_kept root (default (ed_public (at_gen a)) key) bytes fs'.
Proof.
  intros Hs [Hj Hsend] Hcap. destruct (site_reward_key root key (at_gen a) fs Hs) as (fs1 & Hk & Hd & [Hf1 Hk1 Hn1 Hb1]).
  unfold node_new, bind at 1. rewrite Hk. unfold bind at 1, network_new, bind at 1.
  rewrite get_network_none by done. rewrite Hj. unfold store_network_keypair. fold (network_file root).
  rewrite write_hex_none by (done || unfold network_file; by rewrite parent_join). fold (hex_file bytes).
  set (fs2 := set_files _ fs1).
  destruct (cs_new_holds (T := Blob) (Id := BlobAddress) root cap fs2) as (st & fs3 & Hnew & Hh & _ & [_ Hf3 Hb3]); [done|done| |].
  { intros q Hq. cbn [fs2 files set_files]. rewrite lookup_insert_ne; [by apply Hb1|].
    intros He. by eapply root_file_not_blob. }
  unfold bind at 1, chunks_new, storage_new. rewrite Hnew. unfold bind, get, lift, ret, on_network, zoom. cbn [requests].
  specialize (Hsend (pk_of_ed (default (ed_public (at_gen a)) key))).
  destruct (send _ _ _ []) as [r q]. cbn [fst] in Hsend. subst r. cbn [fst snd].
  eexists _, st, fs3. split; [done|]. split; [done|]. split; [done|]. split; [apply lookup_singleton_eq|]. split; [done|].
  split; [by apply Hf3|]. unfold blob_dir in *. split; rewrite Hb3 by apply not_blob_child; cbn [fs2 files set_files].
  - rewrite lookup_insert_ne by (by intros [_ ?]%join_inj). by rewrite Hk1.
  - apply lookup_insert_eq.
Qed.

Lemma join_loop_admitted config w root path attempts a bytes key fs :
  Config.root_dir home config = Ok path → path_resolve cwd path = root → 0 ≤ max_capacity_of config ≤ u64_max →
  Forall refused attempts → admitted a bytes → site root key fs →
  let key := default (ed_public (at_gen (hd a attempts))) key in
  ∃ node chunks fs', join_loop config w (attempts ++ [a]) fs = (Running node, fs') ∧
    node_info node = mkNodeInfo root (pk_of_ed key) ∧ roles node !! role node = Some (Adult chunks) ∧
    holds (T := Blob) (Id := BlobAddress) (chunks, fs') (λ _, None) ∧ keys_kept root key bytes fs'.
Proof.
  intros Hroot <- Hcap Hrefused Ha. revert key fs.
  induction Hrefused as [|x attempts Hx _ IH]; intros key fs Hs; cbn [app join_loop]; unfold node_from_config, bind, lift; rewrite Hroot.
  - destruct (node_new_admitted _ key _ w a bytes fs Hs Ha Hcap) as (node & chunks & fs' & Hrun & _ & Hrest).
    rewrite Hrun. exists node, chunks, fs'. done.
  - destruct (node_new_refused _ key (max_capacity_of config) w x fs Hs Hx) as (err & fs1 & Hrun & Herr & Hs1).
    rewrite Hrun, Herr. exact (IH _ _ Hs1).
Qed.

(** * Connection info *)

(** What the writing of connection info leaves alone. *)
Definition spares_nodes (fs fs' : Fs) : Prop :=
  (faults fs = [] → faults fs' = []) ∧
  ∀ dir n, n ≠ CONNECTION_INFO_FILE → files fs' !! join dir n = files fs !! join dir n.

#[local] Instance spares_nodes_preorder : PreOrder spares_nodes.
Proof.
  split; [by intros fs; split|]. intros fs1 fs2 fs3 [Hf1 Hp1] [Hf2 Hp2]. split; [auto|]. intros dir n Hn. by rewrite Hp2, Hp1.
Qed.

Lemma spares_fault fs : spares_nodes fs (next_fault fs).2.
Proof. split; [intros Hf; by rewrite next_fault_none|]. intros dir n _. by rewrite next_fault_files. Qed.

Lemma spares_syscall {A} (k : M IoError Fs A) : keeps spares_nodes k → keeps spares_nodes (syscall k).
Proof.
  intros Hk fs. unfold syscall. pose proof (spares_fault fs) as Hf. destruct (next_fault fs) as [[j|] fs1]; [done|].
  etrans; [exact Hf|apply Hk].
Qed.

Lemma spares_io {A} (m : M IoError Fs A) : keeps spares_nodes m → keeps spares_nodes (io m).
Proof. intros Hm fs. specialize (Hm fs). unfold io. by destruct (m fs). Qed.

(** A change of the file itself. *)
Lemma spares_own dir g fs :
  (∀ p, p ≠ join dir CONNECTION_INFO_FILE → g !! p = files fs !! p) → spares_nodes fs (set_files g fs).
Proof. intros Hg. split; [done|]. intros dir' n Hn. apply Hg. by intros [_ ?]%join_inj. Qed.

Lemma spares_create dir : keeps spares_nodes (fs_create (join dir CONNECTION_INFO_FILE)).
Proof.
  apply spares_syscall. intros fs. case_decide; [|done]. eapply spares_own. intros p Hp. by rewrite lookup_insert_ne.
Qed.

Lemma spares_write dir pos bytes : keeps spares_nodes (fs_write_all (join dir CONNECTION_INFO_FILE) pos bytes).
Proof.
  intros fs. unfold fs_write_all. pose proof (spares_fault fs) as Hf. destruct (next_fault fs) as [[j|] fs1];
    (etrans; [exact Hf|]); eapply spares_own; intros p Hp; by rewrite lookup_alter_ne.
Qed.

Lemma spares_read {T} `{!Json T} p : keeps spares_nodes (json_from_reader (T := T) p).
Proof.
  intros fs. unfold json_from_reader, fs_read_to_end. pose proof (spares_fault fs) as Hf.
  by destruct (next_fault fs) as [[j|] fs1].
Qed.

Lemma spares_create_dir_all p : keeps spares_nodes (fs_create_dir_all p).
Proof. apply spares_syscall. by intros fs. Qed.
Lemma spares_sync_all p : keeps spares_nodes (fs_sync_all p).
Proof. apply spares_syscall. by intros fs. Qed.
Lemma spares_open p : keeps spares_nodes (fs_open p).
Proof. apply spares_syscall. by intros fs. Qed.

#[local] Hint Resolve spares_io spares_create spares_write spares_read spares_create_dir_all spares_sync_all spares_open
  keeps_lift keeps_throw keeps_ret spares_nodes_preorder : node_keeps.

Lemma write_conn_info_spares {T} `{!Json T} (x : T) : keeps spares_nodes (write_file home cwd CONNECTION_INFO_FILE x).
Proof.
  unfold write_file. apply keeps_bind; [exact _|repeat keep_step|]. intros dir. rewrite resolve_join. repeat keep_step.
Qed.

Lemma connection_info_spares (config : Config) a :
  keeps spares_nodes (if is_first config then set_connection_info home cwd a else add_connection_info home cwd a).
Proof.
  destruct (is_first config); [apply write_conn_info_spares|]. apply keeps_bind; [exact _| |intros; apply write_conn_info_spares].
  apply keeps_try. unfold read_conn_info_from_file. repeat keep_step.
Qed.

(** * Properties *)

(** C29: a node that the network turns down waits and tries again, for as many
    attempts as it takes, and all of them are made under one reward key, the one
    the first attempt generated: when the node is let in it runs as an adult
    with that key and with the key pair it joined with, and any later start in
    the same directory finds the same reward key. *)
Theorem start_under_one_reward_key default args config dir fetched updated conn_info w attempts a bytes fs0 fs :
  config_new home cwd default args fs0 = (Ok config, fs) →
  completions config = None → update config = false → update_only config = false →
  Config.root_dir home config = Ok dir → 0 ≤ max_capacity_of config ≤ u64_max →
  site (path_resolve cwd dir) None fs → Forall refused attempts → admitted a bytes →
  let root := path_resolve cwd dir in
  let key := ed_public (at_gen (hd a attempts)) in
  ∃ node chunks fs',
    run_node default args true fetched updated conn_info w (attempts ++ [a]) fs0 = (Running node, fs') ∧
    disk node = fs' ∧ node_info node = mkNodeInfo root (pk_of_ed key) ∧ roles node !! role node = Some (Adult chunks) ∧
    keys_kept root key bytes fs' ∧
    ∀ gen, (reward_key root gen fs').1 = Ok key.
Proof.
  intros Hcfg Hcomp Hup Honly Hdir Hcap Hsite Hrefused Ha root key.
  destruct (join_loop_admitted config w root dir attempts a bytes None fs) as (node & chunks & fs1 & Hrun & Hinfo & Hrole & _ & Hkeys);
    [done..|].
  pose proof (connection_info_spares config conn_info fs1) as [Hf Hp].
  set (fs' := (_ fs1).2) in Hf, Hp.
  exists (set_disk fs' node), chunks, fs'. destruct Hkeys as (Hf1 & Hk1 & Hn1).
  assert (keys_kept root key bytes fs') as Hkept.
  { split; [by apply Hf|]. unfold key_file, network_file in *. by rewrite !Hp. }
  split.
  { unfold run_node. rewrite Hcfg, Hcomp, Hup, Honly. cbn [orb andb negb bool_decide].
    change (bool_decide (is_Some (None : option string))) with false. by rewrite Hrun. }
  split; [done|]. split; [done|]. split; [done|]. split; [exact Hkept|]. intros gen.
  destruct Hkept as (Hf' & Hk' & _). unfold reward_key, bind, io, fs_create_dir_all. rewrite syscall_none by done. cbn [map_err modify].
  by rewrite (get_reward_pk_none root key) by done.
Qed.
End start.

Module Witness.
Import ToyCrates ToySerde ToyRouting ToyPickle ToyTransfers ToyElderData ToyWire ToyEd ToyNode.

#[local] Instance json_cfg : Json (Config.Config (TransportRest := unit)) :=
  {| json_ser _ := Ok [x01]; json_de _ := Ok Config.Witness.lan |}.
#[local] Instance json_opt : Json (option (Config.Config (TransportRest := unit))) :=
  {| json_ser _ := Ok [x01]; json_de _ := Ok (Some Config.Witness.lan) |}.
#[local] Instance json_set : Json (gset SocketAddr) := {| json_ser _ := Ok [x02]; json_de _ := Ok ∅ |}.
#[local] Instance json_list : Json (list SocketAddr) := {| json_ser _ := Ok [x02]; json_de _ := Ok [] |}.
#[local] Instance json_io : JsonIo := {| json_io_error := tt |}.

(** Two attempts that are turned down, with the keys 1 and 2, and one that is let in. *)
Definition later : option EdKeypair → Joining := λ _, JoinFailed tt.
Definition attempt1 : Attempt := mkAttempt (toy_env net1) later (StateDb.Witness.kp x01).
Definition attempt2 : Attempt := mkAttempt (toy_env net1) later (StateDb.Witness.kp x02).
Definition attempt3 : Attempt := mkAttempt (toy_env net1) joins (StateDb.Witness.kp x03).
Definition cfg : Config.Config (TransportRest := unit) := Config.Witness.cfg0 true None.
Definition addr0 : SocketAddr := (LOCALHOST, 1).
Definition home_root : path := ["home"; ".safe"; "node"; "root_dir"].
Definition dbs0 : DbWorld (T := ReplicaEvent) := no_dbs.
Definition disk0 : Fs := mkFs ∅ ∅ [].

Lemma start_under_one_reward_key_witness :
  ∃ node fs', run_node Config.Witness.home0 ["work"] (λ _, true) cfg cfg true None None addr0 dbs0
      [attempt1; attempt2; attempt3] disk0 = (Running node, fs') ∧
    node_info node = mkNodeInfo home_root (key 1) ∧
    ∀ gen, (reward_key home_root gen fs').1 = Ok (StateDb.Witness.pk x01).
Proof.
  destruct (start_under_one_reward_key Config.Witness.home0 ["work"] (λ _, true) cfg cfg cfg
    (mkPathBuf true home_root) None None addr0 dbs0 [attempt1; attempt2] attempt3 [x05; x00] disk0 disk0)
    as (node & chunks & fs' & H1 & _ & H3 & _ & _ & H6).
  - reflexivity.
  - reflexivity.
  - reflexivity.
  - reflexivity.
  - reflexivity.
  - split; vm_compute; discriminate.
  - split; [reflexivity|apply lookup_empty|apply lookup_empty|intros q _; apply lookup_empty].
  - repeat constructor; exists tt; split; reflexivity.
  - split; [reflexivity|]. intros k. reflexivity.
  - exists node, fs'. split; [exact H1|]. split; [exact H3|exact H6].
Defined.
End Witness.
