(* ===== verification/Launch.v ===== *)
(** [src/bin/launch_network.rs]: the tool that builds the node and starts a local
    network of nodes by [sn_launch_tool].

    The programs it runs, the environment variables and the texts of paths and
    errors are arguments; the calls it makes are a log.  What it prints is left
    out. *)

From S2P Require Import Prelude Crates Messages Disk Config.

Definition SAFE_NODE_EXECUTABLE : string := "sn_node".
Definition NODES_DIR : string := "local-test-network".
Definition INTERVAL : string := "2".
Definition RUST_LOG : string := "RUST_LOG".
Definition NODE_COUNT : string := "60".

(** An error of [main], or a panic of [expect]. *)
Inductive LaunchError : Type :=
| Failed (msg : string)
| LaunchPanic.

(** The programs that are run, with their arguments. *)
Inductive Call : Type :=
| Cargo (args : list string) (env : list (string * string))
| LaunchTool (args : list string).

(** [str::parse::<u64>] *)
Definition digit (c : Ascii.ascii) : option Z :=
  let n := Z.of_nat (Ascii.nat_of_ascii c) - 48 in if (0 <=? n) && (n <? 10) then Some n else None.
Fixpoint parse_digits (acc : Z) (s : string) : option Z :=
  match s with
  | EmptyString => Some acc
  | String c s =>
      match digit c with
      | Some n => if acc * 10 + n <=? u64_max then parse_digits (acc * 10 + n) s else None
      | None => None
      end
  end.
Definition parse_u64 (s : string) : option Z := match s with EmptyString => None | _ => parse_digits 0 s end.

(** ["y".repeat(n)] *)
Fixpoint repeat_str (s : string) (n : nat) : string :=
  match n with O => "" | S n => s +:+ repeat_str s n end.

Section launch.
Context (home : option PathBuf) (cwd : path) (var : string → option string).
Context (display : PathBuf → string) (debug_args : list string → string) (io_text : IoError → string).
(** Whether [cargo] ran, and its exit status; what the launch tool answers. *)
Context (cargo : result IoError bool) (run_with : list string → result string unit).

Abbreviation World := (Fs * list Call)%type.

Definition call (c : Call) : M LaunchError World unit := modify (λ w, (w.1, w.2 ++ [c])).
Definition disk {A} (m : M IoError Fs A) : M LaunchError World (result IoError A) :=
  λ w, let '(r, fs) := m w.1 in (Ok r, (fs, w.2)).

Definition get_node_bin_path (node_path : option PathBuf) : result string PathBuf :=
  match node_path with
  | Some p => Ok p
  | None =>
      match home with
      | None => Err "Failed to obtain user's home path"
      | Some home_dirs => Ok (path_join (path_join home_dirs (file_name ".safe")) (file_name "node"))
      end
  end.

Definition failed {A} (r : result string A) : M LaunchError World A := lift (map_err Failed r).

(** The arguments of the launch tool. *)
Definition launch_args (arg_node_path arg_node_log_dir node_count rust_log : string) (verbosity : nat) : list string :=
  ["sn_launch_tool"; "-v"; "--node-path"; arg_node_path; "--nodes-dir"; arg_node_log_dir; "--interval"; INTERVAL;
   "--local"; "--num-nodes"; node_count] ++
  (if bool_decide (rust_log = "") then [] else ["--rust-log"; rust_log]) ++
  (if (0 <? verbosity)%nat then ["-" +:+ repeat_str "y" verbosity] else []).

(** [run_network]; the result is how long it then sleeps, in seconds. *)
Definition run_network : M LaunchError World Z :=
  let verbosity := 4%nat in
  let! node_path := failed (get_node_bin_path (Some (mkPathBuf false ["."; "target"; "release"]))) in
  let arg_node_path := display (path_join node_path (file_name SAFE_NODE_EXECUTABLE)) in
  let! base_log_dir := failed (get_node_bin_path None) in
  let node_log_dir := path_join base_log_dir (file_name NODES_DIR) in
  let! w := get in
  (if path_exists (path_resolve cwd node_log_dir) w.1 then ret tt
   else let! r := disk (fs_create_dir_all (path_resolve cwd node_log_dir)) in
        failed (map_err (λ err, "Couldn't create target path to store nodes' generated data: " +:+ io_text err) r)) ;;;
  let arg_node_log_dir := display node_log_dir in
  let node_count := default NODE_COUNT (var "NODE_COUNT") in
  let rust_log := default "" (var RUST_LOG) in
  let! interval_as_int := failed (ok_or (parse_u64 INTERVAL) "Error parsing Interval argument") in
  let args := launch_args arg_node_path arg_node_log_dir node_count rust_log verbosity in
  call (LaunchTool args) ;;;
  failed (run_with args) ;;;
  ret (interval_as_int * 15).

Definition build_args : list string := ["build"; "--features=simulated-payouts"; "--release"].

Definition build_env : list (string * string) := [("RUST_LOG", "debug"); ("RUST_BACKTRACE", "1")].

Definition main : M LaunchError World Z :=
  let nodes := path_resolve cwd (file_name "nodes") in
  disk (fs_remove_dir_all nodes) ;;;
  let! created := disk (fs_create_dir_all nodes) in
  match created with
  | Err _ => throw LaunchPanic
  | Ok _ =>
      call (Cargo build_args build_env) ;;;
      failed (map_err (λ err, "Failed to run build command with args '" +:+ debug_args build_args +:+ "': " +:+ io_text err) cargo) ;;;
      run_network
  end.

(** What the network is started with, below a home directory. *)
Definition tool_args (home_dir : PathBuf) : list string :=
  launch_args (display (path_join (mkPathBuf false ["."; "target"; "release"]) (file_name SAFE_NODE_EXECUTABLE)))
    (display (path_join (path_join (path_join home_dir (file_name ".safe")) (file_name "node")) (file_name NODES_DIR)))
    (default NODE_COUNT (var "NODE_COUNT")) (default "" (var RUST_LOG)) 4.
Definition launched (home_dir : PathBuf) : result LaunchError Z :=
  match run_with (tool_args home_dir) with Ok _ => Ok 30 | Err e => Err (Failed e) end.

Lemma run_network_launches home_dir fs log :
  faults fs = [] → home = Some home_dir →
  ∃ fs', run_network (fs, log) = (launched home_dir, (fs', log ++ [LaunchTool (tool_args home_dir)])).
Proof.
  intros Hf Hhome. unfold run_network, failed, lift, get_node_bin_path, launched. rewrite Hhome.
  unfold bind at 1 2 3, get at 1. cbn [map_err fst].
  destruct (path_exists _ fs); unfold bind, disk, fs_create_dir_all, call, modify, ret; cbn [fst snd].
  - eexists. fold (tool_args home_dir). cbn [parse_u64 INTERVAL ok_or map_err].
    change (parse_digits 0 INTERVAL) with (Some 2). cbn [ok_or map_err fst snd]. unfold tool_args.
    by destruct (run_with _).
  - rewrite syscall_none by done. eexists. cbn [map_err fst snd parse_u64 INTERVAL ok_or].
    change (parse_digits 0 INTERVAL) with (Some 2). cbn [ok_or map_err fst snd]. unfold tool_args. by destruct (run_with _).
Qed.

(** On a healthy disk, with a home directory, the network is started on whatever
    [cargo] left in [target], even when the build failed. *)
Lemma main_launches home_dir built fs :
  faults fs = [] → cargo = Ok built → home = Some home_dir →
  ∃ fs', main (fs, []) = (launched home_dir, (fs', [Cargo build_args build_env; LaunchTool (tool_args home_dir)])).
Proof.
  intros Hf Hbuilt Hhome. unfold main, disk, fs_remove_dir_all, call, failed, lift, modify, bind at 1. cbn [fst snd].
  rewrite next_fault_none by done. unfold bind at 1, fs_create_dir_all at 1. rewrite syscall_none by done.
  unfold modify. rewrite Hbuilt. cbn [map_err]. unfold bind at 1 2. cbn [fst snd app].
  by apply (run_network_launches home_dir).
Qed.
End launch.

Module Witness.
(** The command line of the tool, with logging switched on. *)
Example args_with_log :
  launch_args "./target/release/sn_node" "/home/.safe/node/local-test-network" "11" "debug" 4 =
  ["sn_launch_tool"; "-v"; "--node-path"; "./target/release/sn_node"; "--nodes-dir"; "/home/.safe/node/local-test-network";
   "--interval"; "2"; "--local"; "--num-nodes"; "11"; "--rust-log"; "debug"; "-yyyy"].
Proof. reflexivity. Qed.
End Witness.
