(* ===== verification/NodeSync.v ===== *)
(** How an elder gets the state of its section: the packet another elder pushes
    for a prefix ([push_state]), the message it travels in, and what the
    receiver makes of it ([synch_state]); and what a split leaves and sends. *)

From S2P Require Import Prelude Crates Messages Disk Toy StateDb F64 UsedSpace ChunkStore Network Messaging Capacity Chunks.
From S2P Require Import AdultLiveness BlobRecords ElderData RewardCalc RewardStage RewardProcess SectionFunds.
From S2P Require Import TransferStore Replicas Transfers EventMapping Metadata StoreFrame ElderDb DataFlow Node NodeRun.

Section sync.
Context `{DO : DataOpsCrate} `{MC : !MessagingCrate} `{EC : !EncodingCrate} `{MO : !MessagingOps} `{WC : !WireCrate}
        `{SH : !ShuffleCrate}.
Context `{SMA : !Serde MapAddress} `{SM : !Serde Map} `{SSA : !Serde SequenceAddress} `{SS : !Serde Sequence}
        `{SRA : !Serde RegisterAddress} `{SR : !Serde Register} `{SBA : !Serde BlobAddress} `{SB : !Serde Blob}.
Context `{SN : !Serde XorName} `{SD : !Serde SignedDebit} `{SSC : !Serde SignedCredit} `{SC : !Serde Credit}
        `{SCP : !Serde CreditAgreementProof} `{SDC : !Serde DataCmd}
        `{DBG : !DebugT ReplicaEvent} `{PC : !PickleCrate ReplicaEvent} `{TC : !TransfersCrate}.
Context `{EL : !EncodingLaws} `{DL : !DataOpsLaws} `{PL : !PickleLaws (T := ReplicaEvent)} `{TL : !TransfersLaws}.
Context `{SMAL : !SerdeLaws MapAddress} `{SML : !SerdeLaws Map} `{SSAL : !SerdeLaws SequenceAddress}
        `{SSL : !SerdeLaws Sequence} `{SRAL : !SerdeLaws RegisterAddress} `{SRL : !SerdeLaws Register}.
Context `{SMAT : !SerdeTotal MapAddress} `{SMT : !SerdeTotal Map} `{SSAT : !SerdeTotal SequenceAddress}
        `{SST : !SerdeTotal Sequence} `{SRAT : !SerdeTotal RegisterAddress} `{SRT : !SerdeTotal Register}.

(** * Work on a role that is an elder's *)

Lemma update_role_same id x s : roles s !! id = Some x → update_role id x s = s.
Proof. intros Hx. unfold update_role. rewrite insert_id by done. by destruct s. Qed.

Lemma update_role_twice id x y s : update_role id y (update_role id x s) = update_role id y s.
Proof. unfold update_role. simpl. by rewrite insert_insert_eq. Qed.

Lemma update_role_lookup id x s : roles (update_role id x s) !! id = Some x.
Proof. apply lookup_insert_eq. Qed.

Section at_elder.
Context (id : nat) (x : ElderRole) (s : Node) (Hx : roles s !! id = Some (Elder x)).

Lemma with_elder_run {A} (m : ElderRole → M Error Node A) : with_elder id m s = m x s.
Proof. unfold with_elder. by rewrite Hx. Qed.

Lemma ask_transfers_run {A} e (f : Replicas → Result A) :
  ask_transfers e id f s = (f (sign_with (e_routing e) (transfers x)), s).
Proof. unfold ask_transfers. by rewrite with_elder_run. Qed.

Lemma with_meta_run {A} (m : M Error Metadata A) r st d :
  m (meta_data x, disk s) = (r, (st, d)) →
  with_meta id m s =
    (r, update_role id (Elder (mkElderRole st (transfers x) (section_funds x) (received_initial_sync x))) (set_disk d s)).
Proof. intros Hm. unfold with_meta. rewrite with_elder_run. by rewrite Hm. Qed.

(** A query of the metadata. *)
Lemma with_meta_same {A} (m : M Error Metadata A) r :
  m (meta_data x, disk s) = (r, (meta_data x, disk s)) → with_meta id m s = (r, s).
Proof.
  intros Hm. rewrite (with_meta_run m _ _ _ Hm). f_equal. rewrite update_role_same; [by destruct s|]. by destruct x.
Qed.

Lemma with_transfers_run {A} e (m : M Error (Replicas * DbWorld (T := ReplicaEvent)) A) r R w :
  m (sign_with (e_routing e) (transfers x), dbs s) = (r, (R, w)) →
  with_transfers e id m s =
    (r, update_role id (Elder (mkElderRole (meta_data x) R (section_funds x) (received_initial_sync x))) (set_dbs w s)).
Proof. intros Hm. unfold with_transfers. rewrite with_elder_run. by rewrite Hm. Qed.

Lemma with_funds_run g :
  with_funds id (modify g) s =
    (Ok tt, update_role id (Elder (mkElderRole (meta_data x) (transfers x) (g (section_funds x)) (received_initial_sync x))) s).
Proof. unfold with_funds. by rewrite with_elder_run. Qed.
End at_elder.

(** A loop over the funds. *)
Lemma funds_loop {A} id x (l : list A) (g : A → SectionFunds → SectionFunds) s :
  roles s !! id = Some (Elder x) →
  for_each l (λ a, with_funds id (modify (g a))) s =
    (Ok tt, update_role id (Elder (mkElderRole (meta_data x) (transfers x) (foldl (λ f a, g a f) (section_funds x) l)
                                     (received_initial_sync x))) s).
Proof.
  revert x s. induction l as [|a l IH]; intros x s Hx; cbn [for_each foldl].
  - rewrite update_role_same; [done|]. rewrite Hx. by destruct x.
  - unfold bind. rewrite (with_funds_run id x s Hx). rewrite (IH _ _ (update_role_lookup _ _ _)). simpl.
    by rewrite update_role_twice.
Qed.

(** * The packet *)

(** What an elder has to give. *)
Record can_push (s : Node) (x : ElderRole) (db : elder_db) : Prop := mkCanPush {
  cp_wallets : replicas_inv (transfers x, dbs s);
  cp_fits : ∀ k st l, stores (transfers x) !! k = Some st → is_log st l → log_fits l;
  cp_data : elder_holds (meta_data x, disk s) db;
  cp_maps : no_stray (Id := MapAddress) (map_storage (meta_data x), disk s);
  cp_seqs : no_stray (Id := SequenceAddress) (sequence_storage (meta_data x), disk s);
}.

(** A new elder: no wallets, and a clean disk for them. *)
Record can_take (s : Node) (x : ElderRole) (db : elder_db) : Prop := mkCanTake {
  ct_new : received_initial_sync x = false;
  ct_empty : stores (transfers x) = ∅;
  ct_distinct : distinct_paths (Replicas.root_dir (transfers x));
  ct_paths : ∀ k, is_ok (store_path (name_of_pk k) (Replicas.root_dir (transfers x))) = true;
  ct_healthy : healthy (dbs s);
  ct_clean : ∀ k p, store_path (name_of_pk k) (Replicas.root_dir (transfers x)) = Ok p → db_file (dbs s) p = None;
  ct_data : elder_holds (meta_data x, disk s) db;
}.

(** The node wallets and the client wallets of a prefix. *)
Definition nodes_of (prefix : Prefix) (x : ElderRole) : gmap XorName (Z * PublicKey) :=
  filter (λ kv, prefix_matches prefix kv.1 = true) (node_wallets (section_funds x)).
Definition wallets_of (prefix : Prefix) (x : ElderRole) : gmap PublicKey ActorHistory :=
  filter (λ kv, prefix_matches prefix (name_of_pk kv.1) = true) (user_wallets (transfers x)).

(** The data of a packet. *)
Definition data_of (prefix : Prefix) (x : ElderRole) (db : elder_db) (data : DataExchange) : Prop :=
  (∀ a, map_data data !! a = if prefix_matches prefix (map_address_name a) then db_maps db a else None) ∧
  (∀ a, seq_data data !! a = if prefix_matches prefix (sequence_address_name a) then db_seqs db a else None) ∧
  full_adults_x (blob_data data) = full_adults_matching (br_capacity (blob_records (meta_data x))) prefix.

Lemma push_state_run e id x s db prefix msg_id peers :
  roles s !! id = Some (Elder x) → can_push s x db →
  ∃ data, push_state e id prefix msg_id peers s =
    (Ok (SendToNodes (NmNodeCmd (NcSystem (ReceiveExistingData (nodes_of prefix x) (wallets_of prefix x) data)) msg_id)
           peers AggNone), s) ∧ data_of prefix x db data.
Proof.
  intros Hx [Hw Hf Hd Hm Hs]. destruct (packet_holds prefix _ db Hd Hm Hs) as (data & Hget & Hdata). exists data.
  split; [|exact Hdata]. unfold push_state, bind. rewrite (ask_transfers_run id x s Hx). rewrite (with_elder_run id x s Hx).
  cbn [ret]. by rewrite (with_meta_same id x s Hx _ _ Hget).
Qed.

(** * Taking it in *)

Definition register_all (l : list (XorName * (Z * PublicKey))) (f : SectionFunds) : SectionFunds :=
  foldl (λ f '(key, (age, wallet)), set_node_wallet key wallet age f) f l.

Lemma register_all_each l f : foldl (λ f a, register_all [a] f) f l = register_all l f.
Proof. revert f. induction l as [|[k [a w]] l IH]; intros f; [done|]. apply IH. Qed.

Lemma register_all_lookup l f n :
  NoDup l.*1 →
  node_wallets (register_all l f) !! n = match (list_to_map l : gmap XorName (Z * PublicKey)) !! n with
                                         | Some w => Some w | None => node_wallets f !! n end.
Proof.
  revert f. induction l as [|[k [age w]] l IH]; intros f; csimpl; [done|]. intros [Hk Hnd]%NoDup_cons.
  unfold register_all. cbn [foldl]. fold (register_all l (set_node_wallet k w age f)). rewrite IH by done.
  assert (node_wallets (set_node_wallet k w age f) = <[k := (age, w)]> (node_wallets f)) as ->.
  { unfold node_wallets, set_node_wallet. rewrite !rw_node_wallets_eq. by destruct f. }
  rewrite !lookup_insert. destruct (decide (k = n)) as [->|Hne]; [|done].
  by rewrite (not_elem_of_list_to_map_1 l n) by done.
Qed.

Lemma register_entries_lookup nr f n :
  node_wallets (register_all (btree_entries name_cmp nr) f) !! n =
  match nr !! n with Some w => Some w | None => node_wallets f !! n end.
Proof.
  rewrite register_all_lookup by apply NoDup_btree_keys.
  by rewrite (list_to_map_proper _ (map_to_list nr)), list_to_map_to_list
    by (apply NoDup_btree_keys || apply btree_entries_Permutation).
Qed.

(** A second packet changes nothing. *)
Lemma synch_state_once e id x s key nr uw data :
  roles s !! id = Some (Elder x) → received_initial_sync x = true → synch_state e id key nr uw data s = (Ok NoOp, s).
Proof. intros Hx Hr. unfold synch_state, bind. by rewrite (with_elder_run id x s Hx), Hr. Qed.

(** The first one. *)
Lemma synch_state_run e id x s db key nr uw data R w :
  roles s !! id = Some (Elder x) → received_initial_sync x = false → elder_holds (meta_data x, disk s) db →
  (∀ a c, map_data data !! a = Some c → map_id c = a) → (∀ a c, seq_data data !! a = Some c → sequence_address c = a) →
  merge uw (sign_with (e_routing e) (transfers x), dbs s) = (Ok tt, (R, w)) →
  ∃ res x' db' s', synch_state e id key nr uw data s = (res, s') ∧
    roles s' !! id = Some (Elder x') ∧ transfers x' = R ∧ dbs s' = w ∧
    section_funds x' = register_all (btree_entries name_cmp nr) (section_funds x) ∧
    elder_holds (meta_data x', disk s') db' ∧
    ((res = Err NotEnoughSpace ∧ received_initial_sync x' = false) ∨
     received_initial_sync x' = true ∧
     res = Ok (if bool_decide (nr !! our_name (e_routing e) = None) then Send (register_wallet e key) else NoOp) ∧
     (∀ a, db_maps db' a = taken_in (map_data data) (db_maps db) a) ∧
     (∀ a, db_seqs db' a = taken_in (seq_data data) (db_seqs db) a) ∧ db_regs db' = db_regs db ∧
     br_capacity (blob_records (meta_data x')) = br_capacity (blob_records (meta_data x)) ∪ full_adults_x (blob_data data)).
Proof.
  intros Hx Hr Hh Hmd Hsd Hmerge. unfold synch_state, bind. rewrite (with_elder_run id x s Hx), Hr. cbn [ret].
  rewrite (with_transfers_run id x s Hx e (tf_merge uw) _ _ _ Hmerge). set (s1 := update_role id _ (set_dbs w s)).
  set (x1 := mkElderRole (meta_data x) R (section_funds x) (received_initial_sync x)) in *.
  assert (roles s1 !! id = Some (Elder x1)) as Hx1 by apply update_role_lookup.
  rewrite (for_each_ext _ _ (λ a : XorName * (Z * PublicKey), with_funds id (modify (λ f, register_all [a] f))))
    by (by intros [? []]).
  rewrite (funds_loop id x1 _ (λ a f, register_all [a] f) s1 Hx1), register_all_each. set (s2 := update_role id _ s1).
  set (x2 := mkElderRole _ _ _ _) in s2.
  assert (roles s2 !! id = Some (Elder x2)) as Hx2 by apply update_role_lookup.
  destruct (md_update_holds data (meta_data x, disk s) db Hh Hmd Hsd) as (res & [st d] & db' & Hup & Hh' & Hregs & Hres).
  rewrite (with_meta_run id x2 s2 Hx2 (md_update data) res st d Hup). set (s3 := update_role id _ (set_disk d s2)).
  set (x3 := mkElderRole st _ _ _) in s3.
  assert (roles s3 !! id = Some (Elder x3)) as Hx3 by apply update_role_lookup.
  destruct Hres as [->|(-> & Hm & Hq & Hcap)].
  - eexists _, x3, db', s3. do 6 (split; [done|]). left. done.
  - unfold set_received_initial_sync. rewrite (with_elder_run id x3 s3 Hx3). set (s4 := update_role id _ s3).
    exists (Ok (if bool_decide (nr !! our_name (e_routing e) = None) then Send (register_wallet e key) else NoOp)).
    eexists _, db', s4. split; [by destruct (bool_decide _)|].
    split; [apply update_role_lookup|]. do 4 (split; [done|]). right. done.
Qed.

Lemma run_synch e id s nr uw data res s' :
  synch_state e id (ni_reward_key (node_info s)) nr uw data s = (res, s') →
  run_elder e id (SynchState nr uw data) s = (match res with Ok d => Ok [d] | Err err => Err (Fail err) end, s').
Proof.
  intros Hs. cbn [run_elder]. unfold no_panic, run_funds, bind, get. rewrite Hs. by destruct res.
Qed.

(** * Properties *)

(** C14: a new elder gets the state of its section, when it has no wallets yet and
    its disk and databases work.  The packet an elder pushes
    for a prefix makes the receiver a duty; once it is done, the receiver has
    the history of every client wallet and the wallet of every node of the
    prefix as the sender has them; and either it has the maps and sequences too,
    and a second packet changes nothing, or it reports that there is no room.
    The sender is unchanged throughout. *)
Theorem elder_sync_end_to_end ea ida xa sa dba eb idb xb sb dbb prefix msg_id peers src peer :
  roles sa !! ida = Some (Elder xa) → can_push sa xa dba →
  roles sb !! idb = Some (Elder xb) → can_take sb xb dbb →
  ∃ msg nr uw data res sb' xb' dbb',
    push_state ea ida prefix msg_id peers sa = (Ok (SendToNodes msg peers AggNone), sa) ∧
    op (map_node_msg msg src (DstNode peer)) = SynchState nr uw data ∧
    run_elder eb idb (SynchState nr uw data) sb = (res, sb') ∧
    roles sb' !! idb = Some (Elder xb') ∧ elder_holds (meta_data xb', disk sb') dbb' ∧
    (∀ k, history (transfers xb') k =
          if prefix_matches prefix (name_of_pk k) then history (transfers xa) k else Ok ActorHistory_empty) ∧
    (∀ n w, node_wallets (section_funds xa) !! n = Some w → prefix_matches prefix n = true →
            node_wallets (section_funds xb') !! n = Some w) ∧
    (res = Err (Fail NotEnoughSpace) ∨
     (∀ a c, prefix_matches prefix (map_address_name a) = true → db_maps dba a = Some c → db_maps dbb' a = Some c) ∧
     (∀ a c, prefix_matches prefix (sequence_address_name a) = true → db_seqs dba a = Some c → db_seqs dbb' a = Some c) ∧
     ∀ e nr uw data, run_elder e idb (SynchState nr uw data) sb' = (Ok [NoOp], sb')).
Proof.
  intros Hxa Hpush Hxb [Hnew Hempty Hdist Hpaths Hhealthy Hclean Hdata].
  destruct (push_state_run ea ida xa sa dba prefix msg_id peers Hxa Hpush) as (data & Hrun & Hm & Hq & _).
  destruct Hpush as [Hinv Hfits Ha _ _].
  destruct (merge_wallets (transfers xa) (dbs sa) (wallets_of prefix xa) (Replicas.root_dir (transfers xb))
    (info (sign_with (e_routing eb) (transfers xb))) (dbs sb) Hinv Hfits) as (R & w & Hmerge & Hhist); [|done..|].
  { intros k h Hk. unfold wallets_of in Hk. by apply map_lookup_filter_Some in Hk as [Hk _]. }
  destruct (synch_state_run eb idb xb sb dbb (ni_reward_key (node_info sb)) (nodes_of prefix xa) (wallets_of prefix xa) data R w)
    as (res & xb' & dbb' & sb' & Hs & Hxb' & HR & _ & Hfunds & Hh & Hres); [done|done|done|..].
  { intros a c. rewrite Hm. destruct (prefix_matches _ _); [|done]. exact (holds_id _ _ a c (eh_maps _ _ Ha) (ser_total _)). }
  { intros a c. rewrite Hq. destruct (prefix_matches _ _); [|done]. exact (holds_id _ _ a c (eh_seqs _ _ Ha) (ser_total _)). }
  { unfold sign_with. rewrite Hempty. exact Hmerge. }
  eexists _, _, _, data, _, sb', xb', dbb'. split; [exact Hrun|]. split; [done|]. split; [exact (run_synch _ _ _ _ _ _ _ _ Hs)|].
  split; [done|]. split; [done|]. split; [|split].
  - intros k. rewrite HR, Hhist. unfold wallets_of. rewrite map_lookup_filter, user_wallets_lookup. unfold history.
    destruct (stores (transfers xa) !! k), (prefix_matches prefix (name_of_pk k)) eqn:Hp; simpl;
      rewrite ?option_guard_True, ?option_guard_False by (simpl; congruence); done.
  - intros n v Hn Hp. rewrite Hfunds, register_entries_lookup. unfold nodes_of.
    by rewrite (proj2 (map_lookup_filter_Some _ _ n v) (conj Hn Hp)).
  - destruct Hres as [[-> _]|(Hrecv & -> & Hmaps & Hseqs & _)]; [by left|right].
    split; [intros a c Hp Hc; rewrite Hmaps; unfold taken_in; by rewrite Hm, Hp, Hc|].
    split; [intros a c Hp Hc; rewrite Hseqs; unfold taken_in; by rewrite Hq, Hp, Hc|].
    intros e nr uw data'. by rewrite (run_synch e idb sb' nr uw data' _ _ (synch_state_once e idb xb' sb' _ nr uw data' Hxb' Hrecv)).
Qed.

(** * Promotion *)

(** The tracker of the node itself has no store of its own. *)
Lemma reset_no_stores u fs : local_stores u = ∅ → UsedSpace.reset (u, fs) = (Ok tt, (set_total 0 u, fs)).
Proof.
  intros Hl. unfold UsedSpace.reset, bind, on_us, modify, get. cbn [fst snd set_total local_stores]. by rewrite Hl, map_to_list_empty.
Qed.

(** A directory for wallets that no wallet has used. *)
Record wallets_dir (root : path) (w : DbWorld (T := ReplicaEvent)) : Prop := {
  wd_distinct : distinct_paths root;
  wd_paths : ∀ k, is_ok (store_path (name_of_pk k) root) = true;
  wd_healthy : healthy w;
  wd_clean : ∀ k p, store_path (name_of_pk k) root = Ok p → db_file w p = None;
}.

(** C15: a promoted node is ready for the packet of its section: below a root
    directory with no data of an earlier elder it becomes an elder with empty
    stores and no wallets, that has not had its initial sync; the role it had
    stays as it was for the tasks that still work on it. *)
Theorem promoted_elder_ready e s i :
  local_stores (used_space s) = ∅ → faults (disk s) = [] → 0 ≤ UsedSpace.max_capacity (used_space s) ≤ u64_max →
  no_elder_data (ni_root_dir (node_info s)) (disk s) → wallets_dir (ni_root_dir (node_info s)) (dbs s) →
  replica_info (e_routing e) (e_chain e) = Ok i →
  ∃ x s', level_up e s = (Ok tt, s') ∧ role s' = S (role s) ∧ roles s' !! role s' = Some (Elder x) ∧
    can_take s' x empty_db ∧ node_wallets (section_funds x) = ∅ ∧
    ∀ id, (id ≤ role s)%nat → roles s' !! id = roles s !! id.
Proof.
  intros Hl Hf Hcap Hdata [Hd Hp Hh Hc] Hi. unfold level_up, bind, zoom. cbn [fst snd].
  rewrite (reset_no_stores _ _ Hl). cbn [fst snd]. unfold get. cbn [used_space disk node_info set_disk set_used_space].
  destruct (metadata_new_holds (ni_root_dir (node_info s)) (UsedSpace.max_capacity (used_space s)) adults_storage_info_new
    (disk s) Hf Hcap Hdata) as (st & d & Hnew & Hholds & _).
  unfold Node.on_disk, zoom. cbn [disk set_disk set_used_space UsedSpace.max_capacity set_total]. rewrite Hnew.
  unfold transfer_replicas. rewrite Hi. unfold replicas_new, setup. rewrite bool_decide_true by apply map_size_empty.
  eexists _, _. split; [reflexivity|]. split; [done|]. split; [apply lookup_insert_eq|]. split; [by split|]. split; [done|].
  intros id Hid. simpl. by rewrite lookup_insert_ne by lia.
Qed.

(** * A split *)

(** Changing the replica's view of its section leaves what it can push. *)
Lemma can_push_info s x db id r i :
  can_push s x db →
  can_push (update_role id (Elder (mkElderRole (meta_data x) (update_replica_info i (sign_with r (transfers x)))
                                     (section_funds x) (received_initial_sync x))) (set_dbs (dbs s) s))
    (mkElderRole (meta_data x) (update_replica_info i (sign_with r (transfers x))) (section_funds x) (received_initial_sync x)) db.
Proof. intros [Hw Hf Hd Hm Hs]. by split. Qed.

Lemma no_panic_run {A} (m : M Error Node A) s a s' : m s = (Ok a, s') → no_panic m s = (Ok a, s').
Proof. intros Hm. unfold no_panic. by rewrite Hm. Qed.

(** The packet of [push_state], as a duty. *)
Definition packet (prefix : Prefix) (x : ElderRole) (data : DataExchange) (key : PublicKey) (peers : gset XorName) : NodeDuty :=
  SendToNodes (NmNodeCmd (NcSystem (ReceiveExistingData (nodes_of prefix x) (wallets_of prefix x) data))
                 (message_id_combine (prefix_name prefix) (name_of_pk key))) peers AggNone.

(** C16: what an elder that stays does at a split: it sends its new peers what is
    of its prefix and the elders of the sibling section what is of theirs, from
    the state before anything is dropped; then it keeps exactly the client
    wallets and the node wallets of its own prefix, with their histories, and
    all its data. *)
Theorem section_split_spec e id x s db our_prefix our_key sibling_key our_elders their_elders i :
  roles s !! id = Some (Elder x) → can_push s x db → replica_info (e_routing e) (e_chain e) = Ok i →
  (∀ k st, stores (transfers x) !! k = Some st →
     store_path (name_of_pk k) (Replicas.root_dir (transfers x)) = Ok (ts_db_path st)) →
  distinct_paths (Replicas.root_dir (transfers x)) →
  ∃ data1 data2 x' s',
    begin_split_as_oldie e id our_prefix our_key sibling_key our_elders their_elders s =
      (Ok [packet our_prefix x data1 our_key our_elders; packet (prefix_sibling our_prefix) x data2 sibling_key their_elders], s') ∧
    data_of our_prefix x db data1 ∧ data_of (prefix_sibling our_prefix) x db data2 ∧
    roles s' !! id = Some (Elder x') ∧ elder_holds (meta_data x', disk s') db ∧
    (∀ k, history (transfers x') k =
          if prefix_matches our_prefix (name_of_pk k) then history (transfers x) k else Ok ActorHistory_empty) ∧
    (∀ n, node_wallets (section_funds x') !! n =
          if prefix_matches our_prefix n then node_wallets (section_funds x) !! n else None).
Proof.
  intros Hx Hpush Hinfo Hpaths Hdist. pose proof (can_push_info s x db id (e_routing e) i Hpush) as Hpush1.
  set (s1 := update_role id _ _) in Hpush1. set (x1 := mkElderRole _ (update_replica_info _ _) _ _) in s1, Hpush1.
  assert (roles s1 !! id = Some (Elder x1)) as Hx1 by apply update_role_lookup.
  assert (update_replicas e id s = (Ok tt, s1)) as Hup.
  { unfold update_replicas, bind, lift. rewrite Hinfo. by apply with_transfers_run. }
  destruct (push_state_run e id x1 s1 db our_prefix (message_id_combine (prefix_name our_prefix) (name_of_pk our_key))
    our_elders Hx1 Hpush1) as (data1 & Hrun1 & Hd1).
  destruct (push_state_run e id x1 s1 db (prefix_sibling our_prefix)
    (message_id_combine (prefix_name (prefix_sibling our_prefix)) (name_of_pk sibling_key)) their_elders Hx1 Hpush1)
    as (data2 & Hrun2 & Hd2).
  exists data1, data2.
  destruct (md_retain_members_only (our_adults (e_routing e)) (meta_data x1, disk s1)) as [res [st d]] eqn:Hretain.
  pose proof (on_blob_holds (br_retain_members_only (our_adults (e_routing e))) (meta_data x1, disk s1) db (cp_data _ _ _ Hpush1)) as Hh.
  change (elder_holds (md_retain_members_only (our_adults (e_routing e)) (meta_data x1, disk s1)).2 db) in Hh.
  rewrite Hretain in Hh. assert (res = Ok tt) as -> by (by injection Hretain as <- _).
  pose proof (with_meta_run id x1 s1 Hx1 _ _ _ _ Hretain) as Hmeta. set (s2 := update_role id _ _) in Hmeta.
  set (x2 := mkElderRole st _ _ _) in s2. assert (roles s2 !! id = Some (Elder x2)) as Hx2 by apply update_role_lookup.
  destruct (keep_keys_of_spec our_prefix (sign_with (e_routing e) (transfers x2)) (dbs s2)) as (R & w & Hkeep & _ & Hhist & _);
    [exact Hpaths|exact Hdist|].
  pose proof (with_transfers_run id x2 s2 Hx2 e (tf_keep_keys_of our_prefix) _ _ _ Hkeep) as Htr. set (s3 := update_role id _ _) in Htr.
  set (x3 := mkElderRole _ R _ _) in s3. assert (roles s3 !! id = Some (Elder x3)) as Hx3 by apply update_role_lookup.
  pose proof (with_funds_run id x3 s3 Hx3 (keep_wallets_of our_prefix)) as Hfunds. set (s4 := update_role id _ _) in Hfunds.
  eexists _, s4. split.
  - unfold begin_split_as_oldie, split_payments, bind. change (0 <? 0) with false.
    rewrite (no_panic_run _ _ _ _ Hup).
    rewrite (no_panic_run _ s1 (sf_wallets (section_funds x1)) s1) by (by rewrite (with_elder_run id x1 s1 Hx1)). cbn [ret].
    rewrite (no_panic_run _ _ _ _ Hrun1), (no_panic_run _ _ _ _ Hrun2), (no_panic_run _ _ _ _ Hmeta),
      (no_panic_run _ _ _ _ Htr), (no_panic_run _ _ _ _ Hfunds). done.
  - split; [exact Hd1|]. split; [exact Hd2|]. split; [apply update_role_lookup|]. split; [exact Hh|]. split; [exact Hhist|].
    intros n. unfold node_wallets. rewrite !rw_node_wallets_eq. simpl. unfold keep_wallets_of.
    destruct (section_funds x); apply rw_keep_lookup.
Qed.
End sync.

Module Witness.
Import ToyCrates ToySerde ToyRouting ToyPickle ToyTransfers ToyElderData ToyWire ToyEd ToyNode.

(** A node with one role. *)
Definition node_of (x : ElderRole) (d : Fs) (w : ToyWorld ReplicaEvent) : Node :=
  mkNode (mkNodeInfo ["node"] (key 30)) (us_new 1000) 1 {[1%nat := Elder x]} d w [].

(** An elder with a wallet, a registered node and a map, and a new one. *)
Definition funds0 : SectionFunds := KeepingNodeWallets (reward_wallets_new {[ nm 40 := (5, key 41) ]}).
Definition old_elder : ElderRole := mkElderRole ElderDb.Witness.elder.1 Replicas.Witness.s3.1 funds0 true.
Definition new_elder : ElderRole :=
  mkElderRole ElderDb.Witness.new_elder.1 (mkReplicas Replicas.Witness.root2 Replicas.Witness.info0 ∅) (KeepingNodeWallets (reward_wallets_new ∅)) false.
Definition old_node : Node := node_of old_elder ElderDb.Witness.elder.2 Replicas.Witness.s3.2.
Definition new_node : Node := node_of new_elder ElderDb.Witness.new_elder.2 Replicas.Witness.w0.

Lemma old_can_push : can_push old_node old_elder ElderDb.Witness.with_map.
Proof.
  split.
  - exact Replicas.Witness.s3_inv.
  - intros k st l Hk Hl. destruct (Replicas.Witness.s3_stores k st Hk) as (_ & _ & Hsize). unfold log_fits.
    unfold is_log in Hl. rewrite Hl, log_map_size in Hsize. rewrite Hsize. vm_compute. discriminate.
  - exact ElderDb.Witness.elder_has_map.
  - apply (ElderDb.Witness.no_strays (ElderDb.Witness.maddr 3) (ElderDb.Witness.bytes_of (ElderDb.Witness.maddr 3))); [reflexivity|]. apply (bool_decide_unpack _). vm_compute. exact I.
  - apply (ElderDb.Witness.no_strays ElderDb.Witness.saddr0 (ElderDb.Witness.bytes_of ElderDb.Witness.saddr0)); [reflexivity|]. apply (bool_decide_unpack _). vm_compute. exact I.
Qed.

Lemma new_can_take : can_take new_node new_elder empty_db.
Proof.
  split; [reflexivity..| |reflexivity|reflexivity|intros; apply lookup_empty|exact ElderDb.Witness.new_elder_holds].
  exact Replicas.Witness.distinct_root2.
Qed.

Lemma elder_sync_end_to_end_witness :
  ∃ msg nr uw data res sb' xb',
    push_state (toy_env net1) 1 root_prefix (mid 3) {[ nm 2 ]} old_node = (Ok (SendToNodes msg {[ nm 2 ]} AggNone), old_node) ∧
    op (map_node_msg msg (SrcNode (nm 0)) (DstNode (nm 2))) = SynchState nr uw data ∧
    run_elder (toy_env net1) 1 (SynchState nr uw data) new_node = (res, sb') ∧
    roles sb' !! 1%nat = Some (Elder xb') ∧ history (transfers xb') (key 20) = history Replicas.Witness.s3.1 (key 20) ∧
    node_wallets (section_funds xb') !! nm 40 = Some (5, key 41).
Proof.
  destruct (elder_sync_end_to_end (toy_env net1) 1 old_elder old_node ElderDb.Witness.with_map (toy_env net1) 1 new_elder
    new_node empty_db root_prefix (mid 3) {[ nm 2 ]} (SrcNode (nm 0)) (nm 2) eq_refl old_can_push eq_refl new_can_take)
    as (msg & nr & uw & data & res & sb' & xb' & dbb' & H1 & H2 & H3 & H4 & _ & H6 & H7 & _).
  exists msg, nr, uw, data, res, sb', xb'. split; [exact H1|]. split; [exact H2|]. split; [exact H3|]. split; [exact H4|].
  split; [exact (H6 (key 20))|]. apply H7; vm_compute; reflexivity.
Defined.

Lemma fresh_dir_check dir fs : Forall (λ q, take (length dir) q ≠ dir) (map_to_list (files fs)).*1 → fresh_dir dir fs.
Proof.
  intros Hall p Hp. destruct (files fs !! p) as [c|] eqn:Hc; [|done].
  apply elem_of_map_to_list, (list_elem_of_fmap_2 fst) in Hc. rewrite Forall_forall in Hall. by destruct (Hall p Hc).
Qed.

(** The node of [NodeRun], which has an adult's store below the same root. *)
Lemma promoted_elder_ready_witness :
  ∃ x s', level_up (toy_env net1) started = (Ok tt, s') ∧ roles s' !! 1%nat = Some (Elder x) ∧ can_take s' x empty_db ∧
    roles s' !! 0%nat = roles started !! 0%nat.
Proof.
  destruct (replica_info (e_routing (toy_env net1)) (e_chain (toy_env net1))) as [i|err] eqn:Hi; [|discriminate Hi].
  assert (role started = 0%nat) as Hrole by (vm_compute; reflexivity).
  assert (ni_root_dir (node_info started) = ["node"]) as Hroot by (vm_compute; reflexivity).
  assert (dbs started = no_dbs) as Hdbs by (vm_compute; reflexivity).
  destruct (promoted_elder_ready (toy_env net1) started i) as (x & s' & H1 & H2 & H3 & H4 & _ & H6).
  - apply (bool_decide_unpack _). vm_compute. exact I.
  - vm_compute. reflexivity.
  - split; vm_compute; discriminate.
  - rewrite Hroot. repeat apply Forall_cons_2; try apply Forall_nil_2; apply fresh_dir_check, (bool_decide_unpack _); vm_compute; exact I.
  - rewrite Hroot, Hdbs. split.
    + intros k k' p Hk Hk'. exact (toy_store_path_inj k k' ["node"] p Hk Hk').
    + reflexivity.
    + reflexivity.
    + intros k p _. apply lookup_empty.
  - exact Hi.
  - exists x, s'. rewrite H2, Hrole in H3. split; [exact H1|]. split; [exact H3|]. split; [exact H4|]. apply H6. rewrite Hrole. lia.
Defined.

(** The section of all names splits; wallet 20 is not of the upper half. *)
Definition key_a : PublicKey := key 8.
Lemma section_split_spec_witness :
  ∃ x' s', (begin_split_as_oldie (toy_env net1) 1 Replicas.Witness.top_half (key 9) key_a {[ nm 2 ]} {[ nm 3 ]} old_node).2 = s' ∧
    roles s' !! 1%nat = Some (Elder x') ∧ history (transfers x') (key 20) = Ok ActorHistory_empty.
Proof.
  destruct (replica_info (e_routing (toy_env net1)) (e_chain (toy_env net1))) as [i|err] eqn:Hi; [|discriminate Hi].
  destruct (section_split_spec (toy_env net1) 1 old_elder old_node ElderDb.Witness.with_map Replicas.Witness.top_half (key 9)
    key_a {[ nm 2 ]} {[ nm 3 ]} i eq_refl old_can_push Hi) as (data1 & data2 & x' & s' & H1 & _ & _ & H4 & _ & H6 & _).
  - intros k st Hk. destruct (Replicas.Witness.s3_stores k st Hk) as (-> & Hp & _). rewrite Hp. reflexivity.
  - exact Replicas.Witness.distinct_root.
  - exists x', s'. rewrite H1. split; [reflexivity|]. split; [exact H4|]. exact (H6 (key 20)).
Defined.
End Witness.
