(* ===== verification/SyncRace.v ===== *)
(** Several initial syncs at once.  Every elder of the section pushes its state
    to a new elder, and each packet is a task.  A task of [synch_state] takes and
    releases one lock after the other, so the sections of several tasks that all
    saw the flag unset can run in any order.  Here the task is cut at its locks,
    and all those orders are compared with one sync. *)

From S2P Require Import Prelude Crates Messages Disk Toy StateDb F64 UsedSpace ChunkStore Network Messaging Capacity Chunks.
From S2P Require Import AdultLiveness BlobRecords ElderData RewardCalc RewardStage RewardProcess SectionFunds.
From S2P Require Import TransferStore Replicas Transfers EventMapping Metadata StoreFrame ElderDb DataFlow Node NodeRun NodeSync.

Section race.
Context `{DO : DataOpsCrate} `{MC : !MessagingCrate} `{EC : !EncodingCrate} `{MO : !MessagingOps} `{WC : !WireCrate}
        `{SH : !ShuffleCrate}.
Context `{SMA : !Serde MapAddress} `{SM : !Serde Map} `{SSA : !Serde SequenceAddress} `{SS : !Serde Sequence}
        `{SRA : !Serde RegisterAddress} `{SR : !Serde Register} `{SBA : !Serde BlobAddress} `{SB : !Serde Blob}.
Context `{SN : !Serde XorName} `{SD : !Serde SignedDebit} `{SSC : !Serde SignedCredit} `{SC : !Serde Credit}
        `{SCP : !Serde CreditAgreementProof} `{SDC : !Serde DataCmd}
        `{DBG : !DebugT ReplicaEvent} `{PC : !PickleCrate ReplicaEvent} `{TC : !TransfersCrate}.
Context `{EL : !EncodingLaws} `{DL : !DataOpsLaws} `{PL : !PickleLaws (T := ReplicaEvent)} `{TL : !TransfersLaws}.
Context `{SMAL : !SerdeLaws MapAddress} `{SML : !SerdeLaws Map} `{SSAL : !SerdeLaws SequenceAddress}
        `{SSL : !SerdeLaws Sequence} `{SRAL : !SerdeLaws RegisterAddress} `{SRL : !SerdeLaws Register}.
Context `{SMAT : !SerdeTotal MapAddress} `{SMT : !SerdeTotal Map} `{SSAT : !SerdeTotal SequenceAddress}
        `{SST : !SerdeTotal Sequence} `{SRAT : !SerdeTotal RegisterAddress} `{SRT : !SerdeTotal Register}.

(** The elder, and the packet that all the tasks have. *)
Context (e : Env) (id : nat) (nr : gmap XorName (Z * PublicKey)) (uw : gmap PublicKey ActorHistory) (data : DataExchange).

(** * The sections of a sync *)

Inductive sync_section : Type :=
| SecMerge
| SecWallet (key : XorName) (w : Z * PublicKey)
| SecUpdate
| SecFlag.

#[global] Instance sync_section_eq_dec : EqDecision sync_section.
Proof. solve_decision. Defined.

Definition run_section (x : sync_section) : M Error Node unit :=
  match x with
  | SecMerge => with_transfers e id (tf_merge uw)
  | SecWallet key (age, wallet) => with_funds id (modify (set_node_wallet key wallet age))
  | SecUpdate => with_meta id (md_update data)
  | SecFlag => set_received_initial_sync id
  end.

(** What a task does once it saw the flag unset. *)
Definition sections : list sync_section :=
  SecMerge :: (((λ '(key, w), SecWallet key w) <$> btree_entries name_cmp nr) ++ [SecUpdate; SecFlag]).

(** [synch_state] is the check, the sections and the answer. *)
Lemma synch_state_sections key x s :
  roles s !! id = Some (Elder x) → received_initial_sync x = false →
  synch_state e id key nr uw data s =
    (for_each sections run_section ;;;
     if bool_decide (nr !! our_name (e_routing e) = None) then ret (Send (register_wallet e key)) else ret NoOp) s.
Proof.
  intros Hx Hr. unfold synch_state, bind at 1. rewrite (with_elder_run id x s Hx), Hr. cbn [ret].
  unfold sections. cbn [for_each]. unfold bind. cbn [run_section].
  destruct (with_transfers e id (tf_merge uw) s) as [[[]|] s1]; [|done]. rewrite for_each_app. unfold bind.
  rewrite for_each_fmap.
  rewrite (for_each_ext _ (λ a : XorName * (Z * PublicKey), run_section ((λ '(key, w), SecWallet key w) a))
    (λ '(key, (age, wallet)), with_funds id (modify (set_node_wallet key wallet age)))) by (by intros [? []]).
  destruct (for_each (btree_entries name_cmp nr) _ s1) as [[[]|] s2]; [|done]. cbn [for_each]. unfold bind. cbn [run_section].
  destruct (with_meta id (md_update data) s2) as [[[]|] s3]; [|done].
  by destruct (set_received_initial_sync id s3) as [[[]|] s4].
Qed.

(** * The tasks together *)

Definition copies {A} (n : nat) (l : list A) : list A := concat (replicate n l).

(** The sections of [n] tasks. *)
Definition sync_tasks (n : nat) : list sync_section := copies n sections.

Definition merges (l : list sync_section) : nat := length (filter (λ x, x = SecMerge) l).

Lemma copies_S {A} n (l : list A) : copies (S n) l = copies n l ++ l.
Proof. unfold copies. rewrite replicate_S_end, concat_app. cbn. by rewrite app_nil_r. Qed.

Lemma elem_of_copies {A} n (l : list A) a : a ∈ copies n l → a ∈ l.
Proof. induction n as [|n IH]; [by intros ?%not_elem_of_nil|]. rewrite copies_S, elem_of_app. by intros [?%IH|?]. Qed.

Lemma elem_of_sections x : x ∈ sections ↔ match x with SecWallet k w => nr !! k = Some w | _ => True end.
Proof.
  unfold sections. rewrite elem_of_cons, elem_of_app, list_elem_of_fmap, !elem_of_cons, elem_of_nil.
  destruct x as [|k w| |]; [naive_solver| |naive_solver..]. split.
  - intros [?|[([k' w'] & [= -> ->] & Hin)|[?|[?|[]]]]]; [done| |done..]. by apply elem_of_btree_entries in Hin.
  - intros Hw. right. left. exists (k, w). split; [done|]. by apply elem_of_btree_entries.
Qed.

Lemma elem_of_sync_tasks n x : (0 < n)%nat → x ∈ sync_tasks n ↔ x ∈ sections.
Proof.
  intros Hn. split; [apply elem_of_copies|]. destruct n as [|n]; [lia|]. intros Hx. unfold sync_tasks.
  rewrite copies_S, elem_of_app. by right.
Qed.

Lemma merges_app l1 l2 : merges (l1 ++ l2) = (merges l1 + merges l2)%nat.
Proof. unfold merges. by rewrite filter_app, length_app. Qed.

Lemma merges_sync_tasks n : merges (sync_tasks n) = n.
Proof.
  assert (merges sections = 1%nat) as H1.
  { unfold sections, merges. rewrite filter_cons_True, filter_app by done. cbn [length]. f_equal.
    rewrite length_app, (filter_cons_False _ SecUpdate), (filter_cons_False _ SecFlag) by done. rewrite Nat.add_0_r.
    by induction (btree_entries name_cmp nr) as [|[k w] l IH]. }
  unfold sync_tasks. induction n as [|n IH]; [done|]. rewrite copies_S, merges_app, H1, IH. lia.
Qed.

(** The history of a wallet that got the same events several times. *)
Lemma history_of_app_known l1 l2 : (∀ ev, ev ∈ l2 → ev ∈ l1) → history_of (l1 ++ l2) = history_of l1.
Proof.
  intros Hin. unfold history_of, get_credits, get_debits. rewrite !omap_app.
  rewrite !unique_by_app_known; [done|..]; intros y (ev & Hev & Hy)%list_elem_of_omap;
    apply list_elem_of_fmap; exists y; (split; [done|]); apply list_elem_of_omap; eauto.
Qed.

Lemma history_of_copies n l : history_of (copies (S n) l) = history_of l.
Proof.
  induction n as [|n IH]; [by rewrite copies_S|]. rewrite copies_S, history_of_app_known; [done|].
  intros ev Hev. rewrite copies_S, elem_of_app. by right.
Qed.

(** The elder after the sections [l]. *)
Record ran (root : path) (db0 : elder_db) (l : list sync_section) (s : Node) (x : ElderRole) (db : elder_db) : Prop := mkRan {
  ran_role : roles s !! id = Some (Elder x);
  ran_logs : logs_are root (λ k, copies (merges l) (packet_events uw k)) (transfers x, dbs s);
  ran_nodes : ∀ n w, nr !! n = Some w → SecWallet n w ∈ l → node_wallets (section_funds x) !! n = Some w;
  ran_data : elder_holds (meta_data x, disk s) db;
  ran_maps : ∀ a, db_maps db a = if bool_decide (SecUpdate ∈ l) then taken_in (map_data data) (db_maps db0) a else db_maps db0 a;
  ran_seqs : ∀ a, db_seqs db a = if bool_decide (SecUpdate ∈ l) then taken_in (seq_data data) (db_seqs db0) a else db_seqs db0 a;
  ran_flag : received_initial_sync x = bool_decide (SecFlag ∈ l);
}.

(** What an elder sends: histories of wallets, and data under its address. *)
Record sent_packet : Prop := {
  sp_wallets : ∀ k h, uw !! k = Some h → ∃ l, h = history_of l ∧ Forall (λ ev, event_wallet ev = k) l;
  sp_maps : ∀ a c, map_data data !! a = Some c → map_id c = a;
  sp_seqs : ∀ a c, seq_data data !! a = Some c → sequence_address c = a;
}.

Lemma elem_of_snoc {A} (l : list A) a b : a ∈ l ++ [b] ↔ a ∈ l ∨ a = b.
Proof. by rewrite elem_of_app, list_elem_of_singleton. Qed.

Lemma taken_in_twice {K A} `{Countable K} (d : gmap K A) m k :
  (match d !! k with Some c => Some c | None => taken_in d m k end) = taken_in d m k.
Proof. unfold taken_in. by destruct (d !! k). Qed.

Lemma copies_other l x : x ≠ SecMerge → merges (l ++ [x]) = merges l.
Proof. intros Hx. rewrite merges_app. unfold merges at 2. rewrite filter_cons_False by done. cbn. lia. Qed.

Lemma done_other (l : list sync_section) x y : x ≠ y → bool_decide (x ∈ l ++ [y]) = bool_decide (x ∈ l).
Proof. intros Hxy. apply bool_decide_ext. rewrite elem_of_snoc. naive_solver. Qed.

Lemma done_now (l : list sync_section) x : bool_decide (x ∈ l ++ [x]) = true.
Proof. apply bool_decide_eq_true, elem_of_snoc. by right. Qed.

Section steps.
Context (root : path) (db0 : elder_db) (Hdist : distinct_paths root)
        (Hpaths : ∀ k, is_ok (store_path (name_of_pk k) root) = true) (Hsent : sent_packet).

Lemma ran_merge l s x db :
  ran root db0 l s x db → ∃ x' s', run_section SecMerge s = (Ok tt, s') ∧ ran root db0 (l ++ [SecMerge]) s' x' db.
Proof.
  intros [Hx Hlogs Hn Hd Hm Hq Hf].
  destruct (setup_ok root Hdist Hpaths uw (λ k, copies (merges l) (packet_events uw k))
    (sign_with (e_routing e) (transfers x), dbs s)) as ([R w] & Hrun & Hlogs'); [|exact Hlogs|].
  { intros k h Hk. destruct (sp_wallets Hsent k h Hk) as (lk & -> & Hown). by apply history_owners. }
  eexists _, _. split; [exact (with_transfers_run id x s Hx e (tf_merge uw) _ _ _ Hrun)|].
  split; [apply update_role_lookup| | |exact Hd|intros a; by rewrite done_other..|by rewrite done_other].
  - eapply logs_are_ext; [|exact Hlogs']. intros k. rewrite merges_app. change (merges [SecMerge]) with 1%nat.
    by rewrite Nat.add_1_r, copies_S.
  - intros n w' Hw [Hin|?]%elem_of_snoc; [by apply Hn|done].
Qed.

Lemma ran_wallet l s x db k w :
  nr !! k = Some w → ran root db0 l s x db →
  ∃ x' s', run_section (SecWallet k w) s = (Ok tt, s') ∧ ran root db0 (l ++ [SecWallet k w]) s' x' db.
Proof.
  intros Hk [Hx Hlogs Hn Hd Hm Hq Hf]. destruct w as [age wallet].
  eexists _, _. split; [exact (with_funds_run id x s Hx _)|].
  split; [apply update_role_lookup|by rewrite copies_other| |exact Hd|intros a; by rewrite done_other..|by rewrite done_other].
  intros n w' Hw Hin%elem_of_snoc. cbn [section_funds].
  change (set_node_wallet k wallet age (section_funds x)) with (register_all [(k, (age, wallet))] (section_funds x)).
  rewrite (register_all_lookup [(k, (age, wallet))] (section_funds x) n) by (apply NoDup_singleton).
  cbn [list_to_map foldr]. rewrite lookup_insert. cbn [fst snd].
  destruct (decide (k = n)) as [Heq|Heq]; [by simplify_eq|].
  destruct Hin as [Hin|[= -> ->]]; [|done]. rewrite lookup_empty. by apply Hn.
Qed.

Lemma ran_flag_set l s x db :
  ran root db0 l s x db → ∃ x' s', run_section SecFlag s = (Ok tt, s') ∧ ran root db0 (l ++ [SecFlag]) s' x' db.
Proof.
  intros [Hx Hlogs Hn Hd Hm Hq Hf]. cbn [run_section]. unfold set_received_initial_sync. rewrite (with_elder_run id x s Hx).
  eexists _, _. split; [done|].
  split; [apply update_role_lookup|by rewrite copies_other| |exact Hd|intros a; by rewrite done_other..|by rewrite done_now].
  intros n w' Hw [Hin|?]%elem_of_snoc; [by apply Hn|done].
Qed.

Lemma ran_update l s x db :
  ran root db0 l s x db →
  ∃ res s', run_section SecUpdate s = (res, s') ∧
    (res = Err NotEnoughSpace ∨ res = Ok tt ∧ ∃ x' db', ran root db0 (l ++ [SecUpdate]) s' x' db').
Proof.
  intros [Hx Hlogs Hn Hd Hm Hq Hf].
  destruct (md_update_holds data (meta_data x, disk s) db Hd (sp_maps Hsent) (sp_seqs Hsent))
    as (res & [st d] & db' & Hup & Hh' & _ & Hres).
  eexists res, _. split; [exact (with_meta_run id x s Hx (md_update data) _ _ _ Hup)|].
  destruct Hres as [->|(-> & Hm' & Hq' & _)]; [by left|right]. split; [done|]. eexists _, db'.
  split; [apply update_role_lookup|by rewrite copies_other| |exact Hh'| | |by rewrite done_other].
  - intros n w' Hw [Hin|?]%elem_of_snoc; [by apply Hn|done].
  - intros a. rewrite Hm', done_now. unfold taken_in at 1. rewrite Hm. destruct (bool_decide _); [apply taken_in_twice|done].
  - intros a. rewrite Hq', done_now. unfold taken_in at 1. rewrite Hq. destruct (bool_decide _); [apply taken_in_twice|done].
Qed.

Lemma ran_section l s x db a :
  a ∈ sections → ran root db0 l s x db →
  ∃ res s', run_section a s = (res, s') ∧
    (res = Err NotEnoughSpace ∨ res = Ok tt ∧ ∃ x' db', ran root db0 (l ++ [a]) s' x' db').
Proof.
  intros Ha%elem_of_sections Hr. destruct a as [|k w| |]; [|..|by eapply ran_update|].
  - destruct (ran_merge l s x db Hr) as (x' & s' & ? & ?). exists (Ok tt), s'. eauto 6.
  - destruct (ran_wallet l s x db k w Ha Hr) as (x' & s' & ? & ?). exists (Ok tt), s'. eauto 6.
  - destruct (ran_flag_set l s x db Hr) as (x' & s' & ? & ?). exists (Ok tt), s'. eauto 6.
Qed.

Lemma ran_all l' l s x db :
  (∀ a, a ∈ l' → a ∈ sections) → ran root db0 l s x db →
  ∃ res s', for_each l' run_section s = (res, s') ∧
    (res = Err NotEnoughSpace ∨ res = Ok tt ∧ ∃ x' db', ran root db0 (l ++ l') s' x' db').
Proof.
  revert l s x db. induction l' as [|a l' IH]; intros l s x db Hin Hr; cbn [for_each].
  - exists (Ok tt), s. split; [done|]. right. split; [done|]. rewrite app_nil_r. eauto.
  - destruct (ran_section l s x db a) as (res & s1 & Hrun & Hres); [apply Hin; by left|done|].
    unfold bind. rewrite Hrun. destruct Hres as [->|(-> & x1 & db1 & Hr1)]; [by eauto|].
    destruct (IH (l ++ [a]) s1 x1 db1) as (res & s2 & Hrun2 & Hres2); [intros; apply Hin; by right|done|].
    exists res, s2. split; [done|]. by rewrite <- app_assoc in Hres2.
Qed.
End steps.

Lemma can_take_ran s x db : roles s !! id = Some (Elder x) → can_take s x db → ran (Replicas.root_dir (transfers x)) db [] s x db.
Proof.
  intros Hx [Hnew Hempty Hdist Hpaths Hhealthy Hclean Hdata]. split; [done| |by intros ? ? _ ?%not_elem_of_nil|done..].
  split; [done|]. split; [done|]. intros k. unfold wallet_log. cbn [fst snd]. rewrite Hempty, lookup_empty.
  split; [|done]. split; [done|]. intros p m Hp. by rewrite (Hclean k p Hp).
Qed.

(** C23: initial syncs that run at the same time agree.  The flag that a sync
    came is read before the sync and set after it, under different locks, so
    several packets with the section's state can be taken in together.  For any
    number of tasks and any order of their sections the new elder ends, unless
    there is no room, with the histories, node wallets, maps and sequences of
    one packet and the flag set; but the log of a wallet has the packet's events
    once for each task. *)
Theorem concurrent_syncs_agree s x db n l :
  roles s !! id = Some (Elder x) → can_take s x db → sent_packet → (0 < n)%nat → l ≡ₚ sync_tasks n →
  (∀ k, log_fits (copies n (packet_events uw k))) →
  ∃ res s', for_each l run_section s = (res, s') ∧
    (res = Err NotEnoughSpace ∨
     res = Ok tt ∧ ∃ x' db', roles s' !! id = Some (Elder x') ∧ received_initial_sync x' = true ∧
       (∀ k, history (transfers x') k = Ok (default ActorHistory_empty (uw !! k))) ∧
       (∀ k, wallet_log (transfers x', dbs s') k (copies n (packet_events uw k))) ∧
       (∀ m w, nr !! m = Some w → node_wallets (section_funds x') !! m = Some w) ∧
       elder_holds (meta_data x', disk s') db' ∧
       (∀ a, db_maps db' a = taken_in (map_data data) (db_maps db) a) ∧
       (∀ a, db_seqs db' a = taken_in (seq_data data) (db_seqs db) a)).
Proof.
  intros Hx Htake Hsent Hn Hl Hfits.
  assert (∀ a, a ∈ l ↔ a ∈ sections) as Hin by (intros a; rewrite Hl; by apply elem_of_sync_tasks).
  destruct (ran_all _ db (ct_distinct _ _ _ Htake) (ct_paths _ _ _ Htake) Hsent l [] s x db) as (res & s' & Hrun & Hres);
    [intros a; apply Hin|by apply can_take_ran|].
  exists res, s'. split; [done|]. destruct Hres as [->|(-> & x' & db' & Hr)]; [by left|right]. split; [done|].
  destruct Hr as [Hx' (_ & _ & Hlogs) Hnodes Hd Hm Hq Hf]. cbn [app] in *.
  assert (merges l = n) as Hmerges.
  { rewrite <- (merges_sync_tasks n). unfold merges. by rewrite Hl. }
  rewrite Hmerges in Hlogs. rewrite bool_decide_true in Hf by (by apply Hin, elem_of_sections).
  assert (bool_decide (SecUpdate ∈ l) = true) as Hup by (by apply bool_decide_eq_true, Hin, elem_of_sections).
  rewrite Hup in *. exists x', db'. split; [done|]. split; [done|]. split.
  { intros k. destruct (Hlogs k) as [Hlog _]. pose proof (history_log _ k _ Hlog (Hfits k)) as Hh. cbn [fst] in Hh. rewrite Hh. destruct n as [|n]; [lia|].
    rewrite history_of_copies. unfold packet_events. destruct (uw !! k) as [h|] eqn:Hk; [|done].
    destruct (sp_wallets Hsent k h Hk) as (lk & -> & _). by rewrite history_of_sync. }
  split; [intros k; apply Hlogs|]. split; [|done]. intros m w Hw. apply Hnodes; [done|]. by apply Hin, elem_of_sections.
Qed.
End race.

Module Witness.
Import ToyCrates ToySerde ToyRouting ToyPickle ToyTransfers ToyElderData ToyWire ToyEd ToyNode.

(** Two packets of the elder of [NodeSync] with its wallet, its node and its
    map; the second task starts before the first is done. *)
Definition users : gmap PublicKey ActorHistory := user_wallets Replicas.Witness.s3.1.
Definition nodes : gmap XorName (Z * PublicKey) := {[ nm 40 := (5, key 41) ]}.
Definition exchange : DataExchange :=
  mkDataExchange (mkBlobDataExchange ∅) {[ ElderDb.Witness.maddr 3 := ElderDb.Witness.map0 ]} ∅.
Definition order : list sync_section :=
  [SecMerge; SecMerge; SecWallet (nm 40) (5, key 41); SecUpdate; SecWallet (nm 40) (5, key 41); SecFlag; SecUpdate; SecFlag].

Lemma users_sent k h :
  users !! k = Some h → ∃ l, h = history_of l ∧ Forall (λ ev, event_wallet ev = k) l ∧ length l = 3%nat.
Proof.
  unfold users. rewrite user_wallets_lookup, fmap_Some. intros (st & Hk & ->).
  destruct (Replicas.Witness.s3_stores k st Hk) as (_ & _ & Hsize). destruct Replicas.Witness.s3_inv as [Hinv _].
  destruct (Hinv k st Hk) as [_ (l & Hl & Hown)]. rewrite Hl, log_map_size in Hsize. exists l.
  rewrite (get_all_log st l Hl); [done|]. unfold log_fits. rewrite Hsize. vm_compute. discriminate.
Qed.

(** The history of wallet 20 is in the packet. *)
Lemma users_20 : history Replicas.Witness.s3.1 (key 20) = Ok (default ActorHistory_empty (users !! key 20)).
Proof.
  unfold users. rewrite user_wallets_lookup. destruct (stores Replicas.Witness.s3.1 !! key 20) as [st|] eqn:Hk.
  - by rewrite (history_store _ _ st Hk).
  - unfold history. by rewrite Hk.
Qed.

Lemma sent : sent_packet users exchange.
Proof.
  split.
  - intros k h (l & Hh & Hl & _)%users_sent. by exists l.
  - intros a c Hc. cbn [exchange map_data] in Hc. by apply lookup_singleton_Some in Hc as [<- <-].
  - intros a c Hc. cbn [exchange seq_data] in Hc. by rewrite lookup_empty in Hc.
Qed.

Lemma concurrent_syncs_agree_witness :
  ∃ s' x', for_each order (run_section (toy_env net1) 1 users exchange) NodeSync.Witness.new_node = (Ok tt, s') ∧
    roles s' !! 1%nat = Some (Elder x') ∧ received_initial_sync x' = true ∧
    history (transfers x') (key 20) = history Replicas.Witness.s3.1 (key 20) ∧
    wallet_log (transfers x', dbs s') (key 20) (packet_events users (key 20) ++ packet_events users (key 20)).
Proof.
  destruct (concurrent_syncs_agree (toy_env net1) 1 nodes users exchange NodeSync.Witness.new_node NodeSync.Witness.new_elder
    empty_db 2 order eq_refl NodeSync.Witness.new_can_take sent) as (res & s' & Hrun & Hres).
  - lia.
  - apply (bool_decide_unpack _). vm_compute. exact I.
  - intros k. unfold copies, packet_events, log_fits. destruct (users !! k) as [h|] eqn:Hk; [|vm_compute; discriminate].
    destruct (users_sent k h Hk) as (l & -> & _ & Hl). cbn [replicate concat]. rewrite !length_app. cbn [length].
    pose proof (sync_events_length l). unfold u64_max. lia.
  - assert (is_ok (for_each order (run_section (toy_env net1) 1 users exchange) NodeSync.Witness.new_node).1 = true) as Hok
      by (vm_compute; reflexivity).
    rewrite Hrun in Hok. destruct Hres as [->|(-> & x' & db' & Hx & Hf & Hh & Hl & _)]; [discriminate Hok|].
    exists s', x'. split; [exact Hrun|]. split; [exact Hx|]. split; [exact Hf|].
    split; [rewrite Hh; symmetry; exact users_20|]. pose proof (Hl (key 20)) as Hl20. unfold copies in Hl20.
    cbn [replicate concat] in Hl20. rewrite app_nil_r in Hl20. exact Hl20.
Defined.
End Witness.
