(* ===== verification/PaidWrite.v ===== *)
(** A paid write, followed through the nodes it passes: the elder that takes the
    payment and the elder of the section of the data. *)

From S2P Require Import Prelude Crates Messages Disk Toy StateDb F64 UsedSpace ChunkStore Network Messaging Capacity Chunks.
From S2P Require Import AdultLiveness BlobRecords ElderData RewardCalc RewardStage RewardProcess SectionFunds.
From S2P Require Import TransferStore Replicas Transfers EventMapping Metadata StoreFrame ElderDb DataFlow Node NodeRun NodeSync.

Section paid_write.
Context `{DO : DataOpsCrate} `{MC : !MessagingCrate} `{EC : !EncodingCrate} `{MO : !MessagingOps} `{WC : !WireCrate}
        `{SH : !ShuffleCrate}.
Context `{SMA : !Serde MapAddress} `{SM : !Serde Map} `{SSA : !Serde SequenceAddress} `{SS : !Serde Sequence}
        `{SRA : !Serde RegisterAddress} `{SR : !Serde Register} `{SBA : !Serde BlobAddress} `{SB : !Serde Blob}.
Context `{SN : !Serde XorName} `{SD : !Serde SignedDebit} `{SSC : !Serde SignedCredit} `{SC : !Serde Credit}
        `{SCP : !Serde CreditAgreementProof} `{SDC : !Serde DataCmd}
        `{DBG : !DebugT ReplicaEvent} `{PC : !PickleCrate ReplicaEvent} `{TC : !TransfersCrate}.
Context `{EL : !EncodingLaws} `{DL : !DataOpsLaws} `{PL : !PickleLaws (T := ReplicaEvent)} `{TL : !TransfersLaws}.
Context `{SMAL : !SerdeLaws MapAddress} `{SML : !SerdeLaws Map} `{SSAL : !SerdeLaws SequenceAddress}
        `{SSL : !SerdeLaws Sequence} `{SRAL : !SerdeLaws RegisterAddress} `{SRL : !SerdeLaws Register}.
Context `{SMAT : !SerdeTotal MapAddress} `{SMT : !SerdeTotal Map} `{SSAT : !SerdeTotal SequenceAddress}
        `{SST : !SerdeTotal Sequence} `{SRAT : !SerdeTotal RegisterAddress} `{SRT : !SerdeTotal Register}.

(** The replica of an elder at work. *)
Definition replica_of (e : Env) (x : ElderRole) (s : Node) : Replicas * DbWorld (T := ReplicaEvent) :=
  (sign_with (e_routing e) (transfers x), dbs s).

(** A payment the elder accepts for a write. *)
Record accepted (e : Env) (x : ElderRole) (s : Node) (payment : TransferAgreementProof) (cmd : DataCmd) : Prop := {
  acc_recipient : tap_recipient payment = section_wallet_id (transfers x);
  acc_taken : (take_payment payment (replica_of e x s)).1 = true;
  acc_readable : e_info_logged e = true →
    is_ok (balance (take_payment payment (replica_of e x s)).2.1 (tap_recipient payment)) = true;
  acc_covers : ∃ bytes, ser cmd = Ok bytes ∧ covers (elder_cost e x) payment bytes;
}.

(** The wallets of the elder are sound, and [ls] and [lr] are the logs of the
    payer and of the section, which are different wallets. *)
Record payable (s : Replicas * DbWorld (T := ReplicaEvent)) (payment : TransferAgreementProof) (ls lr : list ReplicaEvent) :
    Prop := {
  pay_inv : replicas_inv s;
  pay_paths : distinct_paths (root_dir s.1);
  pay_other : tap_sender payment ≠ tap_recipient payment;
  pay_sender : wallet_log s (tap_sender payment) ls;
  pay_recipient : wallet_log s (tap_recipient payment) lr;
}.

(** The key an elder signs with does not matter to its wallets. *)
Lemma payable_signed r s payment ls lr : payable s payment ls lr → payable (sign_with r s.1, s.2) payment ls lr.
Proof. by intros []; split. Qed.

(** An accepted payment: the write is passed on, and the logs have the payment. *)
Lemma accepted_forwards e x s payment cmd ls lr msg_id client_signed origin :
  accepted e x s payment cmd → payable (replica_of e x s) payment ls lr →
  ∃ s', process_payment (elder_cost e x) (e_info_logged e) msg_id payment cmd client_signed origin (replica_of e x s) =
          (Ok [forward_write msg_id cmd client_signed origin], s') ∧ paid_logs payment ls lr s'.
Proof.
  intros [Hrec Htaken Hread (bytes & Hser & c & Hc & Hle)] [Hinv Hd Hne Hls Hlr].
  pose proof (payment_ends (elder_cost e x) (e_info_logged e) msg_id payment cmd client_signed origin
    (replica_of e x s) bytes Hser) as Hend.
  destruct (process_payment _ _ _ _ _ _ _ _) as [r s']. exists s'.
  destruct Hend as [Hno|s' _ Ht|s' err _ Ht Hlog Hb|s' err _ _ _ Hshort|s' _ Ht _ _].
  - destruct (Hno Hrec).
  - by rewrite Ht in Htaken.
  - rewrite Ht in Hread. cbn [snd] in Hread. specialize (Hread Hlog). by rewrite Hb in Hread.
  - destruct Hshort as [(c' & Hc' & Hlt & _)|(err' & Hc' & _)]; rewrite Hc in Hc'; [injection Hc' as <-; lia|done].
  - split; [done|]. by eapply take_payment_logs.
Qed.

(** C12: a paid write gets to the data.  The client's message makes the elder
    take the payment; an accepted payment makes it send the write on, the
    message makes an elder of the data's section write, and that does to its
    database what the checks of the write allow.  The debit is then in the log of
    the payer at the first elder, and the credit in that of the section.  (A node
    that logs at info level accepts only when it can read the section's balance.)
    The payer is not the section itself, the wallets of the first elder have logs as
    a replica keeps them, in files of different names, and the disk of the second
    elder does not fail. *)
Theorem paid_write_end_to_end ea ida xa sa eb idb xb sb db id payment cmd client_signed origin src ls lr :
  roles sa !! ida = Some (Elder xa) → accepted ea xa sa payment cmd → payable (replica_of ea xa sa) payment ls lr →
  roles sb !! idb = Some (Elder xb) → elder_holds (meta_data xb, disk sb) db →
  let client_msg := PmCmd id (CmdData payment cmd) client_signed in
  let id' := in_response_to id in
  ∃ fwd sa' xa' r sb' xb' db',
    op (map_client_msg (CmProcess client_msg) origin) = ProcessDataPayment client_msg origin ∧
    run_elder ea ida (ProcessDataPayment client_msg origin) sa = (Ok [Send fwd], sa') ∧
    roles sa' !! ida = Some (Elder xa') ∧ paid_logs payment ls lr (transfers xa', dbs sa') ∧
    duty_of_msg fwd src = Some (ProcessWrite cmd id' client_signed origin) ∧
    run_elder eb idb (ProcessWrite cmd id' client_signed origin) sb =
      (match r with Ok duty => Ok [duty] | Err err => Err (Fail err) end, sb') ∧
    roles sb' !! idb = Some (Elder xb') ∧ elder_holds (meta_data xb', disk sb') db' ∧
    db_step db (mkRequest (e_routing eb) (inr cmd) id' client_signed origin) r db'.
Proof.
  intros Hxa Hacc Hpayable Hxb Hdb client_msg id'.
  destruct (accepted_forwards ea xa sa payment cmd ls lr id client_signed origin Hacc Hpayable) as ([R w] & Hpay & Hlogs).
  set (q := mkRequest (e_routing eb) (inr cmd) id' client_signed origin).
  destruct (serve_write q cmd (meta_data xb, disk sb) db eq_refl Hdb) as (r & [st d] & db' & Hserve & Hdb' & Hstep).
  pose proof (with_transfers_run ida xa sa Hxa ea _ _ _ _ Hpay) as Hrun.
  assert (handle_process_write (e_routing eb) cmd id' client_signed origin (meta_data xb, disk sb) =
          (match r with Ok duty => Ok [duty] | Err err => Err err end, (st, d))) as Hw.
  { unfold handle_process_write, bind. change (md_write _ _ _ _ _ _) with (serve q (meta_data xb, disk sb)).
    rewrite Hserve. by destruct r. }
  pose proof (with_meta_run idb xb sb Hxb _ _ _ _ Hw) as Hrunb.
  eexists _, _, _, r, _, _, db'. split; [done|]. split.
  { cbn [run_elder client_msg]. unfold no_panic, process_data_payment. rewrite (with_elder_run ida xa sa Hxa), Hrun. done. }
  split; [apply update_role_lookup|]. split; [exact Hlogs|]. split; [done|]. split.
  { cbn [run_elder]. unfold no_panic. rewrite Hrunb. by destruct r. }
  split; [apply update_role_lookup|]. split; [exact Hdb'|]. exact Hstep.
Qed.
End paid_write.

Module Witness.
Import ToyCrates ToySerde ToyRouting ToyPickle ToyTransfers ToyElderData ToyWire ToyEd ToyNode.

(** A section with four adults, and the elder of the payer. *)
Definition net4 : Routing :=
  toy_routing [mkPeer (nm 0) 5] [mkPeer (nm 1) 4; mkPeer (nm 2) 4; mkPeer (nm 3) 4; mkPeer (nm 4) 4] root_prefix.
(** A power that makes writes cheap. *)
Definition env4 : Env :=
  mkEnv net4 [9%N : BlsPublicKey] (key 30) (λ _, Ok tt) (λ i, mid (N.of_nat i)) (λ _ _, f64_lit 0) true keys9 sig0 false.
Definition cmd0 : DataCmd := DataCmdMap (MapNew ElderDb.Witness.map0).
Definition payer : ElderRole := mkElderRole ElderDb.Witness.new_elder.1 Replicas.Witness.s3.1 NodeSync.Witness.funds0 true.
Definition payer_node : Node := NodeSync.Witness.node_of payer ElderDb.Witness.new_elder.2 Replicas.Witness.s3.2.
Definition data_node : Node := NodeSync.Witness.node_of payer ElderDb.Witness.new_elder.2 Replicas.Witness.w0.

(** Wallet 20 has 70 left and pays 50. *)
Lemma payment_accepted : accepted env4 payer payer_node Transfers.Witness.payment cmd0.
Proof.
  split; [reflexivity|vm_compute; reflexivity|intros _; vm_compute; reflexivity|].
  assert (match elder_cost env4 payer (Z.of_nat (length (ElderDb.Witness.bytes_of cmd0))) with
          | Ok c => c <=? 50 | Err _ => false end = true) as Hc by (vm_compute; reflexivity).
  destruct (elder_cost env4 payer _) as [c|] eqn:Hcost; [|discriminate Hc]. apply Z.leb_le in Hc.
  exists (ElderDb.Witness.bytes_of cmd0). split; [reflexivity|]. exists c. split; [exact Hcost|exact Hc].
Qed.

Definition payer_log : list ReplicaEvent := Replicas.Witness.log_of Replicas.Witness.s3 (key 20).
Lemma payer_payable : payable (replica_of env4 payer payer_node) Transfers.Witness.payment payer_log [].
Proof.
  refine (payable_signed net4 Replicas.Witness.s3 Transfers.Witness.payment payer_log [] _).
  split; [exact Replicas.Witness.s3_inv|exact Replicas.Witness.distinct_root|intros Heq; discriminate Heq
         |vm_compute; reflexivity|exact Transfers.Witness.no_log_9].
Qed.

Lemma paid_write_end_to_end_witness :
  ∃ fwd sa' xa' r sb' xb' db',
    run_elder env4 1 (ProcessDataPayment (PmCmd (mid 5) (CmdData Transfers.Witness.payment cmd0) signer) (usr 6)) payer_node =
      (Ok [Send fwd], sa') ∧
    roles sa' !! 1%nat = Some (Elder xa') ∧ paid_logs Transfers.Witness.payment payer_log [] (transfers xa', dbs sa') ∧
    duty_of_msg fwd (SrcSection (nm 0)) = Some (ProcessWrite cmd0 (in_response_to (mid 5)) signer (usr 6)) ∧
    run_elder env4 1 (ProcessWrite cmd0 (in_response_to (mid 5)) signer (usr 6)) data_node =
      (match r with Ok duty => Ok [duty] | Err err => Err (Fail err) end, sb') ∧
    roles sb' !! 1%nat = Some (Elder xb') ∧ elder_holds (meta_data xb', disk sb') db' ∧
    db_step empty_db (mkRequest net4 (inr cmd0) (in_response_to (mid 5)) signer (usr 6)) r db'.
Proof.
  destruct (paid_write_end_to_end env4 1 payer payer_node env4 1 payer data_node empty_db (mid 5) Transfers.Witness.payment cmd0
    signer (usr 6) (SrcSection (nm 0)) payer_log [] eq_refl payment_accepted payer_payable eq_refl ElderDb.Witness.new_elder_holds)
    as (fwd & sa' & xa' & r & sb' & xb' & db' & _ & H2 & H3 & H4 & H5 & H6 & H7 & H8 & H9).
  exists fwd, sa', xa', r, sb', xb', db'. split; [exact H2|]. split; [exact H3|]. split; [exact H4|]. split; [exact H5|].
  split; [exact H6|]. split; [exact H7|]. split; [exact H8|exact H9].
Defined.
End Witness.
